(* ===== verification/_CoqProject ===== *)
-Q . S2P
Prelude.v
Types.v
Wire.v
Codec.v
CodecFacts.v
Slots.v
Guard.v
Arena.v
Progress.v
Quorum.v
Traits.v
Membership.v
NodeState.v
Node.v
Samples.v
Election.v
ConfigChange.v
Replication.v
Commit.v
Snapshot.v
Transfer.v
Inbound.v
Campaign.v
Leader.v
Install.v
Propose.v
ReadIndex.v
EngineState.v
Engine.v
EngineApi.v
Frames.v
ConfigFacts.v
Stability.v
Durability.v
Safety.v
CampaignFacts.v
ReplicationFacts.v
Walks.v
AppendFrames.v
Chains.v
LeaderSafety.v
LogSafety.v
Monitor.v
ReadFacts.v
Cluster.v
LogCluster.v
EngineFacts.v
Clients.v
Invariants.v
Multiplex.v
MultiplexFacts.v
Registry.v
Driver.v
Transports.v
DriverFacts.v
Termination.v
DispatchTx.v
DispatchFrames.v
CustomRegistry.v
NodeDispatch.v
Waiters.v
Findings.v
GroupFindings.v
ExampleStorage.v
ExampleFollower.v
ExampleTransport.v
ExampleTcp.v
ExampleRuns.v
ExampleTcpRun.v
ExampleMultiRaft.v
ExampleDispatch.v
ExampleSeeds.v
SeededStorage.v
SeededPath.v
BenchWal.v
BenchRuns.v
