(* ===== verification/Prelude.v ===== *)
(** * arbitro-raft: a verification development

    The program ([src/]) is a Raft library: a consensus node that the user embeds
    with a storage, a transport and a state machine of their own, an engine that
    runs one such node, and a driver that runs many groups on one core.  This
    development translates it into Rocq functions over explicit state and proves
    what makes it correct.

    ** The program and its files here

    _Foundations._  This file: results, machine integers (u64, u32 and u8 are [Z]
    with saturating and wrapping operations written out), little-endian bytes, list
    lemmas and tactics.  [Types]: ids, hard and soft state, configuration with
    [validate_node_config], errors and their classes ([entry/], [state/],
    [config/], [error/], [validation/]).  [Wire], [Codec]: the zerocopy structs,
    both encoders and the decoder ([protocol/]); encoders that index a buffer
    return [None] where Rust panics.  [Traits]: the traits of [traits/] as classes
    over the implementing type, their documented contracts as classes of laws
    ([StorageLaws], [HardStateIntegrity], [TransportLaws]), and reference instances
    ([MemStorage], [QueueTransport], [TickClock]) for the witnesses.

    _The node_ ([api/node/]).  [Arena], [Progress], [Quorum], [Membership] are its
    data structures.  [NodeState] has the record [RaftNode] and the two monads of
    its methods: [M] for [&mut self -> Result<A, RaftError>], which keeps the state
    on the error path as Rust does, and [L] for methods that wait for frames.
    [Node], [Election], [ConfigChange], [Replication], [Commit], [Snapshot],
    [Transfer] are the shared steps and the handlers, [Inbound] the dispatch of one
    message.  [Campaign], [Leader], [Install], [Propose], [ReadIndex] are the
    operations of candidates and leaders that wait for answers.

    _The engine_ ([api/arbitro_raft/]).  [Slots] (write slots with generations),
    [Guard] (abuse window, election timer, leader balance), [EngineState], [Engine]
    (the run loop and the apply loop), [EngineApi] (the public methods, start, stop
    and drain).

    _Many groups_ ([api/registry/], [api/transport/]).  [Multiplex] (one transport
    for all groups, frames parked per group), [Registry] (the group table and the
    batched heartbeats), [Driver] (timers, the lending of buffers, the tick).

    _Custom messages_ ([dispatch/], [api/custom_registry.rs],
    [api/node/dispatch.rs]).  [DispatchTx] (transactions with their policies and
    waiters), [DispatchFrames] (the two frame formats, transaction ids, the
    builder), [CustomRegistry] (handlers), [NodeDispatch] (the dispatch layer of a
    node), [Waiters] (what a step-down does to it).  The node refers to this layer through the class [CustomDispatch], so
    the theorems about nodes hold for every implementation with [DispatchLaws], and
    [NodeDispatch] discharges them for the real one.

    _The examples_ ([examples/]).  [ExampleStorage] (the default methods of the
    storage trait and the three in-memory storages), [ExampleFollower] (the
    hand-written follower), [ExampleTransport] (the no-op, channel and net
    transports), [ExampleTcp] (frames over a byte stream), [ExampleRuns] (state
    machines, configurations, [basic_raft] and [inmem_throughput]),
    [ExampleTcpRun] ([tcp_throughput]), [ExampleMultiRaft] ([multiraft_driver]),
    [ExampleDispatch] ([dispatch_rpc]) and [ExampleSeeds] ([seed_experiment]).
    They compose the components above into whole programs: nodes over real
    storages, answered by followers over real frames.

    _The benchmarks_ ([benches/]).  [SeededStorage] (the storages that keep headers
    and payloads in two arenas, of [tcp_raft_bench] and [memory_e2e_bench]),
    [SeededPath] (the leader's zero-copy sends over them), [BenchWal] (the segments,
    storage and followers of [raft_transport_bench] in its durable mode) and
    [BenchRuns] (the remaining storages, transports and followers, and the clusters
    with their proposing loops).

    ** How the code is represented

    State is passed explicitly.  Objects that several parties refer to are shared:
    the transport and the demultiplexer of a driver are attached to the group that
    runs ([Driver.lend], [Driver.give_back]), and a transaction lives in a store
    that its handle and the table of pending ones point into ([NodeDispatch]).  The
    iteration order of a hash map is an argument of the operations that iterate;
    the heap content that [set_len] exposes is an argument of the encoder; the arm
    that a [select!] takes is an argument of the leader tick.  Every component
    reads its own clock.  An [async] method is the sequence of its steps: a node has
    one owner ([&mut self]), so its methods do not interleave with each other, and
    cancellation in the middle of one is not modelled.

    ** What the theorems show

    - Election Safety: [Cluster.election_safety], over any number of nodes, a
      network that loses, repeats, delays and reorders, hard-state writes that may
      fail, and crashes between operations: a term has one winner, unless a leader
      abdicated in it.  It rests on [Stability] (terms never go back, votes are not
      taken back), [Durability] (the vote is on stable storage before it is
      answered), [Safety] and [LeaderSafety] (every operation is a safe step),
      [CampaignFacts] (what winning means) and [Quorum] (majorities intersect).
      Across a membership change they intersect as well
      ([ConfigFacts.majorities_intersect]).
    - Log Matching and Leader Append-Only: [LogCluster], over the same clusters
      without abdications, snapshots and faults of the storage, with every operation
      that appends.  [Monitor] wraps a storage so that the faults it can have are
      seen and the steps without them can be told.  [Walks] cuts the operations into
      moves, [AppendFrames] is what a frame of entries carries to its receiver,
      [Chains] the entries as a tree of positions with one parent each, [LogSafety]
      what a move does to a log.
    - Replication and commitment: [ReplicationFacts] (what an append does to the
      log on every branch, plain and seeded), [Commit] (the commit rule), [Quorum].
    - Invariants of an engine in every state it can get into, failures and
      membership changes included, and over any storage and transport
      ([Invariants]): what it publishes is what the protocol holds, and the memory a
      peer can make it hold for snapshots is bounded.
    - Reads and transfers: [ReadFacts].
    - The wire format: [CodecFacts] (round trip, soundness of the decoder, equality
      of the two encoders, no panic) and [DispatchFrames].
    - Refinements: the term ring is a bounded cache ([Arena]), the peer map a finite
      map ([Progress]), the demultiplexer one bounded queue per group
      ([MultiplexFacts]), the batched heartbeats the single ones ([Registry]), the
      driver's apply loop the engine's ([DriverFacts]), the sealed handler table the
      open one ([CustomRegistry]).
    - The engine: entries are applied in order and once, running out of storage
      does not end the loop, bad frames do not either ([EngineFacts]); shutting down
      answers every writer ([Clients]).
    - The driver: its tables stay in step and its buffers come back
      ([DriverFacts.driver_keeps_tables]), and a group without frames and due timers
      is not touched by the others ([DriverFacts.quiet_group_untouched]).
      [Transports] has the general fact behind it: a node uses its transport only
      through the interface.
    - The seeded path: the storages behind it are logs ([SeededStorage]), and a
      receiver reads from a zero-copy frame what it would read from a copied one
      ([SeededPath]).
    - Durability in the transport benchmark: what a follower or the leader has
      acknowledged is, record by record, in the synced bytes of its segment
      ([BenchWal]), and in a measured run that is every commit reported
      ([BenchRuns]).
    - Custom messages: a transaction settles exactly when its policies decide it
      ([DispatchTx]), and a step-down strands no waiter ([Waiters]).
    - Termination: [Termination.operations_return].
    - The examples: their storages are a log ([ExampleStorage]), their follower
      keeps the terms a node keeps ([ExampleFollower]), frames survive a socket
      that cuts them anywhere ([ExampleTcp], [ExampleTcpRun]), a group with one
      voter commits whatever is proposed ([ExampleRuns.sole_voter_commits]), the
      seeded layout carries the entries of the plain one ([ExampleSeeds]), and the
      main programs end with the results they assert (evaluated); so do the
      proposing loops of the benchmarks ([BenchRuns]).
    - [Findings] and [GroupFindings] run the model on inputs where the code does not
      do what it or its comments intend; [ExampleRuns.lagging_peer_starves] is
      another, for every leader over a strict storage,
      [Waiters.same_term_append_keeps_waiters] one of the dispatch layer, and
      [SeededStorage.memory_truncation_loses_payload] one for a storage of the
      benchmarks.  Two of them matter for safety: a follower
      acknowledges its whole log on a heartbeat ([Findings.divergent_ack_commits]),
      and a leader that steps down within its term gives its vote away twice
      ([Findings.abdication_allows_second_vote]).

    ** Bounds and fuel

    Loops over data are structural, or count the items that are left.  The loops
    that wait for frames take fuel and stop with [OutOfFuel] when it is used up;
    [Termination] shows which fuel is enough: linear in the frames that can still
    arrive, plus, for reads and transfers, the readings of the clock until the
    deadline.  The receive loop of a group's transport takes the frames of the inner
    transport plus one ([MultiplexFacts.mux_recv_routes] shows that it returns).
    The loops over a socket take one turn per byte at most ([ExampleTcp]).
    The loops of the engine around these operations (the hand-over of a drain, the
    installs of a membership change) take fuel as well; what is proved of them is
    about the runs that return.

    ** Assumptions

    Of a storage: the contract of [traits/storage.rs], with the old or the new hard
    state after a write of it that failed ([Traits.HardStateIntegrity]).  Of the
    network, for Election Safety: frames are well formed, requests name their sender,
    and a granted vote is one its sender sent.  Election Safety covers a fixed set of
    voters and takes crashes between operations; a node that abdicates, stepping down
    within its own term, is in it as the one exception: the term then may have a
    second winner.  For Log Matching and Leader Append-Only, beside these: nobody
    abdicates; reads return runs of entries ([LogSafety.OrderedReads]); the steps are
    those in which no write of a hard state failed and no write of a log was torn
    ([Monitor]); an append that is delivered was sent by some node; logs start empty,
    indexes do not run out, and no snapshot is delivered.  That the commit index never moves back is not claimed:
    a follower sets it from each append it accepts.  For the segments: the
    records fit the segment.  For termination: a received frame is not received again, and the clock passes every deadline.

    ** Not modelled

    Tracing, the [Display] texts of errors (a parameter where they travel in a
    frame), wakers of write futures (polling reads the slot), the hasher of group
    ids and the capacity docks of [api/node/scratch.rs] (memory reuse without
    behaviour of its own), read-only accessors, [send_file_dma] (passed through,
    without a caller), poisoned locks, cancellation of a future between two awaits,
    debug assertions (the code of a release build), and, of the three buffers a
    driver lends to a group, the two whose length and content the node's state does
    not keep here (payload reads pass the size of the buffer).
    [protocol/view.rs] is declared by no module and is not part of the crate.
    Files that only declare modules and re-export.  Of the examples and benchmarks,
    the setting up of sockets, files and tasks, the settings read from the
    environment, the sampling and the measured times; of [election_bench] also the
    socket transport with its time limit and the starting and stopping of nodes;
    the clients that write concurrently to a running engine ([Clients] has that
    interleaving in general).  Tests. *)

From stdpp Require Import base list sets gmap strings.
From coqutil Require Import Byte Word.LittleEndianList.
From Stdlib Require Import ZArith Lia.

#[global] Set Default Goal Selector "!".

Local Open Scope Z_scope.

(** ** Results

    Rust's [Result<A, E>]. *)

Inductive result (A E : Type) : Type :=
| Ok (a : A)
| Err (e : E).
Arguments Ok {A E} a.
Arguments Err {A E} e.

Declare Scope raft_scope.
Delimit Scope raft_scope with raft.

Definition rbind {A B E : Type} (m : result A E) (k : A -> result B E) : result B E :=
  match m with
  | Ok a => k a
  | Err e => Err e
  end.

Definition rmap {A B E : Type} (f : A -> B) (m : result A E) : result B E :=
  match m with
  | Ok a => Ok (f a)
  | Err e => Err e
  end.

Definition is_ok {A E : Type} (m : result A E) : bool :=
  match m with Ok _ => true | Err _ => false end.

Notation "'let?' x ':=' m 'in' k" := (rbind m (fun x => k))
  (at level 10, x pattern, m at level 100, k at level 200,
   format "'[v' 'let?'  x  ':='  m  'in' '//' k ']'") : raft_scope.

(** ** Machine integers

    Unsigned integers are [Z] values; the operations below are the ones the
    code applies to them, with the behaviour at the edge of the type written
    out. *)

Definition u8_max : Z := 2 ^ 8 - 1.
Definition u16_max : Z := 2 ^ 16 - 1.
Definition u32_max : Z := 2 ^ 32 - 1.
Definition u64_max : Z := 2 ^ 64 - 1.

Definition is_u8 (x : Z) : Prop := 0 <= x <= u8_max.
Definition is_u16 (x : Z) : Prop := 0 <= x <= u16_max.
Definition is_u32 (x : Z) : Prop := 0 <= x <= u32_max.
Definition is_u64 (x : Z) : Prop := 0 <= x <= u64_max.

(** [u64::saturating_add], [u64::saturating_sub], [u32::wrapping_add], ... *)
Definition sat_add64 (a b : Z) : Z := Z.min (a + b) u64_max.
Definition sat_sub (a b : Z) : Z := Z.max (a - b) 0.
Definition sat_add32 (a b : Z) : Z := Z.min (a + b) u32_max.
Definition wrap_add32 (a b : Z) : Z := (a + b) mod 2 ^ 32.
Definition wrap_add64 (a b : Z) : Z := (a + b) mod 2 ^ 64.
Definition wrap_mul64 (a b : Z) : Z := (a * b) mod 2 ^ 64.
Definition sat_mul64 (a b : Z) : Z := Z.min (a * b) u64_max.

Lemma u64_max_eq : u64_max = 18446744073709551615.
Proof. reflexivity. Qed.
Lemma u32_max_eq : u32_max = 4294967295.
Proof. reflexivity. Qed.

Ltac machine :=
  unfold is_u8, is_u16, is_u32, is_u64, sat_add64, sat_sub, sat_add32, sat_mul64 in *;
  rewrite ?u64_max_eq, ?u32_max_eq in *.

(** Boolean comparisons on [Z] are replaced by the propositions they decide. *)
Ltac zbool :=
  repeat match goal with
  | H : _ && _ = true |- _ => apply andb_true_iff in H as [??]
  | H : _ || _ = false |- _ => apply orb_false_iff in H as [??]
  | H : negb _ = true |- _ => apply negb_true_iff in H
  | H : negb _ = false |- _ => apply negb_false_iff in H
  | H : (_ <? _) = true |- _ => apply Z.ltb_lt in H
  | H : (_ <? _) = false |- _ => apply Z.ltb_ge in H
  | H : (_ <=? _) = true |- _ => apply Z.leb_le in H
  | H : (_ <=? _) = false |- _ => apply Z.leb_gt in H
  | H : (_ =? _) = true |- _ => apply Z.eqb_eq in H
  | H : (_ =? _) = false |- _ => apply Z.eqb_neq in H
  | H : (_ <? _)%nat = true |- _ => apply Nat.ltb_lt in H
  | H : (_ <? _)%nat = false |- _ => apply Nat.ltb_ge in H
  | H : (_ <=? _)%nat = true |- _ => apply Nat.leb_le in H
  | H : (_ <=? _)%nat = false |- _ => apply Nat.leb_gt in H
  | H : (_ =? _)%nat = true |- _ => apply Nat.eqb_eq in H
  | H : (_ =? _)%nat = false |- _ => apply Nat.eqb_neq in H
  | |- (_ && _) = true => apply andb_true_iff; split
  | |- (_ <? _) = true => apply Z.ltb_lt
  | |- (_ <? _) = false => apply Z.ltb_ge
  | |- (_ <=? _) = true => apply Z.leb_le
  | |- (_ <=? _) = false => apply Z.leb_gt
  | |- (_ =? _) = true => apply Z.eqb_eq
  | |- (_ =? _) = false => apply Z.eqb_neq
  end.

Ltac zlia := zbool; machine; lia.

(** ** Membership of a slice *)

(** [slice.contains(&x)] on ids. *)
Definition contains (x : Z) (l : list Z) : bool := existsb (Z.eqb x) l.

Lemma contains_spec x l : contains x l = true <-> x ∈ l.
Proof.
  unfold contains. rewrite existsb_exists, list_elem_of_In. split.
  - intros (y & Hy & Heq). apply Z.eqb_eq in Heq. by subst.
  - intros Hx. exists x. by rewrite Z.eqb_refl.
Qed.

Lemma contains_false x l : contains x l = false <-> x ∉ l.
Proof.
  rewrite <- contains_spec. destruct (contains x l); split; congruence.
Qed.

Create HintDb raft discriminated.

Ltac membership :=
  repeat match goal with
  | H : contains _ _ = true |- _ => apply contains_spec in H
  | H : contains _ _ = false |- _ => apply contains_false in H
  | |- contains _ _ = true => apply contains_spec
  | |- contains _ _ = false => apply contains_false
  end.

Lemma contains_app x l k : contains x (l ++ k) = contains x l || contains x k.
Proof. unfold contains. apply existsb_app. Qed.

Lemma contains_nil x : contains x [] = false.
Proof. reflexivity. Qed.

(** [Vec::retain]. *)
Definition retain (f : Z -> bool) (l : list Z) : list Z := List.filter f l.

Lemma elem_of_retain f l x : x ∈ retain f l <-> f x = true /\ x ∈ l.
Proof. unfold retain. rewrite !list_elem_of_In, filter_In. tauto. Qed.

Lemma NoDup_retain f l : NoDup l -> NoDup (retain f l).
Proof. rewrite !NoDup_ListNoDup. apply List.NoDup_filter. Qed.

Lemma incl_app_l {A} (l k : list A) : l ⊆ l ++ k.
Proof. intros x Hx. apply elem_of_app. by left. Qed.
Lemma incl_app_r {A} (l k : list A) : k ⊆ l ++ k.
Proof. intros x Hx. apply elem_of_app. by right. Qed.

(** ** Bytes and little-endian words *)

Abbreviation byte := Corelib.Init.Byte.byte (only parsing).
Abbreviation bytes := (list byte) (only parsing).

#[export] Instance byte_eq_decision : EqDecision byte := Byte.byte_eq_dec.

(** A byte holding the low eight bits of [x], and back. *)
Definition to_byte (x : Z) : byte := byte.of_Z x.
Definition of_byte (b : byte) : Z := byte.unsigned b.

(** [to_le_bytes] / [from_le_bytes] at [n] bytes. *)
Definition le_bytes (n : nat) (x : Z) : bytes := le_split n x.
Definition le_value (b : bytes) : Z := le_combine b.

Lemma length_le_bytes n x : length (le_bytes n x) = n.
Proof. apply length_le_split. Qed.

Lemma le_value_bytes n x : 0 <= x < 2 ^ (Z.of_nat n * 8) -> le_value (le_bytes n x) = x.
Proof.
  intros Hx. unfold le_value, le_bytes. rewrite le_combine_split. by apply Z.mod_small.
Qed.

Lemma le_bytes_value b : le_bytes (length b) (le_value b) = b.
Proof. apply split_le_combine. Qed.

Lemma le_value_bound b : 0 <= le_value b < 2 ^ (8 * Z.of_nat (length b)).
Proof. apply le_combine_bound. Qed.

Lemma le_bytes_mod w x : le_bytes w (x mod 2 ^ (Z.of_nat w * 8)) = le_bytes w x.
Proof.
  rewrite <- (le_bytes_value (le_bytes w x)), length_le_bytes. f_equal.
  unfold le_value, le_bytes. by rewrite le_combine_split.
Qed.

Lemma of_to_byte x : is_u8 x -> of_byte (to_byte x) = x.
Proof.
  intros Hx. unfold of_byte, to_byte. rewrite byte.unsigned_of_Z.
  unfold byte.wrap. apply Z.mod_small. unfold is_u8, u8_max in Hx. lia.
Qed.

Lemma to_of_byte b : to_byte (of_byte b) = b.
Proof. apply byte.of_Z_unsigned. Qed.

Lemma of_byte_bound b : is_u8 (of_byte b).
Proof.
  pose proof (byte.unsigned_range b) as H. unfold is_u8, u8_max, of_byte. lia.
Qed.

#[global] Opaque le_value le_bytes to_byte of_byte.

(** ** Lists *)

Lemma take_app_exact {A} (l k : list A) n : n = length l -> take n (l ++ k) = l.
Proof. intros ->. apply take_app_length. Qed.

Lemma drop_app_exact {A} (l k : list A) n : n = length l -> drop n (l ++ k) = k.
Proof. intros ->. apply drop_app_length. Qed.

(** ** Removal from a vector *)

(** [Vec::swap_remove(pos)]: the last element takes the place of the removed one. *)
Definition swap_remove {A} (pos : nat) (m : list A) : list A :=
  match last m with
  | Some x => take (length m - 1) (<[pos := x]> m)
  | None => m
  end.

(** [swap_remove] removes one occurrence and permutes the rest. *)
Lemma swap_remove_perm {A} (m1 : list A) x m2 : swap_remove (length m1) (m1 ++ x :: m2) ≡ₚ m1 ++ m2.
Proof.
  unfold swap_remove.
  induction m2 as [|y m2 _] using rev_ind.
  - rewrite last_snoc, list_insert_id by (by apply list_lookup_middle).
    rewrite length_app. simpl. rewrite take_app_exact by lia. by rewrite app_nil_r.
  - rewrite app_comm_cons, app_assoc, last_snoc.
    rewrite <- app_assoc. rewrite insert_app_r_alt by lia.
    rewrite Nat.sub_diag. cbn [app insert list_insert]. rewrite !length_app. cbn [length].
    rewrite app_comm_cons, app_assoc, take_app_exact
      by (rewrite !length_app; cbn [length]; lia).
    apply Permutation_app_head, Permutation_cons_append.
Qed.

(** Two values packed into one word: the high part shifted, the low part below. *)
Lemma land_shiftl_low a b k : 0 <= k -> 0 <= b < 2 ^ k -> Z.land (Z.shiftl a k) b = 0.
Proof.
  intros Hk Hb. apply Z.bits_inj'. intros j Hj. rewrite Z.land_spec, Z.shiftl_spec, Z.bits_0 by done.
  destruct (Z.lt_ge_cases j k); [by rewrite (Z.testbit_neg_r a) by lia|].
  rewrite <- (Z.mod_small b (2 ^ k)), Z.mod_pow2_bits_high, andb_false_r by lia. done.
Qed.

Lemma lor_shiftl_add a b k : 0 <= k -> 0 <= b < 2 ^ k -> Z.lor (Z.shiftl a k) b = a * 2 ^ k + b.
Proof.
  intros Hk Hb. pose proof (land_shiftl_low a b k Hk Hb) as H0.
  rewrite <- Z.lxor_lor, <- Z.add_nocarry_lxor, Z.shiftl_mul_pow2 by done. done.
Qed.
