(* ===== verification/Types.v ===== *)
(** * Types: ids, hard and soft state, configuration, errors

    Models [src/types], [src/entry], [src/state], [src/config], [src/error] and
    [src/validation].  The id newtypes ([PeerId], [GroupId], [Term],
    [LogIndex]) are their [u64] payload, as a [Z]. *)

From stdpp Require Import base list sets strings.
From Stdlib Require Import ZArith Lia.
From S2P Require Import Prelude.

Local Open Scope Z_scope.

Abbreviation PeerId := Z (only parsing).
Abbreviation GroupId := Z (only parsing).
Abbreviation Term := Z (only parsing).
Abbreviation LogIndex := Z (only parsing).

Record LeaderHint := { hint_leader_id : PeerId }.

Record LogEntry := {
  e_term : Term;
  e_index : LogIndex;
  e_payload : bytes;
}.

#[export] Instance LogEntry_eq_dec : EqDecision LogEntry.
Proof. solve_decision. Defined.

(** ** State *)

Record HardState := {
  current_term : Term;
  voted_for : option PeerId;
}.

#[export] Instance HardState_eq_dec : EqDecision HardState.
Proof. solve_decision. Defined.

Definition HardState_default : HardState := {| current_term := 0; voted_for := None |}.

Inductive Role := Follower | Candidate | Leader.

#[export] Instance Role_eq_dec : EqDecision Role.
Proof. solve_decision. Defined.

Definition role_eqb (a b : Role) : bool := bool_decide (a = b).

Record SoftState := {
  ss_leader_id : option PeerId;
  ss_is_leader : bool;
  ss_role : Role;
  ss_commit_index : LogIndex;
}.

Record SnapshotMeta := {
  last_included_index : LogIndex;
  last_included_term : Term;
}.

#[export] Instance SnapshotMeta_eq_dec : EqDecision SnapshotMeta.
Proof. solve_decision. Defined.

(** ** Configuration *)

Record LimitsConfig := {
  append_batch_bytes : Z;
  append_batch_entries : Z;
  snapshot_chunk_bytes : Z;
  max_inflight_per_peer : Z;
  max_snapshot_bytes : Z;
  snapshot_stall_timeout_ms : Z;
  snapshot_max_attempts_per_peer : Z;
  snapshot_attempt_cooldown_ms : Z;
  compaction_threshold_entries : Z;
  compaction_threshold_bytes : Z;
  compaction_min_retain : Z;
  inbound_decode_error_jail_threshold : Z;
  inbound_decode_error_window_ms : Z;
  inbound_jail_cooldown_ms : Z;
  client_mailbox_capacity : Z;
}.

Definition LimitsConfig_default : LimitsConfig := {|
  append_batch_bytes := 256 * 1024;
  append_batch_entries := 1024;
  snapshot_chunk_bytes := 256 * 1024;
  max_inflight_per_peer := 8;
  max_snapshot_bytes := sat_mul64 (sat_mul64 (sat_mul64 4 1024) 1024) 1024;
  snapshot_stall_timeout_ms := 60000;
  snapshot_max_attempts_per_peer := 3;
  snapshot_attempt_cooldown_ms := 5000;
  compaction_threshold_entries := 4096;
  compaction_threshold_bytes := 64 * 1024 * 1024;
  compaction_min_retain := 64;
  inbound_decode_error_jail_threshold := 32;
  inbound_decode_error_window_ms := 10000;
  inbound_jail_cooldown_ms := 3000;
  client_mailbox_capacity := 8192;
|}.

Record TimingConfig := {
  heartbeat_ms : Z;
  election_min_ms : Z;
  election_max_ms : Z;
}.

Definition TimingConfig_default : TimingConfig := {|
  heartbeat_ms := 50;
  election_min_ms := 300;
  election_max_ms := 600;
|}.

(** [addr] is a [SocketAddr], never inspected by the crate: its text. *)
Record BootstrapPeer := {
  bp_id : PeerId;
  bp_addr : string;
}.

Record NodeConfig := {
  cluster_id : Z;
  cfg_node_id : PeerId;
  cfg_peers : list PeerId;
  cfg_learners : list PeerId;
  bootstrap_peers : list BootstrapPeer;
  cfg_timing : TimingConfig;
  cfg_limits : LimitsConfig;
}.

Definition set_cfg_peers (ps : list PeerId) (c : NodeConfig) : NodeConfig := {|
  cluster_id := cluster_id c; cfg_node_id := cfg_node_id c; cfg_peers := ps;
  cfg_learners := cfg_learners c; bootstrap_peers := bootstrap_peers c;
  cfg_timing := cfg_timing c; cfg_limits := cfg_limits c |}.

Definition set_cfg_learners (ls : list PeerId) (c : NodeConfig) : NodeConfig := {|
  cluster_id := cluster_id c; cfg_node_id := cfg_node_id c; cfg_peers := cfg_peers c;
  cfg_learners := ls; bootstrap_peers := bootstrap_peers c;
  cfg_timing := cfg_timing c; cfg_limits := cfg_limits c |}.

(** ** Errors *)

(** [std::io::ErrorKind]: the three kinds the code tells apart, and the rest. *)
Inductive IoErrorKind :=
| StorageFull
| QuotaExceeded
| OutOfMemory
| OtherKind (name : string).

Inductive RaftError :=
| NotLeader (leader_hint : option LeaderHint)
| NoQuorum
| TransferTimeout (target : PeerId)
| TermChanged (current : Term)
| Overloaded
| PeerUnknown (peer : PeerId)
| InvalidConfig (msg : string)
| InvalidPayload (msg : string)
| Protocol (msg : string)
| Dispatch (msg : string)
| StorageErr (msg : string)
| TransportErr (msg : string)
| CorruptLog (msg : string)
| SnapshotErr (msg : string)
| Io (kind : IoErrorKind).

Inductive ErrorClass :=
| Transient
| NotLeaderRedirect
| BadFrame
| Resource
| Fatal.

#[export] Instance ErrorClass_eq_dec : EqDecision ErrorClass.
Proof. solve_decision. Defined.

Definition io_kind_is_resource_exhaustion (kind : IoErrorKind) : bool :=
  match kind with
  | StorageFull | QuotaExceeded | OutOfMemory => true
  | OtherKind _ => false
  end.

Definition class (e : RaftError) : ErrorClass :=
  match e with
  | Io kind => if io_kind_is_resource_exhaustion kind then Resource else Fatal
  | StorageErr _ | CorruptLog _ => Fatal
  | NotLeader _ => NotLeaderRedirect
  | Protocol _ | Dispatch _ | SnapshotErr _ | InvalidPayload _ | InvalidConfig _
  | PeerUnknown _ => BadFrame
  | NoQuorum | TermChanged _ | TransportErr _ | Overloaded | TransferTimeout _ => Transient
  end.

Definition is_fatal (e : RaftError) : bool := bool_decide (class e = Fatal).
Definition is_resource_exhaustion (e : RaftError) : bool := bool_decide (class e = Resource).

Abbreviation res A := (result A RaftError).

(** ** Validation of a node configuration *)

Definition invalid (msg : string) : res unit := Err (InvalidConfig msg).

(** The [HashSet] scan for duplicate voters: [seen] is the set so far. *)
Fixpoint validate_no_dup_peers (seen l : list PeerId) : res unit :=
  match l with
  | [] => Ok tt
  | p :: l' =>
      if contains p seen then invalid "peers must not contain duplicates"
      else validate_no_dup_peers (p :: seen) l'
  end.

(** The learner scan: duplicates first, then disjointness from the voters. *)
Fixpoint validate_learners (peers seen l : list PeerId) : res unit :=
  match l with
  | [] => Ok tt
  | p :: l' =>
      if contains p seen then invalid "learners must not contain duplicates"
      else if contains p peers then invalid "learners must be disjoint from peers"
      else validate_learners peers (p :: seen) l'
  end.

Definition is_nil {A} (l : list A) : bool := match l with [] => true | _ => false end.

Definition validate_node_config (cfg : NodeConfig) : res unit :=
  if is_nil (cfg_peers cfg) then invalid "peers must not be empty"
  else if negb (contains (cfg_node_id cfg) (cfg_peers cfg))
          && negb (contains (cfg_node_id cfg) (cfg_learners cfg)) then
    invalid "node_id must appear in peers (voter) or learners (non-voting member)"
  else if is_nil (bootstrap_peers cfg) then invalid "bootstrap_peers must not be empty"
  else if negb (existsb (fun p => bp_id p =? cfg_node_id cfg) (bootstrap_peers cfg)) then
    invalid "bootstrap_peers must include node_id for v1 bootstrap"
  else (let? _ := validate_no_dup_peers [] (cfg_peers cfg) in
        let? _ := validate_learners (cfg_peers cfg) [] (cfg_learners cfg) in
        if heartbeat_ms (cfg_timing cfg) =? 0 then invalid "heartbeat_ms must be > 0"
        else if election_max_ms (cfg_timing cfg) <=? election_min_ms (cfg_timing cfg) then
          invalid "election_min_ms must be < election_max_ms"
        else if election_min_ms (cfg_timing cfg) <=? heartbeat_ms (cfg_timing cfg) then
          invalid "heartbeat_ms must be < election_min_ms (recommended: heartbeat_ms * 3 <= election_min_ms)"
        else if snapshot_chunk_bytes (cfg_limits cfg) =? 0 then
          invalid "snapshot_chunk_bytes must be > 0"
        else Ok tt)%raft.

(** What the rest of the crate relies on of a validated configuration. *)
Record config_ok (cfg : NodeConfig) : Prop := {
  ok_nonempty : cfg_peers cfg <> [];
  ok_member : cfg_node_id cfg ∈ cfg_peers cfg ++ cfg_learners cfg;
  ok_bootstrap : cfg_node_id cfg ∈ map bp_id (bootstrap_peers cfg);
  ok_peers_nodup : NoDup (cfg_peers cfg);
  ok_learners_nodup : NoDup (cfg_learners cfg);
  ok_disjoint : forall p, p ∈ cfg_learners cfg -> p ∉ cfg_peers cfg;
  ok_heartbeat : heartbeat_ms (cfg_timing cfg) <> 0;
  ok_election : election_min_ms (cfg_timing cfg) < election_max_ms (cfg_timing cfg);
  ok_beats : heartbeat_ms (cfg_timing cfg) < election_min_ms (cfg_timing cfg);
  ok_chunk : snapshot_chunk_bytes (cfg_limits cfg) <> 0;
}.

Lemma validate_no_dup_peers_spec l seen :
  validate_no_dup_peers seen l = Ok tt <-> NoDup l /\ (forall p, p ∈ l -> p ∉ seen).
Proof.
  revert seen. induction l as [|p l IH]; intros seen; simpl.
  { split; [intros _; repeat split; [constructor | intros ? []%not_elem_of_nil ..] | done]. }
  destruct (contains p seen) eqn:Hp; membership.
  - split; [done | intros [_ H]; exfalso; apply (H p); [by left | done]].
  - rewrite IH, NoDup_cons. setoid_rewrite elem_of_cons. naive_solver.
Qed.

Lemma validate_learners_spec peers l seen :
  validate_learners peers seen l = Ok tt <->
  NoDup l /\ (forall p, p ∈ l -> p ∉ seen) /\ (forall p, p ∈ l -> p ∉ peers).
Proof.
  revert seen. induction l as [|p l IH]; intros seen; simpl.
  { split; [intros _; repeat split; [constructor | intros ? []%not_elem_of_nil ..] | done]. }
  destruct (contains p seen) eqn:Hs; membership.
  { split; [done | intros (_ & H & _); exfalso; apply (H p); [by left | done]]. }
  destruct (contains p peers) eqn:Hp; membership.
  { split; [done | intros (_ & _ & H); exfalso; apply (H p); [by left | done]]. }
  rewrite IH, NoDup_cons. setoid_rewrite elem_of_cons. naive_solver.
Qed.

Lemma validate_guard (b : bool) msg (k : res unit) :
  (if b then invalid msg else k) = Ok tt <-> b = false /\ k = Ok tt.
Proof. destruct b; split; intros; naive_solver. Qed.

Lemma validate_seq (m k : res unit) :
  rbind m (fun _ => k) = Ok tt <-> m = Ok tt /\ k = Ok tt.
Proof. destruct m as [[]|e]; simpl; naive_solver. Qed.

Lemma bootstrap_spec cfg :
  existsb (fun p => bp_id p =? cfg_node_id cfg) (bootstrap_peers cfg) = true <->
  cfg_node_id cfg ∈ map bp_id (bootstrap_peers cfg).
Proof.
  rewrite existsb_exists, list_elem_of_fmap. split.
  - intros (p & Hin & Heq). zbool. exists p. by rewrite list_elem_of_In.
  - intros (p & Heq & Hin). exists p. rewrite <- list_elem_of_In. split; [done | zlia].
Qed.

(** [validate_node_config] accepts a configuration exactly when it is
    [config_ok]: a non-empty duplicate-free voter set, a duplicate-free learner
    set disjoint from it, the node in one of the two and in the bootstrap list,
    and timings and chunk size in the required order. *)
Theorem validate_node_config_iff cfg :
  validate_node_config cfg = Ok tt <-> config_ok cfg.
Proof.
  unfold validate_node_config.
  rewrite !validate_guard, !validate_seq, !validate_guard,
    validate_no_dup_peers_spec, validate_learners_spec, negb_false_iff, bootstrap_spec.
  split.
  - intros (H1 & H2 & H3 & H4 & (H5 & _) & (H6 & _ & H7) & H8 & H9 & H10 & H11 & _).
    split; try done; try zlia.
    + by destruct (cfg_peers cfg).
    + apply andb_false_iff in H2. rewrite elem_of_app.
      destruct H2 as [H2|H2]; zbool; membership; tauto.
  - intros []. repeat split; try done; try zlia; try (intros ? ? []%not_elem_of_nil).
    + by destruct (cfg_peers cfg).
    + rewrite elem_of_app in ok_member0. apply andb_false_iff.
      rewrite !negb_false_iff, !contains_spec. tauto.
    + destruct (bootstrap_peers cfg); [by apply not_elem_of_nil in ok_bootstrap0 | done].
Qed.

(** Only the storage, log-corruption and non-exhaustion I/O errors stop the run
    loop; no error that a peer's bytes can cause does. *)
Lemma is_fatal_iff e :
  is_fatal e = true <->
  match e with
  | StorageErr _ | CorruptLog _ => True
  | Io kind => io_kind_is_resource_exhaustion kind = false
  | _ => False
  end.
Proof.
  unfold is_fatal. rewrite bool_decide_eq_true.
  destruct e; simpl; try ((split; [discriminate | tauto]) || tauto).
  destruct (io_kind_is_resource_exhaustion kind); split; congruence.
Qed.
