(* ===== verification/Wire.v ===== *)
(** * Wire: the zerocopy structures of the frame format

    Models [src/protocol/codec/wire.rs].  Each [#[repr(C)]] structure of
    little-endian fields is a record with an instance of [Wire]: the widths of
    its fields in order, and the two conversions between the record and the list
    of its field values.  [as_bytes] is [IntoBytes::as_bytes] and [from_prefix]
    is zerocopy's [Ref::from_prefix], both derived from the layout; the laws are
    proved once, for every structure. *)

From stdpp Require Import base list strings.
From Stdlib Require Import ZArith Lia.
From S2P Require Import Prelude Types.

Local Open Scope Z_scope.

(** ** Constants *)

Definition RAFT_MAGIC : Z := 0x52414654.
Definition RAFT_VERSION : Z := 0x01.
Definition RAFT_FRAME_HEADER_SIZE : nat := 32.
Definition MAX_FRAME_SIZE : Z := 64 * 1024.
Definition MAX_ENTRY_PAYLOAD : Z := MAX_FRAME_SIZE - 512.

Definition KIND_REQUEST_VOTE : Z := 1.
Definition KIND_REQUEST_VOTE_RESP : Z := 2.
Definition KIND_APPEND_ENTRIES : Z := 3.
Definition KIND_APPEND_ENTRIES_RESP : Z := 4.
Definition KIND_INSTALL_SNAPSHOT : Z := 5.
Definition KIND_INSTALL_SNAPSHOT_RESP : Z := 6.
Definition KIND_CUSTOM : Z := 7.
Definition KIND_CUSTOM_RESPONSE : Z := 8.
Definition KIND_APPEND_ENTRIES_SEEDED : Z := 9.
Definition KIND_PRE_VOTE : Z := 10.
Definition KIND_PRE_VOTE_RESP : Z := 11.
Definition KIND_TIMEOUT_NOW : Z := 12.

(** ** Field layouts *)

Fixpoint encode_fields (ws : list nat) (vs : list Z) : bytes :=
  match ws, vs with
  | w :: ws', v :: vs' => le_bytes w v ++ encode_fields ws' vs'
  | _, _ => []
  end.

Fixpoint decode_fields (ws : list nat) (b : bytes) : list Z :=
  match ws with
  | [] => []
  | w :: ws' => le_value (take w b) :: decode_fields ws' (drop w b)
  end.

Definition in_width (w : nat) (v : Z) : Prop := 0 <= v < 2 ^ (Z.of_nat w * 8).

Lemma length_encode_fields ws vs :
  length ws = length vs -> length (encode_fields ws vs) = sum_list ws.
Proof.
  revert vs. induction ws as [|w ws IH]; intros [|v vs] Hl; simplify_eq/=; [done|].
  by rewrite length_app, length_le_bytes, IH.
Qed.

Lemma decode_encode_fields ws vs rest :
  Forall2 in_width ws vs -> decode_fields ws (encode_fields ws vs ++ rest) = vs.
Proof.
  induction 1 as [|w v ws vs Hw _ IH]; simpl; [done|].
  rewrite <- app_assoc, take_app_exact, drop_app_exact by (by rewrite length_le_bytes).
  by rewrite IH, le_value_bytes.
Qed.

Lemma encode_decode_fields ws b :
  (sum_list ws <= length b)%nat ->
  encode_fields ws (decode_fields ws b) = take (sum_list ws) b.
Proof.
  revert b. induction ws as [|w ws IH]; intros b Hb; simpl in *; [done|].
  rewrite IH by (rewrite length_drop; lia).
  assert (Hw : length (take w b) = w) by (rewrite length_take; lia).
  rewrite <- Hw at 1. rewrite le_bytes_value.
  by rewrite take_take_drop.
Qed.

Lemma decode_fields_in_width ws b :
  (sum_list ws <= length b)%nat -> Forall2 in_width ws (decode_fields ws b).
Proof.
  revert b. induction ws as [|w ws IH]; intros b Hb; simpl in *; constructor.
  - pose proof (le_value_bound (take w b)) as H. rewrite length_take in H.
    unfold in_width. replace (Z.of_nat w * 8) with (8 * Z.of_nat (w `min` length b)) by lia. done.
  - apply IH. rewrite length_drop. lia.
Qed.

Lemma length_decode_fields ws b : length (decode_fields ws b) = length ws.
Proof. revert b. induction ws; intros b; simpl; auto. Qed.

(** A structure: its layout, its field values, and the structure with given
    field values. *)
Class Wire (A : Type) := {
  layout : list nat;
  to_fields : A -> list Z;
  of_fields : list Z -> option A;
}.

Definition wire_size (A : Type) `{Wire A} : nat := sum_list (layout (A := A)).

Definition as_bytes {A} `{Wire A} (a : A) : bytes := encode_fields layout (to_fields a).

(** [Ref::from_prefix]: the structure at the front of the buffer and the rest,
    or nothing when the buffer is too short. *)
Definition from_prefix {A} `{Wire A} (b : bytes) : option (A * bytes) :=
  if (length b <? wire_size A)%nat then None
  else match of_fields (decode_fields layout b) with
       | Some a => Some (a, drop (wire_size A) b)
       | None => None
       end.

(** [a] is a value of the structure: every field fits its width. *)
Definition wire_wf {A} `{Wire A} (a : A) : Prop :=
  Forall2 in_width layout (to_fields a) /\ of_fields (to_fields a) = Some a.

Class WireLaws (A : Type) `{Wire A} := {
  to_fields_length : forall a : A, length (layout (A := A)) = length (to_fields a);
  of_fields_total : forall vs, length vs = length (layout (A := A)) ->
    Forall2 in_width (layout (A := A)) vs ->
    exists a, of_fields vs = Some a /\ to_fields a = vs;
}.

Section WireFacts.
Context {A : Type} `{WireLaws A}.

Lemma length_as_bytes (a : A) : length (as_bytes a) = wire_size A.
Proof. apply length_encode_fields, to_fields_length. Qed.

(** Decoding an encoded structure gives it back, with what follows it. *)
Lemma from_prefix_as_bytes (a : A) rest :
  wire_wf a -> from_prefix (as_bytes a ++ rest) = Some (a, rest).
Proof.
  intros [Hw Hof]. pose proof (length_as_bytes a) as Hl.
  unfold from_prefix. rewrite length_app, Hl.
  destruct (Nat.ltb_spec (wire_size A + length rest) (wire_size A)) as [Hlt|Hge]; [lia|].
  unfold as_bytes in *. rewrite decode_encode_fields by done.
  by rewrite Hof, drop_app_exact.
Qed.

(** A structure read from a buffer is its first [wire_size] bytes. *)
Lemma from_prefix_Some (b : bytes) (a : A) rest :
  from_prefix b = Some (a, rest) -> b = as_bytes a ++ rest /\ wire_wf a.
Proof.
  unfold from_prefix. destruct (Nat.ltb_spec (length b) (wire_size A)) as [Hlt|Hge]; [done|].
  pose proof (decode_fields_in_width layout b Hge) as Hw.
  destruct (of_fields_total (decode_fields layout b)) as (a' & Hof & Hto);
    [by rewrite length_decode_fields | done |].
  rewrite Hof. intros [= <- <-]. split.
  - unfold as_bytes. rewrite Hto, encode_decode_fields by done. by rewrite take_drop.
  - split; rewrite Hto; done.
Qed.

Lemma from_prefix_None (b : bytes) :
  from_prefix (A := A) b = None <-> (length b < wire_size A)%nat.
Proof.
  unfold from_prefix. destruct (Nat.ltb_spec (length b) (wire_size A)) as [Hlt|Hge]; [done|].
  destruct (of_fields_total (decode_fields layout b)) as (a & Hof & _);
    [by rewrite length_decode_fields | by apply decode_fields_in_width |].
  rewrite Hof. split; [done | lia].
Qed.
End WireFacts.

(** ** The structures *)

Record RaftFrameHeader := {
  fh_magic : Z; fh_version : Z; fh_kind : Z; fh_flags : Z; fh_from : Z;
  fh_body_len : Z; fh_reserved : Z; fh_group_id : Z;
}.

#[export] Instance RaftFrameHeader_wire : Wire RaftFrameHeader := {
  layout := [4; 1; 1; 2; 8; 4; 4; 8]%nat;
  to_fields h := [fh_magic h; fh_version h; fh_kind h; fh_flags h; fh_from h;
                  fh_body_len h; fh_reserved h; fh_group_id h];
  of_fields vs := match vs with
    | [a; b; c; d; e; f; g; h] => Some (Build_RaftFrameHeader a b c d e f g h)
    | _ => None end;
}.

Record RequestVote := {
  rv_term : Z; rv_candidate_id : Z; rv_last_log_index : Z; rv_last_log_term : Z;
}.

#[export] Instance RequestVote_wire : Wire RequestVote := {
  layout := [8; 8; 8; 8]%nat;
  to_fields m := [rv_term m; rv_candidate_id m; rv_last_log_index m; rv_last_log_term m];
  of_fields vs := match vs with
    | [a; b; c; d] => Some (Build_RequestVote a b c d) | _ => None end;
}.

(** A [[u8; n]] padding array is kept as its bytes; as a field it is the
    little-endian word of those bytes. *)
Record RequestVoteResp := { rvr_term : Z; rvr_vote_granted : Z; rvr_pad : bytes }.

#[export] Instance RequestVoteResp_wire : Wire RequestVoteResp := {
  layout := [8; 1; 7]%nat;
  to_fields m := [rvr_term m; rvr_vote_granted m; le_value (rvr_pad m)];
  of_fields vs := match vs with
    | [a; b; c] => Some (Build_RequestVoteResp a b (le_bytes 7 c)) | _ => None end;
}.

Record AppendEntries := {
  ae_term : Z; ae_leader_id : Z; ae_prev_log_index : Z; ae_prev_log_term : Z;
  ae_leader_commit : Z; ae_entry_count : Z; ae_pad : Z;
}.

#[export] Instance AppendEntries_wire : Wire AppendEntries := {
  layout := [8; 8; 8; 8; 8; 4; 4]%nat;
  to_fields m := [ae_term m; ae_leader_id m; ae_prev_log_index m; ae_prev_log_term m;
                  ae_leader_commit m; ae_entry_count m; ae_pad m];
  of_fields vs := match vs with
    | [a; b; c; d; e; f; g] => Some (Build_AppendEntries a b c d e f g) | _ => None end;
}.

Record EntryHeader := { eh_term : Z; eh_index : Z; eh_payload_len : Z; eh_pad : Z }.

#[export] Instance EntryHeader_wire : Wire EntryHeader := {
  layout := [8; 8; 4; 4]%nat;
  to_fields m := [eh_term m; eh_index m; eh_payload_len m; eh_pad m];
  of_fields vs := match vs with
    | [a; b; c; d] => Some (Build_EntryHeader a b c d) | _ => None end;
}.

Record AppendEntriesResp := {
  aer_term : Z; aer_match_index : Z; aer_success : Z; aer_pad : bytes;
}.

#[export] Instance AppendEntriesResp_wire : Wire AppendEntriesResp := {
  layout := [8; 8; 1; 7]%nat;
  to_fields m := [aer_term m; aer_match_index m; aer_success m; le_value (aer_pad m)];
  of_fields vs := match vs with
    | [a; b; c; d] => Some (Build_AppendEntriesResp a b c (le_bytes 7 d)) | _ => None end;
}.

Record InstallSnapshot := {
  is_term : Z; is_leader_id : Z; is_last_included_index : Z; is_last_included_term : Z;
  is_offset : Z; is_chunk_len : Z; is_done : Z; is_pad : bytes;
}.

#[export] Instance InstallSnapshot_wire : Wire InstallSnapshot := {
  layout := [8; 8; 8; 8; 8; 4; 1; 3]%nat;
  to_fields m := [is_term m; is_leader_id m; is_last_included_index m;
                  is_last_included_term m; is_offset m; is_chunk_len m; is_done m;
                  le_value (is_pad m)];
  of_fields vs := match vs with
    | [a; b; c; d; e; f; g; h] =>
        Some (Build_InstallSnapshot a b c d e f g (le_bytes 3 h))
    | _ => None end;
}.

Record InstallSnapshotResp := {
  isr_term : Z; isr_next_offset : Z; isr_accepted : Z; isr_pad : bytes;
}.

#[export] Instance InstallSnapshotResp_wire : Wire InstallSnapshotResp := {
  layout := [8; 8; 1; 7]%nat;
  to_fields m := [isr_term m; isr_next_offset m; isr_accepted m; le_value (isr_pad m)];
  of_fields vs := match vs with
    | [a; b; c; d] => Some (Build_InstallSnapshotResp a b c (le_bytes 7 d)) | _ => None end;
}.

Record TimeoutNow := { tn_term : Z; tn_leader_id : Z }.

#[export] Instance TimeoutNow_wire : Wire TimeoutNow := {
  layout := [8; 8]%nat;
  to_fields m := [tn_term m; tn_leader_id m];
  of_fields vs := match vs with
    | [a; b] => Some (Build_TimeoutNow a b) | _ => None end;
}.

(** ** Laws of the structures *)

Lemma le_value_le_bytes_width w v : in_width w v -> le_value (le_bytes w v) = v.
Proof. apply le_value_bytes. Qed.

Ltac wire_laws :=
  constructor; [done|]; intros vs Hl Hw; simpl in Hl;
  repeat (destruct vs as [|? vs]; [discriminate Hl | simpl in Hl; try (injection Hl as Hl)]);
  destruct vs; [|discriminate Hl];
  repeat match goal with
  | H : Forall2 _ _ _ |- _ => inversion_clear H
  end;
  eexists; split; [reflexivity | simpl; rewrite ?le_value_le_bytes_width by done; reflexivity].

#[export] Instance RaftFrameHeader_laws : WireLaws RaftFrameHeader.
Proof. wire_laws. Qed.
#[export] Instance RequestVote_laws : WireLaws RequestVote.
Proof. wire_laws. Qed.
#[export] Instance RequestVoteResp_laws : WireLaws RequestVoteResp.
Proof. wire_laws. Qed.
#[export] Instance AppendEntries_laws : WireLaws AppendEntries.
Proof. wire_laws. Qed.
#[export] Instance EntryHeader_laws : WireLaws EntryHeader.
Proof. wire_laws. Qed.
#[export] Instance AppendEntriesResp_laws : WireLaws AppendEntriesResp.
Proof. wire_laws. Qed.
#[export] Instance InstallSnapshot_laws : WireLaws InstallSnapshot.
Proof. wire_laws. Qed.
#[export] Instance InstallSnapshotResp_laws : WireLaws InstallSnapshotResp.
Proof. wire_laws. Qed.
#[export] Instance TimeoutNow_laws : WireLaws TimeoutNow.
Proof. wire_laws. Qed.

Lemma wire_sizes :
  wire_size RaftFrameHeader = 32%nat /\ wire_size RequestVote = 32%nat /\
  wire_size RequestVoteResp = 16%nat /\ wire_size AppendEntries = 48%nat /\
  wire_size EntryHeader = 24%nat /\ wire_size AppendEntriesResp = 24%nat /\
  wire_size InstallSnapshot = 48%nat /\ wire_size InstallSnapshotResp = 24%nat /\
  wire_size TimeoutNow = 16%nat.
Proof. repeat split. Qed.
