(* ===== verification/Codec.v ===== *)
(** * Codec: messages, frame encoders and the frame decoder

    Models [src/protocol/message.rs] and [src/protocol/codec/{decode.rs,
    encode/}].  A frame is a [RaftFrameHeader] followed by the body.  There are
    two encoders: [encode_message_to_bytes] writes one contiguous buffer whose
    initial contents are arbitrary (the code calls [set_len] on uninitialised
    memory), and [encode_message_vectored] writes headers into a caller buffer
    and returns a list of slices, some of which point into that buffer.  A
    slice index out of range (a panic in safe code, undefined behaviour in the
    [unsafe] blocks) is the value [None]. *)

From stdpp Require Import base list strings pretty.
From Stdlib Require Import ZArith Lia.
From S2P Require Import Prelude Types Wire.

Local Open Scope string_scope.
Local Open Scope list_scope.
Local Open Scope raft_scope.
Local Open Scope Z_scope.

(** ** Messages *)

Inductive RaftMessage :=
| MRequestVote (m : RequestVote)
| MRequestVoteResp (m : RequestVoteResp)
| MPreVote (m : RequestVote)
| MPreVoteResp (m : RequestVoteResp)
| MAppendEntries (m : AppendEntries) (payload : bytes)
| MAppendEntriesVectored (m : AppendEntries) (entries : list LogEntry)
| MAppendEntriesSeeded (ae : AppendEntries) (headers payloads : bytes)
| MAppendEntriesSeededVectored (ae : AppendEntries) (headers : bytes) (payloads : list bytes)
| MAppendEntriesResp (m : AppendEntriesResp)
| MInstallSnapshot (m : InstallSnapshot) (chunk : bytes)
| MInstallSnapshotResp (m : InstallSnapshotResp)
| MTimeoutNow (m : TimeoutNow)
| MCustom (payload : bytes)
| MCustomResponse (payload : bytes).

Record InboundRaftMessage := {
  im_from : PeerId; im_group_id : GroupId; im_message : RaftMessage;
}.

(** [AppendEntriesEntryIter]. *)
Record EntryIter := { ei_payload : bytes; ei_remaining : nat }.

Definition entry_iter_next (it : EntryIter) : option (LogEntry * EntryIter) :=
  match ei_remaining it with
  | O => None
  | S r =>
      match from_prefix (A := EntryHeader) (ei_payload it) with
      | None => None
      | Some (header, rest) =>
          let len := Z.to_nat (eh_payload_len header) in
          if (length rest <? len)%nat then None
          else Some ({| e_term := eh_term header; e_index := eh_index header;
                        e_payload := take len rest |},
                     {| ei_payload := drop len rest; ei_remaining := r |})
      end
  end.

(** A [for] loop over the iterator: the items up to the first [None]. *)
Fixpoint entry_iter_items (fuel : nat) (it : EntryIter) : list LogEntry :=
  match fuel with
  | O => []
  | S f => match entry_iter_next it with
           | None => []
           | Some (e, it') => e :: entry_iter_items f it'
           end
  end.

Definition entry_iter (payload : bytes) (count : nat) : list LogEntry :=
  entry_iter_items count {| ei_payload := payload; ei_remaining := count |}.

(** [SeededPayloads] and [AppendEntriesRawIter]. *)
Inductive SeededPayloads :=
| Contiguous (p : bytes)
| Disjoint (p : list bytes).

Record RawIter := {
  ri_headers : bytes; ri_payloads : SeededPayloads; ri_pos : nat; ri_offset : nat;
}.

Definition raw_iter_next (it : RawIter) : option ((EntryHeader * bytes) * RawIter) :=
  let h_offset := (ri_pos it * 24)%nat in
  if (length (ri_headers it) <? h_offset + 24)%nat then None
  else match from_prefix (A := EntryHeader) (take 24 (drop h_offset (ri_headers it))) with
       | None => None
       | Some (header, _) =>
           let len := Z.to_nat (eh_payload_len header) in
           let step data off := Some ((header, data),
             {| ri_headers := ri_headers it; ri_payloads := ri_payloads it;
                ri_pos := S (ri_pos it); ri_offset := off |}) in
           match ri_payloads it with
           | Contiguous p =>
               let fin := (ri_offset it + len)%nat in
               if (length p <? fin)%nat then None
               else step (take len (drop (ri_offset it) p)) fin
           | Disjoint ps =>
               match ps !! ri_pos it with
               | None => None
               | Some data => step data (ri_offset it)
               end
           end
       end.

Fixpoint raw_iter_items (fuel : nat) (it : RawIter) : list (EntryHeader * bytes) :=
  match fuel with
  | O => []
  | S f => match raw_iter_next it with
           | None => []
           | Some (e, it') => e :: raw_iter_items f it'
           end
  end.

(** Every step consumes a 24-byte header, so the length of the block is enough
    fuel. *)
Definition raw_iter (headers : bytes) (payloads : SeededPayloads) : list (EntryHeader * bytes) :=
  raw_iter_items (length headers)
    {| ri_headers := headers; ri_payloads := payloads; ri_pos := 0; ri_offset := 0 |}.

(** ** Encoding *)

(** [usize] lengths are [nat]; [wire_len_u32] is the checked conversion. *)
Definition wire_len_u32 (len : nat) (what : string) : res Z :=
  if Z.of_nat len <=? u32_max then Ok (Z.of_nat len)
  else Err (Protocol (what +:+ " " +:+ pretty len +:+ " exceeds u32 wire field")).

Definition kind_of (msg : RaftMessage) : Z :=
  match msg with
  | MRequestVote _ => KIND_REQUEST_VOTE
  | MRequestVoteResp _ => KIND_REQUEST_VOTE_RESP
  | MPreVote _ => KIND_PRE_VOTE
  | MPreVoteResp _ => KIND_PRE_VOTE_RESP
  | MAppendEntries _ _ => KIND_APPEND_ENTRIES
  | MAppendEntriesVectored _ _ => KIND_APPEND_ENTRIES
  | MAppendEntriesResp _ => KIND_APPEND_ENTRIES_RESP
  | MAppendEntriesSeeded _ _ _ | MAppendEntriesSeededVectored _ _ _ =>
      KIND_APPEND_ENTRIES_SEEDED
  | MInstallSnapshot _ _ => KIND_INSTALL_SNAPSHOT
  | MInstallSnapshotResp _ => KIND_INSTALL_SNAPSHOT_RESP
  | MTimeoutNow _ => KIND_TIMEOUT_NOW
  | MCustom _ => KIND_CUSTOM
  | MCustomResponse _ => KIND_CUSTOM_RESPONSE
  end.

Definition entries_len (entries : list LogEntry) : nat :=
  foldl (fun acc e => (acc + (wire_size EntryHeader + length (e_payload e)))%nat) 0%nat entries.

Definition body_total_len (msg : RaftMessage) : nat :=
  match msg with
  | MRequestVote m | MPreVote m => length (as_bytes m)
  | MRequestVoteResp m | MPreVoteResp m => length (as_bytes m)
  | MAppendEntries m p => (length (as_bytes m) + length p)%nat
  | MAppendEntriesVectored _ entries =>
      foldl (fun acc e => (acc + (wire_size EntryHeader + length (e_payload e)))%nat)
        (wire_size AppendEntries) entries
  | MAppendEntriesResp m => length (as_bytes m)
  | MAppendEntriesSeeded ae headers payloads =>
      (length (as_bytes ae) + length headers + length payloads)%nat
  | MAppendEntriesSeededVectored ae headers payloads =>
      foldl (fun acc p => (acc + length p)%nat) (length (as_bytes ae) + length headers)%nat payloads
  | MInstallSnapshot m p => (length (as_bytes m) + length p)%nat
  | MInstallSnapshotResp m => length (as_bytes m)
  | MTimeoutNow m => length (as_bytes m)
  | MCustom p | MCustomResponse p => length p
  end.

(** Code that may panic and may return an error. *)
Abbreviation panicking A := (option (res A)) (only parsing).

Definition pbind {A B} (m : panicking A) (k : A -> panicking B) : panicking B :=
  match m with
  | None => None
  | Some (Err e) => Some (Err e)
  | Some (Ok a) => k a
  end.

Local Notation "'let!' x ':=' m 'in' k" := (pbind m (fun x => k))
  (at level 10, x pattern, m at level 100, k at level 200).

Definition lift {A} (m : res A) : panicking A := Some m.
Definition ret {A} (a : A) : panicking A := Some (Ok a).

(** [buf[off..off+len].copy_from_slice(src)] *)
Definition copy_range (off len : nat) (src buf : bytes) : panicking bytes :=
  if (off + len <=? length buf)%nat && (length src =? len)%nat
  then ret (take off buf ++ src ++ drop (off + len) buf) else None.

(** [buf[off..].copy_from_slice(src)] *)
Definition copy_tail (off : nat) (src buf : bytes) : panicking bytes :=
  if (off <=? length buf)%nat && (length src =? length buf - off)%nat
  then ret (take off buf ++ src) else None.

(** [buf.set_len(n)] on fresh memory: [n] bytes of whatever the heap held. *)
Definition uninit (heap : bytes) (n : nat) : bytes :=
  take n (heap ++ replicate n (to_byte 0)).

(** The eight header stores, into whatever header the bytes held before. *)
Definition set_frame_header (h : RaftFrameHeader) (kind from body_len group_id : Z)
  : RaftFrameHeader :=
  {| fh_magic := RAFT_MAGIC; fh_version := RAFT_VERSION; fh_kind := kind; fh_flags := 0;
     fh_from := from; fh_body_len := body_len; fh_reserved := 0; fh_group_id := group_id |}.

Definition write_frame_header (kind from body_len group_id : Z) (buf : bytes)
  : panicking bytes :=
  if (length buf <? RAFT_FRAME_HEADER_SIZE)%nat then None
  else match from_prefix (take RAFT_FRAME_HEADER_SIZE buf) with
       | None => Some (Err (Protocol "alignment"))
       | Some (h, _) =>
           copy_range 0 RAFT_FRAME_HEADER_SIZE
             (as_bytes (set_frame_header h kind from body_len group_id)) buf
       end.

(** A slice copy guarded by [!p.is_empty()]. *)
Definition copy_nonempty (off : nat) (p buf : bytes) : panicking bytes :=
  if is_nil p then ret buf else copy_range off (length p) p buf.

Fixpoint write_entries (entries : list LogEntry) (offset : nat) (buf : bytes)
  : panicking bytes :=
  match entries with
  | [] => ret buf
  | e :: es =>
      let eh_len := wire_size EntryHeader in
      let! plen := lift (wire_len_u32 (length (e_payload e)) "entry payload length") in
      let eh := {| eh_term := e_term e; eh_index := e_index e;
                   eh_payload_len := plen; eh_pad := 0 |} in
      let! buf := copy_range offset eh_len (as_bytes eh) buf in
      let offset := (offset + eh_len)%nat in
      let p_len := length (e_payload e) in
      if (0 <? p_len)%nat then
        let! buf := copy_range offset p_len (e_payload e) buf in
        write_entries es (offset + p_len)%nat buf
      else write_entries es offset buf
  end.

Fixpoint write_payloads (payloads : list bytes) (offset : nat) (buf : bytes)
  : panicking bytes :=
  match payloads with
  | [] => ret buf
  | p :: ps =>
      if is_nil p then write_payloads ps offset buf
      else
        let! buf := copy_range offset (length p) p buf in
        write_payloads ps (offset + length p)%nat buf
  end.

(** The [match msg] of [encode_message_to_bytes]: the body writes. *)
Definition write_body (msg : RaftMessage) (buf : bytes) : panicking bytes :=
  let H := RAFT_FRAME_HEADER_SIZE in
  match msg with
  | MAppendEntriesVectored m entries =>
      let ae_len := wire_size AppendEntries in
      let! buf := copy_range H ae_len (as_bytes m) buf in
      write_entries entries (H + ae_len)%nat buf
  | MAppendEntries m p =>
      let! buf := copy_range H (length (as_bytes m)) (as_bytes m) buf in
      copy_nonempty (H + length (as_bytes m)) p buf
  | MRequestVote m | MPreVote m => copy_tail H (as_bytes m) buf
  | MRequestVoteResp m | MPreVoteResp m => copy_tail H (as_bytes m) buf
  | MAppendEntriesResp m => copy_tail H (as_bytes m) buf
  | MInstallSnapshot m p =>
      let! buf := copy_range H (length (as_bytes m)) (as_bytes m) buf in
      copy_nonempty (H + length (as_bytes m)) p buf
  | MInstallSnapshotResp m => copy_tail H (as_bytes m) buf
  | MTimeoutNow m => copy_tail H (as_bytes m) buf
  | MAppendEntriesSeeded ae headers payloads =>
      let! buf := copy_range H (length (as_bytes ae)) (as_bytes ae) buf in
      let offset := (H + length (as_bytes ae))%nat in
      let! buf := copy_nonempty offset headers buf in
      copy_nonempty (offset + length headers) payloads buf
  | MAppendEntriesSeededVectored ae headers payloads =>
      let! buf := copy_range H (length (as_bytes ae)) (as_bytes ae) buf in
      let offset := (H + length (as_bytes ae))%nat in
      let! buf := copy_nonempty offset headers buf in
      write_payloads payloads (offset + length headers)%nat buf
  | MCustom p | MCustomResponse p =>
      if is_nil p then ret buf else copy_tail H p buf
  end.

Definition encode_message_to_bytes (heap : bytes) (from : PeerId) (msg : RaftMessage)
  : panicking bytes :=
  let body_len := body_total_len msg in
  let! body_len_u32 := lift (wire_len_u32 body_len "frame body length") in
  let buf := uninit heap (RAFT_FRAME_HEADER_SIZE + body_len) in
  let! buf := write_frame_header (kind_of msg) from body_len_u32 0 buf in
  write_body msg buf.

(** *** Vectored encoding

    A slice of [out_vectored] either aliases the header buffer (kept as a range
    and read when the frame is sent) or is a slice of the message. *)
Inductive Slice :=
| HeaderRange (off len : nat)
| Borrowed (data : bytes).

Definition slice_bytes (header_buf : bytes) (s : Slice) : bytes :=
  match s with
  | HeaderRange off len => take len (drop off header_buf)
  | Borrowed d => d
  end.

(** The bytes a vectored send puts on the wire. *)
Definition gather (header_buf : bytes) (out : list Slice) : bytes :=
  concat (map (slice_bytes header_buf) out).

Definition push_nonempty (p : bytes) (out : list Slice) : list Slice :=
  if is_nil p then out else out ++ [Borrowed p].

Fixpoint interleave_entries (entries : list LogEntry) (header_offset : nat)
  (buf : bytes) (out : list Slice) : panicking (bytes * list Slice) :=
  match entries with
  | [] => ret (buf, out)
  | e :: es =>
      let eh_len := wire_size EntryHeader in
      let! plen := lift (wire_len_u32 (length (e_payload e)) "entry payload length") in
      let eh := {| eh_term := e_term e; eh_index := e_index e;
                   eh_payload_len := plen; eh_pad := 0 |} in
      let! buf := copy_range header_offset eh_len (as_bytes eh) buf in
      let out := out ++ [HeaderRange header_offset eh_len] in
      interleave_entries es (header_offset + eh_len)%nat buf (push_nonempty (e_payload e) out)
  end.

Definition encode_append_entries_vectored_with_pad
  (from : PeerId) (group_id term leader_id prev_log_index prev_log_term leader_commit pad : Z)
  (entries : list LogEntry) (header_buf : bytes) : panicking (bytes * list Slice) :=
  let body_payload_len := entries_len entries in
  let body_wire_len := (wire_size AppendEntries + body_payload_len)%nat in
  let! body_wire_len_u32 := lift (wire_len_u32 body_wire_len "frame body length") in
  let! entry_count_u32 := lift (wire_len_u32 (length entries) "entry count") in
  let total_headers_needed := (RAFT_FRAME_HEADER_SIZE + wire_size AppendEntries
                               + length entries * wire_size EntryHeader)%nat in
  if (length header_buf <? total_headers_needed)%nat
  then Some (Err (Protocol "header buffer too small for batch"))
  else
    let! buf := write_frame_header KIND_APPEND_ENTRIES from body_wire_len_u32 group_id
                  header_buf in
    let body := {| ae_term := term; ae_leader_id := leader_id;
                   ae_prev_log_index := prev_log_index; ae_prev_log_term := prev_log_term;
                   ae_leader_commit := leader_commit; ae_entry_count := entry_count_u32;
                   ae_pad := pad |} in
    let! buf := copy_range RAFT_FRAME_HEADER_SIZE (wire_size AppendEntries)
                  (as_bytes body) buf in
    let first_chunk_len := (RAFT_FRAME_HEADER_SIZE + wire_size AppendEntries)%nat in
    interleave_entries entries first_chunk_len buf [HeaderRange 0 first_chunk_len].

Definition encode_append_entries_vectored
  (from : PeerId) (group_id term leader_id prev_log_index prev_log_term leader_commit : Z)
  (entries : list LogEntry) (header_buf : bytes) : panicking (bytes * list Slice) :=
  encode_append_entries_vectored_with_pad from group_id term leader_id prev_log_index
    prev_log_term leader_commit 0 entries header_buf.

Definition encode_message_vectored_impl (from : PeerId) (group_id : Z) (msg : RaftMessage)
  (header_buf : bytes) : panicking (bytes * list Slice) :=
  match msg with
  | MAppendEntriesVectored m entries =>
      encode_append_entries_vectored_with_pad from group_id (ae_term m) (ae_leader_id m)
        (ae_prev_log_index m) (ae_prev_log_term m) (ae_leader_commit m) (ae_pad m)
        entries header_buf
  | _ =>
      let! body_len_u32 := lift (wire_len_u32 (body_total_len msg) "frame body length") in
      if (length header_buf <? RAFT_FRAME_HEADER_SIZE)%nat
      then Some (Err (Protocol "header buffer too small"))
      else
        let! buf := write_frame_header (kind_of msg) from body_len_u32 group_id header_buf in
        let hdr := HeaderRange 0 RAFT_FRAME_HEADER_SIZE in
        ret (buf,
          match msg with
          | MAppendEntriesVectored _ _ => []
          | MRequestVote m | MPreVote m => [hdr; Borrowed (as_bytes m)]
          | MRequestVoteResp m | MPreVoteResp m => [hdr; Borrowed (as_bytes m)]
          | MAppendEntries m p => push_nonempty p [hdr; Borrowed (as_bytes m)]
          | MAppendEntriesResp m => [hdr; Borrowed (as_bytes m)]
          | MAppendEntriesSeeded ae headers payloads =>
              push_nonempty payloads (push_nonempty headers [hdr; Borrowed (as_bytes ae)])
          | MAppendEntriesSeededVectored ae headers payloads =>
              foldl (fun out p => push_nonempty p out)
                (push_nonempty headers [hdr; Borrowed (as_bytes ae)]) payloads
          | MInstallSnapshot m p => push_nonempty p [hdr; Borrowed (as_bytes m)]
          | MInstallSnapshotResp m => [hdr; Borrowed (as_bytes m)]
          | MTimeoutNow m => [hdr; Borrowed (as_bytes m)]
          | MCustom p | MCustomResponse p => push_nonempty p [hdr]
          end)
  end.

Definition encode_message_vectored (from : PeerId) (msg : RaftMessage) (header_buf : bytes)
  : panicking (bytes * list Slice) :=
  encode_message_vectored_impl from 0 msg header_buf.

Definition encode_message_vectored_with_group (from : PeerId) (group_id : GroupId)
  (msg : RaftMessage) (header_buf : bytes) : panicking (bytes * list Slice) :=
  encode_message_vectored_impl from group_id msg header_buf.

(** ** Decoding *)

Definition parse_prefix {A} `{Wire A} (buf : bytes) (name : string) : res (A * bytes) :=
  match from_prefix buf with
  | Some r => Ok r
  | None => Err (Protocol ("short " +:+ name))
  end.

Fixpoint validate_append_entries_body (entry_count : nat) (body : bytes) : res unit :=
  match entry_count with
  | O => if is_nil body then Ok tt else Err (Protocol "append entries trailing bytes")
  | S n =>
      let? (header, rest) := parse_prefix (A := EntryHeader) body "append entry header" in
      let len := Z.to_nat (eh_payload_len header) in
      if (length rest <? len)%nat then Err (Protocol "short append entry payload")
      else validate_append_entries_body n (drop len rest)
  end.

(** The loop of [validate_seeded_payloads]: the sum of the declared lengths of
    headers [i .. i + n). *)
Fixpoint seeded_expected_len (headers : bytes) (i n : nat) (expected_len : Z) : res Z :=
  match n with
  | O => Ok expected_len
  | S n' =>
      match from_prefix (A := EntryHeader)
              (take (wire_size EntryHeader) (drop (i * wire_size EntryHeader) headers)) with
      | None => Err (Protocol "unaligned seeded entry header")
      | Some (header, _) =>
          seeded_expected_len headers (S i) n' (expected_len + eh_payload_len header)
      end
  end.

Definition validate_seeded_payloads (headers payloads : bytes) (count : nat) : res unit :=
  let? expected_len := seeded_expected_len headers 0 count 0 in
  if negb (expected_len =? Z.of_nat (length payloads))
  then Err (Protocol ("seeded payloads size mismatch: headers specify=" +:+
                      pretty expected_len +:+ " actual=" +:+ pretty (length payloads)))
  else Ok tt.

(** The arms of the decoder that take a structure and nothing after it. *)
Definition parse_exact {A} `{Wire A} (body : bytes) (name trailing : string) : res A :=
  let? (wire, body_rest) := parse_prefix (A := A) body name in
  if is_nil body_rest then Ok wire else Err (Protocol trailing).

Definition decode_body (kind : Z) (body : bytes) : res RaftMessage :=
  if kind =? KIND_REQUEST_VOTE then
    rmap MRequestVote (parse_exact body "request vote body" "request vote trailing bytes")
  else if kind =? KIND_REQUEST_VOTE_RESP then
    rmap MRequestVoteResp
      (parse_exact body "request vote resp body" "request vote resp trailing bytes")
  else if kind =? KIND_PRE_VOTE then
    rmap MPreVote (parse_exact body "pre-vote body" "pre-vote trailing bytes")
  else if kind =? KIND_PRE_VOTE_RESP then
    rmap MPreVoteResp (parse_exact body "pre-vote resp body" "pre-vote resp trailing bytes")
  else if kind =? KIND_APPEND_ENTRIES then
    let? (wire, body_rest) := parse_prefix (A := AppendEntries) body "append entries body" in
    let? _ := validate_append_entries_body (Z.to_nat (ae_entry_count wire)) body_rest in
    Ok (MAppendEntries wire body_rest)
  else if kind =? KIND_APPEND_ENTRIES_RESP then
    rmap MAppendEntriesResp
      (parse_exact body "append entries resp body" "append entries resp trailing bytes")
  else if kind =? KIND_APPEND_ENTRIES_SEEDED then
    let? (ae, body_rest) :=
      parse_prefix (A := AppendEntries) body "append entries seeded body" in
    let count := Z.to_nat (ae_entry_count ae) in
    let headers_len := (count * wire_size EntryHeader)%nat in
    if (length body_rest <? headers_len)%nat
    then Err (Protocol "short seeded headers block")
    else
      let headers := take headers_len body_rest in
      let payloads := drop headers_len body_rest in
      let? _ := validate_seeded_payloads headers payloads count in
      Ok (MAppendEntriesSeeded ae headers payloads)
  else if kind =? KIND_INSTALL_SNAPSHOT then
    let? (wire, body_rest) :=
      parse_prefix (A := InstallSnapshot) body "install snapshot body" in
    if (length body_rest =? Z.to_nat (is_chunk_len wire))%nat
    then Ok (MInstallSnapshot wire body_rest)
    else Err (Protocol "install snapshot chunk length mismatch")
  else if kind =? KIND_INSTALL_SNAPSHOT_RESP then
    rmap MInstallSnapshotResp
      (parse_exact body "install snapshot resp body" "install snapshot resp trailing bytes")
  else if kind =? KIND_TIMEOUT_NOW then
    rmap MTimeoutNow (parse_exact body "timeout now body" "timeout now trailing bytes")
  else if kind =? KIND_CUSTOM then Ok (MCustom body)
  else if kind =? KIND_CUSTOM_RESPONSE then Ok (MCustomResponse body)
  else Err (Protocol ("unknown raft message kind " +:+ pretty kind)).

Definition decode_message (frame : bytes) : res InboundRaftMessage :=
  let? (header, rest) := parse_prefix (A := RaftFrameHeader) frame "raft frame header" in
  if negb (fh_magic header =? RAFT_MAGIC) then Err (Protocol "invalid raft frame magic")
  else if negb (fh_version header =? RAFT_VERSION) then
    Err (Protocol ("unsupported raft frame version " +:+ pretty (fh_version header)))
  else if negb (Z.of_nat (length rest) =? fh_body_len header) then
    Err (Protocol ("raft frame length mismatch: header=" +:+ pretty (fh_body_len header) +:+
                   " actual=" +:+ pretty (length rest)))
  else
    let? message := decode_body (fh_kind header) rest in
    Ok {| im_from := fh_from header; im_group_id := fh_group_id header;
          im_message := message |}.
