(* ===== verification/CodecFacts.v ===== *)
(** * CodecFacts: correctness of the frame encoders and the decoder

    The contiguous encoder writes every byte of its buffer, so its result does
    not depend on the uninitialised memory it starts from; the vectored encoder
    sends the same bytes; decoding an encoded message gives the message back;
    and a decoded message is one the iterators walk to the end. *)

From stdpp Require Import base list strings pretty.
From Stdlib Require Import ZArith Lia.
From S2P Require Import Prelude Types Wire Codec.

Local Open Scope string_scope.
Local Open Scope list_scope.
Local Open Scope raft_scope.
Local Open Scope Z_scope.

(** ** The bytes of a message *)

Definition entry_header (e : LogEntry) : EntryHeader :=
  {| eh_term := e_term e; eh_index := e_index e;
     eh_payload_len := Z.of_nat (length (e_payload e)); eh_pad := 0 |}.

Definition entry_bytes (e : LogEntry) : bytes := as_bytes (entry_header e) ++ e_payload e.

Definition body_bytes (msg : RaftMessage) : bytes :=
  match msg with
  | MRequestVote m | MPreVote m => as_bytes m
  | MRequestVoteResp m | MPreVoteResp m => as_bytes m
  | MAppendEntries m p => as_bytes m ++ p
  | MAppendEntriesVectored m es => as_bytes m ++ concat (map entry_bytes es)
  | MAppendEntriesResp m => as_bytes m
  | MAppendEntriesSeeded ae h p => as_bytes ae ++ h ++ p
  | MAppendEntriesSeededVectored ae h ps => as_bytes ae ++ h ++ concat ps
  | MInstallSnapshot m p => as_bytes m ++ p
  | MInstallSnapshotResp m => as_bytes m
  | MTimeoutNow m => as_bytes m
  | MCustom p | MCustomResponse p => p
  end.

Definition frame_header (from group_id : Z) (msg : RaftMessage) : RaftFrameHeader :=
  {| fh_magic := RAFT_MAGIC; fh_version := RAFT_VERSION; fh_kind := kind_of msg;
     fh_flags := 0; fh_from := from; fh_body_len := Z.of_nat (length (body_bytes msg));
     fh_reserved := 0; fh_group_id := group_id |}.

Definition frame_bytes (from group_id : Z) (msg : RaftMessage) : bytes :=
  as_bytes (frame_header from group_id msg) ++ body_bytes msg.

(** ** Buffer writes *)

Lemma copy_range_at pre src junk off len :
  off = length pre -> len = length src -> (length src <= length junk)%nat ->
  copy_range off len src (pre ++ junk) = ret (pre ++ src ++ drop (length src) junk).
Proof.
  intros -> -> Hle. unfold copy_range. rewrite length_app, Nat.eqb_refl, andb_true_r.
  destruct (Nat.leb_spec (length pre + length src) (length pre + length junk)) as [_|?]; [|lia].
  rewrite take_app_exact by done. rewrite drop_app_ge by lia.
  do 3 f_equal. f_equal. lia.
Qed.

Lemma copy_tail_at pre src junk off :
  off = length pre -> length src = length junk ->
  copy_tail off src (pre ++ junk) = ret (pre ++ src).
Proof.
  intros -> Hl. unfold copy_tail. rewrite length_app.
  destruct (Nat.leb_spec (length pre) (length pre + length junk)) as [_|?]; [|lia].
  destruct (Nat.eqb_spec (length src) (length pre + length junk - length pre)); [|lia].
  by rewrite take_app_exact.
Qed.

Lemma copy_nonempty_at pre src junk off :
  off = length pre -> (length src <= length junk)%nat ->
  copy_nonempty off src (pre ++ junk) = ret (pre ++ src ++ drop (length src) junk).
Proof.
  intros. unfold copy_nonempty. destruct src; [done|]. by apply copy_range_at.
Qed.

Lemma length_uninit heap n : length (uninit heap n) = n.
Proof. unfold uninit. rewrite length_take, length_app, length_replicate. lia. Qed.

(** Writes stay inside the buffer. *)
Lemma copy_range_length off len src buf buf' :
  copy_range off len src buf = Some (Ok buf') -> length buf' = length buf.
Proof.
  unfold copy_range, ret. destruct (Nat.leb_spec (off + len) (length buf)); [|done].
  destruct (Nat.eqb_spec (length src) len); [|done]. intros [= <-].
  rewrite !length_app, length_take, length_drop. lia.
Qed.

Lemma write_frame_header_length kind from blen gid buf buf' :
  write_frame_header kind from blen gid buf = Some (Ok buf') -> length buf' = length buf.
Proof.
  unfold write_frame_header. destruct (_ <? _)%nat; [done|].
  destruct (from_prefix _) as [[h r]|]; [|done]. apply copy_range_length.
Qed.

Lemma wire_len_u32_Ok n what :
  Z.of_nat n <= u32_max -> wire_len_u32 n what = Ok (Z.of_nat n).
Proof. intros H. unfold wire_len_u32. by apply Z.leb_le in H as ->. Qed.

Lemma wire_len_u32_Err n what :
  u32_max < Z.of_nat n ->
  wire_len_u32 n what = Err (Protocol (what +:+ " " +:+ pretty n +:+ " exceeds u32 wire field")).
Proof. intros H. unfold wire_len_u32. by apply Z.leb_gt in H as ->. Qed.

Lemma write_frame_header_at kind from blen gid buf :
  (RAFT_FRAME_HEADER_SIZE <= length buf)%nat ->
  write_frame_header kind from blen gid buf =
  ret (as_bytes {| fh_magic := RAFT_MAGIC; fh_version := RAFT_VERSION; fh_kind := kind;
                   fh_flags := 0; fh_from := from; fh_body_len := blen;
                   fh_reserved := 0; fh_group_id := gid |}
       ++ drop RAFT_FRAME_HEADER_SIZE buf).
Proof.
  intros Hl. unfold write_frame_header.
  destruct (Nat.ltb_spec (length buf) RAFT_FRAME_HEADER_SIZE) as [?|_]; [lia|].
  destruct (from_prefix (A := RaftFrameHeader) (take RAFT_FRAME_HEADER_SIZE buf))
    as [[h r]|] eqn:Hp.
  - unfold set_frame_header. by rewrite (copy_range_at [] _ buf) by (rewrite ?length_as_bytes; done).
  - apply from_prefix_None in Hp. rewrite length_take in Hp.
    change (wire_size RaftFrameHeader) with RAFT_FRAME_HEADER_SIZE in Hp. lia.
Qed.

Lemma length_entry_bytes e :
  length (entry_bytes e) = (wire_size EntryHeader + length (e_payload e))%nat.
Proof. unfold entry_bytes. by rewrite length_app, length_as_bytes. Qed.

Lemma foldl_entries_len es n :
  foldl (fun acc e => (acc + (wire_size EntryHeader + length (e_payload e)))%nat) n es
  = (n + length (concat (map entry_bytes es)))%nat.
Proof.
  revert n. induction es as [|e es IH]; intros n; cbn [foldl map concat]; [simpl; lia|].
  rewrite IH, length_app, length_entry_bytes. lia.
Qed.

Lemma foldl_payload_len (ps : list bytes) n :
  foldl (fun acc p => (acc + length p)%nat) n ps = (n + length (concat ps))%nat.
Proof.
  revert n. induction ps as [|p ps IH]; intros n; cbn [foldl concat]; [simpl; lia|].
  rewrite IH, length_app. lia.
Qed.

(** [body_total_len] is the length of the body. *)
Lemma body_total_len_spec msg : body_total_len msg = length (body_bytes msg).
Proof.
  destruct msg; cbn [body_total_len body_bytes];
    rewrite ?foldl_entries_len, ?foldl_payload_len, ?length_app, ?length_as_bytes; lia.
Qed.

Lemma payload_fits es e :
  e ∈ es -> (length (e_payload e) <= length (concat (map entry_bytes es)))%nat.
Proof.
  induction es as [|e' es IH]; intros He; [by apply not_elem_of_nil in He|].
  cbn [map concat]. rewrite length_app, length_entry_bytes.
  apply elem_of_cons in He as [->|He]; [lia|]. specialize (IH He). lia.
Qed.

Definition payloads_fit (es : list LogEntry) : Prop :=
  Forall (fun e => Z.of_nat (length (e_payload e)) <= u32_max) es.

Lemma payloads_fit_intro es n :
  Z.of_nat (n + length (concat (map entry_bytes es))) <= u32_max -> payloads_fit es.
Proof.
  intros H. apply Forall_forall. intros e He. apply payload_fits in He. lia.
Qed.

Lemma write_entries_at es pre junk off :
  payloads_fit es -> off = length pre ->
  (length (concat (map entry_bytes es)) <= length junk)%nat ->
  write_entries es off (pre ++ junk) =
  ret (pre ++ concat (map entry_bytes es) ++ drop (length (concat (map entry_bytes es))) junk).
Proof.
  revert pre junk off.
  induction es as [|e es IH]; intros pre junk off Hfit -> Hle; [done|].
  apply Forall_cons in Hfit as [He Hes].
  cbn [map concat] in *. rewrite length_app in *. pose proof (length_entry_bytes e) as Hlen.
  cbn [write_entries]. rewrite wire_len_u32_Ok by done. cbn [lift pbind].
  fold (entry_header e).
  rewrite copy_range_at by (rewrite ?length_as_bytes; lia). rewrite app_assoc. cbn [pbind ret].
  destruct (Nat.ltb_spec 0 (length (e_payload e))) as [Hp|Hp].
  - rewrite copy_range_at by (rewrite ?length_drop, ?length_app, ?length_as_bytes; lia).
    cbn [pbind ret]. rewrite app_assoc.
    rewrite IH by (rewrite ?length_drop, ?length_app, ?length_as_bytes; done || lia).
    unfold ret. do 2 f_equal. unfold entry_bytes. rewrite <- !app_assoc, !drop_drop.
    do 5 f_equal.
  - assert (e_payload e = []) as Hnil by (destruct (e_payload e); [done|simpl in Hp; lia]).
    rewrite IH by (rewrite ?length_drop, ?length_app, ?length_as_bytes; done || lia).
    unfold ret. do 2 f_equal. unfold entry_bytes.
    rewrite Hnil, app_nil_r, <- !app_assoc, !drop_drop. done.
Qed.

Lemma write_payloads_at ps pre junk off :
  off = length pre -> (length (concat ps) <= length junk)%nat ->
  write_payloads ps off (pre ++ junk) =
  ret (pre ++ concat ps ++ drop (length (concat ps)) junk).
Proof.
  revert pre junk off. induction ps as [|p ps IH]; intros pre junk off -> Hle; [done|].
  cbn [concat] in *. rewrite length_app in *. cbn [write_payloads].
  destruct p as [|b p]; cbn [is_nil]; [by apply IH|].
  rewrite copy_range_at by (done || lia). cbn [pbind ret]. rewrite app_assoc.
  rewrite IH by (rewrite ?length_drop, ?length_app; lia).
  by rewrite <- !app_assoc, drop_drop.
Qed.

Ltac buffer_len :=
  rewrite ?length_drop, ?length_app, ?length_as_bytes in *; lia.

(** The body writes fill the part of the buffer after the header. *)
Lemma write_body_at msg hdr junk :
  length hdr = RAFT_FRAME_HEADER_SIZE -> length junk = length (body_bytes msg) ->
  Z.of_nat (length (body_bytes msg)) <= u32_max ->
  write_body msg (hdr ++ junk) = ret (hdr ++ body_bytes msg).
Proof.
  intros Hh Hj Hfit.
  destruct msg; cbn [write_body body_bytes] in *; try (apply copy_tail_at; by rewrite ?Hj).
  - rewrite copy_range_at by buffer_len. cbn [pbind ret]. rewrite app_assoc.
    rewrite copy_nonempty_at by buffer_len.
    rewrite drop_drop, drop_ge by buffer_len. by rewrite app_nil_r, <- app_assoc.
  - rewrite copy_range_at by buffer_len. cbn [pbind ret]. rewrite app_assoc.
    rewrite length_app in Hfit, Hj. pose proof (payloads_fit_intro _ _ Hfit).
    rewrite write_entries_at by (done || buffer_len).
    rewrite drop_drop, drop_ge by buffer_len. by rewrite app_nil_r, <- app_assoc.
  - rewrite copy_range_at by buffer_len. cbn [pbind ret]. rewrite app_assoc.
    rewrite copy_nonempty_at by buffer_len. cbn [pbind ret]. rewrite app_assoc.
    rewrite copy_nonempty_at by buffer_len.
    rewrite !drop_drop, drop_ge by buffer_len. by rewrite app_nil_r, <- !app_assoc.
  - rewrite copy_range_at by buffer_len. cbn [pbind ret]. rewrite app_assoc.
    rewrite copy_nonempty_at by buffer_len. cbn [pbind ret]. rewrite app_assoc.
    rewrite write_payloads_at by buffer_len.
    rewrite !drop_drop, drop_ge by buffer_len. by rewrite app_nil_r, <- !app_assoc.
  - rewrite copy_range_at by buffer_len. cbn [pbind ret]. rewrite app_assoc.
    rewrite copy_nonempty_at by buffer_len.
    rewrite drop_drop, drop_ge by buffer_len. by rewrite app_nil_r, <- app_assoc.
  - destruct payload; [by destruct junk | by apply copy_tail_at].
  - destruct payload; [by destruct junk | by apply copy_tail_at].
Qed.

Lemma encode_message_to_bytes_spec heap from msg :
  encode_message_to_bytes heap from msg =
  Some (if Z.of_nat (length (body_bytes msg)) <=? u32_max
        then Ok (frame_bytes from 0 msg)
        else Err (Protocol ("frame body length " +:+ pretty (length (body_bytes msg)) +:+
                            " exceeds u32 wire field"))).
Proof.
  unfold encode_message_to_bytes. rewrite body_total_len_spec.
  destruct (Z.leb_spec (Z.of_nat (length (body_bytes msg))) u32_max) as [Hfit|Hbig].
  - rewrite wire_len_u32_Ok by done. cbn [lift pbind].
    rewrite write_frame_header_at by (rewrite length_uninit; lia). cbn [ret pbind].
    by rewrite write_body_at by
      (rewrite ?length_as_bytes, ?length_drop, ?length_uninit; done || lia).
  - by rewrite wire_len_u32_Err by done.
Qed.

(** C15: the contiguous encoder never panics and writes every byte of the
    buffer it allocates: for any message, whatever the heap held before, it
    returns the frame of the message when the body fits the 32-bit length
    field, and the length error otherwise. *)
Theorem encode_message_to_bytes_frame heap from msg :
  encode_message_to_bytes heap from msg =
  Some (if Z.of_nat (length (body_bytes msg)) <=? u32_max
        then Ok (frame_bytes from 0 msg)
        else Err (Protocol ("frame body length " +:+ pretty (length (body_bytes msg)) +:+
                            " exceeds u32 wire field"))).
Proof. apply encode_message_to_bytes_spec. Qed.

(** ** The vectored encoder *)

(** The slice lies in the first [n] bytes of the header buffer, if it lies in
    that buffer at all. *)
Definition slice_within (n : nat) (s : Slice) : Prop :=
  match s with
  | HeaderRange off len => (off + len <= n)%nat
  | Borrowed _ => True
  end.

Lemma slice_within_le n m s : (n <= m)%nat -> slice_within n s -> slice_within m s.
Proof. destruct s; simpl; [lia|done]. Qed.

(** Slices already pushed are not affected by later writes to the buffer. *)
Lemma gather_app_buf pre rest out :
  Forall (slice_within (length pre)) out -> gather (pre ++ rest) out = gather pre out.
Proof.
  unfold gather. induction 1 as [|s out Hs _ IH]; [done|]. cbn [map concat]. rewrite IH.
  f_equal. destruct s as [off len|d]; [|done]. simpl in *.
  rewrite drop_app_le by lia. by rewrite take_app_le by (rewrite length_drop; lia).
Qed.

Lemma gather_snoc buf out s : gather buf (out ++ [s]) = gather buf out ++ slice_bytes buf s.
Proof. unfold gather. by rewrite map_app, concat_app, <- (app_nil_r (slice_bytes buf s)). Qed.

Lemma gather_push_nonempty buf p out : gather buf (push_nonempty p out) = gather buf out ++ p.
Proof.
  unfold push_nonempty. destruct p; simpl; [by rewrite app_nil_r | by rewrite gather_snoc].
Qed.

Lemma gather_push_all buf ps out :
  gather buf (foldl (fun out p => push_nonempty p out) out ps) = gather buf out ++ concat ps.
Proof.
  revert out. induction ps as [|p ps IH]; intros out; simpl; [by rewrite app_nil_r|].
  by rewrite IH, gather_push_nonempty, app_assoc.
Qed.

Lemma push_nonempty_within n p out :
  Forall (slice_within n) out -> Forall (slice_within n) (push_nonempty p out).
Proof.
  intros H. unfold push_nonempty. destruct p; simpl; [done|].
  apply Forall_app; split; [done | by repeat constructor].
Qed.

Lemma interleave_entries_at es pre junk out :
  payloads_fit es -> Forall (slice_within (length pre)) out ->
  (length es * wire_size EntryHeader <= length junk)%nat ->
  exists buf' out',
    interleave_entries es (length pre) (pre ++ junk) out = ret (buf', out') /\
    gather buf' out' = gather pre out ++ concat (map entry_bytes es).
Proof.
  revert pre junk out.
  induction es as [|e es IH]; intros pre junk out Hfit Hout Hle.
  { exists (pre ++ junk), out. by rewrite gather_app_buf, app_nil_r. }
  apply Forall_cons in Hfit as [He Hes]. cbn [length Nat.mul] in Hle.
  cbn [interleave_entries map concat]. rewrite wire_len_u32_Ok by done. cbn [lift pbind].
  fold (entry_header e).
  rewrite copy_range_at by (rewrite ?length_as_bytes; lia). cbn [pbind ret].
  rewrite app_assoc.
  set (pre' := pre ++ as_bytes (entry_header e)).
  assert (Hpre' : length pre' = (length pre + wire_size EntryHeader)%nat)
    by (unfold pre'; by rewrite length_app, length_as_bytes).
  rewrite <- Hpre'.
  destruct (IH pre' (drop (length (as_bytes (entry_header e))) junk)
    (push_nonempty (e_payload e) (out ++ [HeaderRange (length pre) (wire_size EntryHeader)])))
    as (buf' & out' & Hrun & Hg).
  - done.
  - apply push_nonempty_within, Forall_app. split; [|constructor; simpl; [lia|constructor]].
    eapply Forall_impl; [exact Hout|]. intros s. apply slice_within_le. lia.
  - rewrite length_drop, length_as_bytes. lia.
  - exists buf', out'. split; [done|]. rewrite Hg, gather_push_nonempty, gather_snoc.
    unfold pre'. rewrite gather_app_buf by done. simpl.
    rewrite drop_app_exact by done. rewrite firstn_all2 by (by rewrite length_as_bytes).
    unfold entry_bytes. by rewrite <- !app_assoc.
Qed.

(** The batch encoder recomputes the entry count from the slice it is given. *)
Definition counted (msg : RaftMessage) : RaftMessage :=
  match msg with
  | MAppendEntriesVectored m es =>
      MAppendEntriesVectored
        {| ae_term := ae_term m; ae_leader_id := ae_leader_id m;
           ae_prev_log_index := ae_prev_log_index m; ae_prev_log_term := ae_prev_log_term m;
           ae_leader_commit := ae_leader_commit m;
           ae_entry_count := Z.of_nat (length es); ae_pad := ae_pad m |} es
  | _ => msg
  end.

(** The header bytes a message needs in the caller's buffer. *)
Definition header_bytes_needed (msg : RaftMessage) : nat :=
  match msg with
  | MAppendEntriesVectored _ es =>
      (RAFT_FRAME_HEADER_SIZE + wire_size AppendEntries
       + length es * wire_size EntryHeader)%nat
  | _ => RAFT_FRAME_HEADER_SIZE
  end.

Lemma length_entries_le es :
  (length es * wire_size EntryHeader <= length (concat (map entry_bytes es)))%nat.
Proof.
  induction es as [|e es IH]; [done|]. cbn [map concat length].
  rewrite length_app, length_entry_bytes. cbn [Nat.mul]. lia.
Qed.

Lemma encode_append_entries_vectored_at from gid m es header_buf :
  let msg := MAppendEntriesVectored m es in
  Z.of_nat (length (body_bytes msg)) <= u32_max ->
  (header_bytes_needed msg <= length header_buf)%nat ->
  exists buf out,
    encode_append_entries_vectored_with_pad from gid (ae_term m) (ae_leader_id m)
      (ae_prev_log_index m) (ae_prev_log_term m) (ae_leader_commit m) (ae_pad m)
      es header_buf = Some (Ok (buf, out)) /\
    gather buf out = frame_bytes from gid (counted msg).
Proof.
  intros msg Hfit Hbuf. unfold msg in *. cbn [body_bytes header_bytes_needed] in *.
  rewrite length_app, length_as_bytes in Hfit.
  pose proof (payloads_fit_intro _ _ Hfit) as Hpay. pose proof (length_entries_le es) as Hn.
  assert (Hpos : (0 < wire_size EntryHeader)%nat) by (vm_compute; lia).
  unfold encode_append_entries_vectored_with_pad, entries_len. rewrite foldl_entries_len.
  rewrite !wire_len_u32_Ok by nia. cbn [lift pbind].
  match goal with |- context [(?a <? ?b)%nat] => destruct (Nat.ltb_spec a b); [lia|] end.
  rewrite write_frame_header_at by lia. cbn [ret pbind].
  rewrite copy_range_at by (rewrite ?length_drop, ?length_as_bytes; done || lia).
  cbn [ret pbind]. rewrite app_assoc.
  match goal with
  | |- context [interleave_entries es ?n (?p ++ ?j) ?o] =>
      replace n with (length p) by (by rewrite length_app, !length_as_bytes);
      destruct (interleave_entries_at es p j o) as (buf' & out' & Hrun & Hg)
  end.
  - done.
  - constructor; [|constructor]. simpl. by rewrite length_app, !length_as_bytes.
  - rewrite !length_drop, !length_as_bytes. lia.
  - exists buf', out'. split; [exact Hrun|]. rewrite Hg.
    unfold gather, frame_bytes. cbn [map concat slice_bytes counted]. rewrite drop_0.
    rewrite firstn_all2 by (by rewrite length_app, !length_as_bytes).
    rewrite app_nil_r. unfold frame_header. cbn [kind_of body_bytes].
    rewrite length_app, length_as_bytes. by rewrite <- !app_assoc.
Qed.

Lemma gather_header h rest out :
  gather (as_bytes (A := RaftFrameHeader) h ++ rest)
    (HeaderRange 0 RAFT_FRAME_HEADER_SIZE :: out) =
  as_bytes h ++ gather (as_bytes h ++ rest) out.
Proof.
  unfold gather. cbn [map concat slice_bytes]. rewrite drop_0.
  by rewrite take_app_exact by (by rewrite length_as_bytes).
Qed.

Lemma encode_plain_vectored_at from gid msg header_buf :
  (forall m es, msg <> MAppendEntriesVectored m es) ->
  Z.of_nat (length (body_bytes msg)) <= u32_max ->
  (header_bytes_needed msg <= length header_buf)%nat ->
  exists buf out,
    encode_message_vectored_impl from gid msg header_buf = Some (Ok (buf, out)) /\
    gather buf out = frame_bytes from gid (counted msg).
Proof.
  intros Hne Hfit Hbuf.
  assert (Hneed : header_bytes_needed msg = RAFT_FRAME_HEADER_SIZE)
    by (destruct msg; first [reflexivity | by edestruct Hne]).
  assert (Hc : counted msg = msg) by (destruct msg; first [reflexivity | by edestruct Hne]).
  rewrite Hneed in Hbuf. rewrite Hc. unfold frame_bytes, frame_header.
  destruct msg; try (by edestruct Hne); unfold encode_message_vectored_impl;
    rewrite body_total_len_spec, wire_len_u32_Ok by done; cbn [lift pbind];
    rewrite (proj2 (Nat.ltb_ge _ _) Hbuf), write_frame_header_at by done; cbn [ret pbind];
    eexists _, _; (split; [reflexivity|]);
    rewrite ?gather_push_all, ?gather_push_nonempty, gather_header;
    unfold gather; cbn [map concat slice_bytes body_bytes kind_of];
    by rewrite ?app_nil_r, <- ?app_assoc.
Qed.

Lemma encode_vectored_at from gid msg header_buf :
  Z.of_nat (length (body_bytes msg)) <= u32_max ->
  (header_bytes_needed msg <= length header_buf)%nat ->
  exists buf out,
    encode_message_vectored_impl from gid msg header_buf = Some (Ok (buf, out)) /\
    gather buf out = frame_bytes from gid (counted msg).
Proof.
  intros Hfit Hbuf.
  assert (Hv : (exists m es, msg = MAppendEntriesVectored m es) \/
               forall m es, msg <> MAppendEntriesVectored m es)
    by (destruct msg; eauto).
  destruct Hv as [(m & es & ->)|Hne]; [by apply encode_append_entries_vectored_at|].
  by apply encode_plain_vectored_at.
Qed.

(** No slice index of the vectored encoder is out of range. *)
Lemma encode_vectored_total from gid msg header_buf :
  exists r, encode_message_vectored_with_group from gid msg header_buf = Some r.
Proof.
  unfold encode_message_vectored_with_group.
  destruct (Z.le_gt_cases (Z.of_nat (length (body_bytes msg))) u32_max) as [Hfit|Hbig].
  - destruct (Nat.le_gt_cases (header_bytes_needed msg) (length header_buf)) as [Hbuf|Hbuf].
    { destruct (encode_vectored_at from gid msg header_buf Hfit Hbuf) as (b & o & -> & _); eauto. }
    apply Nat.ltb_lt in Hbuf.
    destruct msg; cbn [header_bytes_needed encode_message_vectored_impl] in *;
      unfold encode_append_entries_vectored_with_pad;
      repeat (destruct (wire_len_u32 _ _); cbn [lift pbind]; [|by eauto]);
      rewrite Hbuf; eauto.
  - rewrite <- body_total_len_spec in Hbig.
    destruct msg; cbn [encode_message_vectored_impl];
      unfold encode_append_entries_vectored_with_pad;
      (rewrite wire_len_u32_Err; [cbn [lift pbind]; by eauto|]); try exact Hbig.
    cbn [body_total_len] in Hbig. unfold entries_len.
    by rewrite foldl_entries_len in *.
Qed.

(** Whatever the vectored encoder returns is the frame of the message. *)
Lemma encode_vectored_Ok from gid msg header_buf buf out :
  encode_message_vectored_with_group from gid msg header_buf = Some (Ok (buf, out)) ->
  Z.of_nat (length (body_bytes msg)) <= u32_max /\
  gather buf out = frame_bytes from gid (counted msg).
Proof.
  unfold encode_message_vectored_with_group. intros E.
  destruct (Z.le_gt_cases (Z.of_nat (length (body_bytes msg))) u32_max) as [Hfit|Hbig].
  - split; [done|].
    destruct (Nat.le_gt_cases (header_bytes_needed msg) (length header_buf)) as [Hbuf|Hbuf].
    { destruct (encode_vectored_at from gid msg header_buf Hfit Hbuf) as (b & o & Hb & Hg).
      rewrite E in Hb. by injection Hb as <- <-. }
    exfalso. revert E. apply Nat.ltb_lt in Hbuf.
    destruct msg; cbn [header_bytes_needed encode_message_vectored_impl] in *;
      unfold encode_append_entries_vectored_with_pad;
      repeat (destruct (wire_len_u32 _ _); cbn [lift pbind]; [|done]); by rewrite Hbuf.
  - exfalso. revert E. rewrite <- body_total_len_spec in Hbig.
    destruct msg; cbn [encode_message_vectored_impl];
      unfold encode_append_entries_vectored_with_pad;
      (rewrite wire_len_u32_Err; [done|]); try exact Hbig.
    cbn [body_total_len] in Hbig. unfold entries_len. by rewrite foldl_entries_len in *.
Qed.

Lemma length_body_counted msg : length (body_bytes (counted msg)) = length (body_bytes msg).
Proof. destruct msg; simpl; rewrite ?length_app, ?length_as_bytes; done. Qed.

(** C14: the vectored encoder sends exactly the frame: for every message whose
    body fits and every large enough header buffer, whatever it holds, the
    gathered slices are the frame of the message with the entry count of the
    batch, and so, for group 0, the bytes of the contiguous encoder. *)
Theorem encode_vectored_equals_contiguous heap from gid msg header_buf :
  Z.of_nat (length (body_bytes msg)) <= u32_max ->
  (header_bytes_needed msg <= length header_buf)%nat ->
  exists buf out,
    encode_message_vectored_with_group from gid msg header_buf = Some (Ok (buf, out)) /\
    gather buf out = frame_bytes from gid (counted msg) /\
    (gid = 0 -> encode_message_to_bytes heap from (counted msg) = Some (Ok (gather buf out))).
Proof.
  intros Hfit Hbuf. unfold encode_message_vectored_with_group.
  destruct (encode_vectored_at from gid msg header_buf Hfit Hbuf) as (buf & out & Hrun & Hg).
  exists buf, out. split; [done|]. split; [done|].
  intros ->. rewrite encode_message_to_bytes_spec, Hg, length_body_counted. by apply Z.leb_le in Hfit as ->.
Qed.

(** ** Entry blocks *)

(** A header and the payload it announces. *)
Definition item_ok (i : EntryHeader * bytes) : Prop :=
  wire_wf (fst i) /\ eh_payload_len (fst i) = Z.of_nat (length (snd i)).

Definition item_bytes (i : EntryHeader * bytes) : bytes := as_bytes (fst i) ++ snd i.
Definition item_entry (i : EntryHeader * bytes) : LogEntry :=
  {| e_term := eh_term (fst i); e_index := eh_index (fst i); e_payload := snd i |}.

Definition block_bytes (items : list (EntryHeader * bytes)) : bytes :=
  concat (map item_bytes items).

(** [p] is a block of [n] entries, one after the other, and nothing else. *)
Definition entry_block (n : nat) (p : bytes) : Prop :=
  exists items, length items = n /\ Forall item_ok items /\ p = block_bytes items.

Lemma from_prefix_item i rest :
  item_ok i -> from_prefix (A := EntryHeader) (item_bytes i ++ rest) = Some (fst i, snd i ++ rest).
Proof. intros [Hw _]. unfold item_bytes. rewrite <- app_assoc. by apply from_prefix_as_bytes. Qed.

Lemma validate_block items :
  Forall item_ok items -> validate_append_entries_body (length items) (block_bytes items) = Ok tt.
Proof.
  induction 1 as [|i items Hi _ IH]; [done|].
  unfold block_bytes in *. cbn [map concat length validate_append_entries_body].
  unfold parse_prefix. rewrite from_prefix_item by done. cbn [rbind].
  destruct Hi as [_ ->]. rewrite Nat2Z.id, length_app.
  destruct (Nat.ltb_spec (length (snd i) + length (concat (map item_bytes items)))
              (length (snd i))) as [?|_]; [lia|].
  by rewrite drop_app_exact.
Qed.

Lemma validate_inv n p :
  validate_append_entries_body n p = Ok tt -> entry_block n p.
Proof.
  revert p. induction n as [|n IH]; intros p H; cbn [validate_append_entries_body] in H.
  - destruct p; [|done]. by exists [].
  - unfold parse_prefix in H. destruct (from_prefix (A := EntryHeader) p) as [[h rest]|] eqn:Hp; [|done].
    cbn [rbind] in H. apply from_prefix_Some in Hp as [-> Hw].
    destruct (Nat.ltb_spec (length rest) (Z.to_nat (eh_payload_len h))) as [?|Hge]; [done|].
    destruct (IH _ H) as (items & Hl & Hok & Hd).
    exists ((h, take (Z.to_nat (eh_payload_len h)) rest) :: items).
    split; [simpl; lia|]. split.
    + constructor; [|done]. split; [done|]. cbn [fst snd]. rewrite length_take.
      destruct Hw as [Hw _]. inversion_clear Hw as [|? ? ? ? _ Hw1].
      inversion_clear Hw1 as [|? ? ? ? _ Hw2]. inversion_clear Hw2 as [|? ? ? ? Hlen _].
      unfold in_width in Hlen. lia.
    + unfold block_bytes. cbn [map concat]. fold (block_bytes items). rewrite <- Hd.
      unfold item_bytes. cbn [fst snd]. by rewrite <- app_assoc, take_drop.
Qed.

(** The iterator walks a block to its end. *)
Lemma entry_iter_block items :
  Forall item_ok items -> entry_iter (block_bytes items) (length items) = map item_entry items.
Proof.
  unfold entry_iter. induction 1 as [|i items Hi _ IH]; [done|].
  unfold block_bytes in *. cbn [map concat length entry_iter_items].
  unfold entry_iter_next at 1. cbn [ei_remaining ei_payload].
  rewrite from_prefix_item by done. destruct Hi as [_ ->].
  rewrite Nat2Z.id, length_app.
  destruct (Nat.ltb_spec (length (snd i) + length (concat (map item_bytes items)))
              (length (snd i))) as [?|_]; [lia|].
  by rewrite drop_app_exact, take_app_exact, IH.
Qed.

(** ** Seeded blocks *)

Definition header_block (hs : list EntryHeader) : bytes := concat (map as_bytes hs).

Definition declared_len (hs : list EntryHeader) : Z :=
  foldr (fun h acc => eh_payload_len h + acc) 0 hs.

Definition seeded_block (n : nat) (headers payloads : bytes) : Prop :=
  exists hs, length hs = n /\ Forall wire_wf hs /\ headers = header_block hs /\
             declared_len hs = Z.of_nat (length payloads).

Lemma length_header_block hs : length (header_block hs) = (length hs * wire_size EntryHeader)%nat.
Proof.
  unfold header_block. induction hs as [|h hs IH]; [done|]. cbn [map concat length Nat.mul].
  by rewrite length_app, length_as_bytes, IH.
Qed.

Lemma header_block_app hs1 hs2 : header_block (hs1 ++ hs2) = header_block hs1 ++ header_block hs2.
Proof. unfold header_block. by rewrite map_app, concat_app. Qed.

Lemma header_block_read hs1 h hs2 :
  wire_wf h ->
  from_prefix (A := EntryHeader)
    (take (wire_size EntryHeader)
       (drop (length hs1 * wire_size EntryHeader) (header_block (hs1 ++ h :: hs2)))) =
  Some (h, []).
Proof.
  intros Hw. rewrite header_block_app, drop_app_exact by (by rewrite length_header_block).
  unfold header_block at 1. cbn [map concat].
  rewrite take_app_exact by (by rewrite length_as_bytes).
  by rewrite <- (app_nil_r (as_bytes h)), from_prefix_as_bytes.
Qed.

Lemma seeded_expected_len_block hs1 hs2 acc :
  Forall wire_wf hs2 ->
  seeded_expected_len (header_block (hs1 ++ hs2)) (length hs1) (length hs2) acc
  = Ok (acc + declared_len hs2).
Proof.
  intros H. revert hs1 acc. induction H as [|h hs2 Hh _ IH]; intros hs1 acc.
  - simpl. f_equal. lia.
  - cbn [length seeded_expected_len]. rewrite header_block_read by done.
    replace (hs1 ++ h :: hs2) with ((hs1 ++ [h]) ++ hs2) by (by rewrite <- app_assoc).
    replace (S (length hs1)) with (length (hs1 ++ [h])) by (rewrite length_app; simpl; lia).
    rewrite IH. cbn [declared_len foldr]. fold (declared_len hs2). f_equal. lia.
Qed.

(** Any byte string of the right length is a block of headers: the wire
    structures have no invalid values. *)
Lemma header_block_total n b :
  length b = (n * wire_size EntryHeader)%nat ->
  exists hs, length hs = n /\ Forall wire_wf hs /\ b = header_block hs.
Proof.
  revert b. induction n as [|n IH]; intros b Hb.
  - exists []. by destruct b.
  - cbn [Nat.mul] in Hb.
    destruct (from_prefix (A := EntryHeader) b) as [[h rest]|] eqn:Hp.
    + apply from_prefix_Some in Hp as [-> Hw]. rewrite length_app, length_as_bytes in Hb.
      destruct (IH rest) as (hs & Hl & Hok & ->); [lia|].
      exists (h :: hs). split; [simpl; lia|]. split; [by constructor|done].
    + apply from_prefix_None in Hp. lia.
Qed.

Lemma seeded_expected_len_all hs :
  Forall wire_wf hs ->
  seeded_expected_len (header_block hs) 0 (length hs) 0 = Ok (declared_len hs).
Proof. apply (seeded_expected_len_block [] hs 0). Qed.

Lemma validate_seeded_iff n headers payloads :
  length headers = (n * wire_size EntryHeader)%nat ->
  validate_seeded_payloads headers payloads n = Ok tt <-> seeded_block n headers payloads.
Proof.
  intros Hl. unfold validate_seeded_payloads. split.
  - intros H. destruct (header_block_total _ _ Hl) as (hs & Hn & Hok & ->).
    exists hs. do 3 (split; [done|]). subst n.
    rewrite seeded_expected_len_all in H by done. cbn [rbind] in H.
    destruct (Z.eqb_spec (declared_len hs) (Z.of_nat (length payloads))); [lia|done].
  - intros (hs & <- & Hok & -> & Hd).
    rewrite seeded_expected_len_all by done. cbn [rbind].
    by destruct (Z.eqb_spec (declared_len hs) (Z.of_nat (length payloads))); [|lia].
Qed.

Lemma payload_len_nonneg h : wire_wf h -> 0 <= eh_payload_len h.
Proof.
  intros [Hw _]. inversion_clear Hw as [|? ? ? ? _ Hw1].
  inversion_clear Hw1 as [|? ? ? ? _ Hw2]. inversion_clear Hw2 as [|? ? ? ? Hl _].
  unfold in_width in Hl. lia.
Qed.

Lemma declared_len_nonneg hs : Forall wire_wf hs -> 0 <= declared_len hs.
Proof.
  induction 1 as [|h hs Hh _ IH]; [done|]. apply payload_len_nonneg in Hh.
  cbn [declared_len foldr]. fold (declared_len hs). lia.
Qed.

(** The raw iterator started at header [length hs1] and the matching offset
    yields every remaining header with its own part of the payloads. *)
Lemma raw_iter_items_block fuel hs1 hs2 p1 p2 :
  Forall wire_wf hs2 -> declared_len hs2 = Z.of_nat (length p2) -> (length hs2 <= fuel)%nat ->
  exists items,
    raw_iter_items fuel {| ri_headers := header_block (hs1 ++ hs2);
      ri_payloads := Contiguous (p1 ++ p2); ri_pos := length hs1; ri_offset := length p1 |}
    = items /\ map fst items = hs2 /\ concat (map snd items) = p2 /\ Forall item_ok items.
Proof.
  revert hs1 hs2 p1 p2. induction fuel as [|fuel IH]; intros hs1 hs2 p1 p2 Hok Hd Hf.
  { destruct hs2; [|simpl in Hf; lia]. destruct p2; [|done]. by exists []. }
  cbn [raw_iter_items]. unfold raw_iter_next. cbn [ri_headers ri_pos ri_payloads ri_offset].
  change 24%nat with (wire_size EntryHeader).
  destruct hs2 as [|h hs2].
  { rewrite app_nil_r, length_header_block. destruct p2; [|done].
    match goal with |- context [(?a <? ?b)%nat] => destruct (Nat.ltb_spec a b) as [_|Hge] end.
    - by exists [].
    - assert (0 < wire_size EntryHeader)%nat by (vm_compute; lia). lia. }
  rewrite header_block_read by (by inversion_clear Hok).
  apply Forall_cons in Hok as [Hh Hok]. pose proof (payload_len_nonneg _ Hh).
  pose proof (declared_len_nonneg _ Hok).
  cbn [declared_len foldr] in Hd. fold (declared_len hs2) in Hd.
  set (len := Z.to_nat (eh_payload_len h)).
  assert (Hlen : (len <= length p2)%nat) by lia.
  rewrite length_header_block, length_app. cbn [length].
  destruct (Nat.ltb_spec ((length hs1 + S (length hs2)) * wire_size EntryHeader)
              (length hs1 * wire_size EntryHeader + wire_size EntryHeader)) as [?|_]; [nia|].
  rewrite length_app.
  destruct (Nat.ltb_spec (length p1 + length p2) (length p1 + len)) as [?|_]; [lia|].
  rewrite drop_app_exact by done.
  destruct (IH (hs1 ++ [h]) hs2 (p1 ++ take len p2) (drop len p2)) as (items & Hit & Hf1 & Hc & Hi).
  - done.
  - rewrite length_drop. lia.
  - simpl in Hf. lia.
  - rewrite <- !app_assoc, take_drop, !length_app, length_take in Hit. cbn [length app] in Hit.
    replace (len `min` length p2)%nat with len in Hit by lia.
    rewrite Nat.add_1_r in Hit. exists ((h, take len p2) :: items). rewrite Hit.
    split; [done|]. cbn [map concat fst snd]. rewrite Hf1, Hc, take_drop.
    split; [done|]. split; [done|]. constructor; [|done]. split; [done|].
    cbn [fst snd]. rewrite length_take. lia.
Qed.

Lemma raw_iter_block n headers payloads :
  seeded_block n headers payloads ->
  let items := raw_iter headers (Contiguous payloads) in
  length items = n /\ Forall item_ok items /\
  headers = header_block (map fst items) /\ payloads = concat (map snd items).
Proof.
  intros (hs & <- & Hok & -> & Hd). unfold raw_iter.
  destruct (raw_iter_items_block (length (header_block hs)) [] hs [] payloads)
    as (items & Hit & Hf & Hc & Hi); [done..| |].
  - rewrite length_header_block. assert (0 < wire_size EntryHeader)%nat by (vm_compute; lia). nia.
  - cbn [app length] in Hit. rewrite Hit, Hf, Hc. by rewrite <- Hf, length_map.
Qed.

(** Items are determined by their headers and the concatenation of their payloads. *)
Lemma items_inj items items' :
  Forall item_ok items -> Forall item_ok items' -> map fst items = map fst items' ->
  concat (map snd items) = concat (map snd items') -> items = items'.
Proof.
  intros H. revert items'. induction H as [|[h p] items [_ Hi] _ IH]; intros [|[h' p'] items'] H';
    try done.
  inversion_clear H' as [|? ? [_ Hi'] Hr]. cbn in *. intros Hf Hc. injection Hf as <- Hf.
  apply app_inj_1 in Hc as [-> Hc]; [|lia]. f_equal. by apply IH.
Qed.

Lemma declared_len_items items :
  Forall item_ok items -> declared_len (map fst items) = Z.of_nat (length (concat (map snd items))).
Proof.
  induction 1 as [|i items [_ Hi] _ IH]; [done|]. cbn [map concat declared_len foldr].
  unfold declared_len in IH. rewrite IH, Hi, length_app. lia.
Qed.

(** Headers and payloads sent apart come back as the items they were taken from. *)
Lemma raw_iter_of_items items :
  Forall item_ok items ->
  raw_iter (header_block (map fst items)) (Contiguous (concat (map snd items))) = items.
Proof.
  intros Hok. unfold raw_iter.
  destruct (raw_iter_items_block (length (header_block (map fst items))) [] (map fst items) []
              (concat (map snd items))) as (got & Hit & Hf & Hc & Hi).
  - apply Forall_map. eapply Forall_impl; [done|]. by intros i [].
  - by apply declared_len_items.
  - rewrite length_header_block. assert (0 < wire_size EntryHeader)%nat by (vm_compute; lia). nia.
  - cbn [app length] in Hit. rewrite Hit. by apply items_inj.
Qed.

(** ** Round trip and soundness of the decoder *)

Ltac wire_fields :=
  unfold in_width; machine;
  repeat match goal with
  | |- Forall2 _ (_ :: _) _ => apply Forall2_cons; split
  | |- Forall2 _ [] _ => apply Forall2_nil
  end.

(** A message the engine may send: its structures are values of their types and
    its counts and lengths agree with the data behind them. *)
Definition entry_wf (e : LogEntry) : Prop := is_u64 (e_term e) /\ is_u64 (e_index e).

Definition msg_wf (msg : RaftMessage) : Prop :=
  match msg with
  | MRequestVote m | MPreVote m => wire_wf m
  | MRequestVoteResp m | MPreVoteResp m => wire_wf m
  | MAppendEntries m p => wire_wf m /\ entry_block (Z.to_nat (ae_entry_count m)) p
  | MAppendEntriesVectored m es =>
      wire_wf m /\ ae_entry_count m = Z.of_nat (length es) /\ Forall entry_wf es
  | MAppendEntriesSeeded m h p => wire_wf m /\ seeded_block (Z.to_nat (ae_entry_count m)) h p
  | MAppendEntriesSeededVectored m h ps =>
      wire_wf m /\ seeded_block (Z.to_nat (ae_entry_count m)) h (concat ps)
  | MAppendEntriesResp m => wire_wf m
  | MInstallSnapshot m p => wire_wf m /\ Z.to_nat (is_chunk_len m) = length p
  | MInstallSnapshotResp m => wire_wf m
  | MTimeoutNow m => wire_wf m
  | MCustom _ | MCustomResponse _ => True
  end.

(** The form in which the receiver sees a message: the outbound-only variants
    become the inbound ones. *)
Definition wire_form (msg : RaftMessage) : RaftMessage :=
  match msg with
  | MAppendEntriesVectored m es => MAppendEntries m (concat (map entry_bytes es))
  | MAppendEntriesSeededVectored m h ps => MAppendEntriesSeeded m h (concat ps)
  | _ => msg
  end.

Lemma parse_prefix_ok {A} `{WireLaws A} (a : A) rest name :
  wire_wf a -> parse_prefix (as_bytes a ++ rest) name = Ok (a, rest).
Proof. intros Hw. unfold parse_prefix. by rewrite from_prefix_as_bytes. Qed.

Lemma parse_exact_ok {A} `{WireLaws A} (a : A) name trailing :
  wire_wf a -> parse_exact (as_bytes a) name trailing = Ok a.
Proof.
  intros Hw. unfold parse_exact.
  by rewrite <- (app_nil_r (as_bytes a)), parse_prefix_ok.
Qed.

Lemma parse_prefix_inv {A} `{WireLaws A} body name (a : A) rest :
  parse_prefix body name = Ok (a, rest) -> body = as_bytes a ++ rest /\ wire_wf a.
Proof.
  unfold parse_prefix. destruct (from_prefix body) as [[a' r']|] eqn:Hp; [|done].
  intros [= -> ->]. by apply from_prefix_Some.
Qed.

Lemma parse_exact_inv {A} `{WireLaws A} body name trailing (a : A) :
  parse_exact body name trailing = Ok a -> body = as_bytes a /\ wire_wf a.
Proof.
  unfold parse_exact. destruct (parse_prefix body name) as [[a' r']|] eqn:Hp; [|done].
  cbn [rbind]. destruct r'; [|done]. intros [= ->]. apply parse_prefix_inv in Hp.
  by rewrite app_nil_r in Hp.
Qed.

Lemma entries_block es :
  Forall entry_wf es -> payloads_fit es ->
  entry_block (length es) (concat (map entry_bytes es)).
Proof.
  intros Hw Hf. exists (map (fun e => (entry_header e, e_payload e)) es).
  split; [by rewrite length_map|]. split.
  - apply Forall_map. apply Forall_forall. intros e He.
    pose proof (proj1 (Forall_forall _ _) Hw e He) as [Ht Hi].
    pose proof (proj1 (Forall_forall _ _) Hf e He) as Hp. cbn beta in Hp.
    split; [|done]. split; [|done]. cbn. wire_fields; done || lia.
  - unfold block_bytes. by rewrite map_map.
Qed.

Lemma decode_body_ok msg :
  msg_wf msg -> Z.of_nat (length (body_bytes msg)) <= u32_max ->
  decode_body (kind_of msg) (body_bytes msg) = Ok (wire_form msg).
Proof.
  intros Hw Hfit. unfold decode_body.
  destruct msg; cbn [kind_of body_bytes msg_wf wire_form] in *; simpl Z.eqb; cbv iota;
    try (by rewrite parse_exact_ok); try done.
  - destruct Hw as [Hw Hb]. rewrite parse_prefix_ok by done. cbn [rbind].
    destruct Hb as (items & <- & Hok & ->). by rewrite validate_block.
  - destruct Hw as (Hw & Hc & He). rewrite parse_prefix_ok by done. cbn [rbind].
    rewrite length_app in Hfit. apply payloads_fit_intro in Hfit.
    destruct (entries_block _ He Hfit) as (items & Hl & Hok & Hb).
    by rewrite Hc, Nat2Z.id, Hb, <- Hl, validate_block.
  - destruct Hw as [Hw Hb]. rewrite parse_prefix_ok by done. cbn [rbind].
    assert (Hl : length headers = (Z.to_nat (ae_entry_count ae) * wire_size EntryHeader)%nat)
      by (destruct Hb as (hs & <- & _ & -> & _); apply length_header_block).
    rewrite length_app, (proj2 (Nat.ltb_ge _ _)) by lia.
    rewrite take_app_exact, drop_app_exact by done.
    by rewrite (proj2 (validate_seeded_iff _ _ _ Hl)).
  - destruct Hw as [Hw Hb]. rewrite parse_prefix_ok by done. cbn [rbind].
    assert (Hl : length headers = (Z.to_nat (ae_entry_count ae) * wire_size EntryHeader)%nat)
      by (destruct Hb as (hs & <- & _ & -> & _); apply length_header_block).
    rewrite length_app, (proj2 (Nat.ltb_ge _ _)) by lia.
    rewrite take_app_exact, drop_app_exact by done.
    by rewrite (proj2 (validate_seeded_iff _ _ _ Hl)).
  - destruct Hw as [Hw Hc]. rewrite parse_prefix_ok by done. cbn [rbind].
    by rewrite Hc, Nat.eqb_refl.
Qed.

Lemma frame_header_wf from gid msg :
  is_u64 from -> is_u64 gid -> Z.of_nat (length (body_bytes msg)) <= u32_max ->
  wire_wf (frame_header from gid msg).
Proof.
  intros Hf Hg Hb. split; [|done]. cbn -[body_bytes]. wire_fields; try lia.
  all: destruct msg; by vm_compute.
Qed.

(** The decoder on a frame: the header checks pass and the body is left. *)
Lemma decode_frame from gid msg :
  is_u64 from -> is_u64 gid -> Z.of_nat (length (body_bytes msg)) <= u32_max ->
  decode_message (frame_bytes from gid msg) =
  rmap (fun m => {| im_from := from; im_group_id := gid; im_message := m |})
    (decode_body (kind_of msg) (body_bytes msg)).
Proof.
  intros Hf Hg Hfit. unfold decode_message, frame_bytes.
  rewrite parse_prefix_ok by by apply frame_header_wf.
  cbn [rbind frame_header fh_magic fh_version fh_body_len fh_kind fh_from fh_group_id].
  rewrite !Z.eqb_refl. cbn [negb]. by destruct (decode_body _ _).
Qed.

(** C12: decoding inverts encoding: for a well-formed message whose body fits,
    decoding the frame the encoder produced gives the sender, group 0 and the
    message in its inbound form. *)
Theorem decode_encode_roundtrip heap from msg frame :
  is_u64 from -> msg_wf msg ->
  encode_message_to_bytes heap from msg = Some (Ok frame) ->
  decode_message frame =
  Ok {| im_from := from; im_group_id := 0; im_message := wire_form msg |}.
Proof.
  intros Hf Hw He. rewrite encode_message_to_bytes_spec in He.
  destruct (Z.leb_spec (Z.of_nat (length (body_bytes msg))) u32_max) as [Hfit|]; [|done].
  injection He as <-. rewrite decode_frame by (machine; done || lia).
  by rewrite decode_body_ok.
Qed.

Local Ltac exact_case H :=
  match type of H with rmap _ ?p = Ok _ =>
    destruct p eqn:Hp; [|discriminate H]; injection H as <-;
    apply parse_exact_inv in Hp as [-> ?]; done
  end.
Local Ltac prefix_case H :=
  match type of H with context [parse_prefix ?b ?n] =>
    destruct (parse_prefix b n) as [[? ?]|] eqn:Hp; [|discriminate H];
    cbn [rbind] in H; apply parse_prefix_inv in Hp as [-> ?]
  end.

(** The messages a decoder can produce. *)
Lemma decode_body_inv kind body msg :
  decode_body kind body = Ok msg ->
  body = body_bytes msg /\ kind = kind_of msg /\ msg_wf msg /\ wire_form msg = msg.
Proof.
  unfold decode_body. intros H.
  repeat match type of H with
  | (if ?k =? ?c then _ else _) = _ =>
      destruct (Z.eqb_spec k c) as [->|?]; [try exact_case H|]
  end; try (by injection H as <-); try discriminate H.
  - prefix_case H. destruct (validate_append_entries_body _ _) as [[]|] eqn:Hv; [|done].
    injection H as <-. apply validate_inv in Hv. done.
  - prefix_case H.
    match type of H with context [(?a <? ?b)%nat] => destruct (Nat.ltb_spec a b); [done|] end.
    destruct (validate_seeded_payloads _ _ _) as [[]|] eqn:Hv; [|done].
    injection H as <-. rewrite validate_seeded_iff in Hv by (rewrite length_take; lia).
    cbn [body_bytes]. rewrite take_drop. done.
  - prefix_case H.
    match type of H with context [(?a =? ?b)%nat] => destruct (Nat.eqb_spec a b); [|done] end.
    injection H as <-. done.
Qed.

(** The sender field holds the identifier at its width. *)
Lemma frame_bytes_wrap from gid msg : frame_bytes (from mod 2 ^ 64) gid msg = frame_bytes from gid msg.
Proof.
  unfold frame_bytes, frame_header, as_bytes. f_equal. cbn -[body_bytes Z.modulo Z.pow le_bytes].
  by rewrite (le_bytes_mod 8).
Qed.

(** A decoded frame is of the kind it was sent as, with the body it was sent with. *)
Lemma decode_frame_inv from msg im :
  Z.of_nat (length (body_bytes msg)) <= u32_max ->
  decode_message (frame_bytes from 0 msg) = Ok im ->
  im_from im = from mod 2 ^ 64 /\ kind_of (im_message im) = kind_of msg /\
  body_bytes (im_message im) = body_bytes msg /\ msg_wf (im_message im) /\
  wire_form (im_message im) = im_message im.
Proof.
  intros Hfit. pose proof (Z.mod_pos_bound from (2 ^ 64) eq_refl).
  rewrite <- frame_bytes_wrap, decode_frame; [|unfold is_u64, u64_max; lia..|done].
  destruct (decode_body _ _) as [m|] eqn:Hb; [|done]. intros [= <-].
  apply decode_body_inv in Hb as (Hb & Hk & Hw & Hf). cbn. done.
Qed.

(** Every decoded message is well formed. *)
Lemma decode_message_wf f im : decode_message f = Ok im -> msg_wf (im_message im).
Proof.
  unfold decode_message. destruct (parse_prefix _ _) as [[h rest]|]; [|done]. cbn [rbind].
  repeat (destruct (negb _); [done|]). destruct (decode_body _ _) as [m|] eqn:Hb; [|done].
  cbn [rbind]. intros [= <-]. by apply decode_body_inv in Hb as (_ & _ & ? & _).
Qed.

(** C13: the decoder accepts only frames it fully understands: an accepted
    frame is a header with the right magic, version, kind and length followed
    by exactly the bytes of the message, whose counts and lengths agree with
    the data; so every entry announced by an AppendEntries is yielded by the
    entry iterator, and the seeded payloads are split without a byte lost. *)
Theorem decode_message_sound frame im :
  decode_message frame = Ok im ->
  (exists h, frame = as_bytes h ++ body_bytes (im_message im) /\ wire_wf h /\
     fh_magic h = RAFT_MAGIC /\ fh_version h = RAFT_VERSION /\
     fh_kind h = kind_of (im_message im) /\ fh_from h = im_from im /\
     fh_group_id h = im_group_id im /\
     fh_body_len h = Z.of_nat (length (body_bytes (im_message im)))) /\
  msg_wf (im_message im) /\
  match im_message im with
  | MAppendEntries m p =>
      length (entry_iter p (Z.to_nat (ae_entry_count m))) = Z.to_nat (ae_entry_count m)
  | MAppendEntriesSeeded m h p =>
      let items := raw_iter h (Contiguous p) in
      length items = Z.to_nat (ae_entry_count m) /\ concat (map snd items) = p
  | _ => True
  end.
Proof.
  unfold decode_message. intros H.
  destruct (parse_prefix (A := RaftFrameHeader) frame "raft frame header")
    as [[h rest]|] eqn:Hp; [|done]. cbn [rbind] in H.
  apply parse_prefix_inv in Hp as [-> Hh].
  destruct (Z.eqb_spec (fh_magic h) RAFT_MAGIC); [|done].
  destruct (Z.eqb_spec (fh_version h) RAFT_VERSION); [|done].
  destruct (Z.eqb_spec (Z.of_nat (length rest)) (fh_body_len h)); [|done]. cbn [negb] in H.
  destruct (decode_body (fh_kind h) rest) as [msg|] eqn:Hb; [|done].
  injection H as <-. apply decode_body_inv in Hb as (-> & Hk & Hw & Hform).
  cbn [im_message im_from im_group_id]. split; [exists h; by split_and!|]. split; [done|].
  destruct msg; try done.
  - destruct Hw as [_ (items & <- & Hok & ->)]. by rewrite entry_iter_block, length_map.
  - destruct Hw as [_ Hs]. by apply raw_iter_block in Hs as (? & _ & _ & <-).
Qed.

(** ** Witnesses *)

Definition sample_batch : RaftMessage :=
  MAppendEntriesVectored
    {| ae_term := 3; ae_leader_id := 1; ae_prev_log_index := 4; ae_prev_log_term := 2;
       ae_leader_commit := 4; ae_entry_count := 2; ae_pad := 7 |}
    [ {| e_term := 3; e_index := 5; e_payload := [to_byte 65; to_byte 66] |};
      {| e_term := 3; e_index := 6; e_payload := [] |} ].

Definition sample_frame : bytes := frame_bytes 1 0 sample_batch.

Lemma sample_batch_wf : msg_wf sample_batch.
Proof.
  split; [split; [|done]|split; [done|]].
  - cbn. wire_fields; lia.
  - repeat constructor; machine; cbn; lia.
Qed.

Lemma encode_vectored_equals_contiguous_witness :
  exists buf out,
    encode_message_vectored_with_group 1 0 sample_batch (replicate 200 (to_byte 255))
      = Some (Ok (buf, out)) /\
    gather buf out = frame_bytes 1 0 (counted sample_batch) /\
    (0 = 0 -> encode_message_to_bytes [to_byte 9] 1 (counted sample_batch)
              = Some (Ok (gather buf out))).
Proof.
  apply (encode_vectored_equals_contiguous [to_byte 9] 1 0 sample_batch
           (replicate 200 (to_byte 255))).
  - by vm_compute.
  - apply Nat.leb_le. vm_compute. reflexivity.
Defined.

Lemma decode_encode_roundtrip_witness :
  decode_message sample_frame =
  Ok {| im_from := 1; im_group_id := 0; im_message := wire_form sample_batch |}.
Proof.
  apply (decode_encode_roundtrip [to_byte 9] 1 sample_batch sample_frame).
  - machine; lia.
  - exact sample_batch_wf.
  - vm_compute. reflexivity.
Defined.

Lemma decode_message_sound_witness :
  exists im, decode_message sample_frame = Ok im /\ msg_wf (im_message im).
Proof.
  exists {| im_from := 1; im_group_id := 0; im_message := wire_form sample_batch |}.
  assert (H : decode_message sample_frame =
              Ok {| im_from := 1; im_group_id := 0; im_message := wire_form sample_batch |})
    by (vm_compute; reflexivity).
  split; [exact H|]. exact (proj1 (proj2 (decode_message_sound _ _ H))).
Defined.

(** ** The header buffer *)

Lemma pbind_Ok {A B} (m : panicking A) (k : A -> panicking B) b :
  pbind m k = Some (Ok b) -> exists a, m = Some (Ok a) /\ k a = Some (Ok b).
Proof. destruct m as [[a|]|]; [eauto|done..]. Qed.

Lemma interleave_entries_length entries off buf out buf' out' :
  interleave_entries entries off buf out = Some (Ok (buf', out')) -> length buf' = length buf.
Proof.
  revert off buf out. induction entries as [|e es IH]; intros off buf out; cbn [interleave_entries].
  { by intros [= <- _]. }
  intros (plen & _ & E)%pbind_Ok. apply pbind_Ok in E as (b & Eb & E).
  apply IH in E. by rewrite E, (copy_range_length _ _ _ _ _ Eb).
Qed.

(** A vectored encoding fills the header buffer in place. *)
Lemma encode_vectored_length from msg buf buf' out :
  encode_message_vectored from msg buf = Some (Ok (buf', out)) -> length buf' = length buf.
Proof.
  unfold encode_message_vectored, encode_message_vectored_impl.
  destruct msg as [| | | | |m entries| | | | | | | |].
  6: { unfold encode_append_entries_vectored_with_pad.
       intros (blen & _ & E)%pbind_Ok. apply pbind_Ok in E as (cnt & _ & E).
       destruct (_ <? _)%nat; [done|]. apply pbind_Ok in E as (b1 & E1 & E).
       apply pbind_Ok in E as (b2 & E2 & E). apply interleave_entries_length in E.
       by rewrite E, (copy_range_length _ _ _ _ _ E2), (write_frame_header_length _ _ _ _ _ _ E1). }
  all: intros (blen & _ & E)%pbind_Ok; destruct (_ <? _)%nat; [done|];
    apply pbind_Ok in E as (b & Eb & E); injection E as <- _; by eapply write_frame_header_length.
Qed.
