(* ===== verification/Slots.v ===== *)
(** * Slots: commit notifications for clients

    Models [src/api/arbitro_raft/slot.rs] and the slot side of
    [src/api/arbitro_raft/client.rs].  Each atomic access is one step; a client
    and the run loop interleave at the granularity of these operations.  The
    wakers carry no data and are left out. *)

From stdpp Require Import base list.
From Stdlib Require Import ZArith Lia.
From S2P Require Import Prelude Types.

Local Open Scope Z_scope.

Definition SLOT_PENDING : Z := 0.
Definition TAG_NOT_LEADER : Z := Z.shiftl 1 63.
Definition TAG_COMMITTED : Z := Z.shiftl 1 62.
Definition INDEX_MASK : Z := TAG_COMMITTED - 1.

Record Slot := { slot_state : Z; slot_generation : Z }.

Definition set_slot_state (v : Z) (s : Slot) : Slot :=
  {| slot_state := v; slot_generation := slot_generation s |}.

Definition store_committed (index : LogIndex) (s : Slot) : Slot :=
  set_slot_state (Z.lor TAG_COMMITTED (Z.land index INDEX_MASK)) s.

Definition store_error (s : Slot) : Slot := set_slot_state TAG_NOT_LEADER s.

Definition slot_decode (v : Z) : res LogIndex :=
  if negb (Z.land v TAG_NOT_LEADER =? 0) then Err (NotLeader None)
  else Ok (Z.land v INDEX_MASK).

(** ** Slot identifiers *)

(** [SlotId(((generation as u64) << 32) | index as u64)] *)
Definition SlotId : Type := Z.
Definition slot_id_new (index generation : Z) : SlotId := Z.lor (Z.shiftl generation 32) index.
Definition slot_index (id : SlotId) : nat := Z.to_nat (id mod 2 ^ 32).
Definition slot_id_generation (id : SlotId) : Z := Z.shiftr id 32 mod 2 ^ 32.

(** ** The registry *)

Record SlotRegistry := { arena : list Slot; cursor : Z }.

Definition registry_new (capacity : nat) : SlotRegistry :=
  {| arena := replicate capacity {| slot_state := TAG_NOT_LEADER; slot_generation := 0 |};
     cursor := 0 |}.

(** The [compare_exchange] and the [fetch_add] of a successful lease. *)
Definition lease_slot (s : Slot) : Slot :=
  {| slot_state := SLOT_PENDING; slot_generation := wrap_add64 (slot_generation s) 1 |}.

(** The scan from [start]: the turns [k, k-1, ..] of [0..cap] that are left. *)
Fixpoint lease_scan (start : Z) (left : nat) (slots : list Slot)
  : option (SlotId * list Slot) :=
  match left with
  | O => None
  | S left' =>
      let cap := Z.of_nat (length slots) in
      let i := cap - Z.of_nat left in
      let idx := Z.to_nat (wrap_add64 start i mod cap) in
      match slots !! idx with
      | None => None
      | Some s =>
          if slot_state s =? SLOT_PENDING then lease_scan start left' slots
          else
            let generation := wrap_add64 (slot_generation s) 1 mod 2 ^ 32 in
            Some (slot_id_new (Z.of_nat idx mod 2 ^ 32) generation,
                  <[idx := lease_slot s]> slots)
      end
  end.

Definition lease (r : SlotRegistry) : option SlotId * SlotRegistry :=
  let start := cursor r in
  let next := wrap_add64 start 1 in
  match lease_scan start (length (arena r)) (arena r) with
  | Some (id, slots) => (Some id, {| arena := slots; cursor := next |})
  | None => (None, {| arena := arena r; cursor := next |})
  end.

(** [f] on the slot an identifier names. *)
Definition on_slot (id : SlotId) (f : Slot -> Slot) (r : SlotRegistry) : SlotRegistry :=
  {| arena := alter f (slot_index id) (arena r); cursor := cursor r |}.

Definition release (id : SlotId) : SlotRegistry -> SlotRegistry :=
  on_slot id (fun s => if slot_state s =? SLOT_PENDING then set_slot_state TAG_NOT_LEADER s
                       else s).

Definition is_current (id : SlotId) (s : Slot) : bool :=
  slot_generation s mod 2 ^ 32 =? slot_id_generation id.

Definition notify_committed (id : SlotId) (index : LogIndex) : SlotRegistry -> SlotRegistry :=
  on_slot id (fun s => if is_current id s then store_committed index s else s).

Definition notify_error (id : SlotId) : SlotRegistry -> SlotRegistry :=
  on_slot id (fun s => if is_current id s then store_error s else s).

(** [WriteFuture::poll]: [None] is [Poll::Pending]. *)
Definition poll (id : SlotId) (r : SlotRegistry) : option (res LogIndex) :=
  match arena r !! slot_index id with
  | Some s => if slot_state s =? SLOT_PENDING then None else Some (slot_decode (slot_state s))
  | None => None
  end.

(** ** Facts *)

(** A shifted value and one below the shift share no bit. *)

Lemma slot_id_parts index generation :
  0 <= index < 2 ^ 32 -> 0 <= generation < 2 ^ 32 ->
  slot_index (slot_id_new index generation) = Z.to_nat index /\
  slot_id_generation (slot_id_new index generation) = generation.
Proof.
  intros Hi Hg. unfold slot_index, slot_id_generation, slot_id_new.
  rewrite lor_shiftl_add by lia. rewrite Z.shiftr_div_pow2 by lia.
  split; [f_equal|]; Z.to_euclidean_division_equations; lia.
Qed.

Lemma decode_committed index :
  0 <= index <= INDEX_MASK ->
  slot_decode (Z.lor TAG_COMMITTED (Z.land index INDEX_MASK)) = Ok index /\
  Z.lor TAG_COMMITTED (Z.land index INDEX_MASK) <> SLOT_PENDING.
Proof.
  assert (Hm : INDEX_MASK = Z.ones 62) by done.
  assert (Ho : Z.ones 62 = 2 ^ 62 - 1) by done. intros Hi. rewrite Hm, Ho in Hi.
  assert (Hb : Z.land index INDEX_MASK = index)
    by (rewrite Hm, Z.land_ones by lia; apply Z.mod_small; lia).
  rewrite Hb. assert (Ht : Z.lor TAG_COMMITTED index = 1 * 2 ^ 62 + index)
    by (apply lor_shiftl_add; lia).
  rewrite Ht. split; [|unfold SLOT_PENDING; lia]. unfold slot_decode.
  rewrite Z.land_comm. unfold TAG_NOT_LEADER. rewrite land_shiftl_low by lia. cbn [Z.eqb negb].
  rewrite Hm, Z.land_ones by lia. f_equal. Z.to_euclidean_division_equations; lia.
Qed.

Lemma lease_scan_spec start left slots id slots' :
  Z.of_nat (length slots) <= 2 ^ 32 ->
  lease_scan start left slots = Some (id, slots') ->
  exists s, slots !! slot_index id = Some s /\ slot_state s <> SLOT_PENDING /\
    slots' = <[slot_index id := lease_slot s]> slots /\ is_current id (lease_slot s) = true.
Proof.
  intros Hlen. induction left as [|left IH]; [done|]. cbn [lease_scan].
  set (idx := Z.to_nat _). destruct (slots !! idx) as [s|] eqn:Hs; [|done].
  destruct (Z.eqb_spec (slot_state s) SLOT_PENDING) as [|Hp]; [done|].
  intros [= <- <-]. pose proof (lookup_lt_Some _ _ _ Hs) as Hlt.
  assert (Hbound : 0 <= Z.of_nat idx < 2 ^ 32) by lia.
  destruct (slot_id_parts (Z.of_nat idx mod 2 ^ 32)
              (wrap_add64 (slot_generation s) 1 mod 2 ^ 32)) as [Hi Hg];
    [apply Z.mod_pos_bound; lia..|].
  assert (Hidx : Z.to_nat (Z.of_nat idx mod 2 ^ 32) = idx) by (rewrite Z.mod_small; lia).
  rewrite Hi, Hidx. exists s. split_and!; [done..|].
  unfold is_current. rewrite Hg. cbn [lease_slot slot_generation]. by apply Z.eqb_eq.
Qed.

Lemma on_slot_lookup id f r i s :
  arena r !! i = Some s ->
  arena (on_slot id f r) !! i = Some (if decide (slot_index id = i) then f s else s).
Proof.
  intros Hs. unfold on_slot. cbn [arena]. destruct (decide (slot_index id = i)) as [<-|Hne].
  - by rewrite list_lookup_alter_eq, Hs.
  - by rewrite list_lookup_alter_ne.
Qed.

(** What the identifier of a stale writer leaves alone: the slot has been
    leased again since. *)
Definition stale (id : SlotId) (r : SlotRegistry) : Prop :=
  exists s, arena r !! slot_index id = Some s /\ is_current id s = false.

Lemma on_slot_id id f r s :
  arena r !! slot_index id = Some s -> f s = s -> on_slot id f r = r.
Proof.
  intros Hs Hf. destruct r as [slots c]. unfold on_slot. cbn in *. f_equal.
  apply list_eq. intros i. destruct (decide (slot_index id = i)) as [<-|Hne].
  - rewrite list_lookup_alter_eq, Hs. by cbn; rewrite Hf.
  - by rewrite list_lookup_alter_ne.
Qed.

(** The contract of a lease.  The slot was free and nothing else changes;
    the writer's future is pending until it is notified; a commit at any index
    the encoding holds and an error are each delivered as they are; and
    notifications for an earlier lease of a slot change nothing. *)
Theorem lease_contract r id r' :
  Z.of_nat (length (arena r)) <= 2 ^ 32 ->
  lease r = (Some id, r') ->
  (exists s, arena r !! slot_index id = Some s /\ slot_state s <> SLOT_PENDING) /\
  (forall j, j <> slot_index id -> arena r' !! j = arena r !! j) /\
  poll id r' = None /\
  (forall index, 0 <= index <= INDEX_MASK ->
     poll id (notify_committed id index r') = Some (Ok index)) /\
  poll id (notify_error id r') = Some (Err (NotLeader None)) /\
  (forall old index, stale old r' ->
     notify_committed old index r' = r' /\ notify_error old r' = r').
Proof.
  intros Hlen. unfold lease. destruct (lease_scan _ _ _) as [[id' slots]|] eqn:Hscan; [|done].
  intros [= -> <-]. apply lease_scan_spec in Hscan as (s & Hs & Hp & -> & Hcur); [|done].
  pose proof (lookup_lt_Some _ _ _ Hs) as Hlt.
  set (r' := {| arena := _; cursor := _ |}).
  assert (Hr' : arena r' !! slot_index id = Some (lease_slot s))
    by (cbn; by apply list_lookup_insert_eq).
  split_and!; [by exists s| | | | |].
  - intros j Hj. cbn. by apply list_lookup_insert_ne.
  - unfold poll. by rewrite Hr'.
  - intros index Hi. unfold poll, notify_committed.
    rewrite (on_slot_lookup _ _ _ _ _ Hr'), decide_True, Hcur by done.
    cbn [store_committed set_slot_state slot_state].
    destruct (decode_committed index Hi) as [-> ->%Z.eqb_neq]. done.
  - unfold poll, notify_error. by rewrite (on_slot_lookup _ _ _ _ _ Hr'), decide_True, Hcur by done.
  - intros old index (s0 & Hs0 & Hst). unfold notify_committed, notify_error.
    split; apply (on_slot_id _ _ _ s0); by rewrite ?Hst.
Qed.

(** ** Exhaustion *)

Lemma lease_scan_None start left slots :
  (left <= length slots)%nat ->
  lease_scan start left slots = None ->
  forall i, Z.of_nat (length slots) - Z.of_nat left <= i < Z.of_nat (length slots) ->
  exists s, slots !! Z.to_nat (wrap_add64 start i mod Z.of_nat (length slots)) = Some s /\
            slot_state s = SLOT_PENDING.
Proof.
  intros Hle. induction left as [|left IH]; [lia|]. cbn [lease_scan]. intros Hscan i Hi.
  set (idx := Z.to_nat _) in Hscan. destruct (slots !! idx) as [s|] eqn:Hs.
  2:{ apply lookup_ge_None in Hs.
      pose proof (Z.mod_pos_bound (wrap_add64 start (Z.of_nat (length slots) - Z.of_nat (S left)))
                    (Z.of_nat (length slots)) ltac:(lia)). lia. }
  destruct (Z.eqb_spec (slot_state s) SLOT_PENDING) as [Hp|]; [|done].
  destruct (Z.eq_dec i (Z.of_nat (length slots) - Z.of_nat (S left))) as [->|].
  - by exists s.
  - apply IH; [lia|done|lia].
Qed.

(** A lease is refused only under real exhaustion: when the capacity
    divides 2^64, as the engine's 65536 does, every slot is then pending. *)
Theorem lease_refused_iff_full r :
  Z.divide (Z.of_nat (length (arena r))) (2 ^ 64) ->
  ((lease r).1 = None <-> Forall (fun s => slot_state s = SLOT_PENDING) (arena r)).
Proof.
  intros Hd. set (cap := Z.of_nat (length (arena r))) in *.
  assert (Hcap : 0 < cap).
  { destruct (Z.eq_dec cap 0) as [E|]; [|lia]. rewrite E in Hd. destruct Hd as [z Hz]. lia. }
  unfold lease. split.
  - destruct (lease_scan _ _ _) as [[id slots]|] eqn:Hscan; [done|]. intros _.
    apply Forall_lookup. intros j s Hj. pose proof (lookup_lt_Some _ _ _ Hj) as Hlt.
    destruct (lease_scan_None _ _ _ (le_n _) Hscan ((Z.of_nat j - cursor r) mod cap))
      as (s' & Hs' & Hp).
    { pose proof (Z.mod_pos_bound (Z.of_nat j - cursor r) cap Hcap). fold cap. lia. }
    fold cap in Hs'. unfold wrap_add64 in Hs'.
    rewrite Z.mod_mod_divide in Hs' by done.
    rewrite Zplus_mod_idemp_r in Hs'.
    replace (cursor r + (Z.of_nat j - cursor r)) with (Z.of_nat j) in Hs' by lia.
    rewrite Z.mod_small, Nat2Z.id, Hj in Hs' by lia. by injection Hs' as ->.
  - intros Hall. enough (forall left, lease_scan (cursor r) left (arena r) = None) as -> by done.
    intros left. induction left as [|left IH]; [done|]. cbn [lease_scan].
    destruct (arena r !! _) as [s|] eqn:Hs; [|done].
    rewrite Forall_lookup in Hall. by rewrite (Hall _ _ Hs).
Qed.

(** ** Witnesses and interleavings *)

Lemma lease_contract_witness :
  let r := (lease (registry_new 4)).2 in
  poll (slot_id_new 0 1) (notify_committed (slot_id_new 0 1) 7 r) = Some (Ok 7).
Proof.
  intros r. destruct (lease_contract (registry_new 4) (slot_id_new 0 1) r)
    as (_ & _ & _ & Hc & _); [vm_compute; discriminate|reflexivity|].
  apply Hc. vm_compute. split; discriminate.
Defined.

Lemma lease_refused_iff_full_witness :
  let r := (lease (registry_new 1)).2 in
  (lease r).1 = None <-> Forall (fun s => slot_state s = SLOT_PENDING) (arena r).
Proof. intros r. apply (lease_refused_iff_full r). exists (2 ^ 64). reflexivity. Defined.
