(* ===== verification/Guard.v ===== *)
(** * Guard: inbound abuse, timers and leader balance

    Models [src/api/arbitro_raft/abuse.rs] (decode-error accounting and the
    jail), the deadlines of [src/api/arbitro_raft/timers.rs] and the placement
    heuristic of [src/api/node/leader_balance.rs]. *)

From stdpp Require Import base list gmap.
From Stdlib Require Import ZArith Lia Sorted.
From S2P Require Import Prelude Types.

Local Open Scope Z_scope.

(** ** The abuse guard *)

Definition UNKNOWN_SENDER_KEY : Z := u64_max.

Record PeerAbuseState := {
  window_start : Z;
  errors_in_window : Z;
  jailed_until : option Z;
}.

Abbreviation InboundAbuseGuard := (gmap Z PeerAbuseState).

Definition key_for (claimed_from : option Z) (members : list PeerId) : Z :=
  match claimed_from with
  | Some id => if contains id members then id else UNKNOWN_SENDER_KEY
  | None => UNKNOWN_SENDER_KEY
  end.

Definition is_jailed (key now : Z) (g : InboundAbuseGuard) : bool * InboundAbuseGuard :=
  match g !! key with
  | Some state =>
      match jailed_until state with
      | Some until => if now <? until then (true, g) else (false, delete key g)
      | None => (false, g)
      end
  | None => (false, g)
  end.

(** The window of an error at [now]: the current one, or a new one. *)
Definition abuse_window (now window : Z) (state : PeerAbuseState) : PeerAbuseState :=
  if window <? sat_sub now (window_start state)
  then {| window_start := now; errors_in_window := 0; jailed_until := jailed_until state |}
  else state.

Definition record_decode_error (key now : Z) (limits : LimitsConfig) (g : InboundAbuseGuard)
  : bool * InboundAbuseGuard :=
  let threshold := inbound_decode_error_jail_threshold limits in
  if threshold =? 0 then (false, g)
  else
    let fresh := {| window_start := now; errors_in_window := 0; jailed_until := None |} in
    let state := abuse_window now (inbound_decode_error_window_ms limits)
                   (default fresh (g !! key)) in
    let errors := sat_add32 (errors_in_window state) 1 in
    let jail := threshold <=? errors in
    (jail,
     <[key := {| window_start := window_start state; errors_in_window := errors;
                 jailed_until := if jail then Some (now + inbound_jail_cooldown_ms limits)
                                 else jailed_until state |}]> g).

(** *** The guard as the run loop drives it

    A frame that claims [key] at time [now] is shed when the key is jailed;
    otherwise it is decoded, and an undecodable one is recorded. *)
Record GuardEvent := { ev_key : Z; ev_now : Z; ev_decodable : bool }.

Inductive Verdict := Shed | Decoded | Dropped (newly_jailed : bool).

Definition guard_step (limits : LimitsConfig) (e : GuardEvent) (g : InboundAbuseGuard)
  : Verdict * InboundAbuseGuard :=
  let '(jailed, g) := is_jailed (ev_key e) (ev_now e) g in
  if jailed then (Shed, g)
  else if ev_decodable e then (Decoded, g)
  else let '(j, g) := record_decode_error (ev_key e) (ev_now e) limits g in (Dropped j, g).

Fixpoint guard_run (limits : LimitsConfig) (es : list GuardEvent) (g : InboundAbuseGuard)
  : list Verdict * InboundAbuseGuard :=
  match es with
  | [] => ([], g)
  | e :: es' =>
      let '(v, g) := guard_step limits e g in
      let '(vs, g) := guard_run limits es' g in (v :: vs, g)
  end.

(** The times of the undecodable frames of [key] that were not shed, latest
    first. *)
Fixpoint error_times (key : Z) (es : list GuardEvent) (vs : list Verdict) : list Z :=
  match es, vs with
  | e :: es', v :: vs' =>
      error_times key es' vs' ++
      (match v with
       | Dropped _ => if ev_key e =? key then [ev_now e] else []
       | _ => []
       end)
  | _, _ => []
  end.

Section AbuseFacts.
Context (limits : LimitsConfig).
#[local] Abbreviation threshold := (inbound_decode_error_jail_threshold limits).
#[local] Abbreviation window := (inbound_decode_error_window_ms limits).
#[local] Abbreviation cooldown := (inbound_jail_cooldown_ms limits).

(** At least [k] errors in a row, the latest ones of [ts], within one window. *)
Definition burst (k : Z) (start : Z) (ts : list Z) : Prop :=
  exists recent older, ts = recent ++ older /\ k <= Z.of_nat (length recent) /\
    Forall (fun t => start <= t <= start + window) recent.

(** What the state of a key says about its recorded errors [ts] at time [t]. *)
Definition accounts (t : Z) (ts : list Z) (state : PeerAbuseState) : Prop :=
  window_start state <= t /\ 0 <= errors_in_window state /\
  burst (errors_in_window state) (window_start state) ts /\
  (forall until, jailed_until state = Some until ->
     threshold <= errors_in_window state /\ exists t0 ts', ts = t0 :: ts' /\ until = t0 + cooldown).

Definition guard_ok (t : Z) (ts : Z -> list Z) (g : InboundAbuseGuard) : Prop :=
  forall key state, g !! key = Some state -> accounts t (ts key) state.

Lemma guard_ok_later t t' ts g : t <= t' -> guard_ok t ts g -> guard_ok t' ts g.
Proof. intros Ht Hg key state Hk. destruct (Hg _ _ Hk) as (? & ? & ?). split; [lia|done]. Qed.

(** The window of the next error, before it is counted. *)
Lemma abuse_window_accounts t ts state :
  accounts t ts state ->
  let w := abuse_window t window state in
  window_start w <= t <= window_start w + Z.max window 0 /\ 0 <= errors_in_window w /\
  burst (errors_in_window w) (window_start w) ts.
Proof.
  intros (Hs & He & Hb & _). unfold abuse_window.
  destruct (Z.ltb_spec window (sat_sub t (window_start state))); cbn.
  - split; [lia|]. split; [lia|]. exists [], ts. split_and!; [done|done|constructor].
  - unfold sat_sub in *. split; [lia|]. done.
Qed.

Lemma accounts_recorded t ts w until :
  0 <= window -> window_start w <= t <= window_start w + Z.max window 0 ->
  0 <= errors_in_window w -> burst (errors_in_window w) (window_start w) ts ->
  (until = None \/ threshold <= sat_add32 (errors_in_window w) 1 /\ until = Some (t + cooldown)) ->
  accounts t (t :: ts)
    {| window_start := window_start w; errors_in_window := sat_add32 (errors_in_window w) 1;
       jailed_until := until |}.
Proof.
  intros Hw Hs He (recent & older & -> & Hlen & Hall) Hu. unfold accounts; cbn.
  split; [lia|]. split; [unfold sat_add32, u32_max; lia|]. split.
  - exists (t :: recent), older. split; [done|]. cbn [length]. split; [unfold sat_add32; lia|].
    constructor; [lia|done].
  - intros u Hj. destruct Hu as [->|[? ->]]; [done|]. injection Hj as <-. eauto.
Qed.

(** The recorded errors after a verdict. *)
Definition recorded (e : GuardEvent) (v : Verdict) (key : Z) : list Z :=
  match v with
  | Dropped _ => if ev_key e =? key then [ev_now e] else []
  | _ => []
  end.

Lemma record_ok ts e g :
  0 <= window -> 0 < threshold -> guard_ok (ev_now e) ts g ->
  (forall st, g !! ev_key e = Some st -> jailed_until st = None) ->
  guard_ok (ev_now e) (fun key => recorded e (Dropped true) key ++ ts key)
    (record_decode_error (ev_key e) (ev_now e) limits g).2.
Proof.
  intros Hw Hth Hg Hnj key st. unfold record_decode_error, recorded.
  destruct (Z.eqb_spec threshold 0) as [|_]; [lia|]. cbn [snd].
  destruct (Z.eqb_spec (ev_key e) key) as [<-|Hne]; [|rewrite lookup_insert_ne by done; apply Hg].
  rewrite lookup_insert_eq. intros [= <-].
  set (st0 := default _ _). assert (Hst0 : accounts (ev_now e) (ts (ev_key e)) st0 /\ jailed_until st0 = None).
  { unfold st0. destruct (g !! ev_key e) as [st|] eqn:Hst; cbn; [by auto|].
    split; [|done]. split_and!; [cbn; lia..| |done]. exists [], (ts (ev_key e)). by split_and!. }
  destruct Hst0 as [Hacc Hj]. destruct (abuse_window_accounts _ _ _ Hacc) as (Hs & He & Hb).
  apply accounts_recorded; [done..|].
  destruct (Z.leb_spec threshold (sat_add32 (errors_in_window (abuse_window (ev_now e) window st0)) 1));
    [by right|left]. unfold abuse_window. by destruct (window <? _).
Qed.

Lemma guard_step_ok t ts e g :
  0 <= window -> 0 < threshold -> t <= ev_now e -> guard_ok t ts g ->
  let '(v, g') := guard_step limits e g in
  guard_ok (ev_now e) (fun key => recorded e v key ++ ts key) g'.
Proof.
  intros Hw Hth Ht Hg. apply (guard_ok_later _ _ _ _ Ht) in Hg. unfold guard_step.
  destruct (is_jailed (ev_key e) (ev_now e) g) as [[] g1] eqn:Hj; unfold is_jailed in Hj.
  { destruct (g !! ev_key e) as [st|]; [|done]. destruct (jailed_until st); [|done].
    destruct (_ <? _); [|done]. injection Hj as <-. exact Hg. }
  assert (Hg1 : guard_ok (ev_now e) ts g1 /\
            forall st, g1 !! ev_key e = Some st -> jailed_until st = None).
  { destruct (g !! ev_key e) as [st|] eqn:Hst; [|injection Hj as <-; split; [done|congruence]].
    destruct (jailed_until st) eqn:Hu; [|injection Hj as <-; split; [done|congruence]].
    destruct (_ <? _); [done|]. injection Hj as <-. split.
    - intros key st' [_ Hk]%lookup_delete_Some. by apply Hg.
    - intros st'. by rewrite lookup_delete_eq. }
  destruct Hg1 as [Hg1 Hnj]. destruct (ev_decodable e); [done|].
  destruct (record_decode_error _ _ _ _) as [j g2] eqn:Hr.
  pose proof (record_ok ts e g1 Hw Hth Hg1 Hnj) as Hok. rewrite Hr in Hok. exact Hok.
Qed.

Lemma guard_run_ok es : forall t ts g,
  0 <= window -> 0 < threshold -> StronglySorted Z.le (t :: map ev_now es) -> guard_ok t ts g ->
  let '(vs, g') := guard_run limits es g in
  guard_ok (default t (last (map ev_now es))) (fun key => error_times key es vs ++ ts key) g'.
Proof.
  induction es as [|e es IH]; intros t ts g Hw Hth Hs Hg; [exact Hg|].
  cbn [guard_run]. inversion_clear Hs as [|? ? Hs' Ht]. cbn [map] in Hs', Ht.
  inversion Ht as [|? ? Hte _]; subst.
  pose proof (guard_step_ok t ts e g Hw Hth Hte Hg) as Hstep.
  destruct (guard_step limits e g) as [v g1].
  specialize (IH (ev_now e) _ g1 Hw Hth Hs' Hstep).
  destruct (guard_run limits es g1) as [vs g2]. intros key st Hk. specialize (IH key st Hk).
  cbn [error_times map]. unfold recorded in IH. rewrite last_cons, <- app_assoc.
  by destruct (last (map ev_now es)).
Qed.

Lemma sorted_prefix t (l : list GuardEvent) e :
  StronglySorted Z.le (t :: map ev_now (l ++ [e])) -> StronglySorted Z.le (t :: map ev_now l).
Proof.
  rewrite map_app, app_comm_cons. generalize (t :: map ev_now l). intros l'.
  induction l' as [|x l' IH]; [constructor|]. cbn. inversion_clear 1 as [|? ? Hs Hf].
  constructor; [by apply IH|]. by apply Forall_app in Hf as [? _].
Qed.

(** The jail holds only abusers.  Run from an empty guard on frames in time
    order, a frame is shed only when its sender had, within one window, the
    threshold of undecodable frames, the last of them less than the cooldown
    ago; and with the threshold disabled nothing is ever shed. *)
Theorem shed_only_abusers es e :
  0 <= window -> 0 <= threshold -> StronglySorted Z.le (0 :: map ev_now (es ++ [e])) ->
  (guard_step limits e (guard_run limits es ∅).2).1 = Shed ->
  0 < threshold /\
  exists t0 older start,
    error_times (ev_key e) es (guard_run limits es ∅).1 = t0 :: older /\
    ev_now e < t0 + cooldown /\ burst threshold start (t0 :: older).
Proof.
  intros Hw Hth Hs. destruct (Z.eq_dec threshold 0) as [H0|].
  { assert (Hrun : forall es, (guard_run limits es ∅).2 = ∅).
    { clear -H0. intros es. induction es as [|e es IH]; [done|]. cbn [guard_run].
      unfold guard_step, is_jailed, record_decode_error. rewrite lookup_empty, H0. cbn [Z.eqb].
      destruct (ev_decodable e); by destruct (guard_run limits es ∅). }
    rewrite Hrun.
    unfold guard_step, is_jailed, record_decode_error. rewrite lookup_empty, H0.
    cbn [Z.eqb]. by destruct (ev_decodable e). }
  pose proof (guard_run_ok es 0 (fun _ => []) ∅ Hw ltac:(lia)) as Hrun.
  destruct (guard_run limits es ∅) as [vs g]. cbn [fst snd]. unfold guard_step, is_jailed.
  destruct (g !! ev_key e) as [st|] eqn:Hst.
  2:{ destruct (ev_decodable e); [done|]. by destruct (record_decode_error _ _ _ _). }
  destruct (jailed_until st) as [until|] eqn:Hj.
  2:{ destruct (ev_decodable e); [done|]. by destruct (record_decode_error _ _ _ _). }
  destruct (Z.ltb_spec (ev_now e) until).
  2:{ destruct (ev_decodable e); [done|]. by destruct (record_decode_error _ _ _ _). }
  intros _. split; [lia|].
  destruct (Hrun ltac:(by apply sorted_prefix in Hs) ltac:(done) _ _ Hst)
    as (_ & _ & Hb & Hu).
  rewrite app_nil_r in *. destruct (Hu _ Hj) as (Hle & t0 & ts & Hts & ->). rewrite Hts in *.
  exists t0, ts, (window_start st). split; [done|]. split; [done|].
  destruct Hb as (recent & older & E & Hl & Hf). exists recent, older. split_and!; [done|lia|done].
Qed.
End AbuseFacts.

(** The guard forgets: once the cooldown is over, the first frame of a
    jailed sender is decoded again and starts from a clean record; and whatever
    ids the frames claim, the guard only keeps members and one shared key. *)
Theorem jail_is_released limits key members e g st until :
  ev_key e = key_for key members -> g !! ev_key e = Some st -> jailed_until st = Some until ->
  until <= ev_now e ->
  ((guard_step limits e g).1 = Decoded <-> ev_decodable e = true) /\
  (ev_decodable e = true -> (guard_step limits e g).2 !! ev_key e = None) /\
  (forall k, k ∈ dom (guard_step limits e g).2 -> k ∈ dom g \/ k ∈ members \/ k = UNKNOWN_SENDER_KEY).
Proof.
  intros Hkey Hst Hj Hu. unfold guard_step, is_jailed. rewrite Hst, Hj.
  destruct (Z.ltb_spec (ev_now e) until); [lia|].
  assert (Hm : ev_key e ∈ members \/ ev_key e = UNKNOWN_SENDER_KEY).
  { rewrite Hkey. unfold key_for. destruct key as [id|]; [|by right].
    destruct (contains id members) eqn:Hc; [left; by apply contains_spec|by right]. }
  destruct (ev_decodable e).
  - split; [done|]. split; [intros _; apply lookup_delete_eq|]. intros k. cbn [snd].
    rewrite dom_delete_L. set_solver.
  - destruct (record_decode_error _ _ _ _) as [j g'] eqn:Hr. split; [done|]. split; [done|].
    intros k. cbn [snd]. unfold record_decode_error in Hr.
    destruct (_ =? 0); injection Hr as _ <-; rewrite ?dom_insert_L, dom_delete_L; set_solver.
Qed.

(** ** Deadlines *)

Definition mix64 (x : Z) : Z :=
  let x := Z.lxor x (Z.shiftr x 30) in
  let x := wrap_mul64 x 0xbf58476d1ce4e5b9 in
  let x := Z.lxor x (Z.shiftr x 27) in
  let x := wrap_mul64 x 0x94d049bb133111eb in
  Z.lxor x (Z.shiftr x 31).

Definition seed (node_id : PeerId) : Z := mix64 (wrap_mul64 node_id 0x9e3779b97f4a7c15).

(** The timeout and the state of the generator after it. *)
Definition next_election_timeout (timing : TimingConfig) (election_state : Z) : Z * Z :=
  let min_ms := Z.max (election_min_ms timing) 1 in
  let max_ms := Z.max (election_max_ms timing) min_ms in
  if max_ms =? min_ms then (min_ms, election_state)
  else
    let election_state := mix64 election_state in
    let span := max_ms - min_ms + 1 in
    (min_ms + election_state mod span, election_state).

(** Whatever the configured bounds and the generator's state, the election
    timeout is at least 1 ms and lies between the effective bounds, and its
    computation never leaves the 64-bit range. *)
Theorem next_election_timeout_bounds timing s :
  let min_ms := Z.max (election_min_ms timing) 1 in
  let max_ms := Z.max (election_max_ms timing) min_ms in
  let t := (next_election_timeout timing s).1 in
  1 <= min_ms <= t /\ t <= max_ms /\
  (is_u64 (election_min_ms timing) -> is_u64 (election_max_ms timing) ->
   is_u64 (max_ms - min_ms + 1) /\ is_u64 t).
Proof.
  cbv zeta. unfold next_election_timeout.
  set (lo := Z.max (election_min_ms timing) 1). set (hi := Z.max (election_max_ms timing) lo).
  destruct (Z.eqb_spec hi lo) as [E|Hne]; cbn [fst].
  - subst lo hi. machine. lia.
  - assert (Hspan : 0 < hi - lo + 1) by lia.
    pose proof (Z.mod_pos_bound (mix64 s) _ Hspan) as Hm.
    generalize dependent (mix64 s mod (hi - lo + 1)). intros m Hm.
    subst lo hi. machine. lia.
Qed.

(** ** Leader balance *)

Definition fair_share (total_groups total_nodes : Z) : Z :=
  if total_nodes =? 0 then total_groups
  else total_groups / total_nodes + (if total_groups mod total_nodes =? 0 then 0 else 1).

(** Milliseconds. *)
Definition extra_pre_vote_delay (leaders_held total_groups total_nodes per_extra_leader_ms
  max_penalty : Z) : Z :=
  let share := fair_share total_groups total_nodes in
  if leaders_held <=? share then 0
  else
    let excess := leaders_held - share in
    let penalty := sat_mul64 excess per_extra_leader_ms in
    if max_penalty <? penalty then max_penalty else penalty.

(** ** Witnesses *)

Definition garbage (key now : Z) : GuardEvent :=
  {| ev_key := key; ev_now := now; ev_decodable := false |}.

Definition garbage_burst : list GuardEvent := map (fun i => garbage 2 (100 + i)) (seqZ 0 32).

Lemma shed_only_abusers_witness :
  exists t0 older start,
    error_times 2 garbage_burst (guard_run LimitsConfig_default garbage_burst ∅).1 = t0 :: older /\
    200 < t0 + 3000 /\ burst LimitsConfig_default 32 start (t0 :: older).
Proof.
  apply (shed_only_abusers LimitsConfig_default garbage_burst (garbage 2 200)).
  - vm_compute. discriminate.
  - vm_compute. discriminate.
  - vm_compute. repeat constructor; discriminate.
  - vm_compute. reflexivity.
Defined.

Lemma jail_is_released_witness :
  let g := (guard_run LimitsConfig_default garbage_burst ∅).2 in
  (guard_step LimitsConfig_default (garbage 2 9000) g).1 <> Decoded.
Proof.
  intros g. destruct (jail_is_released LimitsConfig_default (Some 2) [1; 2; 3] (garbage 2 9000) g
    {| window_start := 100; errors_in_window := 32; jailed_until := Some 3131 |} 3131)
    as [H _]; try reflexivity; [vm_compute; discriminate|].
  intros E. apply H in E. discriminate E.
Defined.
