(* ===== verification/Arena.v ===== *)
(** * Arena: the circular log-metadata cache

    Models [src/api/node/generational.rs].  The arena is a ring of slots that
    caches the terms of a contiguous window of the log.  [get_term] is related
    to an abstract cache, a partial map from indexes to terms: each operation
    is characterised by what it does to that map. *)

From stdpp Require Import base list.
From Stdlib Require Import ZArith Lia.
From S2P Require Import Prelude Types.

Local Open Scope Z_scope.

Record LogMetadataSlot := {
  slot_term : Term; slot_index : LogIndex; slot_generation : Z;
}.

Record LogMetadataArena := {
  slots : list LogMetadataSlot;
  head : nat;
  len : nat;
  base_index : LogIndex;
  generation : Z;
}.

Definition arena_new (capacity : nat) : LogMetadataArena := {|
  slots := replicate capacity {| slot_term := 0; slot_index := 0; slot_generation := 0 |};
  head := 0; len := 0; base_index := 0; generation := 1 |}.

Definition bump_slot (s : LogMetadataSlot) : LogMetadataSlot :=
  {| slot_term := slot_term s; slot_index := slot_index s;
     slot_generation := wrap_add32 (slot_generation s) 1 |}.

(** [for i in first..first+n { slots[(head + i) % cap].generation += 1 }] *)
Fixpoint bump_range (sl : list LogMetadataSlot) (hd first n : nat) : list LogMetadataSlot :=
  match n with
  | O => sl
  | S n' => bump_range (alter bump_slot ((hd + first) mod length sl)%nat sl) hd (S first) n'
  end.

Definition arena_clear (new_base : LogIndex) (a : LogMetadataArena) : LogMetadataArena := {|
  slots := bump_range (slots a) (head a) 0 (len a);
  head := 0; len := 0; base_index := new_base;
  generation := wrap_add32 (generation a) 1 |}.

(** The index the arena expects next. *)
Definition arena_end (a : LogMetadataArena) : Z :=
  sat_add64 (base_index a) (Z.of_nat (len a)).

(** The tail of [append]: drop the oldest slot when full, then write. *)
Definition arena_evict (a : LogMetadataArena) : LogMetadataArena :=
  let cap := length (slots a) in
  if (len a =? cap)%nat then
    {| slots := alter bump_slot (head a) (slots a);
       head := ((head a + 1) mod cap)%nat;
       len := (len a - 1)%nat;
       base_index := sat_add64 (base_index a) 1;
       generation := generation a |}
  else a.

Definition arena_write (index : LogIndex) (term : Term) (a : LogMetadataArena)
  : LogMetadataArena :=
  let write_idx := ((head a + len a) mod length (slots a))%nat in
  {| slots := <[write_idx := {| slot_term := term; slot_index := index;
                                slot_generation := generation a |}]> (slots a);
     head := head a; len := S (len a); base_index := base_index a;
     generation := generation a |}.

Definition arena_rebase (index : LogIndex) (a : LogMetadataArena) : LogMetadataArena :=
  if (len a =? 0)%nat then
    {| slots := slots a; head := head a; len := len a; base_index := index;
       generation := generation a |}
  else a.

Definition arena_append (index : LogIndex) (term : Term) (a : LogMetadataArena)
  : LogMetadataArena :=
  let cap := length (slots a) in
  if (cap =? 0)%nat then a
  else
    let a := arena_rebase index a in
    let a := if negb (index =? arena_end a) then arena_clear index a else a in
    arena_write index term (arena_evict a).

Definition get_term (a : LogMetadataArena) (index : LogIndex) : option Term :=
  let cap := length (slots a) in
  if (cap =? 0)%nat || (len a =? 0)%nat then None
  else if (base_index a <=? index) && (index <? arena_end a) then
    let offset := Z.to_nat (index - base_index a) in
    match slots a !! ((head a + offset) mod cap)%nat with
    | Some slot => if slot_index slot =? index then Some (slot_term slot) else None
    | None => None
    end
  else None.

Definition arena_truncate_suffix (from : LogIndex) (a : LogMetadataArena)
  : LogMetadataArena :=
  if (len a =? 0)%nat then a
  else if from <=? base_index a then arena_clear from a
  else if from <? arena_end a then
    let new_len := Z.to_nat (from - base_index a) in
    {| slots := bump_range (slots a) (head a) new_len (len a - new_len);
       head := head a; len := new_len; base_index := base_index a;
       generation := generation a |}
  else a.

(** ** Invariant

    The live slots hold consecutive indexes from [base_index], saturated at
    the end of the index type. *)

Definition slot_at (a : LogMetadataArena) (k : nat) : option LogMetadataSlot :=
  slots a !! ((head a + k) mod length (slots a))%nat.

Record arena_wf (a : LogMetadataArena) : Prop := {
  wf_len : (len a <= length (slots a))%nat;
  wf_head : (0 < length (slots a) -> head a < length (slots a))%nat;
  wf_base : is_u64 (base_index a);
  wf_slots : forall k, (k < len a)%nat ->
    exists s, slot_at a k = Some s /\
              slot_index s = Z.min (base_index a + Z.of_nat k) u64_max;
}.

(** ** Slot lemmas *)

Lemma length_bump_range sl hd first n : length (bump_range sl hd first n) = length sl.
Proof.
  revert sl first. induction n as [|n IH]; intros sl first; [done|].
  cbn [bump_range]. by rewrite IH, length_alter.
Qed.

(** Bumping generations keeps terms and indexes. *)
Definition same_entry (s s' : LogMetadataSlot) : Prop :=
  slot_term s = slot_term s' /\ slot_index s = slot_index s'.

Lemma alter_bump_lookup (sl : list LogMetadataSlot) (j i : nat) s :
  sl !! i = Some s -> exists s', alter bump_slot j sl !! i = Some s' /\ same_entry s s'.
Proof.
  intros Hs. destruct (decide (i = j)) as [->|Hne].
  - rewrite list_lookup_alter_eq, Hs. by eexists.
  - rewrite list_lookup_alter_ne by done. by exists s.
Qed.

Lemma bump_range_lookup n (sl : list LogMetadataSlot) hd first (i : nat) s :
  sl !! i = Some s ->
  exists s', bump_range sl hd first n !! i = Some s' /\ same_entry s s'.
Proof.
  revert sl first s. induction n as [|n IH]; intros sl first s Hs; cbn [bump_range].
  - by exists s.
  - destruct (alter_bump_lookup _ ((hd + first) mod length sl)%nat _ _ Hs) as (s1 & H1 & Ht & Hi).
    destruct (IH _ (S first) _ H1) as (s2 & H2 & Ht2 & Hi2).
    exists s2. split; [done|]. split; congruence.
Qed.

Lemma mod_pos_distinct hd k1 k2 cap :
  (k1 < k2 -> k2 < cap -> (hd + k1) mod cap <> (hd + k2) mod cap)%nat.
Proof.
  intros Hlt Hcap Heq.
  pose proof (Nat.div_mod_eq (hd + k1) cap) as H1. pose proof (Nat.div_mod_eq (hd + k2) cap) as H2.
  rewrite Heq in H1. destruct (Nat.le_gt_cases ((hd + k2) / cap) ((hd + k1) / cap)); nia.
Qed.

Lemma mod_shift hd k cap :
  (0 < cap -> ((hd + 1) mod cap + k) mod cap = (hd + S k) mod cap)%nat.
Proof.
  intros Hc. rewrite Nat.Div0.add_mod_idemp_l. f_equal. lia.
Qed.

(** ** The abstract cache *)

(** What [get_term] answers, when the invariant holds. *)
Lemma get_term_Some a index t :
  arena_wf a ->
  get_term a index = Some t <->
  base_index a <= index < arena_end a /\
  exists s, slot_at a (Z.to_nat (index - base_index a)) = Some s /\ slot_term s = t.
Proof.
  intros [Hlen Hhead Hbase Hslots]. unfold get_term.
  destruct (Nat.eqb_spec (length (slots a)) 0) as [Hc|Hc]; cbn [orb].
  { split; [done|]. intros [Hr _]. unfold arena_end in Hr. machine. lia. }
  destruct (Nat.eqb_spec (len a) 0) as [Hl|Hl].
  { split; [done|]. intros [Hr _]. unfold arena_end in Hr. machine. lia. }
  destruct ((base_index a <=? index) && (index <? arena_end a)) eqn:Hr.
  - zbool. assert (Hk : (Z.to_nat (index - base_index a) < len a)%nat)
      by (unfold arena_end in *; machine; lia).
    destruct (Hslots _ Hk) as (s & Hs & Hi). unfold slot_at in Hs. rewrite Hs.
    rewrite Hi. destruct (Z.eqb_spec (Z.min (base_index a + Z.of_nat (Z.to_nat (index - base_index a))) u64_max) index) as [_|Hne].
    + split; [intros [= <-]; eauto|]. intros (_ & s' & Hs' & <-). unfold slot_at in Hs'. congruence.
    + exfalso. unfold arena_end in *. machine. lia.
  - apply andb_false_iff in Hr. split; [done|]. intros [[H1 H2] _].
    destruct Hr as [Hr|Hr]; zbool; lia.
Qed.

Lemma get_term_range a index t :
  arena_wf a -> get_term a index = Some t -> base_index a <= index < arena_end a.
Proof. intros Hwf H. by apply get_term_Some in H as [? _]. Qed.

(** Two arenas whose live slots carry the same terms answer alike. *)
Lemma get_term_ext a b :
  arena_wf a -> arena_wf b ->
  forall index,
  (base_index a <= index < arena_end a <-> base_index b <= index < arena_end b) ->
  (base_index a <= index < arena_end a ->
   exists s s', slot_at a (Z.to_nat (index - base_index a)) = Some s /\
                slot_at b (Z.to_nat (index - base_index b)) = Some s' /\
                slot_term s = slot_term s') ->
  get_term a index = get_term b index.
Proof.
  intros Ha Hb index Hr Hs.
  destruct (get_term a index) as [t|] eqn:H1.
  - apply get_term_Some in H1 as (Hin & s & Hsa & <-); [|done].
    destruct (Hs Hin) as (s1 & s2 & E1 & E2 & Et). symmetry.
    apply get_term_Some; [done|]. split; [tauto|]. exists s2. split; [done|]. congruence.
  - destruct (get_term b index) as [t|] eqn:H2; [|done].
    apply get_term_Some in H2 as (Hin & s & Hsb & <-); [|done].
    destruct Hs as (s1 & s2 & E1 & E2 & Et); [tauto|].
    rewrite <- H1. apply get_term_Some; [done|]. split; [tauto|].
    exists s1. split; [done|]. congruence.
Qed.

Lemma get_term_empty a index : len a = 0%nat -> get_term a index = None.
Proof. intros H. unfold get_term. rewrite H. by rewrite orb_true_r. Qed.

(** ** [new], [clear] and [truncate_suffix] *)

Lemma arena_new_wf capacity : arena_wf (arena_new capacity).
Proof.
  constructor; cbn; [lia | done | machine; lia | lia].
Qed.

Lemma arena_clear_wf new_base a : is_u64 new_base -> arena_wf (arena_clear new_base a).
Proof. intros H. constructor; cbn [len slots head base_index arena_clear]; [lia | done | done | lia]. Qed.

Lemma get_term_clear new_base a index : get_term (arena_clear new_base a) index = None.
Proof. by apply get_term_empty. Qed.

Lemma truncate_slots a new_len k :
  arena_wf a -> (new_len <= len a)%nat -> (k < new_len)%nat ->
  exists s s', slot_at a k = Some s /\ same_entry s s' /\
    bump_range (slots a) (head a) new_len (len a - new_len)
      !! ((head a + k) mod length (slots a))%nat = Some s'.
Proof.
  intros Hwf Hn Hk. destruct (wf_slots _ Hwf k) as (s & Hs & _); [lia|].
  destruct (bump_range_lookup (len a - new_len) _ (head a) new_len _ _ Hs) as (s' & H' & He).
  by exists s, s'.
Qed.

Lemma arena_truncate_suffix_wf from a :
  is_u64 from -> arena_wf a -> arena_wf (arena_truncate_suffix from a).
Proof.
  intros Hf Hwf. unfold arena_truncate_suffix.
  destruct (Nat.eqb_spec (len a) 0) as [Hl|Hl]; [done|].
  destruct (Z.leb_spec from (base_index a)) as [Hb|Hb]; [by apply arena_clear_wf|].
  destruct (Z.ltb_spec from (arena_end a)) as [He|He]; [|done].
  pose proof Hwf as [Hlen Hhead Hbase Hslots].
  assert (Hn : (Z.to_nat (from - base_index a) <= len a)%nat)
    by (unfold arena_end in He; machine; lia).
  constructor; cbn [len slots head base_index]; rewrite ?length_bump_range; [lia | done | done |].
  intros k Hk. destruct (truncate_slots a _ k Hwf Hn Hk) as (s & s' & Hs & [_ Hi] & Hs').
  exists s'. unfold slot_at; cbn [slots head]. rewrite length_bump_range. split; [done|].
  rewrite <- Hi. destruct (Hslots k) as (s2 & Hs2 & Hi2); [lia|]. congruence.
Qed.

Lemma get_term_truncate_suffix from a index :
  is_u64 from -> arena_wf a ->
  get_term (arena_truncate_suffix from a) index =
  if index <? from then get_term a index else None.
Proof.
  intros Hf Hwf. pose proof (arena_truncate_suffix_wf from a Hf Hwf) as Hwf'.
  revert Hwf'. unfold arena_truncate_suffix.
  destruct (Nat.eqb_spec (len a) 0) as [Hl|Hl].
  { intros _. rewrite get_term_empty by done. by destruct (_ <? _). }
  destruct (Z.leb_spec from (base_index a)) as [Hb|Hb].
  { intros _. rewrite get_term_clear. destruct (Z.ltb_spec index from) as [Hlt|]; [|done].
    destruct (get_term a index) eqn:E; [|done]. apply get_term_range in E; [lia|done]. }
  destruct (Z.ltb_spec from (arena_end a)) as [He|He]; intros Hwf'.
  - assert (Hn : (Z.to_nat (from - base_index a) <= len a)%nat)
      by (unfold arena_end in He; machine; lia).
    pose proof (wf_base _ Hwf) as Hbase.
    match goal with |- get_term ?b _ = _ => set (b' := b) in * end.
    assert (Hend : arena_end b' = from)
      by (unfold arena_end in *; cbn [base_index len b']; machine; lia).
    destruct (Z.ltb_spec index from) as [Hlt|Hge].
    + apply get_term_ext; [done|done| |]; rewrite Hend; cbn [base_index b'].
      * lia.
      * intros Hin. destruct (truncate_slots a _ (Z.to_nat (index - base_index a)) Hwf Hn)
          as (s & s' & Hs & [Ht _] & Hs'); [lia|].
        exists s', s. split; [|by split]. unfold slot_at, b'; cbn [slots head].
        by rewrite length_bump_range.
    + destruct (get_term b' index) eqn:E; [|done]. apply get_term_range in E; [lia|done].
  - destruct (Z.ltb_spec index from) as [Hlt|Hge]; [done|].
    destruct (get_term a index) eqn:E; [|done]. apply get_term_range in E; [lia|done].
Qed.

(** ** [append] *)

Lemma arena_rebase_wf index a : is_u64 index -> arena_wf a -> arena_wf (arena_rebase index a).
Proof.
  intros Hi Hwf. unfold arena_rebase. destruct (Nat.eqb_spec (len a) 0) as [Hl|]; [|done].
  destruct Hwf. constructor; cbn [len slots head base_index]; [lia | done | done | lia].
Qed.

Lemma get_term_rebase index a j : get_term (arena_rebase index a) j = get_term a j.
Proof.
  unfold arena_rebase. destruct (Nat.eqb_spec (len a) 0) as [Hl|]; [|done].
  by rewrite !get_term_empty.
Qed.

Lemma arena_evict_spec a :
  (0 < length (slots a))%nat -> arena_wf a ->
  let a' := arena_evict a in
  arena_wf a' /\ (len a' < length (slots a'))%nat /\ length (slots a') = length (slots a) /\
  arena_end a' = arena_end a /\
  forall j, get_term a' j =
    if (len a =? length (slots a))%nat && (j =? base_index a) then None else get_term a j.
Proof.
  intros Hcap Hwf. pose proof Hwf as [Hlen Hhead Hbase Hslots]. unfold arena_evict.
  destruct (Nat.eqb_spec (len a) (length (slots a))) as [Hfull|Hroom].
  2: { cbv zeta. cbn [andb]. split_and!; [done|lia|done..]. }
  match goal with |- arena_wf ?b /\ _ => set (a' := b) end. cbn [andb].
  assert (Hlen' : length (slots a') = length (slots a)) by (unfold a'; cbn; apply length_alter).
  assert (Hslot : forall k, (S k < len a)%nat ->
            exists s s', slot_at a (S k) = Some s /\ slot_at a' k = Some s' /\ same_entry s s').
  { intros k Hk. destruct (Hslots (S k) Hk) as (s & Hs & Hi).
    destruct (alter_bump_lookup _ (head a) _ _ Hs) as (s' & Hs' & He).
    exists s, s'. split; [done|]. split; [|done]. unfold slot_at. rewrite Hlen'.
    unfold a'; cbn [head slots]. by rewrite mod_shift. }
  assert (Hwf' : arena_wf a').
  { constructor; [unfold a' in *; cbn [len] in *; lia | | |].
    - intros _. rewrite Hlen'. unfold a'; cbn [head]. apply Nat.mod_upper_bound. lia.
    - unfold a'; cbn [base_index]. machine. lia.
    - unfold a'; cbn [len base_index]. intros k Hk.
      destruct (Hslot k) as (s & s' & Hs & Hs' & [_ Hi]); [lia|]. exists s'. split; [done|].
      destruct (Hslots (S k)) as (s2 & Hs2 & Hi2); [lia|]. rewrite Hs in Hs2.
      injection Hs2 as <-. rewrite <- Hi, Hi2. machine. lia. }
  assert (Hend : arena_end a' = arena_end a)
    by (unfold arena_end, a'; cbn [base_index len]; machine; lia).
  split_and!; [done | unfold a' in *; cbn [len] in *; lia | done | done |].
  intros j. destruct (Z.eqb_spec j (base_index a)) as [->|Hj].
  - destruct (get_term a' _) eqn:E; [|done]. apply get_term_range in E; [|done].
    rewrite Hend in E. unfold a' in E. cbn [base_index] in E. unfold arena_end in E. machine. lia.
  - apply get_term_ext; [done|done|..]; rewrite Hend; unfold a'; cbn [base_index].
    + unfold arena_end in *. machine. lia.
    + intros Hin.
      destruct (Hslot (Z.to_nat (j - base_index a) - 1)%nat) as (s & s' & Hs & Hs' & Ht & _);
        [unfold arena_end in *; machine; lia|].
      exists s', s. split_and!; [|rewrite <- Hs; f_equal; machine; lia|done].
      replace (Z.to_nat (j - sat_add64 (base_index a) 1))
        with (Z.to_nat (j - base_index a) - 1)%nat by (unfold arena_end in *; machine; lia).
      done.
Qed.

Lemma arena_write_spec index term a :
  is_u64 index -> arena_wf a -> (len a < length (slots a))%nat ->
  index = arena_end a ->
  let a' := arena_write index term a in
  arena_wf a' /\
  forall j, get_term a' j =
    if (j =? index) && (index <? u64_max) then Some term else get_term a j.
Proof.
  intros Hu Hwf Hlt Hidx a'. pose proof Hwf as [Hlen Hhead Hbase Hslots].
  set (w := ((head a + len a) mod length (slots a))%nat).
  assert (Hw : (w < length (slots a))%nat) by (apply Nat.mod_upper_bound; lia).
  assert (Hlen' : length (slots a') = length (slots a)) by (unfold a'; cbn; apply length_insert).
  assert (Hl' : len a' = S (len a)) by done.
  assert (Hb' : base_index a' = base_index a) by done.
  assert (Hold : forall k, (k < len a)%nat -> slot_at a' k = slot_at a k).
  { intros k Hk. unfold slot_at. rewrite Hlen'. unfold a', arena_write; cbn [slots head].
    apply list_lookup_insert_ne. intros Heq. symmetry in Heq. revert Heq.
    apply mod_pos_distinct; lia. }
  assert (Hnew : slot_at a' (len a) =
            Some {| slot_term := term; slot_index := index; slot_generation := generation a |}).
  { unfold slot_at. rewrite Hlen'. unfold a', arena_write; cbn [slots head].
    by apply list_lookup_insert_eq. }
  assert (Hwf' : arena_wf a').
  { constructor.
    - rewrite Hlen'. rewrite Hl'. lia.
    - rewrite Hlen'. done.
    - done.
    - rewrite Hl', Hb'. intros k Hk. destruct (decide (k = len a)) as [->|Hne].
      + rewrite Hnew. eexists; split; [done|]. cbn. rewrite Hidx. unfold arena_end. done.
      + rewrite Hold by lia. apply Hslots. lia. }
  split; [done|]. intros j.
  assert (Hend : arena_end a' = sat_add64 (base_index a) (Z.of_nat (S (len a)))) by done.
  destruct (Z.eqb_spec j index) as [->|Hj]; cbn [andb].
  - destruct (Z.ltb_spec index u64_max) as [Hm|Hm].
    + apply get_term_Some; [done|]. rewrite Hend. split.
      { rewrite ?Hb'. unfold arena_end in *. machine. lia. }
      eexists. replace (Z.to_nat (index - base_index a')) with (len a).
      { by rewrite Hnew. }
      rewrite Hb'. unfold arena_end in *. machine. lia.
    + destruct (get_term a' index) eqn:E; destruct (get_term a index) eqn:E'; try done.
      all: try (apply get_term_range in E; [|done]; unfold arena_end in *; machine; lia).
      all: apply get_term_range in E'; [|done]; unfold arena_end in *; machine; lia.
  - apply get_term_ext; [done|done|..]; rewrite Hend; rewrite ?Hb'.
    + unfold arena_end in *. machine. lia.
    + intros Hin. assert (Hk : (Z.to_nat (j - base_index a) < len a)%nat)
        by (unfold arena_end in *; machine; lia).
      destruct (Hslots _ Hk) as (s & Hs & _). exists s, s. split; [|by split].
      by rewrite Hold.
Qed.

(** The arena after the rebase and the clear that [append] starts with. *)
Definition arena_prepare (index : LogIndex) (a : LogMetadataArena) : LogMetadataArena :=
  let a := arena_rebase index a in
  if negb (index =? arena_end a) then arena_clear index a else a.

Lemma length_slots_prepare index a : length (slots (arena_prepare index a)) = length (slots a).
Proof.
  unfold arena_prepare, arena_rebase. destruct (len a =? 0)%nat; cbn [slots];
    destruct (negb _); cbn [slots arena_clear]; rewrite ?length_bump_range; done.
Qed.

Lemma arena_prepare_spec index a :
  is_u64 index -> arena_wf a ->
  let a' := arena_prepare index a in
  let kept := (len a =? 0)%nat || (index =? arena_end a) in
  arena_wf a' /\ index = arena_end a' /\
  (forall j, get_term a' j = if kept then get_term a j else None) /\
  (kept = true -> len a <> 0%nat -> a' = a) /\ (kept = false -> len a' = 0%nat).
Proof.
  intros Hu Hwf. pose proof (arena_rebase_wf index a Hu Hwf) as Hwf1.
  unfold arena_prepare, arena_rebase in *.
  destruct (Nat.eqb_spec (len a) 0) as [Hl|Hl]; cbn [orb].
  - assert (He : index = arena_end {| slots := slots a; head := head a; len := len a;
                                     base_index := index; generation := generation a |})
      by (unfold arena_end; cbn; rewrite Hl; machine; lia).
    rewrite <- He, Z.eqb_refl. cbn [negb]. split_and!; try done.
    intros j. by rewrite !get_term_empty.
  - destruct (Z.eqb_spec index (arena_end a)) as [He|He]; cbn [negb]; [by split_and!|].
    split_and!; try done.
    + by apply arena_clear_wf.
    + unfold arena_end; cbn. machine. lia.
    + intros j. apply get_term_clear.
Qed.

Lemma arena_append_wf index term a :
  is_u64 index -> arena_wf a -> arena_wf (arena_append index term a).
Proof.
  intros Hu Hwf. unfold arena_append.
  destruct (Nat.eqb_spec (length (slots a)) 0) as [|Hc]; [done|].
  fold (arena_prepare index a).
  destruct (arena_prepare_spec index a Hu Hwf) as (Hwf1 & He1 & _).
  pose proof (length_slots_prepare index a) as Hs.
  destruct (arena_evict_spec (arena_prepare index a)) as (Hwf2 & Hlt & _ & He2 & _); [lia|done|].
  apply arena_write_spec; [done|done|done|congruence].
Qed.

Lemma get_term_append index term a j :
  is_u64 index -> arena_wf a -> (0 < length (slots a))%nat ->
  get_term (arena_append index term a) j =
  if (j =? index) && (index <? u64_max) then Some term
  else if (len a =? 0)%nat || (index =? arena_end a) then
    if (len a =? length (slots a))%nat && (j =? base_index a) then None else get_term a j
  else None.
Proof.
  intros Hu Hwf Hc. unfold arena_append.
  destruct (Nat.eqb_spec (length (slots a)) 0) as [|_]; [lia|].
  fold (arena_prepare index a). pose proof (length_slots_prepare index a) as Hs.
  destruct (arena_prepare_spec index a Hu Hwf) as (Hwf1 & He1 & Hg1 & Hkeep & Hdrop).
  destruct (arena_evict_spec (arena_prepare index a)) as (Hwf2 & Hlt & _ & He2 & Hg2); [lia|done|].
  destruct (arena_write_spec index term (arena_evict (arena_prepare index a)))
    as [_ Hg3]; [done|done|done|congruence|].
  rewrite Hg3, Hg2, Hg1. destruct ((j =? index) && _); [done|].
  destruct ((len a =? 0)%nat || (index =? arena_end a)) eqn:Hk.
  - destruct (Nat.eqb_spec (len a) 0) as [Hl|Hl].
    + rewrite (get_term_empty a) by done. by repeat destruct (_ && _).
    + by rewrite (Hkeep eq_refl Hl).
  - by destruct (_ && _).
Qed.

(** An answer after an append is the appended term or an old answer. *)
Lemma get_term_append_inv index term a j t :
  is_u64 index -> arena_wf a -> get_term (arena_append index term a) j = Some t ->
  (j = index /\ t = term) \/ (j <> index /\ get_term a j = Some t).
Proof.
  intros Hu Hwf Hg. assert (Hold : get_term a j = Some t -> j < u64_max).
  { intros E. apply get_term_range in E; [|done]. unfold arena_end in E. machine. lia. }
  destruct (Nat.eq_dec (length (slots a)) 0) as [Hc|Hc].
  { unfold get_term, arena_append in Hg. rewrite Hc in Hg. cbn in Hg. by rewrite Hc in Hg. }
  rewrite get_term_append in Hg by (done || lia).
  destruct (Z.eqb_spec j index) as [->|Hj]; cbn [andb] in Hg.
  - destruct (Z.ltb_spec index u64_max); [left; split; congruence|].
    repeat case_match; try done; apply Hold in Hg; lia.
  - right. split; [done|]. repeat case_match; done.
Qed.

(** C16: the ring buffer is a cache of terms.  Appending [index] makes it
    answer [term] there (below the last representable index); when [index]
    continues the window, or the arena was empty, every other answer is kept
    except, in a full arena, the oldest one; otherwise the window restarts at
    [index].  Truncating from [from] on forgets exactly the terms at and above
    [from], clearing forgets everything, and all three keep the invariant. *)
Theorem arena_refines_cache a index term j :
  arena_wf a -> is_u64 index -> (0 < length (slots a))%nat ->
  let grown := arena_append index term a in
  let cut := arena_truncate_suffix index a in
  (arena_wf grown /\
   get_term grown j =
     if (j =? index) && (index <? u64_max) then Some term
     else if (len a =? 0)%nat || (index =? arena_end a) then
       if (len a =? length (slots a))%nat && (j =? base_index a) then None else get_term a j
     else None) /\
  (arena_wf cut /\ get_term cut j = if j <? index then get_term a j else None) /\
  (arena_wf (arena_clear index a) /\ get_term (arena_clear index a) j = None).
Proof.
  intros Hwf Hu Hc grown cut. split_and!.
  - by apply arena_append_wf.
  - by apply get_term_append.
  - by apply arena_truncate_suffix_wf.
  - by apply get_term_truncate_suffix.
  - by apply arena_clear_wf.
  - apply get_term_clear.
Qed.

(** A full arena of two slots that wraps around. *)
Definition sample_arena : LogMetadataArena :=
  arena_append 7 3 (arena_append 6 2 (arena_append 5 2 (arena_new 2))).

Lemma sample_arena_wf : arena_wf sample_arena.
Proof.
  repeat (apply arena_append_wf; [machine; lia|]). apply arena_new_wf.
Qed.

Lemma arena_refines_cache_witness :
  get_term sample_arena 7 = Some 3 /\ get_term sample_arena 5 = None /\
  get_term (arena_append 8 4 sample_arena) 6 = None /\
  get_term (arena_truncate_suffix 7 sample_arena) 6 = Some 2.
Proof.
  split; [reflexivity|]. split; [reflexivity|].
  assert (H : is_u64 8) by (machine; lia). assert (H' : is_u64 7) by (machine; lia).
  split.
  - etransitivity; [apply (arena_refines_cache sample_arena 8 4 6 sample_arena_wf H);
                    vm_compute; lia | reflexivity].
  - etransitivity; [apply (arena_refines_cache sample_arena 7 4 6 sample_arena_wf H');
                    vm_compute; lia | reflexivity].
Defined.

#[export] Hint Resolve arena_new_wf arena_clear_wf arena_append_wf
  arena_truncate_suffix_wf : raft.
