(* ===== verification/Progress.v ===== *)
(** * Progress: peer maps, replication progress and snapshot attempts

    Models [src/api/node/progress.rs].  [PeerMap] is the linear-scan map: an
    association list in insertion order, with the [swap_remove] of the code.
    Under the invariant that keys are distinct it behaves as a finite map. *)

From stdpp Require Import base list sets gmap.
From Stdlib Require Import ZArith Lia.
From S2P Require Import Prelude Types.

Local Open Scope Z_scope.

Section PeerMap.
Context {V : Type}.
Implicit Types m : list (PeerId * V).

(** [entries.iter_mut().find(|(k, _)| k == key)], with the found value
    replaced through the returned reference. *)
Fixpoint pm_update (key : PeerId) (f : V -> V) m : list (PeerId * V) :=
  match m with
  | [] => []
  | (k, v) :: m' => if k =? key then (k, f v) :: m' else (k, v) :: pm_update key f m'
  end.

Fixpoint pm_get (key : PeerId) m : option V :=
  match m with
  | [] => None
  | (k, v) :: m' => if k =? key then Some v else pm_get key m'
  end.

Definition pm_contains_key (key : PeerId) m : bool := existsb (fun kv => kv.1 =? key) m.

Definition pm_insert (key : PeerId) (value : V) m : list (PeerId * V) :=
  if pm_contains_key key m then pm_update key (fun _ => value) m else m ++ [(key, value)].

Fixpoint position (key : PeerId) m : option nat :=
  match m with
  | [] => None
  | (k, _) :: m' => if k =? key then Some 0%nat else S <$> position key m'
  end.

Definition pm_remove (key : PeerId) m : list (PeerId * V) :=
  match position key m with
  | Some pos => swap_remove pos m
  | None => m
  end.

Definition pm_is_empty m : bool := is_nil m.

Definition pm_keys m : list PeerId := m.*1.

(** ** Lemmas *)

Lemma pm_contains_get key m : pm_contains_key key m = true <-> is_Some (pm_get key m).
Proof.
  unfold pm_contains_key.
  induction m as [|[k v] m IH]; simpl; [by split; [|intros [? [=]]]|].
  destruct (k =? key); simpl; [by split; eauto|done].
Qed.

Lemma pm_get_None key m : pm_get key m = None <-> key ∉ pm_keys m.
Proof.
  unfold pm_keys. induction m as [|[k v] m IH]; simpl; [by rewrite elem_of_nil; split; auto|].
  rewrite not_elem_of_cons. destruct (Z.eqb_spec k key); naive_solver.
Qed.

Lemma pm_get_update key f m j :
  pm_get j (pm_update key f m) = if j =? key then f <$> pm_get j m else pm_get j m.
Proof.
  induction m as [|[k v] m IH]; simpl; [by destruct (j =? key)|].
  destruct (Z.eqb_spec k key) as [->|Hk]; simpl.
  - destruct (Z.eqb_spec key j) as [->|Hj]; [by rewrite Z.eqb_refl|].
    destruct (Z.eqb_spec j key); [by subst|done].
  - destruct (Z.eqb_spec k j) as [->|Hj]; [by destruct (Z.eqb_spec j key)|done].
Qed.

Lemma pm_get_app m1 m2 j :
  pm_get j (m1 ++ m2) = match pm_get j m1 with Some v => Some v | None => pm_get j m2 end.
Proof. induction m1 as [|[k v] m1 IH]; simpl; [done|]. by destruct (k =? j). Qed.

Lemma pm_get_insert key value m j :
  pm_get j (pm_insert key value m) = if j =? key then Some value else pm_get j m.
Proof.
  unfold pm_insert. destruct (pm_contains_key key m) eqn:Hc.
  - rewrite pm_get_update. destruct (Z.eqb_spec j key) as [->|]; [|done].
    apply pm_contains_get in Hc as [v ->]. done.
  - rewrite pm_get_app. simpl. destruct (Z.eqb_spec j key) as [->|Hj].
    + rewrite Z.eqb_refl. destruct (pm_get key m) eqn:Hg; [|done].
      assert (pm_contains_key key m = true) by (apply pm_contains_get; eauto). congruence.
    + destruct (Z.eqb_spec key j); [by subst|]. by destruct (pm_get j m).
Qed.

Lemma pm_keys_update key f m : pm_keys (pm_update key f m) = pm_keys m.
Proof.
  unfold pm_keys. induction m as [|[k v] m IH]; simpl; [done|].
  destruct (k =? key); simpl; [done | by f_equal].
Qed.

Lemma pm_keys_insert key value m :
  pm_keys (pm_insert key value m) =
  if contains key (pm_keys m) then pm_keys m else pm_keys m ++ [key].
Proof.
  unfold pm_insert.
  replace (contains key (pm_keys m)) with (pm_contains_key key m).
  - destruct (pm_contains_key key m); [apply pm_keys_update|].
    unfold pm_keys. by rewrite fmap_app.
  - unfold contains, pm_contains_key, pm_keys.
    induction m as [|[k v] m IH]; simpl; [done|]. by rewrite IH, Z.eqb_sym.
Qed.

Lemma pm_insert_NoDup key value m : NoDup (pm_keys m) -> NoDup (pm_keys (pm_insert key value m)).
Proof.
  intros H. rewrite pm_keys_insert. destruct (contains key (pm_keys m)) eqn:Hc; [done|].
  apply contains_false in Hc. apply NoDup_app. split_and!; [done| |apply NoDup_singleton].
  intros x Hx ->%list_elem_of_singleton. done.
Qed.

Lemma position_split key m pos :
  position key m = Some pos ->
  exists m1 v m2, m = m1 ++ (key, v) :: m2 /\ length m1 = pos /\ key ∉ pm_keys m1.
Proof.
  revert pos. induction m as [|[k v] m IH]; intros pos Hp; simpl in Hp; [done|].
  destruct (Z.eqb_spec k key) as [->|Hk].
  - injection Hp as <-. exists [], v, m. split_and!; [done..|]. by apply not_elem_of_nil.
  - destruct (position key m) as [q|] eqn:Hq; [|done]. injection Hp as <-.
    destruct (IH q eq_refl) as (m1 & v' & m2 & -> & <- & Hn).
    exists ((k, v) :: m1), v', m2. split_and!; [done..|].
    simpl. apply not_elem_of_cons. done.
Qed.

Lemma position_None key m : position key m = None <-> key ∉ pm_keys m.
Proof.
  unfold pm_keys. induction m as [|[k v] m IH]; simpl; [by rewrite elem_of_nil; split; auto|].
  rewrite not_elem_of_cons. destruct (Z.eqb_spec k key) as [->|Hk]; [naive_solver|].
  rewrite fmap_None. naive_solver.
Qed.

Lemma pm_get_elem m key v :
  NoDup (pm_keys m) -> pm_get key m = Some v <-> (key, v) ∈ m.
Proof.
  unfold pm_keys. induction m as [|[k w] m IH]; simpl; intros Hn.
  - by rewrite elem_of_nil.
  - apply NoDup_cons in Hn as [Hk Hn]. rewrite elem_of_cons.
    destruct (Z.eqb_spec k key) as [->|Hne]; [|rewrite (IH Hn); naive_solver].
    split; [naive_solver|]. intros [[= ->]|Hin]; [done|].
    destruct Hk. apply list_elem_of_fmap. by exists (key, v).
Qed.

Lemma pm_get_perm m m' key :
  NoDup (pm_keys m) -> m ≡ₚ m' -> pm_get key m = pm_get key m'.
Proof.
  intros Hn Hp. assert (Hn' : NoDup (pm_keys m'))
    by (unfold pm_keys in *; by rewrite <- Hp).
  apply option_eq. intros v. rewrite !pm_get_elem by done. by rewrite Hp.
Qed.

Lemma pm_remove_spec key m :
  NoDup (pm_keys m) ->
  NoDup (pm_keys (pm_remove key m)) /\
  forall j, pm_get j (pm_remove key m) = if j =? key then None else pm_get j m.
Proof.
  intros Hn. unfold pm_remove. destruct (position key m) as [pos|] eqn:Hp.
  - apply position_split in Hp as (m1 & v & m2 & -> & <- & _).
    assert (Hperm : m1 ++ (key, v) :: m2 ≡ₚ (key, v) :: (m1 ++ m2))
      by (by rewrite Permutation_middle).
    assert (Hk : NoDup (pm_keys ((key, v) :: (m1 ++ m2))))
      by (unfold pm_keys in *; by rewrite <- Hperm).
    apply NoDup_cons in Hk as [Hnk Hk]. fold (pm_keys (m1 ++ m2)) in Hnk, Hk.
    pose proof (swap_remove_perm m1 (key, v) m2) as Hs. split.
    + unfold pm_keys in *. by rewrite Hs.
    + intros j. rewrite (pm_get_perm _ _ j Hn Hperm).
      rewrite <- (pm_get_perm _ _ j Hk (Permutation_sym Hs)). simpl.
      destruct (Z.eqb_spec j key) as [->|Hj].
      * by apply pm_get_None.
      * destruct (Z.eqb_spec key j); [by subst|done].
  - split; [done|]. intros j. destruct (Z.eqb_spec j key) as [->|]; [|done].
    by apply pm_get_None, position_None.
Qed.

Lemma pm_remove_keys key m :
  NoDup (pm_keys m) ->
  forall j, j ∈ pm_keys (pm_remove key m) <-> j <> key /\ j ∈ pm_keys m.
Proof.
  intros Hn j. destruct (pm_remove_spec key m Hn) as [_ Hg].
  assert (Hin : forall m', j ∈ pm_keys m' <-> pm_get j m' <> None).
  { intros m'. rewrite pm_get_None. destruct (decide (j ∈ pm_keys m')); tauto. }
  rewrite !Hin, Hg. destruct (Z.eqb_spec j key) as [->|]; naive_solver.
Qed.
End PeerMap.

Abbreviation PeerMap V := (list (PeerId * V)) (only parsing).

(** ** Progress records *)

Record PeerProgress := { next_index : LogIndex; match_index : LogIndex }.

#[export] Instance PeerProgress_eq_dec : EqDecision PeerProgress.
Proof. solve_decision. Defined.

Record AppendAttemptState := { attempts : Z; sent_last_index : LogIndex }.

Inductive AppendAdvance :=
| Completed
| Retry (s : AppendAttemptState)
| Dropped
| Ignored.

(** [Instant]s are [Z] milliseconds on the node's clock. *)
Record PendingSnapshot := { ps_meta : SnapshotMeta; ps_bytes : bytes; ps_deadline : Z }.

Definition PendingSnapshot_new (now : Z) (meta : SnapshotMeta) (stall_timeout : Z)
  : PendingSnapshot :=
  {| ps_meta := meta; ps_bytes := []; ps_deadline := now + stall_timeout |}.

Definition ps_touch (now stall_timeout : Z) (p : PendingSnapshot) : PendingSnapshot :=
  {| ps_meta := ps_meta p; ps_bytes := ps_bytes p; ps_deadline := now + stall_timeout |}.

Definition ps_reset (now : Z) (meta : SnapshotMeta) (stall_timeout : Z) (p : PendingSnapshot)
  : PendingSnapshot :=
  ps_touch now stall_timeout {| ps_meta := meta; ps_bytes := []; ps_deadline := ps_deadline p |}.

Definition ps_is_expired (now : Z) (p : PendingSnapshot) : bool := ps_deadline p <? now.

Record SnapshotAttempts := { sa_attempts : Z; cooldown_until : option Z }.

Definition SnapshotAttempts_default : SnapshotAttempts :=
  {| sa_attempts := 0; cooldown_until := None |}.

(** The linear-scan peer map is a finite map: lookups after an insert or a
    swap-remove are those of the map with the key set or deleted, and keys
    stay distinct. *)
Theorem peer_map_refines {V} (m : PeerMap V) key value :
  NoDup (pm_keys m) ->
  (NoDup (pm_keys (pm_insert key value m)) /\ NoDup (pm_keys (pm_remove key m))) /\
  (list_to_map (pm_insert key value m) : gmap Z V) = <[key := value]> (list_to_map m) /\
  (list_to_map (pm_remove key m) : gmap Z V) = delete key (list_to_map m) /\
  (forall j, (list_to_map m : gmap Z V) !! j = pm_get j m).
Proof.
  assert (Hget : forall (m' : PeerMap V) j, (list_to_map m' : gmap Z V) !! j = pm_get j m').
  { intros m' j. induction m' as [|[k v] m' IH]; simpl; [apply lookup_empty|].
    destruct (Z.eqb_spec k j) as [->|Hj]; [apply lookup_insert_eq|].
    by rewrite lookup_insert_ne. }
  intros Hn. destruct (pm_remove_spec key m Hn) as [Hr Hrg].
  split_and!; [by apply pm_insert_NoDup | done | apply map_eq; intros j | apply map_eq; intros j | done].
  - rewrite Hget, pm_get_insert. destruct (Z.eqb_spec j key) as [->|Hj].
    + by rewrite lookup_insert_eq.
    + by rewrite lookup_insert_ne, Hget.
  - rewrite Hget, Hrg. destruct (Z.eqb_spec j key) as [->|Hj].
    + by rewrite lookup_delete_eq.
    + by rewrite lookup_delete_ne, Hget.
Qed.

Lemma peer_map_refines_witness :
  pm_get 3 (pm_remove 1 [(1, 10); (2, 20); (3, 30)]) = Some 30.
Proof.
  assert (Hn : NoDup (pm_keys [(1, 10); (2, 20); (3, 30)]))
    by (apply (bool_decide_unpack _); vm_compute; exact I).
  destruct (peer_map_refines [(1, 10); (2, 20); (3, 30)] 1 0 Hn) as [[_ Hr] [_ [Hd _]]].
  destruct (peer_map_refines (pm_remove 1 [(1, 10); (2, 20); (3, 30)]) 1 0 Hr) as [_ [_ [_ Hg]]].
  rewrite <- Hg, Hd. reflexivity.
Defined.
