(* ===== verification/Quorum.v ===== *)
(** * Quorum: majorities and the commit index of a voter set

    Models [quorum] ([src/api/node/mod.rs]), [subset_vote_majority] and
    [voter_majority] ([src/api/node/election.rs]) and
    [subset_quorum_index_into] ([src/api/node/replication/shared.rs]).  Any two
    majorities of a configuration, joint or not, share a voter, and so do a
    majority of a joint configuration and one of either half; the quorum index is
    the greatest index that a majority has acknowledged. *)

From stdpp Require Import base list sets sorting.
From Stdlib Require Import ZArith Lia.
From S2P Require Import Prelude Types Progress.

Local Open Scope Z_scope.

Definition quorum (nodes : nat) : nat := (nodes / 2 + 1)%nat.

Definition subset_vote_majority (subset granted : list PeerId) : bool :=
  let count := length (List.filter (fun p => contains p granted) subset) in
  (quorum (length subset) <=? count)%nat.

(** [voter_majority], on the two fields of the node it reads. *)
Definition voter_majority_of (joint : option (list PeerId * list PeerId))
  (peers granted : list PeerId) : bool :=
  match joint with
  | Some (old_peers, new_peers) =>
      subset_vote_majority old_peers granted && subset_vote_majority new_peers granted
  | None => (quorum (length peers) <=? length granted)%nat
  end.

Definition member_ack (peer_progress : PeerMap PeerProgress) (self_id : PeerId)
  (last_index : LogIndex) (peer : PeerId) : LogIndex :=
  if peer =? self_id then last_index
  else match pm_get peer peer_progress with
       | Some p => match_index p
       | None => 0
       end.

Definition descending (a b : LogIndex) : Prop := b <= a.
#[export] Instance descending_dec : RelDecision descending := fun a b => Z.le_dec b a.

(** [acks.sort_unstable_by(|a, b| b.cmp(a))] *)
Definition sort_descending (acks : list LogIndex) : list LogIndex :=
  merge_sort descending acks.

Definition subset_quorum_index_into (peer_progress : PeerMap PeerProgress)
  (self_id : PeerId) (subset : list PeerId) (last_index : LogIndex) : option LogIndex :=
  if is_nil subset then None
  else
    let acks := map (member_ack peer_progress self_id last_index) subset in
    sort_descending acks !! (quorum (length subset) - 1)%nat.

(** ** Majorities intersect *)

Lemma filter_overlap (P : list PeerId) (f g : PeerId -> bool) :
  (length P < length (List.filter f P) + length (List.filter g P))%nat ->
  exists p, p ∈ P /\ f p = true /\ g p = true.
Proof.
  induction P as [|p P IH]; simpl; [lia|]. intros H.
  destruct (f p) eqn:Hf, (g p) eqn:Hg; simpl in H.
  1: exists p; split; [apply elem_of_cons; by left | done].
  all: destruct IH as (q & Hq & ? & ?); [lia|]; exists q;
    split; [apply elem_of_cons; by right | done].
Qed.

Lemma two_quorums n a b : (quorum n <= a -> quorum n <= b -> n < a + b)%nat.
Proof. unfold quorum. pose proof (Nat.div_mod_eq n 2). pose proof (Nat.mod_upper_bound n 2). lia. Qed.

Lemma subset_vote_majority_intersect P g1 g2 :
  subset_vote_majority P g1 = true -> subset_vote_majority P g2 = true ->
  exists p, p ∈ P /\ p ∈ g1 /\ p ∈ g2.
Proof.
  unfold subset_vote_majority. rewrite !Nat.leb_le. intros H1 H2.
  destruct (filter_overlap P _ _ (two_quorums _ _ _ H1 H2)) as (p & Hp & Hf & Hg).
  membership. eauto.
Qed.

(** The non-joint arm counts the granted list, which holds distinct voters. *)
Lemma length_granted_le peers granted :
  NoDup granted -> (forall p, p ∈ granted -> p ∈ peers) ->
  (length granted <= length (List.filter (fun p => contains p granted) peers))%nat.
Proof.
  intros Hn Hsub. rewrite NoDup_ListNoDup in Hn. apply NoDup_incl_length; [done|].
  intros p Hp. apply filter_In. rewrite <- !list_elem_of_In in *.
  split; [by apply Hsub | by apply contains_spec].
Qed.

(** A list of voters as the vote collectors build it: distinct members of the
    effective voter set. *)
Definition voters_of (peers granted : list PeerId) : Prop :=
  NoDup granted /\ forall p, p ∈ granted -> p ∈ peers.

Lemma voter_majority_plain peers granted :
  voters_of peers granted -> voter_majority_of None peers granted = true ->
  subset_vote_majority peers granted = true.
Proof.
  intros [Hn Hsub]. simpl. rewrite Nat.leb_le. intros H.
  unfold subset_vote_majority. apply Nat.leb_le.
  pose proof (length_granted_le _ _ Hn Hsub). lia.
Qed.

(** Under one configuration, joint or not. *)
Lemma same_config_intersect joint peers g1 g2 :
  voters_of peers g1 -> voters_of peers g2 ->
  voter_majority_of joint peers g1 = true -> voter_majority_of joint peers g2 = true ->
  exists p, p ∈ g1 /\ p ∈ g2.
Proof.
  intros V1 V2 H1 H2. destruct joint as [[old new]|].
  - simpl in *. zbool.
    destruct (subset_vote_majority_intersect old g1 g2) as (p & _ & ? & ?); [done..|]. eauto.
  - destruct (subset_vote_majority_intersect peers g1 g2) as (p & _ & ? & ?);
      [by apply voter_majority_plain.. |]. eauto.
Qed.

(** A majority of a joint configuration and one of either of its halves. *)
Lemma joint_half_intersect old new merged peers g1 g2 :
  peers = old \/ peers = new ->
  voter_majority_of (Some (old, new)) merged g1 = true ->
  voters_of peers g2 -> voter_majority_of None peers g2 = true ->
  exists p, p ∈ g1 /\ p ∈ g2.
Proof.
  intros Hp [H1o H1n]%andb_true_iff V2 H2. apply voter_majority_plain in H2; [|done].
  destruct (subset_vote_majority_intersect peers g1 g2) as (p & _ & ? & ?);
    [destruct Hp; by subst|done|eauto].
Qed.

(** ** The quorum index *)

Definition count_ge (i : LogIndex) (acks : list LogIndex) : nat :=
  length (List.filter (fun a => i <=? a) acks).

(** Whether a majority of [subset] has replicated index [i]. *)
Definition replicated_by_majority (peer_progress : PeerMap PeerProgress) (self_id : PeerId)
  (subset : list PeerId) (last_index i : LogIndex) : bool :=
  (quorum (length subset) <=?
   count_ge i (map (member_ack peer_progress self_id last_index) subset))%nat.

Lemma sort_descending_perm acks : sort_descending acks ≡ₚ acks.
Proof. apply merge_sort_Permutation. Qed.

Lemma sort_descending_sorted acks : StronglySorted descending (sort_descending acks).
Proof.
  apply StronglySorted_merge_sort; unfold descending; [intros a b c; lia | intros a b; lia].
Qed.

Lemma count_ge_perm i l k : l ≡ₚ k -> count_ge i l = count_ge i k.
Proof.
  intros H. unfold count_ge. induction H; simpl; try congruence.
  - destruct (i <=? x); simpl; congruence.
  - by destruct (i <=? x), (i <=? y).
Qed.

(** In a descending list, position [k] holds at least [i] iff more than [k]
    elements do. *)
Lemma sorted_lookup_count l k x i :
  StronglySorted descending l -> l !! k = Some x ->
  i <= x <-> (k < count_ge i l)%nat.
Proof.
  intros Hs. revert k. unfold count_ge.
  induction Hs as [|a l Hs IH Hall]; intros k Hk; [done|]. simpl.
  rewrite List.Forall_forall in Hall.
  assert (Hnone : a < i -> List.filter (fun b => i <=? b) l = []).
  { intros Ha.
    destruct (List.filter (fun b => i <=? b) l) as [|b t] eqn:E; [done|].
    assert (Hb : In b (List.filter (fun b => i <=? b) l)) by (rewrite E; by left).
    apply filter_In in Hb as [Hin Hb]. specialize (Hall b Hin). unfold descending in Hall. zbool. lia. }
  destruct k as [|k]; simpl in Hk.
  - injection Hk as <-. destruct (Z.leb_spec i a) as [|Hlt]; simpl; [lia|].
    rewrite Hnone by done. simpl. lia.
  - specialize (IH k Hk). destruct (Z.leb_spec i a) as [|Hlt]; simpl; [lia|].
    rewrite Hnone in * by done. simpl in *. lia.
Qed.

Lemma quorum_pos n : (0 < quorum n)%nat.
Proof. unfold quorum. lia. Qed.

Lemma quorum_le n : n <> 0%nat -> (quorum n <= n)%nat.
Proof. unfold quorum. intros. pose proof (Nat.div_mod_eq n 2). lia. Qed.

Lemma subset_quorum_index_Some pp self subset last :
  subset <> [] -> exists q, subset_quorum_index_into pp self subset last = Some q.
Proof.
  intros Hne. unfold subset_quorum_index_into. destruct subset as [|p ps]; [done|].
  cbn [is_nil]. apply lookup_lt_is_Some.
  rewrite sort_descending_perm, length_map.
  pose proof (quorum_le (length (p :: ps))). pose proof (quorum_pos (length (p :: ps))).
  simpl length in *. lia.
Qed.

Lemma subset_quorum_index_ge pp self subset last q i :
  subset_quorum_index_into pp self subset last = Some q ->
  i <= q <-> replicated_by_majority pp self subset last i = true.
Proof.
  unfold subset_quorum_index_into, replicated_by_majority.
  destruct subset as [|p ps]; [done|]. cbn [is_nil]. intros Hq.
  rewrite (sorted_lookup_count _ _ _ i (sort_descending_sorted _) Hq).
  rewrite (count_ge_perm i _ _ (sort_descending_perm _)), Nat.leb_le.
  pose proof (quorum_pos (length (p :: ps))). lia.
Qed.

(** The quorum index of a non-empty voter set exists and is the greatest
    index a strict majority of the set has replicated, counting the leader's
    own tip for itself and nothing for a voter without progress. *)
Theorem subset_quorum_index_greatest pp self subset last :
  subset <> [] ->
  exists q, subset_quorum_index_into pp self subset last = Some q /\
    replicated_by_majority pp self subset last q = true /\
    forall i, replicated_by_majority pp self subset last i = true <-> i <= q.
Proof.
  intros Hne. destruct (subset_quorum_index_Some pp self subset last Hne) as [q Hq].
  exists q. split; [done|]. split.
  - apply (subset_quorum_index_ge _ _ _ _ _ q Hq). lia.
  - intros i. symmetry. by apply subset_quorum_index_ge.
Qed.

Lemma subset_quorum_index_greatest_witness :
  exists q, subset_quorum_index_into [(2, {| next_index := 6; match_index := 5 |})] 1
              [1; 2; 3] 9 = Some q /\ q = 5.
Proof.
  destruct (subset_quorum_index_greatest [(2, {| next_index := 6; match_index := 5 |})] 1
              [1; 2; 3] 9) as (q & Hq & _); [done|].
  exists q. split; [exact Hq|]. vm_compute in Hq. congruence.
Defined.
