(* ===== verification/Traits.v ===== *)
(** * Traits: the interfaces of the engine to the code around it

    The traits of [src/traits] as classes over the implementing type.  Every
    operation takes the implementation's state and returns the result with the
    state after it, so that an implementation may fail, block a different time
    or answer differently on each call.  [StorageLaws] is the contract
    documented in [src/traits/storage.rs], stated on an abstract view of the
    stable storage; the theorems about the engine use nothing else of a
    storage.  [MemStorage] is a reference storage that satisfies the contract,
    with a switch that makes its writes fail. *)

From stdpp Require Import base list sets gmap strings.
From Stdlib Require Import ZArith Lia.
From S2P Require Import Prelude Types Wire Codec.

Local Open Scope string_scope.
Local Open Scope list_scope.
Local Open Scope raft_scope.
Local Open Scope Z_scope.

(** ** Storage *)

Class RaftStorage (S : Type) := {
  load_hard_state : S -> res HardState * S;
  save_hard_state : HardState -> S -> res unit * S;
  append_entries : list LogEntry -> S -> res unit * S;
  append_entries_seeded : list EntryHeader -> list bytes -> S -> res unit * S;
  (** the last argument is the size of the caller's payload buffer *)
  read_entries : LogIndex -> LogIndex -> Z -> S -> res (list LogEntry) * S;
  read_entry_headers : LogIndex -> LogIndex -> S -> res (option (list EntryHeader)) * S;
  for_each_payload : LogIndex -> LogIndex -> S -> res (list bytes) * S;
  entry_at : LogIndex -> Z -> S -> res (option LogEntry) * S;
  storage_term_at : LogIndex -> S -> res (option Term) * S;
  last_log_position : S -> res (LogIndex * Term) * S;
  truncate_suffix : LogIndex -> S -> res unit * S;
  truncate_before : LogIndex -> S -> res unit * S;
  save_snapshot : SnapshotMeta -> bytes -> S -> res unit * S;
  load_snapshot : S -> res (option (SnapshotMeta * bytes)) * S;
  load_snapshot_meta : S -> res (option SnapshotMeta) * S;
}.

(** What is on stable storage: the hard state, the log and the snapshot. *)
Record View := {
  v_hard : HardState;
  v_log : gmap Z (Term * bytes);
  v_snap : option (SnapshotMeta * bytes);
}.

Definition set_v_hard (h : HardState) (v : View) : View :=
  {| v_hard := h; v_log := v_log v; v_snap := v_snap v |}.
Definition set_v_log (l : gmap Z (Term * bytes)) (v : View) : View :=
  {| v_hard := v_hard v; v_log := l; v_snap := v_snap v |}.
Definition set_v_snap (s : SnapshotMeta * bytes) (v : View) : View :=
  {| v_hard := v_hard v; v_log := v_log v; v_snap := Some s |}.

Definition log_insert (log : gmap Z (Term * bytes)) (e : LogEntry) : gmap Z (Term * bytes) :=
  <[e_index e := (e_term e, e_payload e)]> log.

Definition log_append (es : list LogEntry) (log : gmap Z (Term * bytes))
  : gmap Z (Term * bytes) := foldl log_insert log es.

Definition log_truncate (from : LogIndex) (log : gmap Z (Term * bytes))
  : gmap Z (Term * bytes) := filter (fun kv => kv.1 < from) log.

Definition seeded_entries (hs : list EntryHeader) (ps : list bytes) : list LogEntry :=
  zip_with (fun h p => {| e_term := eh_term h; e_index := eh_index h; e_payload := p |}) hs ps.

Definition log_term (log : gmap Z (Term * bytes)) (i : LogIndex) : option Term :=
  fst <$> log !! i.

(** The last position of a log: its highest index with the term there. *)
Definition is_last (log : gmap Z (Term * bytes)) (p : LogIndex * Term) : Prop :=
  log_term log p.1 = Some p.2 /\ forall i, is_Some (log !! i) -> i <= p.1.

(** A read leaves the view as it is. *)
Definition reads {S A : Type} (view : S -> View) (op : S -> res A * S) (P : View -> A -> Prop)
  : Prop :=
  forall s r s', op s = (r, s') ->
    view s' = view s /\ forall a, r = Ok a -> P (view s) a.

(** A write has its effect when it returns [Ok]; when it fails, nothing is
    known about the part of the view it writes, and the rest is untouched. *)
Definition writes {S : Type} (view : S -> View) (op : S -> res unit * S)
  (effect : View -> View -> Prop) (keeps : View -> View -> Prop) : Prop :=
  forall s r s', op s = (r, s') ->
    keeps (view s) (view s') /\ (r = Ok tt -> effect (view s) (view s')).

Class StorageLaws (S : Type) `{RaftStorage S} := {
  sview : S -> View;
  load_hard_state_law : reads sview load_hard_state (fun v h => h = v_hard v);
  save_hard_state_law h : writes sview (save_hard_state h)
    (fun v v' => v' = set_v_hard h v)
    (fun v v' => v_log v' = v_log v /\ v_snap v' = v_snap v);
  append_entries_law es : writes sview (append_entries es)
    (fun v v' => v' = set_v_log (log_append es (v_log v)) v)
    (fun v v' => v_hard v' = v_hard v /\ v_snap v' = v_snap v);
  append_entries_seeded_law hs ps : writes sview (append_entries_seeded hs ps)
    (fun v v' => v' = set_v_log (log_append (seeded_entries hs ps) (v_log v)) v)
    (fun v v' => v_hard v' = v_hard v /\ v_snap v' = v_snap v);
  read_entries_law from to buf : reads sview (read_entries from to buf)
    (fun v es => Forall (fun e => v_log v !! e_index e = Some (e_term e, e_payload e)) es);
  read_entry_headers_law from to : reads sview (read_entry_headers from to)
    (fun v o => forall hs, o = Some hs ->
       Forall (fun h => log_term (v_log v) (eh_index h) = Some (eh_term h)) hs);
  for_each_payload_law from to : reads sview (for_each_payload from to) (fun _ _ => True);
  entry_at_law i buf : reads sview (entry_at i buf)
    (fun v o => o = (fun tp => {| e_term := tp.1; e_index := i; e_payload := tp.2 |})
                      <$> v_log v !! i);
  storage_term_at_law i : reads sview (storage_term_at i)
    (fun v o => o = log_term (v_log v) i);
  last_log_position_law : reads sview last_log_position
    (fun v p => v_log v <> ∅ -> is_last (v_log v) p);
  truncate_suffix_law from : writes sview (truncate_suffix from)
    (fun v v' => v' = set_v_log (log_truncate from (v_log v)) v)
    (fun v v' => v_hard v' = v_hard v /\ v_snap v' = v_snap v);
  (** it is never an error to leave entries below [up_to] in place *)
  truncate_before_law up_to : writes sview (truncate_before up_to)
    (fun v v' => v_log v' ⊆ v_log v /\
       forall i, up_to <= i -> v_log v' !! i = v_log v !! i)
    (fun v v' => v_hard v' = v_hard v /\ v_snap v' = v_snap v);
  save_snapshot_law m b : writes sview (save_snapshot m b)
    (fun v v' => v' = set_v_snap (m, b) v)
    (fun v v' => v_hard v' = v_hard v /\ v_log v' = v_log v);
  load_snapshot_law : reads sview load_snapshot (fun v o => o = v_snap v);
  load_snapshot_meta_law : reads sview load_snapshot_meta (fun v o => o = fst <$> v_snap v);
}.

(** The integrity contract of [src/traits/storage.rs] for the hard state: what is
    read back is a value that was written, never a torn one.  A failed write may
    or may not have reached the disk, so it leaves the old value or the new one. *)
Class HardStateIntegrity (S : Type) `{StorageLaws S} :=
  save_hard_state_fails h s e s' : save_hard_state h s = (Err e, s') ->
    v_hard (sview s') = v_hard (sview s) \/ v_hard (sview s') = h.

(** A storage whose hard-state writes never fail. *)
Class ReliableHardState (S : Type) `{RaftStorage S} :=
  save_hard_state_ok h s : (save_hard_state h s).1 = Ok tt.

(** ** Transport, clock and custom dispatch *)

Class RaftTransport (T : Type) := {
  send_vectored : PeerId -> list bytes -> T -> res unit * T;
  send_frame_owned : PeerId -> bytes -> T -> res unit * T;
  (** the frame received into a buffer of the given size *)
  recv_frame : Z -> T -> res bytes * T;
  recv_frame_timeout : Z -> Z -> T -> res (option bytes) * T;
}.

(** What the engine relies on of a transport, on the history of the frames it
    accepted for sending and the frames it may still deliver: a send adds its
    frame or nothing, a receive delivers a frame that was there. *)
Class TransportLaws (T : Type) `{RaftTransport T} := {
  sent : T -> list (PeerId * bytes);
  inbox : T -> list bytes;
  send_vectored_law peer slices t r t' :
    send_vectored peer slices t = (r, t') ->
    (sent t' = sent t \/ sent t' = sent t ++ [(peer, concat slices)]) /\ inbox t' = inbox t;
  send_frame_owned_law peer frame t r t' :
    send_frame_owned peer frame t = (r, t') ->
    (sent t' = sent t \/ sent t' = sent t ++ [(peer, frame)]) /\ inbox t' = inbox t;
  recv_frame_law len t r t' :
    recv_frame len t = (r, t') ->
    sent t' = sent t /\ inbox t' ⊆ inbox t /\ (forall f, r = Ok f -> f ∈ inbox t);
  recv_frame_timeout_law timeout len t r t' :
    recv_frame_timeout timeout len t = (r, t') ->
    sent t' = sent t /\ inbox t' ⊆ inbox t /\ (forall f, r = Ok (Some f) -> f ∈ inbox t);
}.

(** [Instant::now]: the reading, in milliseconds, and the clock after it. *)
Class Clock (C : Type) := { clock_now : C -> Z * C }.

Inductive DispatchNodeRole := DispatchLeader | DispatchFollower.

Record DispatchRoute := { route_role : DispatchNodeRole; is_origin : bool }.

(** What the node uses of the custom dispatch layer ([src/dispatch] and the
    user's handlers): invoking the handler of a frame, which may answer through
    the transport; feeding a response to the pending transaction it names; and
    resolving every pending transaction as lost at a leader transition. *)
Class CustomDispatch (D T : Type) := {
  invoke_custom : DispatchRoute -> PeerId -> PeerId -> bytes -> D -> T -> res unit * D * T;
  on_custom_response : PeerId -> bytes -> D -> res unit * D;
  abort_lost_leadership : D -> D;
}.

(** ** State machine *)

Class StateMachine (SM : Type) := {
  apply_at : LogIndex -> bytes -> SM -> res unit * SM;
  snapshot : SM -> res bytes;
  restore : bytes -> SM -> res unit * SM;
}.

(** ** A reference storage *)

Record MemStorage := {
  mem_view : View;
  (** the error every write returns while the disk is full *)
  mem_fault : option RaftError;
}.

Definition mem_write (f : View -> View) (s : MemStorage) : res unit * MemStorage :=
  match mem_fault s with
  | Some e => (Err e, s)
  | None => (Ok tt, {| mem_view := f (mem_view s); mem_fault := None |})
  end.

Definition mem_read {A} (f : View -> A) (s : MemStorage) : res A * MemStorage :=
  (Ok (f (mem_view s)), s).

(** The highest index of the log; [(0, 0)] for an empty one. *)
Definition later (i : LogIndex) (tp : Term * bytes) (acc : option (LogIndex * Term))
  : option (LogIndex * Term) :=
  match acc with
  | Some p => if p.1 <=? i then Some (i, tp.1) else acc
  | None => Some (i, tp.1)
  end.

Definition log_last (log : gmap Z (Term * bytes)) : LogIndex * Term :=
  default (0, 0) (map_fold later None log).

(** The entries of [from .. to), [to] excluded. *)
Definition mem_entries (from to : LogIndex) (v : View) : list LogEntry :=
  omap (fun i => (fun tp => {| e_term := tp.1; e_index := i; e_payload := tp.2 |})
                   <$> v_log v !! i)
    (seqZ from (Z.min to ((log_last (v_log v)).1 + 1) - from)).

#[export] Instance MemStorage_storage : RaftStorage MemStorage := {
  load_hard_state := mem_read v_hard;
  save_hard_state h := mem_write (set_v_hard h);
  append_entries es := mem_write (fun v => set_v_log (log_append es (v_log v)) v);
  append_entries_seeded hs ps :=
    mem_write (fun v => set_v_log (log_append (seeded_entries hs ps) (v_log v)) v);
  read_entries from to _ := mem_read (mem_entries from to);
  read_entry_headers _ _ := mem_read (fun _ => None);
  for_each_payload _ _ s := (Err (StorageErr "for_each_payload not implemented"), s);
  entry_at i _ := mem_read (fun v =>
    (fun tp => {| e_term := tp.1; e_index := i; e_payload := tp.2 |}) <$> v_log v !! i);
  storage_term_at i := mem_read (fun v => log_term (v_log v) i);
  last_log_position := mem_read (fun v => log_last (v_log v));
  truncate_suffix from := mem_write (fun v => set_v_log (log_truncate from (v_log v)) v);
  truncate_before up_to :=
    mem_write (fun v => set_v_log (filter (fun kv => up_to <= kv.1) (v_log v)) v);
  save_snapshot m b := mem_write (set_v_snap (m, b));
  load_snapshot := mem_read v_snap;
  load_snapshot_meta := mem_read (fun v => fst <$> v_snap v);
}.

Lemma log_last_fold log :
  match map_fold later None log with
  | Some p => is_last log p
  | None => log = ∅
  end.
Proof.
  apply (map_fold_weak_ind (fun acc m => match acc with Some p => is_last m p | None => m = ∅ end)).
  { done. }
  intros i tp m acc Hi Hacc. unfold is_last, log_term in *.
  assert (Hother : forall j, is_Some (<[i:=tp]> m !! j) -> j = i \/ is_Some (m !! j)).
  { intros j. rewrite lookup_insert_is_Some. naive_solver. }
  destruct acc as [p|]; simpl.
  - destruct Hacc as [Hp Hmax]. destruct (Z.leb_spec p.1 i) as [Hle|Hgt]; simpl.
    + rewrite lookup_insert_eq. split; [done|]. intros j [->|Hj]%Hother; [lia|].
      specialize (Hmax j Hj). lia.
    + rewrite lookup_insert_ne by lia. split; [done|].
      intros j [->|Hj]%Hother; [lia|]. by apply Hmax.
  - subst m. rewrite lookup_insert_eq. split; [done|].
    intros j [->|[? Hj]]%Hother; [lia|]. by rewrite lookup_empty in Hj.
Qed.

Lemma log_last_spec log : log <> ∅ -> is_last log (log_last log).
Proof.
  intros Hne. pose proof (log_last_fold log) as H. unfold log_last.
  by destruct (map_fold later None log).
Qed.

Lemma mem_reads {A} (f : View -> A) (P : View -> A -> Prop) :
  (forall v, P v (f v)) -> reads mem_view (mem_read f) P.
Proof.
  intros HP s r s' [= <- <-]. split; [done|]. intros a [= <-]. apply HP.
Qed.

Lemma mem_writes f (effect keeps : View -> View -> Prop) :
  (forall v, keeps v v) -> (forall v, keeps v (f v)) -> (forall v, effect v (f v)) ->
  writes mem_view (mem_write f) effect keeps.
Proof.
  intros Hid Hk He s r s'. unfold mem_write. destruct (mem_fault s); intros [= <- <-]; auto.
  split; [apply Hid|done].
Qed.

Lemma mem_entries_stored v from to :
  Forall (fun e => v_log v !! e_index e = Some (e_term e, e_payload e)) (mem_entries from to v).
Proof.
  unfold mem_entries. apply Forall_forall. intros e He.
  apply list_elem_of_omap in He as (i & _ & Hi).
  apply fmap_Some in Hi as ([t p] & Hl & ->). done.
Qed.

#[export] Instance MemStorage_laws : StorageLaws MemStorage.
Proof.
  apply (Build_StorageLaws MemStorage _ mem_view).
  all: intros.
  all: try (apply mem_writes; intros; done).
  all: try (apply mem_reads; intros; done).
  - apply mem_reads. intros v. apply mem_entries_stored.
  - intros s r s' [= <- <-]. done.
  - apply mem_reads. intros v. apply log_last_spec.
  - apply mem_writes; try done. intros v. cbn. split; [apply map_filter_subseteq|].
    intros i Hi. destruct (v_log v !! i) as [x|] eqn:Hl.
    + by apply map_lookup_filter_Some.
    + apply map_lookup_filter_None. by left.
Defined.

#[export] Instance MemStorage_integrity : HardStateIntegrity MemStorage.
Proof.
  intros h s e s'. cbn. unfold mem_write. destruct (mem_fault s); intros [= <- <-]; by left.
Qed.

(** The same storage without faults. *)
Definition intact {A} (op : MemStorage -> res A * MemStorage) (v : View) : res A * View :=
  let '(r, s) := op {| mem_view := v; mem_fault := None |} in (r, mem_view s).

#[export] Instance View_storage : RaftStorage View := {
  load_hard_state := intact load_hard_state;
  save_hard_state h := intact (save_hard_state h);
  append_entries es := intact (append_entries es);
  append_entries_seeded hs ps := intact (append_entries_seeded hs ps);
  read_entries from to buf := intact (read_entries from to buf);
  read_entry_headers from to := intact (read_entry_headers from to);
  for_each_payload from to := intact (for_each_payload from to);
  entry_at i buf := intact (entry_at i buf);
  storage_term_at i := intact (storage_term_at i);
  last_log_position := intact last_log_position;
  truncate_suffix from := intact (truncate_suffix from);
  truncate_before up_to := intact (truncate_before up_to);
  save_snapshot m b := intact (save_snapshot m b);
  load_snapshot := intact load_snapshot;
  load_snapshot_meta := intact load_snapshot_meta;
}.

Lemma intact_reads {A} (op : MemStorage -> res A * MemStorage) P :
  reads mem_view op P -> reads (fun v => v) (intact op) P.
Proof.
  intros Hop v r v'. unfold intact. destruct (op _) as [r' s] eqn:E. intros [= <- <-].
  by apply Hop in E.
Qed.

Lemma intact_writes (op : MemStorage -> res unit * MemStorage) P Q :
  writes mem_view op P Q -> writes (fun v => v) (intact op) P Q.
Proof.
  intros Hop v r v'. unfold intact. destruct (op _) as [r' s] eqn:E. intros [= <- <-].
  by apply Hop in E.
Qed.

#[export] Instance View_laws : StorageLaws View.
Proof.
  apply (Build_StorageLaws View _ (fun v => v)); intros;
    first [apply intact_reads | apply intact_writes].
  - exact (load_hard_state_law (S := MemStorage)).
  - exact (save_hard_state_law (S := MemStorage) _).
  - exact (append_entries_law (S := MemStorage) _).
  - exact (append_entries_seeded_law (S := MemStorage) _ _).
  - exact (read_entries_law (S := MemStorage) _ _ _).
  - exact (read_entry_headers_law (S := MemStorage) _ _).
  - exact (for_each_payload_law (S := MemStorage) _ _).
  - exact (entry_at_law (S := MemStorage) _ _).
  - exact (storage_term_at_law (S := MemStorage) _).
  - exact (last_log_position_law (S := MemStorage)).
  - exact (truncate_suffix_law (S := MemStorage) _).
  - exact (truncate_before_law (S := MemStorage) _).
  - exact (save_snapshot_law (S := MemStorage) _ _).
  - exact (load_snapshot_law (S := MemStorage)).
  - exact (load_snapshot_meta_law (S := MemStorage)).
Defined.

#[export] Instance View_reliable : ReliableHardState View.
Proof. by intros h v. Qed.

#[export] Instance reliable_integrity {S} `{StorageLaws S} `{!ReliableHardState S} :
  HardStateIntegrity S.
Proof. intros h s e s' E. pose proof (save_hard_state_ok h s) as Hok. by rewrite E in Hok. Qed.

(** ** A reference transport, clock and dispatch layer

    The transport keeps what was sent, in order, and hands out a script of
    inbound frames; the clock reads a script of instants. *)

Record QueueTransport := {
  qt_sent : list (PeerId * bytes);
  qt_inbound : list bytes;
}.

Definition qt_send (peer : PeerId) (frame : bytes) (t : QueueTransport)
  : res unit * QueueTransport :=
  (Ok tt, {| qt_sent := qt_sent t ++ [(peer, frame)]; qt_inbound := qt_inbound t |}).

#[export] Instance QueueTransport_transport : RaftTransport QueueTransport := {
  send_vectored peer slices := qt_send peer (concat slices);
  send_frame_owned := qt_send;
  recv_frame _ t :=
    match qt_inbound t with
    | f :: fs => (Ok f, {| qt_sent := qt_sent t; qt_inbound := fs |})
    | [] => (Err (TransportErr "closed"), t)
    end;
  recv_frame_timeout _ _ t :=
    match qt_inbound t with
    | f :: fs => (Ok (Some f), {| qt_sent := qt_sent t; qt_inbound := fs |})
    | [] => (Ok None, t)
    end;
}.

#[export, refine] Instance QueueTransport_laws : TransportLaws QueueTransport := {
  sent := qt_sent; inbox := qt_inbound;
}.
Proof.
  - intros peer slices t r t' [= <- <-]. auto.
  - intros peer frame t r t' [= <- <-]. auto.
  - intros len [s [|f fs]] r t'; cbn; intros [= <- <-]; (split; [done|]); set_solver.
  - intros timeout len [s [|f fs]] r t'; cbn; intros [= <- <-]; (split; [done|]); set_solver.
Defined.

(** A clock that advances by a fixed step on each reading. *)
Record TickClock := { tick_now : Z; tick_step : Z }.

#[export] Instance TickClock_clock : Clock TickClock := {
  clock_now c := (tick_now c, {| tick_now := tick_now c + tick_step c; tick_step := tick_step c |});
}.

(** No handler registered: every custom frame is refused. *)
#[export] Instance unit_dispatch {T} : CustomDispatch unit T := {
  invoke_custom _ _ _ _ d t := (Err (Dispatch "no dispatch handler registered"), d, t);
  on_custom_response _ _ d := (Ok tt, d);
  abort_lost_leadership d := d;
}.
