(* ===== verification/Membership.v ===== *)
(** * Membership: control entries

    Models the control envelope of [src/api/node/membership.rs] (the
    configuration-change entry, the leader no-op) and the guard
    [reject_reserved_prefix] of [src/api/arbitro_raft/mod.rs] that keeps client
    payloads out of it. *)

From stdpp Require Import base list strings.
From Stdlib Require Import ZArith Lia.
From S2P Require Import Prelude Types Wire.

Local Open Scope string_scope.
Local Open Scope list_scope.
Local Open Scope Z_scope.

Definition CONFIG_CHANGE_MAGIC : Z := 0xC0.
Definition CONFIG_CHANGE_VERSION : Z := 1.
Definition NOOP_DISCRIMINANT : Z := 0x7F.
Definition HEADER_LEN : nat := 12.

Definition noop_entry : bytes :=
  [to_byte CONFIG_CHANGE_MAGIC; to_byte CONFIG_CHANGE_VERSION; to_byte NOOP_DISCRIMINANT;
   to_byte 0].

Definition is_noop_entry (payload : bytes) : bool := bool_decide (payload = noop_entry).

Inductive ConfigChangePhase := Joint | Final | AddLearner | RemoveLearner.

#[export] Instance ConfigChangePhase_eq_dec : EqDecision ConfigChangePhase.
Proof. solve_decision. Defined.

Record ConfigChangeEntry := {
  cc_phase : ConfigChangePhase; old_peers : list PeerId; new_peers : list PeerId;
}.

Definition phase_byte (p : ConfigChangePhase) : Z :=
  match p with Joint => 1 | Final => 2 | AddLearner => 3 | RemoveLearner => 4 end.

Definition encode_peers (ps : list PeerId) : bytes := concat (map (le_bytes 8) ps).

Definition config_encode (e : ConfigChangeEntry) : bytes :=
  [to_byte CONFIG_CHANGE_MAGIC; to_byte CONFIG_CHANGE_VERSION; to_byte (phase_byte (cc_phase e));
   to_byte 0]
  ++ le_bytes 4 (Z.of_nat (length (old_peers e)))
  ++ le_bytes 4 (Z.of_nat (length (new_peers e)))
  ++ encode_peers (old_peers e) ++ encode_peers (new_peers e).

(** [for _ in 0..n { peers.push(u64 at cursor); cursor += 8 }] *)
Fixpoint read_peers (n cursor : nat) (b : bytes) : list PeerId * nat :=
  match n with
  | O => ([], cursor)
  | S n' =>
      let '(ps, c) := read_peers n' (cursor + 8) b in
      (le_value (take 8 (drop cursor b)) :: ps, c)
  end.

Definition phase_of_byte (b : Z) : option ConfigChangePhase :=
  if b =? 1 then Some Joint
  else if b =? 2 then Some Final
  else if b =? 3 then Some AddLearner
  else if b =? 4 then Some RemoveLearner
  else None.

(** [bytes[i]] of a buffer known to be long enough. *)
Definition byte_at (i : nat) (b : bytes) : Z :=
  match b !! i with Some x => of_byte x | None => 0 end.

(** On a 64-bit target the [checked_mul] and [checked_add] on [u32] lengths
    cannot fail. *)
Definition config_decode (b : bytes) : option ConfigChangeEntry :=
  if (length b <? HEADER_LEN)%nat then None
  else if negb (byte_at 0 b =? CONFIG_CHANGE_MAGIC) then None
  else if negb (byte_at 1 b =? CONFIG_CHANGE_VERSION) then None
  else match phase_of_byte (byte_at 2 b) with
       | None => None
       | Some phase =>
           let old_len := Z.to_nat (le_value (take 4 (drop 4 b))) in
           let new_len := Z.to_nat (le_value (take 4 (drop 8 b))) in
           let total := (HEADER_LEN + old_len * 8 + new_len * 8)%nat in
           if (length b <? total)%nat then None
           else
             let '(olds, cursor) := read_peers old_len HEADER_LEN b in
             let '(news, _) := read_peers new_len cursor b in
             Some {| cc_phase := phase; old_peers := olds; new_peers := news |}
       end.

(** The guard of the client entry points. *)
Definition reject_reserved_prefix (payload : bytes) : res unit :=
  if MAX_ENTRY_PAYLOAD <? Z.of_nat (length payload) then
    Err (InvalidPayload
      "payload exceeds MAX_ENTRY_PAYLOAD and would not fit a peer's frame buffer")
  else if match payload with b :: _ => of_byte b =? CONFIG_CHANGE_MAGIC | [] => false end then
    Err (InvalidPayload "payload first byte collides with reserved config-change magic (0xC0)")
  else Ok tt.

(** ** Lemmas *)

Lemma length_encode_peers ps : length (encode_peers ps) = (length ps * 8)%nat.
Proof.
  unfold encode_peers. induction ps as [|p ps IH]; [done|]. cbn [map concat length].
  rewrite length_app, length_le_bytes, IH. lia.
Qed.

Lemma read_peers_encoded ps pre rest cursor :
  Forall is_u64 ps -> cursor = length pre ->
  read_peers (length ps) cursor (pre ++ encode_peers ps ++ rest)
  = (ps, (cursor + length ps * 8)%nat).
Proof.
  intros Hps. revert pre cursor. induction Hps as [|p ps Hp _ IH]; intros pre cursor ->.
  - simpl. f_equal. lia.
  - cbn [length read_peers encode_peers map concat]. fold (encode_peers ps).
    rewrite <- app_assoc, app_assoc.
    rewrite IH by (by rewrite length_app, length_le_bytes).
    rewrite <- app_assoc, drop_app_exact, take_app_exact by (by rewrite ?length_le_bytes).
    rewrite le_value_bytes by (machine; lia). f_equal. lia.
Qed.

Lemma length_read_peers n cursor b : length (read_peers n cursor b).1 = n.
Proof.
  revert cursor. induction n as [|n IH]; intros cursor; [done|]. cbn [read_peers].
  specialize (IH (cursor + 8)%nat). destruct (read_peers n (cursor + 8) b). simpl in *. lia.
Qed.

Lemma phase_of_phase_byte p : phase_of_byte (phase_byte p) = Some p.
Proof. by destruct p. Qed.

(** A configuration entry the engine builds: peer ids of the type, and lists
    whose lengths fit the length fields. *)
Definition config_entry_wf (e : ConfigChangeEntry) : Prop :=
  Forall is_u64 (old_peers e) /\ Forall is_u64 (new_peers e) /\
  Z.of_nat (length (old_peers e)) <= u32_max /\ Z.of_nat (length (new_peers e)) <= u32_max.

Lemma config_decode_encode e trailing :
  config_entry_wf e -> config_decode (config_encode e ++ trailing) = Some e.
Proof.
  intros (Ho & Hn & Hlo & Hln). destruct e as [phase olds news]. cbn [old_peers new_peers] in *.
  unfold config_encode, config_decode. cbn [cc_phase old_peers new_peers].
  set (h := [to_byte CONFIG_CHANGE_MAGIC; to_byte CONFIG_CHANGE_VERSION;
             to_byte (phase_byte phase); to_byte 0]).
  set (lo := le_bytes 4 (Z.of_nat (length olds))). set (ln := le_bytes 4 (Z.of_nat (length news))).
  set (b := (h ++ lo ++ ln ++ encode_peers olds ++ encode_peers news) ++ trailing).
  assert (Hb : b = (h ++ lo ++ ln) ++ encode_peers olds ++ encode_peers news ++ trailing)
    by (unfold b; by rewrite <- !app_assoc).
  assert (Hhead : length (h ++ lo ++ ln) = HEADER_LEN)
    by (unfold lo, ln; by rewrite !length_app, !length_le_bytes).
  assert (Hlen : length b = (HEADER_LEN + length olds * 8 + length news * 8 + length trailing)%nat)
    by (rewrite Hb, length_app, Hhead, !length_app, !length_encode_peers; lia).
  rewrite Hlen, (proj2 (Nat.ltb_ge _ _)) by lia.
  assert (Hat : forall i x, h !! i = Some x -> byte_at i b = of_byte x).
  { intros i x Hx. unfold byte_at, b. rewrite <- !app_assoc.
    rewrite lookup_app_l by (by apply lookup_lt_Some in Hx). by rewrite Hx. }
  rewrite (Hat 0%nat _ eq_refl), (Hat 1%nat _ eq_refl), (Hat 2%nat _ eq_refl).
  rewrite !of_to_byte by (destruct phase; by vm_compute).
  rewrite !Z.eqb_refl, phase_of_phase_byte. cbn [negb].
  assert (E1 : take 4 (drop 4 b) = lo).
  { rewrite Hb, <- !app_assoc, drop_app_exact by done.
    apply take_app_exact. unfold lo. by rewrite length_le_bytes. }
  assert (E2 : take 4 (drop 8 b) = ln).
  { rewrite Hb, <- !app_assoc. rewrite (app_assoc h lo).
    rewrite drop_app_exact by (unfold lo; by rewrite length_app, length_le_bytes).
    apply take_app_exact. unfold ln. by rewrite length_le_bytes. }
  rewrite E1, E2. unfold lo, ln.
  rewrite !le_value_bytes, !Nat2Z.id by (machine; lia).
  rewrite (proj2 (Nat.ltb_ge _ _)) by lia. fold lo ln.
  rewrite Hb, read_peers_encoded by done.
  rewrite app_assoc, read_peers_encoded; [done|done|].
  by rewrite length_app, length_encode_peers, Hhead.
Qed.

(** Configuration entries survive the log: decoding the encoding of an
    entry gives the entry back, and the leader no-op is never read as a
    configuration entry. *)
Theorem config_entry_roundtrip e :
  config_entry_wf e ->
  config_decode (config_encode e) = Some e /\ is_noop_entry (config_encode e) = false /\
  config_decode noop_entry = None.
Proof.
  intros He. split; [|split; [|done]].
  - rewrite <- (app_nil_r (config_encode e)). by apply config_decode_encode.
  - unfold is_noop_entry. apply bool_decide_eq_false. intros Heq.
    apply (f_equal length) in Heq. unfold config_encode in Heq.
    rewrite !length_app, !length_le_bytes in Heq. simpl in Heq. lia.
Qed.

Definition sample_config : ConfigChangeEntry :=
  {| cc_phase := Joint; old_peers := [1; 2; 3]; new_peers := [2; 3; 4] |}.

Lemma sample_config_wf : config_entry_wf sample_config.
Proof. unfold config_entry_wf, sample_config. machine. repeat constructor; cbn; lia. Qed.

Lemma config_entry_roundtrip_witness : config_decode (config_encode sample_config) = Some sample_config.
Proof. exact (proj1 (config_entry_roundtrip sample_config sample_config_wf)). Defined.

(** A payload the client guard accepts fits a frame and is never
    interpreted as a control entry by the log. *)
Theorem client_payload_not_control payload :
  reject_reserved_prefix payload = Ok tt ->
  Z.of_nat (length payload) <= MAX_ENTRY_PAYLOAD /\
  config_decode payload = None /\ is_noop_entry payload = false.
Proof.
  unfold reject_reserved_prefix. destruct (Z.ltb_spec MAX_ENTRY_PAYLOAD (Z.of_nat (length payload)));
    [done|].
  destruct payload as [|b p]; intros Hp; [done|].
  destruct (Z.eqb_spec (of_byte b) CONFIG_CHANGE_MAGIC) as [|Hne]; [done|].
  split; [done|]. split.
  - unfold config_decode. destruct (_ <? _)%nat; [done|]. unfold byte_at at 1. cbn [lookup list_lookup].
    by destruct (Z.eqb_spec (of_byte b) CONFIG_CHANGE_MAGIC).
  - unfold is_noop_entry. apply bool_decide_eq_false. intros [= -> _].
    apply Hne. by rewrite of_to_byte by (by vm_compute).
Qed.

Lemma client_payload_not_control_witness :
  reject_reserved_prefix [to_byte 1; to_byte 192] = Ok tt /\
  config_decode [to_byte 1; to_byte 192] = None.
Proof.
  split; [reflexivity|].
  exact (proj1 (proj2 (client_payload_not_control [to_byte 1; to_byte 192] eq_refl))).
Defined.
