(* ===== verification/NodeState.v ===== *)
(** * NodeState: the node, its fields and the monad of its methods

    Models [RaftNode] and [RaftMetrics] of [src/api/node/mod.rs].  A method
    [&mut self -> Result<A, RaftError>] is a function from the node to a result
    and the node after it; the node is kept on the error path too, since Rust
    does not roll back a [&mut self] when [?] returns early.

    The scratch vectors whose contents never outlive a call (the capacity docks
    of [scratch.rs], [scratch_commit_acks],
    [scratch_responders], [scratch_payload], [scratch_quorum_buf]) are local
    values of the methods; [scratch_outbound], whose length bounds what can be
    encoded, and [scratch_peers], which one loop reads while the methods it calls
    refill it, are fields. The clock ([Instant::now]) is a field, and the custom
    registry with the pending dispatches is the field [dispatch]. *)

From stdpp Require Import base list sets gmap strings.
From Stdlib Require Import ZArith Lia.
From S2P Require Import Prelude Types Wire Codec Arena Progress Quorum Traits Membership.

Local Open Scope Z_scope.

(** ** Lifecycle counters ([fetch_add] on an [AtomicU64] wraps) *)

Record RaftMetrics := {
  m_elections_started : Z;
  m_elections_won : Z;
  m_step_downs : Z;
  m_config_changes_applied : Z;
  m_frames_dropped_nonfatal : Z;
  m_snapshots_evicted : Z;
  m_snapshot_installs_refused : Z;
  m_log_compactions : Z;
  m_peers_jailed : Z;
  m_frames_shed_jailed : Z;
  m_resource_exhausted : Z;
}.

Definition RaftMetrics_default : RaftMetrics := Build_RaftMetrics 0 0 0 0 0 0 0 0 0 0 0.

Definition inc_elections_started (m : RaftMetrics) : RaftMetrics := Build_RaftMetrics
  (wrap_add64 (m_elections_started m) 1) (m_elections_won m) (m_step_downs m)
  (m_config_changes_applied m) (m_frames_dropped_nonfatal m) (m_snapshots_evicted m)
  (m_snapshot_installs_refused m) (m_log_compactions m) (m_peers_jailed m)
  (m_frames_shed_jailed m) (m_resource_exhausted m).

Definition inc_elections_won (m : RaftMetrics) : RaftMetrics := Build_RaftMetrics
  (m_elections_started m) (wrap_add64 (m_elections_won m) 1) (m_step_downs m)
  (m_config_changes_applied m) (m_frames_dropped_nonfatal m) (m_snapshots_evicted m)
  (m_snapshot_installs_refused m) (m_log_compactions m) (m_peers_jailed m)
  (m_frames_shed_jailed m) (m_resource_exhausted m).

Definition inc_step_downs (m : RaftMetrics) : RaftMetrics := Build_RaftMetrics
  (m_elections_started m) (m_elections_won m) (wrap_add64 (m_step_downs m) 1)
  (m_config_changes_applied m) (m_frames_dropped_nonfatal m) (m_snapshots_evicted m)
  (m_snapshot_installs_refused m) (m_log_compactions m) (m_peers_jailed m)
  (m_frames_shed_jailed m) (m_resource_exhausted m).

Definition inc_config_changes_applied (m : RaftMetrics) : RaftMetrics := Build_RaftMetrics
  (m_elections_started m) (m_elections_won m) (m_step_downs m)
  (wrap_add64 (m_config_changes_applied m) 1) (m_frames_dropped_nonfatal m)
  (m_snapshots_evicted m) (m_snapshot_installs_refused m) (m_log_compactions m)
  (m_peers_jailed m) (m_frames_shed_jailed m) (m_resource_exhausted m).

Definition inc_frames_dropped_nonfatal (m : RaftMetrics) : RaftMetrics := Build_RaftMetrics
  (m_elections_started m) (m_elections_won m) (m_step_downs m) (m_config_changes_applied m)
  (wrap_add64 (m_frames_dropped_nonfatal m) 1) (m_snapshots_evicted m)
  (m_snapshot_installs_refused m) (m_log_compactions m) (m_peers_jailed m)
  (m_frames_shed_jailed m) (m_resource_exhausted m).

Definition inc_snapshots_evicted (m : RaftMetrics) : RaftMetrics := Build_RaftMetrics
  (m_elections_started m) (m_elections_won m) (m_step_downs m) (m_config_changes_applied m)
  (m_frames_dropped_nonfatal m) (wrap_add64 (m_snapshots_evicted m) 1)
  (m_snapshot_installs_refused m) (m_log_compactions m) (m_peers_jailed m)
  (m_frames_shed_jailed m) (m_resource_exhausted m).

Definition inc_snapshot_installs_refused (m : RaftMetrics) : RaftMetrics := Build_RaftMetrics
  (m_elections_started m) (m_elections_won m) (m_step_downs m) (m_config_changes_applied m)
  (m_frames_dropped_nonfatal m) (m_snapshots_evicted m)
  (wrap_add64 (m_snapshot_installs_refused m) 1) (m_log_compactions m) (m_peers_jailed m)
  (m_frames_shed_jailed m) (m_resource_exhausted m).

Definition inc_log_compactions (m : RaftMetrics) : RaftMetrics := Build_RaftMetrics
  (m_elections_started m) (m_elections_won m) (m_step_downs m) (m_config_changes_applied m)
  (m_frames_dropped_nonfatal m) (m_snapshots_evicted m) (m_snapshot_installs_refused m)
  (wrap_add64 (m_log_compactions m) 1) (m_peers_jailed m) (m_frames_shed_jailed m)
  (m_resource_exhausted m).

Definition inc_peers_jailed (m : RaftMetrics) : RaftMetrics := Build_RaftMetrics
  (m_elections_started m) (m_elections_won m) (m_step_downs m) (m_config_changes_applied m)
  (m_frames_dropped_nonfatal m) (m_snapshots_evicted m) (m_snapshot_installs_refused m)
  (m_log_compactions m) (wrap_add64 (m_peers_jailed m) 1) (m_frames_shed_jailed m)
  (m_resource_exhausted m).

Definition inc_frames_shed_jailed (m : RaftMetrics) : RaftMetrics := Build_RaftMetrics
  (m_elections_started m) (m_elections_won m) (m_step_downs m) (m_config_changes_applied m)
  (m_frames_dropped_nonfatal m) (m_snapshots_evicted m) (m_snapshot_installs_refused m)
  (m_log_compactions m) (m_peers_jailed m) (wrap_add64 (m_frames_shed_jailed m) 1)
  (m_resource_exhausted m).

Definition inc_resource_exhausted (m : RaftMetrics) : RaftMetrics := Build_RaftMetrics
  (m_elections_started m) (m_elections_won m) (m_step_downs m) (m_config_changes_applied m)
  (m_frames_dropped_nonfatal m) (m_snapshots_evicted m) (m_snapshot_installs_refused m)
  (m_log_compactions m) (m_peers_jailed m) (m_frames_shed_jailed m)
  (wrap_add64 (m_resource_exhausted m) 1).

Record PendingTransfer := { pt_target : PeerId; pt_deadline : Z }.

(** ** The node *)

Record RaftNode (S T C D : Type) := {
  config : NodeConfig;
  storage : S;
  transport : T;
  clock : C;
  dispatch : D;
  hard_state : HardState;
  soft_state : SoftState;
  peer_progress : PeerMap PeerProgress;
  joint_peers : option (list PeerId * list PeerId);
  pending_snapshots : gmap Z PendingSnapshot;
  snapshot_attempts : gmap Z SnapshotAttempts;
  log_metadata : LogMetadataArena;
  scratch_indexes : list LogIndex;
  scratch_pending : PeerMap AppendAttemptState;
  scratch_peers : list PeerId;
  last_voter_contact : gmap Z Z;
  scratch_outbound : bytes;
  cached_last_log : LogIndex * Term;
  snapshot_boundary : LogIndex * Term;
  commit_index_pub : LogIndex;
  metrics : RaftMetrics;
  last_applied : LogIndex;
  compaction_debt_entries : Z;
  compaction_debt_bytes : Z;
  last_leader_contact : option Z;
  pending_transfer : option PendingTransfer;
  forced_campaign_term : option Term;
  read_probe_seq : Z;
}.
Arguments config {S T C D} r.
Arguments storage {S T C D} r.
Arguments transport {S T C D} r.
Arguments clock {S T C D} r.
Arguments dispatch {S T C D} r.
Arguments hard_state {S T C D} r.
Arguments soft_state {S T C D} r.
Arguments peer_progress {S T C D} r.
Arguments joint_peers {S T C D} r.
Arguments pending_snapshots {S T C D} r.
Arguments snapshot_attempts {S T C D} r.
Arguments log_metadata {S T C D} r.
Arguments scratch_indexes {S T C D} r.
Arguments scratch_pending {S T C D} r.
Arguments scratch_peers {S T C D} r.
Arguments last_voter_contact {S T C D} r.
Arguments scratch_outbound {S T C D} r.
Arguments cached_last_log {S T C D} r.
Arguments snapshot_boundary {S T C D} r.
Arguments commit_index_pub {S T C D} r.
Arguments metrics {S T C D} r.
Arguments last_applied {S T C D} r.
Arguments compaction_debt_entries {S T C D} r.
Arguments compaction_debt_bytes {S T C D} r.
Arguments last_leader_contact {S T C D} r.
Arguments pending_transfer {S T C D} r.
Arguments forced_campaign_term {S T C D} r.
Arguments read_probe_seq {S T C D} r.
Arguments Build_RaftNode {S T C D}.

Section Setters.
Context {S T C D : Type}.
Implicit Types n : RaftNode S T C D.

Definition set_config (v : NodeConfig) n : RaftNode S T C D := Build_RaftNode
  v (storage n) (transport n) (clock n) (dispatch n) (hard_state n) (soft_state n)
  (peer_progress n) (joint_peers n) (pending_snapshots n) (snapshot_attempts n)
  (log_metadata n) (scratch_indexes n) (scratch_pending n) (scratch_peers n)
  (last_voter_contact n) (scratch_outbound n) (cached_last_log n) (snapshot_boundary n)
  (commit_index_pub n) (metrics n) (last_applied n) (compaction_debt_entries n)
  (compaction_debt_bytes n) (last_leader_contact n) (pending_transfer n)
  (forced_campaign_term n) (read_probe_seq n).
Definition set_storage (v : S) n : RaftNode S T C D := Build_RaftNode
  (config n) v (transport n) (clock n) (dispatch n) (hard_state n) (soft_state n)
  (peer_progress n) (joint_peers n) (pending_snapshots n) (snapshot_attempts n)
  (log_metadata n) (scratch_indexes n) (scratch_pending n) (scratch_peers n)
  (last_voter_contact n) (scratch_outbound n) (cached_last_log n) (snapshot_boundary n)
  (commit_index_pub n) (metrics n) (last_applied n) (compaction_debt_entries n)
  (compaction_debt_bytes n) (last_leader_contact n) (pending_transfer n)
  (forced_campaign_term n) (read_probe_seq n).
Definition set_transport (v : T) n : RaftNode S T C D := Build_RaftNode
  (config n) (storage n) v (clock n) (dispatch n) (hard_state n) (soft_state n)
  (peer_progress n) (joint_peers n) (pending_snapshots n) (snapshot_attempts n)
  (log_metadata n) (scratch_indexes n) (scratch_pending n) (scratch_peers n)
  (last_voter_contact n) (scratch_outbound n) (cached_last_log n) (snapshot_boundary n)
  (commit_index_pub n) (metrics n) (last_applied n) (compaction_debt_entries n)
  (compaction_debt_bytes n) (last_leader_contact n) (pending_transfer n)
  (forced_campaign_term n) (read_probe_seq n).
Definition set_clock (v : C) n : RaftNode S T C D := Build_RaftNode
  (config n) (storage n) (transport n) v (dispatch n) (hard_state n) (soft_state n)
  (peer_progress n) (joint_peers n) (pending_snapshots n) (snapshot_attempts n)
  (log_metadata n) (scratch_indexes n) (scratch_pending n) (scratch_peers n)
  (last_voter_contact n) (scratch_outbound n) (cached_last_log n) (snapshot_boundary n)
  (commit_index_pub n) (metrics n) (last_applied n) (compaction_debt_entries n)
  (compaction_debt_bytes n) (last_leader_contact n) (pending_transfer n)
  (forced_campaign_term n) (read_probe_seq n).
Definition set_dispatch (v : D) n : RaftNode S T C D := Build_RaftNode
  (config n) (storage n) (transport n) (clock n) v (hard_state n) (soft_state n)
  (peer_progress n) (joint_peers n) (pending_snapshots n) (snapshot_attempts n)
  (log_metadata n) (scratch_indexes n) (scratch_pending n) (scratch_peers n)
  (last_voter_contact n) (scratch_outbound n) (cached_last_log n) (snapshot_boundary n)
  (commit_index_pub n) (metrics n) (last_applied n) (compaction_debt_entries n)
  (compaction_debt_bytes n) (last_leader_contact n) (pending_transfer n)
  (forced_campaign_term n) (read_probe_seq n).
Definition set_hard_state (v : HardState) n : RaftNode S T C D := Build_RaftNode
  (config n) (storage n) (transport n) (clock n) (dispatch n) v (soft_state n)
  (peer_progress n) (joint_peers n) (pending_snapshots n) (snapshot_attempts n)
  (log_metadata n) (scratch_indexes n) (scratch_pending n) (scratch_peers n)
  (last_voter_contact n) (scratch_outbound n) (cached_last_log n) (snapshot_boundary n)
  (commit_index_pub n) (metrics n) (last_applied n) (compaction_debt_entries n)
  (compaction_debt_bytes n) (last_leader_contact n) (pending_transfer n)
  (forced_campaign_term n) (read_probe_seq n).
Definition set_soft_state (v : SoftState) n : RaftNode S T C D := Build_RaftNode
  (config n) (storage n) (transport n) (clock n) (dispatch n) (hard_state n) v
  (peer_progress n) (joint_peers n) (pending_snapshots n) (snapshot_attempts n)
  (log_metadata n) (scratch_indexes n) (scratch_pending n) (scratch_peers n)
  (last_voter_contact n) (scratch_outbound n) (cached_last_log n) (snapshot_boundary n)
  (commit_index_pub n) (metrics n) (last_applied n) (compaction_debt_entries n)
  (compaction_debt_bytes n) (last_leader_contact n) (pending_transfer n)
  (forced_campaign_term n) (read_probe_seq n).
Definition set_peer_progress (v : PeerMap PeerProgress) n : RaftNode S T C D := Build_RaftNode
  (config n) (storage n) (transport n) (clock n) (dispatch n) (hard_state n) (soft_state n) v
  (joint_peers n) (pending_snapshots n) (snapshot_attempts n) (log_metadata n)
  (scratch_indexes n) (scratch_pending n) (scratch_peers n) (last_voter_contact n)
  (scratch_outbound n) (cached_last_log n) (snapshot_boundary n) (commit_index_pub n)
  (metrics n) (last_applied n) (compaction_debt_entries n) (compaction_debt_bytes n)
  (last_leader_contact n) (pending_transfer n) (forced_campaign_term n) (read_probe_seq n).
Definition set_joint_peers (v : option (list PeerId * list PeerId)) n : RaftNode S T C D := Build_RaftNode
  (config n) (storage n) (transport n) (clock n) (dispatch n) (hard_state n) (soft_state n)
  (peer_progress n) v (pending_snapshots n) (snapshot_attempts n) (log_metadata n)
  (scratch_indexes n) (scratch_pending n) (scratch_peers n) (last_voter_contact n)
  (scratch_outbound n) (cached_last_log n) (snapshot_boundary n) (commit_index_pub n)
  (metrics n) (last_applied n) (compaction_debt_entries n) (compaction_debt_bytes n)
  (last_leader_contact n) (pending_transfer n) (forced_campaign_term n) (read_probe_seq n).
Definition set_pending_snapshots (v : gmap Z PendingSnapshot) n : RaftNode S T C D := Build_RaftNode
  (config n) (storage n) (transport n) (clock n) (dispatch n) (hard_state n) (soft_state n)
  (peer_progress n) (joint_peers n) v (snapshot_attempts n) (log_metadata n)
  (scratch_indexes n) (scratch_pending n) (scratch_peers n) (last_voter_contact n)
  (scratch_outbound n) (cached_last_log n) (snapshot_boundary n) (commit_index_pub n)
  (metrics n) (last_applied n) (compaction_debt_entries n) (compaction_debt_bytes n)
  (last_leader_contact n) (pending_transfer n) (forced_campaign_term n) (read_probe_seq n).
Definition set_snapshot_attempts (v : gmap Z SnapshotAttempts) n : RaftNode S T C D := Build_RaftNode
  (config n) (storage n) (transport n) (clock n) (dispatch n) (hard_state n) (soft_state n)
  (peer_progress n) (joint_peers n) (pending_snapshots n) v (log_metadata n)
  (scratch_indexes n) (scratch_pending n) (scratch_peers n) (last_voter_contact n)
  (scratch_outbound n) (cached_last_log n) (snapshot_boundary n) (commit_index_pub n)
  (metrics n) (last_applied n) (compaction_debt_entries n) (compaction_debt_bytes n)
  (last_leader_contact n) (pending_transfer n) (forced_campaign_term n) (read_probe_seq n).
Definition set_log_metadata (v : LogMetadataArena) n : RaftNode S T C D := Build_RaftNode
  (config n) (storage n) (transport n) (clock n) (dispatch n) (hard_state n) (soft_state n)
  (peer_progress n) (joint_peers n) (pending_snapshots n) (snapshot_attempts n) v
  (scratch_indexes n) (scratch_pending n) (scratch_peers n) (last_voter_contact n)
  (scratch_outbound n) (cached_last_log n) (snapshot_boundary n) (commit_index_pub n)
  (metrics n) (last_applied n) (compaction_debt_entries n) (compaction_debt_bytes n)
  (last_leader_contact n) (pending_transfer n) (forced_campaign_term n) (read_probe_seq n).
Definition set_scratch_indexes (v : list LogIndex) n : RaftNode S T C D := Build_RaftNode
  (config n) (storage n) (transport n) (clock n) (dispatch n) (hard_state n) (soft_state n)
  (peer_progress n) (joint_peers n) (pending_snapshots n) (snapshot_attempts n)
  (log_metadata n) v (scratch_pending n) (scratch_peers n) (last_voter_contact n)
  (scratch_outbound n) (cached_last_log n) (snapshot_boundary n) (commit_index_pub n)
  (metrics n) (last_applied n) (compaction_debt_entries n) (compaction_debt_bytes n)
  (last_leader_contact n) (pending_transfer n) (forced_campaign_term n) (read_probe_seq n).
Definition set_scratch_pending (v : PeerMap AppendAttemptState) n : RaftNode S T C D := Build_RaftNode
  (config n) (storage n) (transport n) (clock n) (dispatch n) (hard_state n) (soft_state n)
  (peer_progress n) (joint_peers n) (pending_snapshots n) (snapshot_attempts n)
  (log_metadata n) (scratch_indexes n) v (scratch_peers n) (last_voter_contact n)
  (scratch_outbound n) (cached_last_log n) (snapshot_boundary n) (commit_index_pub n)
  (metrics n) (last_applied n) (compaction_debt_entries n) (compaction_debt_bytes n)
  (last_leader_contact n) (pending_transfer n) (forced_campaign_term n) (read_probe_seq n).
Definition set_scratch_peers (v : list PeerId) n : RaftNode S T C D := Build_RaftNode
  (config n) (storage n) (transport n) (clock n) (dispatch n) (hard_state n) (soft_state n)
  (peer_progress n) (joint_peers n) (pending_snapshots n) (snapshot_attempts n)
  (log_metadata n) (scratch_indexes n) (scratch_pending n) v (last_voter_contact n)
  (scratch_outbound n) (cached_last_log n) (snapshot_boundary n) (commit_index_pub n)
  (metrics n) (last_applied n) (compaction_debt_entries n) (compaction_debt_bytes n)
  (last_leader_contact n) (pending_transfer n) (forced_campaign_term n) (read_probe_seq n).
Definition set_last_voter_contact (v : gmap Z Z) n : RaftNode S T C D := Build_RaftNode
  (config n) (storage n) (transport n) (clock n) (dispatch n) (hard_state n) (soft_state n)
  (peer_progress n) (joint_peers n) (pending_snapshots n) (snapshot_attempts n)
  (log_metadata n) (scratch_indexes n) (scratch_pending n) (scratch_peers n) v
  (scratch_outbound n) (cached_last_log n) (snapshot_boundary n) (commit_index_pub n)
  (metrics n) (last_applied n) (compaction_debt_entries n) (compaction_debt_bytes n)
  (last_leader_contact n) (pending_transfer n) (forced_campaign_term n) (read_probe_seq n).
Definition set_scratch_outbound (v : bytes) n : RaftNode S T C D := Build_RaftNode
  (config n) (storage n) (transport n) (clock n) (dispatch n) (hard_state n) (soft_state n)
  (peer_progress n) (joint_peers n) (pending_snapshots n) (snapshot_attempts n)
  (log_metadata n) (scratch_indexes n) (scratch_pending n) (scratch_peers n)
  (last_voter_contact n) v (cached_last_log n) (snapshot_boundary n) (commit_index_pub n)
  (metrics n) (last_applied n) (compaction_debt_entries n) (compaction_debt_bytes n)
  (last_leader_contact n) (pending_transfer n) (forced_campaign_term n) (read_probe_seq n).
Definition set_cached_last_log (v : LogIndex * Term) n : RaftNode S T C D := Build_RaftNode
  (config n) (storage n) (transport n) (clock n) (dispatch n) (hard_state n) (soft_state n)
  (peer_progress n) (joint_peers n) (pending_snapshots n) (snapshot_attempts n)
  (log_metadata n) (scratch_indexes n) (scratch_pending n) (scratch_peers n)
  (last_voter_contact n) (scratch_outbound n) v (snapshot_boundary n) (commit_index_pub n)
  (metrics n) (last_applied n) (compaction_debt_entries n) (compaction_debt_bytes n)
  (last_leader_contact n) (pending_transfer n) (forced_campaign_term n) (read_probe_seq n).
Definition set_snapshot_boundary (v : LogIndex * Term) n : RaftNode S T C D := Build_RaftNode
  (config n) (storage n) (transport n) (clock n) (dispatch n) (hard_state n) (soft_state n)
  (peer_progress n) (joint_peers n) (pending_snapshots n) (snapshot_attempts n)
  (log_metadata n) (scratch_indexes n) (scratch_pending n) (scratch_peers n)
  (last_voter_contact n) (scratch_outbound n) (cached_last_log n) v (commit_index_pub n)
  (metrics n) (last_applied n) (compaction_debt_entries n) (compaction_debt_bytes n)
  (last_leader_contact n) (pending_transfer n) (forced_campaign_term n) (read_probe_seq n).
Definition set_commit_index_pub (v : LogIndex) n : RaftNode S T C D := Build_RaftNode
  (config n) (storage n) (transport n) (clock n) (dispatch n) (hard_state n) (soft_state n)
  (peer_progress n) (joint_peers n) (pending_snapshots n) (snapshot_attempts n)
  (log_metadata n) (scratch_indexes n) (scratch_pending n) (scratch_peers n)
  (last_voter_contact n) (scratch_outbound n) (cached_last_log n) (snapshot_boundary n) v
  (metrics n) (last_applied n) (compaction_debt_entries n) (compaction_debt_bytes n)
  (last_leader_contact n) (pending_transfer n) (forced_campaign_term n) (read_probe_seq n).
Definition set_metrics (v : RaftMetrics) n : RaftNode S T C D := Build_RaftNode
  (config n) (storage n) (transport n) (clock n) (dispatch n) (hard_state n) (soft_state n)
  (peer_progress n) (joint_peers n) (pending_snapshots n) (snapshot_attempts n)
  (log_metadata n) (scratch_indexes n) (scratch_pending n) (scratch_peers n)
  (last_voter_contact n) (scratch_outbound n) (cached_last_log n) (snapshot_boundary n)
  (commit_index_pub n) v (last_applied n) (compaction_debt_entries n)
  (compaction_debt_bytes n) (last_leader_contact n) (pending_transfer n)
  (forced_campaign_term n) (read_probe_seq n).
Definition set_last_applied (v : LogIndex) n : RaftNode S T C D := Build_RaftNode
  (config n) (storage n) (transport n) (clock n) (dispatch n) (hard_state n) (soft_state n)
  (peer_progress n) (joint_peers n) (pending_snapshots n) (snapshot_attempts n)
  (log_metadata n) (scratch_indexes n) (scratch_pending n) (scratch_peers n)
  (last_voter_contact n) (scratch_outbound n) (cached_last_log n) (snapshot_boundary n)
  (commit_index_pub n) (metrics n) v (compaction_debt_entries n) (compaction_debt_bytes n)
  (last_leader_contact n) (pending_transfer n) (forced_campaign_term n) (read_probe_seq n).
Definition set_compaction_debt_entries (v : Z) n : RaftNode S T C D := Build_RaftNode
  (config n) (storage n) (transport n) (clock n) (dispatch n) (hard_state n) (soft_state n)
  (peer_progress n) (joint_peers n) (pending_snapshots n) (snapshot_attempts n)
  (log_metadata n) (scratch_indexes n) (scratch_pending n) (scratch_peers n)
  (last_voter_contact n) (scratch_outbound n) (cached_last_log n) (snapshot_boundary n)
  (commit_index_pub n) (metrics n) (last_applied n) v (compaction_debt_bytes n)
  (last_leader_contact n) (pending_transfer n) (forced_campaign_term n) (read_probe_seq n).
Definition set_compaction_debt_bytes (v : Z) n : RaftNode S T C D := Build_RaftNode
  (config n) (storage n) (transport n) (clock n) (dispatch n) (hard_state n) (soft_state n)
  (peer_progress n) (joint_peers n) (pending_snapshots n) (snapshot_attempts n)
  (log_metadata n) (scratch_indexes n) (scratch_pending n) (scratch_peers n)
  (last_voter_contact n) (scratch_outbound n) (cached_last_log n) (snapshot_boundary n)
  (commit_index_pub n) (metrics n) (last_applied n) (compaction_debt_entries n) v
  (last_leader_contact n) (pending_transfer n) (forced_campaign_term n) (read_probe_seq n).
Definition set_last_leader_contact (v : option Z) n : RaftNode S T C D := Build_RaftNode
  (config n) (storage n) (transport n) (clock n) (dispatch n) (hard_state n) (soft_state n)
  (peer_progress n) (joint_peers n) (pending_snapshots n) (snapshot_attempts n)
  (log_metadata n) (scratch_indexes n) (scratch_pending n) (scratch_peers n)
  (last_voter_contact n) (scratch_outbound n) (cached_last_log n) (snapshot_boundary n)
  (commit_index_pub n) (metrics n) (last_applied n) (compaction_debt_entries n)
  (compaction_debt_bytes n) v (pending_transfer n) (forced_campaign_term n) (read_probe_seq n).
Definition set_pending_transfer (v : option PendingTransfer) n : RaftNode S T C D := Build_RaftNode
  (config n) (storage n) (transport n) (clock n) (dispatch n) (hard_state n) (soft_state n)
  (peer_progress n) (joint_peers n) (pending_snapshots n) (snapshot_attempts n)
  (log_metadata n) (scratch_indexes n) (scratch_pending n) (scratch_peers n)
  (last_voter_contact n) (scratch_outbound n) (cached_last_log n) (snapshot_boundary n)
  (commit_index_pub n) (metrics n) (last_applied n) (compaction_debt_entries n)
  (compaction_debt_bytes n) (last_leader_contact n) v (forced_campaign_term n)
  (read_probe_seq n).
Definition set_forced_campaign_term (v : option Term) n : RaftNode S T C D := Build_RaftNode
  (config n) (storage n) (transport n) (clock n) (dispatch n) (hard_state n) (soft_state n)
  (peer_progress n) (joint_peers n) (pending_snapshots n) (snapshot_attempts n)
  (log_metadata n) (scratch_indexes n) (scratch_pending n) (scratch_peers n)
  (last_voter_contact n) (scratch_outbound n) (cached_last_log n) (snapshot_boundary n)
  (commit_index_pub n) (metrics n) (last_applied n) (compaction_debt_entries n)
  (compaction_debt_bytes n) (last_leader_contact n) (pending_transfer n) v (read_probe_seq n).
Definition set_read_probe_seq (v : Z) n : RaftNode S T C D := Build_RaftNode
  (config n) (storage n) (transport n) (clock n) (dispatch n) (hard_state n) (soft_state n)
  (peer_progress n) (joint_peers n) (pending_snapshots n) (snapshot_attempts n)
  (log_metadata n) (scratch_indexes n) (scratch_pending n) (scratch_peers n)
  (last_voter_contact n) (scratch_outbound n) (cached_last_log n) (snapshot_boundary n)
  (commit_index_pub n) (metrics n) (last_applied n) (compaction_debt_entries n)
  (compaction_debt_bytes n) (last_leader_contact n) (pending_transfer n)
  (forced_campaign_term n) v.
End Setters.
(** Projections of an updated node reduce. *)
Ltac node_simpl :=
  cbn [config storage transport clock dispatch hard_state soft_state peer_progress joint_peers
       pending_snapshots snapshot_attempts log_metadata scratch_indexes scratch_pending scratch_peers
       last_voter_contact scratch_outbound cached_last_log snapshot_boundary commit_index_pub
       metrics last_applied compaction_debt_entries compaction_debt_bytes last_leader_contact
       pending_transfer forced_campaign_term read_probe_seq
       set_config set_storage set_transport set_clock set_dispatch set_hard_state
       set_soft_state set_peer_progress set_joint_peers set_pending_snapshots
       set_snapshot_attempts set_log_metadata set_scratch_indexes set_scratch_pending set_scratch_peers
       set_last_voter_contact set_scratch_outbound set_cached_last_log set_snapshot_boundary
       set_commit_index_pub set_metrics set_last_applied set_compaction_debt_entries
       set_compaction_debt_bytes set_last_leader_contact set_pending_transfer
       set_forced_campaign_term set_read_probe_seq] in *.

(** ** The monad of the methods *)

Section Monad.
Context {S T C D : Type}.

Definition M (A : Type) : Type := RaftNode S T C D -> res A * RaftNode S T C D.

#[global] Instance M_ret : MRet M := fun A a n => (Ok a, n).
#[global] Instance M_bind : MBind M := fun A B k m n =>
  match m n with
  | (Ok a, n') => k a n'
  | (Err e, n') => (Err e, n')
  end.

Definition err {A} (e : RaftError) : M A := fun n => (Err e, n).
Definition gets {A} (f : RaftNode S T C D -> A) : M A := fun n => (Ok (f n), n).
Definition modify (f : RaftNode S T C D -> RaftNode S T C D) : M unit := fun n => (Ok tt, f n).
Definition from_res {A} (r : res A) : M A := fun n => (r, n).

(** Run [m] for its effect and keep its result as a value. *)
Definition attempt {A} (m : M A) : M (res A) :=
  fun n => match m n with (r, n') => (Ok r, n') end.

(** [if c { m }] *)
Definition whenM (c : bool) (m : M unit) : M unit := if c then m else mret tt.

(** A call on the storage, the transport or the clock. *)
Definition on_storage {A} (op : S -> res A * S) : M A :=
  fun n => let '(r, s) := op (storage n) in (r, set_storage s n).
Definition on_transport {A} (op : T -> res A * T) : M A :=
  fun n => let '(r, t) := op (transport n) in (r, set_transport t n).
Definition now `{Clock C} : M Z :=
  fun n => let '(t, c) := clock_now (clock n) in (Ok t, set_clock c n).
Definition on_metrics (f : RaftMetrics -> RaftMetrics) : M unit :=
  modify (fun n => set_metrics (f (metrics n)) n).
End Monad.
Arguments M S T C D A : clear implicits.

#[global] Typeclasses Opaque M.

(** [for x in l { body }], stopping at the first error. *)
Fixpoint for_each {S T C D X} (l : list X) (body : X -> M S T C D unit) : M S T C D unit :=
  match l with
  | [] => mret tt
  | x :: l' => body x ;; for_each l' body
  end.

(** ** Reasoning about methods

    [wp m n Q]: running [m] from [n] ends with a result and a node that
    satisfy [Q].  Methods are total, so this is also their termination. *)

Section Reasoning.
Context {S T C D : Type}.
Implicit Types n : RaftNode S T C D.

Definition wp {A} (m : M S T C D A) n (Q : res A -> RaftNode S T C D -> Prop) : Prop :=
  Q (m n).1 (m n).2.

Lemma wp_intro {A} (m : M S T C D A) n Q :
  (forall r n', m n = (r, n') -> Q r n') -> wp m n Q.
Proof. intros H. unfold wp. destruct (m n) eqn:E. by apply H. Qed.

Lemma wp_elim {A} (m : M S T C D A) n Q r n' : wp m n Q -> m n = (r, n') -> Q r n'.
Proof. unfold wp. intros H E. by rewrite E in H. Qed.

Lemma wp_mono {A} (m : M S T C D A) n (Q Q' : res A -> RaftNode S T C D -> Prop) :
  wp m n Q -> (forall r n', m n = (r, n') -> Q r n' -> Q' r n') -> wp m n Q'.
Proof.
  intros H HQ. apply wp_intro. intros r n' E. eapply HQ; [done|]. by apply (wp_elim _ _ _ _ _ H).
Qed.

Lemma wp_ret {A} (a : A) n Q : Q (Ok a) n -> wp (mret a) n Q.
Proof. done. Qed.

Lemma wp_err {A} e n (Q : res A -> _ -> Prop) : Q (Err e) n -> wp (err e) n Q.
Proof. done. Qed.

Lemma wp_gets {A} (f : RaftNode S T C D -> A) n Q : Q (Ok (f n)) n -> wp (gets f) n Q.
Proof. done. Qed.

Lemma wp_modify f n Q : Q (Ok tt) (f n) -> wp (modify f) n Q.
Proof. done. Qed.

Lemma wp_from_res {A} (r : res A) n Q : Q r n -> wp (from_res r) n Q.
Proof. done. Qed.

Lemma wp_bind {A B} (m : M S T C D A) (k : A -> M S T C D B) n Q :
  wp m n (fun r n' => match r with Ok a => wp (k a) n' Q | Err e => Q (Err e) n' end) ->
  wp (m ≫= k) n Q.
Proof.
  unfold wp, mbind, M_bind. by destruct (m n) as [[a|e] n'].
Qed.

Lemma bind_modify {B} f (k : unit -> M S T C D B) n : (modify f ≫= k) n = k tt (f n).
Proof. done. Qed.

Lemma bind_gets {A B} (f : _ -> A) (k : A -> M S T C D B) n : (gets f ≫= k) n = k (f n) n.
Proof. done. Qed.

Lemma bind_ret {A B} (a : A) (k : A -> M S T C D B) n : (mret a ≫= k) n = k a n.
Proof. done. Qed.

Lemma bind_assoc {A B E} (m : M S T C D A) (k : A -> M S T C D B) (k' : B -> M S T C D E) n :
  ((m ≫= k) ≫= k') n = (m ≫= fun a => k a ≫= k') n.
Proof. unfold mbind, M_bind. by destruct (m n) as [[a|e] n']. Qed.

Lemma bind_ext {A B} (m : M S T C D A) (k k' : A -> M S T C D B) n :
  (forall a n', k a n' = k' a n') -> (m ≫= k) n = (m ≫= k') n.
Proof. intros Hk. unfold mbind, M_bind. by destruct (m n) as [[a|e] n']. Qed.

Lemma bind_Ok {A B} (m : M S T C D A) (k : A -> M S T C D B) n a n' :
  m n = (Ok a, n') -> (m ≫= k) n = k a n'.
Proof. intros E. unfold mbind, M_bind. by rewrite E. Qed.

Lemma bind_Err {A B} (m : M S T C D A) (k : A -> M S T C D B) n e n' :
  m n = (Err e, n') -> (m ≫= k) n = (Err e, n').
Proof. intros E. unfold mbind, M_bind. by rewrite E. Qed.

(** An [Ok] result of a sequence: both parts succeeded. *)
Lemma bind_inv_Ok {A B} (m : M S T C D A) (k : A -> M S T C D B) n b n'' :
  (m ≫= k) n = (Ok b, n'') -> exists a n', m n = (Ok a, n') /\ k a n' = (Ok b, n'').
Proof. unfold mbind, M_bind. destruct (m n) as [[a|e] n']; [eauto|done]. Qed.

Lemma wp_attempt {A} (m : M S T C D A) n Q :
  wp m n (fun r n' => Q (Ok r) n') -> wp (attempt m) n Q.
Proof. unfold wp, attempt. by destruct (m n). Qed.

Lemma wp_on_storage {A} (op : S -> res A * S) n Q :
  (forall r s, op (storage n) = (r, s) -> Q r (set_storage s n)) -> wp (on_storage op) n Q.
Proof. intros H. unfold wp, on_storage. destruct (op (storage n)) eqn:E. by apply H. Qed.

Lemma wp_on_transport {A} (op : T -> res A * T) n Q :
  (forall r t, op (transport n) = (r, t) -> Q r (set_transport t n)) -> wp (on_transport op) n Q.
Proof. intros H. unfold wp, on_transport. destruct (op (transport n)) eqn:E. by apply H. Qed.

Lemma wp_now `{Clock C} n Q :
  (forall t c, clock_now (clock n) = (t, c) -> Q (Ok t) (set_clock c n)) -> wp now n Q.
Proof. intros H0. unfold wp, now. destruct (clock_now (clock n)) eqn:E. by apply H0. Qed.

(** A loop keeps an invariant that its body keeps; an error leaves it too. *)
Lemma wp_for_each {X} (l : list X) (body : X -> M S T C D unit) n
  (I : RaftNode S T C D -> Prop) (E : RaftError -> RaftNode S T C D -> Prop) :
  I n ->
  (forall x n', x ∈ l -> I n' ->
     wp (body x) n' (fun r n'' => match r with Ok _ => I n'' | Err e => E e n'' end)) ->
  wp (for_each l body) n (fun r n' => match r with Ok _ => I n' | Err e => E e n' end).
Proof.
  intros HI Hbody. revert n HI. induction l as [|x l IH]; intros n HI; [done|].
  cbn [for_each]. apply wp_bind. eapply wp_mono; [apply Hbody; [by left|done]|].
  intros [[]|e] n' _ H; [|done]. apply IH; [|done].
  intros y n'' Hy. apply Hbody. by right.
Qed.
End Reasoning.

(** Step through a method whose operations are the primitive ones. *)
Ltac wp_step :=
  lazymatch goal with
  | |- wp (mbind _ _) _ _ => apply wp_bind
  | |- wp (mret _) _ _ => apply wp_ret
  | |- wp (err _) _ _ => apply wp_err
  | |- wp (gets _) _ _ => apply wp_gets
  | |- wp (modify _) _ _ => apply wp_modify
  | |- wp (from_res _) _ _ => apply wp_from_res
  | |- wp (attempt _) _ _ => apply wp_attempt
  | |- wp (on_metrics _) _ _ => apply wp_modify
  | |- wp now _ _ => apply wp_now; intros ? ? ?
  | |- wp (whenM ?c _) _ _ => unfold whenM; destruct c eqn:?
  end; cbv beta iota.

(** ** Methods that loop

    The methods that wait for frames take fuel.  They stop without a result when
    the fuel runs out, or when the code panics. *)

Inductive Stop := OutOfFuel | Panicked.

Section Loop.
Context {S T C D : Type}.

Definition L (A : Type) : Type :=
  RaftNode S T C D -> result (res A * RaftNode S T C D) Stop.

#[global] Instance L_ret : MRet L := fun A a n => Ok (Ok a, n).
#[global] Instance L_bind : MBind L := fun A B k m n =>
  match m n with
  | Err stop => Err stop
  | Ok (Ok a, n') => k a n'
  | Ok (Err e, n') => Ok (Err e, n')
  end.

Definition run {A} (m : M S T C D A) : L A := fun n => Ok (m n).
Definition out_of_fuel {A} : L A := fun _ => Err OutOfFuel.
Definition panic {A} : L A := fun _ => Err Panicked.

(** A looping method whose error becomes a value. *)
Definition attempt_loop {A} (m : L A) : L (res A) :=
  fun n => match m n with
           | Err stop => Err stop
           | Ok (r, n') => Ok (Ok r, n')
           end.
End Loop.
Arguments L S T C D A : clear implicits.
#[global] Typeclasses Opaque L.
