(* ===== verification/Node.v ===== *)
(** * Node: construction, accessors and the shared steps of the node

    Models the methods of [src/api/node/mod.rs] that the protocol paths share
    (construction, role changes, truncation, sending, the check-quorum lease),
    [voter_majority] and [election_timeout] of [election.rs], and the progress
    and term helpers of [replication/shared.rs]. *)

From stdpp Require Import base list sets gmap strings pretty.
From Stdlib Require Import ZArith Lia.
From S2P Require Import Prelude Types Wire Codec Arena Progress Quorum Traits Membership.
From S2P Require Import NodeState.

Local Open Scope string_scope.
Local Open Scope list_scope.
Local Open Scope Z_scope.

Section Node.
Context {S T C D : Type} `{RaftStorage S} `{RaftTransport T} `{Clock C} `{CustomDispatch D T}.
Implicit Types n : RaftNode S T C D.
#[local] Abbreviation M := (M S T C D).

(** ** Construction *)

Definition SoftState_initial : SoftState :=
  {| ss_leader_id := None; ss_is_leader := false; ss_role := Follower; ss_commit_index := 0 |}.

Definition node_new (cfg : NodeConfig) (st : S) (tr : T) (ck : C) (disp : D)
  : res (RaftNode S T C D) :=
  match validate_node_config cfg with
  | Err e => Err e
  | Ok _ =>
    match load_hard_state st with
    | (Err e, _) => Err e
    | (Ok hs, st) =>
      match last_log_position st with
      | (Err e, _) => Err e
      | (Ok last, st) =>
        match load_snapshot_meta st with
        | (Err e, _) => Err e
        | (Ok meta, st) =>
          Ok {| config := cfg; storage := st; transport := tr; clock := ck; dispatch := disp;
                hard_state := hs; soft_state := SoftState_initial;
                peer_progress := []; joint_peers := None;
                pending_snapshots := ∅; snapshot_attempts := ∅;
                log_metadata := arena_new (Z.to_nat 8192); scratch_indexes := [];
                scratch_pending := []; last_voter_contact := ∅;
                scratch_outbound := replicate (Z.to_nat (1024 * 1024)) (to_byte 0);
                cached_last_log := last;
                snapshot_boundary :=
                  match meta with
                  | Some m => (last_included_index m, last_included_term m)
                  | None => (0, 0)
                  end;
                commit_index_pub := 0; metrics := RaftMetrics_default; last_applied := 0;
                compaction_debt_entries := 0; compaction_debt_bytes := 0;
                last_leader_contact := None; pending_transfer := None;
                forced_campaign_term := None; read_probe_seq := 0;
  scratch_peers := [] |}
        end
      end
    end
  end.

(** ** Soft state *)

Definition set_role (r : Role) n : RaftNode S T C D :=
  let s := soft_state n in
  set_soft_state {| ss_leader_id := ss_leader_id s; ss_is_leader := ss_is_leader s;
                    ss_role := r; ss_commit_index := ss_commit_index s |} n.
Definition set_is_leader (b : bool) n : RaftNode S T C D :=
  let s := soft_state n in
  set_soft_state {| ss_leader_id := ss_leader_id s; ss_is_leader := b;
                    ss_role := ss_role s; ss_commit_index := ss_commit_index s |} n.
Definition set_leader_id (l : option PeerId) n : RaftNode S T C D :=
  let s := soft_state n in
  set_soft_state {| ss_leader_id := l; ss_is_leader := ss_is_leader s;
                    ss_role := ss_role s; ss_commit_index := ss_commit_index s |} n.

Definition set_commit_index (idx : LogIndex) n : RaftNode S T C D :=
  let s := soft_state n in
  set_commit_index_pub idx
    (set_soft_state {| ss_leader_id := ss_leader_id s; ss_is_leader := ss_is_leader s;
                       ss_role := ss_role s; ss_commit_index := idx |} n).

Definition commit_index n : LogIndex := ss_commit_index (soft_state n).
Definition node_term n : Term := current_term (hard_state n).
Definition node_id n : PeerId := cfg_node_id (config n).
Definition node_peers n : list PeerId := cfg_peers (config n).
Definition node_learners n : list PeerId := cfg_learners (config n).

Definition is_leader n : bool := role_eqb (ss_role (soft_state n)) Leader.

Definition not_leader_error n : RaftError :=
  NotLeader (match ss_leader_id (soft_state n) with
             | Some l => Some {| hint_leader_id := l |}
             | None => None
             end).

Definition learner_caught_up (peer : PeerId) n : res bool :=
  if negb (is_leader n) then Err (not_leader_error n)
  else if negb (contains peer (node_learners n)) then Err (PeerUnknown peer)
  else Ok (match pm_get peer (peer_progress n) with
           | Some p => commit_index n <=? match_index p
           | None => false
           end).

Record RaftStatus := {
  st_node_id : PeerId; st_term : Term; st_role : Role; st_leader_id : option PeerId;
  st_is_leader : bool; st_commit_index : LogIndex; st_last_applied : LogIndex;
  st_last_log_index : LogIndex; st_voter_count : nat; st_config_change_in_progress : bool;
}.

Definition status n : RaftStatus := {|
  st_node_id := node_id n; st_term := node_term n; st_role := ss_role (soft_state n);
  st_leader_id := ss_leader_id (soft_state n);
  st_is_leader := role_eqb (ss_role (soft_state n)) Leader;
  st_commit_index := commit_index n; st_last_applied := last_applied n;
  st_last_log_index := (cached_last_log n).1; st_voter_count := length (node_peers n);
  st_config_change_in_progress := match joint_peers n with Some _ => true | None => false end |}.

(** ** Stalled snapshot transfers *)

(** [retain] over the pending transfers; each test reads the clock. *)
Fixpoint evict_loop (l : list (PeerId * PendingSnapshot)) (evicted : Z) : M Z :=
  match l with
  | [] => mret evicted
  | (peer, snap) :: l' =>
      t ← now;
      if ps_is_expired t snap then
        on_metrics inc_snapshots_evicted;;
        modify (fun n => set_pending_snapshots (delete peer (pending_snapshots n)) n);;
        evict_loop l' (evicted + 1)
      else evict_loop l' evicted
  end.

Definition evict_stalled_snapshots : M Z :=
  fun n => evict_loop (map_to_list (pending_snapshots n)) 0 n.

(** ** Role changes *)

Definition demote_to_follower_keep_term : M unit :=
  role ← gets (fun n => ss_role (soft_state n));
  whenM (negb (role_eqb role Follower)) (on_metrics inc_step_downs);;
  modify (set_role Follower);;
  modify (set_is_leader false);;
  modify (set_leader_id None);;
  modify (set_peer_progress []);;
  modify (set_pending_snapshots ∅);;
  modify (set_snapshot_attempts ∅);;
  modify (fun n => set_dispatch (abort_lost_leadership (dispatch n)) n);;
  modify (set_last_voter_contact ∅);;
  modify (set_pending_transfer None).

(** Assignments to the two fields of the hard state. *)
Definition set_term (t : Term) n : RaftNode S T C D :=
  set_hard_state {| current_term := t; voted_for := voted_for (hard_state n) |} n.
Definition set_vote (v : option PeerId) n : RaftNode S T C D :=
  set_hard_state {| current_term := current_term (hard_state n); voted_for := v |} n.

Definition persist_hard_state : M unit :=
  hs ← gets hard_state; on_storage (save_hard_state hs).

Definition step_down (new_term : Term) : M unit :=
  modify (set_term new_term);;
  modify (set_vote None);;
  persist_hard_state;;
  demote_to_follower_keep_term.

Definition storage_truncate (from : LogIndex) : M unit :=
  on_storage (truncate_suffix from);;
  modify (fun n => set_log_metadata (arena_truncate_suffix from (log_metadata n)) n);;
  last ← on_storage last_log_position;
  modify (set_cached_last_log last).

(** ** Sending *)

(** The encoder never panics ([encode_vectored_total]). *)
Definition send_message (peer : PeerId) (msg : RaftMessage) : M bool :=
  fun n =>
    match encode_message_vectored (node_id n) msg (scratch_outbound n) with
    | Some (Ok (buf, out)) =>
        let '(r, t) := send_vectored peer (map (slice_bytes buf) out) (transport n) in
        (Ok (is_ok r), set_transport t (set_scratch_outbound buf n))
    | _ => (Ok false, n)
    end.

(** [encode_message_to_bytes] then one owned send per peer; the number of
    sends that succeed.  The result of the encoder does not depend on the heap
    ([encode_message_to_bytes_frame]). *)
Fixpoint send_frames (peers : list PeerId) (frame : bytes) : M Z :=
  match peers with
  | [] => mret 0
  | p :: ps =>
      r ← attempt (on_transport (send_frame_owned p frame));
      k ← send_frames ps frame;
      mret (if is_ok r then k + 1 else k)
  end.

Definition encode_frame (msg : RaftMessage) : M bytes :=
  fun n => match encode_message_to_bytes [] (node_id n) msg with
           | Some r => (r, n)
           | None => (Err (Protocol "encoder panic"), n)
           end.

Definition message_term (msg : RaftMessage) : option Term :=
  match msg with
  | MRequestVote m | MPreVote m => Some (rv_term m)
  | MRequestVoteResp m | MPreVoteResp m => Some (rvr_term m)
  | MAppendEntries m _ | MAppendEntriesVectored m _ | MAppendEntriesSeeded m _ _
  | MAppendEntriesSeededVectored m _ _ => Some (ae_term m)
  | MAppendEntriesResp m => Some (aer_term m)
  | MInstallSnapshot m _ => Some (is_term m)
  | MInstallSnapshotResp m => Some (isr_term m)
  | MTimeoutNow m => Some (tn_term m)
  | MCustom _ | MCustomResponse _ => None
  end.

(** ** Quorums and timeouts *)

Definition voter_majority (granted : list PeerId) n : bool :=
  voter_majority_of (joint_peers n) (node_peers n) granted.

(** [election_timeout], in milliseconds. *)
Definition election_timeout n : Z := Z.max (election_max_ms (cfg_timing (config n))) 1.

Definition recently_heard (timeout t : Z) (contact : gmap Z Z) (peer : PeerId) : bool :=
  match contact !! peer with
  | Some last_contact => sat_sub t last_contact <? timeout
  | None => false
  end.

Definition check_quorum_active : M bool :=
  timeout ← gets election_timeout;
  t ← now;
  modify (fun n =>
    set_scratch_peers
      (node_id n :: List.filter (fun p => negb (p =? node_id n)
                                          && recently_heard timeout t (last_voter_contact n) p)
                      (node_peers n)) n);;
  gets (fun n => voter_majority (scratch_peers n) n).

(** ** Leader progress ([replication/shared.rs]) *)

Definition fresh_progress n : PeerProgress :=
  {| next_index := sat_add64 (cached_last_log n).1 1; match_index := 0 |}.

Definition initialize_leader_progress : M unit :=
  modify (set_peer_progress []);;
  modify (set_last_voter_contact ∅);;
  fresh ← gets fresh_progress;
  self ← gets node_id;
  voters ← gets node_peers;
  learners ← gets node_learners;
  for_each (List.filter (fun p => negb (p =? self)) voters) (fun peer =>
    modify (fun n => set_peer_progress (pm_insert peer fresh (peer_progress n)) n);;
    t ← now;
    modify (fun n => set_last_voter_contact (<[peer := t]> (last_voter_contact n)) n));;
  for_each (List.filter (fun p => negb (p =? self)) learners) (fun peer =>
    modify (fun n => set_peer_progress (pm_insert peer fresh (peer_progress n)) n)).

Definition ensure_leader_progress_initialized : M unit :=
  empty ← gets (fun n => pm_is_empty (peer_progress n));
  whenM empty initialize_leader_progress.

(** [Forces this node to become leader], for benchmarks. *)
Definition become_leader_for_benchmark (term : Term) : M unit :=
  modify (set_is_leader true);;
  modify (set_role Leader);;
  modify (set_term term);;
  modify (fun n => set_leader_id (Some (node_id n)) n);;
  attempt initialize_leader_progress;;
  mret tt.

Definition term_at (index : LogIndex) : M Term :=
  if index =? 0 then mret 0
  else
    last ← gets cached_last_log;
    if index =? last.1 then mret last.2
    else
      cached ← gets (fun n => get_term (log_metadata n) index);
      match cached with
      | Some term => mret term
      | None =>
          boundary ← gets snapshot_boundary;
          if index =? boundary.1 then mret boundary.2
          else
            found ← on_storage (storage_term_at index);
            match found with
            | None => err (CorruptLog ("missing term at index " +:+ pretty index))
            | Some term =>
                modify (fun n => set_log_metadata (arena_append index term (log_metadata n)) n);;
                mret term
            end
      end.

Definition append_prev_for_peer (peer : PeerId) : M (LogIndex * Term * LogIndex) :=
  progress ← gets (fun n => pm_get peer (peer_progress n));
  match progress with
  | None => err (PeerUnknown peer)
  | Some p =>
      let prev_log_index := sat_sub (next_index p) 1 in
      prev_log_term ← term_at prev_log_index;
      mret (prev_log_index, prev_log_term, next_index p)
  end.
End Node.
