(* ===== verification/Samples.v ===== *)
(** * Samples: concrete nodes

    Nodes over the reference storage, transport and clock of [Traits], at which
    the theorems about the node are instantiated. *)

From stdpp Require Import base list sets gmap strings.
From Stdlib Require Import ZArith Lia.
From S2P Require Import Prelude Types Wire Codec Arena Progress Quorum Traits Membership.
From S2P Require Import NodeState Node.

Local Open Scope string_scope.
Local Open Scope list_scope.
Local Open Scope Z_scope.

Abbreviation SampleNode := (RaftNode MemStorage QueueTransport TickClock unit).

Definition sample_config_of (id : PeerId) (peers : list PeerId) : NodeConfig := {|
  cluster_id := 1; cfg_node_id := id; cfg_peers := peers; cfg_learners := [];
  bootstrap_peers := map (fun p => {| bp_id := p; bp_addr := "127.0.0.1:7000" |}) peers;
  cfg_timing := TimingConfig_default; cfg_limits := LimitsConfig_default |}.

Definition sample_log (terms : list Term) : gmap Z (Term * bytes) :=
  list_to_map (imap (fun i t => (Z.of_nat i + 1, (t, [to_byte (Z.of_nat i)]))) terms).

(** A node [id] of the cluster [peers] at [hs], over the storage [st] with last
    log position [last]. *)
Definition sample_over {S} (st : S) (last : LogIndex * Term) (id : PeerId) (peers : list PeerId)
  (hs : HardState) : RaftNode S QueueTransport TickClock unit := {|
  config := sample_config_of id peers;
  storage := st;
  transport := {| qt_sent := []; qt_inbound := [] |};
  clock := {| tick_now := 1000; tick_step := 1 |};
  dispatch := tt;
  hard_state := hs; soft_state := SoftState_initial;
  peer_progress := []; joint_peers := None; pending_snapshots := ∅; snapshot_attempts := ∅;
  log_metadata := arena_new 16; scratch_indexes := []; scratch_pending := [];
  last_voter_contact := ∅; scratch_outbound := replicate 256 (to_byte 0);
  cached_last_log := last; snapshot_boundary := (0, 0);
  commit_index_pub := 0; metrics := RaftMetrics_default; last_applied := 0;
  compaction_debt_entries := 0; compaction_debt_bytes := 0; last_leader_contact := None;
  pending_transfer := None; forced_campaign_term := None; read_probe_seq := 0;
  scratch_peers := [] |}.

(** The same over a storage whose log holds entries [1 .. length terms] of the
    given terms. *)
Definition sample_node (id : PeerId) (peers : list PeerId) (hs : HardState) (terms : list Term)
  : SampleNode :=
  sample_over
    {| mem_view := {| v_hard := hs; v_log := sample_log terms; v_snap := None |};
       mem_fault := None |}
    (log_last (sample_log terms)) id peers hs.

(** Fresh nodes of a cluster of three over a storage without faults. *)
Definition disk : View :=
  {| v_hard := {| current_term := 0; voted_for := None |}; v_log := ∅; v_snap := None |}.

Definition fresh_node (id : PeerId) : RaftNode View QueueTransport TickClock unit :=
  sample_over disk (0, 0) id [1; 2; 3] {| current_term := 0; voted_for := None |}.

(** The same node leading. *)
Definition sample_leader (id : PeerId) (peers : list PeerId) (hs : HardState) (terms : list Term)
  : SampleNode :=
  (initialize_leader_progress
     (set_leader_id (Some id) (set_is_leader true (set_role Leader
        (sample_node id peers hs terms))))).2.

(** The result of a method as a value. *)
Definition result_of {A} (r : res A * SampleNode) : res A := r.1.
Definition node_after {A} (r : res A * SampleNode) : SampleNode := r.2.

(** The messages a node has sent. *)
Definition sent_messages (n : SampleNode) : list (PeerId * res InboundRaftMessage) :=
  map (fun pf => (pf.1, decode_message pf.2)) (qt_sent (transport n)).

Definition vote_req (term cand idx lterm : Z) : RequestVote :=
  {| rv_term := term; rv_candidate_id := cand; rv_last_log_index := idx;
     rv_last_log_term := lterm |}.

Definition from_peer (p : PeerId) (m : RaftMessage) : InboundRaftMessage :=
  {| im_from := p; im_group_id := 0; im_message := m |}.

(** The frame of a message. *)
Definition frame_of (from : PeerId) (m : RaftMessage) : bytes :=
  match encode_message_to_bytes [] from m with Some (Ok f) => f | _ => [] end.

(** Frames waiting in the transport. *)
Definition with_inbound (frames : list bytes) (n : SampleNode) : SampleNode :=
  set_transport {| qt_sent := qt_sent (transport n); qt_inbound := frames |} n.

(** The last frame a node sent. *)
Definition last_frame (n : SampleNode) : bytes :=
  match last (qt_sent (transport n)) with Some (_, f) => f | None => [] end.

(** A disk that refuses every write as full. *)
Definition disk_full (n : SampleNode) : SampleNode :=
  set_storage {| mem_view := mem_view (storage n); mem_fault := Some (Io StorageFull) |} n.

(** The term of a stored entry. *)
Definition term_stored (n : SampleNode) (i : LogIndex) : option Term :=
  log_term (v_log (mem_view (storage n))) i.

(** A state machine that keeps the entries it applied. *)
Definition ListMachine : Type := list (LogIndex * bytes).

#[export] Instance ListMachine_machine : StateMachine ListMachine := {
  apply_at i p sm := (Ok tt, sm ++ [(i, p)]);
  snapshot _ := Ok [];
  restore _ _ := (Ok tt, []);
}.
