(* ===== verification/Election.v ===== *)
(** * Election: the vote and pre-vote handlers

    Models the handlers of [src/api/node/election.rs].  The campaigns, which
    run the whole inbound dispatch, are in [Campaign]. *)

From stdpp Require Import base list sets gmap strings.
From Stdlib Require Import ZArith Lia.
From S2P Require Import Prelude Types Wire Codec Arena Progress Quorum Traits Membership.
From S2P Require Import NodeState Node.

Local Open Scope Z_scope.

Section Election.
Context {S T C D : Type} `{RaftStorage S} `{RaftTransport T} `{Clock C} `{CustomDispatch D T}.
Implicit Types n : RaftNode S T C D.
#[local] Abbreviation M := (M S T C D).

(** Whether a log ending at [(idx, term)] is at least as up to date as one
    ending at [(last_idx, last_term)]. *)
Definition candidate_up_to_date (term : Term) (idx : LogIndex) (last : LogIndex * Term) : bool :=
  (last.2 <? term) || ((term =? last.2) && (last.1 <=? idx)).

Definition vote_resp (term : Term) (granted : bool) : RequestVoteResp :=
  {| rvr_term := term; rvr_vote_granted := if granted then 1 else 0;
     rvr_pad := replicate 7 (to_byte 0) |}.

(** Whether the vote of the current term is free for, or already given to,
    the candidate. *)
Definition vote_available (candidate_id : PeerId) (vote : option PeerId) : bool :=
  match vote with Some voted => voted =? candidate_id | None => true end.

Definition handle_request_vote (from : PeerId) (msg : RequestVote) : M unit :=
  let msg_term := rv_term msg in
  let candidate_id := rv_candidate_id msg in
  term ← gets node_term;
  whenM (term <? msg_term) (step_down msg_term);;
  last ← on_storage last_log_position;
  hs ← gets hard_state;
  let can_vote := (msg_term =? current_term hs)
                  && candidate_up_to_date (rv_last_log_term msg) (rv_last_log_index msg) last
                  && vote_available candidate_id (voted_for hs) in
  whenM can_vote (
    modify (set_vote (Some candidate_id));;
    persist_hard_state);;
  term ← gets node_term;
  send_message from (MRequestVoteResp (vote_resp term can_vote));;
  mret tt.

Definition handle_request_vote_response (from : PeerId) (resp : RequestVoteResp) : M unit :=
  let term := rvr_term resp in
  current ← gets node_term;
  whenM (current <? term) (step_down term).

(** [t.elapsed() < min_timeout] for the last leader contact. *)
Definition leader_heard_recently : M bool :=
  contact ← gets last_leader_contact;
  match contact with
  | None => mret false
  | Some t =>
      t' ← now;
      gets (fun n => sat_sub t' t <? Z.max (election_min_ms (cfg_timing (config n))) 1)
  end.

Definition handle_pre_vote (from : PeerId) (msg : RequestVote) : M unit :=
  let msg_term := rv_term msg in
  last ← on_storage last_log_position;
  let up_to_date :=
    candidate_up_to_date (rv_last_log_term msg) (rv_last_log_index msg) last in
  leader ← gets is_leader;
  leader_active ← (if leader : bool then mret true else leader_heard_recently);
  term ← gets node_term;
  let can_grant := negb leader_active && (term <=? msg_term) && up_to_date in
  send_message from (MPreVoteResp (vote_resp term can_grant));;
  mret tt.

Definition handle_pre_vote_response (from : PeerId) (resp : RequestVoteResp) : M unit :=
  let term := rvr_term resp in
  current ← gets node_term;
  whenM (current <? term) (step_down term).
End Election.
