(* ===== verification/ConfigChange.v ===== *)
(** * ConfigChange: applying membership changes to the node

    Models [apply_config_change], the reverts, the progress reconciliation and
    [apply_if_config_change] of [src/api/node/membership.rs]. *)

From stdpp Require Import base list sets gmap strings.
From Stdlib Require Import ZArith Lia.
From S2P Require Import Prelude Types Wire Codec Arena Progress Quorum Traits Membership.
From S2P Require Import NodeState Node.

Local Open Scope string_scope.
Local Open Scope list_scope.
Local Open Scope Z_scope.

(** The union built by the Joint arm: [old], then the members of [new] not yet
    in it. *)
Definition merge_peers (old new : list PeerId) : list PeerId :=
  foldl (fun merged p => if contains p merged then merged else merged ++ [p]) old new.

(** The AddLearner arm. *)
Definition add_learners (peers learners added : list PeerId) : list PeerId :=
  foldl (fun ls p => if negb (contains p peers) && negb (contains p ls) then ls ++ [p] else ls)
    learners added.

Section ConfigChange.
Context {S T C D : Type} `{RaftStorage S} `{RaftTransport T} `{Clock C} `{CustomDispatch D T}.
Implicit Types n : RaftNode S T C D.
#[local] Abbreviation M := (M S T C D).

Definition set_peers (ps : list PeerId) n : RaftNode S T C D :=
  set_config (set_cfg_peers ps (config n)) n.
Definition set_learners (ls : list PeerId) n : RaftNode S T C D :=
  set_config (set_cfg_learners ls (config n)) n.

(** [learners.retain(|p| !peers.contains(p))] *)
Definition drop_voting_learners : M unit :=
  modify (fun n => set_learners
    (retain (fun p => negb (contains p (node_peers n))) (node_learners n)) n).

Definition drop_stale_peer (peer : PeerId) : M unit :=
  modify (fun n => set_peer_progress (pm_remove peer (peer_progress n)) n);;
  modify (fun n => set_pending_snapshots (delete peer (pending_snapshots n)) n);;
  modify (fun n => set_last_voter_contact (delete peer (last_voter_contact n)) n).

Definition is_member n (peer : PeerId) : bool :=
  contains peer (node_peers n) || contains peer (node_learners n).

Definition reconcile_leader_progress_with_config : M unit :=
  fresh ← gets fresh_progress;
  self_id ← gets node_id;
  stale ← gets (fun n =>
    List.filter (fun p => negb (is_member n p)) (pm_keys (peer_progress n)));
  for_each stale drop_stale_peer;;
  members ← gets (fun n => node_peers n ++ node_learners n);
  for_each members (fun peer =>
    if peer =? self_id then mret tt
    else modify (fun n =>
      if pm_contains_key peer (peer_progress n) then n
      else set_peer_progress (pm_insert peer fresh (peer_progress n)) n)).

(** The [match entry.phase]. *)
Definition apply_phase (entry : ConfigChangeEntry) : M unit :=
  match cc_phase entry with
  | Joint =>
      modify (set_peers (merge_peers (old_peers entry) (new_peers entry)));;
      modify (set_joint_peers (Some (old_peers entry, new_peers entry)));;
      drop_voting_learners
  | Final =>
      if is_nil (new_peers entry)
      then err (InvalidConfig "config-change Final phase with empty new_peers")
      else
        modify (set_peers (new_peers entry));;
        modify (set_joint_peers None);;
        drop_voting_learners
  | AddLearner =>
      modify (fun n =>
        set_learners (add_learners (node_peers n) (node_learners n) (new_peers entry)) n)
  | RemoveLearner =>
      modify (fun n =>
        set_learners (retain (fun p => negb (contains p (new_peers entry))) (node_learners n)) n)
  end.

Definition apply_config_change (entry : ConfigChangeEntry) : M unit :=
  on_metrics inc_config_changes_applied;;
  apply_phase entry;;
  leader ← gets is_leader;
  whenM leader reconcile_leader_progress_with_config;;
  removed ← gets (fun n => is_leader n && negb (contains (node_id n) (node_peers n)));
  term ← gets node_term;
  whenM removed (step_down term).

Definition revert_joint_activation (old : list PeerId) : M unit :=
  modify (set_peers old);;
  modify (set_joint_peers None);;
  leader ← gets is_leader;
  whenM leader reconcile_leader_progress_with_config.

Definition revert_learner_activation (prev_learners : list PeerId) : M unit :=
  modify (set_learners prev_learners);;
  leader ← gets is_leader;
  whenM leader reconcile_leader_progress_with_config.

Definition apply_if_config_change (payload : bytes) : M bool :=
  if is_noop_entry payload then mret true
  else match config_decode payload with
       | Some entry => apply_config_change entry;; mret true
       | None => mret false
       end.
End ConfigChange.
