(* ===== verification/Replication.v ===== *)
(** * Replication: the append handlers

    Models [src/api/node/replication/handler.rs]: the follower side of
    AppendEntries in its plain and seeded forms, and the leader side of the
    responses. *)

From stdpp Require Import base list sets gmap strings.
From Stdlib Require Import ZArith Lia.
From S2P Require Import Prelude Types Wire Codec Arena Progress Quorum Traits Membership.
From S2P Require Import NodeState Node ConfigChange.

Local Open Scope string_scope.
Local Open Scope list_scope.
Local Open Scope Z_scope.

Definition probe_echo_pad (msg : AppendEntries) : bytes :=
  le_bytes 4 (ae_pad msg) ++ replicate 3 (to_byte 0).

Definition append_resp (term match_index : Z) (success : bool) (msg : AppendEntries)
  : AppendEntriesResp :=
  {| aer_term := term; aer_match_index := match_index;
     aer_success := if success then 1 else 0; aer_pad := probe_echo_pad msg |}.

(** The header block as a slice of headers ([Ref::<_, [EntryHeader]>::from_bytes]):
    it fails when the length is not a multiple of the header size. *)
Fixpoint headers_of (k : nat) (b : bytes) : list EntryHeader :=
  match k with
  | O => []
  | Datatypes.S k' =>
      match from_prefix (A := EntryHeader) b with
      | Some (h, rest) => h :: headers_of k' rest
      | None => []
      end
  end.

Definition parse_headers (b : bytes) : option (list EntryHeader) :=
  if (length b mod wire_size EntryHeader =? 0)%nat
  then Some (headers_of (length b / wire_size EntryHeader) b) else None.

Section Replication.
Context {S T C D : Type} `{RaftStorage S} `{RaftTransport T} `{Clock C} `{CustomDispatch D T}.
Implicit Types n : RaftNode S T C D.
#[local] Abbreviation M := (M S T C D).

(** The arena, then the storage. *)
Definition local_term_at (index : LogIndex) : M (option Term) :=
  cached ← gets (fun n => get_term (log_metadata n) index);
  match cached with
  | Some t => mret (Some t)
  | None => on_storage (storage_term_at index)
  end.

(** The scan of both append paths: the position of the first entry to append,
    or [entry_count].  [items] are the remaining (index, term) pairs and [idx]
    the position of the first of them; [what] is the message of the guard. *)
Fixpoint scan_entries (what : string) (expected_start : Z) (entry_count : nat)
  (items : list (LogIndex * Term)) (idx : nat) : M nat :=
  match items with
  | [] => mret entry_count
  | (index, term) :: items' =>
      if negb (index =? sat_add64 expected_start (Z.of_nat idx)) then err (Protocol what)
      else
        local ← local_term_at index;
        match local with
        | Some t =>
            if t =? term then scan_entries what expected_start entry_count items' (Datatypes.S idx)
            else storage_truncate index;; mret idx
        | None => mret idx
        end
  end.

(** [for e in entries { log_metadata.append(..) }] *)
Definition arena_append_all (items : list (LogIndex * Term)) (a : LogMetadataArena)
  : LogMetadataArena :=
  foldl (fun a it => arena_append it.1 it.2 a) a items.

(** The bookkeeping after a successful append. *)
Definition note_appended (items : list (LogIndex * Term)) : M unit :=
  modify (fun n => set_log_metadata (arena_append_all items (log_metadata n)) n);;
  match last items with
  | Some it => modify (set_cached_last_log it)
  | None => mret tt
  end.

(** The last configuration entry among the payloads. *)
Definition latest_config (payloads : list bytes) : option ConfigChangeEntry :=
  foldl (fun acc p => match config_decode p with Some e => Some e | None => acc end)
    None payloads.

Definition activate_config (o : option ConfigChangeEntry) : M unit :=
  match o with
  | Some entry => apply_config_change entry
  | None => mret tt
  end.

Definition entry_position (e : LogEntry) : LogIndex * Term := (e_index e, e_term e).

Definition apply_append_entries (msg : AppendEntries) (payload : bytes) : M unit :=
  let entry_count := Z.to_nat (ae_entry_count msg) in
  let expected_start := sat_add64 (ae_prev_log_index msg) 1 in
  let all := entry_iter payload entry_count in
  append_from ← scan_entries "AppendEntries entries not contiguous with prev_log_index"
                  expected_start entry_count (map entry_position all) 0;
  if (append_from <? entry_count)%nat then
    let entries := drop append_from all in
    on_storage (append_entries entries);;
    note_appended (map entry_position entries);;
    activate_config (latest_config (map e_payload entries))
  else mret tt.

Definition header_position (h : EntryHeader) : LogIndex * Term := (eh_index h, eh_term h).

Definition apply_append_entries_seeded (msg : AppendEntries) (headers_bytes payloads : bytes)
  : M unit :=
  let entry_count := Z.to_nat (ae_entry_count msg) in
  let expected_start := sat_add64 (ae_prev_log_index msg) 1 in
  let items := raw_iter headers_bytes (Contiguous payloads) in
  append_from ← scan_entries
    "seeded AppendEntries entries not contiguous with prev_log_index"
    expected_start entry_count (map (fun i => header_position i.1) items) 0;
  if (append_from <? entry_count)%nat then
    match parse_headers headers_bytes with
    | None => err (Protocol "header alignment in seeded batch")
    | Some headers =>
        let final_headers := drop append_from headers in
        let payload_refs := map snd (drop append_from items) in
        on_storage (append_entries_seeded final_headers payload_refs);;
        note_appended (map header_position final_headers);;
        activate_config (latest_config payload_refs)
    end
  else mret tt.

(** ** The follower *)

Definition prev_matches (prev_log_idx : LogIndex) (prev_log_term : Term) : M bool :=
  cached ← gets (fun n => get_term (log_metadata n) prev_log_idx);
  match cached with
  | Some t => mret (t =? prev_log_term)
  | None =>
      if prev_log_idx =? 0 then mret true
      else
        found ← on_storage (storage_term_at prev_log_idx);
        match found with
        | Some t => mret (t =? prev_log_term)
        | None => gets (fun n => ((cached_last_log n).1 =? prev_log_idx)
                                 && ((cached_last_log n).2 =? prev_log_term))
        end
  end.

(** The two handlers differ only in [append], the call that stores the
    entries. *)
Definition handle_append (append : M unit) (from : PeerId) (msg : AppendEntries) : M unit :=
  let term := ae_term msg in
  let prev_log_idx := ae_prev_log_index msg in
  current ← gets node_term;
  if term <? current then
    last ← gets cached_last_log;
    send_message from (MAppendEntriesResp (append_resp current last.1 false msg));;
    mret tt
  else
    whenM (current <? term) (step_down term);;
    modify (set_role Follower);;
    modify (set_is_leader false);;
    modify (set_leader_id (Some (ae_leader_id msg)));;
    t ← now;
    modify (set_last_leader_contact (Some t));;
    prev_ok ← prev_matches prev_log_idx (ae_prev_log_term msg);
    if negb prev_ok then
      last ← gets cached_last_log;
      current ← gets node_term;
      let hint := Z.min last.1 (sat_sub prev_log_idx 1) in
      send_message from (MAppendEntriesResp (append_resp current hint false msg));;
      mret tt
    else
      append;;
      last ← gets cached_last_log;
      commit ← gets commit_index;
      whenM (commit <? ae_leader_commit msg)
        (modify (set_commit_index (Z.min (ae_leader_commit msg) last.1)));;
      current ← gets node_term;
      send_message from (MAppendEntriesResp (append_resp current last.1 true msg));;
      mret tt.

Definition handle_append_entries (from : PeerId) (msg : AppendEntries) (payload : bytes)
  : M unit := handle_append (apply_append_entries msg payload) from msg.

Definition handle_append_entries_seeded (from : PeerId) (msg : AppendEntries)
  (headers_bytes payloads : bytes) : M unit :=
  handle_append (apply_append_entries_seeded msg headers_bytes payloads) from msg.

(** ** The leader *)

(** The new [next_index] after a rejection. *)
Definition walk_back (next_index resp_match_index next_index_cap : Z) : Z :=
  Z.min (Z.max (Z.max (sat_sub next_index 1) (sat_add64 resp_match_index 1)) 1) next_index_cap.

Definition progress_on_response (success : bool) (resp_match_index next_index_cap : Z)
  (p : PeerProgress) : PeerProgress :=
  if success then
    let next := Z.min (sat_add64 resp_match_index 1) next_index_cap in
    {| match_index := if match_index p <? resp_match_index then resp_match_index
                      else match_index p;
       next_index := if next_index p <? next then next else next_index p |}
  else if match_index p <=? resp_match_index then
    {| match_index := match_index p;
       next_index := walk_back (next_index p) resp_match_index next_index_cap |}
  else p.

Definition handle_append_entries_response (from : PeerId) (resp : AppendEntriesResp) : M unit :=
  let resp_term := aer_term resp in
  current ← gets node_term;
  if current <? resp_term then step_down resp_term
  else
    leader ← gets is_leader;
    if negb leader then mret tt
    else modify (fun n =>
      let next_index_cap := sat_add64 (cached_last_log n).1 1 in
      set_peer_progress
        (pm_update from
           (progress_on_response (negb (aer_success resp =? 0)) (aer_match_index resp)
              next_index_cap)
           (peer_progress n)) n).
End Replication.
