(* ===== verification/Commit.v ===== *)
(** * Commit: advancing the commit index on the leader

    Models [index_meets_commit_quorum], [propose_commit_reached] and
    [try_advance_commit_index] of [src/api/node/replication/shared.rs]. *)

From stdpp Require Import base list sets gmap strings.
From Stdlib Require Import ZArith Lia.
From S2P Require Import Prelude Types Wire Codec Arena Progress Quorum Traits Membership.
From S2P Require Import NodeState Node Samples.

Local Open Scope Z_scope.

Section Commit.
Context {S T C D : Type} `{RaftStorage S} `{RaftTransport T} `{Clock C} `{CustomDispatch D T}.
Implicit Types n : RaftNode S T C D.
#[local] Abbreviation M := (M S T C D).

(** The quorum index of a voter set of this node. *)
Definition subset_index n (subset : list PeerId) : option LogIndex :=
  subset_quorum_index_into (peer_progress n) (node_id n) subset (cached_last_log n).1.

(** [.is_some_and(|q| q >= index)] *)
Definition reaches (index : LogIndex) (q : option LogIndex) : bool :=
  match q with Some q => index <=? q | None => false end.

Definition index_meets_commit_quorum (index : LogIndex) n : bool :=
  match joint_peers n with
  | Some (olds, news) =>
      reaches index (subset_index n olds) && reaches index (subset_index n news)
  | None => reaches index (subset_index n (node_peers n))
  end.

Definition propose_commit_reached (needed accepted : Z) (last_index : LogIndex) n : bool :=
  match joint_peers n with
  | Some _ => index_meets_commit_quorum last_index n
  | None => needed <=? accepted
  end.

(** The [match &self.joint_peers] of [try_advance_commit_index]; [None] is the
    early return. *)
Definition effective_quorum_index n : option LogIndex :=
  match joint_peers n with
  | Some (olds, news) =>
      match subset_index n olds, subset_index n news with
      | Some old_q, Some new_q => Some (Z.min old_q new_q)
      | _, _ => None
      end
  | None => subset_index n (node_peers n)
  end.

(** The term of the quorum entry: the tip cache, the arena, the storage. *)
Definition quorum_term_at (quorum_index : LogIndex) : M Term :=
  last ← gets cached_last_log;
  if quorum_index =? last.1 then mret last.2
  else
    cached ← gets (fun n => get_term (log_metadata n) quorum_index);
    match cached with
    | Some term => mret term
    | None =>
        found ← on_storage (storage_term_at quorum_index);
        let term := default 0 found in
        whenM (0 <? term)
          (modify (fun n => set_log_metadata (arena_append quorum_index term (log_metadata n)) n));;
        mret term
    end.

Definition try_advance_commit_index : M unit :=
  uninitialised ← gets (fun n => (1 <? length (node_peers n))%nat && pm_is_empty (peer_progress n));
  if uninitialised : bool then mret tt
  else
    nothing_new ← gets (fun n => (cached_last_log n).1 <=? commit_index n);
    if nothing_new : bool then mret tt
    else
      q ← gets effective_quorum_index;
      match q with
      | None => mret tt
      | Some quorum_index =>
          commit ← gets commit_index;
          if quorum_index <=? commit then mret tt
          else
            quorum_term ← quorum_term_at quorum_index;
            current ← gets node_term;
            whenM (quorum_term =? current) (modify (set_commit_index quorum_index))
      end.

(** ** The commit rule *)

(** The voter sets whose majorities a commit needs. *)
Definition commit_sets n : list (list PeerId) :=
  match joint_peers n with
  | Some (olds, news) => [olds; news]
  | None => [node_peers n]
  end.

(** A majority of [subset] has replicated [i], as far as this leader knows. *)
Definition majority_acked n (i : LogIndex) (subset : list PeerId) : Prop :=
  subset <> [] /\
  replicated_by_majority (peer_progress n) (node_id n) subset (cached_last_log n).1 i = true.

Lemma subset_index_reaches n subset i :
  reaches i (subset_index n subset) = true <-> majority_acked n i subset.
Proof.
  unfold majority_acked, subset_index. destruct subset as [|p ps].
  { by split; [|intros [? _]]. }
  destruct (subset_quorum_index_Some (peer_progress n) (node_id n) (p :: ps)
              (cached_last_log n).1) as [q Hq]; [done|].
  rewrite Hq. cbn [reaches]. rewrite Z.leb_le, <- (subset_quorum_index_ge _ _ _ _ _ i Hq).
  split; [done | by intros [_ ?]].
Qed.

Lemma index_meets_iff n i :
  index_meets_commit_quorum i n = true <-> Forall (majority_acked n i) (commit_sets n).
Proof.
  unfold index_meets_commit_quorum, commit_sets. destruct (joint_peers n) as [[olds news]|].
  - rewrite andb_true_iff, !subset_index_reaches, !Forall_cons, Forall_nil. tauto.
  - rewrite subset_index_reaches, Forall_cons, Forall_nil. tauto.
Qed.

Lemma effective_quorum_iff n i :
  (exists q, effective_quorum_index n = Some q /\ i <= q) <->
  index_meets_commit_quorum i n = true.
Proof.
  unfold effective_quorum_index, index_meets_commit_quorum.
  destruct (joint_peers n) as [[olds news]|].
  - destruct (subset_index n olds) as [a|], (subset_index n news) as [b|]; cbn [reaches];
      try (split; [by intros (q & ? & ?) | by rewrite ?andb_false_r]).
    rewrite andb_true_iff, !Z.leb_le. split; [intros (q & [= <-] & ?); lia|].
    intros [? ?]. eexists. split; [reflexivity|lia].
  - destruct (subset_index n (node_peers n)) as [a|]; cbn [reaches].
    + rewrite Z.leb_le. split; [by intros (q & [= <-] & ?)|]. intros ?. by exists a.
    + by split; [intros (q & ? & ?)|].
Qed.

(** The propose path and the run loop never disagree on the commit rule:
    an index meets the commit quorum exactly when it is at or below the
    effective quorum index, and both mean that a majority of the voters, or of
    both voter sets while a joint transition is active, has replicated it. *)
Theorem commit_rule_agreement i n :
  (index_meets_commit_quorum i n = true <->
   exists q, effective_quorum_index n = Some q /\ i <= q) /\
  (index_meets_commit_quorum i n = true <-> Forall (majority_acked n i) (commit_sets n)).
Proof. split; [symmetry; apply effective_quorum_iff | apply index_meets_iff]. Qed.
End Commit.

Section CommitSafety.
Context {S T C D : Type} `{StorageLaws S} `{RaftTransport T} `{Clock C} `{CustomDispatch D T}.
Implicit Types n : RaftNode S T C D.

(** The node knows that its log holds an entry of term [t] at [i]: from the
    tip cache, the arena, or the stable log. *)
Definition knows_term n (i : LogIndex) (t : Term) : Prop :=
  cached_last_log n = (i, t) \/ get_term (log_metadata n) i = Some t \/
  log_term (v_log (sview (storage n))) i = Some t.

Lemma quorum_term_at_spec q n t n' :
  quorum_term_at q n = (Ok t, n') ->
  (t = 0 \/ knows_term n q t) /\ commit_index n' = commit_index n /\
  hard_state n' = hard_state n.
Proof.
  unfold quorum_term_at. rewrite bind_gets.
  destruct (Z.eqb_spec q (cached_last_log n).1) as [->|_].
  { intros [= <- <-]. split; [|done]. right. left. by destruct (cached_last_log n). }
  rewrite bind_gets. destruct (get_term (log_metadata n) q) as [t0|] eqn:Hg.
  { intros [= <- <-]. split; [|done]. right. by right; left. }
  intros E. apply bind_inv_Ok in E as (found & n1 & E1 & E2). unfold on_storage in E1.
  destruct (storage_term_at q (storage n)) as [r s] eqn:Es. injection E1 as -> <-.
  apply storage_term_at_law in Es as [_ Es]. rewrite (Es _ eq_refl) in E2.
  apply bind_inv_Ok in E2 as ([] & n2 & E2 & [= <- <-]).
  split; [destruct (log_term _ q) eqn:Hl; [right; by right; right | by left]|].
  destruct (0 <? _); injection E2 as <-; done.
Qed.

(** Every source the node has agrees on the term [t] of entry [i]. *)
Definition certain_term n (i : LogIndex) (t : Term) : Prop :=
  knows_term n i t /\ forall t', knows_term n i t' -> t' = t.

Lemma quorum_term_at_certain q n t t' n' :
  quorum_term_at q n = (Ok t', n') -> certain_term n q t -> t' = t.
Proof.
  intros E [Hk Hall]. pose proof (quorum_term_at_spec _ _ _ _ E) as [[->|Hk'] _]; [|by apply Hall].
  unfold quorum_term_at in E. rewrite bind_gets in E.
  destruct (Z.eqb_spec q (cached_last_log n).1) as [->|Hne].
  { injection E as E _. apply Hall. left. rewrite <- E. by destruct (cached_last_log n). }
  rewrite bind_gets in E. destruct (get_term (log_metadata n) q) as [t0|] eqn:Hg.
  { injection E as -> _. apply Hall. by right; left. }
  destruct Hk as [Hk|[Hk|Hk]]; [by rewrite Hk in Hne|congruence|].
  apply bind_inv_Ok in E as (found & n1 & E1 & E2). unfold on_storage in E1.
  destruct (storage_term_at q (storage n)) as [r s] eqn:Es. injection E1 as -> <-.
  apply storage_term_at_law in Es as [_ Es]. rewrite (Es _ eq_refl), Hk in E2.
  by apply bind_inv_Ok in E2 as ([] & n2 & _ & [= <- _]).
Qed.

(** C7: the commit rule of the leader.  Safety: the commit index never moves
    back; when it moves, the new index is beyond the old one, a majority of every
    voter set of the effective configuration has it by the match indexes the leader
    has recorded (its own last index for itself), and it holds an entry of the
    leader's current term, or the node is in term 0; term and vote are untouched.
    Progress: when the greatest such index is beyond the commit index, within the
    log, and known for certain to be of the current term, it is committed. *)
Theorem try_advance_commit_index_spec n n' :
  try_advance_commit_index n = (Ok tt, n') ->
  hard_state n' = hard_state n /\
  (commit_index n' = commit_index n \/
   commit_index n < commit_index n' /\
   Forall (majority_acked n (commit_index n')) (commit_sets n) /\
   (node_term n = 0 \/ knows_term n (commit_index n') (node_term n))) /\
  (forall q, ((1 < length (node_peers n))%nat -> peer_progress n <> []) ->
   effective_quorum_index n = Some q -> commit_index n < q <= (cached_last_log n).1 ->
   certain_term n q (node_term n) -> commit_index n' = q).
Proof.
  unfold try_advance_commit_index. rewrite bind_gets.
  destruct (_ && pm_is_empty _) eqn:Hinit.
  { intros [= <-]. split_and!; [done|auto|]. intros q Hpp. apply andb_true_iff in Hinit as [Hl He].
    apply Nat.ltb_lt in Hl. destruct (peer_progress n); [by specialize (Hpp Hl)|done]. }
  rewrite bind_gets. destruct (Z.leb_spec (cached_last_log n).1 (commit_index n)).
  { intros [= <-]. split_and!; [done|auto|lia]. }
  rewrite bind_gets. destruct (effective_quorum_index n) as [q|] eqn:Hq.
  2: { intros [= <-]. split_and!; [done|auto|done]. }
  rewrite bind_gets. destruct (Z.leb_spec q (commit_index n)) as [|Hgt].
  { intros [= <-]. split_and!; [done|auto|]. intros q' _ [= <-]. lia. }
  intros E. apply bind_inv_Ok in E as (t & n1 & E1 & E2).
  pose proof (quorum_term_at_certain q n (node_term n) _ _ E1) as Hcert.
  apply quorum_term_at_spec in E1 as (Hk & Hc & Hh). rewrite bind_gets in E2.
  assert (Hn1 : node_term n1 = node_term n) by (unfold node_term; congruence).
  rewrite Hn1 in E2.
  destruct (Z.eqb_spec t (node_term n)) as [->|Hne]; cbn [whenM] in E2; injection E2 as <-.
  - split; [done|]. split; [right; cbn|by intros q' _ [= <-]]. split; [done|].
    split; [|destruct Hk; auto].
    apply index_meets_iff, effective_quorum_iff. exists q. split; [done|lia].
  - split; [done|]. split; [by left|]. intros q' _ [= <-] _ Hct. by destruct Hne; apply Hcert.
Qed.
End CommitSafety.

(** ** Witness *)

(** A leader whose second follower has acknowledged entry 3, of its term. *)
Definition acked_leader : SampleNode :=
  set_peer_progress [(2, {| match_index := 3; next_index := 4 |});
                     (3, {| match_index := 0; next_index := 3 |})]
    (sample_leader 1 [1; 2; 3] {| current_term := 2; voted_for := Some 1 |} [1; 1; 2]).

Lemma try_advance_commit_index_spec_witness :
  commit_index (node_after (try_advance_commit_index acked_leader)) = 3.
Proof.
  apply (try_advance_commit_index_spec acked_leader
    (node_after (try_advance_commit_index acked_leader))).
  - vm_compute. reflexivity.
  - intros _ H. vm_compute in H. discriminate H.
  - vm_compute. reflexivity.
  - vm_compute. split; [reflexivity | discriminate].
  - split; [left; vm_compute; reflexivity|].
    intros t' [H|[H|H]]; vm_compute in H; vm_compute; congruence.
Defined.
