(* ===== verification/Snapshot.v ===== *)
(** * Snapshot: receiving snapshots, restoring and compacting

    Models [handle_install_snapshot] and its response handler
    ([src/api/node/snapshot.rs]), [restore_state_machine_from_snapshot]
    ([snapshot_install.rs]) and the compaction of [log_compaction.rs]. *)

From stdpp Require Import base list sets gmap strings pretty.
From Stdlib Require Import ZArith Lia.
From S2P Require Import Prelude Types Wire Codec Arena Progress Quorum Traits Membership.
From S2P Require Import NodeState Node.

Local Open Scope string_scope.
Local Open Scope list_scope.
Local Open Scope Z_scope.

Section Snapshot.
Context {S T C D : Type} `{RaftStorage S} `{RaftTransport T} `{Clock C} `{CustomDispatch D T}.
Implicit Types n : RaftNode S T C D.
#[local] Abbreviation M := (M S T C D).

Definition snapshot_resp (term next_offset : Z) (accepted : bool) : InstallSnapshotResp :=
  {| isr_term := term; isr_next_offset := next_offset;
     isr_accepted := if accepted then 1 else 0; isr_pad := replicate 7 (to_byte 0) |}.

Definition reply_snapshot (from : PeerId) (next_offset : Z) (accepted : bool) : M unit :=
  term ← gets node_term;
  send_message from (MInstallSnapshotResp (snapshot_resp term next_offset accepted));;
  mret tt.

(** [pending_snapshots.entry(from)], written back after a change. *)
Definition put_pending (from : PeerId) (p : PendingSnapshot) : M unit :=
  modify (fun n => set_pending_snapshots (<[from := p]> (pending_snapshots n)) n).

(** [.entry(from).or_insert_with(..)], then the reset on a new session. *)
Definition open_pending (from : PeerId) (meta : SnapshotMeta) (offset stall_timeout : Z)
  : M PendingSnapshot :=
  found ← gets (fun n => pending_snapshots n !! from);
  pending ← match found with
            | Some p => mret p
            | None => t ← now; mret (PendingSnapshot_new t meta stall_timeout)
            end;
  put_pending from pending;;
  if (offset =? 0) || negb (bool_decide (ps_meta pending = meta)) then
    t ← now;
    let p := ps_reset t meta stall_timeout pending in
    put_pending from p;; mret p
  else mret pending.

(** The §7 discard rule shared by the install handler and the restore: drop
    the whole log when it disagrees with the boundary, its prefix otherwise,
    and re-seat the caches at the boundary. *)
Definition reseat_at_boundary (meta : SnapshotMeta) : M unit :=
  let last_idx := last_included_index meta in
  let last_term := last_included_term meta in
  found ← on_storage (storage_term_at last_idx);
  let boundary_conflict :=
    match found with Some t => negb (t =? last_term) | None => false end in
  (if boundary_conflict then on_storage (truncate_suffix 1)
   else on_storage (truncate_before (sat_add64 last_idx 1)));;
  modify (fun n => set_log_metadata (arena_clear (sat_add64 last_idx 1) (log_metadata n)) n);;
  modify (set_cached_last_log (last_idx, last_term));;
  modify (set_snapshot_boundary (last_idx, last_term)).

(** The [if msg_done] block. *)
Definition finish_snapshot (from : PeerId) : M unit :=
  found ← gets (fun n => pending_snapshots n !! from);
  match found with
  | None => err (SnapshotErr "missing pending snapshot")
  | Some completed =>
      modify (fun n => set_pending_snapshots (delete from (pending_snapshots n)) n);;
      on_storage (save_snapshot (ps_meta completed) (ps_bytes completed));;
      commit ← gets commit_index;
      let idx := last_included_index (ps_meta completed) in
      whenM (commit <? idx) (modify (set_commit_index idx));;
      reseat_at_boundary (ps_meta completed)
  end.

(** A chunk at the expected offset. *)
Definition accept_chunk (from : PeerId) (pending : PendingSnapshot) (payload : bytes)
  (done : bool) (stall_timeout : Z) : M unit :=
  max_bytes ← gets (fun n => max_snapshot_bytes (cfg_limits (config n)));
  if max_bytes <? sat_add64 (Z.of_nat (length (ps_bytes pending))) (Z.of_nat (length payload)) then
    modify (fun n => set_pending_snapshots (delete from (pending_snapshots n)) n);;
    reply_snapshot from 0 false;;
    err (SnapshotErr ("install snapshot exceeds max_snapshot_bytes ("
                      +:+ pretty max_bytes +:+ ")"))
  else
    t ← now;
    let grown := ps_touch t stall_timeout
      {| ps_meta := ps_meta pending; ps_bytes := ps_bytes pending ++ payload;
         ps_deadline := ps_deadline pending |} in
    put_pending from grown;;
    let next_offset := Z.of_nat (length (ps_bytes grown)) in
    whenM done (finish_snapshot from);;
    reply_snapshot from next_offset true.

Definition handle_install_snapshot (from : PeerId) (msg : InstallSnapshot) (payload : bytes)
  : M unit :=
  let meta := {| last_included_index := is_last_included_index msg;
                 last_included_term := is_last_included_term msg |} in
  if negb (Z.of_nat (length payload) mod 2 ^ 32 =? is_chunk_len msg) then
    err (Protocol "install snapshot chunk_len mismatch")
  else
    member ← gets (fun n => contains from (node_peers n));
    if negb member then on_metrics inc_frames_dropped_nonfatal
    else
      evict_stalled_snapshots;;
      current ← gets node_term;
      if is_term msg <? current then reply_snapshot from 0 false
      else
        whenM (current <? is_term msg) (step_down (is_term msg));;
        modify (set_role Follower);;
        modify (set_is_leader false);;
        modify (set_leader_id (Some (is_leader_id msg)));;
        stall_timeout ← gets (fun n => snapshot_stall_timeout_ms (cfg_limits (config n)));
        pending ← open_pending from meta (is_offset msg) stall_timeout;
        let buffered := Z.of_nat (length (ps_bytes pending)) in
        if negb (buffered =? is_offset msg) then reply_snapshot from buffered false
        else accept_chunk from pending payload (negb (is_done msg =? 0)) stall_timeout.

Definition handle_install_snapshot_response (from : PeerId) (resp : InstallSnapshotResp)
  : M unit :=
  let resp_term := isr_term resp in
  current ← gets node_term;
  whenM (current <? resp_term) (step_down resp_term).
End Snapshot.

(** ** Restoring and compacting: methods that also hold the state machine *)

Section WithMachine.
Context {S T C D SM : Type} `{RaftStorage S} `{RaftTransport T} `{Clock C}
  `{CustomDispatch D T} `{StateMachine SM}.
Implicit Types n : RaftNode S T C D.
#[local] Abbreviation M := (M S T C D).

(** [&mut sm] is threaded next to the node. *)
Definition restore_state_machine_from_snapshot (sm : SM) (n : RaftNode S T C D)
  : res bool * SM * RaftNode S T C D :=
  match on_storage load_snapshot_meta n with
  | (Err e, n) => (Err e, sm, n)
  | (Ok None, n) => (Ok false, sm, n)
  | (Ok (Some meta), n) =>
      if last_included_index meta <=? last_applied n then (Ok false, sm, n)
      else
        match on_storage load_snapshot n with
        | (Err e, n) => (Err e, sm, n)
        | (Ok None, n) => (Ok false, sm, n)
        | (Ok (Some (meta, b)), n) =>
            match restore b sm with
            | (Err e, sm) => (Err e, sm, n)
            | (Ok _, sm) =>
                let idx := last_included_index meta in
                let n := if commit_index n <? idx then set_commit_index idx n else n in
                let n := set_last_applied idx n in
                match reseat_at_boundary meta n with
                | (Err e, n) => (Err e, sm, n)
                | (Ok _, n) =>
                    (Ok true, sm, set_compaction_debt_bytes 0 (set_compaction_debt_entries 0 n))
                end
            end
        end
  end.

Definition compact_with_horizon (sm : SM) (up_to : LogIndex) : M SnapshotMeta :=
  applied ← gets last_applied;
  term ← term_at applied;
  let meta := {| last_included_index := applied; last_included_term := term |} in
  b ← from_res (snapshot sm);
  on_storage (save_snapshot meta b);;
  modify (set_snapshot_boundary (last_included_index meta, last_included_term meta));;
  modify (set_compaction_debt_entries 0);;
  modify (set_compaction_debt_bytes 0);;
  whenM (0 <? up_to) (on_storage (truncate_before up_to));;
  on_metrics inc_log_compactions;;
  mret meta.

(** The horizon: the applied index, clamped on a leader by every voter. *)
Definition compaction_horizon n : LogIndex :=
  if is_leader n then
    foldl (fun horizon peer =>
             if peer =? node_id n then horizon
             else
               let matched := match pm_get peer (peer_progress n) with
                              | Some p => match_index p
                              | None => 0
                              end in
               if matched <? horizon then matched else horizon)
      (last_applied n) (node_peers n)
  else last_applied n.

Definition maybe_compact (sm : SM) : M (option SnapshotMeta) :=
  limits ← gets (fun n => cfg_limits (config n));
  by_entries ← gets (fun n => negb (compaction_threshold_entries limits =? 0)
    && (compaction_threshold_entries limits <=? compaction_debt_entries n));
  by_bytes ← gets (fun n => negb (compaction_threshold_bytes limits =? 0)
    && (compaction_threshold_bytes limits <=? compaction_debt_bytes n));
  if negb by_entries && negb by_bytes then mret None
  else
    in_flight ← gets (fun n => negb (bool_decide (pending_snapshots n = ∅)));
    if in_flight : bool then mret None
    else
      applied ← gets last_applied;
      if applied =? 0 then mret None
      else
        existing ← on_storage load_snapshot_meta;
        if match existing with
           | Some m => applied <=? last_included_index m
           | None => false
           end then
          modify (set_compaction_debt_entries 0);;
          modify (set_compaction_debt_bytes 0);;
          mret None
        else
          horizon ← gets compaction_horizon;
          meta ← compact_with_horizon sm (sat_sub horizon (compaction_min_retain limits));
          mret (Some meta).
End WithMachine.
