(* ===== verification/Transfer.v ===== *)
(** * Transfer: leadership transfer, the parts driven by one message

    Models [check_transfer_freeze], [leadership_transfer_in_progress],
    [handle_timeout_now] and [take_forced_campaign] of
    [src/api/node/transfer.rs]. *)

From stdpp Require Import base list sets gmap strings.
From Stdlib Require Import ZArith Lia.
From S2P Require Import Prelude Types Wire Codec Arena Progress Quorum Traits Membership.
From S2P Require Import NodeState Node.

Local Open Scope Z_scope.

Section Transfer.
Context {S T C D : Type} `{RaftStorage S} `{RaftTransport T} `{Clock C} `{CustomDispatch D T}.
Implicit Types n : RaftNode S T C D.
#[local] Abbreviation M := (M S T C D).

Definition leadership_transfer_in_progress : M bool :=
  pending ← gets pending_transfer;
  match pending with
  | Some t =>
      t' ← now;
      if t' <? pt_deadline t then mret true
      else modify (set_pending_transfer None);; mret false
  | None => mret false
  end.

Definition check_transfer_freeze : M unit :=
  in_progress ← leadership_transfer_in_progress;
  pending ← gets pending_transfer;
  if in_progress : bool then
    err (NotLeader (match pending with
                    | Some t => Some {| hint_leader_id := pt_target t |}
                    | None => None
                    end))
  else mret tt.

Definition handle_timeout_now (from : PeerId) (msg : TimeoutNow) : M unit :=
  let msg_term := tn_term msg in
  current ← gets node_term;
  if msg_term <? current then mret tt
  else
    whenM (current <? msg_term) (step_down msg_term);;
    leader ← gets is_leader;
    if leader : bool then mret tt
    else
      voter ← gets (fun n => contains (node_id n) (node_peers n));
      if negb voter then mret tt
      else
        foreign ← gets (fun n =>
          (msg_term =? node_term n)
          && match ss_leader_id (soft_state n) with
             | Some leader => negb (leader =? from)
             | None => false
             end);
        if foreign : bool then mret tt
        else modify (fun n => set_forced_campaign_term (Some (node_term n)) n).

Definition take_forced_campaign : M bool :=
  armed ← gets forced_campaign_term;
  modify (set_forced_campaign_term None);;
  match armed with
  | Some t => gets (fun n => (t =? node_term n) && negb (is_leader n)
                             && contains (node_id n) (node_peers n))
  | None => mret false
  end.
End Transfer.
