(* ===== verification/Inbound.v ===== *)
(** * Inbound: the dispatch of one message

    Models [handle_inbound] and [handle_inbound_tolerant] of
    [src/api/node/mod.rs] and the custom-message handlers of
    [src/api/node/dispatch.rs], the latter over the dispatch interface. *)

From stdpp Require Import base list sets gmap strings.
From Stdlib Require Import ZArith Lia.
From S2P Require Import Prelude Types Wire Codec Arena Progress Quorum Traits Membership.
From S2P Require Import NodeState Node Election ConfigChange Replication Snapshot Transfer.

Local Open Scope string_scope.
Local Open Scope list_scope.
Local Open Scope Z_scope.

Section Inbound.
Context {S T C D : Type} `{RaftStorage S} `{RaftTransport T} `{Clock C} `{CustomDispatch D T}.
Implicit Types n : RaftNode S T C D.
#[local] Abbreviation M := (M S T C D).

Definition handle_custom_message (from : PeerId) (payload : bytes) : M unit :=
  fun n =>
    let route := {| route_role := if is_leader n then DispatchLeader else DispatchFollower;
                    is_origin := from =? node_id n |} in
    let '(r, d, t) := invoke_custom route from (node_id n) payload (dispatch n) (transport n) in
    (r, set_transport t (set_dispatch d n)).

Definition handle_custom_response (from : PeerId) (payload : bytes) : M unit :=
  fun n =>
    let '(r, d) := on_custom_response from payload (dispatch n) in (r, set_dispatch d n).

(** The contact stamp: a current-term frame from a voter of a leader. *)
Definition counts_as_contact (from : PeerId) (msg : RaftMessage) n : bool :=
  is_leader n && contains from (node_peers n)
  && match message_term msg with Some t => t =? node_term n | None => false end.

Definition stamp_contact (from : PeerId) (msg : RaftMessage) : M unit :=
  counts ← gets (counts_as_contact from msg);
  whenM counts (
    t ← now;
    modify (fun n => set_last_voter_contact (<[from := t]> (last_voter_contact n)) n)).

Definition handle_inbound (inbound : InboundRaftMessage) : M unit :=
  let from := im_from inbound in
  stamp_contact from (im_message inbound);;
  match im_message inbound with
  | MAppendEntries msg payload => handle_append_entries from msg payload
  | MAppendEntriesSeeded ae headers payloads =>
      handle_append_entries_seeded from ae headers payloads
  | MAppendEntriesResp msg => handle_append_entries_response from msg
  | MCustom payload => handle_custom_message from payload
  | MCustomResponse payload => handle_custom_response from payload
  | MRequestVote msg => handle_request_vote from msg
  | MRequestVoteResp msg => handle_request_vote_response from msg
  | MPreVote msg => handle_pre_vote from msg
  | MPreVoteResp msg => handle_pre_vote_response from msg
  | MInstallSnapshot msg payload => handle_install_snapshot from msg payload
  | MInstallSnapshotResp msg => handle_install_snapshot_response from msg
  | MTimeoutNow msg => handle_timeout_now from msg
  | MAppendEntriesVectored _ _ | MAppendEntriesSeededVectored _ _ _ =>
      err (Protocol "unexpected vectored inbound")
  end.

(** Propagates a fatal error, drops the frame on any other. *)
Definition handle_inbound_tolerant (inbound : InboundRaftMessage) : M unit :=
  r ← attempt (handle_inbound inbound);
  match r with
  | Err e => if is_fatal e then err e else mret tt
  | Ok _ => mret tt
  end.

(** [handle_once]: receive, decode, dispatch. *)
Definition handle_once (buf_len : Z) : M unit :=
  frame ← on_transport (recv_frame buf_len);
  inbound ← from_res (decode_message frame);
  handle_inbound inbound.
End Inbound.
