(* ===== verification/Campaign.v ===== *)
(** * Campaign: elections and pre-elections

    Models [campaign_once], [broadcast_request_vote], [collect_votes],
    [campaign_pre_vote] and [drain_inbound_frames] of
    [src/api/node/election.rs].  These methods wait for frames in loops that
    end by a deadline or when the transport has nothing left; they take fuel
    and stop without a result when it runs out ([L] of [NodeState]). *)

From stdpp Require Import base list sets gmap strings.
From Stdlib Require Import ZArith Lia.
From S2P Require Import Prelude Types Wire Codec Arena Progress Quorum Traits Membership.
From S2P Require Import NodeState Node Election ConfigChange Replication Snapshot Transfer.
From S2P Require Import Inbound.

Local Open Scope Z_scope.

Section Campaign.
Context {S T C D : Type} `{RaftStorage S} `{RaftTransport T} `{Clock C} `{CustomDispatch D T}.
Implicit Types n : RaftNode S T C D.
#[local] Abbreviation M := (M S T C D).
#[local] Abbreviation L := (L S T C D).

(** ** Draining inbound frames *)

(** One [recv_frame_timeout] of the drain: a frame, nothing, or the error that
    ends it. *)
Definition drain_recv (timeout rest_len : Z) : M (option bytes) :=
  r ← attempt (on_transport (recv_frame_timeout timeout rest_len));
  match r with
  | Ok o => mret o
  | Err e => if is_fatal e then err e else mret None
  end.

(** The timeout of the next receive; [None] once the deadline has passed. *)
Definition drain_timeout (deadline : Z) (first : bool) : M (option Z) :=
  if first then
    t ← now;
    let remaining := sat_sub deadline t in
    mret (if remaining =? 0 then None else Some remaining)
  else mret (Some 0).

Fixpoint drain_loop (fuel : nat) (deadline rest_len : Z) (msgs : list InboundRaftMessage)
  : L (list InboundRaftMessage) :=
  match fuel with
  | O => out_of_fuel
  | Datatypes.S fuel' =>
      if (16 <=? length msgs)%nat || (rest_len <=? 0) then mret msgs
      else
        timeout ← run (drain_timeout deadline (is_nil msgs));
        match timeout with
        | None => mret msgs
        | Some timeout =>
            frame ← run (drain_recv timeout rest_len);
            match frame with
            | None => mret msgs
            | Some f =>
                let rest_len := rest_len - Z.of_nat (length f) in
                drain_loop fuel' deadline rest_len
                  (match decode_message f with
                   | Ok inbound => msgs ++ [inbound]
                   | Err _ => msgs
                   end)
            end
        end
  end.

Definition drain_inbound_frames (fuel : nat) (deadline buf_len : Z)
  : L (list InboundRaftMessage) := drain_loop fuel deadline buf_len [].

(** ** Collecting votes *)

(** The voters that granted, and the peers that answered. *)
Record Ballot := { granted : list PeerId; responders : list PeerId }.

Definition initial_ballot n : Ballot := {| granted := [node_id n]; responders := [] |}.

(** The first pass over a batch of frames: count the responses that [select]
    picks out, at the term [expected]; [None] when a higher term was adopted. *)
Fixpoint count_responses (select : RaftMessage -> option RequestVoteResp)
  (expected : RaftNode S T C D -> Term) (msgs : list InboundRaftMessage) (b : Ballot)
  : M (option Ballot) :=
  match msgs with
  | [] => mret (Some b)
  | inbound :: msgs' =>
      match select (im_message inbound) with
      | None => count_responses select expected msgs' b
      | Some resp =>
          let from := im_from inbound in
          if contains from (responders b) then count_responses select expected msgs' b
          else
            current ← gets node_term;
            if current <? rvr_term resp then step_down (rvr_term resp);; mret None
            else
              counts ← gets (fun n => (rvr_term resp =? expected n)
                && negb (rvr_vote_granted resp =? 0) && contains from (node_peers n));
              count_responses select expected msgs'
                {| granted := if counts : bool then granted b ++ [from] else granted b;
                   responders := responders b ++ [from] |}
      end
  end.

Definition select_vote (m : RaftMessage) : option RequestVoteResp :=
  match m with MRequestVoteResp r => Some r | _ => None end.
Definition select_pre_vote (m : RaftMessage) : option RequestVoteResp :=
  match m with MPreVoteResp r => Some r | _ => None end.

(** The frames of the second pass. *)
Definition requests (select : RaftMessage -> option RequestVoteResp)
  (msgs : list InboundRaftMessage) : list InboundRaftMessage :=
  List.filter (fun im => match select (im_message im) with Some _ => false | None => true end) msgs.

Definition still_candidate (term : Term) n : bool :=
  role_eqb (ss_role (soft_state n)) Candidate && (node_term n =? term).

Fixpoint collect_loop (fuel : nat) (term possible_votes deadline buf_len : Z) (b : Ballot)
  : L bool :=
  match fuel with
  | O => out_of_fuel
  | Datatypes.S fuel' =>
      won ← run (gets (voter_majority (granted b)));
      if (won : bool) || (possible_votes <=? Z.of_nat (length (responders b))) then mret won
      else
        msgs ← drain_inbound_frames fuel' deadline buf_len;
        if is_nil msgs then run (err NoQuorum)
        else
          counted ← run (count_responses select_vote (fun _ => term) msgs b);
          match counted with
          | None => mret false
          | Some b =>
              won ← run (gets (voter_majority (granted b)));
              if won : bool then mret true
              else
                run (for_each (requests select_vote msgs) handle_inbound_tolerant);;
                still ← run (gets (still_candidate term));
                if still : bool
                then collect_loop fuel' term possible_votes deadline buf_len b
                else mret false
          end
  end.

Definition collect_votes (fuel : nat) (term possible_votes buf_len : Z) : L bool :=
  b ← run (gets initial_ballot);
  t ← run now;
  timeout ← run (gets election_timeout);
  collect_loop fuel term possible_votes (t + timeout) buf_len b.

(** ** Elections *)

(** The other voters, in order. *)
Definition other_peers n : list PeerId :=
  List.filter (fun p => negb (p =? node_id n)) (node_peers n).

Definition broadcast (msg : RaftMessage) : M Z :=
  modify (fun n => set_scratch_peers (other_peers n) n);;
  peers ← gets scratch_peers;
  frame ← encode_frame msg;
  sent ← send_frames peers frame;
  mret (1 + sent).

Definition broadcast_request_vote (req : RequestVote) : M Z := broadcast (MRequestVote req).

(** Become a candidate at the next term and persist the vote for oneself. *)
Definition start_campaign : M Term :=
  modify (set_role Candidate);;
  modify (set_is_leader false);;
  modify (set_leader_id None);;
  on_metrics inc_elections_started;;
  modify (fun n => set_term (sat_add64 (node_term n) 1) n);;
  modify (fun n => set_vote (Some (node_id n)) n);;
  persist_hard_state;;
  gets node_term.

Definition become_leader : M unit :=
  modify (set_role Leader);;
  modify (set_is_leader true);;
  modify (fun n => set_leader_id (Some (node_id n)) n);;
  on_metrics inc_elections_won;;
  initialize_leader_progress.

Definition vote_request n (term : Term) (last : LogIndex * Term) : RequestVote :=
  {| rv_term := term; rv_candidate_id := node_id n;
     rv_last_log_index := last.1; rv_last_log_term := last.2 |}.

Definition votes_needed n : Z := Z.of_nat (quorum (length (node_peers n))).

(** The election at [term]: broadcast, collect, take office. *)
Definition run_election (fuel : nat) (term : Term) (buf_len : Z) : L bool :=
  needed ← run (gets votes_needed);
  last ← run (on_storage last_log_position);
  req ← run (gets (fun n => vote_request n term last));
  possible ← run (broadcast_request_vote req);
  if possible <? needed then run (err NoQuorum)
  else
    won ← collect_votes fuel term possible buf_len;
    if negb won then mret false
    else
      still ← run (gets (still_candidate term));
      if negb still then mret false
      else run become_leader;; mret true.

Definition campaign_once (fuel : nat) (buf_len : Z) : L bool :=
  voter ← run (gets (fun n => contains (node_id n) (node_peers n)));
  if negb voter then mret false
  else
    term ← run start_campaign;
    run_election fuel term buf_len.

(** ** Pre-elections *)

Fixpoint pre_vote_loop (fuel : nat) (pre_vote_term possible_votes deadline buf_len : Z)
  (b : Ballot) : L bool :=
  match fuel with
  | O => out_of_fuel
  | Datatypes.S fuel' =>
      won ← run (gets (voter_majority (granted b)));
      if (won : bool) || (possible_votes <=? Z.of_nat (length (responders b))) then mret won
      else
        msgs ← drain_inbound_frames fuel' deadline buf_len;
        if is_nil msgs then mret false
        else
          counted ← run (count_responses select_pre_vote node_term msgs b);
          match counted with
          | None => mret false
          | Some b =>
              won ← run (gets (voter_majority (granted b)));
              if won : bool then mret true
              else
                run (for_each (requests select_pre_vote msgs) handle_inbound);;
                moved_on ← run (gets (fun n => pre_vote_term <=? node_term n));
                if moved_on : bool then mret false
                else pre_vote_loop fuel' pre_vote_term possible_votes deadline buf_len b
          end
  end.

Definition campaign_pre_vote (fuel : nat) (buf_len : Z) : L bool :=
  voter ← run (gets (fun n => contains (node_id n) (node_peers n)));
  if negb voter then mret false
  else
    pre_vote_term ← run (gets (fun n => sat_add64 (node_term n) 1));
    needed ← run (gets votes_needed);
    last ← run (on_storage last_log_position);
    req ← run (gets (fun n => vote_request n pre_vote_term last));
    possible ← run (broadcast (MPreVote req));
    if possible <? needed then mret false
    else
      b ← run (gets initial_ballot);
      t ← run now;
      timeout ← run (gets election_timeout);
      pre_vote_loop fuel pre_vote_term possible (t + timeout) buf_len b.
End Campaign.
