(* ===== verification/Leader.v ===== *)
(** * Leader: what a leader sends

    Models [send_append_attempt] of [src/api/node/replication/shared.rs],
    [advance_append_replication] of [src/api/node/replication/handler.rs] and
    the wire of the bare heartbeats of
    [src/api/node/replication/heartbeat.rs]. *)

From stdpp Require Import base list sets gmap strings.
From Stdlib Require Import ZArith Lia.
From S2P Require Import Prelude Types Wire Codec Arena Progress Quorum Traits Membership.
From S2P Require Import NodeState Node Replication.

Local Open Scope string_scope.
Local Open Scope list_scope.
Local Open Scope Z_scope.

(** The size of [scratch_payload]. *)
Definition PAYLOAD_SCRATCH : Z := 16 * 1024 * 1024.

Section Leader.
Context {S T C D : Type} `{RaftStorage S} `{RaftTransport T} `{Clock C} `{CustomDispatch D T}.
Implicit Types n : RaftNode S T C D.
#[local] Abbreviation M := (M S T C D).

(** The [AppendEntries] a leader builds; [len() as u32] is the count. *)
Definition append_request n (prev_log_index : LogIndex) (prev_log_term : Term) (count : nat)
  : AppendEntries :=
  {| ae_term := node_term n; ae_leader_id := node_id n;
     ae_prev_log_index := prev_log_index; ae_prev_log_term := prev_log_term;
     ae_leader_commit := commit_index n; ae_entry_count := Z.of_nat count mod 2 ^ 32;
     ae_pad := read_probe_seq n |}.

Definition batch_limit n : nat :=
  Z.to_nat (Z.max (append_batch_entries (cfg_limits (config n))) 1).

(** The copying path: read the entries and send them. *)
Definition send_entries_read (peer : PeerId) (prev_idx : LogIndex) (prev_term : Term)
  (next_index : LogIndex) : M (option LogIndex) :=
  all ← on_storage (read_entries next_index u64_max PAYLOAD_SCRATCH);
  limit ← gets batch_limit;
  let entries := take limit all in
  let last_idx := match last entries with Some e => e_index e | None => prev_idx end in
  req ← gets (fun n => append_request n prev_idx prev_term (length entries));
  sent ← send_message peer (MAppendEntriesVectored req entries);
  mret (if sent : bool then Some last_idx else None).

(** The zero-copy path: [headers] is not empty and [last_header] its last. *)
Definition send_entries_seeded (peer : PeerId) (prev_idx : LogIndex) (prev_term : Term)
  (next_index : LogIndex) (headers : list EntryHeader) (last_header : EntryHeader)
  : M (option LogIndex) :=
  let to_idx := wrap_add64 next_index (Z.of_nat (length headers) - 1) in
  payload_refs ← on_storage (for_each_payload next_index to_idx);
  req ← gets (fun n => append_request n prev_idx prev_term (length headers));
  sent ← send_message peer
           (MAppendEntriesSeededVectored req (concat (map as_bytes headers)) payload_refs);
  mret (if sent : bool then Some (eh_index last_header) else None).

Definition send_append_attempt (peer : PeerId) : M (option LogIndex) :=
  '(prev_idx, prev_term, next_index) ← append_prev_for_peer peer;
  found ← attempt (on_storage (read_entry_headers next_index u64_max));
  limit ← gets batch_limit;
  match found with
  | Ok (Some headers) =>
      let headers := take limit headers in
      match last headers with
      | Some last_header =>
          send_entries_seeded peer prev_idx prev_term next_index headers last_header
      | None => send_entries_read peer prev_idx prev_term next_index
      end
  | _ => send_entries_read peer prev_idx prev_term next_index
  end.

(** ** Acknowledgements during a proposal *)

(** The change of the progress, and what to do next: ignore the response,
    stop at the target, or send again. *)
Inductive AdvanceStep :=
| StepIgnored
| StepCompleted
| StepResend.

Definition advance_step (target_index : LogIndex) (state : AppendAttemptState) (success : bool)
  (resp_match_index next_index_cap : Z) (p : PeerProgress) : AdvanceStep * PeerProgress :=
  if success then
    if resp_match_index <? sent_last_index state then (StepIgnored, p)
    else
      let p' := {| match_index := resp_match_index;
                   next_index := Z.min (sat_add64 resp_match_index 1) next_index_cap |} in
      (if target_index <=? resp_match_index then StepCompleted else StepResend, p')
  else if resp_match_index <? match_index p then (StepIgnored, p)
  else (StepResend,
        {| match_index := match_index p;
           next_index := walk_back (next_index p) resp_match_index next_index_cap |}).

Definition advance_append_replication (peer : PeerId) (target_index : LogIndex)
  (state : AppendAttemptState) (resp : AppendEntriesResp) : M AppendAdvance :=
  current ← gets node_term;
  if current <? aer_term resp then
    step_down (aer_term resp);;
    t ← gets node_term;
    err (TermChanged t)
  else
    progress ← gets (fun n => pm_get peer (peer_progress n));
    match progress with
    | None => err (PeerUnknown peer)
    | Some p =>
        cap ← gets (fun n => sat_add64 (cached_last_log n).1 1);
        let '(step, p') := advance_step target_index state (negb (aer_success resp =? 0))
                             (aer_match_index resp) cap p in
        modify (fun n => set_peer_progress (pm_update peer (fun _ => p') (peer_progress n)) n);;
        match step with
        | StepIgnored => mret Ignored
        | StepCompleted => mret Completed
        | StepResend =>
            let next_attempt := attempts state + 1 in
            sent ← send_append_attempt peer;
            mret (match sent with
                  | Some i => Retry {| attempts := next_attempt; sent_last_index := i |}
                  | None => Dropped
                  end)
        end
    end.

(** ** Bare heartbeats *)

Definition build_heartbeat_wire (peer : PeerId) : M (option AppendEntries) :=
  leader ← gets is_leader;
  if negb leader then mret None
  else
    ensure_leader_progress_initialized;;
    '(prev_idx, prev_term, next_index) ← append_prev_for_peer peer;
    on_storage (read_entries next_index u64_max PAYLOAD_SCRATCH);;
    req ← gets (fun n => append_request n prev_idx prev_term 0);
    mret (Some req).

(** Voters and learners other than this node. *)
Definition replication_targets n : list PeerId :=
  List.filter (fun p => negb (p =? node_id n)) (node_peers n ++ node_learners n).

Definition send_bare_heartbeat (peer : PeerId) : M unit :=
  wire ← attempt (build_heartbeat_wire peer);
  match wire with
  | Ok (Some req) => send_message peer (MAppendEntriesVectored req []);; mret tt
  | _ => mret tt
  end.

Definition send_bare_heartbeats_except (skip : PeerId) : M unit :=
  leader ← gets is_leader;
  if negb leader then mret tt
  else
    modify (fun n =>
      set_scratch_peers (List.filter (fun p => negb (p =? skip)) (replication_targets n)) n);;
    peers ← gets scratch_peers;
    for_each peers send_bare_heartbeat.
End Leader.
