(* ===== verification/Install.v ===== *)
(** * Install: streaming a snapshot to a follower, and the heartbeat tick

    Models [install_snapshot_once] of [src/api/node/snapshot.rs],
    [maybe_install_snapshot_to_lagging_peer] of
    [src/api/node/snapshot_install.rs] and [send_heartbeat_once] of
    [src/api/node/replication/heartbeat.rs], which escalates to it. *)

From stdpp Require Import base list sets gmap strings.
From Stdlib Require Import ZArith Lia.
From S2P Require Import Prelude Types Wire Codec Arena Progress Quorum Traits Membership.
From S2P Require Import NodeState Node Replication Leader Inbound.

Local Open Scope string_scope.
Local Open Scope list_scope.
Local Open Scope Z_scope.

(** The size of the receive buffer of an install. *)
Definition INSTALL_BUF : Z := 4096.

(** ** The decision on a response *)

Inductive InstallReply :=
| Installed
| NextOffset (offset rounds : Z)
| InstallAborted (e : RaftError).

(** What the leader does with an [InstallSnapshotResp] of its own term or an
    older one, having sent the chunk that ends the transfer iff [finished]. *)
Definition install_reply (total offset rounds max_rounds : Z) (finished : bool)
  (resp : InstallSnapshotResp) : InstallReply :=
  let next_off := isr_next_offset resp in
  let accepted := negb (isr_accepted resp =? 0) in
  if total <? next_off then
    InstallAborted (Protocol "install snapshot next_offset past total")
  else if accepted && (finished || (total <=? next_off)) then Installed
  else if accepted && (offset <? next_off) then NextOffset next_off 0
  else if max_rounds <=? rounds + 1 then
    InstallAborted (SnapshotErr "install snapshot aborted: no-progress round cap exceeded")
  else NextOffset next_off (rounds + 1).

(** The chunk at [offset]: its end. *)
Definition chunk_end (total chunk_size offset : Z) : Z :=
  if u64_max <? offset + chunk_size then total else Z.min (offset + chunk_size) total.

Section Install.
Context {S T C D : Type} `{RaftStorage S} `{RaftTransport T} `{Clock C} `{CustomDispatch D T}.
Implicit Types n : RaftNode S T C D.
#[local] Abbreviation M := (M S T C D).
#[local] Abbreviation L := (L S T C D).

Definition install_request n (meta : SnapshotMeta) (offset : Z) (chunk : bytes) (finished : bool)
  : InstallSnapshot :=
  {| is_term := node_term n; is_leader_id := node_id n;
     is_last_included_index := last_included_index meta;
     is_last_included_term := last_included_term meta;
     is_offset := offset; is_chunk_len := Z.of_nat (length chunk) mod 2 ^ 32;
     is_done := if finished then 1 else 0; is_pad := replicate 3 (to_byte 0) |}.

(** The inner loop: other frames are handled until the peer answers. *)
Fixpoint await_install_reply (fuel : nat) (peer : PeerId) (start_term : Term)
  (total offset rounds max_rounds timeout : Z) (finished : bool) : L InstallReply :=
  match fuel with
  | O => out_of_fuel
  | Datatypes.S fuel' =>
      frame ← run (on_transport (recv_frame_timeout timeout INSTALL_BUF));
      match frame with
      | None => run (err NoQuorum)
      | Some f =>
          inbound ← run (from_res (decode_message f));
          match im_message inbound with
          | MInstallSnapshotResp resp =>
              if im_from inbound =? peer then
                current ← run (gets node_term);
                if current <? isr_term resp then
                  run (step_down (isr_term resp));;
                  t ← run (gets node_term);
                  run (err (TermChanged t))
                else mret (install_reply total offset rounds max_rounds finished resp)
              else other_frame fuel' peer start_term total offset rounds max_rounds timeout
                     finished inbound
          | _ => other_frame fuel' peer start_term total offset rounds max_rounds timeout
                   finished inbound
          end
      end
  end
with other_frame (fuel : nat) (peer : PeerId) (start_term : Term)
  (total offset rounds max_rounds timeout : Z) (finished : bool)
  (inbound : InboundRaftMessage) : L InstallReply :=
  match fuel with
  | O => out_of_fuel
  | Datatypes.S fuel' =>
      run (handle_inbound inbound);;
      lost ← run (gets (fun n => negb (is_leader n) || negb (node_term n =? start_term)));
      if lost : bool then e ← run (gets not_leader_error); run (err e)
      else await_install_reply fuel' peer start_term total offset rounds max_rounds timeout
             finished
  end.

Fixpoint install_loop (fuel : nat) (peer : PeerId) (meta : SnapshotMeta) (snapshot : bytes)
  (start_term : Term) (offset last_heartbeat rounds : Z) : L unit :=
  match fuel with
  | O => out_of_fuel
  | Datatypes.S fuel' =>
      let total := Z.of_nat (length snapshot) in
      interval ← run (gets (fun n => Z.max (heartbeat_ms (cfg_timing (config n))) 1));
      timeout ← run (gets (fun n => wrap_mul64 (heartbeat_ms (cfg_timing (config n))) 2));
      max_rounds ← run (gets (fun n =>
        Z.max (snapshot_max_attempts_per_peer (cfg_limits (config n))) 1));
      chunk_size ← run (gets (fun n => Z.max (snapshot_chunk_bytes (cfg_limits (config n))) 1));
      t ← run now;
      last_heartbeat ← run (if interval <=? sat_sub t last_heartbeat
                            then send_bare_heartbeats_except peer;; now
                            else mret last_heartbeat);
      let offset := Z.min offset total in
      let end_ := chunk_end total chunk_size offset in
      let finished := end_ =? total in
      let chunk := take (Z.to_nat (end_ - offset)) (drop (Z.to_nat offset) snapshot) in
      req ← run (gets (fun n => install_request n meta offset chunk finished));
      run (send_message peer (MInstallSnapshot req chunk));;
      reply ← await_install_reply fuel' peer start_term total offset rounds max_rounds timeout
                finished;
      match reply with
      | Installed => mret tt
      | InstallAborted e => run (err e)
      | NextOffset off rounds =>
          install_loop fuel' peer meta snapshot start_term off last_heartbeat rounds
      end
  end.

Definition install_snapshot_once (fuel : nat) (peer : PeerId) (meta : SnapshotMeta)
  (snapshot : bytes) : L unit :=
  leader ← run (gets is_leader);
  if negb leader then e ← run (gets not_leader_error); run (err e)
  else
    start_term ← run (gets node_term);
    t ← run now;
    install_loop fuel peer meta snapshot start_term 0 t 0.

(** ** The install gate *)

(** One round of the per-peer attempt budget: whether to try, and the budget
    after it. *)
Definition attempt_budget (max_attempts cooldown t : Z) (s : SnapshotAttempts)
  : bool * SnapshotAttempts :=
  let spend s :=
    if max_attempts <=? sa_attempts s
    then (false, {| sa_attempts := sa_attempts s; cooldown_until := Some (t + cooldown) |})
    else (true, {| sa_attempts := sa_attempts s + 1; cooldown_until := cooldown_until s |}) in
  match cooldown_until s with
  | Some until => if t <? until then (false, s) else spend SnapshotAttempts_default
  | None => spend s
  end.

Definition put_attempts (peer : PeerId) (s : SnapshotAttempts) : M unit :=
  modify (fun n => set_snapshot_attempts (<[peer := s]> (snapshot_attempts n)) n).

Definition spend_attempt (peer : PeerId) : M bool :=
  max_attempts ← gets (fun n => Z.max (snapshot_max_attempts_per_peer (cfg_limits (config n))) 1);
  cooldown ← gets (fun n => snapshot_attempt_cooldown_ms (cfg_limits (config n)));
  t ← now;
  s ← gets (fun n => default SnapshotAttempts_default (snapshot_attempts n !! peer));
  let '(ok, s') := attempt_budget max_attempts cooldown t s in
  put_attempts peer s';;
  whenM (negb ok) (on_metrics inc_snapshot_installs_refused);;
  mret ok.

(** The progress of the peer after its install. *)
Definition progress_past (boundary last_log : LogIndex) (p : PeerProgress) : PeerProgress :=
  let matched := Z.min boundary last_log in
  let next := Z.min (sat_add64 boundary 1) (sat_add64 last_log 1) in
  {| match_index := if match_index p <? matched then matched else match_index p;
     next_index := if next_index p <? next then next else next_index p |}.

Definition maybe_install_snapshot_to_lagging_peer (fuel : nat) (peer : PeerId) : L bool :=
  progress ← run (gets (fun n => pm_get peer (peer_progress n)));
  match progress with
  | None => mret false
  | Some p =>
      probe ← run (on_storage load_snapshot_meta);
      match probe with
      | None => mret false
      | Some meta =>
          if last_included_index meta <? next_index p then mret false
          else
            ok ← run (spend_attempt peer);
            if negb ok then mret false
            else
              loaded ← run (on_storage load_snapshot);
              match loaded with
              | None => mret false
              | Some (meta, snapshot) =>
                  install_snapshot_once fuel peer meta snapshot;;
                  run (
                    modify (fun n =>
                      set_snapshot_attempts (delete peer (snapshot_attempts n)) n);;
                    modify (fun n =>
                      set_peer_progress
                        (pm_update peer
                           (progress_past (last_included_index meta) (cached_last_log n).1)
                           (peer_progress n)) n));;
                  mret true
              end
      end
  end.

(** ** The heartbeat tick *)

Inductive SnapshotEscalation := Streamed | Refused | Failed.

Definition escalate_snapshot_catchup (fuel : nat) (peer : PeerId) : L SnapshotEscalation :=
  r ← attempt_loop (maybe_install_snapshot_to_lagging_peer fuel peer);
  mret (match r with
        | Ok true => Streamed
        | Ok false => Refused
        | Err _ => Failed
        end).

(** At most one escalation per tick. *)
Definition escalate_once (fuel : nat) (escalated : bool) (peer : PeerId) : L bool :=
  if escalated then mret true
  else
    e ← escalate_snapshot_catchup fuel peer;
    mret (match e with Refused => false | _ => true end).

(** One peer of the tick; the result is [escalated_this_tick]. *)
Definition heartbeat_peer (fuel : nat) (last_log : LogIndex) (escalated : bool) (peer : PeerId)
  : L bool :=
  next ← run (gets (fun n => next_index <$> pm_get peer (peer_progress n)));
  let behind := match next with Some i => i <=? last_log | None => false end in
  if behind then
    found ← run (attempt (on_storage (entry_at (default 0 next) PAYLOAD_SCRATCH)));
    match found with
    | Ok None => escalate_once fuel escalated peer
    | _ =>
        sent ← run (attempt (send_append_attempt peer));
        match sent with
        | Ok _ => mret escalated
        | Err _ => escalate_once fuel escalated peer
        end
    end
  else
    run (send_bare_heartbeat peer);;
    mret escalated.

(** [for i in 0..len { let peer = self.scratch_peers[i]; ... }]: the bound is
    read once and the vector at every turn; an index out of range panics. *)
Fixpoint heartbeat_indices (fuel : nat) (last_log : LogIndex) (idx : list nat)
  (escalated : bool) : L unit :=
  match idx with
  | [] => mret tt
  | i :: idx' =>
      peer ← run (gets (fun n => scratch_peers n !! i));
      match peer with
      | None => panic
      | Some peer =>
          escalated ← heartbeat_peer fuel last_log escalated peer;
          heartbeat_indices fuel last_log idx' escalated
      end
  end.

Definition send_heartbeat_once (fuel : nat) : L unit :=
  leader ← run (gets is_leader);
  if negb leader then e ← run (gets not_leader_error); run (err e)
  else
    run ensure_leader_progress_initialized;;
    run (modify (fun n => set_scratch_peers (replication_targets n) n));;
    last_log ← run (gets (fun n => (cached_last_log n).1));
    len ← run (gets (fun n => length (scratch_peers n)));
    heartbeat_indices fuel last_log (seq 0 len) false.
End Install.
