(* ===== verification/Propose.v ===== *)
(** * Propose: client proposals

    Models [src/api/node/replication/propose]: appending a batch, fanning it
    out, gathering acknowledgements and the two commit paths; and
    [drain_inbound_ready] of [src/api/node/replication/shared.rs]. *)

From stdpp Require Import base list sets gmap strings.
From Stdlib Require Import ZArith Lia.
From S2P Require Import Prelude Types Wire Codec Arena Progress Quorum Traits Membership.
From S2P Require Import NodeState Node Replication Commit Transfer Inbound Campaign Leader.

Local Open Scope string_scope.
Local Open Scope list_scope.
Local Open Scope Z_scope.

(** The size of [scratch_quorum_buf]. *)
Definition QUORUM_BUF : Z := 64 * 1024.

(** The tuning read from the environment at the first use. *)
Record VecTuning := {
  vt_force : option bool;
  vt_iov_max : Z;
  vt_min_entry : Z;
  vt_min_total : Z;
}.

(** Without any environment variable set. *)
Definition VecTuning_default : VecTuning :=
  {| vt_force := None; vt_iov_max := 4096; vt_min_entry := 4096; vt_min_total := 64 * 1024 |}.

(** The loop over the entries: [None] at one below the threshold. *)
Fixpoint payload_total (min_entry : Z) (entries : list LogEntry) (total : Z) : option Z :=
  match entries with
  | [] => Some total
  | e :: es =>
      let len := Z.of_nat (length (e_payload e)) in
      if len <? min_entry then None else payload_total min_entry es (total + len)
  end.

Definition should_use_vectored (t : VecTuning) (entries : list LogEntry) : bool :=
  match vt_force t with
  | Some forced => forced
  | None =>
      let n_iovs := Z.of_nat (length entries) * 2 + 4 in
      if vt_iov_max t <? n_iovs then false
      else match payload_total (vt_min_entry t) entries 0 with
           | None => false
           | Some total => vt_min_total t <=? total
           end
  end.

(** The entries of a batch: consecutive indexes, [next_raw += 1] at its width. *)
Fixpoint batch_entries (term : Term) (next_raw : Z) (payloads : list bytes) : list LogEntry :=
  match payloads with
  | [] => []
  | p :: ps =>
      {| e_term := term; e_index := next_raw; e_payload := p |}
      :: batch_entries term (wrap_add64 next_raw 1) ps
  end.

Section Propose.
Context {S T C D : Type} `{RaftStorage S} `{RaftTransport T} `{Clock C} `{CustomDispatch D T}.
Context (tuning : VecTuning).
Implicit Types n : RaftNode S T C D.
#[local] Abbreviation M := (M S T C D).
#[local] Abbreviation L := (L S T C D).

(** ** Appending and sending *)

(** The last index and the entries. *)
Definition append_propose_entries (payloads : list bytes) : M (LogIndex * list LogEntry) :=
  entries ← gets (fun n =>
    batch_entries (node_term n) (sat_add64 (cached_last_log n).1 1) payloads);
  modify (set_scratch_indexes (map e_index entries));;
  match last (map e_index entries) with
  | None => err (InvalidPayload "empty payload batch")
  | Some last_index =>
      on_storage (append_entries entries);;
      modify (fun n =>
        set_log_metadata (arena_append_all (map entry_position entries) (log_metadata n)) n);;
      modify (fun n => set_cached_last_log (last_index, node_term n) n);;
      mret (last_index, entries)
  end.

Definition encode_vectored (msg : RaftMessage) : M (list bytes) :=
  fun n =>
    match encode_message_vectored (node_id n) msg (scratch_outbound n) with
    | Some (Ok (buf, out)) => (Ok (map (slice_bytes buf) out), set_scratch_outbound buf n)
    | Some (Err e) => (Err e, n)
    | None => (Err (Protocol "encoder panic"), n)
    end.

(** The peers whose send succeeded. *)
Fixpoint send_each (send : PeerId -> M unit) (peers : list PeerId) : M (list PeerId) :=
  match peers with
  | [] => mret []
  | p :: ps =>
      r ← attempt (send p);
      sent ← send_each send ps;
      mret (if is_ok r then p :: sent else sent)
  end.

(** One frame to every peer of [scratch_peers], by slices or as one buffer. *)
Definition fan_out (msg : RaftMessage) (entries : list LogEntry) : M (list PeerId) :=
  peers ← gets scratch_peers;
  if should_use_vectored tuning entries then
    slices ← encode_vectored msg;
    send_each (fun p => on_transport (send_vectored p slices)) peers
  else
    frame ← encode_frame msg;
    send_each (fun p => on_transport (send_frame_owned p frame)) peers.

Definition put_pending_acks (peers : list PeerId) (last_index : LogIndex) n
  : RaftNode S T C D :=
  set_scratch_pending
    (foldl (fun m p => pm_insert p {| attempts := 1; sent_last_index := last_index |} m)
       (scratch_pending n) peers) n.

Definition send_initial_appends (entries : list LogEntry) : M unit :=
  modify (fun n => set_scratch_peers (replication_targets n) n);;
  none ← gets (fun n => is_nil (scratch_peers n));
  if none : bool then mret tt
  else
    last ← on_storage last_log_position;
    let count := Z.of_nat (length entries) in
    if last.1 <? count then
      err (CorruptLog "last_log_position smaller than just-appended batch (prev_log_index underflow)")
    else
      let prev_log_index := last.1 - count in
      prev_log_term ← term_at prev_log_index;
      req ← gets (fun n => append_request n prev_log_index prev_log_term (length entries));
      modify (set_scratch_pending []);;
      sent ← fan_out (MAppendEntriesVectored req entries) entries;
      modify (put_pending_acks sent last.1).

(** ** Gathering acknowledgements *)

(** The count of accepted acknowledgements after the response. *)
Definition process_append_resp (from : PeerId) (resp : AppendEntriesResp)
  (last_index : LogIndex) (accepted : Z) : M Z :=
  pending ← gets (fun n => pm_get from (scratch_pending n));
  match pending with
  | Some state =>
      advance ← advance_append_replication from last_index state resp;
      match advance with
      | Completed =>
          modify (fun n => set_scratch_pending (pm_remove from (scratch_pending n)) n);;
          voter ← gets (fun n => contains from (node_peers n));
          mret (if voter : bool then accepted + 1 else accepted)
      | _ => mret accepted
      end
  | None => handle_append_entries_response from resp;; mret accepted
  end.

Definition gather_dispatch_frame (f : bytes) (last_index : LogIndex) (accepted : Z) : M Z :=
  inbound ← from_res (decode_message f);
  match im_message inbound with
  | MAppendEntriesResp resp => process_append_resp (im_from inbound) resp last_index accepted
  | _ => handle_inbound inbound;; mret accepted
  end.

(** A non-fatal error drops the frame. *)
Definition gather_frame (f : bytes) (last_index : LogIndex) (accepted : Z) : M Z :=
  r ← attempt (gather_dispatch_frame f last_index accepted);
  match r with
  | Ok accepted => mret accepted
  | Err e => if is_fatal e then err e else mret accepted
  end.

Definition gather_done (needed accepted : Z) (last_index : LogIndex) n : bool :=
  propose_commit_reached needed accepted last_index n || pm_is_empty (scratch_pending n).

(** The inner loop: frames that are already there. *)
Fixpoint gather_burst (fuel : nat) (needed : Z) (last_index : LogIndex) (deadline accepted : Z)
  : L Z :=
  match fuel with
  | O => out_of_fuel
  | Datatypes.S fuel' =>
      frame ← run (drain_recv 0 QUORUM_BUF);
      match frame with
      | None => mret accepted
      | Some f =>
          accepted ← run (gather_frame f last_index accepted);
          done ← run (gets (gather_done needed accepted last_index));
          if done : bool then mret accepted
          else
            t ← run now;
            if deadline <=? t then mret accepted
            else gather_burst fuel' needed last_index deadline accepted
      end
  end.

Fixpoint gather_loop (fuel : nat) (needed : Z) (last_index : LogIndex) (deadline accepted : Z)
  : L Z :=
  match fuel with
  | O => out_of_fuel
  | Datatypes.S fuel' =>
      done ← run (gets (gather_done needed accepted last_index));
      if done : bool then mret accepted
      else
        accepted ← gather_burst fuel' needed last_index deadline accepted;
        done ← run (gets (gather_done needed accepted last_index));
        if done : bool then mret accepted
        else
          t ← run now;
          let remaining := sat_sub deadline t in
          if remaining =? 0 then mret accepted
          else
            frame ← run (drain_recv remaining QUORUM_BUF);
            match frame with
            | None => mret accepted
            | Some f =>
                accepted ← run (gather_frame f last_index accepted);
                gather_loop fuel' needed last_index deadline accepted
            end
  end.

Definition gather_quorum_acks (fuel : nat) (needed : Z) (last_index : LogIndex) (timeout : Z)
  : L Z :=
  t ← run now;
  gather_loop fuel needed last_index (t + timeout) 1.

(** ** After the commit *)

Fixpoint drain_inbound_ready (fuel : nat) : L unit :=
  match fuel with
  | O => out_of_fuel
  | Datatypes.S fuel' =>
      frame ← run (drain_recv 0 QUORUM_BUF);
      match frame with
      | None => mret tt
      | Some f =>
          match decode_message f with
          | Err _ => drain_inbound_ready fuel'
          | Ok inbound => run (handle_inbound_tolerant inbound);; drain_inbound_ready fuel'
          end
      end
  end.

(** ** Proposals *)

(** The guards of every proposal. *)
Definition propose_guard : M unit :=
  leader ← gets is_leader;
  if negb leader then e ← gets not_leader_error; err e
  else check_transfer_freeze.

(** The fast path of the commit: no transition, still the leader of the term
    of the batch, enough acknowledgements. *)
Definition commit_directly (propose_term : Term) (needed accepted : Z) n : bool :=
  match joint_peers n with Some _ => false | None => true end
  && is_leader n && (node_term n =? propose_term) && (needed <=? accepted).

Definition commit_proposal (propose_term : Term) (needed accepted : Z) (last_index : LogIndex)
  : M unit :=
  direct ← gets (commit_directly propose_term needed accepted);
  if direct : bool then
    commit ← gets commit_index;
    whenM (commit <? last_index) (modify (set_commit_index last_index))
  else try_advance_commit_index.

Definition propose_batch_once (fuel : nat) (payloads : list bytes) : L (list LogIndex) :=
  run propose_guard;;
  if is_nil payloads then mret []
  else
    run ensure_leader_progress_initialized;;
    '(last_index, entries) ← run (append_propose_entries payloads);
    run (send_initial_appends entries);;
    needed ← run (gets votes_needed);
    timeout ← run (gets (fun n => wrap_mul64 (heartbeat_ms (cfg_timing (config n))) 2));
    propose_term ← run (gets node_term);
    accepted ← gather_quorum_acks fuel needed last_index timeout;
    run (commit_proposal propose_term needed accepted last_index);;
    commit ← run (gets commit_index);
    if commit <? last_index then run (err NoQuorum)
    else
      drain_inbound_ready fuel;;
      run (gets scratch_indexes).

Definition propose_once (fuel : nat) (payload : bytes) : L LogIndex :=
  indexes ← propose_batch_once fuel [payload];
  match indexes with
  | i :: _ => mret i
  | [] => run (err (Protocol "propose failed to return index"))
  end.

(** ** Replication without waiting *)

Definition replicate_batch_inner (payloads : list bytes) : M (LogIndex * Z) :=
  prev ← gets cached_last_log;
  let first_index := sat_add64 prev.1 1 in
  entries ← gets (fun n => batch_entries (node_term n) first_index payloads);
  on_storage (append_entries entries);;
  note_appended (map entry_position entries);;
  req ← gets (fun n => append_request n prev.1 prev.2 (length entries));
  modify (fun n => set_scratch_peers (replication_targets n) n);;
  fan_out (MAppendEntriesVectored req entries) entries;;
  mret (first_index, Z.of_nat (length payloads)).

Definition replicate_batch_async (payloads : list bytes) : M (LogIndex * Z) :=
  propose_guard;;
  if is_nil payloads then mret (0, 0)
  else
    ensure_leader_progress_initialized;;
    replicate_batch_inner payloads.
End Propose.
