(* ===== verification/ReadIndex.v ===== *)
(** * ReadIndex: linearizable reads and leadership transfer

    Models [src/api/node/read_index.rs] and [transfer_leadership] of
    [src/api/node/transfer.rs], the two methods that drive heartbeats while
    they wait for acknowledgements. *)

From stdpp Require Import base list sets gmap strings.
From Stdlib Require Import ZArith Lia.
From S2P Require Import Prelude Types Wire Codec Arena Progress Quorum Traits Membership.
From S2P Require Import NodeState Node Replication Commit Transfer Inbound Campaign Leader.
From S2P Require Import Install Propose.

Local Open Scope string_scope.
Local Open Scope list_scope.
Local Open Scope Z_scope.

Section ReadIndex.
Context {S T C D : Type} `{RaftStorage S} `{RaftTransport T} `{Clock C} `{CustomDispatch D T}.
Context (tuning : VecTuning).
Implicit Types n : RaftNode S T C D.
#[local] Abbreviation M := (M S T C D).
#[local] Abbreviation L := (L S T C D).

Definition lost_leadership (term : Term) n : bool :=
  negb (is_leader n) || negb (node_term n =? term).

Definition heartbeat_interval n : Z := Z.max (heartbeat_ms (cfg_timing (config n))) 1.

(** The token the follower echoes: [u32::from_le_bytes(_pad[0..4])]. *)
Definition echoed_probe (resp : AppendEntriesResp) : Z := le_value (take 4 (aer_pad resp)).

(** ** Confirming leadership *)

(** The acknowledgements after one frame. *)
Definition record_ack (confirm_term : Term) (probe : Z) (inbound : InboundRaftMessage)
  (acks : list PeerId) n : list PeerId :=
  match im_message inbound with
  | MAppendEntriesResp resp =>
      let from := im_from inbound in
      if (aer_term resp =? confirm_term) && (echoed_probe resp =? probe)
         && contains from (node_peers n) && negb (contains from acks)
      then acks ++ [from] else acks
  | _ => acks
  end.

(** The frames of one drain: record the acknowledgement, then handle. *)
Fixpoint confirm_frames (confirm_term : Term) (probe : Z) (msgs : list InboundRaftMessage)
  (acks : list PeerId) : M (list PeerId) :=
  match msgs with
  | [] => mret acks
  | inbound :: msgs' =>
      acks ← gets (record_ack confirm_term probe inbound acks);
      handle_inbound_tolerant inbound;;
      confirm_frames confirm_term probe msgs' acks
  end.

Fixpoint confirm_loop (fuel : nat) (confirm_term : Term) (probe deadline next_probe buf_len : Z)
  (acks : list PeerId) : L unit :=
  match fuel with
  | O => out_of_fuel
  | Datatypes.S fuel' =>
      lost ← run (gets (lost_leadership confirm_term));
      if lost : bool then e ← run (gets not_leader_error); run (err e)
      else
        won ← run (gets (voter_majority acks));
        if won : bool then mret tt
        else
          t ← run now;
          if deadline <=? t then run (err NoQuorum)
          else
            heartbeat ← run (gets heartbeat_interval);
            next_probe ← (if next_probe <=? t
                          then send_heartbeat_once fuel';; mret (t + heartbeat)
                          else mret next_probe);
            msgs ← drain_inbound_frames fuel' (Z.min deadline next_probe) buf_len;
            acks ← run (confirm_frames confirm_term probe msgs acks);
            confirm_loop fuel' confirm_term probe deadline next_probe buf_len acks
  end.

(** The next probe token: the counter wraps and skips 0. *)
Definition next_probe_seq (seq : Z) : Z :=
  let s := wrap_add32 seq 1 in if s =? 0 then 1 else s.

Definition confirm_leadership_quorum (fuel : nat) (confirm_term : Term) (buf_len : Z) : L unit :=
  run (modify (fun n => set_read_probe_seq (next_probe_seq (read_probe_seq n)) n));;
  probe ← run (gets read_probe_seq);
  alone ← run (gets (fun n => voter_majority [node_id n] n));
  if alone : bool then mret tt
  else
    self ← run (gets node_id);
    t ← run now;
    timeout ← run (gets election_timeout);
    first ← run now;
    confirm_loop fuel confirm_term probe (t + timeout) first buf_len [self].

(** ** ReadIndex *)

(** Whether the committed entry is of the current term. *)
Definition commit_of_term (confirm_term : Term) : M bool :=
  commit ← gets commit_index;
  if commit =? 0 then mret false
  else
    t ← attempt (term_at commit);
    mret (match t with Ok t => t =? confirm_term | Err _ => false end).

Definition read_index (fuel : nat) (buf_len : Z) : L LogIndex :=
  run propose_guard;;
  confirm_term ← run (gets node_term);
  commit ← run (gets commit_index);
  ok ← run (commit_of_term confirm_term);
  if negb ok then
    propose_once tuning fuel noop_entry;;
    run (gets commit_index)
  else
    confirm_leadership_quorum fuel confirm_term buf_len;;
    mret commit.

(** ** Leadership transfer *)

Definition target_next (target : PeerId) n : LogIndex :=
  match pm_get target (peer_progress n) with Some p => next_index p | None => 0 end.

Definition target_caught_up (target : PeerId) n : bool :=
  match pm_get target (peer_progress n) with
  | Some p => (cached_last_log n).1 <=? match_index p
  | None => false
  end.

(** One probe: a heartbeat round at its cadence, or the next batch as soon as
    the target's window moved; the next probe time and the window probed. *)
Definition catch_up_probe (fuel : nat) (target : PeerId) (t next_probe last_probed_next : Z)
  : L (Z * Z) :=
  if next_probe <=? t then
    send_heartbeat_once fuel;;
    heartbeat ← run (gets heartbeat_interval);
    next ← run (gets (target_next target));
    mret (t + heartbeat, next)
  else
    next ← run (gets (target_next target));
    if next =? last_probed_next then mret (next_probe, last_probed_next)
    else
      run (send_append_attempt target);;
      mret (next_probe, next).

Fixpoint catch_up_loop (fuel : nat) (target : PeerId) (transfer_term : Term)
  (deadline next_probe last_probed_next buf_len : Z) : L unit :=
  match fuel with
  | O => out_of_fuel
  | Datatypes.S fuel' =>
      lost ← run (gets (lost_leadership transfer_term));
      if lost : bool then e ← run (gets not_leader_error); run (err e)
      else
        caught_up ← run (gets (target_caught_up target));
        if caught_up : bool then mret tt
        else
          t ← run now;
          if deadline <=? t then run (err (TransferTimeout target))
          else
            '(next_probe, last_probed_next) ←
              catch_up_probe fuel' target t next_probe last_probed_next;
            msgs ← drain_inbound_frames fuel' (Z.min deadline next_probe) buf_len;
            run (for_each msgs handle_inbound_tolerant);;
            catch_up_loop fuel' target transfer_term deadline next_probe last_probed_next buf_len
  end.

(** Phase 2: sanction the election and freeze proposals. *)
Definition sanction (target : PeerId) (transfer_term : Term) : M unit :=
  msg ← gets (fun n => {| tn_term := transfer_term; tn_leader_id := node_id n |});
  sent ← send_message target (MTimeoutNow msg);
  if negb sent then
    err (TransportErr "leadership transfer: failed to send TimeoutNow to target")
  else
    t ← now;
    modify (fun n =>
      set_pending_transfer
        (Some {| pt_target := target; pt_deadline := t + election_timeout n |}) n).

Definition transfer_leadership (fuel : nat) (target : PeerId) (buf_len : Z) : L unit :=
  leader ← run (gets is_leader);
  if negb leader then e ← run (gets not_leader_error); run (err e)
  else
    self ← run (gets node_id);
    if target =? self then mret tt
    else
      voter ← run (gets (fun n => contains target (node_peers n)));
      if negb voter then run (err (PeerUnknown target))
      else
        run ensure_leader_progress_initialized;;
        transfer_term ← run (gets node_term);
        t ← run now;
        timeout ← run (gets election_timeout);
        first ← run now;
        catch_up_loop fuel target transfer_term (t + timeout) first u64_max buf_len;;
        run (sanction target transfer_term).
End ReadIndex.
