(* ===== verification/EngineState.v ===== *)
(** * EngineState: the engine around the node

    Models [ArbitroRaft] of [src/api/arbitro_raft/mod.rs] and the client handle
    of [src/api/arbitro_raft/client.rs].  The mailbox is the queue of the bounded
    channel with its open flag; [inbound_buf] and [apply_buf] only matter by
    their sizes.  A method is a function from the engine to a result and the
    engine after it, or to the reason why it did not return. *)

From stdpp Require Import base list sets gmap strings.
From Stdlib Require Import ZArith Lia.
From S2P Require Import Prelude Types Wire Codec Slots Guard Arena Progress Quorum Traits.
From S2P Require Import Membership NodeState Node.

Local Open Scope string_scope.
Local Open Scope list_scope.
Local Open Scope Z_scope.

Record ClientProposal := { cp_payload : bytes; cp_slot_id : SlotId }.
Record CommitWaiter := { cw_index : LogIndex; cw_slot_id : SlotId }.

Record ArbitroRaft (S T C D SM : Type) := {
  node : RaftNode S T C D;
  state_machine : SM;
  stopped : bool;
  next_election_at : Z;
  next_heartbeat_at : Z;
  election_state : Z;
  client_rx : list ClientProposal;
  client_open : bool;
  registry : SlotRegistry;
  pending_batch : list bytes;
  pending_slots : list SlotId;
  commit_waiters : list CommitWaiter;
  abuse : InboundAbuseGuard;
}.
Arguments node {S T C D SM} a.
Arguments state_machine {S T C D SM} a.
Arguments stopped {S T C D SM} a.
Arguments next_election_at {S T C D SM} a.
Arguments next_heartbeat_at {S T C D SM} a.
Arguments election_state {S T C D SM} a.
Arguments client_rx {S T C D SM} a.
Arguments client_open {S T C D SM} a.
Arguments registry {S T C D SM} a.
Arguments pending_batch {S T C D SM} a.
Arguments pending_slots {S T C D SM} a.
Arguments commit_waiters {S T C D SM} a.
Arguments abuse {S T C D SM} a.
Arguments Build_ArbitroRaft {S T C D SM}.

Section Setters.
Context {S T C D SM : Type}.
Implicit Types r : ArbitroRaft S T C D SM.

Definition set_node (v : RaftNode S T C D) r : ArbitroRaft S T C D SM := Build_ArbitroRaft
  v (state_machine r) (stopped r) (next_election_at r) (next_heartbeat_at r)
  (election_state r) (client_rx r) (client_open r) (registry r) (pending_batch r)
  (pending_slots r) (commit_waiters r) (abuse r).
Definition set_state_machine (v : SM) r : ArbitroRaft S T C D SM := Build_ArbitroRaft
  (node r) v (stopped r) (next_election_at r) (next_heartbeat_at r) (election_state r)
  (client_rx r) (client_open r) (registry r) (pending_batch r) (pending_slots r)
  (commit_waiters r) (abuse r).
Definition set_stopped (v : bool) r : ArbitroRaft S T C D SM := Build_ArbitroRaft
  (node r) (state_machine r) v (next_election_at r) (next_heartbeat_at r) (election_state r)
  (client_rx r) (client_open r) (registry r) (pending_batch r) (pending_slots r)
  (commit_waiters r) (abuse r).
Definition set_next_election_at (v : Z) r : ArbitroRaft S T C D SM := Build_ArbitroRaft
  (node r) (state_machine r) (stopped r) v (next_heartbeat_at r) (election_state r)
  (client_rx r) (client_open r) (registry r) (pending_batch r) (pending_slots r)
  (commit_waiters r) (abuse r).
Definition set_next_heartbeat_at (v : Z) r : ArbitroRaft S T C D SM := Build_ArbitroRaft
  (node r) (state_machine r) (stopped r) (next_election_at r) v (election_state r)
  (client_rx r) (client_open r) (registry r) (pending_batch r) (pending_slots r)
  (commit_waiters r) (abuse r).
Definition set_election_state (v : Z) r : ArbitroRaft S T C D SM := Build_ArbitroRaft
  (node r) (state_machine r) (stopped r) (next_election_at r) (next_heartbeat_at r) v
  (client_rx r) (client_open r) (registry r) (pending_batch r) (pending_slots r)
  (commit_waiters r) (abuse r).
Definition set_client_rx (v : list ClientProposal) r : ArbitroRaft S T C D SM := Build_ArbitroRaft
  (node r) (state_machine r) (stopped r) (next_election_at r) (next_heartbeat_at r)
  (election_state r) v (client_open r) (registry r) (pending_batch r) (pending_slots r)
  (commit_waiters r) (abuse r).
Definition set_client_open (v : bool) r : ArbitroRaft S T C D SM := Build_ArbitroRaft
  (node r) (state_machine r) (stopped r) (next_election_at r) (next_heartbeat_at r)
  (election_state r) (client_rx r) v (registry r) (pending_batch r) (pending_slots r)
  (commit_waiters r) (abuse r).
Definition set_registry (v : SlotRegistry) r : ArbitroRaft S T C D SM := Build_ArbitroRaft
  (node r) (state_machine r) (stopped r) (next_election_at r) (next_heartbeat_at r)
  (election_state r) (client_rx r) (client_open r) v (pending_batch r) (pending_slots r)
  (commit_waiters r) (abuse r).
Definition set_pending_batch (v : list bytes) r : ArbitroRaft S T C D SM := Build_ArbitroRaft
  (node r) (state_machine r) (stopped r) (next_election_at r) (next_heartbeat_at r)
  (election_state r) (client_rx r) (client_open r) (registry r) v (pending_slots r)
  (commit_waiters r) (abuse r).
Definition set_pending_slots (v : list SlotId) r : ArbitroRaft S T C D SM := Build_ArbitroRaft
  (node r) (state_machine r) (stopped r) (next_election_at r) (next_heartbeat_at r)
  (election_state r) (client_rx r) (client_open r) (registry r) (pending_batch r) v
  (commit_waiters r) (abuse r).
Definition set_commit_waiters (v : list CommitWaiter) r : ArbitroRaft S T C D SM := Build_ArbitroRaft
  (node r) (state_machine r) (stopped r) (next_election_at r) (next_heartbeat_at r)
  (election_state r) (client_rx r) (client_open r) (registry r) (pending_batch r)
  (pending_slots r) v (abuse r).
Definition set_abuse (v : InboundAbuseGuard) r : ArbitroRaft S T C D SM := Build_ArbitroRaft
  (node r) (state_machine r) (stopped r) (next_election_at r) (next_heartbeat_at r)
  (election_state r) (client_rx r) (client_open r) (registry r) (pending_batch r)
  (pending_slots r) (commit_waiters r) v.
End Setters.

(** ** The monad of the engine's methods *)

Section Monad.
Context {S T C D SM : Type}.

Definition E (A : Type) : Type :=
  ArbitroRaft S T C D SM -> result (res A * ArbitroRaft S T C D SM) Stop.

#[global] Instance E_ret : MRet E := fun A a r => Ok (Ok a, r).
#[global] Instance E_bind : MBind E := fun A B k m r =>
  match m r with
  | Err stop => Err stop
  | Ok (Ok a, r') => k a r'
  | Ok (Err e, r') => Ok (Err e, r')
  end.

Definition e_err {A} (e : RaftError) : E A := fun r => Ok (Err e, r).
Definition e_out_of_fuel {A} : E A := fun _ => Err OutOfFuel.
Definition e_gets {A} (f : ArbitroRaft S T C D SM -> A) : E A := fun r => Ok (Ok (f r), r).
Definition e_modify (f : ArbitroRaft S T C D SM -> ArbitroRaft S T C D SM) : E unit :=
  fun r => Ok (Ok tt, f r).
Definition e_attempt {A} (m : E A) : E (res A) :=
  fun r => match m r with
           | Err stop => Err stop
           | Ok (x, r') => Ok (Ok x, r')
           end.
Definition e_when (c : bool) (m : E unit) : E unit := if c then m else mret tt.

(** A method of the node. *)
Definition on_node {A} (m : L S T C D A) : E A :=
  fun r => match m (node r) with
           | Err stop => Err stop
           | Ok (x, n) => Ok (x, set_node n r)
           end.
Definition on_node_m {A} (m : M S T C D A) : E A := on_node (run m).
Definition of_node {A} (f : RaftNode S T C D -> A) : E A := e_gets (fun r => f (node r)).
End Monad.
Arguments E S T C D SM A : clear implicits.
#[global] Typeclasses Opaque E.

(** ** The client side *)

Section Client.
Context {S T C D SM : Type}.
Implicit Types r : ArbitroRaft S T C D SM.

Definition mailbox_capacity r : Z :=
  Z.max (client_mailbox_capacity (cfg_limits (config (node r)))) 1.

(** [write_bytes] up to the future it returns: the guard, the lease and the
    [try_send]. *)
Definition write_bytes (payload : bytes) r : res SlotId * ArbitroRaft S T C D SM :=
  match reject_reserved_prefix payload with
  | Err e => (Err e, r)
  | Ok _ =>
      match lease (registry r) with
      | (None, reg) => (Err Overloaded, set_registry reg r)
      | (Some id, reg) =>
          let r := set_registry reg r in
          if negb (client_open r) then
            (Err (TransportErr "raft node stopped"), set_registry (release id (registry r)) r)
          else if mailbox_capacity r <=? Z.of_nat (length (client_rx r)) then
            (Err Overloaded, set_registry (release id (registry r)) r)
          else (Ok id, set_client_rx
                  (client_rx r ++ [{| cp_payload := payload; cp_slot_id := id |}]) r)
      end
  end.

(** Polling the future, and dropping it. *)
Definition poll_write (id : SlotId) r : option (res LogIndex) := poll id (registry r).
Definition drop_write (id : SlotId) r : ArbitroRaft S T C D SM :=
  set_registry (release id (registry r)) r.
End Client.
