(* ===== verification/Engine.v ===== *)
(** * Engine: the run loop

    Models [src/api/arbitro_raft/run.rs]: applying committed entries, the
    dispatch of inbound frames behind the abuse guard, commit waiters, and one
    tick of a leader and of a follower. *)

From stdpp Require Import base list sets gmap strings.
From Stdlib Require Import ZArith Lia.
From S2P Require Import Prelude Types Wire Codec Slots Guard Arena Progress Quorum Traits.
From S2P Require Import Membership NodeState Node ConfigChange Commit Snapshot Transfer Inbound.
From S2P Require Import Campaign Leader Install Propose EngineState.

Local Open Scope string_scope.
Local Open Scope list_scope.
Local Open Scope Z_scope.

(** The size of [apply_buf]. *)
Definition APPLY_BUF : Z := 16 * 1024 * 1024.

(** ** Commit waiters *)

(** The fast path: everything, in order. *)
Definition notify_all (ws : list CommitWaiter) (reg : SlotRegistry) : SlotRegistry :=
  foldl (fun reg w => notify_committed (cw_slot_id w) (cw_index w) reg) reg ws.

(** The slow path, from position [i]; [k] bounds the turns that are left. *)
Fixpoint drain_slow (k i : nat) (commit : LogIndex) (ws : list CommitWaiter) (reg : SlotRegistry)
  : list CommitWaiter * SlotRegistry :=
  match k with
  | O => (ws, reg)
  | Datatypes.S k' =>
      match ws !! i with
      | None => (ws, reg)
      | Some w =>
          if cw_index w <=? commit
          then drain_slow k' i commit (swap_remove i ws)
                 (notify_committed (cw_slot_id w) (cw_index w) reg)
          else drain_slow k' (Datatypes.S i) commit ws reg
      end
  end.

Definition drain_waiters (commit : LogIndex) (ws : list CommitWaiter) (reg : SlotRegistry)
  : list CommitWaiter * SlotRegistry :=
  match last ws with
  | None => (ws, reg)
  | Some w =>
      if cw_index w <=? commit then ([], notify_all ws reg)
      else drain_slow (length ws) 0 commit ws reg
  end.

Definition fail_waiters (ws : list CommitWaiter) (reg : SlotRegistry) : SlotRegistry :=
  foldl (fun reg w => notify_error (cw_slot_id w) reg) reg ws.

(** The arm of [select!] that completes. *)
Inductive SelectArm := FrameArm | ProposalArm.

Section Engine.
Context {S T C D SM : Type} `{RaftStorage S} `{RaftTransport T} `{Clock C}
  `{CustomDispatch D T} `{StateMachine SM}.
Context (tuning : VecTuning).
Implicit Types r : ArbitroRaft S T C D SM.
#[local] Abbreviation E := (E S T C D SM).

Definition drain_commit_waiters : E unit :=
  e_modify (fun r =>
    let '(ws, reg) := drain_waiters (commit_index (node r)) (commit_waiters r) (registry r) in
    set_registry reg (set_commit_waiters ws r)).

Definition fail_commit_waiters : E unit :=
  e_modify (fun r =>
    set_registry (fail_waiters (commit_waiters r) (registry r)) (set_commit_waiters [] r)).

(** ** Timers *)

Definition reset_heartbeat_deadline : E unit :=
  t ← on_node_m now;
  e_modify (fun r =>
    set_next_heartbeat_at (t + Z.max (heartbeat_ms (cfg_timing (config (node r)))) 1) r).

Definition reset_election_deadline : E unit :=
  t ← on_node_m now;
  e_modify (fun r =>
    let '(timeout, s) := next_election_timeout (cfg_timing (config (node r))) (election_state r) in
    set_next_election_at (t + timeout) (set_election_state s r)).

(** ** Applying committed entries *)

(** One committed entry: the membership layer, or the state machine. *)
Definition apply_entry (index : LogIndex) (payload : bytes) : E unit :=
  consumed ← on_node_m (apply_if_config_change payload);
  (if consumed : bool then mret tt
   else fun r => let '(x, sm) := apply_at index payload (state_machine r) in
                 Ok (x, set_state_machine sm r));;
  on_node_m (
    modify (set_last_applied index);;
    modify (fun n => set_compaction_debt_entries (wrap_add64 (compaction_debt_entries n) 1) n);;
    modify (fun n => set_compaction_debt_bytes
      (wrap_add64 (compaction_debt_bytes n) (Z.of_nat (length payload))) n)).

(** [while next <= commit]: [k] is the number of indexes up to [commit]. *)
Fixpoint apply_loop (k : nat) (next : LogIndex) : E unit :=
  match k with
  | O => mret tt
  | Datatypes.S k' =>
      entry ← on_node_m (on_storage (entry_at next APPLY_BUF));
      match entry with
      | None => mret tt
      | Some e => apply_entry next (e_payload e);; apply_loop k' (next + 1)
      end
  end.

Definition restore_if_installed : E bool :=
  fun r =>
    let '(x, sm, n) := restore_state_machine_from_snapshot (state_machine r) (node r) in
    Ok (x, set_node n (set_state_machine sm r)).

Definition apply_committed_entries : E unit :=
  restore_if_installed;;
  commit ← of_node commit_index;
  applied ← of_node last_applied;
  apply_loop (Z.to_nat (commit - applied)) (applied + 1);;
  sm ← e_gets state_machine;
  on_node_m (maybe_compact sm);;
  mret tt.

(** ** Inbound frames *)

Definition claimed_from (f : bytes) : option Z :=
  match parse_prefix (A := RaftFrameHeader) f "raft frame header" with
  | Ok (h, _) => Some (fh_from h)
  | Err _ => None
  end.

Definition drop_undecodable (key t : Z) : E unit :=
  on_node_m (on_metrics inc_frames_dropped_nonfatal);;
  limits ← of_node (fun n => cfg_limits (config n));
  jailed ← (fun r => let '(j, g) := record_decode_error key t limits (abuse r) in
                     Ok (Ok j, set_abuse g r));
  e_when jailed (on_node_m (on_metrics inc_peers_jailed)).

Definition dispatch_inbound (f : bytes) : E unit :=
  key ← of_node (fun n => key_for (claimed_from f) (node_peers n));
  t ← on_node_m now;
  jailed ← (fun r => let '(j, g) := is_jailed key t (abuse r) in Ok (Ok j, set_abuse g r));
  if jailed : bool then on_node_m (on_metrics inc_frames_shed_jailed)
  else
    match decode_message f with
    | Err _ => drop_undecodable key t
    | Ok inbound =>
        x ← on_node_m (attempt (handle_inbound inbound));
        match x with
        | Ok _ => mret tt
        | Err e =>
            if is_fatal e then e_err e
            else
              e_when (is_resource_exhaustion e) (on_node_m (on_metrics inc_resource_exhausted));;
              on_node_m (on_metrics inc_frames_dropped_nonfatal)
        end
    end.

Definition recv_inbound (timeout : Z) : E (option bytes) :=
  x ← on_node_m (attempt (on_transport (recv_frame_timeout timeout MAX_FRAME_SIZE)));
  match x with
  | Ok o => mret o
  | Err e =>
      if is_fatal e then e_err e
      else on_node_m (on_metrics inc_frames_dropped_nonfatal);; mret None
  end.

(** The burst drain: at most [k] frames, and how many there were. *)
Fixpoint drain_burst (k : nat) : E nat :=
  match k with
  | O => mret 0%nat
  | Datatypes.S k' =>
      frame ← recv_inbound 0;
      match frame with
      | None => mret 0%nat
      | Some f => dispatch_inbound f;; rest ← drain_burst k'; mret (Datatypes.S rest)
      end
  end.

(** ** Proposals *)

Definition replicate_pending : E unit :=
  payloads ← e_gets pending_batch;
  x ← on_node_m (attempt (replicate_batch_async tuning payloads));
  match x with
  | Ok (first_index, _) =>
      e_modify (fun r =>
        let ws := imap (fun i id => {| cw_index := wrap_add64 first_index (Z.of_nat i);
                                       cw_slot_id := id |}) (pending_slots r) in
        set_pending_batch [] (set_pending_slots []
          (set_commit_waiters (commit_waiters r ++ ws) r)))
  | Err e =>
      e_modify (fun r =>
        set_pending_batch [] (set_pending_slots []
          (set_registry (foldl (fun reg id => notify_error id reg) (registry r) (pending_slots r))
             r)));;
      e_err e
  end.

(** [while pending_batch.len() < limit { try_recv }] *)
Definition drain_mailbox (limit : nat) : E unit :=
  e_modify (fun r =>
    let room := (limit - length (pending_batch r))%nat in
    let ps := take room (client_rx r) in
    set_client_rx (drop room (client_rx r))
      (set_pending_batch (pending_batch r ++ map cp_payload ps)
         (set_pending_slots (pending_slots r ++ map cp_slot_id ps) r))).

(** ** The leader's tick *)

(** After inbound frames: commit, notify, apply. *)
Definition settle_after_frames : E unit :=
  on_node_m try_advance_commit_index;;
  drain_commit_waiters;;
  apply_committed_entries;;
  leader ← of_node is_leader;
  e_when (negb leader) fail_commit_waiters.

Definition handle_frame (f : bytes) : E unit := dispatch_inbound f;; settle_after_frames.

(** The heartbeat deadline has passed. *)
Definition heartbeat_tick (fuel : nat) : E unit :=
  active ← on_node_m check_quorum_active;
  if negb active then
    term ← of_node node_term;
    on_node_m (step_down term);;
    fail_commit_waiters
  else
    on_node (send_heartbeat_once fuel);;
    reset_heartbeat_deadline.

(** The arms of [select!]: a frame (or its timeout), or a proposal. *)
Definition frame_arm (timeout : Z) : E unit :=
  x ← on_node_m (attempt (on_transport (recv_frame_timeout timeout MAX_FRAME_SIZE)));
  match x with
  | Ok (Some f) => handle_frame f
  | Ok None => mret tt
  | Err e => if is_fatal e then e_err e else mret tt
  end.

Definition proposal_arm (limit : nat) : E unit :=
  queue ← e_gets client_rx;
  match queue with
  | [] => mret tt
  | p :: ps =>
      e_modify (fun r =>
        set_client_rx ps
          (set_pending_batch (pending_batch r ++ [cp_payload p])
             (set_pending_slots (pending_slots r ++ [cp_slot_id p]) r)));;
      drain_mailbox limit
  end;;
  none ← e_gets (fun r => is_nil (pending_batch r));
  e_when (negb none) replicate_pending.

(** A [recv] on the mailbox completes when there is a proposal, or never will
    be one. *)
Definition proposal_ready r : bool := negb (is_nil (client_rx r)) || negb (client_open r).

Definition leader_idle (fuel : nat) (arm : SelectArm) (transferring : bool) (limit : nat)
  : E unit :=
  t ← on_node_m now;
  at_ ← e_gets next_heartbeat_at;
  if at_ <=? t then heartbeat_tick fuel
  else
    let timeout := sat_sub at_ t in
    if transferring then
      frame ← recv_inbound timeout;
      match frame with
      | Some f => handle_frame f
      | None => mret tt
      end
    else
      ready ← e_gets proposal_ready;
      match arm with
      | ProposalArm => if ready : bool then proposal_arm limit else frame_arm timeout
      | FrameArm => frame_arm timeout
      end.

Definition run_leader_once (fuel : nat) (arm : SelectArm) : E unit :=
  transferring ← on_node_m leadership_transfer_in_progress;
  on_node_m evict_stalled_snapshots;;
  limit ← of_node (fun n => Z.to_nat (append_batch_entries (cfg_limits (config n))));
  (if transferring : bool then mret tt
   else
     drain_mailbox limit;;
     none ← e_gets (fun r => is_nil (pending_batch r));
     e_when (negb none) replicate_pending);;
  processed ← drain_burst 128;
  if (0 <? processed)%nat then settle_after_frames
  else leader_idle fuel arm transferring limit.

Definition engine_send_heartbeat_once (fuel : nat) : E unit :=
  x ← on_node (attempt_loop (send_heartbeat_once fuel));
  reset_heartbeat_deadline;;
  match x with Ok _ => mret tt | Err e => e_err e end.

(** ** The follower's tick *)

Definition finalize_joint_if_inherited (fuel : nat) : E unit :=
  leader ← of_node is_leader;
  joint ← of_node joint_peers;
  match joint with
  | None => mret tt
  | Some (olds, news) =>
      if negb leader then mret tt
      else
        let final := {| cc_phase := Final; old_peers := olds; new_peers := news |} in
        x ← on_node (attempt_loop (propose_once tuning fuel (config_encode final)));
        match x with
        | Ok _ =>
            still ← of_node is_leader;
            e_when still (engine_send_heartbeat_once fuel)
        | Err (NotLeader _) | Err NoQuorum => mret tt
        | Err e => if is_fatal e then e_err e else mret tt
        end
  end.

Definition campaign_and_settle (fuel : nat) : E unit :=
  x ← on_node (attempt_loop (campaign_once fuel MAX_FRAME_SIZE));
  match x with
  | Ok elected =>
      reset_election_deadline;;
      e_when elected (
        reset_heartbeat_deadline;;
        on_node (send_heartbeat_once fuel);;
        reset_heartbeat_deadline;;
        finalize_joint_if_inherited fuel)
  | Err e =>
      if match e with NoQuorum => true | _ => negb (is_fatal e) end
      then reset_election_deadline else e_err e
  end.

(** The election timeout passed without a frame. *)
Definition follower_timeout (fuel : nat) : E unit :=
  x ← on_node (attempt_loop (campaign_pre_vote fuel MAX_FRAME_SIZE));
  match x with
  | Ok true => campaign_and_settle fuel
  | Ok false => reset_election_deadline
  | Err e => if is_fatal e then e_err e else reset_election_deadline
  end.

(** After a frame, unless a sanctioned campaign is armed. *)
Definition follower_frame (fuel : nat) (f : bytes) : E unit :=
  dispatch_inbound f;;
  apply_committed_entries;;
  reset_election_deadline;;
  forced ← on_node_m take_forced_campaign;
  if forced : bool then campaign_and_settle fuel
  else
    leader ← of_node is_leader;
    e_when leader reset_heartbeat_deadline.

Definition run_follower_once (fuel : nat) : E unit :=
  on_node_m evict_stalled_snapshots;;
  processed ← drain_burst 128;
  (if (0 <? processed)%nat then apply_committed_entries;; reset_election_deadline else mret tt);;
  forced ← on_node_m take_forced_campaign;
  if forced : bool then campaign_and_settle fuel
  else if (0 <? processed)%nat then mret tt
  else
    t ← on_node_m now;
    at_ ← e_gets next_election_at;
    frame ← recv_inbound (sat_sub at_ t);
    match frame with
    | Some f => follower_frame fuel f
    | None => follower_timeout fuel
    end.

(** ** Snapshots to lagging peers *)

Fixpoint install_to_peers (fuel : nat) (self : PeerId) (peers : list PeerId) (sent : Z) : E Z :=
  match peers with
  | [] => mret sent
  | p :: ps =>
      if p =? self then install_to_peers fuel self ps sent
      else
        x ← on_node (maybe_install_snapshot_to_lagging_peer fuel p);
        install_to_peers fuel self ps (if x : bool then sent + 1 else sent)
  end.

Definition install_snapshot_to_lagging_peers (fuel : nat) : E Z :=
  leader ← of_node is_leader;
  if negb leader then mret 0
  else
    peers ← of_node (fun n => node_peers n ++ node_learners n);
    self ← of_node node_id;
    install_to_peers fuel self peers 0.
End Engine.
