(* ===== verification/EngineApi.v ===== *)
(** * EngineApi: the public methods of the engine

    Models the methods of [src/api/arbitro_raft/mod.rs]: construction, ticks
    with their degradation on resource exhaustion, shutdown, proposals, reads,
    membership changes and leadership transfer. *)

From stdpp Require Import base list sets gmap strings.
From Stdlib Require Import ZArith Lia.
From S2P Require Import Prelude Types Wire Codec Slots Guard Arena Progress Quorum Traits.
From S2P Require Import Membership NodeState Node ConfigChange Commit Snapshot Transfer Inbound.
From S2P Require Import Campaign Leader Install Propose ReadIndex EngineState Engine.

Local Open Scope string_scope.
Local Open Scope list_scope.
Local Open Scope Z_scope.

(** The slots of an engine. *)
Definition REGISTRY_CAP : nat := Z.to_nat 65536.

Section EngineApi.
Context {S T C D SM : Type} `{RaftStorage S} `{RaftTransport T} `{Clock C}
  `{CustomDispatch D T} `{StateMachine SM}.
Context (tuning : VecTuning).
Implicit Types r : ArbitroRaft S T C D SM.
#[local] Abbreviation E := (E S T C D SM).

(** [ArbitroRaft::new] with [slots] notification slots. *)
Definition engine_new (slots : nat) (n : RaftNode S T C D) (sm : SM)
  : result (res unit * ArbitroRaft S T C D SM) Stop :=
  (reset_election_deadline;; reset_heartbeat_deadline)
    {| node := n; state_machine := sm; stopped := false;
       next_election_at := 0; next_heartbeat_at := 0; election_state := seed (node_id n);
       client_rx := []; client_open := true; registry := registry_new slots;
       pending_batch := []; pending_slots := []; commit_waiters := []; abuse := ∅ |}.

(** ** Ticks *)

Definition degrade_on_resource_exhaustion : E unit :=
  on_node_m (on_metrics inc_resource_exhausted);;
  leader ← of_node is_leader;
  e_when leader (on_node_m demote_to_follower_keep_term;; fail_commit_waiters).

(** [Ok false] once the engine has been stopped. *)
Definition run_once (fuel : nat) (arm : SelectArm) : E bool :=
  done ← e_gets stopped;
  if done : bool then mret false
  else
    leader ← of_node is_leader;
    tick ← e_attempt (if leader : bool then run_leader_once tuning fuel arm
                      else run_follower_once tuning fuel);
    match tick with
    | Ok _ => mret tt
    | Err e => if is_resource_exhaustion e then degrade_on_resource_exhaustion else e_err e
    end;;
    e_gets (fun r => negb (stopped r)).

(** [run]: ticks until stopped or a fatal error; [arms] are the arms its
    [select!]s complete with, one per tick. *)
Fixpoint engine_run (fuel : nat) (arms : list SelectArm) : E unit :=
  match arms with
  | [] => e_out_of_fuel
  | arm :: arms' =>
      more ← run_once fuel arm;
      if more : bool then engine_run fuel arms' else mret tt
  end.

(** ** Shutdown *)

Definition stop : E unit :=
  done ← e_gets stopped;
  if done : bool then mret tt
  else
    e_modify (set_stopped true);;
    e_modify (set_client_open false);;
    e_modify (fun r =>
      set_client_rx []
        (set_registry (foldl (fun reg p => notify_error (cp_slot_id p) reg) (registry r)
                         (client_rx r)) r));;
    fail_commit_waiters.

(** [max_by_key] over the candidates: the last of the largest. *)
Definition most_caught_up (n : RaftNode S T C D) (peers : list PeerId) : option PeerId :=
  let key p := match pm_get p (peer_progress n) with Some q => match_index q | None => 0 end in
  foldl (fun best p => match best with
                       | Some b => if key b <=? key p then Some p else Some b
                       | None => Some p
                       end) None peers.

Definition engine_transfer_leadership (fuel : nat) (target : PeerId) : E unit :=
  flush ← e_gets (fun r => is_leader (node r) && negb (is_nil (pending_batch r)));
  e_when flush (replicate_pending tuning);;
  on_node (transfer_leadership fuel target MAX_FRAME_SIZE).

(** Service frames until deposed or the window closes. *)
Fixpoint handoff_loop (fuel : nat) (deadline : Z) : E unit :=
  match fuel with
  | O => e_out_of_fuel
  | Datatypes.S fuel' =>
      leader ← of_node is_leader;
      if negb leader then mret tt
      else
        t ← on_node_m now;
        if deadline <=? t then mret tt
        else
          t ← on_node_m now;
          frame ← recv_inbound (Z.min (sat_sub deadline t) 10);
          (match frame with
           | Some f =>
               dispatch_inbound f;;
               on_node_m try_advance_commit_index;;
               drain_commit_waiters
           | None => mret tt
           end);;
          handoff_loop fuel' deadline
  end.

Definition drain_leader_handoff (fuel : nat) : E unit :=
  flush ← e_gets (fun r => negb (is_nil (pending_batch r)));
  x ← e_attempt (e_when flush (replicate_pending tuning));
  match x with
  | Err e => if is_fatal e then e_err e else mret tt
  | Ok _ => mret tt
  end;;
  target ← of_node (fun n => most_caught_up n (other_peers n));
  match target with
  | None => mret tt
  | Some target =>
      x ← e_attempt (engine_transfer_leadership fuel target);
      match x with
      | Err e => if is_fatal e then e_err e else mret tt
      | Ok _ =>
          t ← on_node_m now;
          timeout ← of_node election_timeout;
          handoff_loop fuel (t + timeout * 2)
      end
  end.

Definition drain (fuel : nat) : E unit :=
  done ← e_gets stopped;
  if done : bool then mret tt
  else
    e_modify (set_client_open false);;
    leader ← of_node is_leader;
    fatal ← e_attempt (if leader : bool then drain_leader_handoff fuel else mret tt);
    fatal ← (match fatal with
             | Err e => mret (Some e)
             | Ok _ =>
                 applied ← e_attempt apply_committed_entries;
                 match applied with
                 | Err e => mret (Some e)
                 | Ok _ => drain_commit_waiters;; mret None
                 end
             end);
    stop;;
    match fatal with
    | Some e => e_err e
    | None => mret tt
    end.

(** ** Proposals and reads *)

Definition engine_propose_once (fuel : nat) (payload : bytes) : E LogIndex :=
  match reject_reserved_prefix payload with
  | Err e => e_err e
  | Ok _ => on_node (propose_once tuning fuel payload)
  end.

Fixpoint reject_reserved_prefixes (payloads : list bytes) : res unit :=
  match payloads with
  | [] => Ok tt
  | p :: ps => match reject_reserved_prefix p with
               | Err e => Err e
               | Ok _ => reject_reserved_prefixes ps
               end
  end.

Definition engine_propose_batch_once (fuel : nat) (payloads : list bytes) : E (list LogIndex) :=
  match reject_reserved_prefixes payloads with
  | Err e => e_err e
  | Ok _ => on_node (propose_batch_once tuning fuel payloads)
  end.

Definition engine_read_index (fuel : nat) : E LogIndex :=
  i ← on_node (read_index tuning fuel MAX_FRAME_SIZE);
  apply_committed_entries;;
  drain_commit_waiters;;
  applied ← of_node last_applied;
  if applied <? i
  then e_err (Protocol "read_index: local apply lagged behind the confirmed read point")
  else mret i.

Definition engine_campaign_once (fuel : nat) : E bool :=
  elected ← on_node (campaign_once fuel MAX_FRAME_SIZE);
  reset_election_deadline;;
  e_when elected reset_heartbeat_deadline;;
  mret elected.

(** ** Membership changes *)

(** Activate at append time and propose; undo when nothing was appended. *)
Definition propose_activated (fuel : nat) (entry : ConfigChangeEntry)
  (revert : M S T C D unit) : E LogIndex :=
  tip_before ← of_node (fun n => (cached_last_log n).1);
  on_node_m (apply_config_change entry);;
  x ← on_node (attempt_loop (propose_once tuning fuel (config_encode entry)));
  match x with
  | Ok i => mret i
  | Err e =>
      tip ← of_node (fun n => (cached_last_log n).1);
      e_when (tip =? tip_before) (on_node_m revert);;
      e_err e
  end.

Definition not_leader {A} : E A := e ← of_node not_leader_error; e_err e.

Definition propose_config_change (fuel : nat) (news : list PeerId) : E LogIndex :=
  leader ← of_node is_leader;
  if negb leader then not_leader
  else
    joint ← of_node joint_peers;
    match joint with
    | Some _ => e_err (InvalidConfig "config change already in progress")
    | None =>
        if is_nil news then e_err (InvalidConfig "config-change new_peers must be non-empty")
        else
          olds ← of_node node_peers;
          self ← of_node node_id;
          if negb (contains self news) then
            target ← of_node (fun n =>
              most_caught_up n (List.filter (fun p => negb (p =? self)) news));
            match target with
            | None => fun _ => Err Panicked
            | Some target =>
                engine_transfer_leadership fuel target;;
                e_err (NotLeader (Some {| hint_leader_id := target |}))
            end
          else if negb (existsb (fun p => contains p olds) news) then
            e_err (InvalidConfig "config-change new_peers must overlap current peers")
          else
            propose_activated fuel {| cc_phase := Joint; old_peers := olds; new_peers := news |}
              (revert_joint_activation olds);;
            final_idx ← on_node (propose_once tuning fuel
              (config_encode {| cc_phase := Final; old_peers := olds; new_peers := news |}));
            still ← of_node is_leader;
            e_when still (engine_send_heartbeat_once fuel);;
            mret final_idx
    end.

Definition propose_learner_change (fuel : nat) (peer : PeerId) (add : bool) : E LogIndex :=
  leader ← of_node is_leader;
  if negb leader then not_leader
  else
    joint ← of_node joint_peers;
    match joint with
    | Some _ => e_err (InvalidConfig "config change already in progress")
    | None =>
        voters ← of_node node_peers;
        learners ← of_node node_learners;
        if add && contains peer voters then
          e_err (InvalidConfig "add_learner: peer is already a voter")
        else if add && contains peer learners then
          e_err (InvalidConfig "add_learner: peer is already a learner")
        else if negb add && negb (contains peer learners) then
          e_err (InvalidConfig "remove_learner: peer is not a learner")
        else
          propose_activated fuel
            {| cc_phase := if add then AddLearner else RemoveLearner;
               old_peers := []; new_peers := [peer] |}
            (revert_learner_activation learners)
    end.

Definition add_learner (fuel : nat) (peer : PeerId) : E LogIndex :=
  propose_learner_change fuel peer true.

Definition remove_learner (fuel : nat) (peer : PeerId) : E LogIndex :=
  propose_learner_change fuel peer false.

Definition promote_learner (fuel : nat) (peer : PeerId) : E LogIndex :=
  leader ← of_node is_leader;
  if negb leader then not_leader
  else
    learners ← of_node node_learners;
    if negb (contains peer learners) then
      e_err (InvalidConfig "promote_learner: peer is not a learner")
    else
      caught ← of_node (learner_caught_up peer);
      match caught with
      | Err e => e_err e
      | Ok false => e_err (InvalidConfig
          "promote_learner: learner not caught up (match_index < commit_index); retry later")
      | Ok true =>
          voters ← of_node node_peers;
          propose_config_change fuel (voters ++ [peer])
      end.
End EngineApi.
