(* ===== verification/Frames.v ===== *)
(** * Frames: what the shared steps leave alone

    [keeps p m]: the method [m] never changes the part [p] of the node.  The
    tactic [keeps_auto] proves it by going through the operations of [m]; the
    lemmas here are the cases of the methods of [Node]. *)

From stdpp Require Import base list sets gmap strings.
From Stdlib Require Import ZArith Lia.
From S2P Require Import Prelude Types Wire Codec CodecFacts Arena Progress Quorum Traits.
From S2P Require Import Membership NodeState Node.

Local Open Scope Z_scope.

Section Keeps.
Context {S T C D : Type}.
Implicit Types n : RaftNode S T C D.

Definition keeps {X A} (p : RaftNode S T C D -> X) (m : M S T C D A) : Prop :=
  forall n, p (m n).2 = p n.

Context {X : Type} (p : RaftNode S T C D -> X).

Lemma keeps_bind {A B} (m : M S T C D A) (k : A -> M S T C D B) :
  keeps p m -> (forall a, keeps p (k a)) -> keeps p (m ≫= k).
Proof.
  intros Hm Hk n. unfold mbind, M_bind. specialize (Hm n).
  destruct (m n) as [[a|e] n']; simpl in *; [|done]. by rewrite Hk.
Qed.

Lemma keeps_ret {A} (a : A) : keeps p (mret a).
Proof. done. Qed.
Lemma keeps_err {A} e : keeps p (err (A := A) e).
Proof. done. Qed.
Lemma keeps_gets {A} (f : _ -> A) : keeps p (gets f).
Proof. done. Qed.
Lemma keeps_from_res {A} (r : res A) : keeps p (from_res r).
Proof. done. Qed.
Lemma keeps_modify f : (forall n, p (f n) = p n) -> keeps p (modify f).
Proof. intros H n. apply H. Qed.
Lemma keeps_attempt {A} (m : M S T C D A) : keeps p m -> keeps p (attempt m).
Proof. intros H n. specialize (H n). unfold attempt. by destruct (m n). Qed.
Lemma keeps_whenM b m : keeps p m -> keeps p (whenM b m).
Proof. intros H. by destruct b. Qed.
Lemma keeps_on_storage {A} (op : S -> res A * S) :
  (forall s n, p (set_storage s n) = p n) -> keeps p (on_storage op).
Proof. intros H n. unfold on_storage. destruct (op (storage n)). apply H. Qed.
Lemma keeps_on_transport {A} (op : T -> res A * T) :
  (forall t n, p (set_transport t n) = p n) -> keeps p (on_transport op).
Proof. intros H n. unfold on_transport. destruct (op (transport n)). apply H. Qed.
Lemma keeps_now `{Clock C} : (forall c n, p (set_clock c n) = p n) -> keeps p now.
Proof. intros H0 n. unfold now. destruct (clock_now (clock n)). apply H0. Qed.
Lemma keeps_on_metrics f : (forall m n, p (set_metrics m n) = p n) -> keeps p (on_metrics f).
Proof. intros H n. apply H. Qed.
Lemma keeps_for_each {Y} (l : list Y) body :
  (forall y, keeps p (body y)) -> keeps p (for_each l body).
Proof.
  intros H. induction l as [|y l IH]; [done|]. cbn [for_each].
  apply keeps_bind; [apply H | intros; apply IH].
Qed.
End Keeps.

Create HintDb keeps discriminated.

Ltac keeps_step :=
  lazymatch goal with
  | |- keeps _ (mbind _ _) => apply keeps_bind; [|intros ?]
  | |- keeps _ (mret _) => apply keeps_ret
  | |- keeps _ (err _) => apply keeps_err
  | |- keeps _ (gets _) => apply keeps_gets
  | |- keeps _ (from_res _) => apply keeps_from_res
  | |- keeps _ (modify _) => apply keeps_modify; intros ?; first [reflexivity | repeat case_match; reflexivity]
  | |- keeps _ (attempt _) => apply keeps_attempt
  | |- keeps _ (whenM false _) => apply keeps_ret
  | |- keeps _ (whenM _ _) => apply keeps_whenM
  | |- keeps _ (on_storage _) =>
      first [apply keeps_on_storage; intros ? ?; reflexivity | solve [eauto with keeps]]
  | |- keeps _ (on_transport _) => apply keeps_on_transport; intros ? ?; reflexivity
  | |- keeps _ now => apply keeps_now; intros ? ?; reflexivity
  | |- keeps _ (on_metrics _) => apply keeps_on_metrics; intros ? ?; reflexivity
  | |- keeps _ (for_each _ _) => apply keeps_for_each; intros ?
  | |- keeps _ (if ?b then _ else _) => destruct b
  | |- keeps _ (match ?x with _ => _ end) => destruct x
  | |- keeps _ _ => solve [auto with keeps | eauto with keeps]
  end.

Ltac keeps_auto := repeat (keeps_step; cbv beta zeta).

#[export] Hint Extern 5 (_ = _) => reflexivity : keeps.

Section NodeKeeps.
Context {S T C D : Type} `{RaftStorage S} `{RaftTransport T} `{Clock C} `{CustomDispatch D T}.
Implicit Types n : RaftNode S T C D.
Context {X : Type} (p : RaftNode S T C D -> X).

Lemma keeps_send_message peer msg :
  (forall t n, p (set_transport t n) = p n) -> (forall b n, p (set_scratch_outbound b n) = p n) ->
  keeps p (send_message peer msg).
Proof.
  intros Ht Hb n. unfold send_message.
  destruct (encode_message_vectored _ _ _) as [[[buf out]|]|]; [|done|done].
  destruct (send_vectored _ _ _). cbn [snd]. by rewrite Ht, Hb.
Qed.

Lemma keeps_send_frames peers frame :
  (forall t n, p (set_transport t n) = p n) -> keeps p (send_frames peers frame).
Proof.
  intros Ht. induction peers as [|q peers IH]; cbn [send_frames]; [apply keeps_ret|].
  apply keeps_bind; [by apply keeps_attempt, keeps_on_transport|]. intros r.
  apply keeps_bind; [done|]. intros k. apply keeps_ret.
Qed.

Lemma keeps_encode_frame msg : keeps p (encode_frame (S := S) (T := T) (C := C) (D := D) msg).
Proof. intros n. unfold encode_frame. by destruct (encode_message_to_bytes _ _ _). Qed.

Lemma keeps_evict :
  (forall c n, p (set_clock c n) = p n) -> (forall m n, p (set_metrics m n) = p n) ->
  (forall s n, p (set_pending_snapshots s n) = p n) ->
  keeps p evict_stalled_snapshots.
Proof.
  intros Hc Hm Hs. cut (forall l k, keeps p (evict_loop l k)).
  { intros Hl n. unfold evict_stalled_snapshots. apply Hl. }
  induction l as [|[q s] l IH]; intros k; cbn [evict_loop]; [apply keeps_ret|].
  apply keeps_bind; [by apply keeps_now|]. intros t. destruct (ps_is_expired t s); [|done].
  apply keeps_bind; [by apply keeps_on_metrics|]. intros _.
  apply keeps_bind; [by apply keeps_modify; intros; apply Hs|]. intros _. apply IH.
Qed.
End NodeKeeps.

#[export] Hint Resolve keeps_send_message keeps_send_frames keeps_encode_frame keeps_evict : keeps.
