(* ===== verification/ConfigFacts.v ===== *)
(** * ConfigFacts: majorities across a membership change

    What [apply_config_change] does to the configuration of a node, and quorum
    intersection across the change: a majority before it and one after it have a
    voter in common. *)

From stdpp Require Import base list sets gmap strings.
From Stdlib Require Import ZArith Lia.
From S2P Require Import Prelude Types Wire Codec Arena Progress Quorum Traits Membership.
From S2P Require Import NodeState Node Samples ConfigChange Frames.

Local Open Scope Z_scope.

Section ConfigFacts.
Context {S T C D : Type} `{RaftStorage S} `{RaftTransport T} `{Clock C} `{CustomDispatch D T}.
Implicit Types n : RaftNode S T C D.
#[local] Abbreviation M := (M S T C D).

(** The voters a majority is counted over. *)
Definition configuration n : option (list PeerId * list PeerId) * list PeerId :=
  (joint_peers n, node_peers n).

Definition next_configuration (e : ConfigChangeEntry)
  (c : option (list PeerId * list PeerId) * list PeerId) : option (list PeerId * list PeerId) * list PeerId :=
  match cc_phase e with
  | Joint => (Some (old_peers e, new_peers e), merge_peers (old_peers e) (new_peers e))
  | Final => if is_nil (new_peers e) then c else (None, new_peers e)
  | AddLearner | RemoveLearner => c
  end.

Lemma keeps_configuration_reconcile :
  keeps configuration (reconcile_leader_progress_with_config : M unit).
Proof. unfold reconcile_leader_progress_with_config, drop_stale_peer. keeps_auto. Qed.

Lemma keeps_configuration_step_down term : keeps configuration (step_down term : M unit).
Proof. unfold step_down, persist_hard_state, demote_to_follower_keep_term. keeps_auto. Qed.

Lemma apply_phase_configuration e n :
  configuration (apply_phase e n).2 = next_configuration e (configuration n).
Proof.
  unfold apply_phase, next_configuration, configuration. destruct (cc_phase e); try done.
  by destruct (is_nil (new_peers e)).
Qed.

Lemma apply_config_change_configuration e n :
  configuration (apply_config_change e n).2 = next_configuration e (configuration n).
Proof.
  unfold apply_config_change, on_metrics. rewrite bind_modify.
  pose proof (apply_phase_configuration e (set_metrics (inc_config_changes_applied (metrics n)) n)) as Hp.
  unfold mbind at 1, M_bind at 1. destruct (apply_phase e _) as [[[]|er] n1]; [|exact Hp].
  cbn [snd] in Hp. change (configuration n) with (configuration (set_metrics (inc_config_changes_applied (metrics n)) n)).
  rewrite <- Hp. refine ((_ : keeps configuration _) n1).
  pose proof keeps_configuration_reconcile. pose proof keeps_configuration_step_down. keeps_auto.
Qed.

(** The change [e] is one the protocol makes in [n], as [propose_config_change]
    does: a joint configuration starts from the voters in force, a final one ends
    the joint one with its new voters. *)
Definition follows_protocol (e : ConfigChangeEntry) n : Prop :=
  match cc_phase e with
  | Joint => joint_peers n = None /\ old_peers e = node_peers n
  | Final => exists old, joint_peers n = Some (old, new_peers e)
  | AddLearner | RemoveLearner => True
  end.

(** The voters [g] are a majority in the eyes of [n]. *)
Definition majority_in n (g : list PeerId) : Prop :=
  voters_of (node_peers n) g /\ voter_majority g n = true.

Lemma next_configuration_overlaps e n n' g1 g2 :
  follows_protocol e n -> configuration n' = next_configuration e (configuration n) ->
  majority_in n g1 -> majority_in n' g2 -> exists p, p ∈ g1 /\ p ∈ g2.
Proof.
  unfold majority_in, follows_protocol, next_configuration, configuration, voter_majority.
  intros He Ec [V1 M1] [V2 M2]. destruct (cc_phase e) eqn:Ep; cbn in *.
  - destruct He as [Hj Ho]. injection Ec as Ej En. rewrite Hj in M1. rewrite Ej in M2.
    destruct (joint_half_intersect (old_peers e) (new_peers e) (node_peers n') (node_peers n) g2 g1)
      as (p & ? & ?); eauto.
  - destruct He as [old Hj]. destruct (is_nil (new_peers e)) eqn:Enil; injection Ec as Ej En.
    + rewrite Ej, En in *. by eapply same_config_intersect.
    + rewrite Hj in M1. rewrite Ej in M2.
      by apply (joint_half_intersect old (new_peers e) (node_peers n) (node_peers n') g1 g2); auto.
  - injection Ec as Ej En. rewrite Ej, En in *. by eapply same_config_intersect.
  - injection Ec as Ej En. rewrite Ej, En in *. by eapply same_config_intersect.
Qed.

(** C9: quorum intersection, also across a membership change: when a node applies
    a change the protocol makes there (a joint configuration that starts from the
    voters in force, a final one that ends it, a change of learners), any two sets
    of voters that are majorities before or after it, in any combination, have a
    voter in common. *)
Theorem majorities_intersect e n g1 g2 :
  let n' := (apply_config_change e n).2 in
  follows_protocol e n ->
  majority_in n g1 \/ majority_in n' g1 -> majority_in n g2 \/ majority_in n' g2 ->
  exists p, p ∈ g1 /\ p ∈ g2.
Proof.
  intros n' He. pose proof (apply_config_change_configuration e n) as Ec. fold n' in Ec.
  intros [Ha|Ha] [Hb|Hb].
  1, 4: by destruct Ha, Hb; eapply same_config_intersect.
  - by eapply next_configuration_overlaps.
  - destruct (next_configuration_overlaps e n n' g2 g1) as (p & ? & ?); eauto.
Qed.
End ConfigFacts.

(** Voters 1, 2 and 3 are replaced by 3, 4 and 5: the last majority of the old
    ones and the first joint one. *)
Lemma majorities_intersect_witness :
  let e := {| cc_phase := Joint; old_peers := [1; 2; 3]; new_peers := [3; 4; 5] |} in
  let n := sample_node 1 [1; 2; 3] {| current_term := 1; voted_for := None |} [] in
  majority_in (apply_config_change e n).2 [2; 3; 5] /\ exists p, p ∈ [1; 2] /\ p ∈ [2; 3; 5].
Proof.
  intros e n.
  assert (Hv : forall ps gs, bool_decide (NoDup gs /\ Forall (fun p => p ∈ ps) gs) = true -> voters_of ps gs).
  { intros ps gs [Hn Hf]%bool_decide_eq_true. split; [done|]. by apply Forall_forall. }
  assert (H2 : majority_in (apply_config_change e n).2 [2; 3; 5])
    by (split; [apply Hv|]; vm_compute; reflexivity).
  split; [exact H2|].
  apply (majorities_intersect e n [1; 2] [2; 3; 5]); [split; vm_compute; reflexivity| |by right].
  left. split; [apply Hv|]; vm_compute; reflexivity.
Defined.
