(* ===== verification/Stability.v ===== *)
(** * Stability: terms never go back and votes are never taken back

    For every message and every storage, whatever fails, handling the message
    keeps the term of the node from decreasing and, while the term stays, keeps
    a vote once given.  The exception is the same-term step-down of a leader
    that abdicates or applies its own removal ([abdication_allows_second_vote] of
    [Findings] runs one). *)

From stdpp Require Import base list sets gmap strings.
From Stdlib Require Import ZArith Lia.
From S2P Require Import Prelude Types Wire Codec Arena Progress Quorum Traits Membership.
From S2P Require Import NodeState Node Election ConfigChange Replication Snapshot Transfer.
From S2P Require Import Inbound Frames.

Local Open Scope Z_scope.

(** The term grows, or it stays with the vote kept once it is given. *)
Definition hs_stable (h h' : HardState) : Prop :=
  current_term h < current_term h' \/
  (current_term h = current_term h' /\ (voted_for h = None \/ voted_for h' = voted_for h)).

#[export] Instance hs_stable_preorder : PreOrder hs_stable.
Proof.
  split.
  - intros h. right. auto.
  - intros h1 h2 h3 [Ht1|[Ht1 Hv1]] [Ht2|[Ht2 Hv2]]; unfold hs_stable; [left; lia..|].
    right. split; [lia|]. destruct Hv1 as [->|E1]; [by left|].
    destruct Hv2 as [E2|E2]; [left|right]; congruence.
Qed.

Section Stability.
Context {S T C D : Type} `{RaftStorage S} `{RaftTransport T} `{Clock C} `{CustomDispatch D T}.
Implicit Types n : RaftNode S T C D.
#[local] Abbreviation M := (M S T C D).
#[local] Abbreviation hs := (@hard_state S T C D).

(** The part of the node the argument is about. *)
Definition office n : HardState * Role := (hard_state n, ss_role (soft_state n)).

Lemma keeps_hard_state {A} (m : M A) : keeps office m -> keeps hs m.
Proof. intros Hm n. specialize (Hm n). unfold office in Hm. congruence. Qed.

(** ** Methods that keep the hard state and the role *)

Lemma keeps_demote : keeps hs demote_to_follower_keep_term.
Proof. unfold demote_to_follower_keep_term. keeps_auto. Qed.

Lemma keeps_storage_truncate i : keeps office (storage_truncate i).
Proof. unfold storage_truncate. keeps_auto. Qed.

Lemma keeps_local_term_at i : keeps office (local_term_at i).
Proof. unfold local_term_at. keeps_auto. Qed.
#[local] Hint Resolve keeps_storage_truncate keeps_local_term_at : keeps.

Lemma keeps_scan_entries what start count items idx :
  keeps office (scan_entries what start count items idx).
Proof.
  revert idx. induction items as [|[i t] items IH]; intros idx; cbn [scan_entries]; keeps_auto.
Qed.

Lemma keeps_note_appended items : keeps office (note_appended items).
Proof. unfold note_appended. keeps_auto. Qed.

Lemma keeps_prev_matches i t : keeps office (prev_matches i t).
Proof. unfold prev_matches. keeps_auto. Qed.

Lemma keeps_reconcile : keeps office reconcile_leader_progress_with_config.
Proof. unfold reconcile_leader_progress_with_config, drop_stale_peer. keeps_auto. Qed.

Lemma keeps_apply_phase e : keeps office (apply_phase e).
Proof. unfold apply_phase, drop_voting_learners. keeps_auto. Qed.

Lemma keeps_open_pending from meta off st : keeps office (open_pending from meta off st).
Proof. unfold open_pending, put_pending. keeps_auto. Qed.

Lemma keeps_reply_snapshot from off acc : keeps office (reply_snapshot from off acc).
Proof. unfold reply_snapshot. keeps_auto. Qed.

Lemma keeps_reseat meta : keeps office (reseat_at_boundary meta).
Proof. unfold reseat_at_boundary. keeps_auto. Qed.
#[local] Hint Resolve keeps_scan_entries keeps_note_appended keeps_prev_matches keeps_reconcile
  keeps_apply_phase keeps_open_pending keeps_reply_snapshot keeps_reseat : keeps.

Lemma keeps_finish_snapshot from : keeps office (finish_snapshot from).
Proof. unfold finish_snapshot. keeps_auto. Qed.
#[local] Hint Resolve keeps_finish_snapshot : keeps.

Lemma keeps_accept_chunk from pending payload fin st :
  keeps office (accept_chunk from pending payload fin st).
Proof. unfold accept_chunk, put_pending. keeps_auto. Qed.

Lemma keeps_stamp_contact from msg : keeps office (stamp_contact from msg).
Proof. unfold stamp_contact. keeps_auto. Qed.

Lemma keeps_leader_heard : keeps office leader_heard_recently.
Proof. unfold leader_heard_recently. keeps_auto. Qed.
#[local] Hint Resolve keeps_accept_chunk keeps_stamp_contact keeps_leader_heard : keeps.

Lemma keeps_custom from payload :
  keeps office (handle_custom_message from payload) /\
  keeps office (handle_custom_response from payload).
Proof.
  split; intros n; unfold handle_custom_message, handle_custom_response.
  - by destruct (invoke_custom _ _ _ _ _ _) as [[r d] t].
  - by destruct (on_custom_response _ _ _) as [r d].
Qed.

Lemma keeps_pre_vote from msg : keeps office (handle_pre_vote from msg).
Proof. unfold handle_pre_vote. keeps_auto. Qed.
#[local] Hint Resolve keeps_pre_vote : keeps.

(** ** Stability at a node *)

Definition stable_at {A} (m : M A) n : Prop := hs_stable (hard_state n) (hard_state (m n).2).

Lemma stable_bind {A B} (m : M A) (k : A -> M B) n :
  stable_at m n -> (forall a n', m n = (Ok a, n') -> stable_at (k a) n') ->
  stable_at (m ≫= k) n.
Proof.
  unfold stable_at, mbind, M_bind. destruct (m n) as [[a|e] n']; cbn [snd]; [|done].
  intros Hm Hk. etransitivity; [exact Hm | by apply Hk].
Qed.

Lemma stable_keeps {A} (m : M A) n : keeps hs m -> stable_at m n.
Proof. intros Hm. unfold stable_at. rewrite Hm. reflexivity. Qed.

Lemma stable_office {A} (m : M A) n : keeps office m -> stable_at m n.
Proof. intros Hm. by apply stable_keeps, keeps_hard_state. Qed.

Lemma step_down_hard_state t n :
  hard_state (step_down t n).2 = {| current_term := t; voted_for := None |}.
Proof.
  unfold step_down. rewrite !bind_modify.
  assert (Hk : keeps hs (persist_hard_state ≫= fun _ => demote_to_follower_keep_term)).
  { unfold persist_hard_state. pose proof keeps_demote. keeps_auto. }
  by rewrite Hk.
Qed.

(** Adopting a strictly higher term is stable, whether or not it persists. *)
Lemma stable_step_down t n : node_term n < t -> stable_at (step_down t) n.
Proof. intros Ht. unfold stable_at. rewrite step_down_hard_state. by left. Qed.

(** [if t > current { step_down(t)? }] *)
Lemma stable_adopt t n : stable_at (whenM (node_term n <? t) (step_down t)) n.
Proof.
  destruct (Z.ltb_spec (node_term n) t) as [Hlt|Hge]; cbn [whenM];
    [by apply stable_step_down | by apply stable_keeps, keeps_ret].
Qed.

(** Granting writes the vote only where it was free or already the same. *)
Lemma stable_grant candidate n :
  vote_available candidate (voted_for (hard_state n)) = true ->
  stable_at (modify (set_vote (Some candidate)) ≫= fun _ => persist_hard_state) n.
Proof.
  intros Hv. unfold stable_at. rewrite bind_modify.
  assert (Hk : keeps hs persist_hard_state) by (unfold persist_hard_state; keeps_auto).
  rewrite Hk. right. split; [done|]. cbn.
  unfold vote_available in Hv. destruct (voted_for (hard_state n)) as [v|]; [|by left].
  right. zbool. congruence.
Qed.

Lemma stable_gets {A B} (f : RaftNode S T C D -> A) (k : A -> M B) n :
  stable_at (k (f n)) n -> stable_at (gets f ≫= k) n.
Proof. done. Qed.

Lemma stable_modify {B} f (k : unit -> M B) n :
  hard_state (f n) = hard_state n -> stable_at (k tt) (f n) -> stable_at (modify f ≫= k) n.
Proof. unfold stable_at. rewrite bind_modify. by intros ->. Qed.

(** A step that keeps hard state and role, then the rest from a node with the
    same ones. *)
Lemma stable_then {A B} (m : M A) (k : A -> M B) n :
  keeps office m ->
  (forall a n', office n' = office n -> stable_at (k a) n') -> stable_at (m ≫= k) n.
Proof.
  intros Hm Hk. apply stable_bind; [by apply stable_office|].
  intros a n' E. apply Hk. specialize (Hm n). by rewrite E in Hm.
Qed.

Lemma stable_request_vote from msg n : stable_at (handle_request_vote from msg) n.
Proof.
  unfold handle_request_vote. apply stable_gets.
  apply stable_bind; [apply stable_adopt|]. intros [] n1 _.
  apply stable_then; [keeps_auto|]. intros last n2 _. apply stable_gets.
  apply stable_bind; [|intros; apply stable_office; keeps_auto].
  match goal with |- stable_at (whenM ?c _) _ => destruct c eqn:Hc end; cbn [whenM];
    [|apply stable_office; keeps_auto].
  zbool. by apply stable_grant.
Qed.

(** Methods that keep hard state and role when the node does not lead. *)
Definition keeps_following {A} (m : M A) : Prop :=
  forall n, ss_role (soft_state n) <> Leader -> office (m n).2 = office n.

Lemma following_bind {A B} (m : M A) (k : A -> M B) :
  keeps_following m -> (forall a, keeps_following (k a)) -> keeps_following (m ≫= k).
Proof.
  intros Hm Hk n Hr. unfold mbind, M_bind. specialize (Hm n Hr).
  destruct (m n) as [[a|e] n']; cbn [snd] in *; [|done].
  rewrite Hk; [done|]. unfold office in Hm. congruence.
Qed.

Lemma following_keeps {A} (m : M A) : keeps office m -> keeps_following m.
Proof. intros Hm n _. apply Hm. Qed.

Lemma following_gets_leader {B} (f : RaftNode S T C D -> bool) (k : bool -> M B) :
  (forall n, is_leader n = false -> f n = false) ->
  keeps_following (k false) -> keeps_following (gets f ≫= k).
Proof.
  intros Hf Hk n Hr. rewrite bind_gets, Hf; [by apply Hk|].
  unfold is_leader, role_eqb. by apply bool_decide_eq_false.
Qed.

Lemma following_apply_config_change e : keeps_following (apply_config_change e).
Proof.
  unfold apply_config_change.
  apply following_bind; [apply following_keeps; keeps_auto|]. intros _.
  apply following_bind; [apply following_keeps; keeps_auto|]. intros _.
  apply following_gets_leader; [done|]. apply following_bind; [apply following_keeps; keeps_auto|].
  intros _. apply following_gets_leader; [by intros n ->|]. apply following_keeps. keeps_auto.
Qed.

Lemma following_activate o : keeps_following (activate_config o).
Proof. destruct o; [apply following_apply_config_change | by apply following_keeps, keeps_ret]. Qed.

Lemma following_append msg payload : keeps_following (apply_append_entries msg payload).
Proof.
  unfold apply_append_entries.
  apply following_bind; [apply following_keeps; keeps_auto|]. intros k.
  destruct (_ <? _)%nat; [|apply following_keeps; keeps_auto].
  apply following_bind; [apply following_keeps; keeps_auto|]. intros _.
  apply following_bind; [apply following_keeps; keeps_auto|]. intros _. apply following_activate.
Qed.

Lemma following_append_seeded msg headers payloads :
  keeps_following (apply_append_entries_seeded msg headers payloads).
Proof.
  unfold apply_append_entries_seeded.
  apply following_bind; [apply following_keeps; keeps_auto|]. intros k.
  destruct (_ <? _)%nat; [|apply following_keeps; keeps_auto].
  destruct (parse_headers headers); [|apply following_keeps; keeps_auto].
  apply following_bind; [apply following_keeps; keeps_auto|]. intros _.
  apply following_bind; [apply following_keeps; keeps_auto|]. intros _. apply following_activate.
Qed.

Lemma stable_following {A B} (m : M A) (k : A -> M B) n :
  keeps_following m -> ss_role (soft_state n) <> Leader ->
  (forall a n', office n' = office n -> stable_at (k a) n') -> stable_at (m ≫= k) n.
Proof.
  intros Hm Hr Hk. specialize (Hm n Hr). apply stable_bind.
  - unfold stable_at. unfold office in Hm. injection Hm as -> _. reflexivity.
  - intros a n' E. apply Hk. by rewrite E in Hm.
Qed.

Lemma stable_handle_append append from msg n :
  keeps_following append -> stable_at (handle_append append from msg) n.
Proof.
  intros Happ. unfold handle_append. apply stable_gets.
  destruct (ae_term msg <? node_term n); [apply stable_office; keeps_auto|].
  apply stable_bind; [apply stable_adopt|]. intros [] n1 _.
  apply stable_modify; [done|]. apply stable_modify; [done|]. apply stable_modify; [done|].
  match goal with |- stable_at _ ?x => set (n2 := x) end.
  assert (Hr2 : ss_role (soft_state n2) = Follower) by done. clearbody n2.
  apply stable_then; [keeps_auto|]. intros t n3 E3.
  apply stable_modify; [done|].
  apply stable_then; [keeps_auto|]. intros ok n4 E4.
  assert (Hr4 : ss_role (soft_state n4) <> Leader).
  { unfold office in E3, E4. cbn in E4. congruence. }
  destruct (negb ok); [apply stable_office; keeps_auto|].
  apply stable_following; [done|done|]. intros [] n5 _. apply stable_office. keeps_auto.
Qed.

Lemma stable_append_response from resp n :
  stable_at (handle_append_entries_response from resp) n.
Proof.
  unfold handle_append_entries_response. apply stable_gets.
  destruct (Z.ltb_spec (node_term n) (aer_term resp)); [by apply stable_step_down|].
  apply stable_office. keeps_auto.
Qed.

Lemma stable_install_snapshot from msg payload n :
  stable_at (handle_install_snapshot from msg payload) n.
Proof.
  unfold handle_install_snapshot.
  destruct (negb (_ =? is_chunk_len msg)); [apply stable_office; keeps_auto|].
  apply stable_gets. destruct (negb (contains _ _)); [apply stable_office; keeps_auto|].
  apply stable_then; [keeps_auto|]. intros k n1 _. apply stable_gets.
  destruct (is_term msg <? node_term n1); [apply stable_office; keeps_auto|].
  apply stable_bind; [apply stable_adopt|]. intros [] n2 _.
  apply stable_modify; [done|]. apply stable_modify; [done|]. apply stable_modify; [done|].
  apply stable_office. keeps_auto.
Qed.

Lemma stable_timeout_now from msg n : stable_at (handle_timeout_now from msg) n.
Proof.
  unfold handle_timeout_now. apply stable_gets.
  destruct (tn_term msg <? node_term n); [apply stable_office; keeps_auto|].
  apply stable_bind; [apply stable_adopt|]. intros [] n1 _. apply stable_office. keeps_auto.
Qed.

Lemma stable_adopt_response t n :
  stable_at (current ← gets node_term; whenM (current <? t) (step_down t)) n.
Proof. apply stable_gets, stable_adopt. Qed.

Lemma stable_handle_inbound im n : stable_at (handle_inbound im) n.
Proof.
  unfold handle_inbound. apply stable_then; [keeps_auto|]. intros [] n1 _.
  destruct (im_message im).
  - apply stable_request_vote.
  - apply stable_adopt_response.
  - apply stable_office. keeps_auto.
  - apply stable_adopt_response.
  - apply stable_handle_append, following_append.
  - apply stable_office. keeps_auto.
  - apply stable_handle_append, following_append_seeded.
  - apply stable_office. keeps_auto.
  - apply stable_append_response.
  - apply stable_install_snapshot.
  - apply stable_adopt_response.
  - apply stable_timeout_now.
  - apply stable_office. by apply keeps_custom.
  - apply stable_office. by apply keeps_custom.
Qed.

(** C6: Election Safety at one node: whatever message arrives, from whoever,
    and whatever the storage and the transport answer, handling it never
    decreases the node's term, and within a term a vote, once given, is never
    changed or withdrawn. *)
Theorem handle_inbound_vote_stable im n :
  let n' := (handle_inbound im n).2 in
  node_term n <= node_term n' /\
  forall candidate, node_term n' = node_term n ->
    voted_for (hard_state n) = Some candidate -> voted_for (hard_state n') = Some candidate.
Proof.
  intros n'. pose proof (stable_handle_inbound im n) as Hs. unfold stable_at, hs_stable in Hs.
  fold n' in Hs. unfold node_term. split; [lia|].
  intros candidate Ht Hv. destruct Hs as [?|[_ [?|?]]]; [lia|congruence|congruence].
Qed.
End Stability.
