(* ===== verification/Durability.v ===== *)
(** * Durability: the hard state is on stable storage before it is used

    [in_sync]: the node's term and vote are those on stable storage.  Handling
    any message keeps it whenever the handler returns [Ok], for every storage
    that satisfies its documented contract; and a vote is granted to a
    candidate only after it has been persisted. *)

From stdpp Require Import base list sets gmap strings.
From Stdlib Require Import ZArith Lia.
From S2P Require Import Prelude Types Wire Codec Arena Progress Quorum Traits Membership.
From S2P Require Import NodeState Node Election ConfigChange Replication Snapshot Transfer.
From S2P Require Import Inbound Frames Samples.

Local Open Scope Z_scope.

Section Durability.
Context {S T C D : Type} `{StorageLaws S} `{RaftTransport T} `{Clock C} `{CustomDispatch D T}.
Implicit Types n : RaftNode S T C D.
#[local] Abbreviation M := (M S T C D).

Definition durable n : HardState := v_hard (sview (storage n)).
Definition in_sync n : Prop := durable n = hard_state n.

(** The hard state in memory and on disk. *)
Definition both n : HardState * HardState := (hard_state n, durable n).

(** ** Storage calls that leave the durable hard state alone *)

Lemma keeps_reads {A} (op : S -> res A * S) P : reads sview op P -> keeps both (on_storage op).
Proof.
  intros Hr n. unfold on_storage. destruct (op (storage n)) as [r s] eqn:E.
  apply Hr in E as [E _]. unfold both, durable. cbn. by rewrite E.
Qed.

Lemma keeps_writes (op : S -> res unit * S) P (Q : View -> View -> Prop) :
  writes sview op P Q -> (forall v v', Q v v' -> v_hard v' = v_hard v) ->
  keeps both (on_storage op).
Proof.
  intros Hw HQ n. unfold on_storage. destruct (op (storage n)) as [r s] eqn:E.
  apply Hw in E as [E _]. unfold both, durable. cbn. by rewrite (HQ _ _ E).
Qed.

Lemma keeps_both_term_at i : keeps both (on_storage (storage_term_at i)).
Proof. exact (keeps_reads _ _ (storage_term_at_law i)). Qed.
Lemma keeps_both_last : keeps both (on_storage last_log_position).
Proof. exact (keeps_reads _ _ last_log_position_law). Qed.
Lemma keeps_both_truncate i : keeps both (on_storage (truncate_suffix i)).
Proof. apply (keeps_writes _ _ _ (truncate_suffix_law i)). by intros v v' [? ?]. Qed.
Lemma keeps_both_before i : keeps both (on_storage (truncate_before i)).
Proof. apply (keeps_writes _ _ _ (truncate_before_law i)). by intros v v' [? ?]. Qed.
Lemma keeps_both_append es : keeps both (on_storage (append_entries es)).
Proof. apply (keeps_writes _ _ _ (append_entries_law es)). by intros v v' [? ?]. Qed.
Lemma keeps_both_seeded hs ps : keeps both (on_storage (append_entries_seeded hs ps)).
Proof. apply (keeps_writes _ _ _ (append_entries_seeded_law hs ps)). by intros v v' [? ?]. Qed.
Lemma keeps_both_save_snapshot m b : keeps both (on_storage (save_snapshot m b)).
Proof. apply (keeps_writes _ _ _ (save_snapshot_law m b)). by intros v v' [? ?]. Qed.
#[local] Hint Resolve keeps_both_term_at keeps_both_last keeps_both_truncate keeps_both_before
  keeps_both_append keeps_both_seeded keeps_both_save_snapshot : keeps.

(** ** Methods that keep an [Ok] run in sync *)

Definition synced {A} (m : M A) : Prop :=
  forall n a n', in_sync n -> m n = (Ok a, n') -> in_sync n'.

Lemma synced_bind {A B} (m : M A) (k : A -> M B) :
  synced m -> (forall a, synced (k a)) -> synced (m ≫= k).
Proof.
  intros Hm Hk n b n'' Hn E. apply bind_inv_Ok in E as (a & n' & Em & Ek).
  eapply Hk; [|exact Ek]. by eapply Hm.
Qed.

Lemma synced_keeps {A} (m : M A) : keeps both m -> synced m.
Proof.
  intros Hm n a n' Hn E. specialize (Hm n). rewrite E in Hm. cbn in Hm.
  unfold both, in_sync in *. congruence.
Qed.

Lemma synced_whenM b (m : M unit) : synced m -> synced (whenM b m).
Proof. intros Hm. destruct b; [done|]. intros n a n' Hn [= _ <-]. done. Qed.

Lemma synced_persist n a n' : persist_hard_state n = (Ok a, n') -> in_sync n' /\ hard_state n' = hard_state n.
Proof.
  unfold persist_hard_state. rewrite bind_gets. unfold on_storage.
  destruct (save_hard_state (hard_state n) (storage n)) as [r s] eqn:E. intros [= -> <-].
  apply save_hard_state_law in E as [_ E]. destruct a.
  split; [|done]. unfold in_sync, durable. cbn. by rewrite (E eq_refl).
Qed.

Lemma keeps_both_demote : keeps both demote_to_follower_keep_term.
Proof. unfold demote_to_follower_keep_term. keeps_auto. Qed.

(** After a successful step-down the durable hard state is the new term with a
    free vote. *)
Lemma step_down_durable t n n' :
  step_down t n = (Ok tt, n') ->
  in_sync n' /\ hard_state n' = {| current_term := t; voted_for := None |}.
Proof.
  unfold step_down. rewrite !bind_modify. intros E.
  apply bind_inv_Ok in E as (a & n1 & E1 & E2). apply synced_persist in E1 as [Hs Hh].
  pose proof (keeps_both_demote n1) as Hk. rewrite E2 in Hk. cbn in Hk.
  unfold both in Hk. injection Hk as Hk1 Hk2. unfold in_sync in *.
  split; [congruence|]. by rewrite Hk1, Hh.
Qed.

Lemma synced_step_down t : synced (step_down t).
Proof. intros n [] n' _ E. by apply step_down_durable in E as [? _]. Qed.

Lemma synced_grant c : synced (modify (set_vote (Some c)) ≫= fun _ => persist_hard_state).
Proof. intros n a n' _. rewrite bind_modify. intros E. by apply synced_persist in E as [? _]. Qed.

Ltac synced_step :=
  lazymatch goal with
  | |- synced (whenM _ (step_down _)) => apply synced_whenM, synced_step_down
  | |- synced (whenM _ (mbind _ (modify (set_vote _)))) => apply synced_whenM, synced_grant
  | |- synced (step_down _) => apply synced_step_down
  | |- synced (mbind _ _) => apply synced_bind; [|intros ?]
  | |- synced (if ?b then _ else _) => destruct b
  | |- synced (match ?x with _ => _ end) => destruct x
  | |- synced _ => first [solve [eauto with keeps] | apply synced_keeps; solve [keeps_auto]]
  end.
Ltac synced_auto := repeat (synced_step; cbv beta zeta).

Lemma keeps_both_truncate_log i : keeps both (storage_truncate i).
Proof. unfold storage_truncate. keeps_auto. Qed.
#[local] Hint Resolve keeps_both_truncate_log : keeps.

Lemma keeps_both_scan what start count items idx :
  keeps both (scan_entries what start count items idx).
Proof.
  revert idx. induction items as [|[i t] items IH]; intros idx; cbn [scan_entries];
    unfold local_term_at; keeps_auto.
Qed.
#[local] Hint Resolve keeps_both_scan : keeps.

Lemma synced_config_change e : synced (apply_config_change e).
Proof.
  unfold apply_config_change, apply_phase, drop_voting_learners,
    reconcile_leader_progress_with_config, drop_stale_peer. synced_auto.
Qed.

Lemma synced_activate o : synced (activate_config o).
Proof. destruct o; [apply synced_config_change | by apply synced_keeps, keeps_ret]. Qed.
#[local] Hint Resolve synced_activate : keeps.

Lemma synced_append msg payload : synced (apply_append_entries msg payload).
Proof. unfold apply_append_entries, note_appended. synced_auto. Qed.

Lemma synced_append_seeded msg h p : synced (apply_append_entries_seeded msg h p).
Proof. unfold apply_append_entries_seeded, note_appended. synced_auto. Qed.
#[local] Hint Resolve synced_append synced_append_seeded : keeps.

Lemma synced_handle_append append from msg : synced append -> synced (handle_append append from msg).
Proof. intros Ha. unfold handle_append, prev_matches. synced_auto. Qed.

Lemma synced_install_snapshot from msg payload : synced (handle_install_snapshot from msg payload).
Proof.
  unfold handle_install_snapshot, accept_chunk, open_pending, put_pending, finish_snapshot,
    reseat_at_boundary, reply_snapshot. synced_auto.
Qed.

(** Durable hard state: if the node's term and vote are those on stable
    storage and handling a message succeeds, they still are, for any message
    and any storage that keeps its contract. *)
Theorem handle_inbound_in_sync im n n' :
  in_sync n -> handle_inbound im n = (Ok tt, n') -> in_sync n'.
Proof.
  enough (Hs : synced (handle_inbound im)) by (intros Hn E; by eapply Hs).
  unfold handle_inbound, stamp_contact. apply synced_bind; [synced_auto|]. intros [].
  destruct (im_message im);
    unfold handle_request_vote, handle_request_vote_response, handle_pre_vote,
      handle_pre_vote_response, leader_heard_recently, handle_append_entries_response,
      handle_install_snapshot_response, handle_timeout_now;
    try (apply synced_handle_append; auto with keeps);
    try apply synced_install_snapshot; synced_auto.
  - apply synced_keeps. intros n0. unfold handle_custom_message.
    by destruct (invoke_custom _ _ _ _ _ _) as [[r d] t].
  - apply synced_keeps. intros n0. unfold handle_custom_response.
    by destruct (on_custom_response _ _ _) as [r d].
Qed.

(** ** Granting a vote *)

Definition stored_log n : gmap Z (Term * bytes) := v_log (sview (storage n)).

Lemma keeps_log_persist : keeps stored_log persist_hard_state.
Proof.
  unfold persist_hard_state. intros n. rewrite bind_gets. unfold on_storage.
  destruct (save_hard_state (hard_state n) (storage n)) as [r s] eqn:E.
  apply save_hard_state_law in E as [[E _] _]. exact E.
Qed.

Lemma keeps_log_step_down t : keeps stored_log (step_down t).
Proof.
  unfold step_down, demote_to_follower_keep_term. pose proof keeps_log_persist. keeps_auto.
Qed.

(** The hard state after the higher-term rule. *)
Definition adopt_term (t : Term) (h : HardState) : HardState :=
  if current_term h <? t then {| current_term := t; voted_for := None |} else h.

Lemma adopt_higher_term t n n' :
  in_sync n -> whenM (node_term n <? t) (step_down t) n = (Ok tt, n') ->
  hard_state n' = adopt_term t (hard_state n) /\ in_sync n' /\ stored_log n' = stored_log n.
Proof.
  intros Hs E. unfold adopt_term. fold (node_term n).
  destruct (node_term n <? t); cbn [whenM] in E.
  - pose proof (keeps_log_step_down t n) as Hl. rewrite E in Hl.
    apply step_down_durable in E as [? ?]. done.
  - injection E as <-. done.
Qed.

(** Whether a RequestVote is granted by a node with hard state [h] whose log
    ends at [last]. *)
Definition grants (msg : RequestVote) (last : LogIndex * Term) (h : HardState) : bool :=
  (rv_term msg =? current_term h)
  && candidate_up_to_date (rv_last_log_term msg) (rv_last_log_index msg) last
  && vote_available (rv_candidate_id msg) (voted_for h).

(** C8: a RequestVote is answered by the rules of Raft, durably: the node first
    adopts a higher term; it grants exactly when the candidate's term is then
    its own, the candidate's log is at least as up to date as its own last
    entry, and its vote is free or already the candidate's; and when the answer
    leaves, the term and vote it announces are on stable storage. *)
Theorem handle_request_vote_spec from msg n n' :
  in_sync n -> handle_request_vote from msg n = (Ok tt, n') ->
  exists last n1 sent,
    let h := adopt_term (rv_term msg) (hard_state n) in
    let grant := grants msg last h in
    (stored_log n <> ∅ -> is_last (stored_log n) last) /\
    hard_state n1 = (if grant then {| current_term := rv_term msg;
                                      voted_for := Some (rv_candidate_id msg) |} else h) /\
    in_sync n1 /\
    send_message from (MRequestVoteResp (vote_resp (node_term n1) grant)) n1 = (Ok sent, n').
Proof.
  intros Hs E. unfold handle_request_vote in E. rewrite bind_gets in E.
  apply bind_inv_Ok in E as ([] & n1 & E1 & E).
  apply adopt_higher_term in E1 as (Hh & Hs1 & Hl); [|done].
  apply bind_inv_Ok in E as (last & n2 & E2 & E).
  pose proof (keeps_both_last n1) as Hb. rewrite E2 in Hb. cbn in Hb. unfold both in Hb.
  injection Hb as Hb1 Hb2.
  assert (Hlast : stored_log n <> ∅ -> is_last (stored_log n) last).
  { rewrite <- Hl. unfold on_storage in E2.
    destruct (last_log_position (storage n1)) as [r s] eqn:El.
    injection E2 as -> <-. apply last_log_position_law in El as [_ El]. by apply El. }
  rewrite bind_gets in E. rewrite Hb1, Hh in E.
  fold (grants msg last (adopt_term (rv_term msg) (hard_state n))) in E.
  apply bind_inv_Ok in E as ([] & n3 & E3 & E). rewrite bind_gets in E.
  apply bind_inv_Ok in E as (sent & n4 & E4 & [= <-]).
  exists last, n3, sent. cbv zeta. split; [done|].
  destruct (grants msg last _) eqn:Hg; cbn [whenM] in E3.
  - rewrite bind_modify in E3. apply synced_persist in E3 as [Hs3 Hh3].
    split_and!; [|done|exact E4]. rewrite Hh3. cbn.
    rewrite Hb1, Hh. unfold grants in Hg. zbool. congruence.
  - injection E3 as <-. split_and!; [congruence | unfold in_sync in *; congruence | exact E4].
Qed.
End Durability.

(** ** Witnesses *)

Definition voter : SampleNode :=
  sample_node 1 [1; 2; 3] {| current_term := 4; voted_for := None |} [1; 3; 4].

Definition vote_for_two : InboundRaftMessage := from_peer 2 (MRequestVote (vote_req 5 2 3 4)).

Lemma handle_inbound_in_sync_witness : in_sync (node_after (handle_inbound vote_for_two voter)).
Proof.
  apply (handle_inbound_in_sync vote_for_two voter).
  - reflexivity.
  - vm_compute. reflexivity.
Defined.

Lemma handle_request_vote_spec_witness :
  exists last n1 sent,
    let h := adopt_term 5 (hard_state voter) in
    let grant := grants (vote_req 5 2 3 4) last h in
    (stored_log voter <> ∅ -> is_last (stored_log voter) last) /\
    hard_state n1 = (if grant then {| current_term := 5; voted_for := Some 2 |} else h) /\
    in_sync n1 /\
    send_message 2 (MRequestVoteResp (vote_resp (node_term n1) grant)) n1
      = (Ok sent, node_after (handle_request_vote 2 (vote_req 5 2 3 4) voter)).
Proof.
  apply (handle_request_vote_spec 2 (vote_req 5 2 3 4) voter).
  - reflexivity.
  - vm_compute. reflexivity.
Defined.
