(* ===== verification/Safety.v ===== *)
(** * Safety: what a step of a node may do to an election

    [safe_step n n'] collects what Election Safety needs of the steps of one
    node: the configuration stays, the hard state in memory and the one on stable
    storage are steady, leadership is only lost, and every vote handed to the
    network is the node's own, was free before and is recorded after, in memory
    and on stable storage.  The relation is a preorder, so a method is safe when
    its parts are; handling any message that carries no change of the voters is,
    also when writes of the hard state fail on the way.

    A node that gave its vote of a term back (the leader that steps down with its
    own term) is held to nothing in that term: [Lapsed]. *)

From stdpp Require Import base list sets gmap strings.
From Stdlib Require Import ZArith Lia.
From S2P Require Import Prelude Types Wire Codec CodecFacts Arena Progress Quorum Traits.
From S2P Require Import Membership NodeState Node Election ConfigChange Replication Snapshot.
From S2P Require Import Transfer Inbound Frames Stability Durability.

Local Open Scope Z_scope.

(** ** Votes on the network *)

(** A vote: the voter, the term and the candidate it was sent to. *)
Abbreviation Vote := (PeerId * Term * PeerId)%type.

(** The vote a sent frame carries. *)
Definition vote_of (sent_frame : PeerId * bytes) : option Vote :=
  match decode_message sent_frame.2 with
  | Ok im =>
      match im_message im with
      | MRequestVoteResp r =>
          if rvr_vote_granted r =? 0 then None
          else Some (im_from im, rvr_term r, sent_frame.1)
      | _ => None
      end
  | Err _ => None
  end.

Definition votes_of (frames : list (PeerId * bytes)) : list Vote := omap vote_of frames.

Lemma votes_of_app l l' : votes_of (l ++ l') = votes_of l ++ votes_of l'.
Proof. apply omap_app. Qed.

(** Messages that are not answers to vote requests. *)
Definition not_vote (msg : RaftMessage) : bool :=
  match msg with MRequestVoteResp _ => false | _ => true end.

Lemma vote_of_other peer from msg :
  not_vote msg = true -> Z.of_nat (length (body_bytes msg)) <= u32_max ->
  vote_of (peer, frame_bytes from 0 msg) = None.
Proof.
  intros Hq Hfit. unfold vote_of. cbn [fst snd].
  destruct (decode_message _) as [im|] eqn:Hd; [|done].
  apply decode_frame_inv in Hd as (_ & Hk & _); [|done].
  by destruct msg, (im_message im).
Qed.

Lemma vote_resp_wf term granted : is_u64 term -> wire_wf (vote_resp term granted).
Proof.
  intros Ht. pose proof (le_value_bound (replicate 7 (to_byte 0))) as Hb.
  split; [cbn [layout to_fields RequestVoteResp_wire vote_resp rvr_term rvr_vote_granted rvr_pad];
          wire_fields; [lia|by destruct granted|exact Hb|done]|].
  cbn [to_fields of_fields RequestVoteResp_wire vote_resp rvr_term rvr_vote_granted rvr_pad].
  unfold vote_resp. do 2 f_equal.
Qed.

Lemma vote_of_resp peer from term granted :
  is_u64 from -> is_u64 term ->
  vote_of (peer, frame_bytes from 0 (MRequestVoteResp (vote_resp term granted))) =
  if granted then Some (from, term, peer) else None.
Proof.
  intros Hf Ht. unfold vote_of. cbn [fst snd].
  rewrite decode_frame; [|done|done|done].
  rewrite decode_body_ok; [|by apply vote_resp_wf|done].
  by destruct granted.
Qed.

(** A frame of a custom message, or of none. *)
Definition is_custom (msg : RaftMessage) : bool :=
  match msg with MCustom _ | MCustomResponse _ => true | _ => false end.
Definition custom_frame (sent_frame : PeerId * bytes) : Prop :=
  forall im, decode_message sent_frame.2 = Ok im -> is_custom (im_message im) = true.

Lemma custom_frame_of peer from msg :
  is_custom msg = true -> Z.of_nat (length (body_bytes msg)) <= u32_max ->
  custom_frame (peer, frame_bytes from 0 msg).
Proof.
  intros Hq Hfit im Hd. apply decode_frame_inv in Hd as (_ & Hk & _); [|done].
  by destruct msg, (im_message im).
Qed.

Lemma votes_of_custom frames : Forall custom_frame frames -> votes_of frames = [].
Proof.
  induction 1 as [|[p f] frames Hf _ IH]; [done|]. unfold votes_of in *. cbn.
  rewrite IH. unfold vote_of. cbn. destruct (decode_message f) as [im|] eqn:Hd; [|done].
  specialize (Hf im Hd). by destruct (im_message im).
Qed.

(** The application's handlers answer with custom frames only and receive
    nothing themselves. *)
Class DispatchLaws (D T : Type) `{CustomDispatch D T} `{TransportLaws T} := {
  invoke_custom_law route from self payload d t r d' t' :
    invoke_custom route from self payload d t = (r, d', t') ->
    (exists new, sent t' = sent t ++ new /\ Forall custom_frame new) /\ inbox t' = inbox t;
}.

#[export] Instance unit_dispatch_laws {T} `{TransportLaws T} : DispatchLaws unit T.
Proof.
  split. intros route from self payload d t r d' t' [= <- <- <-].
  split; [|done]. exists []. by rewrite app_nil_r.
Qed.

(** The terms a node gave its vote back in. *)
Class Lapsed := lapsed : Term -> Prop.

(** The vote of term [t] is given to [c], or past. *)
Definition voted (h : HardState) (t : Term) (c : PeerId) : Prop :=
  t < current_term h \/ (t = current_term h /\ voted_for h = Some c).

(** The vote of term [t] can still go to [c]. *)
Definition votable (h : HardState) (t : Term) (c : PeerId) : Prop :=
  current_term h < t \/ (t = current_term h /\ (voted_for h = None \/ voted_for h = Some c)).

Lemma voted_votable h t c c' : voted h t c -> votable h t c' -> c' = c.
Proof.
  unfold voted, votable. intros [?|[-> Hv]] [?|[E Hv']]; [lia..|]. destruct Hv'; congruence.
Qed.

Section Steady.
Context `{!Lapsed}.

(** The term grows, or it stays with the vote kept once it is given, unless the
    term lapsed. *)
Definition steady (h h' : HardState) : Prop :=
  current_term h < current_term h' \/
  (current_term h = current_term h' /\
   (lapsed (current_term h) \/ voted_for h = None \/ voted_for h' = voted_for h)).

#[export] Instance steady_preorder : PreOrder steady.
Proof.
  split; [intros h; right; auto|].
  intros h1 h2 h3 [Ht1|[Ht1 Hv1]] [Ht2|[Ht2 Hv2]]; unfold steady; [left; lia..|].
  right. split; [lia|]. rewrite <- Ht1 in Hv2.
  destruct Hv1 as [?|[?|E1]]; [auto|auto|]. destruct Hv2 as [?|[?|E2]]; [auto| |].
  - right. left. congruence.
  - right. right. congruence.
Qed.

Lemma steady_term h h' : steady h h' -> current_term h <= current_term h'.
Proof. intros [?|[? _]]; lia. Qed.

Definition given (h : HardState) (t : Term) (c : PeerId) : Prop := lapsed t \/ voted h t c.
Definition free (h : HardState) (t : Term) (c : PeerId) : Prop := lapsed t \/ votable h t c.

Lemma given_steady h h' t c : given h t c -> steady h h' -> given h' t c.
Proof.
  unfold given, voted. intros [?|[?|[-> Hv]]]; [auto|intros ?%steady_term; right; left; lia|].
  intros [?|[E [?|[?|E']]]]; [right; left; lia|auto|congruence|].
  right. right. split; congruence.
Qed.

Lemma free_steady h h' t c : steady h h' -> free h' t c -> free h t c.
Proof.
  unfold free, votable. intros Hs [?|[?|[-> Hv]]]; [auto|apply steady_term in Hs; right; left; lia|].
  destruct Hs as [?|[E [Hl|[?|E']]]]; [auto|rewrite E in Hl; auto|auto|].
  right. right. split; [done|]. by rewrite <- E'.
Qed.

Lemma given_free h t c c' : given h t c -> free h t c' -> lapsed t \/ c = c'.
Proof.
  intros [?|Hv] [?|Hf]; [auto..|]. right. symmetry. by eapply voted_votable.
Qed.

(** The votes [new] handed out between [h] in memory and [h'] in memory with [d']
    on disk. *)
Definition cast (self : PeerId) (h h' d' : HardState) (new : list Vote) : Prop :=
  (forall v t c, (v, t, c) ∈ new -> v = self /\ free h t c /\ given h' t c /\ given d' t c) /\
  (forall v v' t c c', (v, t, c) ∈ new -> (v', t, c') ∈ new -> lapsed t \/ c = c').

Lemma cast_nil self h h' d' : cast self h h' d' [].
Proof. split; intros; set_solver. Qed.

Lemma cast_app self h1 h2 d2 h3 d3 x y :
  steady h1 h2 -> steady h2 h3 -> steady d2 d3 ->
  cast self h1 h2 d2 x -> cast self h2 h3 d3 y -> cast self h1 h3 d3 (x ++ y).
Proof.
  intros S12 S23 D23 [Cx Ux] [Cy Uy].
  assert (Hxy : forall v t c v' c', (v, t, c) ∈ x -> (v', t, c') ∈ y -> lapsed t \/ c = c').
  { intros v t c v' c' Hx Hy. apply Cx in Hx as (_ & _ & Hv & _). apply Cy in Hy as (_ & Hf & _).
    by eapply given_free. }
  split.
  - intros v t c [Hx|Hy]%elem_of_app.
    + apply Cx in Hx as (-> & ? & ? & ?). split_and!; [done|done| |].
      * by eapply given_steady; [|exact S23].
      * by eapply given_steady; [|exact D23].
    + apply Cy in Hy as (-> & ? & ? & ?). split_and!; [done|by eapply free_steady|done|done].
  - intros v v' t c c' [Hx|Hy]%elem_of_app [Hx'|Hy']%elem_of_app; eauto.
    destruct (Hxy _ _ _ _ _ Hx' Hy); auto.
Qed.
End Steady.

(** The term of a decoded message fits its field. *)
Lemma message_term_u64 msg :
  msg_wf msg -> match message_term msg with Some t => is_u64 t | None => True end.
Proof.
  assert (Hf : forall vs v, Forall2 in_width (8%nat :: vs.1) (v :: vs.2) -> is_u64 v).
  { intros vs v E. apply Forall2_cons in E as [E _]. unfold in_width in E. machine. lia. }
  intros Hw. destruct msg; cbn [message_term msg_wf] in *; try done;
    first [destruct Hw as [[Hw _] _] | destruct Hw as [Hw _]]; exact (Hf (_, _) _ Hw).
Qed.

(** ** Safe steps *)

Section Safety.
Context {S T C D : Type} `{StorageLaws S} `{TransportLaws T} `{Clock C} `{!CustomDispatch D T}
  `{!DispatchLaws D T} `{!Lapsed}.
Implicit Types n : RaftNode S T C D.
#[local] Abbreviation M := (M S T C D).

Definition votes n : list Vote := votes_of (sent (transport n)).
Definition node_inbox n : list bytes := inbox (transport n).
Definition voters n := (node_id n, node_peers n, joint_peers n).

(** The machine-width fields the wire carries. *)
Definition widths n : Prop := is_u64 (node_id n) /\ is_u64 (node_term n).

(** The hard state on disk is not ahead of the one in memory. *)
Definition behind n : Prop := 0 <= current_term (durable n) /\ steady (durable n) (hard_state n).

Definition sane n : Prop := widths n /\ behind n.

Record safe_step n n' : Prop := {
  step_voters : voters n' = voters n;
  step_stable : steady (hard_state n) (hard_state n');
  step_disk : steady (durable n) (durable n');
  step_sane : sane n -> sane n';
  step_leader : is_leader n' = true ->
    is_leader n = true /\ (ReliableHardState S -> node_term n' = node_term n);
  step_votes : exists new, votes n' = votes n ++ new /\
                           cast (node_id n) (hard_state n) (hard_state n') (durable n') new;
  step_inbox : node_inbox n' ⊆ node_inbox n;
}.

Lemma step_id n n' : safe_step n n' -> node_id n' = node_id n.
Proof. intros [E]. unfold voters in E. congruence. Qed.

#[export] Instance safe_step_preorder : PreOrder safe_step.
Proof.
  split.
  - intros n. split; [done|done|done|done|done| |done].
    exists []. rewrite app_nil_r. split; [done|apply cast_nil].
  - intros n1 n2 n3 H12 H23. pose proof (step_id _ _ H12) as Hid.
    destruct H12 as [V12 S12 D12 W12 L12 (x & Ex & Cx) I12].
    destruct H23 as [V23 S23 D23 W23 L23 (y & Ey & Cy) I23].
    split; [congruence|by etransitivity|by etransitivity|auto| | |set_solver].
    + intros Hl. destruct (L23 Hl) as [Hl2 E2]. destruct (L12 Hl2) as [? E1].
      split; [done|]. intros Hr. rewrite (E2 Hr). auto.
    + exists (x ++ y). split; [by rewrite Ey, Ex, app_assoc|].
      rewrite Hid in Cy. exact (cast_app _ _ _ _ _ _ _ _ S12 S23 D23 Cx Cy).
Qed.

Definition safe_at {A} (m : M A) n : Prop := sane n -> safe_step n (m n).2.

Lemma safe_bind {A B} (m : M A) (k : A -> M B) n :
  safe_at m n -> (forall a n', m n = (Ok a, n') -> safe_step n n' -> safe_at (k a) n') ->
  safe_at (m ≫= k) n.
Proof.
  unfold safe_at, mbind, M_bind. intros Hm Hk Hw. specialize (Hm Hw).
  destruct (m n) as [[a|e] n'] eqn:E; cbn [snd] in *; [|done].
  etransitivity; [exact Hm|]. apply Hk; [done|done|]. by apply (step_sane _ _ Hm).
Qed.

(** ** Methods that keep what the argument is about *)

Definition view n := (voters n, both n, votes n, node_inbox n).
Definition view_role n := (view n, ss_role (soft_state n)).

Lemma safe_same_view n n' :
  view n' = view n -> (is_leader n' = true -> is_leader n = true) -> safe_step n n'.
Proof.
  unfold view, both. intros E Hl.
  assert (Hv : voters n' = voters n) by congruence.
  assert (Hh : hard_state n' = hard_state n) by congruence.
  assert (Hd : durable n' = durable n) by congruence.
  assert (Hb : votes n' = votes n) by congruence.
  assert (Hi : node_inbox n' = node_inbox n) by congruence. clear E. split.
  - done.
  - by rewrite Hh.
  - by rewrite Hd.
  - unfold sane, widths, behind, node_term. unfold voters in Hv. rewrite Hh, Hd.
    assert (Hid : node_id n' = node_id n) by congruence. by rewrite Hid.
  - intros H'. split; [auto|]. unfold node_term. congruence.
  - exists []. rewrite app_nil_r. split; [done|apply cast_nil].
  - by rewrite Hi.
Qed.

Lemma safe_keeps {A} (m : M A) n : keeps view_role m -> safe_at m n.
Proof.
  intros Hm _. specialize (Hm n). unfold view_role in Hm.
  apply safe_same_view; [congruence|]. unfold is_leader.
  assert (Hr : ss_role (soft_state (m n).2) = ss_role (soft_state n)) by congruence.
  by rewrite Hr.
Qed.

Lemma safe_gets {A B} (f : RaftNode S T C D -> A) (k : A -> M B) n :
  safe_at (k (f n)) n -> safe_at (gets f ≫= k) n.
Proof. done. Qed.

(** An assignment that keeps the view and does not make the node a leader. *)
Lemma safe_modify {B} f (k : unit -> M B) n :
  view (f n) = view n -> (is_leader (f n) = true -> is_leader n = true) ->
  safe_at (k tt) (f n) -> safe_at (modify f ≫= k) n.
Proof.
  intros Hv Hl Hk Hw. rewrite bind_modify. pose proof (safe_same_view _ _ Hv Hl) as Hs.
  etransitivity; [exact Hs|]. by apply Hk, (step_sane _ _ Hs).
Qed.

Lemma safe_then {A B} (m : M A) (k : A -> M B) n :
  keeps view_role m ->
  (forall a n', view_role n' = view_role n -> safe_at (k a) n') -> safe_at (m ≫= k) n.
Proof.
  intros Hm Hk. apply safe_bind; [by apply safe_keeps|].
  intros a n' E _. apply Hk. specialize (Hm n). by rewrite E in Hm.
Qed.

Lemma keeps_view_storage {A} (op : S -> res A * S) :
  keeps both (on_storage op : M A) -> keeps view_role (on_storage op : M A).
Proof.
  intros Hb n. specialize (Hb n). revert Hb. unfold on_storage, both.
  destruct (op (storage n)) as [r s]. cbn. intros Hb. unfold view_role, view, both. cbn.
  assert (E : durable (set_storage s n) = durable n) by congruence. by rewrite E.
Qed.

Lemma keeps_view_term_at i : keeps view_role (on_storage (storage_term_at i) : M _).
Proof. apply keeps_view_storage, keeps_both_term_at. Qed.
Lemma keeps_view_last : keeps view_role (on_storage last_log_position : M _).
Proof. apply keeps_view_storage, keeps_both_last. Qed.
Lemma keeps_view_suffix i : keeps view_role (on_storage (truncate_suffix i) : M _).
Proof. apply keeps_view_storage, keeps_both_truncate. Qed.
Lemma keeps_view_before i : keeps view_role (on_storage (truncate_before i) : M _).
Proof. apply keeps_view_storage, keeps_both_before. Qed.
Lemma keeps_view_append es : keeps view_role (on_storage (append_entries es) : M _).
Proof. apply keeps_view_storage, keeps_both_append. Qed.
Lemma keeps_view_seeded h ps : keeps view_role (on_storage (append_entries_seeded h ps) : M _).
Proof. apply keeps_view_storage, keeps_both_seeded. Qed.
Lemma keeps_view_save m b : keeps view_role (on_storage (save_snapshot m b) : M _).
Proof. apply keeps_view_storage, keeps_both_save_snapshot. Qed.
Lemma keeps_view_now : keeps view_role (now : M Z).
Proof. keeps_auto. Qed.
Lemma keeps_view_reads {A} (op : S -> res A * S) P :
  reads sview op P -> keeps view_role (on_storage op : M A).
Proof. intros Hr. by eapply keeps_view_storage, keeps_reads. Qed.

(** A send adds the vote its message carries, or nothing. *)
Lemma send_message_view peer msg n :
  let n' := (send_message peer msg n).2 in
  (voters n', both n', node_inbox n', ss_role (soft_state n')) =
  (voters n, both n, node_inbox n, ss_role (soft_state n)) /\
  (votes n' = votes n \/
   Z.of_nat (length (body_bytes msg)) <= u32_max /\
   votes n' = votes n ++ votes_of [(peer, frame_bytes (node_id n) 0 (counted msg))]).
Proof.
  cbv zeta. unfold send_message, encode_message_vectored.
  destruct (encode_message_vectored_impl _ _ _ _) as [[[buf out]|]|] eqn:Henc;
    cbn [snd]; [|auto|auto].
  apply encode_vectored_Ok in Henc as [Hfit Hg]. unfold gather in Hg.
  destruct (send_vectored _ _ _) as [r t] eqn:Es. cbn [snd].
  apply send_vectored_law in Es as [Es Ei].
  split; [unfold node_inbox; cbn; by rewrite Ei|]. unfold votes; cbn.
  destruct Es as [->| ->]; [by left|]. right. split; [done|].
  by rewrite votes_of_app, Hg.
Qed.

Lemma keeps_view_send peer msg : not_vote msg = true -> keeps view_role (send_message peer msg).
Proof.
  intros Hq n. destruct (send_message_view peer msg n) as [E Hv]. unfold view_role, view.
  assert (Hn : votes (send_message peer msg n).2 = votes n).
  { destruct Hv as [->|[Hfit ->]]; [done|].
    cbn [votes_of omap list_omap]. rewrite vote_of_other; [by rewrite app_nil_r|by destruct msg|].
    by rewrite length_body_counted. }
  rewrite Hn. congruence.
Qed.
#[local] Hint Resolve keeps_view_term_at keeps_view_last keeps_view_suffix keeps_view_before
  keeps_view_append keeps_view_seeded keeps_view_save keeps_view_send : keeps.

Lemma keeps_view_truncate i : keeps view_role (storage_truncate i).
Proof. unfold storage_truncate. keeps_auto. Qed.
#[local] Hint Resolve keeps_view_truncate : keeps.

Lemma keeps_view_scan what start count items idx :
  keeps view_role (scan_entries what start count items idx).
Proof.
  revert idx. induction items as [|[i t] items IH]; intros idx; cbn [scan_entries];
    unfold local_term_at; keeps_auto.
Qed.
#[local] Hint Resolve keeps_view_scan : keeps.

Lemma keeps_view_chunk from pending payload fin st :
  keeps view_role (accept_chunk from pending payload fin st).
Proof.
  unfold accept_chunk, finish_snapshot, reseat_at_boundary, reply_snapshot, put_pending.
  keeps_auto.
Qed.

Lemma keeps_view_pending from meta off st : keeps view_role (open_pending from meta off st).
Proof. unfold open_pending, put_pending. keeps_auto. Qed.

Lemma keeps_view_contact from msg : keeps view_role (stamp_contact from msg).
Proof. unfold stamp_contact. keeps_auto. Qed.

Lemma keeps_view_pre_vote from msg : keeps view_role (handle_pre_vote from msg).
Proof. unfold handle_pre_vote, leader_heard_recently. keeps_auto. Qed.

Lemma keeps_view_custom from payload :
  keeps view_role (handle_custom_message from payload) /\
  keeps view_role (handle_custom_response from payload).
Proof.
  split; intros n; unfold handle_custom_message, handle_custom_response.
  - destruct (invoke_custom _ _ _ _ _ _) as [[r d] t] eqn:E. cbn [snd].
    apply invoke_custom_law in E as [(new & Ev & Hc) Ei].
    unfold view_role, view, votes, node_inbox. cbn.
    by rewrite Ev, votes_of_app, (votes_of_custom new Hc), app_nil_r, Ei.
  - by destruct (on_custom_response _ _ _) as [r d].
Qed.
#[local] Hint Resolve keeps_view_chunk keeps_view_pending keeps_view_contact keeps_view_pre_vote
  : keeps.

(** ** Writing the hard state *)

Context `{!HardStateIntegrity S}.

(** A write of the hard state: done, or failed with the old value or the new one
    on disk. *)
Lemma persist_cases n :
  exists x s, persist_hard_state n = (x, set_storage s n) /\
    (v_hard (sview s) = hard_state n \/ v_hard (sview s) = durable n) /\
    (x = Ok tt -> v_hard (sview s) = hard_state n) /\
    (ReliableHardState S -> x = Ok tt).
Proof.
  unfold persist_hard_state. rewrite bind_gets. unfold on_storage.
  destruct (save_hard_state _ _) as [x s] eqn:E. exists x, s. split; [done|].
  pose proof (save_hard_state_law _ _ _ _ E) as [_ Hok].
  assert (Hd : x = Ok tt -> v_hard (sview s) = hard_state n) by (intros Hx; by rewrite (Hok Hx)).
  split_and!; [|done|].
  - destruct x as [[]|e]; [auto|]. apply save_hard_state_fails in E as [->| ->]; auto.
  - intros Hr. pose proof (save_hard_state_ok (hard_state n) (storage n)) as Hx. by rewrite E in Hx.
Qed.

(** A step that changes the hard state: in memory, and on disk or not. *)
Lemma safe_new_hard_state n n' :
  (voters n', votes n', node_inbox n') = (voters n, votes n, node_inbox n) ->
  steady (hard_state n) (hard_state n') -> is_u64 (node_term n') ->
  durable n' = hard_state n' \/ durable n' = durable n ->
  (is_leader n' = true -> is_leader n = true /\ (ReliableHardState S -> node_term n' = node_term n)) ->
  behind n -> safe_step n n'.
Proof.
  intros E Hs Hw Hd Hl [Hz Hb]. assert (Hm : steady (durable n) (hard_state n')) by by etransitivity.
  split; [congruence|done|by destruct Hd as [->| ->]| |done| |].
  - intros [[Hi _] _]. split; [split; [|done]|].
    + unfold voters in E. assert (Hid : node_id n' = node_id n) by congruence. by rewrite Hid.
    + unfold behind. destruct Hd as [->| ->]; [|done]. split; [|done].
      unfold node_term in Hw. machine. lia.
  - exists []. rewrite app_nil_r. split; [congruence|apply cast_nil].
  - assert (Hi : node_inbox n' = node_inbox n) by congruence. by rewrite Hi.
Qed.

Lemma demote_ok n :
  let n' := (demote_to_follower_keep_term n).2 in
  demote_to_follower_keep_term n = (Ok tt, n') /\ view n' = view n /\
  ss_role (soft_state n') = Follower.
Proof.
  cbv zeta. unfold demote_to_follower_keep_term. rewrite bind_gets.
  destruct (negb _); cbn [whenM]; [unfold on_metrics; rewrite bind_modify|rewrite bind_ret];
    rewrite !bind_modify; cbn [modify fst snd]; done.
Qed.

(** The node after a step-down: the term and the free vote are in memory; they are
    on disk and the node follows, or the write failed. *)
Lemma step_down_cases t n :
  let r := step_down t n in
  (voters r.2, votes r.2, node_inbox r.2) = (voters n, votes n, node_inbox n) /\
  hard_state r.2 = {| current_term := t; voted_for := None |} /\
  (r.1 = Ok tt /\ in_sync r.2 /\ ss_role (soft_state r.2) = Follower \/
   (exists e, r.1 = Err e) /\ ~ ReliableHardState S /\
   (in_sync r.2 \/ durable r.2 = durable n) /\ ss_role (soft_state r.2) = ss_role (soft_state n)).
Proof.
  cbv zeta. unfold step_down. rewrite !bind_modify.
  destruct (persist_cases (set_vote None (set_term t n))) as (x & s & Ep & Hd & Hok & Hr).
  destruct x as [[]|e].
  - destruct (demote_ok (set_storage s (set_vote None (set_term t n)))) as (Ex & Hv & Hro).
    rewrite (bind_Ok _ _ _ _ _ Ep), Ex. cbn [fst snd]. unfold view, both in Hv. split; [|split].
    + transitivity (voters n, votes n, node_inbox n); [|done].
      match type of Hv with _ = (?v, _, ?b, ?c) => transitivity (v, b, c); [congruence|done] end.
    + match type of Hv with (_, (?a, _), _, _) = (_, (?h, _), _, _) => transitivity h; [congruence|done] end.
    + left. split; [done|]. split; [|done]. unfold in_sync.
      match type of Hv with (_, (?a, ?c), _, _) = (_, (?h, ?d), _, _) =>
        assert (Ea : a = h) by congruence; assert (Ec : c = d) by congruence end.
      rewrite Ea, Ec. by apply Hok.
  - rewrite (bind_Err _ _ _ _ _ Ep). cbn [fst snd]. split; [done|]. split; [done|].
    right. split; [by exists e|]. split; [|done]. intros Hrel. discriminate (Hr Hrel).
Qed.

Lemma safe_step_down t n : node_term n < t -> is_u64 t -> safe_at (step_down t) n.
Proof.
  intros Ht Hu [_ Hb]. destruct (step_down_cases t n) as (Hk & Hh & Hc).
  apply safe_new_hard_state; [done| | | | |done].
  - rewrite Hh. by left.
  - unfold node_term. by rewrite Hh.
  - destruct Hc as [(_ & ? & _)|(_ & _ & ? & _)]; auto.
  - destruct Hc as [(_ & _ & Hr)|(_ & Hn & _ & Hr)]; unfold is_leader; rewrite Hr; [done|].
    intros ?. split; [done|]. by intros ?%Hn.
Qed.

Lemma safe_adopt t n : is_u64 t -> safe_at (whenM (node_term n <? t) (step_down t)) n.
Proof.
  intros Hu. destruct (Z.ltb_spec (node_term n) t); cbn [whenM];
    [by apply safe_step_down|by apply safe_keeps, keeps_ret].
Qed.

Lemma grant_cases candidate n :
  let r := (modify (set_vote (Some candidate)) ≫= fun _ => persist_hard_state) n in
  (voters r.2, votes r.2, node_inbox r.2) = (voters n, votes n, node_inbox n) /\
  hard_state r.2 = {| current_term := node_term n; voted_for := Some candidate |} /\
  (in_sync r.2 \/ durable r.2 = durable n) /\ (r.1 = Ok tt -> in_sync r.2) /\
  ss_role (soft_state r.2) = ss_role (soft_state n).
Proof.
  cbv zeta. rewrite bind_modify.
  destruct (persist_cases (set_vote (Some candidate) n)) as (x & s & -> & Hd & Hok & _). cbn [fst snd].
  done.
Qed.

Lemma safe_grant candidate n :
  vote_available candidate (voted_for (hard_state n)) = true ->
  safe_at (modify (set_vote (Some candidate)) ≫= fun _ => persist_hard_state) n.
Proof.
  intros Hv [[_ Hw] Hb]. destruct (grant_cases candidate n) as (Hk & Hh & Hy & _ & Hr).
  apply safe_new_hard_state; [done| | |done| |done].
  - rewrite Hh. right. split; [done|]. cbn. unfold vote_available in Hv.
    destruct (voted_for (hard_state n)); [|by right; left]. right. right. zbool. congruence.
  - unfold node_term. rewrite Hh. done.
  - unfold is_leader, node_term. rewrite Hr, Hh. done.
Qed.

(** Sending the answer to a vote request: a granted one is recorded. *)
Lemma safe_send_vote peer granted n :
  (granted = true -> voted_for (hard_state n) = Some peer /\ in_sync n) ->
  safe_at (send_message peer (MRequestVoteResp (vote_resp (node_term n) granted))) n.
Proof.
  intros Hg [[Hi Ht] _]. destruct (send_message_view peer
    (MRequestVoteResp (vote_resp (node_term n) granted)) n) as [E Hv].
  set (n' := (send_message _ _ n).2) in *.
  assert (Hh : hard_state n' = hard_state n) by (unfold both in E; congruence).
  assert (Hr : ss_role (soft_state n') = ss_role (soft_state n)) by congruence.
  assert (Hd : durable n' = durable n) by (unfold both in E; congruence).
  split.
  - congruence.
  - by rewrite Hh.
  - by rewrite Hd.
  - unfold sane, widths, behind, node_term. rewrite Hh, Hd. unfold voters in E.
    assert (Hid : node_id n' = node_id n) by congruence. by rewrite Hid.
  - unfold is_leader, node_term. by rewrite Hr, Hh.
  - destruct Hv as [Hv|[_ Hv]].
    { exists []. rewrite app_nil_r. split; [done|apply cast_nil]. }
    rewrite Hv. cbn [counted votes_of omap list_omap]. rewrite vote_of_resp by done.
    eexists. split; [reflexivity|]. destruct granted; [|apply cast_nil].
    destruct (Hg eq_refl) as [Hvote Hy]. split; [|set_solver].
    intros v t c [= -> -> ->]%list_elem_of_singleton. rewrite Hh, Hd, Hy.
    unfold free, given, votable, voted. split_and!; [done|right; right; auto..].
  - assert (Hx : node_inbox n' = node_inbox n) by congruence. by rewrite Hx.
Qed.

(** ** The handlers *)

(** A payload that does not change the voters: an application entry, a no-op, or
    a change of the learners. *)
Definition learner_only (e : ConfigChangeEntry) : Prop :=
  cc_phase e = AddLearner \/ cc_phase e = RemoveLearner.
Definition keeps_voters (payload : bytes) : Prop :=
  forall e, config_decode payload = Some e -> learner_only e.

(** What is assumed of a message: its sender encoded its fields at their
    widths, a vote request names its sender, and entries keep the voters. *)
Definition honest (im : InboundRaftMessage) : Prop :=
  msg_wf (im_message im) /\
  match im_message im with
  | MRequestVote m => rv_candidate_id m = im_from im
  | MAppendEntries m payload =>
      Forall (fun e => keeps_voters (e_payload e))
        (entry_iter payload (Z.to_nat (ae_entry_count m)))
  | MAppendEntriesSeeded m headers payloads =>
      Forall (fun i => keeps_voters i.2) (raw_iter headers (Contiguous payloads))
  | _ => True
  end.

Lemma safe_request_vote from msg n :
  is_u64 (rv_term msg) -> rv_candidate_id msg = from -> safe_at (handle_request_vote from msg) n.
Proof.
  intros Hu Hc. unfold handle_request_vote. apply safe_gets.
  apply safe_bind; [by apply safe_adopt|]. intros [] n1 _ _.
  apply safe_then; [keeps_auto|]. intros last n2 _. apply safe_gets.
  match goal with |- safe_at (whenM ?c _ ≫= _) _ => destruct c eqn:Hcan end; cbn [whenM].
  - zbool. apply safe_bind; [by apply safe_grant|]. intros [] n3 E3 _. apply safe_gets.
    apply safe_bind; [apply safe_send_vote|intros; by apply safe_keeps, keeps_ret].
    intros _. destruct (grant_cases (rv_candidate_id msg) n2) as (_ & Hh & _ & Hy & _).
    rewrite E3 in Hh, Hy. cbn [fst snd] in Hh, Hy. split; [rewrite Hh; cbn; by rewrite Hc|by apply Hy].
  - apply safe_then; [apply keeps_ret|]. intros [] n3 _. apply safe_gets.
    apply safe_bind; [by apply safe_send_vote|intros; by apply safe_keeps, keeps_ret].
Qed.

Lemma latest_config_learner payloads e :
  Forall keeps_voters payloads -> latest_config payloads = Some e -> learner_only e.
Proof.
  unfold latest_config. intros Hp. assert (Hn : forall e, None = Some e -> learner_only e) by done.
  revert Hn. generalize (None : option ConfigChangeEntry).
  induction Hp as [|p ps Hp _ IH]; intros acc Hacc; cbn; [apply Hacc|].
  apply IH. intros e'. destruct (config_decode p) eqn:Hd; [|apply Hacc].
  intros [= <-]. by apply Hp.
Qed.

(** A change of the learners at a node that does not lead. *)
Lemma following_learner_change e n :
  learner_only e -> ss_role (soft_state n) <> Leader ->
  view_role (apply_config_change e n).2 = view_role n.
Proof.
  intros He Hr.
  assert (Hl : forall n', soft_state n' = soft_state n -> is_leader n' = false).
  { intros n' E. unfold is_leader, role_eqb. apply bool_decide_eq_false. by rewrite E. }
  unfold apply_config_change, apply_phase, on_metrics. rewrite bind_modify.
  destruct He as [-> | ->]; rewrite bind_modify, bind_gets, Hl by done; cbn [whenM];
    rewrite bind_ret, bind_gets, Hl by done; done.
Qed.

Lemma safe_activate payloads n :
  Forall keeps_voters payloads -> ss_role (soft_state n) <> Leader ->
  safe_at (activate_config (latest_config payloads)) n.
Proof.
  intros Hp Hr _. destruct (latest_config payloads) as [e|] eqn:He; [|reflexivity].
  apply latest_config_learner in He; [|done]. cbn [activate_config].
  pose proof (following_learner_change e n He Hr) as E. unfold view_role in E.
  apply safe_same_view; [congruence|]. unfold is_leader.
  assert (Er : ss_role (soft_state (apply_config_change e n).2) = ss_role (soft_state n))
    by congruence. by rewrite Er.
Qed.

Lemma view_role_role n n' :
  view_role n' = view_role n -> ss_role (soft_state n') = ss_role (soft_state n).
Proof. unfold view_role. congruence. Qed.

Lemma safe_append msg payload n :
  Forall (fun e => keeps_voters (e_payload e))
    (entry_iter payload (Z.to_nat (ae_entry_count msg))) ->
  ss_role (soft_state n) <> Leader -> safe_at (apply_append_entries msg payload) n.
Proof.
  intros Hp Hr. unfold apply_append_entries.
  apply safe_then; [keeps_auto|]. intros k n1 E1%view_role_role.
  destruct (_ <? _)%nat; [|by apply safe_keeps, keeps_ret].
  apply safe_then; [keeps_auto|]. intros [] n2 E2%view_role_role.
  apply safe_then; [unfold note_appended; keeps_auto|]. intros [] n3 E3%view_role_role.
  apply safe_activate; [|congruence]. by apply Forall_map, Forall_drop.
Qed.

Lemma safe_append_seeded msg headers payloads n :
  Forall (fun i => keeps_voters i.2) (raw_iter headers (Contiguous payloads)) ->
  ss_role (soft_state n) <> Leader -> safe_at (apply_append_entries_seeded msg headers payloads) n.
Proof.
  intros Hp Hr. unfold apply_append_entries_seeded.
  apply safe_then; [keeps_auto|]. intros k n1 E1%view_role_role.
  destruct (_ <? _)%nat; [|by apply safe_keeps, keeps_ret].
  destruct (parse_headers headers); [|by apply safe_keeps, keeps_err].
  apply safe_then; [keeps_auto|]. intros [] n2 E2%view_role_role.
  apply safe_then; [unfold note_appended; keeps_auto|]. intros [] n3 E3%view_role_role.
  apply safe_activate; [|congruence]. by apply Forall_map, Forall_drop.
Qed.

Lemma safe_handle_append append from msg n :
  is_u64 (ae_term msg) ->
  (forall n, ss_role (soft_state n) <> Leader -> safe_at append n) ->
  safe_at (handle_append append from msg) n.
Proof.
  intros Hu Happ. unfold handle_append. apply safe_gets.
  destruct (ae_term msg <? node_term n); [apply safe_keeps; keeps_auto|].
  apply safe_bind; [by apply safe_adopt|]. intros [] n1 _ _.
  do 3 (apply safe_modify; [done|done|]).
  apply safe_then; [keeps_auto|]. intros t n2 E2%view_role_role.
  apply safe_modify; [done|done|].
  apply safe_then; [unfold prev_matches; keeps_auto|]. intros ok n3 E3%view_role_role.
  destruct (negb ok); [apply safe_keeps; keeps_auto|].
  apply safe_bind; [apply Happ; rewrite E3; cbn in *; by rewrite E2|].
  intros [] n4 _ _. apply safe_keeps. keeps_auto.
Qed.

Lemma safe_adopt_response t n :
  is_u64 t -> safe_at (current ← gets node_term; whenM (current <? t) (step_down t)) n.
Proof. intros Hu. apply safe_gets. by apply safe_adopt. Qed.

Lemma safe_append_response from resp n :
  is_u64 (aer_term resp) -> safe_at (handle_append_entries_response from resp) n.
Proof.
  intros Hu. unfold handle_append_entries_response. apply safe_gets.
  destruct (Z.ltb_spec (node_term n) (aer_term resp)); [by apply safe_step_down|].
  apply safe_keeps. keeps_auto.
Qed.

Lemma safe_install_snapshot from msg payload n :
  is_u64 (is_term msg) -> safe_at (handle_install_snapshot from msg payload) n.
Proof.
  intros Hu. unfold handle_install_snapshot, reply_snapshot.
  destruct (negb (_ =? is_chunk_len msg)); [apply safe_keeps; keeps_auto|].
  apply safe_gets. destruct (negb (contains _ _)); [apply safe_keeps; keeps_auto|].
  apply safe_then; [keeps_auto|]. intros k n1 _. apply safe_gets.
  destruct (is_term msg <? node_term n1); [apply safe_keeps; keeps_auto|].
  apply safe_bind; [by apply safe_adopt|]. intros [] n2 _ _.
  do 3 (apply safe_modify; [done|done|]). apply safe_keeps. keeps_auto.
Qed.

Lemma safe_timeout_now from msg n :
  is_u64 (tn_term msg) -> safe_at (handle_timeout_now from msg) n.
Proof.
  intros Hu. unfold handle_timeout_now. apply safe_gets.
  destruct (tn_term msg <? node_term n); [apply safe_keeps; keeps_auto|].
  apply safe_bind; [by apply safe_adopt|]. intros [] n1 _ _. apply safe_keeps. keeps_auto.
Qed.

Lemma safe_handle_inbound im n : honest im -> safe_at (handle_inbound im) n.
Proof.
  intros [Hw Hh]. pose proof (message_term_u64 _ Hw) as Hu.
  unfold handle_inbound. apply safe_then; [keeps_auto|]. intros [] n1 _.
  destruct (im_message im); cbn [message_term] in Hu.
  - by apply safe_request_vote.
  - by apply safe_adopt_response.
  - apply safe_keeps. keeps_auto.
  - by apply safe_adopt_response.
  - apply safe_handle_append; [done|]. intros. by apply safe_append.
  - apply safe_keeps. keeps_auto.
  - apply safe_handle_append; [done|]. intros. by apply safe_append_seeded.
  - apply safe_keeps. keeps_auto.
  - by apply safe_append_response.
  - by apply safe_install_snapshot.
  - by apply safe_adopt_response.
  - by apply safe_timeout_now.
  - apply safe_keeps, keeps_view_custom.
  - apply safe_keeps, keeps_view_custom.
Qed.

Lemma safe_tolerant im n : honest im -> safe_at (handle_inbound_tolerant im) n.
Proof.
  intros Hh. unfold handle_inbound_tolerant. apply safe_bind.
  - intros Hw. unfold attempt. pose proof (safe_handle_inbound im n Hh Hw) as Hs.
    by destruct (handle_inbound im n).
  - intros r n' _ _. apply safe_keeps. keeps_auto.
Qed.

Lemma safe_for_each {X} (l : list X) (body : X -> M unit) (P : X -> Prop) n :
  Forall P l -> (forall x n, P x -> safe_at (body x) n) -> safe_at (for_each l body) n.
Proof.
  intros Hl Hb. revert n. induction Hl as [|x l Hx _ IH]; intros n; cbn [for_each].
  - by apply safe_keeps, keeps_ret.
  - apply safe_bind; [by apply Hb|]. intros [] n' _ _. apply IH.
Qed.
End Safety.

#[export] Hint Resolve keeps_view_term_at keeps_view_last keeps_view_suffix keeps_view_before
  keeps_view_append keeps_view_seeded keeps_view_save keeps_view_send keeps_view_truncate
  keeps_view_scan : keeps.
