(* ===== verification/CampaignFacts.v ===== *)
(** * CampaignFacts: what a campaign does and what winning one means

    A campaign is a safe step up to the moment the node takes office, and it
    takes office only at a term it entered in this campaign, with its own vote
    recorded and with answers of a majority of the voters, delivered by the
    transport, that grant it their votes at that term. *)

From stdpp Require Import base list sets gmap strings.
From Stdlib Require Import ZArith Lia.
From S2P Require Import Prelude Types Wire Codec CodecFacts Arena Progress Quorum Traits.
From S2P Require Import Membership NodeState Node Samples Election ConfigChange Replication Snapshot.
From S2P Require Import Transfer Inbound Campaign Frames Stability Durability Safety.

Local Open Scope Z_scope.

(** ** Looping methods that return *)

Section LoopRules.
Context {S T C D : Type}.
Implicit Types n : RaftNode S T C D.

(** Whatever [m] returns from [n] satisfies [Q]. *)
Definition returns {A} (m : L S T C D A) n (Q : res A -> RaftNode S T C D -> Prop) : Prop :=
  forall r n', m n = Ok (r, n') -> Q r n'.

Lemma returns_bind {A B} (m : L S T C D A) (k : A -> L S T C D B) n Q :
  returns m n (fun r n' => match r with
                           | Ok a => returns (k a) n' Q
                           | Err e => Q (Err e) n'
                           end) ->
  returns (m ≫= k) n Q.
Proof.
  intros Hm r n'. unfold mbind, L_bind. destruct (m n) as [[[a|e] n1]|] eqn:E; [| |done].
  - apply (Hm _ _ E).
  - intros [= <- <-]. apply (Hm _ _ E).
Qed.

Lemma returns_run {A} (m : M S T C D A) n (Q : res A -> RaftNode S T C D -> Prop) :
  Q (m n).1 (m n).2 -> returns (run m) n Q.
Proof. intros HQ r n' [= E]. by rewrite E in HQ. Qed.

Lemma returns_gets {A B} (f : RaftNode S T C D -> A) (k : A -> L S T C D B) n Q :
  returns (k (f n)) n Q -> returns (run (gets f) ≫= k) n Q.
Proof. done. Qed.

Lemma returns_ret {A} (a : A) n (Q : res A -> RaftNode S T C D -> Prop) :
  Q (Ok a) n -> returns (mret a) n Q.
Proof. by intros HQ r n' [= <- <-]. Qed.

Lemma returns_mono {A} (m : L S T C D A) n (P Q : res A -> RaftNode S T C D -> Prop) :
  (forall r n', P r n' -> Q r n') -> returns m n P -> returns m n Q.
Proof. intros HPQ Hm r n' E. by apply HPQ, Hm. Qed.
End LoopRules.

Section CampaignFacts.
Context {S T C D : Type} `{StorageLaws S} `{!HardStateIntegrity S} `{TransportLaws T} `{Clock C}
  `{!CustomDispatch D T} `{!DispatchLaws D T} `{!Lapsed}.
Implicit Types n : RaftNode S T C D.
#[local] Abbreviation M := (M S T C D).
#[local] Abbreviation L := (L S T C D).

(** ** Draining the inbox *)

(** A message the frames [I] contain. *)
Definition delivered (I : list bytes) (im : InboundRaftMessage) : Prop :=
  exists f, f ∈ I /\ decode_message f = Ok im.

(** The frames [I] are honest, come from others and hold the node's inbox. *)
Definition fair_inbox (I : list bytes) n : Prop :=
  node_inbox n ⊆ I /\ forall im, delivered I im -> honest im /\ im_from im <> node_id n.

(** The invariant of the loops: a safe step from [n0] with the inbox in [I]. *)
Definition on_course (I : list bytes) n0 n : Prop :=
  safe_step n0 n /\ sane n /\ fair_inbox I n.

Lemma on_course_step I n0 n n' : on_course I n0 n -> safe_step n n' -> on_course I n0 n'.
Proof.
  intros (Hs & Hw & Hi & Hh) H'. split; [by etransitivity|]. split; [by apply H'|].
  split; [|by rewrite (step_id _ _ H')]. pose proof (step_inbox _ _ H'). set_solver.
Qed.

Lemma on_course_safe {A} (m : M A) I n0 n :
  on_course I n0 n -> safe_at m n -> on_course I n0 (m n).2.
Proof. intros Hc Hm. eapply on_course_step; [done|]. apply Hm, Hc. Qed.

Lemma safe_recv timeout len n :
  let r := on_transport (recv_frame_timeout timeout len) n in
  safe_step n r.2 /\ forall f, r.1 = Ok (Some f) -> f ∈ node_inbox n.
Proof.
  cbv zeta. unfold on_transport. destruct (recv_frame_timeout _ _ _) as [r t] eqn:E.
  cbn [fst snd]. apply recv_frame_timeout_law in E as (Es & Ei & Ef).
  split; [|exact Ef]. split; [done|reflexivity|reflexivity|done|done| |done].
  exists []. rewrite app_nil_r. split; [|apply cast_nil].
  unfold votes. cbn. by rewrite Es.
Qed.

Lemma drain_recv_course timeout len I n0 n :
  on_course I n0 n ->
  let r := drain_recv timeout len n in
  on_course I n0 r.2 /\ forall f, r.1 = Ok (Some f) -> f ∈ I.
Proof.
  intros Hc. cbv zeta. unfold drain_recv, mbind, M_bind, attempt.
  pose proof (safe_recv timeout len n) as [Hs Hf].
  destruct (on_transport _ n) as [r n1]. cbn [fst snd] in *.
  assert (Hc1 : on_course I n0 n1) by by eapply on_course_step.
  destruct r as [o|e]; cbn [mret M_ret fst snd].
  - split; [done|]. intros f [= ->]. apply (proj1 (proj2 (proj2 Hc))). by apply Hf.
  - by destruct (is_fatal e).
Qed.

Lemma drain_loop_course fuel deadline rest_len msgs I n0 n :
  on_course I n0 n -> Forall (delivered I) msgs ->
  returns (drain_loop fuel deadline rest_len msgs) n (fun r n' =>
    on_course I n0 n' /\ forall l, r = Ok l -> Forall (delivered I) l).
Proof.
  revert rest_len msgs n.
  induction fuel as [|fuel IH]; intros rest_len msgs n Hc Hm; cbn [drain_loop]; [done|].
  destruct (_ || _); [apply returns_ret; split; [done|by intros l [= <-]]|].
  apply returns_bind, returns_run.
  assert (Ht : on_course I n0 (drain_timeout deadline (is_nil msgs) n).2).
  { apply on_course_safe; [done|]. apply safe_keeps. unfold drain_timeout. keeps_auto. }
  destruct (drain_timeout _ _ n) as [[[timeout|]|e] n1]; cbn [fst snd] in *;
    [|apply returns_ret; split; [done|by intros l [= <-]]|split; [done|done]].
  apply returns_bind, returns_run.
  pose proof (drain_recv_course timeout rest_len I n0 n1 Ht) as [Hc2 Hf].
  destruct (drain_recv _ _ n1) as [[[f|]|e] n2]; cbn [fst snd] in *;
    [|apply returns_ret; split; [done|by intros l [= <-]]|split; [done|done]].
  apply IH; [done|]. specialize (Hf f eq_refl).
  destruct (decode_message f) as [im|] eqn:Hd; [|done].
  apply Forall_app. split; [done|]. apply Forall_singleton. by exists f.
Qed.

(** ** Counting votes *)

(** An answer among the frames [I] that gives [p]'s vote at [term]. *)
Definition supports (I : list bytes) (term : Term) (p : PeerId) : Prop :=
  exists im r, delivered I im /\ im_from im = p /\ im_message im = MRequestVoteResp r /\
               rvr_term r = term /\ rvr_vote_granted r <> 0.

(** Distinct voters whose votes at [term] are there: the node itself and those
    that answered. *)
Definition backed (I : list bytes) (term : Term) n (ps : list PeerId) : Prop :=
  voters_of (node_peers n) ps /\ Forall (fun p => p = node_id n \/ supports I term p) ps.

Definition ballot_ok (I : list bytes) (term : Term) n (b : Ballot) : Prop :=
  backed I term n (granted b) /\ granted b ⊆ node_id n :: responders b.

Lemma ballot_ok_voters I term n n' b :
  voters n' = voters n -> ballot_ok I term n b -> ballot_ok I term n' b.
Proof.
  unfold voters, ballot_ok, backed. intros E.
  assert (Hi : node_id n' = node_id n) by congruence.
  assert (Hp : node_peers n' = node_peers n) by congruence. by rewrite Hi, Hp.
Qed.

Lemma ballot_ok_skip I term n b from :
  ballot_ok I term n b ->
  ballot_ok I term n {| granted := granted b; responders := responders b ++ [from] |}.
Proof. intros [Hb Hg]. split; [done|]. cbn. set_solver. Qed.

Lemma ballot_ok_add I term n b from :
  ballot_ok I term n b -> from ∉ responders b -> from <> node_id n -> from ∈ node_peers n ->
  supports I term from ->
  ballot_ok I term n {| granted := granted b ++ [from]; responders := responders b ++ [from] |}.
Proof.
  intros [[[Hn Hp] Hs] Hg] Hr Hi Hm Hsup. split; [|cbn; set_solver]. split; cbn.
  - split; [|set_solver]. apply NoDup_app. split; [done|]. split; [|apply NoDup_singleton].
    intros p Hp' ->%list_elem_of_singleton. apply Hg in Hp'. set_solver.
  - apply Forall_app. split; [done|]. apply Forall_singleton. by right.
Qed.

Lemma select_vote_term m r : select_vote m = Some r -> message_term m = Some (rvr_term r).
Proof. destruct m; cbn; congruence. Qed.
Lemma select_pre_vote_term m r : select_pre_vote m = Some r -> message_term m = Some (rvr_term r).
Proof. destruct m; cbn; congruence. Qed.

(** Counting any kind of answer is safe. *)
Lemma safe_count_responses select expected msgs b n :
  (forall m r, select m = Some r -> message_term m = Some (rvr_term r)) ->
  Forall honest msgs -> safe_at (count_responses select expected msgs b) n.
Proof.
  intros Hsel Hm. revert b n.
  induction Hm as [|im msgs Him _ IH]; intros b n; cbn [count_responses];
    [by apply safe_keeps, keeps_ret|].
  destruct (select (im_message im)) as [resp|] eqn:Hs; [|apply IH].
  destruct (contains _ _); [apply IH|]. apply safe_gets.
  destruct (Z.ltb_spec (node_term n) (rvr_term resp)) as [Hlt|_].
  - apply safe_bind; [|intros; by apply safe_keeps, keeps_ret].
    apply safe_step_down; [done|]. destruct Him as [Hw _].
    pose proof (message_term_u64 _ Hw) as Hu. by rewrite (Hsel _ _ Hs) in Hu.
  - apply safe_gets. apply IH.
Qed.

Lemma count_votes_ok term msgs b I n b' n' :
  fair_inbox I n -> Forall (delivered I) msgs -> ballot_ok I term n b ->
  count_responses select_vote (fun _ => term) msgs b n = (Ok (Some b'), n') ->
  n' = n /\ ballot_ok I term n b'.
Proof.
  intros Hf. revert b. induction msgs as [|im msgs IH]; intros b Hm Hb; cbn [count_responses].
  { by intros [= <- <-]. }
  apply Forall_cons in Hm as [Hd Hm].
  destruct (select_vote (im_message im)) as [resp|] eqn:Hsel; [|by apply IH].
  assert (Hr : im_message im = MRequestVoteResp resp)
    by (destruct (im_message im); cbn in Hsel; congruence).
  destruct (contains _ _) eqn:Hc; [by apply IH|]. rewrite bind_gets.
  destruct (_ <? _).
  { unfold mbind, M_bind. by destruct (step_down (rvr_term resp) n) as [[[]|e] n1]. }
  rewrite bind_gets. apply IH; [done|].
  destruct (_ && _) eqn:Hcount; [|by apply ballot_ok_skip]. zbool. membership.
  apply ballot_ok_add; [done|done|by apply Hf|done|]. by exists im, resp.
Qed.

Lemma honest_delivered I msgs n :
  fair_inbox I n -> Forall (delivered I) msgs -> Forall honest msgs.
Proof. intros [_ Hh] Hm. eapply Forall_impl; [exact Hm|]. intros im Him. by apply Hh. Qed.

Lemma Forall_requests select (P : InboundRaftMessage -> Prop) msgs :
  Forall P msgs -> Forall P (requests select msgs).
Proof.
  rewrite !Forall_forall. intros Hm im Him. apply Hm.
  apply list_elem_of_In, filter_In in Him as [Him _]. by apply list_elem_of_In.
Qed.

Lemma course_voters I n0 n n' :
  on_course I n0 n -> on_course I n0 n' -> voters n' = voters n.
Proof. intros [[E _] _] [[E' _] _]. congruence. Qed.

(** The result of collecting: [true] only with a majority behind it. *)
Definition collected (I : list bytes) (term : Term) n0 (r : res bool) n : Prop :=
  on_course I n0 n /\
  (r = Ok true -> exists ps, voter_majority ps n = true /\ backed I term n ps).

Lemma collect_loop_course fuel term possible deadline buf_len b I n0 n :
  on_course I n0 n -> ballot_ok I term n b ->
  returns (collect_loop fuel term possible deadline buf_len b) n (collected I term n0).
Proof.
  revert b n. induction fuel as [|fuel IH]; intros b n Hc Hb; cbn [collect_loop]; [done|].
  apply returns_gets. destruct (voter_majority (granted b) n) eqn:Hwon; cbn [orb].
  { apply returns_ret. split; [done|]. intros _. exists (granted b). split; [done|apply Hb]. }
  destruct (possible <=? _); [apply returns_ret; by split|].
  apply returns_bind. eapply returns_mono; [|by apply drain_loop_course].
  cbv beta. intros [msgs|e] n1 [Hc1 Hm]; [|by split]. specialize (Hm msgs eq_refl).
  destruct (is_nil msgs); [by apply returns_run|].
  apply (ballot_ok_voters _ _ _ n1) in Hb; [|by eapply course_voters].
  pose proof (honest_delivered _ _ _ (proj2 (proj2 Hc1)) Hm) as Hh.
  apply returns_bind, returns_run.
  pose proof (on_course_safe _ _ _ _ Hc1
    (safe_count_responses select_vote (fun _ => term) msgs b n1 select_vote_term Hh)) as Hc2.
  destruct (count_responses _ _ _ _ n1) as [[[b'|]|e] n2] eqn:E2; cbn [fst snd] in *;
    [|by apply returns_ret|done].
  apply (count_votes_ok _ _ _ I) in E2 as [-> Hb']; [|apply Hc1|done|done]. apply returns_gets.
  destruct (voter_majority (granted b') n1) eqn:Hwon'.
  { apply returns_ret. split; [done|]. intros _. exists (granted b'). split; [done|apply Hb']. }
  apply returns_bind, returns_run.
  assert (Hc3 : on_course I n0 (for_each (requests select_vote msgs) handle_inbound_tolerant n1).2).
  { apply on_course_safe; [done|]. eapply safe_for_each; [|intros; by apply safe_tolerant].
    by apply Forall_requests. }
  destruct (for_each _ _ n1) as [[[]|e] n3]; cbn [fst snd] in *; [|done].
  apply returns_gets. destruct (still_candidate term n3); [|by apply returns_ret].
  apply IH; [done|]. by apply (ballot_ok_voters _ _ n1); [eapply course_voters|].
Qed.

Lemma initial_ballot_ok I term n :
  contains (node_id n) (node_peers n) = true -> ballot_ok I term n (initial_ballot n).
Proof.
  intros Hm. membership. split; [split|]; cbn.
  - split; [apply NoDup_singleton|]. by intros p ->%list_elem_of_singleton.
  - apply Forall_singleton. by left.
  - set_solver.
Qed.

Lemma collect_votes_course fuel term possible buf_len I n0 n :
  on_course I n0 n -> contains (node_id n) (node_peers n) = true ->
  returns (collect_votes fuel term possible buf_len) n (collected I term n0).
Proof.
  intros Hc Hm. unfold collect_votes. apply returns_gets, returns_bind, returns_run.
  pose proof (on_course_safe _ _ _ _ Hc (safe_keeps _ n keeps_view_now)) as Hc1.
  destruct (now n) as [[t|e] n1]; cbn [fst snd] in *; [|done].
  apply returns_gets, collect_loop_course; [done|].
  apply (ballot_ok_voters _ _ n); [by eapply course_voters|by apply initial_ballot_ok].
Qed.

(** ** The campaign *)

(** Becoming a candidate: the next term, with the vote for oneself, in memory; the
    campaign goes on only when they are on stable storage. *)
Lemma start_campaign_cases n :
  let r := start_campaign n in
  let term := sat_add64 (node_term n) 1 in
  (voters r.2, votes r.2, node_inbox r.2) = (voters n, votes n, node_inbox n) /\
  hard_state r.2 = {| current_term := term; voted_for := Some (node_id n) |} /\
  is_leader r.2 = false /\
  (r.1 = Ok term /\ in_sync r.2 \/
   (exists e, r.1 = Err e) /\ (in_sync r.2 \/ durable r.2 = durable n)).
Proof.
  cbv zeta. unfold start_campaign, on_metrics. rewrite !bind_modify.
  match goal with |- context [(persist_hard_state ≫= _) ?x] =>
    destruct (persist_cases x) as (y & s & Ep & Hd & Hok & _) end.
  destruct y as [[]|e]; [rewrite (bind_Ok _ _ _ _ _ Ep)|rewrite (bind_Err _ _ _ _ _ Ep)];
    (split; [done|]); (split; [done|]); (split; [done|]); [left|right; eauto].
  split; [done|by apply Hok].
Qed.

Lemma sat_next t : is_u64 t -> t < u64_max -> sat_add64 t 1 = t + 1.
Proof. intros. unfold sat_add64. machine. lia. Qed.

Lemma safe_start_campaign n : node_term n < u64_max -> safe_at start_campaign n.
Proof.
  intros Ht [[_ Hw] Hb]. destruct (start_campaign_cases n) as (Hk & Hh & Hl & Hc).
  rewrite sat_next in Hh by done. apply safe_new_hard_state; [done| | | |by rewrite Hl|done].
  - rewrite Hh. left. cbn. unfold node_term. lia.
  - unfold node_term at 1. rewrite Hh. cbn. machine. lia.
  - destruct Hc as [[_ ?]|[_ ?]]; auto.
Qed.

Lemma keeps_view_send_frames peers frame :
  (forall p, vote_of (p, frame) = None) -> keeps view_role (send_frames peers frame : M Z).
Proof.
  intros Hv. induction peers as [|p peers IH]; cbn [send_frames]; [apply keeps_ret|].
  apply keeps_bind; [|intros; apply keeps_bind; [done|intros; apply keeps_ret]].
  apply keeps_attempt. intros n. unfold on_transport.
  destruct (send_frame_owned _ _ _) as [r t] eqn:E. cbn [snd].
  apply send_frame_owned_law in E as [Es Ei].
  assert (Ev : votes_of (sent t) = votes_of (sent (transport n))).
  { destruct Es as [->| ->]; [done|]. rewrite votes_of_app. cbn [votes_of omap list_omap].
    by rewrite Hv, app_nil_r. }
  unfold view_role, view, votes, node_inbox. cbn. by rewrite Ev, Ei.
Qed.

Lemma safe_broadcast msg n : not_vote msg = true -> safe_at (broadcast msg) n.
Proof.
  intros Hq. unfold broadcast. apply safe_modify; [done|done|]. apply safe_gets.
  apply safe_bind; [apply safe_keeps, keeps_encode_frame|].
  intros frame n1 E1 _. unfold encode_frame in E1. rewrite encode_message_to_bytes_spec in E1.
  destruct (Z.leb_spec (Z.of_nat (length (body_bytes msg))) u32_max) as [Hfit|]; [|done].
  injection E1 as <- <-. apply safe_then; [|intros; by apply safe_keeps, keeps_ret].
  apply keeps_view_send_frames. intros p. by apply vote_of_other.
Qed.

(** [n] took office with the votes of a majority among the frames [I]. *)
Definition takes_office (I : list bytes) n0 n : Prop :=
  is_leader n = true /\
  exists n1, safe_step n0 n1 /\ view n = view n1 /\ node_term n1 = node_term n0 /\
    exists ps, voter_majority ps n1 = true /\ backed I (node_term n1) n1 ps.

Lemma keeps_view_progress : keeps view_role (initialize_leader_progress : M unit).
Proof. unfold initialize_leader_progress. keeps_auto. Qed.

Lemma become_leader_ok n :
  let n' := (become_leader n).2 in view n' = view n /\ is_leader n' = true.
Proof.
  cbv zeta. unfold become_leader, on_metrics. rewrite !bind_modify.
  match goal with |- context [initialize_leader_progress ?x] => set (n1 := x) end.
  pose proof (keeps_view_progress n1) as Hk. unfold view_role in Hk.
  assert (Hr : ss_role (soft_state (initialize_leader_progress n1).2) = Leader).
  { transitivity (ss_role (soft_state n1)); [congruence|done]. }
  split; [transitivity (view n1); [congruence|done]|].
  unfold is_leader. by rewrite Hr.
Qed.

(** Methods that never fail. *)
Definition infallible {A} (m : M A) : Prop := forall n, exists a n', m n = (Ok a, n').

Lemma infallible_bind {A B} (m : M A) (k : A -> M B) :
  infallible m -> (forall a, infallible (k a)) -> infallible (m ≫= k).
Proof.
  intros Hm Hk n. destruct (Hm n) as (a & n1 & E). rewrite (bind_Ok _ _ _ _ _ E). apply Hk.
Qed.

Lemma infallible_modify f : infallible (modify f : M unit).
Proof. by repeat eexists. Qed.

Lemma infallible_for_each {X} (l : list X) (body : X -> M unit) :
  (forall x, infallible (body x)) -> infallible (for_each l body).
Proof.
  intros Hb. induction l as [|x l IH]; cbn [for_each]; [by repeat eexists|].
  by apply infallible_bind.
Qed.

Lemma become_leader_infallible : infallible (become_leader : M unit).
Proof.
  assert (Hn : infallible (now : M _)).
  { intros n. unfold now. destruct (clock_now (clock n)). by repeat eexists. }
  unfold become_leader, on_metrics, initialize_leader_progress.
  repeat first [apply infallible_modify | exact Hn | apply infallible_for_each; intros ?
    | apply infallible_bind; [|intros ?] | by repeat eexists].
Qed.

Lemma run_election_course fuel buf_len I n0 n :
  on_course I n0 n -> node_term n = node_term n0 ->
  contains (node_id n) (node_peers n) = true ->
  returns (run_election fuel (node_term n) buf_len) n (fun r n' =>
    r <> Ok true /\ safe_step n0 n' \/ r = Ok true /\ takes_office I n0 n').
Proof.
  intros Hc Ht Hself. unfold run_election. rewrite Ht. apply returns_gets, returns_bind, returns_run.
  pose proof (on_course_safe _ I n0 n Hc (safe_keeps _ n keeps_view_last)) as Hc2.
  destruct (on_storage last_log_position n) as [[last|e] n2]; cbn [fst snd] in *;
    [|left; split; [done|apply Hc2]].
  apply returns_gets, returns_bind, returns_run. unfold broadcast_request_vote.
  match goal with |- context [broadcast ?msg n2] =>
    pose proof (on_course_safe _ I n0 n2 Hc2 (safe_broadcast msg n2 eq_refl)) as Hc3 end.
  destruct (broadcast _ n2) as [[possible|e] n3]; cbn [fst snd] in *; [|left; split; [done|apply Hc3]].
  destruct (possible <? _); [apply returns_run; left; split; [done|apply Hc3]|].
  apply returns_bind. eapply returns_mono; [|apply collect_votes_course; [done|]].
  2: { pose proof (course_voters _ _ _ _ Hc Hc3) as E. unfold voters in E.
       assert (Ei : node_id n3 = node_id n) by congruence.
       assert (Ep : node_peers n3 = node_peers n) by congruence. by rewrite Ei, Ep. }
  cbv beta. intros [won|e] n4 [Hc4 Hps]; [|left; split; [done|apply Hc4]].
  destruct won; cbn [negb]; [|apply returns_ret; left; split; [done|apply Hc4]].
  apply returns_gets. destruct (still_candidate _ n4) eqn:Hst; cbn [negb];
    [|apply returns_ret; left; split; [done|apply Hc4]].
  unfold still_candidate in Hst. zbool. destruct (Hps eq_refl) as (ps & Hmaj & Hb).
  apply returns_bind, returns_run. destruct (become_leader_ok n4) as [Hv Hl].
  destruct (become_leader n4) as [[[]|e] n5] eqn:E5; cbn [fst snd] in *.
  - apply returns_ret. right. split; [done|]. split; [done|].
    exists n4. split; [apply Hc4|]. split; [done|]. split; [done|]. exists ps. split; [done|].
    congruence.
  - destruct (become_leader_infallible n4) as (? & ? & E). congruence.
Qed.

Lemma campaign_once_course fuel buf_len I n :
  sane n -> node_term n < u64_max -> fair_inbox I n ->
  returns (campaign_once fuel buf_len) n (fun r n' =>
    r <> Ok true /\ safe_step n n' \/
    r = Ok true /\ exists n1, safe_step n n1 /\ takes_office I n1 n' /\ in_sync n1 /\
      hard_state n1 = {| current_term := node_term n + 1; voted_for := Some (node_id n) |}).
Proof.
  intros Hw Ht HI. unfold campaign_once. apply returns_gets.
  destruct (contains _ _) eqn:Hself; cbn [negb]; [|apply returns_ret; left; by split].
  apply returns_bind, returns_run.
  assert (Hc : on_course I n n) by (split; [reflexivity|by split]).
  pose proof (on_course_safe _ I n n Hc (safe_start_campaign n Ht)) as (Hs1 & Hw1 & Hi1).
  destruct (start_campaign_cases n) as (_ & Hh & _ & Hcase). rewrite sat_next in Hh, Hcase by apply Hw || done.
  set (n1 := (start_campaign n).2) in *.
  destruct Hcase as [[-> Hy]|[[e ->] _]]; [|left; split; [done|apply Hs1]]. clearbody n1.
  assert (Ht1 : node_term n1 = node_term n + 1) by (unfold node_term at 1; by rewrite Hh).
  rewrite <- Ht1. eapply returns_mono; [|apply (run_election_course _ _ I n1 n1); [|done|]].
  - cbv beta. intros r n' [[Hne Hs]|[-> Ho]]; [left; split; [done|by etransitivity]|right]. split; [done|].
    exists n1. split; [done|]. split; [done|]. split; [done|]. by rewrite Ht1.
  - split; [reflexivity|by split].
  - pose proof (step_voters _ _ Hs1) as E. unfold voters in E.
    assert (Ei : node_id n1 = node_id n) by congruence.
    assert (Ep : node_peers n1 = node_peers n) by congruence. by rewrite Ei, Ep.
Qed.

(** A vote already given in the term stays, in memory and on disk, unless the term
    lapsed. *)
Lemma office_hard_state n1 n2 t v :
  sane n1 -> safe_step n1 n2 -> node_term n2 = node_term n1 -> in_sync n1 ->
  hard_state n1 = {| current_term := t; voted_for := Some v |} ->
  lapsed t \/ hard_state n2 = hard_state n1 /\ durable n2 = hard_state n1.
Proof.
  intros Hn Hs Ht Hy Hh. destruct (step_sane _ _ Hs Hn) as [_ [_ Hb]].
  pose proof (step_stable _ _ Hs) as Hst. pose proof (step_disk _ _ Hs) as Hdk.
  unfold node_term in Ht. unfold in_sync in Hy. rewrite Hy in Hdk. rewrite Hh in *. cbn in *.
  pose proof (steady_term _ _ Hb) as Hle. pose proof (steady_term _ _ Hdk) as Hge. cbn in Hge.
  destruct Hst as [?|[_ [?|[?|E]]]]; [cbn in *; lia|by left|done|].
  destruct Hdk as [?|[E1 [?|[?|E']]]]; [cbn in *; lia|by left|done|]. right.
  destruct (hard_state n2), (durable n2). cbn in *. split; congruence.
Qed.

Lemma office_term I n1 n' : takes_office I n1 n' -> node_term n' = node_term n1.
Proof.
  intros (_ & n2 & _ & Hv & Ht & _). unfold view, both in Hv. unfold node_term in *.
  assert (hard_state n' = hard_state n2) as -> by congruence. done.
Qed.
End CampaignFacts.

Section Wins.
Context {S T C D : Type} `{StorageLaws S} `{!HardStateIntegrity S} `{TransportLaws T} `{Clock C}
  `{!CustomDispatch D T} `{!DispatchLaws D T}.
Implicit Types n : RaftNode S T C D.

(** No term lapsed. *)
Definition none_lapsed : Lapsed := fun _ => False.
#[local] Existing Instance none_lapsed.

(** Winning an election: a campaign that succeeds ends in office at the next
    term, with the vote for oneself on stable storage, and with a majority of
    the voters, each of them the node itself or the sender of an answer that
    the transport delivered and that grants its vote at that term. *)
Theorem campaign_once_wins fuel buf_len n n' :
  sane n -> node_term n < u64_max -> fair_inbox (node_inbox n) n ->
  campaign_once fuel buf_len n = Ok (Ok true, n') ->
  is_leader n' = true /\
  hard_state n' = {| current_term := node_term n + 1; voted_for := Some (node_id n) |} /\
  in_sync n' /\
  exists ps, voters_of (node_peers n) ps /\ voter_majority ps n = true /\
    Forall (fun p => p = node_id n \/ supports (node_inbox n) (node_term n + 1) p) ps.
Proof.
  intros Hw Ht Hf E.
  destruct (campaign_once_course fuel buf_len (node_inbox n) n Hw Ht Hf _ _ E)
    as [[? _]|(_ & n1 & Hs1 & (Hl & n2 & Hs2 & Hview & Ht2 & ps & Hmaj & Hv & Hb) & Hy & Hh1)];
    [done|].
  destruct (office_hard_state n1 n2 _ _ (step_sane _ _ Hs1 Hw) Hs2 Ht2 Hy Hh1) as [[]|[Hh2 Hd2]].
  assert (Hs : safe_step n n2) by by etransitivity.
  pose proof (step_voters _ _ Hs) as Ev. unfold voters in Ev. unfold view, both in Hview.
  assert (Hh' : hard_state n' = hard_state n2) by congruence.
  split; [done|]. split; [congruence|]. split; [unfold in_sync; congruence|].
  assert (Ei : node_id n2 = node_id n) by congruence.
  assert (Ep : node_peers n2 = node_peers n) by congruence.
  assert (Ej : joint_peers n2 = joint_peers n) by congruence.
  assert (Et : node_term n2 = node_term n + 1) by (unfold node_term at 1; by rewrite Hh2, Hh1).
  exists ps. rewrite <- Ei, <- Ep, <- Et. split; [done|]. split; [|done].
  unfold voter_majority in *. congruence.
Qed.
End Wins.

(** Node 1 of three, with the vote of node 2 in its inbox. *)
Definition candidate : RaftNode View QueueTransport TickClock unit :=
  set_transport {| qt_sent := [];
                   qt_inbound := [frame_of 2 (MRequestVoteResp (vote_resp 1 true))] |}
    (fresh_node 1).

Lemma candidate_fair : fair_inbox (node_inbox candidate) candidate.
Proof.
  split; [done|]. intros im (f & Hf & Hd). apply list_elem_of_singleton in Hf as ->.
  pose proof (decode_message_wf _ _ Hd) as Hw. vm_compute in Hd. injection Hd as <-.
  by split; [split|].
Qed.

Definition candidate_elected : RaftNode View QueueTransport TickClock unit :=
  match campaign_once 5 MAX_FRAME_SIZE candidate with Ok (_, n) => n | Err _ => candidate end.

Lemma campaign_once_wins_witness :
  is_leader candidate_elected = true /\
  hard_state candidate_elected = {| current_term := 1; voted_for := Some 1 |}.
Proof.
  assert (E : campaign_once 5 MAX_FRAME_SIZE candidate = Ok (Ok true, candidate_elected))
    by (vm_compute; reflexivity).
  assert (Hw : sane (H4 := none_lapsed) candidate) by (split; [by repeat split|]; split; [done|reflexivity]).
  assert (Ht : node_term candidate < u64_max) by done.
  pose proof (campaign_once_wins 5 MAX_FRAME_SIZE candidate candidate_elected Hw Ht
                candidate_fair E) as (Hl & Hh & _).
  split; [exact Hl|exact Hh].
Defined.
