(* ===== verification/ReplicationFacts.v ===== *)
(** * ReplicationFacts: what an AppendEntries does to the follower's log

    For every storage that keeps its contract: the scan of the batch finds the
    first entry the log does not have; the log is truncated only at a
    conflict; and after a successful append the log holds every entry of the
    batch, with everything up to the previous entry untouched.  The node's
    term cache stays coherent with the log throughout. *)

From stdpp Require Import base list sets gmap strings.
From Stdlib Require Import ZArith Lia.
From S2P Require Import Prelude Types Wire Codec CodecFacts Arena Progress Quorum Traits.
From S2P Require Import Membership NodeState Node Election ConfigChange Replication Snapshot.
From S2P Require Import Transfer Inbound Frames Samples Durability.

Local Open Scope string_scope.
Local Open Scope list_scope.
Local Open Scope Z_scope.

(** ** Facts about logs *)

Lemma log_term_append_other es log i :
  i ∉ map e_index es -> log_append es log !! i = log !! i.
Proof.
  unfold log_append. revert log. induction es as [|e es IH]; intros log Hi; [done|].
  cbn [map] in Hi. apply not_elem_of_cons in Hi as [Hne Hi]. cbn [foldl].
  rewrite IH by done. unfold log_insert. by rewrite lookup_insert_ne.
Qed.

Lemma log_append_lookup es log e :
  NoDup (map e_index es) -> e ∈ es ->
  log_append es log !! e_index e = Some (e_term e, e_payload e).
Proof.
  unfold log_append. revert log. induction es as [|e' es IH]; intros log Hn He.
  { by apply not_elem_of_nil in He. }
  cbn [map foldl] in *. apply NoDup_cons in Hn as [Hni Hn].
  apply elem_of_cons in He as [->|He]; [|by apply IH].
  fold (log_append es (log_insert log e')). rewrite log_term_append_other by done.
  unfold log_insert. by rewrite lookup_insert_eq.
Qed.

Lemma log_truncate_lookup from log i :
  log_truncate from log !! i = if i <? from then log !! i else None.
Proof.
  unfold log_truncate. destruct (Z.ltb_spec i from) as [Hlt|Hge].
  - destruct (log !! i) eqn:Hl.
    + by apply map_lookup_filter_Some.
    + apply map_lookup_filter_None. by left.
  - apply map_lookup_filter_None. right. intros x Hx. simpl. lia.
Qed.

Lemma log_term_truncate from log i :
  log_term (log_truncate from log) i = if i <? from then log_term log i else None.
Proof. unfold log_term. rewrite log_truncate_lookup. by destruct (i <? from). Qed.

(** The entries of a batch have consecutive indexes from [start]. *)
Definition consecutive (start : Z) (es : list LogEntry) : Prop :=
  forall j e, es !! j = Some e -> e_index e = start + Z.of_nat j.

Lemma consecutive_cons start e es :
  consecutive start (e :: es) <-> e_index e = start /\ consecutive (start + 1) es.
Proof.
  split.
  - intros Hc. split; [rewrite (Hc 0%nat e eq_refl); lia|].
    intros j e' He. rewrite (Hc (S j) e' He). lia.
  - intros [H0 Hc] [|j] e' He; [injection He as <-; lia|].
    rewrite (Hc j e' He). lia.
Qed.

Lemma consecutive_bounds start es e :
  consecutive start es -> e ∈ es -> start <= e_index e < start + Z.of_nat (length es).
Proof.
  intros Hc [j Hj]%list_elem_of_lookup. rewrite (Hc j e Hj). apply lookup_lt_Some in Hj. lia.
Qed.

Lemma consecutive_NoDup start es : consecutive start es -> NoDup (map e_index es).
Proof.
  revert start. induction es as [|e es IH]; intros start Hc; [constructor|].
  apply consecutive_cons in Hc as [He Hc]. cbn [map]. constructor; [|by eapply IH].
  intros [e' [Heq Hin]]%list_elem_of_fmap.
  pose proof (consecutive_bounds _ _ _ Hc Hin). lia.
Qed.

Lemma consecutive_drop start es k :
  consecutive start es -> consecutive (start + Z.of_nat k) (drop k es).
Proof.
  intros Hc j e He. rewrite lookup_drop in He. rewrite (Hc _ _ He). lia.
Qed.

Section ReplicationFacts.
Context {S T C D : Type} `{StorageLaws S} `{RaftTransport T} `{Clock C} `{CustomDispatch D T}.
Implicit Types n : RaftNode S T C D.
#[local] Abbreviation M := (M S T C D).

(** ** The invariant of the term cache *)

Record log_ok n : Prop := {
  lo_wf : arena_wf (log_metadata n);
  lo_coherent : forall i t, get_term (log_metadata n) i = Some t ->
                  log_term (stored_log n) i = Some t;
}.

(** A storage call that kept the view. *)
Definition same_view n n' : Prop :=
  exists s, n' = set_storage s n /\ sview s = sview (storage n).

Lemma same_view_refl n : same_view n n.
Proof. exists (storage n). by destruct n. Qed.

Lemma same_view_trans n1 n2 n3 : same_view n1 n2 -> same_view n2 n3 -> same_view n1 n3.
Proof. intros (s & -> & Hs) (s' & -> & Hs'). exists s'. split; [done|]. cbn in Hs'. congruence. Qed.

Lemma same_view_log_ok n n' : same_view n n' -> log_ok n -> log_ok n'.
Proof.
  intros (s & -> & Hs) [Hw Hc]. constructor; [done|]. unfold stored_log. cbn. rewrite Hs. exact Hc.
Qed.

Lemma same_view_log n n' : same_view n n' -> stored_log n' = stored_log n.
Proof. intros (s & -> & Hs). unfold stored_log. cbn. by rewrite Hs. Qed.

Lemma local_term_at_spec i n o n' :
  log_ok n -> local_term_at i n = (Ok o, n') ->
  o = log_term (stored_log n) i /\ same_view n n'.
Proof.
  intros [Hw Hc]. unfold local_term_at. rewrite bind_gets.
  destruct (get_term (log_metadata n) i) as [t|] eqn:Hg.
  - intros [= <- <-]. split; [symmetry; by apply Hc | apply same_view_refl].
  - unfold on_storage. destruct (storage_term_at i (storage n)) as [r s] eqn:Es.
    intros [= -> <-]. apply storage_term_at_law in Es as [Hs Hr].
    split; [by apply Hr | by exists s].
Qed.

(** The log was cut at [i], and the tip re-read. *)
Definition truncated_at (i : LogIndex) n n' : Prop :=
  exists s tip,
    n' = set_cached_last_log tip
           (set_log_metadata (arena_truncate_suffix i (log_metadata n)) (set_storage s n)) /\
    sview s = set_v_log (log_truncate i (stored_log n)) (sview (storage n)) /\
    (log_truncate i (stored_log n) <> ∅ -> is_last (log_truncate i (stored_log n)) tip).

Lemma storage_truncate_spec i n n' :
  storage_truncate i n = (Ok tt, n') -> truncated_at i n n'.
Proof.
  unfold storage_truncate. intros E. apply bind_inv_Ok in E as ([] & n1 & E1 & E).
  unfold on_storage in E1. destruct (truncate_suffix i (storage n)) as [r s] eqn:Es.
  injection E1 as -> <-. apply truncate_suffix_law in Es as [_ Hs]. specialize (Hs eq_refl).
  rewrite bind_modify in E. apply bind_inv_Ok in E as (tip & n2 & E2 & E3).
  injection E3 as <-. unfold on_storage in E2.
  destruct (last_log_position _) as [r s2] eqn:El. injection E2 as -> <-.
  cbn in El. apply last_log_position_law in El as [Hv Hl].
  exists s2, tip. split; [done|]. rewrite Hv, Hs in *. split; [done|]. by apply Hl.
Qed.

Lemma truncated_log i n n' : truncated_at i n n' -> stored_log n' = log_truncate i (stored_log n).
Proof. intros (s & tip & -> & Hs & _). unfold stored_log at 1. cbn. by rewrite Hs. Qed.

Lemma truncated_log_ok i n n' : is_u64 i -> truncated_at i n n' -> log_ok n -> log_ok n'.
Proof.
  intros Hi Ht [Hw Hc]. pose proof (truncated_log _ _ _ Ht) as Hl.
  destruct Ht as (s & tip & -> & Hs & _). constructor.
  - cbn. by apply arena_truncate_suffix_wf.
  - intros j t. rewrite Hl, log_term_truncate. cbn. rewrite get_term_truncate_suffix by done.
    destruct (j <? i); [apply Hc | done].
Qed.

(** ** The scan *)

(** The effect of the scan on the node: nothing, or the cut at the first
    conflicting item. *)
Definition scan_effect (item : option (LogIndex * Term)) n n' : Prop :=
  match item with
  | Some (i, t) =>
      match log_term (stored_log n) i with
      | Some t' => t' <> t /\ truncated_at i n n'
      | None => same_view n n'
      end
  | None => same_view n n'
  end.

Lemma scan_effect_after item n n1 n' :
  same_view n n1 -> scan_effect item n1 n' -> scan_effect item n n'.
Proof.
  intros Hv. unfold scan_effect. destruct item as [[i t]|]; [|by apply same_view_trans].
  rewrite (same_view_log _ _ Hv). destruct (log_term (stored_log n) i); [|by apply same_view_trans].
  intros [Hne (s & tip & -> & Hs & Hl)]. split; [done|].
  rewrite (same_view_log _ _ Hv) in *. destruct Hv as (s0 & -> & Hs0).
  exists s, tip. split; [done|]. cbn in Hs. rewrite Hs0 in Hs. done.
Qed.

Lemma scan_entries_spec what start count items idx n k n' :
  log_ok n -> (idx + length items)%nat = count ->
  scan_entries what start count items idx n = (Ok k, n') ->
  exists j, k = (idx + j)%nat /\ (j <= length items)%nat /\
    (forall i, (i < j)%nat -> exists it, items !! i = Some it /\
       log_term (stored_log n) it.1 = Some it.2) /\
    (forall i it, (i <= j)%nat -> items !! i = Some it ->
       it.1 = sat_add64 start (Z.of_nat (idx + i))) /\
    scan_effect (items !! j) n n'.
Proof.
  revert idx n. induction items as [|[i t] items IH]; intros idx n Hok Hlen E;
    cbn [scan_entries] in E.
  - injection E as <- <-. exists 0%nat. simpl in Hlen. split_and!; try done; try lia.
    apply same_view_refl.
  - destruct (Z.eqb_spec i (sat_add64 start (Z.of_nat idx))) as [Hi|]; [|done]. cbn [negb] in E.
    apply bind_inv_Ok in E as (o & n1 & E1 & E).
    apply local_term_at_spec in E1 as [-> Hv]; [|done].
    assert (Hpos : forall i0 it, (i0 <= 0)%nat -> ((i, t) :: items) !! i0 = Some it ->
              it.1 = sat_add64 start (Z.of_nat (idx + i0))).
    { intros [|i0] it Hle Hit; [|lia]. injection Hit as <-. by rewrite Nat.add_0_r. }
    destruct (log_term (stored_log n) i) as [t'|] eqn:Hl.
    + destruct (Z.eqb_spec t' t) as [->|Hne].
      * apply IH in E as (j & -> & Hj & Hm & Hc & He);
          [|by eapply same_view_log_ok|simpl in *; lia].
        exists (Datatypes.S j). split; [lia|]. split; [simpl; lia|]. split_and!.
        -- intros [|i0] Hi0; [by exists (i, t)|].
           destruct (Hm i0) as (it & Hit & Hlt); [lia|]. exists it. split; [done|].
           by rewrite <- (same_view_log _ _ Hv).
        -- intros [|i0] it Hle Hit; [by apply (Hpos 0%nat)|]. simpl in Hit.
           rewrite (Hc i0 it); [f_equal; lia|lia|done].
        -- simpl. by eapply scan_effect_after.
      * apply bind_inv_Ok in E as ([] & n2 & E2 & [= <- <-]).
        apply storage_truncate_spec in E2. exists 0%nat. split; [lia|].
        split_and!; [simpl; lia | lia | done |]. eapply scan_effect_after; [exact Hv|].
        cbn. rewrite (same_view_log _ _ Hv), Hl. done.
    + injection E as <- <-. exists 0%nat. split; [lia|].
      split_and!; [simpl; lia | lia | done |]. cbn. by rewrite Hl.
Qed.

(** ** The append *)

Lemma coherent_append_all es a log :
  Forall entry_wf es -> arena_wf a ->
  (forall i t, get_term a i = Some t -> log_term log i = Some t) ->
  let a' := arena_append_all (map entry_position es) a in
  arena_wf a' /\
  forall i t, get_term a' i = Some t -> log_term (log_append es log) i = Some t.
Proof.
  intros Hes. revert a log. induction Hes as [|e es [Ht Hi] _ IH]; intros a log Hw Hc; [done|].
  cbn [map arena_append_all log_append foldl].
  apply (IH (arena_append (e_index e) (e_term e) a) (log_insert log e)).
  - by apply arena_append_wf.
  - intros i t Hg. unfold log_term, log_insert.
    apply get_term_append_inv in Hg; [|done|done]. destruct Hg as [[-> ->]|[Hne Hg]].
    + by rewrite lookup_insert_eq.
    + rewrite lookup_insert_ne by done. by apply Hc.
Qed.

Lemma last_map {X Y} (f : X -> Y) (l : list X) : last (map f l) = f <$> last l.
Proof. induction l as [|x l IH]; [done|]. by destruct l. Qed.

(** A call that stores the batch [es]. *)
Definition stores (es : list LogEntry) (m : M unit) : Prop :=
  forall n n', m n = (Ok tt, n') ->
    exists s, n' = set_storage s n /\
      sview s = set_v_log (log_append es (stored_log n)) (sview (storage n)).

Lemma append_entries_stores es : stores es (on_storage (append_entries es)).
Proof.
  intros n n'. unfold on_storage. destruct (append_entries es (storage n)) as [r s] eqn:Es.
  intros [= -> <-]. apply append_entries_law in Es as [_ Hs]. exists s. split; [done|by apply Hs].
Qed.

Lemma append_entries_seeded_stores hs ps :
  stores (seeded_entries hs ps) (on_storage (append_entries_seeded hs ps)).
Proof.
  intros n n'. unfold on_storage.
  destruct (append_entries_seeded hs ps (storage n)) as [r s] eqn:Es.
  intros [= -> <-]. apply append_entries_seeded_law in Es as [_ Hs].
  exists s. split; [done|by apply Hs].
Qed.

(** Appending a batch: the log, the cache and the tip. *)
Lemma append_batch_spec es store n n' :
  log_ok n -> Forall entry_wf es -> stores es store ->
  (store;; note_appended (map entry_position es)) n = (Ok tt, n') ->
  log_ok n' /\ stored_log n' = log_append es (stored_log n) /\
  cached_last_log n' = match last es with
                       | Some e => entry_position e
                       | None => cached_last_log n
                       end.
Proof.
  intros [Hw Hc] Hes Hstore E. apply bind_inv_Ok in E as ([] & n1 & E1 & E).
  apply Hstore in E1 as (s & -> & Hs).
  unfold note_appended in E. rewrite bind_modify, last_map in E.
  destruct (coherent_append_all es (log_metadata n) (stored_log n) Hes Hw Hc) as [Hw' Hc'].
  assert (Hn' : storage n' = s /\
            log_metadata n' = arena_append_all (map entry_position es) (log_metadata n) /\
            cached_last_log n' = match last es with
                                 | Some e => entry_position e
                                 | None => cached_last_log n
                                 end)
    by (destruct (last es); cbn [fmap option_fmap option_map] in E; by injection E as <-).
  destruct Hn' as (Hst & Ha & Ht).
  assert (Hlog : stored_log n' = log_append es (stored_log n))
    by (unfold stored_log; by rewrite Hst, Hs).
  split; [constructor; rewrite Ha; [done | by rewrite Hlog] | done].
Qed.

Lemma items_wf items : Forall item_ok items -> Forall entry_wf (map item_entry items).
Proof.
  intros Hok. apply Forall_map. eapply Forall_impl; [exact Hok|].
  intros [h d] [[Hw _] _]. cbn [fst] in Hw.
  inversion_clear Hw as [|? ? ? ? H1' Hw1]. inversion_clear Hw1 as [|? ? ? ? H2' _].
  unfold in_width in *. split; cbn; machine; lia.
Qed.

Lemma entry_block_items k p :
  entry_block k p ->
  length (entry_iter p k) = k /\ Forall entry_wf (entry_iter p k).
Proof.
  intros (items & <- & Hok & ->). rewrite entry_iter_block by done.
  split; [by rewrite length_map | by apply items_wf].
Qed.

Lemma keeps_log_activate o :
  keeps (stored_log (S := S) (T := T) (C := C) (D := D)) (activate_config o).
Proof.
  destruct o as [e|]; [|apply keeps_ret]. cbn [activate_config].
  unfold apply_config_change, apply_phase, drop_voting_learners,
    reconcile_leader_progress_with_config, drop_stale_peer.
  pose proof (keeps_log_step_down (S := S) (T := T) (C := C) (D := D)). keeps_auto.
Qed.

Definition arena_of n : LogMetadataArena * (LogIndex * Term) := (log_metadata n, cached_last_log n).

Lemma keeps_arena_activate o : keeps arena_of (activate_config o).
Proof.
  destruct o as [e|]; [|apply keeps_ret]. cbn [activate_config].
  unfold apply_config_change, apply_phase, drop_voting_learners,
    reconcile_leader_progress_with_config, drop_stale_peer, step_down, persist_hard_state,
    demote_to_follower_keep_term. keeps_auto.
Qed.

Lemma activate_log_ok o n n' :
  activate_config o n = (Ok tt, n') -> log_ok n ->
  log_ok n' /\ stored_log n' = stored_log n /\ cached_last_log n' = cached_last_log n.
Proof.
  intros E [Hw Hc]. pose proof (keeps_log_activate o n) as Hl.
  pose proof (keeps_arena_activate o n) as Ha. rewrite E in Hl, Ha. cbn in Hl, Ha.
  unfold arena_of in Ha. injection Ha as Ha Ht.
  split; [|done]. constructor; [by rewrite Ha | by rewrite Ha, Hl].
Qed.

(** The log after the scan, before the append: cut at entry [k] when that
    entry conflicts with it. *)
Definition scanned_log (o : option LogEntry) (log : gmap Z (Term * bytes))
  : gmap Z (Term * bytes) :=
  match o with
  | Some e => match log_term log (e_index e) with
              | Some _ => log_truncate (e_index e) log
              | None => log
              end
  | None => log
  end.

(** The exact effect of a successful append: [k] entries were already there;
    the log is cut at entry [k] when it conflicts; the rest is appended, and
    the tip is the last entry when there was anything to append. *)
Definition appended (es : list LogEntry) n n' : Prop :=
  exists k, (k <= length es)%nat /\ log_ok n' /\
    (forall j e, (j < k)%nat -> es !! j = Some e ->
       log_term (stored_log n) (e_index e) = Some (e_term e)) /\
    (forall e, es !! k = Some e ->
       log_term (stored_log n) (e_index e) <> Some (e_term e)) /\
    stored_log n' = log_append (drop k es) (scanned_log (es !! k) (stored_log n)) /\
    cached_last_log n' = match last (drop k es) with
                         | Some e => entry_position e
                         | None => cached_last_log n
                         end.

(** The shape of both append paths; [store k] stores the entries from [k] on. *)
Definition append_path (what : string) (start : Z) (es : list LogEntry) (store : nat -> M unit)
  : M unit :=
  k ← scan_entries what start (length es) (map entry_position es) 0;
  if (k <? length es)%nat then
    store k;;
    note_appended (map entry_position (drop k es));;
    activate_config (latest_config (map e_payload (drop k es)))
  else mret tt.

(** After the scan stopped at [e]. *)
Lemma scan_effect_log e n n1 :
  log_ok n -> is_u64 (e_index e) -> scan_effect (Some (entry_position e)) n n1 ->
  log_ok n1 /\ stored_log n1 = scanned_log (Some e) (stored_log n) /\
  log_term (stored_log n) (e_index e) <> Some (e_term e).
Proof.
  intros Hok Hu Heff. cbn [scan_effect entry_position scanned_log] in *.
  destruct (log_term (stored_log n) (e_index e)) as [t|].
  - destruct Heff as [Hne Ht].
    split_and!; [by eapply truncated_log_ok | by apply truncated_log | congruence].
  - split_and!; [by eapply same_view_log_ok | by apply same_view_log | done].
Qed.

Lemma append_path_exact what start es store n n' :
  log_ok n -> Forall entry_wf es -> (forall k, stores (drop k es) (store k)) ->
  append_path what start es store n = (Ok tt, n') -> appended es n n'.
Proof.
  intros Hok Hwf Hstore E. unfold append_path in E.
  apply bind_inv_Ok in E as (k & n1 & E1 & E).
  apply scan_entries_spec in E1 as (j & -> & Hj & Hm & Hpos & Heff);
    [|done|by rewrite length_map].
  rewrite length_map in Hj. cbn [Nat.add] in E. exists j. split; [lia|].
  assert (Hmatch : forall i e, (i < j)%nat -> es !! i = Some e ->
            log_term (stored_log n) (e_index e) = Some (e_term e)).
  { intros i e Hi He. destruct (Hm i Hi) as (it & Hit & Hl).
    rewrite list_lookup_fmap, He in Hit. by injection Hit as <-. }
  rewrite list_lookup_fmap in Heff.
  destruct (es !! j) as [e|] eqn:Hej; cbn [fmap option_fmap option_map] in Heff.
  - assert (Hjc : (j < length es)%nat) by (by apply lookup_lt_Some in Hej).
    rewrite (proj2 (Nat.ltb_lt _ _) Hjc) in E.
    assert (Hu : is_u64 (e_index e)).
    { rewrite Forall_forall in Hwf. apply (Hwf e), list_elem_of_lookup. eauto. }
    apply scan_effect_log in Heff as (Hok1 & Hl1 & Hne); [|done|done].
    rewrite <- bind_assoc in E. apply bind_inv_Ok in E as ([] & n2 & E2 & E).
    apply append_batch_spec in E2 as (Hok2 & Hl2 & Htip2); [|done|by apply Forall_drop|done].
    apply activate_log_ok in E as (Hok3 & Hl3 & Htip3); [|done].
    split_and!; [done|done|by intros e' [= <-]|congruence|].
    rewrite Htip3, Htip2. destruct (last (drop j es)) eqn:Hlast; [done|].
    apply last_None, (f_equal length) in Hlast. rewrite length_drop in Hlast. simpl in Hlast. lia.
  - apply lookup_ge_None in Hej. rewrite (proj2 (Nat.ltb_ge _ _)) in E by lia.
    injection E as <-. rewrite drop_ge by lia. cbn [log_append foldl last scanned_log].
    split_and!; [by eapply same_view_log_ok | done | done | by apply same_view_log |].
    by destruct Heff as (s & -> & _).
Qed.

(** Both paths have that shape. *)
Lemma apply_append_entries_path msg payload :
  let count := Z.to_nat (ae_entry_count msg) in
  let es := entry_iter payload count in
  length es = count ->
  apply_append_entries msg payload =
  append_path "AppendEntries entries not contiguous with prev_log_index"
    (sat_add64 (ae_prev_log_index msg) 1) es (fun k => on_storage (append_entries (drop k es))).
Proof. intros count es Hl. unfold apply_append_entries, append_path. fold count es. by rewrite Hl. Qed.

Lemma headers_of_block hs : Forall wire_wf hs -> headers_of (length hs) (header_block hs) = hs.
Proof.
  induction 1 as [|h hs Hh _ IH]; [done|]. cbn [length headers_of].
  unfold header_block. cbn [map concat]. rewrite from_prefix_as_bytes by done.
  fold (header_block hs). by rewrite IH.
Qed.

Lemma parse_headers_block hs : Forall wire_wf hs -> parse_headers (header_block hs) = Some hs.
Proof.
  intros Hh. unfold parse_headers. assert (Hpos : wire_size EntryHeader <> 0%nat) by done.
  rewrite length_header_block, Nat.Div0.mod_mul, Nat.div_mul by done. cbn [Nat.eqb].
  by rewrite headers_of_block.
Qed.

Lemma seeded_entries_items items :
  seeded_entries (map fst items) (map snd items) = map item_entry items.
Proof.
  unfold seeded_entries. induction items as [|i items IH]; [done|]. cbn [map zip_with]. by rewrite IH.
Qed.

Lemma seeded_entries_drop hs ps k :
  drop k (seeded_entries hs ps) = seeded_entries (drop k hs) (drop k ps).
Proof. apply zip_with_drop. Qed.

Lemma apply_append_entries_seeded_path msg headers payloads n :
  let items := raw_iter headers (Contiguous payloads) in
  seeded_block (Z.to_nat (ae_entry_count msg)) headers payloads ->
  apply_append_entries_seeded msg headers payloads n =
  append_path "seeded AppendEntries entries not contiguous with prev_log_index"
    (sat_add64 (ae_prev_log_index msg) 1) (map item_entry items)
    (fun k => on_storage (append_entries_seeded (drop k (map fst items)) (drop k (map snd items)))) n.
Proof.
  intros items Hb. destruct (raw_iter_block _ _ _ Hb) as (Hl & Hok & Hh & _). fold items in Hl, Hok, Hh.
  assert (Hhs : parse_headers headers = Some (map fst items)).
  { rewrite (f_equal parse_headers Hh). apply parse_headers_block, Forall_map. eapply Forall_impl; [exact Hok|].
    by intros i [? _]. }
  unfold apply_append_entries_seeded, append_path. fold items.
  rewrite length_map, Hl, Hhs, map_map. apply bind_ext. intros k n'.
  destruct (k <? _)%nat; [|done].
  by rewrite <- !fmap_drop, !map_map.
Qed.

(** A conflict: the log has another term at the index of an entry. *)
Definition conflicts (log : gmap Z (Term * bytes)) (e : LogEntry) : Prop :=
  exists t, log_term log (e_index e) = Some t /\ t <> e_term e.

(** The log of [n'] after the batch [es], consecutive from [prev + 1]: it has
    the term of every entry of the batch, and the whole entry where it did not
    have that term before; everything up to [prev] is untouched; a batch the log
    already has changes nothing; and entries beyond the batch are dropped only
    when an entry of the batch conflicts with the log. *)
Definition matched_after (prev : Z) (es : list LogEntry) n n' : Prop :=
  (forall e, e ∈ es -> log_term (stored_log n') (e_index e) = Some (e_term e) /\
     (log_term (stored_log n) (e_index e) <> Some (e_term e) ->
      stored_log n' !! e_index e = Some (e_term e, e_payload e))) /\
  (forall i, i <= prev -> stored_log n' !! i = stored_log n !! i) /\
  ((forall e, e ∈ es -> log_term (stored_log n) (e_index e) = Some (e_term e)) ->
   stored_log n' = stored_log n) /\
  (forall i, prev + Z.of_nat (length es) < i -> stored_log n' !! i <> stored_log n !! i ->
   exists e, e ∈ es /\ conflicts (stored_log n) e).

Lemma appended_matched prev es n n' :
  consecutive (prev + 1) es -> appended es n n' -> log_ok n' /\ matched_after prev es n n'.
Proof.
  intros Hcons (k & Hk & Hok' & Hm & Hne & Hlog & _). split; [done|].
  pose proof (consecutive_drop _ _ k Hcons) as Hcd. pose proof (consecutive_NoDup _ _ Hcd) as Hnd.
  assert (Hin : forall i, i ∈ map e_index (drop k es) -> prev + 1 + Z.of_nat k <= i <= prev + Z.of_nat (length es)).
  { intros i (e & -> & He)%list_elem_of_fmap. pose proof (consecutive_bounds _ _ _ Hcd He) as Hb.
    rewrite length_drop in Hb. lia. }
  assert (Hbase : forall i, i < prev + 1 + Z.of_nat k ->
            scanned_log (es !! k) (stored_log n) !! i = stored_log n !! i).
  { intros i Hi. destruct (es !! k) as [e|] eqn:Hek; [|done]. cbn [scanned_log].
    rewrite (Hcons _ _ Hek). destruct (log_term _ _); [|done].
    rewrite log_truncate_lookup. by rewrite (proj2 (Z.ltb_lt _ _) Hi). }
  assert (Hlow : forall i, i < prev + 1 + Z.of_nat k -> stored_log n' !! i = stored_log n !! i).
  { intros i Hi. rewrite Hlog, log_term_append_other; [by apply Hbase|].
    intros Hi'. apply Hin in Hi'. lia. }
  split; [|split; [intros i Hi; apply Hlow; lia|split]].
  - intros e [j Hj]%list_elem_of_lookup. destruct (Nat.lt_ge_cases j k) as [Hjk|Hjk].
    + specialize (Hm j e Hjk Hj). split; [|done]. unfold log_term in *.
      rewrite Hlow; [done|]. rewrite (Hcons _ _ Hj). lia.
    + assert (He : e ∈ drop k es).
      { apply list_elem_of_lookup. exists (j - k)%nat. rewrite lookup_drop. by replace (k + (j - k))%nat with j by lia. }
      assert (Hl : stored_log n' !! e_index e = Some (e_term e, e_payload e))
        by (rewrite Hlog; by apply log_append_lookup).
      unfold log_term. rewrite Hl. done.
  - intros Hall. destruct (es !! k) as [e|] eqn:Hek.
    + destruct (Hne e eq_refl). apply Hall, list_elem_of_lookup. eauto.
    + rewrite Hlog. apply lookup_ge_None in Hek. by rewrite drop_ge.
  - intros i Hi Hdiff. destruct (es !! k) as [e|] eqn:Hek.
    + exists e. split; [apply list_elem_of_lookup; eauto|]. unfold conflicts.
      rewrite Hlog, log_term_append_other in Hdiff by (intros Hi'; apply Hin in Hi'; lia).
      cbn [scanned_log] in Hdiff. specialize (Hne e eq_refl).
      destruct (log_term (stored_log n) (e_index e)) as [t|]; [|done].
      exists t. split; [done|congruence].
    + rewrite Hlog in Hdiff. apply lookup_ge_None in Hek. by rewrite drop_ge in Hdiff.
Qed.


(** The seeded form keeps the same contract, for the entries its headers
    and its payload block describe. *)
Theorem append_entries_seeded_log_matching msg headers payloads n n' :
  let es := map item_entry (raw_iter headers (Contiguous payloads)) in
  log_ok n -> seeded_block (Z.to_nat (ae_entry_count msg)) headers payloads ->
  consecutive (ae_prev_log_index msg + 1) es ->
  apply_append_entries_seeded msg headers payloads n = (Ok tt, n') ->
  log_ok n' /\ matched_after (ae_prev_log_index msg) es n n'.
Proof.
  intros es Hok Hblock Hcons E. rewrite apply_append_entries_seeded_path in E by done.
  eapply appended_matched; [done|]. eapply append_path_exact; [done| | |done].
  - apply raw_iter_block in Hblock as (_ & Hitems & _). by apply items_wf.
  - intros k. subst es. rewrite <- seeded_entries_items, seeded_entries_drop.
    apply append_entries_seeded_stores.
Qed.

(** ** The handler *)

Lemma prev_matches_spec prev t n ok n' :
  log_ok n -> prev_matches prev t n = (Ok ok, n') ->
  same_view n n' /\
  (ok = true -> prev = 0 \/ log_term (stored_log n) prev = Some t \/
                (log_term (stored_log n) prev = None /\ cached_last_log n = (prev, t))) /\
  (ok = false -> log_term (stored_log n) prev <> Some t /\ cached_last_log n <> (prev, t) \/
                 exists t', log_term (stored_log n) prev = Some t' /\ t' <> t).
Proof.
  intros [Hw Hc]. unfold prev_matches. rewrite bind_gets.
  destruct (get_term (log_metadata n) prev) as [t0|] eqn:Hg.
  { intros [= <- <-]. apply Hc in Hg. split; [apply same_view_refl|]. split; intros Hok; zbool.
    - subst. auto.
    - right. eauto. }
  destruct (Z.eqb_spec prev 0) as [->|Hp].
  { intros [= <- <-]. split; [apply same_view_refl|]. auto. }
  intros E. apply bind_inv_Ok in E as (o & n1 & E1 & E2). unfold on_storage in E1.
  destruct (storage_term_at prev (storage n)) as [r s] eqn:Es. injection E1 as -> <-.
  apply storage_term_at_law in Es as [Hs Hr]. rewrite (Hr _ eq_refl) in E2.
  fold (stored_log n) in E2.
  destruct (log_term (stored_log n) prev) as [t0|] eqn:Hl; injection E2 as <- <-;
    (split; [by exists s|]); split; intros Hok; zbool; subst; eauto.
  - right. right. split; [done|]. cbn in *. by destruct (cached_last_log n).
  - left. split; [done|]. cbn in Hok. intros Heq. rewrite Heq in Hok. cbn in Hok.
    by rewrite !Z.eqb_refl in Hok.
Qed.

(** The fields of the node that the handler sets before it looks at the log. *)
Definition follows (leader : PeerId) (h : HardState) n : Prop :=
  hard_state n = h /\ ss_role (soft_state n) = Follower /\ ss_is_leader (soft_state n) = false /\
  ss_leader_id (soft_state n) = Some leader.

Lemma step_down_log_ok t n n' : step_down t n = (Ok tt, n') -> log_ok n -> log_ok n'.
Proof.
  intros E [Hw Hc]. pose proof (keeps_log_step_down t n) as Hl.
  assert (Ha : keeps arena_of (step_down t)).
  { unfold step_down, persist_hard_state, demote_to_follower_keep_term. keeps_auto. }
  specialize (Ha n). rewrite E in Hl, Ha. cbn in Hl, Ha. unfold arena_of in Ha.
  injection Ha as Ha _. constructor; [by rewrite Ha | by rewrite Ha, Hl].
Qed.

(** The part of the log state the follower steps keep. *)
Definition log_part n : gmap Z (Term * bytes) * (LogMetadataArena * (LogIndex * Term)) * LogIndex :=
  (stored_log n, arena_of n, commit_index n).

Lemma log_part_ok n n' : log_part n' = log_part n -> log_ok n -> log_ok n'.
Proof.
  unfold log_part, arena_of. intros [= Hl Ha _ _] [Hw Hc].
  constructor; [by rewrite Ha | by rewrite Ha, Hl].
Qed.

Lemma keeps_log_part_step_down t : keeps log_part (step_down t).
Proof.
  intros n. pose proof (keeps_log_step_down t n) as Hl. unfold log_part. rewrite Hl.
  assert (Ha : keeps (fun n => (arena_of n, commit_index n)) (step_down t)).
  { unfold step_down, persist_hard_state, demote_to_follower_keep_term. keeps_auto. }
  specialize (Ha n). cbn in Ha. congruence.
Qed.

(** The steps that make the node a follower of the sender's leader. *)
Lemma follow_leader_spec {A} msg (k : M A) n r n' :
  in_sync n -> node_term n <= ae_term msg ->
  (whenM (node_term n <? ae_term msg) (step_down (ae_term msg));;
   modify (set_role Follower);;
   modify (set_is_leader false);;
   modify (set_leader_id (Some (ae_leader_id msg)));;
   t ← now;
   modify (set_last_leader_contact (Some t));;
   k) n = (Ok r, n') ->
  exists n1, follows (ae_leader_id msg) (adopt_term (ae_term msg) (hard_state n)) n1 /\
    log_part n1 = log_part n /\ k n1 = (Ok r, n').
Proof.
  intros Hs Hge E. apply bind_inv_Ok in E as ([] & n0 & E0 & E).
  assert (Hp0 : log_part n0 = log_part n).
  { destruct (node_term n <? ae_term msg); cbn [whenM] in E0; [|by injection E0 as <-].
    pose proof (keeps_log_part_step_down (ae_term msg) n) as Hp. by rewrite E0 in Hp. }
  apply adopt_higher_term in E0 as (Hh & _ & _); [|done].
  rewrite !bind_modify in E. apply bind_inv_Ok in E as (t & n1 & E1 & E).
  unfold now in E1. destruct (clock_now _) as [t' c] eqn:Hclk. injection E1 as -> <-.
  rewrite bind_modify in E.
  match type of E with k ?x = _ => exists x end.
  split_and!; [repeat split; cbn; done | by rewrite <- Hp0 | done].
Qed.

Lemma same_view_log_part n n' : same_view n n' -> log_part n' = log_part n.
Proof.
  intros (s & -> & Hs). unfold log_part, stored_log, arena_of. cbn. by rewrite Hs.
Qed.

(** C10: what a follower answers to an AppendEntries, plain or seeded ([append]
    is the call that stores the entries), on every branch that returns.  A stale term is refused with the node's own term and nothing else
    changes.  Otherwise the node adopts the term and follows the sender's
    leader; when the previous entry is not in its log it refuses with a hint
    below [prev] and leaves log and commit index alone; when it accepts, the
    previous entry is the start of the log, in the log, or the tip after a
    snapshot, the entries are applied, and the commit index moves to the
    leader's, bounded by the last entry. *)
Theorem handle_append_spec (append : M unit) from msg n n' :
  in_sync n -> log_ok n -> handle_append append from msg n = (Ok tt, n') ->
  (ae_term msg < node_term n /\ exists sent,
     send_message from
       (MAppendEntriesResp (append_resp (node_term n) (cached_last_log n).1 false msg)) n
     = (Ok sent, n')) \/
  (node_term n <= ae_term msg /\ exists n1,
     follows (ae_leader_id msg) (adopt_term (ae_term msg) (hard_state n)) n1 /\
     log_part n1 = log_part n /\
     ((log_term (stored_log n) (ae_prev_log_index msg) <> Some (ae_prev_log_term msg) /\
       exists sent, send_message from (MAppendEntriesResp (append_resp (node_term n1)
         (Z.min (cached_last_log n).1 (sat_sub (ae_prev_log_index msg) 1)) false msg)) n1
       = (Ok sent, n')) \/
      ((ae_prev_log_index msg = 0 \/
        log_term (stored_log n) (ae_prev_log_index msg) = Some (ae_prev_log_term msg) \/
        cached_last_log n = (ae_prev_log_index msg, ae_prev_log_term msg)) /\
       exists n2 sent, append n1 = (Ok tt, n2) /\
         let last := (cached_last_log n2).1 in
         let n3 := if commit_index n2 <? ae_leader_commit msg
                   then set_commit_index (Z.min (ae_leader_commit msg) last) n2 else n2 in
         send_message from (MAppendEntriesResp (append_resp (node_term n3) last true msg)) n3
         = (Ok sent, n')))).
Proof.
  intros Hs Hok E. unfold handle_append in E. rewrite bind_gets in E.
  destruct (Z.ltb_spec (ae_term msg) (node_term n)) as [Hlt|Hge].
  { left. split; [done|]. rewrite bind_gets in E.
    apply bind_inv_Ok in E as (sent & n1 & E & [= <-]). by exists sent. }
  right. split; [done|]. apply follow_leader_spec in E as (n1 & Hf1 & Hp1 & E); [|done..].
  apply bind_inv_Ok in E as (ok & n2 & E2 & E).
  apply prev_matches_spec in E2 as (Hv & Hyes & Hno); [|by eapply log_part_ok].
  assert (Hl1 : stored_log n1 = stored_log n /\ cached_last_log n1 = cached_last_log n)
    by (unfold log_part, arena_of in Hp1; split; congruence).
  destruct Hl1 as [Hl1 Ht1]. rewrite Hl1, Ht1 in Hyes, Hno.
  assert (Hf2 : follows (ae_leader_id msg) (adopt_term (ae_term msg) (hard_state n)) n2)
    by (destruct Hv as (s & -> & _); done).
  assert (Hp2 : log_part n2 = log_part n) by (rewrite <- Hp1; by apply same_view_log_part).
  exists n2. split; [done|]. split; [done|]. destruct ok; cbn [negb] in E.
  - right. split; [destruct (Hyes eq_refl) as [?|[?|[_ ?]]]; auto|].
    apply bind_inv_Ok in E as ([] & n3 & E3 & E). rewrite !bind_gets in E.
    apply bind_inv_Ok in E as ([] & n4 & E4 & E). rewrite bind_gets in E.
    apply bind_inv_Ok in E as (sent & n5 & E5 & [= <-]).
    exists n3, sent. split; [done|]. cbv zeta.
    destruct (commit_index n3 <? ae_leader_commit msg); cbn [whenM] in E4;
      injection E4 as <-; exact E5.
  - left. rewrite !bind_gets in E. apply bind_inv_Ok in E as (sent & n3 & E3 & [= <-]).
    split; [destruct (Hno eq_refl) as [[? _]|(t0 & -> & ?)]; [done|congruence]|].
    exists sent. unfold log_part, arena_of in Hp2. injection Hp2 as _ _ Ht2 _. by rewrite <- Ht2.
Qed.
End ReplicationFacts.

(** ** Witnesses *)

(** A follower whose third entry conflicts with the leader's batch. *)
Definition follower : SampleNode :=
  sample_node 2 [1; 2; 3] {| current_term := 2; voted_for := Some 3 |} [1; 1; 2].

Definition batch : list LogEntry :=
  [ {| e_term := 3; e_index := 3; e_payload := [to_byte 7] |};
    {| e_term := 3; e_index := 4; e_payload := [to_byte 8] |} ].

Definition batch_bytes : bytes := concat (map entry_bytes batch).

Definition append_msg (term prev prev_term commit count : Z) : AppendEntries :=
  {| ae_term := term; ae_leader_id := 1; ae_prev_log_index := prev; ae_prev_log_term := prev_term;
     ae_leader_commit := commit; ae_entry_count := count; ae_pad := 0 |}.

Lemma follower_log_ok : log_ok follower.
Proof. constructor; [apply arena_new_wf | intros i t Hg; by rewrite get_term_empty in Hg]. Qed.

Lemma batch_block : entry_block 2 batch_bytes.
Proof.
  apply (entries_block batch); repeat constructor; machine; cbn; lia.
Qed.


Definition batch_items : list (EntryHeader * bytes) :=
  map (fun e => ({| eh_index := e_index e; eh_term := e_term e;
                    eh_payload_len := Z.of_nat (length (e_payload e)); eh_pad := 0 |}, e_payload e))
    batch.

Lemma append_entries_seeded_log_matching_witness :
  let headers := header_block (map fst batch_items) in
  let payloads := concat (map snd batch_items) in
  let n' := node_after (apply_append_entries_seeded (append_msg 3 2 1 4 2) headers payloads follower) in
  stored_log n' !! 2 = stored_log follower !! 2 /\
  stored_log n' !! 4 = Some (3, [to_byte 8]).
Proof.
  intros headers payloads n'.
  assert (Hin : {| e_term := 3; e_index := 4; e_payload := [to_byte 8] |} ∈
            map item_entry (raw_iter headers (Contiguous payloads))).
  { apply list_elem_of_lookup. exists 1%nat. vm_compute. reflexivity. }
  destruct (append_entries_seeded_log_matching (append_msg 3 2 1 4 2) headers payloads follower n')
    as (_ & Hes & Hlow & _).
  - exact follower_log_ok.
  - exists (map fst batch_items). split; [reflexivity|]. split; [|split; reflexivity].
    repeat constructor; vm_compute; congruence.
  - intros [|[|j]] e He; vm_compute in He; [injection He as <-; reflexivity..|discriminate].
  - vm_compute. reflexivity.
  - split; [apply Hlow; vm_compute; discriminate|].
    destruct (Hes _ Hin) as [_ He]. apply He. vm_compute. discriminate.
Defined.

Lemma handle_append_spec_witness :
  exists n1 : SampleNode,
    follows 1 {| current_term := 3; voted_for := None |} n1 /\ log_part n1 = log_part follower.
Proof.
  destruct (handle_append_spec (apply_append_entries (append_msg 3 2 1 4 2) batch_bytes) 1
    (append_msg 3 2 1 4 2) follower
    (node_after (handle_append_entries 1 (append_msg 3 2 1 4 2) batch_bytes follower)))
    as [[H _]|[_ (n1 & Hf & Hp & _)]].
  - reflexivity.
  - exact follower_log_ok.
  - vm_compute. reflexivity.
  - discriminate H.
  - exists n1. split; [exact Hf | exact Hp].
Defined.
