(* ===== verification/Walks.v ===== *)
(** * Walks: the steps the operations of a node are made of

    Every operation of the engine, with all its loops, is a sequence of a few
    kinds of moves: receiving a frame, handling a message that was received,
    stepping down, asking for votes, sending entries or a heartbeat, appending a
    batch as the leader, and calm steps, which concern neither the log nor the
    election ([LogCluster.act_walks]).  What holds of every move then holds of every
    operation: [LeaderSafety] shows that moves are safe for elections,
    [LogSafety] what they do to the log. *)

From stdpp Require Import base list sets gmap strings relations.
From Stdlib Require Import ZArith Lia.
From S2P Require Import Prelude Types Wire Codec CodecFacts Arena Progress Quorum Traits.
From S2P Require Import Membership NodeState Node Election ConfigChange Replication Commit Snapshot.
From S2P Require Import Transfer Inbound Campaign Leader Install Propose ReadIndex Frames Stability.
From S2P Require Import Durability Safety CampaignFacts ReplicationFacts.

Local Open Scope Z_scope.

(** ** Entries on the network *)

(** The position the entries of an append follow, and the entries. *)
Abbreviation Batch := (LogIndex * Term * list LogEntry)%type.

Definition batch_of (msg : RaftMessage) : option Batch :=
  match msg with
  | MAppendEntries m payload =>
      Some (ae_prev_log_index m, ae_prev_log_term m,
            entry_iter payload (Z.to_nat (ae_entry_count m)))
  | MAppendEntriesSeeded m headers payloads =>
      Some (ae_prev_log_index m, ae_prev_log_term m,
            map item_entry (raw_iter headers (Contiguous payloads)))
  | _ => None
  end.

Definition batch_in (sent_frame : PeerId * bytes) : option Batch :=
  match decode_message sent_frame.2 with
  | Ok im => batch_of (im_message im)
  | Err _ => None
  end.

Definition batches_of (frames : list (PeerId * bytes)) : list Batch := omap batch_in frames.

Lemma batches_of_app l l' : batches_of (l ++ l') = batches_of l ++ batches_of l'.
Proof. apply omap_app. Qed.

Lemma batches_of_custom frames : Forall custom_frame frames -> batches_of frames = [].
Proof.
  induction 1 as [|[p f] frames Hf _ IH]; [done|]. unfold batches_of in *. cbn.
  rewrite IH. unfold batch_in. cbn. destruct (decode_message f) as [im|] eqn:Hd; [|done].
  specialize (Hf im Hd). by destruct (im_message im).
Qed.

(** Messages that carry neither a vote nor entries. *)
Definition neutral (msg : RaftMessage) : bool :=
  match msg with
  | MRequestVoteResp _ | MAppendEntries _ _ | MAppendEntriesVectored _ _
  | MAppendEntriesSeeded _ _ _ | MAppendEntriesSeededVectored _ _ _ => false
  | _ => true
  end.

Definition not_append (msg : RaftMessage) : bool :=
  match msg with
  | MAppendEntries _ _ | MAppendEntriesVectored _ _ | MAppendEntriesSeeded _ _ _
  | MAppendEntriesSeededVectored _ _ _ => false
  | _ => true
  end.

Lemma batch_in_other peer from msg :
  not_append msg = true -> Z.of_nat (length (body_bytes msg)) <= u32_max ->
  batch_in (peer, frame_bytes from 0 msg) = None.
Proof.
  intros Hq Hfit. unfold batch_in. cbn [snd]. destruct (decode_message _) as [im|] eqn:Hd; [|done].
  apply decode_frame_inv in Hd as (_ & Hk & _); [|done]. by destruct msg, (im_message im).
Qed.

Section Calm.
Context {S T C D : Type} `{StorageLaws S} `{TransportLaws T} `{Clock C} `{!CustomDispatch D T}
  `{!DispatchLaws D T}.
Implicit Types n : RaftNode S T C D.
#[local] Abbreviation M := (M S T C D).

(** ** Calm steps *)

Definition batches n : list Batch := batches_of (sent (transport n)).
Definition saved_snapshot n := v_snap (sview (storage n)).
Definition log_view n :=
  (stored_log n, cached_last_log n, snapshot_boundary n, saved_snapshot n, batches n).

(** Everything the arguments about elections and logs look at. *)
Definition whole n := (view_role n, log_view n, log_metadata n).

(** Indexes and terms of a log fit their types. *)
Definition log_widths (log : gmap Z (Term * bytes)) : Prop :=
  forall i t, log_term log i = Some t -> is_u64 i /\ is_u64 t.

(** The log, what was sent of it and the election stay; the term cache may
    learn more of the log. *)
Definition calm n n' : Prop :=
  view_role n' = view_role n /\ log_view n' = log_view n /\
  (log_widths (stored_log n) -> log_ok n -> log_ok n').

Lemma calm_log n n' : calm n n' -> stored_log n' = stored_log n.
Proof. intros (_ & E & _). unfold log_view in E. congruence. Qed.

#[export] Instance calm_preorder : PreOrder calm.
Proof.
  split; [by intros n|]. intros n1 n2 n3 H12 (V2 & L2 & O2). pose proof (calm_log _ _ H12) as E1.
  destruct H12 as (V1 & L1 & O1). split_and!; [congruence|congruence|]. rewrite E1 in O2. auto.
Qed.

Definition calmly {A} (m : M A) : Prop := forall n, calm n (m n).2.

Lemma calm_whole n n' : whole n' = whole n -> calm n n'.
Proof.
  unfold whole. intros E. assert (El : log_view n' = log_view n) by congruence.
  assert (Ea : log_metadata n' = log_metadata n) by congruence.
  split_and!; [congruence|done|]. unfold log_view in El. injection El as El _ _ _ _.
  intros _ [Hw Hc]. split; [by rewrite Ea|by rewrite Ea, El].
Qed.

Lemma calmly_keeps {A} (m : M A) : keeps whole m -> calmly m.
Proof. intros Hm n. apply calm_whole, Hm. Qed.

Lemma calmly_bind {A B} (m : M A) (k : A -> M B) :
  calmly m -> (forall a, calmly (k a)) -> calmly (m ≫= k).
Proof.
  intros Hm Hk n. unfold mbind, M_bind. specialize (Hm n).
  destruct (m n) as [[a|e] n']; cbn in *; [|done]. etransitivity; [exact Hm|apply Hk].
Qed.

Lemma calmly_attempt {A} (m : M A) : calmly m -> calmly (attempt m).
Proof. intros Hm n. specialize (Hm n). unfold attempt. by destruct (m n). Qed.

Lemma calmly_whenM b (m : M unit) : calmly m -> calmly (whenM b m).
Proof. intros Hm. destruct b; [done|]. by intros n. Qed.

Lemma whole_reads {A} (op : S -> res A * S) P :
  reads sview op P -> keeps whole (on_storage op : M A).
Proof.
  intros Hr n. unfold on_storage. destruct (op (storage n)) as [r s] eqn:E.
  apply Hr in E as [E _].
  unfold whole, view_role, view, both, durable, log_view, stored_log, saved_snapshot. cbn.
  by rewrite E.
Qed.

Lemma whole_last : keeps whole (on_storage last_log_position : M _).
Proof. exact (whole_reads _ _ last_log_position_law). Qed.
Lemma whole_term_at i : keeps whole (on_storage (storage_term_at i) : M _).
Proof. exact (whole_reads _ _ (storage_term_at_law i)). Qed.
Lemma whole_entry_at i b : keeps whole (on_storage (entry_at i b) : M _).
Proof. exact (whole_reads _ _ (entry_at_law i b)). Qed.
Lemma whole_read_entries a b c : keeps whole (on_storage (read_entries a b c) : M _).
Proof. exact (whole_reads _ _ (read_entries_law a b c)). Qed.
Lemma whole_read_headers a b : keeps whole (on_storage (read_entry_headers a b) : M _).
Proof. exact (whole_reads _ _ (read_entry_headers_law a b)). Qed.
Lemma whole_payloads a b : keeps whole (on_storage (for_each_payload a b) : M _).
Proof. exact (whole_reads _ _ (for_each_payload_law a b)). Qed.
Lemma whole_load_meta : keeps whole (on_storage load_snapshot_meta : M _).
Proof. exact (whole_reads _ _ load_snapshot_meta_law). Qed.
Lemma whole_load : keeps whole (on_storage load_snapshot : M _).
Proof. exact (whole_reads _ _ load_snapshot_law). Qed.

(** A send that the transport takes or not: frames of no concern. *)
Lemma whole_sent n t new :
  (sent t = sent (transport n) \/ sent t = sent (transport n) ++ new) ->
  inbox t = inbox (transport n) -> votes_of new = [] -> batches_of new = [] ->
  whole (set_transport t n) = whole n.
Proof.
  intros Es Ei Hv Hb. unfold whole, view_role, view, votes, node_inbox, log_view, batches. cbn.
  rewrite Ei. destruct Es as [->| ->]; [done|].
  by rewrite votes_of_app, batches_of_app, Hv, Hb, !app_nil_r.
Qed.

Lemma neutral_frame peer from msg :
  neutral msg = true -> Z.of_nat (length (body_bytes msg)) <= u32_max ->
  votes_of [(peer, frame_bytes from 0 msg)] = [] /\ batches_of [(peer, frame_bytes from 0 msg)] = [].
Proof.
  intros Hq Hfit. unfold votes_of, batches_of. cbn [omap list_omap].
  rewrite vote_of_other, batch_in_other; [done|by destruct msg|done|by destruct msg|done].
Qed.

Lemma whole_send peer msg : neutral msg = true -> keeps whole (send_message peer msg : M _).
Proof.
  intros Hq n. unfold send_message, encode_message_vectored.
  destruct (encode_message_vectored_impl _ _ _ _) as [[[buf out]|]|] eqn:Henc; [|done|done].
  apply encode_vectored_Ok in Henc as [Hfit Hg]. unfold gather in Hg.
  destruct (send_vectored _ _ _) as [r t] eqn:Es. cbn [snd].
  apply send_vectored_law in Es as [Es Ei]. rewrite Hg in Es.
  destruct (neutral_frame peer (node_id n) (counted msg)) as [Hv Hb];
    [by destruct msg|by rewrite length_body_counted|].
  exact (whole_sent (set_scratch_outbound buf n) t _ Es Ei Hv Hb).
Qed.

Lemma whole_send_owned peer frame :
  votes_of [(peer, frame)] = [] -> batches_of [(peer, frame)] = [] ->
  keeps whole (on_transport (send_frame_owned peer frame) : M _).
Proof.
  intros Hv Hb n. unfold on_transport. destruct (send_frame_owned _ _ _) as [r t] eqn:Es. cbn [snd].
  apply send_frame_owned_law in Es as [Es Ei]. by eapply whole_sent.
Qed.
#[local] Hint Resolve whole_last whole_term_at whole_entry_at whole_read_entries whole_read_headers
  whole_payloads whole_load_meta whole_load whole_send : keeps.

Lemma whole_send_frames peers frame :
  (forall p, votes_of [(p, frame)] = [] /\ batches_of [(p, frame)] = []) ->
  keeps whole (send_frames peers frame : M Z).
Proof.
  intros Hf. induction peers as [|p peers IH]; cbn [send_frames]; [apply keeps_ret|].
  apply keeps_bind; [|intros; apply keeps_bind; [done|intros; apply keeps_ret]].
  destruct (Hf p). by apply keeps_attempt, whole_send_owned.
Qed.

Lemma whole_broadcast msg : neutral msg = true -> keeps whole (broadcast msg : M _).
Proof.
  intros Hq. unfold broadcast. apply keeps_bind; [keeps_auto|]. intros _.
  apply keeps_bind; [keeps_auto|]. intros peers n. unfold encode_frame, mbind, M_bind.
  rewrite encode_message_to_bytes_spec.
  destruct (Z.leb_spec (Z.of_nat (length (body_bytes msg))) u32_max) as [Hfit|]; [|done].
  assert (Hk : keeps whole (send_frames peers (frame_bytes (node_id n) 0 msg) : M Z)).
  { apply whole_send_frames. intros p. by apply neutral_frame. }
  specialize (Hk n). by destruct (send_frames _ _ n) as [[k|e] n1].
Qed.

(** The term cache learns the term of an index. *)
Lemma calm_learn i t n :
  log_term (stored_log n) i = Some t ->
  calm n (set_log_metadata (arena_append i t (log_metadata n)) n).
Proof.
  intros Ht. split_and!; [done|done|]. intros Hw [Ha Hc]. destruct (Hw i t Ht) as [Hi _].
  split; cbn; [by apply arena_append_wf|]. intros j u Hg.
  apply get_term_append_inv in Hg as [[-> ->]|[_ Hg]]; [done|by apply Hc|done|done].
Qed.

Lemma storage_term_read i n :
  exists s, on_storage (storage_term_at i) n = ((storage_term_at i (storage n)).1, set_storage s n) /\
    calm n (set_storage s n) /\
    forall o, (storage_term_at i (storage n)).1 = Ok o -> o = log_term (stored_log n) i.
Proof.
  pose proof (whole_term_at i n) as Hk. unfold on_storage in *.
  destruct (storage_term_at i (storage n)) as [r s] eqn:E. exists s. cbn in *.
  split; [done|]. split; [by apply calm_whole|]. intros o ->.
  apply storage_term_at_law in E as [_ E]. by apply E.
Qed.

Lemma calmly_term_at i : calmly (term_at i : M _).
Proof.
  intros n. unfold term_at. destruct (i =? 0); [done|]. rewrite bind_gets.
  destruct (_ =? _); [done|]. rewrite bind_gets. destruct (get_term _ _); [done|].
  rewrite bind_gets. destruct (_ =? _); [done|].
  destruct (storage_term_read i n) as (s & E & Hc & Ho).
  destruct (storage_term_at i (storage n)).1 as [o|e]; unfold mbind, M_bind; rewrite E; [|done].
  specialize (Ho o eq_refl). destruct o as [t|]; [|done]. cbn.
  etransitivity; [exact Hc|]. apply (calm_learn i t (set_storage s n)).
  by rewrite (calm_log _ _ Hc).
Qed.

Lemma calmly_quorum_term_at i : calmly (quorum_term_at i : M _).
Proof.
  intros n. unfold quorum_term_at. rewrite bind_gets.
  destruct (_ =? _); [done|]. rewrite bind_gets. destruct (get_term _ _); [done|].
  destruct (storage_term_read i n) as (s & E & Hc & Ho).
  destruct (storage_term_at i (storage n)).1 as [o|e]; unfold mbind, M_bind; rewrite E; [|done].
  specialize (Ho o eq_refl). destruct (Z.ltb_spec 0 (default 0 o)); [|done]. cbn.
  etransitivity; [exact Hc|]. apply (calm_learn i _ (set_storage s n)).
  rewrite (calm_log _ _ Hc), <- Ho. destruct o; [done|]. cbn in *. lia.
Qed.
End Calm.

#[export] Hint Resolve whole_last whole_term_at whole_entry_at whole_read_entries whole_read_headers
  whole_payloads whole_load_meta whole_load whole_send whole_broadcast : keeps.

Create HintDb calm discriminated.
#[export] Hint Resolve calmly_term_at calmly_quorum_term_at : calm.

(** [calmly m], by the parts of [m]. *)
Ltac calm_step :=
  first
    [ solve [auto with calm nocore]
    | apply calmly_keeps; solve [keeps_auto]
    | lazymatch goal with
      | |- calmly (mbind _ _) => apply calmly_bind; [|intros ?]
      | |- calmly (attempt _) => apply calmly_attempt
      | |- calmly (whenM _ _) => apply calmly_whenM
      | |- calmly (if ?b then _ else _) => destruct b
      | |- calmly (match ?x with _ => _ end) => destruct x
      end ].
Ltac calm_auto := repeat (calm_step; cbv beta zeta).

(** ** Moves *)

Section Walks.
Context {S T C D : Type} `{StorageLaws S} `{TransportLaws T} `{Clock C} `{!CustomDispatch D T}
  `{!DispatchLaws D T}.
Context (tuning : VecTuning).
Implicit Types n : RaftNode S T C D.
#[local] Abbreviation M := (M S T C D).
#[local] Abbreviation L := (L S T C D).

(** What is known of a proposal when it is appended. *)
Context (ok : RaftNode S T C D -> list bytes -> Prop).
Hypothesis ok_calm : forall n n' ps, calm n n' -> ok n ps -> ok n' ps.

(** A batch appended by the leader and sent to its peers. *)
Definition append_and_send (payloads : list bytes) : M (LogIndex * list LogEntry) :=
  '(last_index, entries) ← append_propose_entries payloads;
  send_initial_appends tuning entries;;
  mret (last_index, entries).

(** The frames received so far, and the node. *)
Inductive move : list bytes * RaftNode S T C D -> list bytes * RaftNode S T C D -> Prop :=
| move_calm F n n' : calm n n' -> move (F, n) (F, n')
| move_receive F n t got :
    sent t = sent (transport n) -> inbox t ⊆ inbox (transport n) ->
    got ⊆ inbox (transport n) -> move (F, n) (got ++ F, set_transport t n)
| move_inbound F n im : delivered F im -> move (F, n) (F, (handle_inbound im n).2)
| move_step_down F n t : node_term n < t -> is_u64 t -> move (F, n) (F, (step_down t n).2)
| move_start F n : node_term n < u64_max -> move (F, n) (F, (start_campaign n).2)
| move_entries F n peer : move (F, n) (F, (send_append_attempt peer n).2)
| move_heartbeat F n peer : move (F, n) (F, (send_bare_heartbeat peer n).2)
| move_propose F n payloads :
    is_leader n = true -> ok n payloads -> move (F, n) (F, (append_and_send payloads n).2)
| move_replicate F n payloads :
    is_leader n = true -> ok n payloads -> payloads <> [] ->
    move (F, n) (F, (replicate_batch_inner tuning payloads n).2).

Definition walk := rtc move.

(** [n] is reached from [w], and at least the frames [gs] were received. *)
Definition reached w (gs : list bytes) n : Prop := exists F, gs ⊆ F /\ walk w (F, n).

Lemma reached_weaken w gs gs' n : gs ⊆ gs' -> reached w gs' n -> reached w gs n.
Proof. intros Hg (F & HF & Hw). exists F. split; [set_solver|done]. Qed.

Lemma reached_step w gs n n' :
  (forall F, gs ⊆ F -> move (F, n) (F, n')) -> reached w gs n -> reached w gs n'.
Proof.
  intros Hm (F & HF & Hw). exists F. split; [done|]. eapply rtc_r; [exact Hw|by apply Hm].
Qed.

Lemma delivered_mono F F' im : F ⊆ F' -> delivered F im -> delivered F' im.
Proof. intros HF (f & Hf & Hd). exists f. split; [by apply HF|done]. Qed.

(** ** Methods *)

Definition strolls {A} (gs : list bytes) (m : M A) : Prop :=
  forall w n, reached w gs n -> reached w gs (m n).2.

Lemma strolls_bind {A B} gs (m : M A) (k : A -> M B) :
  strolls gs m -> (forall a, strolls gs (k a)) -> strolls gs (m ≫= k).
Proof.
  intros Hm Hk w n Hn. specialize (Hm w n Hn). unfold mbind, M_bind.
  destruct (m n) as [[a|e] n']; cbn in *; [by apply Hk|done].
Qed.

Lemma strolls_attempt {A} gs (m : M A) : strolls gs m -> strolls gs (attempt m).
Proof. intros Hm w n Hn. specialize (Hm w n Hn). unfold attempt. by destruct (m n). Qed.

Lemma strolls_calm {A} gs (m : M A) : calmly m -> strolls gs m.
Proof. intros Hm w n. apply reached_step. intros F _. apply move_calm, Hm. Qed.

Lemma strolls_gets {A B} gs (f : RaftNode S T C D -> A) (k : A -> M B) :
  (forall w n, reached w gs n -> reached w gs (k (f n) n).2) -> strolls gs (gets f ≫= k).
Proof. intros Hk w n. apply Hk. Qed.

Lemma strolls_inbound gs im : delivered gs im -> strolls gs (handle_inbound im).
Proof.
  intros Hd w n. apply reached_step. intros F HF. apply move_inbound. by eapply delivered_mono.
Qed.

Lemma strolls_entries gs peer : strolls gs (send_append_attempt peer).
Proof. intros w n. apply reached_step. intros F _. apply move_entries. Qed.

Lemma strolls_heartbeat gs peer : strolls gs (send_bare_heartbeat peer).
Proof. intros w n. apply reached_step. intros F _. apply move_heartbeat. Qed.

Create HintDb strolls discriminated.
#[local] Hint Resolve strolls_inbound strolls_entries strolls_heartbeat : strolls.

Ltac stroll_step :=
  first
    [ solve [eauto with strolls]
    | apply strolls_calm; solve [calm_auto]
    | lazymatch goal with
      | |- strolls _ (mbind _ _) => apply strolls_bind; [|intros ?]
      | |- strolls _ (attempt _) => apply strolls_attempt
      | |- strolls _ (whenM ?b _) => destruct b
      | |- strolls _ (if ?b then _ else _) => destruct b
      | |- strolls _ (match ?x with _ => _ end) => destruct x eqn:?
      end ].
Ltac stroll_auto := repeat (stroll_step; cbv beta zeta).

Lemma strolls_tolerant gs im : delivered gs im -> strolls gs (handle_inbound_tolerant im).
Proof. intros Hd. unfold handle_inbound_tolerant. stroll_auto. Qed.

Lemma strolls_for_each {X} gs (l : list X) (body : X -> M unit) :
  (forall x, x ∈ l -> strolls gs (body x)) -> strolls gs (for_each l body).
Proof.
  intros Hb. induction l as [|x l IH]; cbn [for_each]; [stroll_auto|].
  apply strolls_bind; [apply Hb; left|]. intros _. apply IH. intros y Hy. apply Hb. by right.
Qed.

Lemma strolls_heartbeats gs skip : strolls gs (send_bare_heartbeats_except skip).
Proof.
  unfold send_bare_heartbeats_except. stroll_auto. apply strolls_for_each. intros. stroll_auto.
Qed.

(** A message that was received gives its terms at their width. *)
Lemma delivered_term F im t : delivered F im -> message_term (im_message im) = Some t -> is_u64 t.
Proof.
  intros (f & _ & Hd) Ht. pose proof (message_term_u64 _ (decode_message_wf _ _ Hd)) as Hu.
  by rewrite Ht in Hu.
Qed.

(** The test of a term against the node's own. *)
Lemma strolls_newer {B} gs t (X Y : M B) :
  (forall w n, node_term n < t -> reached w gs n -> reached w gs (X n).2) -> strolls gs Y ->
  strolls gs (current ← gets node_term; if current <? t then X else Y).
Proof.
  intros HX HY w n Hn. rewrite bind_gets.
  destruct (Z.ltb_spec (node_term n) t); [by apply HX|by apply HY].
Qed.

Lemma reached_step_down w gs t n :
  is_u64 t -> node_term n < t -> reached w gs n -> reached w gs (step_down t n).2.
Proof. intros Hu Ht. apply reached_step. intros F _. by apply move_step_down. Qed.

Lemma strolls_adopt {B} gs t (X Y : M B) :
  is_u64 t -> strolls gs X -> strolls gs Y ->
  strolls gs (current ← gets node_term; if current <? t then step_down t;; X else Y).
Proof.
  intros Hu HX. apply strolls_newer. intros w n Ht Hn. pose proof (reached_step_down w gs t n Hu Ht Hn).
  unfold mbind, M_bind. destruct (step_down t n) as [[u|e] n1]; cbn in *; [by apply HX|done].
Qed.

Lemma strolls_count select expected gs msgs b :
  (forall m r, select m = Some r -> message_term m = Some (rvr_term r)) ->
  Forall (delivered gs) msgs -> strolls gs (count_responses select expected msgs b).
Proof.
  intros Hsel Hm. revert b. induction Hm as [|im msgs Him _ IH]; intros b; cbn [count_responses];
    [stroll_auto|].
  destruct (select (im_message im)) as [resp|] eqn:Hs; [|apply IH].
  destruct (contains _ _); [apply IH|].
  apply strolls_adopt; [by eapply delivered_term, Hsel|stroll_auto|stroll_auto].
Qed.

Lemma strolls_advance gs peer target state resp :
  is_u64 (aer_term resp) -> strolls gs (advance_append_replication peer target state resp).
Proof.
  intros Hu. unfold advance_append_replication. apply strolls_adopt; [done|stroll_auto|stroll_auto].
Qed.

Lemma strolls_response gs from resp :
  is_u64 (aer_term resp) -> strolls gs (handle_append_entries_response from resp).
Proof.
  intros Hu. unfold handle_append_entries_response. apply strolls_newer; [|stroll_auto].
  intros w n. by apply reached_step_down.
Qed.
#[local] Hint Resolve strolls_tolerant strolls_heartbeats strolls_advance strolls_response : strolls.

Lemma strolls_process gs from resp last accepted :
  is_u64 (aer_term resp) -> strolls gs (process_append_resp from resp last accepted).
Proof. intros Hu. unfold process_append_resp. stroll_auto. Qed.

Lemma strolls_decoded {B} gs f (k : InboundRaftMessage -> M B) :
  (forall im, decode_message f = Ok im -> strolls gs (k im)) ->
  strolls gs (from_res (decode_message f) ≫= k).
Proof. intros Hk. destruct (decode_message f) as [im|e]; [exact (Hk im eq_refl)|by intros w n]. Qed.

Lemma strolls_gather gs f last accepted : f ∈ gs -> strolls gs (gather_frame f last accepted).
Proof.
  intros Hf. unfold gather_frame. apply strolls_bind; [|intros; stroll_auto].
  apply strolls_attempt, strolls_decoded. intros im Hd. assert (Him : delivered gs im) by by exists f.
  destruct (im_message im) eqn:Hm; try stroll_auto.
  apply strolls_process. eapply delivered_term; [done|]. by rewrite Hm.
Qed.

Lemma strolls_confirm gs t probe msgs acks :
  Forall (delivered gs) msgs -> strolls gs (confirm_frames t probe msgs acks).
Proof.
  intros Hm. revert acks. induction Hm as [|im msgs Him _ IH]; intros acks; cbn [confirm_frames];
    stroll_auto.
Qed.
#[local] Hint Resolve strolls_gather : strolls.

(** ** Loops *)

Definition walks {A} (gs : list bytes) (m : L A) : Prop :=
  forall w n, reached w gs n -> returns m n (fun _ n' => reached w gs n').

Lemma walks_bind {A B} gs (m : L A) (k : A -> L B) :
  walks gs m -> (forall a, walks gs (k a)) -> walks gs (m ≫= k).
Proof.
  intros Hm Hk w n Hn. apply returns_bind. eapply returns_mono; [|by apply Hm].
  cbv beta. intros [a|e] n' Hn'; [by apply Hk|done].
Qed.

Lemma walks_ret {A} gs (a : A) : walks gs (mret a).
Proof. intros w n Hn. by apply returns_ret. Qed.

Lemma walks_run {A} gs (m : M A) : strolls gs m -> walks gs (run m).
Proof. intros Hm w n Hn. by apply returns_run, Hm. Qed.

Lemma walks_attempt {A} gs (m : L A) : walks gs m -> walks gs (attempt_loop m).
Proof.
  intros Hm w n Hn r n'. unfold attempt_loop.
  destruct (m n) as [[r1 n1]|] eqn:E; [|done]. intros [= <- <-]. by apply (Hm w n Hn r1).
Qed.

Lemma walks_stop {A} gs (s : Stop) : walks (A := A) gs (fun _ => Err s).
Proof. by intros w n Hn r n'. Qed.

Lemma walks_decoded {B} gs f (k : InboundRaftMessage -> L B) :
  (forall im, decode_message f = Ok im -> walks gs (k im)) ->
  walks gs (run (from_res (decode_message f)) ≫= k).
Proof.
  intros Hk w n Hn. destruct (decode_message f) as [im|e]; [by apply Hk|].
  apply returns_bind. by apply returns_run.
Qed.

(** The frames known after a receive. *)
Definition with_got (r : res (option bytes)) (gs : list bytes) : list bytes :=
  match r with Ok (Some f) => f :: gs | _ => gs end.

Definition receiving (op : M (option bytes)) : Prop :=
  forall w gs n, reached w gs n -> reached w (with_got (op n).1 gs) (op n).2.

Lemma receiving_recv timeout len : receiving (on_transport (recv_frame_timeout timeout len)).
Proof.
  intros w gs n (F & HF & Hw). unfold on_transport.
  destruct (recv_frame_timeout _ _ _) as [r t] eqn:E. cbn [fst snd].
  apply recv_frame_timeout_law in E as (Es & Ei & Ef).
  exists (with_got r [] ++ F). split.
  - unfold with_got. destruct r as [[f|]|]; set_solver.
  - eapply rtc_r; [exact Hw|]. apply move_receive; [done|done|].
    unfold with_got. destruct r as [[f|]|]; [|set_solver..]. specialize (Ef f eq_refl). set_solver.
Qed.

Lemma receiving_drain timeout len : receiving (drain_recv timeout len).
Proof.
  intros w gs n Hn. pose proof (receiving_recv timeout len w gs n Hn) as Hr. revert Hr.
  unfold drain_recv, mbind, M_bind, attempt.
  destruct (on_transport _ n) as [[o|e] n1]; cbn; [done|]. by destruct (is_fatal e).
Qed.

Lemma walks_recv {B} gs (op : M (option bytes)) (k : option bytes -> L B) :
  receiving op -> walks gs (k None) -> (forall f, walks (f :: gs) (k (Some f))) ->
  walks gs (run op ≫= k).
Proof.
  intros Hop Hnone Hsome w n Hn. apply returns_bind, returns_run. specialize (Hop w gs n Hn).
  destruct (op n) as [[[f|]|e] n1]; cbn [fst snd with_got] in *; [|by apply Hnone|done].
  eapply returns_mono; [|by apply Hsome]. intros r n'. apply reached_weaken. set_solver.
Qed.

(** Draining the inbox, then a pass over its messages. *)
Lemma drain_loop_walk fuel deadline rest_len msgs w gs n :
  reached w gs n -> Forall (delivered gs) msgs ->
  returns (drain_loop fuel deadline rest_len msgs) n (fun r n' =>
    exists gs', gs ⊆ gs' /\ reached w gs' n' /\ forall l, r = Ok l -> Forall (delivered gs') l).
Proof.
  revert rest_len msgs gs n.
  induction fuel as [|fuel IH]; intros rest_len msgs gs n Hn Hm; cbn [drain_loop]; [done|].
  assert (Hdone : forall n', reached w gs n' -> returns (mret msgs : L _) n' (fun r n' =>
    exists gs', gs ⊆ gs' /\ reached w gs' n' /\ forall l, r = Ok l -> Forall (delivered gs') l)).
  { intros n' Hn'. apply returns_ret. exists gs. split; [done|]. split; [done|]. by intros l [= <-]. }
  destruct (_ || _); [by apply Hdone|]. apply returns_bind, returns_run.
  assert (Ht : reached w gs (drain_timeout deadline (is_nil msgs) n).2).
  { apply strolls_calm; [|done]. unfold drain_timeout. calm_auto. }
  destruct (drain_timeout _ _ n) as [[[timeout|]|e] n1]; cbn [fst snd] in *;
    [|by apply Hdone|by exists gs].
  apply returns_bind, returns_run. pose proof (receiving_drain timeout rest_len w gs n1 Ht) as Hr.
  destruct (drain_recv _ _ n1) as [[[f|]|e] n2]; cbn [fst snd with_got] in *;
    [|by apply Hdone|by exists gs].
  eapply returns_mono; [|apply (IH _ _ (f :: gs)); [done|]].
  - cbv beta. intros r n' (gs' & Hg & ?). exists gs'. split; [set_solver|done].
  - assert (Hm' : Forall (delivered (f :: gs)) msgs).
    { eapply Forall_impl; [exact Hm|]. intros im. apply delivered_mono. set_solver. }
    destruct (decode_message f) as [im|] eqn:Hd; [|done].
    apply Forall_app. split; [done|]. apply Forall_singleton. exists f. split; [left|done].
Qed.

Lemma walks_drain {B} gs fuel deadline len (k : list InboundRaftMessage -> L B) :
  (forall msgs gs', gs ⊆ gs' -> Forall (delivered gs') msgs -> walks gs' (k msgs)) ->
  walks gs (drain_inbound_frames fuel deadline len ≫= k).
Proof.
  intros Hk w n Hn. apply returns_bind. eapply returns_mono; [|by apply drain_loop_walk].
  cbv beta. intros [msgs|e] n1 (gs' & Hg & Hn1 & Hm); [|by eapply reached_weaken].
  eapply returns_mono; [|apply (Hk msgs gs' Hg (Hm msgs eq_refl)); exact Hn1].
  intros r n'. by apply reached_weaken.
Qed.

Create HintDb walks discriminated.

(** Fuelled loops: the induction hypothesis closes the recursive calls. *)
Ltac walk_step :=
  lazymatch goal with
  | |- walks _ (run (drain_recv _ _) ≫= _) =>
      apply walks_recv; [apply receiving_drain| |intros ?]
  | |- walks _ (run (on_transport (recv_frame_timeout _ _)) ≫= _) =>
      apply walks_recv; [apply receiving_recv| |intros ?]
  | |- walks _ (run (from_res (decode_message _)) ≫= _) => apply walks_decoded; intros ? ?
  | |- walks _ (_ ≫= _) => apply walks_bind; [|intros ?]
  | |- walks _ (mret _) => apply walks_ret
  | |- walks _ out_of_fuel => apply walks_stop
  | |- walks _ panic => apply walks_stop
  | |- walks _ (attempt_loop _) => apply walks_attempt
  | |- walks _ (run _) => apply walks_run; solve [stroll_auto]
  | |- walks _ (if ?b then _ else _) => destruct b
  | |- walks _ (match decode_message ?f with _ => _ end) => destruct (decode_message f) eqn:?
  | |- walks _ (match ?x with _ => _ end) => destruct x
  | |- walks _ _ => solve [auto with walks]
  end.
Ltac walk_auto := repeat (walk_step; cbv beta zeta).
#[local] Hint Extern 1 (_ ∈ _ :: _) => left : strolls.
#[local] Hint Extern 1 (delivered (?f :: _) _) => exists f; split; [left|assumption] : strolls.

Lemma walks_gather_burst gs fuel needed last deadline accepted :
  walks gs (gather_burst fuel needed last deadline accepted).
Proof.
  revert gs accepted. induction fuel as [|fuel IH]; intros gs accepted; cbn [gather_burst]; walk_auto.
Qed.
#[local] Hint Resolve walks_gather_burst : walks.

Lemma walks_gather_loop gs fuel needed last deadline accepted :
  walks gs (gather_loop fuel needed last deadline accepted).
Proof.
  revert gs accepted. induction fuel as [|fuel IH]; intros gs accepted; cbn [gather_loop]; walk_auto.
Qed.

Lemma walks_drain_ready gs fuel : walks gs (drain_inbound_ready fuel).
Proof.
  revert gs. induction fuel as [|fuel IH]; intros gs; cbn [drain_inbound_ready]; walk_auto.
Qed.
#[local] Hint Resolve walks_gather_loop walks_drain_ready : walks.

(** ** Proposals *)

Lemma calm_leads n n' : calm n n' -> is_leader n' = is_leader n.
Proof.
  intros (Hv & _). unfold is_leader, view_role in *.
  assert (Hr : ss_role (soft_state n') = ss_role (soft_state n)) by congruence. by rewrite Hr.
Qed.

Lemma calmly_guard : calmly (propose_guard : M _).
Proof.
  unfold propose_guard, check_transfer_freeze, leadership_transfer_in_progress. calm_auto.
Qed.

Lemma calmly_ensure : calmly (ensure_leader_progress_initialized : M _).
Proof. unfold ensure_leader_progress_initialized, initialize_leader_progress. calm_auto. Qed.

Lemma propose_guard_leads n n' :
  propose_guard n = (Ok tt, n') -> calm n n' /\ is_leader n' = true.
Proof.
  intros E. pose proof (calmly_guard n) as Hc. rewrite E in Hc. cbn [snd] in Hc.
  split; [done|]. rewrite (calm_leads _ _ Hc). unfold propose_guard in E. rewrite bind_gets in E.
  by destruct (is_leader n).
Qed.

Lemma walks_append_and_send {B} w gs n payloads (k : LogIndex -> list LogEntry -> L B) :
  reached w gs n -> is_leader n = true -> ok n payloads -> (forall l es, walks gs (k l es)) ->
  returns ('(l, es) ← run (append_propose_entries payloads);
           run (send_initial_appends tuning es);; k l es) n (fun _ n' => reached w gs n').
Proof.
  intros Hn Hl Hok Hk.
  assert (Hr : reached w gs (append_and_send payloads n).2).
  { revert Hn. apply reached_step. intros F _. by apply move_propose. }
  apply returns_bind, returns_run. unfold append_and_send in Hr. unfold mbind at 1, M_bind at 1 in Hr.
  destruct (append_propose_entries payloads n) as [[[l es]|e] n1]; cbn [fst snd] in *; [|done].
  apply returns_bind, returns_run. unfold mbind, M_bind in Hr.
  destruct (send_initial_appends tuning es n1) as [[u|e] n2]; cbn in *; [by apply Hk|done].
Qed.

Lemma walks_propose_at fuel payloads w gs n :
  reached w gs n -> ok n payloads ->
  returns (propose_batch_once tuning fuel payloads) n (fun _ n' => reached w gs n').
Proof.
  intros Hn Hok. unfold propose_batch_once. apply returns_bind, returns_run.
  pose proof (strolls_calm gs _ calmly_guard w n Hn) as Hr1.
  destruct (propose_guard n) as [[[]|e] n1] eqn:E1; cbn [fst snd] in *; [|done].
  apply propose_guard_leads in E1 as [Hc1 Hl1].
  destruct (is_nil payloads); [by apply returns_ret|]. apply returns_bind, returns_run.
  pose proof (strolls_calm gs _ calmly_ensure w n1 Hr1) as Hr2. pose proof (calmly_ensure n1) as Hens.
  destruct (ensure_leader_progress_initialized n1) as [[u|e] n2]; cbn [fst snd] in *; [|done].
  apply walks_append_and_send; [done|by rewrite (calm_leads _ _ Hens)| |].
  - eapply ok_calm; [exact Hens|]. by eapply ok_calm.
  - intros l es. unfold gather_quorum_acks, commit_proposal, try_advance_commit_index. walk_auto.
Qed.

Lemma strolls_replicate_at payloads w gs n :
  reached w gs n -> ok n payloads -> reached w gs (replicate_batch_async tuning payloads n).2.
Proof.
  intros Hn Hok. unfold replicate_batch_async.
  pose proof (strolls_calm gs _ calmly_guard w n Hn) as Hr1.
  unfold mbind at 1, M_bind at 1. destruct (propose_guard n) as [[[]|e] n1] eqn:E1; cbn [fst snd] in *; [|done].
  apply propose_guard_leads in E1 as [Hc1 Hl1].
  assert (Hne : is_nil payloads = false -> payloads <> []) by by destruct payloads.
  destruct (is_nil payloads); [done|].
  pose proof (strolls_calm gs _ calmly_ensure w n1 Hr1) as Hr2. pose proof (calmly_ensure n1) as Hens.
  unfold mbind, M_bind. destruct (ensure_leader_progress_initialized n1) as [[u|e] n2]; cbn [fst snd] in *; [|done].
  revert Hr2. apply reached_step. intros F _.
  apply move_replicate; [by rewrite (calm_leads _ _ Hens)| |by apply Hne].
  eapply ok_calm; [exact Hens|]. by eapply ok_calm.
Qed.

(** ** Snapshot installs *)

Lemma walks_newer {B} gs t (X Y : L B) :
  is_u64 t -> walks gs X -> walks gs Y ->
  walks gs (current ← run (gets node_term);
            if current <? t then run (step_down t);; X else Y).
Proof.
  intros Hu HX HY w n Hn. apply returns_gets.
  destruct (Z.ltb_spec (node_term n) t) as [Hlt|_]; [|by apply HY].
  apply returns_bind, returns_run. pose proof (reached_step_down w gs t n Hu Hlt Hn) as Hn1.
  destruct (step_down t n) as [[u|e] n1]; cbn [fst snd] in *; [by apply HX|done].
Qed.

Lemma walks_await fuel :
  (forall gs peer st total off rounds mr timeout fin,
     walks gs (await_install_reply fuel peer st total off rounds mr timeout fin)) /\
  (forall gs peer st total off rounds mr timeout fin im, delivered gs im ->
     walks gs (other_frame fuel peer st total off rounds mr timeout fin im)).
Proof.
  induction fuel as [|fuel [IHa IHo]]; split; intros; cbn [await_install_reply other_frame];
    [apply walks_stop|apply walks_stop| |].
  - apply walks_recv; [apply receiving_recv|walk_auto|]. intros f. apply walks_decoded. intros im Hd.
    assert (Him : delivered (f :: gs) im) by (exists f; split; [left|done]).
    destruct (im_message im) eqn:Hm; try by apply IHo.
    destruct (_ =? _); [|by apply IHo].
    apply walks_newer; [|walk_auto|walk_auto]. eapply delivered_term; [done|]. by rewrite Hm.
  - walk_auto.
Qed.

Lemma walks_await_reply gs fuel peer st total off rounds mr timeout fin :
  walks gs (await_install_reply fuel peer st total off rounds mr timeout fin).
Proof. apply walks_await. Qed.
#[local] Hint Resolve walks_await_reply : walks.

Lemma walks_install_loop gs fuel peer meta snap st off hb rounds :
  walks gs (install_loop fuel peer meta snap st off hb rounds).
Proof.
  revert off hb rounds. induction fuel as [|fuel IH]; intros; cbn [install_loop]; walk_auto.
Qed.
#[local] Hint Resolve walks_install_loop : walks.

Lemma walks_maybe_install gs fuel peer :
  walks gs (maybe_install_snapshot_to_lagging_peer fuel peer).
Proof.
  unfold maybe_install_snapshot_to_lagging_peer, install_snapshot_once, spend_attempt, put_attempts.
  walk_auto.
Qed.
#[local] Hint Resolve walks_maybe_install : walks.

(** ** Heartbeats, reads and transfers *)

Lemma walks_heartbeat_peer gs fuel last_log escalated peer :
  walks gs (heartbeat_peer fuel last_log escalated peer).
Proof. unfold heartbeat_peer, escalate_once, escalate_snapshot_catchup. walk_auto. Qed.
#[local] Hint Resolve walks_heartbeat_peer : walks.

Lemma walks_heartbeat_indices gs fuel last_log idx escalated :
  walks gs (heartbeat_indices fuel last_log idx escalated).
Proof. revert escalated. induction idx; intros; cbn [heartbeat_indices]; walk_auto. Qed.
#[local] Hint Resolve walks_heartbeat_indices : walks.

Lemma walks_heartbeat gs fuel : walks gs (send_heartbeat_once fuel).
Proof.
  unfold send_heartbeat_once, ensure_leader_progress_initialized, initialize_leader_progress. walk_auto.
Qed.
#[local] Hint Resolve walks_heartbeat : walks.

Lemma walks_confirm_loop gs fuel t probe deadline next len acks :
  walks gs (confirm_loop fuel t probe deadline next len acks).
Proof.
  revert gs next acks. induction fuel as [|fuel IH]; intros gs next acks; cbn [confirm_loop];
    [apply walks_stop|].
  walk_step; [walk_auto|]. destruct a; [walk_auto|].
  walk_step; [walk_auto|]. destruct a; [walk_auto|].
  walk_step; [walk_auto|]. destruct (_ <=? _); [walk_auto|].
  walk_step; [walk_auto|]. walk_step; [destruct (_ <=? _); walk_auto|].
  apply walks_drain. intros msgs gs' _ Hm. apply walks_bind; [|intros acks'; apply IH].
  by apply walks_run, strolls_confirm.
Qed.
#[local] Hint Resolve walks_confirm_loop : walks.

Lemma walks_read_index_at fuel len w gs n :
  reached w gs n -> ok n [noop_entry] ->
  returns (read_index tuning fuel len) n (fun _ n' => reached w gs n').
Proof.
  intros Hn Hok. unfold read_index. apply returns_bind, returns_run.
  pose proof (strolls_calm gs _ calmly_guard w n Hn) as Hr1.
  destruct (propose_guard n) as [[[]|e] n1] eqn:E1; cbn [fst snd] in *; [|done].
  apply propose_guard_leads in E1 as [Hc1 _]. do 2 apply returns_gets.
  assert (Hcom : calmly (commit_of_term (node_term n1) : M _)).
  { unfold commit_of_term. calm_auto. }
  apply returns_bind, returns_run.
  pose proof (strolls_calm gs _ Hcom w n1 Hr1) as Hr2. specialize (Hcom n1).
  destruct (commit_of_term _ n1) as [[[]|e] n2]; cbn [fst snd negb] in *; [| |done].
  - assert (Hq : walks gs (confirm_leadership_quorum fuel (node_term n1) len;; mret (commit_index n1))).
    { unfold confirm_leadership_quorum. walk_auto. }
    by apply Hq.
  - unfold propose_once. apply returns_bind, returns_bind.
    eapply returns_mono; [|apply walks_propose_at; [done|]].
    + cbv beta. intros [l|e] n3 Hn3; [|done]. destruct l; [by apply returns_run|].
      apply returns_ret. by apply returns_run.
    + eapply ok_calm; [exact Hcom|]. by eapply ok_calm.
Qed.

Lemma walks_catch_up_loop gs fuel target t deadline next last len :
  walks gs (catch_up_loop fuel target t deadline next last len).
Proof.
  revert gs next last. induction fuel as [|fuel IH]; intros gs next last; cbn [catch_up_loop];
    [apply walks_stop|].
  walk_step; [walk_auto|]. destruct a; [walk_auto|].
  walk_step; [walk_auto|]. destruct a; [walk_auto|].
  walk_step; [walk_auto|]. destruct (_ <=? _); [walk_auto|].
  walk_step; [unfold catch_up_probe; walk_auto|]. destruct a0 as [next' last'].
  apply walks_drain. intros msgs gs' _ Hm. apply walks_bind; [|intros []; apply IH].
  apply walks_run, strolls_for_each. intros im Him. apply strolls_tolerant.
  rewrite Forall_forall in Hm. by apply Hm.
Qed.
#[local] Hint Resolve walks_catch_up_loop : walks.

Lemma walks_transfer gs fuel target len : walks gs (transfer_leadership fuel target len).
Proof.
  unfold transfer_leadership, sanction, ensure_leader_progress_initialized,
    initialize_leader_progress. walk_auto.
Qed.

(** ** Elections *)

Lemma strolls_requests gs select msgs (handle : InboundRaftMessage -> M unit) :
  (forall im, delivered gs im -> strolls gs (handle im)) -> Forall (delivered gs) msgs ->
  strolls gs (for_each (requests select msgs) handle).
Proof.
  intros Hh Hm. apply strolls_for_each. intros im Him. apply Hh.
  apply (Forall_requests select) in Hm. rewrite Forall_forall in Hm. by apply Hm.
Qed.

Lemma walks_collect_loop gs fuel term possible deadline len b :
  walks gs (collect_loop fuel term possible deadline len b).
Proof.
  revert gs b. induction fuel as [|fuel IH]; intros gs b; cbn [collect_loop]; [apply walks_stop|].
  walk_step; [walk_auto|]. destruct (_ || _); [apply walks_ret|].
  apply walks_drain. intros msgs gs' _ Hm. destruct (is_nil msgs); [walk_auto|].
  apply walks_bind; [apply walks_run, strolls_count; [apply select_vote_term|done]|].
  intros [b'|]; [|apply walks_ret]. walk_step; [walk_auto|]. destruct a0; [apply walks_ret|].
  apply walks_bind; [apply walks_run, strolls_requests; [apply strolls_tolerant|done]|].
  intros []. walk_auto.
Qed.
#[local] Hint Resolve walks_collect_loop : walks.

Lemma walks_collect_votes gs fuel term possible len :
  walks gs (collect_votes fuel term possible len).
Proof. unfold collect_votes. walk_auto. Qed.

Lemma walks_pre_vote_loop gs fuel term possible deadline len b :
  walks gs (pre_vote_loop fuel term possible deadline len b).
Proof.
  revert gs b. induction fuel as [|fuel IH]; intros gs b; cbn [pre_vote_loop]; [apply walks_stop|].
  walk_step; [walk_auto|]. destruct (_ || _); [apply walks_ret|].
  apply walks_drain. intros msgs gs' _ Hm. destruct (is_nil msgs); [apply walks_ret|].
  apply walks_bind; [apply walks_run, strolls_count; [apply select_pre_vote_term|done]|].
  intros [b'|]; [|apply walks_ret]. walk_step; [walk_auto|]. destruct a0; [apply walks_ret|].
  apply walks_bind; [apply walks_run, strolls_requests; [apply strolls_inbound|done]|].
  intros []. walk_auto.
Qed.
#[local] Hint Resolve walks_pre_vote_loop : walks.

Lemma walks_pre_vote gs fuel len : walks gs (campaign_pre_vote fuel len).
Proof. unfold campaign_pre_vote. walk_auto. Qed.

(** A campaign walks up to the moment the node takes office. *)
Lemma walks_campaign fuel len w gs n :
  reached w gs n -> node_term n < u64_max ->
  returns (campaign_once fuel len) n (fun r n' =>
    reached w gs n' \/ r = Ok true /\ exists n0, reached w gs n0 /\ n' = (become_leader n0).2).
Proof.
  intros Hn Ht. unfold campaign_once. apply returns_gets.
  destruct (negb _); [apply returns_ret; by left|]. apply returns_bind, returns_run.
  assert (Hr1 : reached w gs (start_campaign n).2).
  { revert Hn. apply reached_step. intros F _. by apply move_start. }
  destruct (start_campaign n) as [[term|e] n1]; cbn [fst snd] in *; [|by left].
  unfold run_election. apply returns_gets, returns_bind, returns_run.
  pose proof (strolls_calm gs _ (calmly_keeps _ whole_last) w n1 Hr1) as Hr2.
  destruct (on_storage last_log_position n1) as [[last|e] n2]; cbn [fst snd] in *; [|by left].
  apply returns_gets, returns_bind, returns_run. unfold broadcast_request_vote.
  match goal with |- context [broadcast ?msg n2] =>
    pose proof (strolls_calm gs _ (calmly_keeps _ (whole_broadcast msg eq_refl)) w n2 Hr2) as Hr3 end.
  destruct (broadcast _ n2) as [[possible|e] n3]; cbn [fst snd] in *; [|by left].
  destruct (_ <? _); [apply returns_run; by left|].
  apply returns_bind. eapply returns_mono; [|by apply walks_collect_votes].
  cbv beta. intros [won|e] n4 Hr4; [|by left].
  destruct (negb won); [apply returns_ret; by left|].
  apply returns_gets. destruct (negb _); [apply returns_ret; by left|].
  apply returns_bind, returns_run. destruct (become_leader_infallible n4) as (u & n5 & E5). rewrite E5.
  apply returns_ret. right. split; [done|]. exists n4. by rewrite E5.
Qed.

(** ** Receiving *)

Lemma strolls_handle_once gs len : strolls gs (handle_once len).
Proof.
  intros w n (F & HF & Hw). unfold handle_once, mbind, M_bind, on_transport.
  destruct (recv_frame len (transport n)) as [r t] eqn:E.
  apply recv_frame_law in E as (Es & Ei & Ef). set (got := match r with Ok f => [f] | Err _ => [] end).
  assert (Hr : reached w (got ++ gs) (set_transport t n)).
  { exists (got ++ F). split; [set_solver|]. eapply rtc_r; [exact Hw|]. apply move_receive; [done|done|].
    unfold got. destruct r as [f|]; [|set_solver]. specialize (Ef f eq_refl). set_solver. }
  apply (reached_weaken _ _ (got ++ gs)); [set_solver|]. destruct r as [f|e]; [|done].
  unfold from_res. destruct (decode_message f) as [im|e] eqn:Hd; [|done].
  apply strolls_inbound; [|done]. exists f. split; [left|done].
Qed.
End Walks.
