(* ===== verification/AppendFrames.v ===== *)
(** * AppendFrames: the entries a sent append carries

    The frames a leader sends decode to the position and the entries it put into
    them, for both forms of the message; fields that do not concern the log are
    taken at their width. *)

From stdpp Require Import base list sets gmap strings.
From Stdlib Require Import ZArith Lia.
From S2P Require Import Prelude Types Wire Codec CodecFacts Traits Safety ReplicationFacts Walks.

Local Open Scope Z_scope.

Lemma le_bytes_inj w a b :
  0 <= a < 2 ^ (Z.of_nat w * 8) -> 0 <= b < 2 ^ (Z.of_nat w * 8) -> le_bytes w a = le_bytes w b -> a = b.
Proof. intros Ha Hb E. by rewrite <- (le_value_bytes w a), E, le_value_bytes. Qed.

(** The fields of two requests with the same bytes. *)
Lemma request_bytes_inj m m' :
  as_bytes m = as_bytes (A := AppendEntries) m' -> wire_wf m ->
  is_u64 (ae_prev_log_index m') -> is_u64 (ae_prev_log_term m') ->
  0 <= ae_entry_count m' < 2 ^ 32 ->
  ae_prev_log_index m = ae_prev_log_index m' /\ ae_prev_log_term m = ae_prev_log_term m' /\
  ae_entry_count m = ae_entry_count m'.
Proof.
  unfold as_bytes. cbn [layout to_fields AppendEntries_wire encode_fields].
  intros E [Hw _] Hi Ht Hc. cbn [layout to_fields AppendEntries_wire] in Hw.
  do 5 (apply app_inj_1 in E as [? E]; [|by rewrite !length_le_bytes]).
  apply app_inj_1 in E as [? E]; [|by rewrite !length_le_bytes].
  repeat match goal with H : Forall2 _ (_ :: _) _ |- _ => inversion_clear H end.
  unfold in_width in *. machine.
  split_and!; (eapply le_bytes_inj; [| |eassumption]); try assumption; cbn; lia.
Qed.

(** Entries as headers and payloads. *)
Definition entry_items (es : list LogEntry) : list (EntryHeader * bytes) :=
  map (fun e => (entry_header e, e_payload e)) es.

Lemma entry_items_ok es : Forall entry_wf es -> payloads_fit es -> Forall item_ok (entry_items es).
Proof.
  intros Hw Hf. apply Forall_map, Forall_forall. intros e He.
  pose proof (proj1 (Forall_forall _ _) Hw e He) as [Ht Hi].
  pose proof (proj1 (Forall_forall _ _) Hf e He) as Hp. cbn beta in Hp.
  split; [|done]. split; [|done]. cbn. wire_fields; done || lia.
Qed.

Lemma entry_items_entries es : map item_entry (entry_items es) = es.
Proof. induction es as [|[] es IH]; [done|]. cbn. unfold entry_items in IH. by rewrite IH. Qed.

Lemma entry_iter_bytes es :
  Forall entry_wf es -> payloads_fit es ->
  entry_iter (concat (map entry_bytes es)) (length es) = es.
Proof.
  intros Hw Hf. pose proof (entry_iter_block _ (entry_items_ok es Hw Hf)) as E.
  unfold entry_items, block_bytes in E.
  rewrite length_map, !map_map in E. unfold item_bytes in E. cbn [fst snd] in E.
  unfold entry_bytes. rewrite E. clear. induction es as [|[] es IH]; [done|]. cbn. by rewrite IH.
Qed.

(** The copying form. *)
Lemma batch_of_entries from m es im :
  Z.of_nat (length (body_bytes (MAppendEntriesVectored m es))) <= u32_max ->
  Forall entry_wf es -> is_u64 (ae_prev_log_index m) -> is_u64 (ae_prev_log_term m) ->
  decode_message (frame_bytes from 0 (counted (MAppendEntriesVectored m es))) = Ok im ->
  batch_of (im_message im) = Some (ae_prev_log_index m, ae_prev_log_term m, es).
Proof.
  intros Hfit Hw Hi Ht Hd. pose proof (length_entries_le es) as Hle. assert (wire_size EntryHeader = 24)%nat as Hsz by done.
  assert (Hp : payloads_fit es).
  { cbn [body_bytes] in Hfit. rewrite length_app in Hfit. by eapply payloads_fit_intro. }
  apply decode_frame_inv in Hd as (_ & Hk & Hb & Hwf & Hf); [|by rewrite length_body_counted].
  destruct (im_message im) as [| | | |m' p'| | | | | | | | | ]; try done. cbn [counted body_bytes] in Hb.
  apply app_inj_1 in Hb as [Hm ->]; [|by rewrite !length_as_bytes].
  destruct Hwf as [Hwf _]. cbn [body_bytes] in Hfit. rewrite length_app in Hfit.
  apply request_bytes_inj in Hm as (E1 & E2 & E3); [|done..|cbn; unfold u32_max in *; lia].
  cbn [ae_prev_log_index ae_prev_log_term ae_entry_count] in *. cbn [batch_of].
  by rewrite E1, E2, E3, Nat2Z.id, entry_iter_bytes.
Qed.

(** The form with the headers apart: a frame whose payloads have the length the
    headers announce. *)
Lemma batch_of_seeded from m items ps im :
  let msg := MAppendEntriesSeededVectored m (header_block (map fst items)) ps in
  Z.of_nat (length (body_bytes msg)) <= u32_max -> Forall item_ok items ->
  (length (concat ps) = length (concat (map snd items)) -> concat ps = concat (map snd items)) ->
  is_u64 (ae_prev_log_index m) -> is_u64 (ae_prev_log_term m) ->
  ae_entry_count m = Z.of_nat (length items) ->
  decode_message (frame_bytes from 0 msg) = Ok im ->
  batch_of (im_message im) = Some (ae_prev_log_index m, ae_prev_log_term m, map item_entry items).
Proof.
  intros msg Hfit Hok Hps Hi Ht Hc Hd.
  apply decode_frame_inv in Hd as (_ & Hk & Hb & Hwf & Hf); [|done].
  destruct (im_message im) as [| | | | | |m' h' p'| | | | | | | ]; try done. cbn [body_bytes msg] in Hb.
  apply app_inj_1 in Hb as [Hm Hb]; [|by rewrite !length_as_bytes].
  destruct Hwf as [Hwf Hs]. cbn [body_bytes msg] in Hfit.
  rewrite !length_app, length_header_block, length_map in Hfit.
  assert (wire_size EntryHeader = 24)%nat as Hsz by done.
  apply request_bytes_inj in Hm as (E1 & E2 & E3); [|done..|rewrite Hc; unfold u32_max in *; lia].
  destruct Hs as (hs & Hl & Hhs & Hh & Hlen).
  assert (Hl' : length hs = length (map fst items)) by (rewrite Hl, E3, Hc, Nat2Z.id, length_map; done).
  apply app_inj_1 in Hb as [Eh ->]; [|by rewrite Hh, !length_header_block, Hl'].
  assert (Hw : Forall wire_wf (map fst items))
    by (apply Forall_map; eapply Forall_impl; [exact Hok|by intros i []]).
  assert (hs = map fst items) as ->.
  { rewrite <- (headers_of_block hs), <- (headers_of_block (map fst items)) by done.
    by rewrite Hl', <- Eh, Hh. }
  rewrite declared_len_items in Hlen by done. subst h'.
  cbn [batch_of]. by rewrite E1, E2, Hps, raw_iter_of_items by (done || lia).
Qed.

(** Two runs of the same sequence, of the same length in bytes. *)
Lemma runs_concat (f : nat -> option bytes) ps qs :
  (forall j p, ps !! j = Some p -> f j = Some p) -> (forall j p, qs !! j = Some p -> f j = Some p) ->
  length (concat ps) = length (concat qs) -> concat ps = concat qs.
Proof.
  revert f qs. induction ps as [|p ps IH]; intros f [|q qs] Hp Hq Hl; cbn in Hl.
  - done.
  - symmetry. by apply length_zero_iff_nil.
  - by apply length_zero_iff_nil.
  - assert (p = q) as <-.
    { pose proof (Hp 0%nat p eq_refl). pose proof (Hq 0%nat q eq_refl). congruence. }
    cbn. f_equal. rewrite !length_app in Hl.
    apply (IH (fun j => f (S j))); [by intros j; apply (Hp (S j))|by intros j; apply (Hq (S j))|lia].
Qed.
