(* ===== verification/Chains.v ===== *)
(** * Chains: logs that share a history

    The reasoning about logs alone behind Log Matching.  A history gives every
    entry that was ever created, by index and term, its payload and the term of
    the entry before it.  A log is chained to a history when each of its entries
    is there with the entry before it; logs chained to one history agree below
    every entry they have in common ([chained_match]), and a log stays chained
    when it is cut, when a batch that continues it is appended and when its
    leader creates new entries. *)

From stdpp Require Import base list sets gmap strings.
From Stdlib Require Import ZArith Lia.
From S2P Require Import Prelude Types Wire Codec CodecFacts Traits ReplicationFacts Walks.

Local Open Scope Z_scope.

Abbreviation Log := (gmap Z (Term * bytes)).

(** Index and term of an entry, to its payload and the term before it. *)
Abbreviation History := (gmap (LogIndex * Term) (bytes * Term)).

(** ** Logs without gaps *)

(** The term before index [i]: 0 at the start of the log. *)
Definition before (log : Log) (i : LogIndex) : option Term :=
  if i =? 1 then Some 0 else log_term log (i - 1).

Definition solid (log : Log) : Prop :=
  forall i, is_Some (log !! i) -> 1 <= i /\ (i = 1 \/ is_Some (log !! (i - 1))).

Definition tip_of (log : Log) (tip : LogIndex * Term) : Prop :=
  (log = ∅ /\ tip = (0, 0)) \/ is_last log tip.

Lemma before_next log i : 1 <= i -> before log (i + 1) = log_term log i.
Proof.
  intros Hi. unfold before. destruct (Z.eqb_spec (i + 1) 1); [lia|]. by replace (i + 1 - 1) with i by lia.
Qed.

Lemma log_term_Some log i t : log_term log i = Some t -> is_Some (log !! i).
Proof. unfold log_term. destruct (log !! i); [eauto|done]. Qed.

Lemma solid_below log i j : solid log -> is_Some (log !! i) -> 1 <= j <= i -> is_Some (log !! j).
Proof.
  intros Hs Hi Hj. remember (Z.to_nat (i - j)) as d eqn:Hd. revert i Hi Hj Hd.
  induction d as [|d IH]; intros i Hi Hj Hd; [by replace j with i by lia|].
  destruct (Hs i Hi) as [_ [->|Hp]]; [lia|]. apply (IH (i - 1)); [done|lia|lia].
Qed.

Lemma solid_above log i j : solid log -> 1 <= i -> log !! i = None -> i <= j -> log !! j = None.
Proof.
  intros Hs Hi Hn Hj. destruct (log !! j) eqn:E; [|done].
  destruct (solid_below log j i Hs) as [x Hx]; [eauto|lia|congruence].
Qed.

Lemma tip_fun log tip tip' : tip_of log tip -> tip_of log tip' -> tip = tip'.
Proof.
  intros [[-> ->]|[Ht Hl]] [[E ->]|[Ht' Hl']]; [done|by unfold log_term in Ht'; rewrite lookup_empty in Ht'
    |subst; by unfold log_term in Ht; rewrite lookup_empty in Ht|].
  destruct tip as [i t], tip' as [i' t']. cbn in *.
  assert (i = i') as <-
    by (apply Z.le_antisymm; [eapply Hl', log_term_Some, Ht|eapply Hl, log_term_Some, Ht']).
  congruence.
Qed.

Lemma tip_above log tip i : tip_of log tip -> tip.1 < i -> log !! i = None.
Proof.
  intros [[-> ->]|[_ Hl]] Hi; [apply lookup_empty|]. destruct (log !! i) eqn:E; [|done].
  assert (i <= tip.1) by eauto. lia.
Qed.

Lemma tip_below log tip i : solid log -> tip_of log tip -> 1 <= i <= tip.1 -> is_Some (log !! i).
Proof.
  intros Hs [[-> ->]|[Ht _]] Hi; [cbn in Hi; lia|].
  apply (solid_below _ tip.1); [done|by eapply log_term_Some|done].
Qed.

Lemma tip_before log tip : solid log -> tip_of log tip -> 0 <= tip.1 /\ before log (tip.1 + 1) = Some tip.2.
Proof.
  intros Hs [[-> ->]|[Ht _]]; [done|]. destruct (Hs _ (log_term_Some _ _ _ Ht)) as [Hi _].
  split; [lia|by rewrite before_next].
Qed.

(** A known term before an index is 0 at the start, or in the log. *)
Lemma before_inv log p t :
  0 <= p -> before log (p + 1) = Some t -> (p = 0 /\ t = 0) \/ (1 <= p /\ log_term log p = Some t).
Proof.
  intros Hp. destruct (Z.eq_dec p 0) as [->|Hne]; [intros [= <-]; auto|].
  rewrite before_next by lia. intros E. right. split; [lia|done].
Qed.

(** ** Histories *)

(** The entries [es], the first after an entry of term [pt], are recorded. *)
Fixpoint linked (G : History) (pt : Term) (es : list LogEntry) : Prop :=
  match es with
  | [] => True
  | e :: es' => G !! (e_index e, e_term e) = Some (e_payload e, pt) /\ linked G (e_term e) es'
  end.

Definition chained (G : History) (log : Log) : Prop :=
  forall i t p, log !! i = Some (t, p) ->
    1 <= i /\ exists t', G !! (i, t) = Some (p, t') /\ before log i = Some t'.

(** A batch that can continue a log. *)
Definition valid (G : History) (b : Batch) : Prop :=
  let '(p, pt, es) := b in
  0 <= p /\ (p = 0 -> pt = 0) /\ consecutive (p + 1) es /\ linked G pt es.

(** A batch read from a log. *)
Definition reflects (log : Log) (b : Batch) : Prop :=
  let '(p, pt, es) := b in
  0 <= p /\ before log (p + 1) = Some pt /\ consecutive (p + 1) es /\
  Forall (fun e => log !! e_index e = Some (e_term e, e_payload e)) es.

Lemma chained_solid G log : chained G log -> solid log.
Proof.
  intros Hc i [[t p] Hi]. destruct (Hc i t p Hi) as (H1 & t' & _ & Hb). split; [done|].
  unfold before in Hb. destruct (Z.eqb_spec i 1); [by left|right]. by eapply log_term_Some.
Qed.

Lemma chained_empty G : chained G ∅.
Proof. intros i t p Hi. by rewrite lookup_empty in Hi. Qed.

Lemma widths_empty : log_widths ∅.
Proof. intros i t Ht. unfold log_term in Ht. by rewrite lookup_empty in Ht. Qed.

(** Logs of one history agree up to every entry they share. *)
Lemma chained_match G l1 l2 i t :
  chained G l1 -> chained G l2 -> log_term l1 i = Some t -> log_term l2 i = Some t ->
  forall j, j <= i -> l1 !! j = l2 !! j.
Proof.
  intros H1 H2 E1 E2 j Hj.
  assert (Hlow : forall l, chained G l -> j < 1 -> l !! j = None).
  { intros l Hl Hlt. destruct (l !! j) as [[u p]|] eqn:E; [|done]. apply Hl in E as [? _]. lia. }
  destruct (Z.lt_ge_cases j 1) as [Hlt|Hge]; [by rewrite !Hlow|].
  remember (Z.to_nat (i - j)) as d eqn:Hd. revert i t E1 E2 Hj Hd.
  induction d as [|d IH]; intros i t E1 E2 Hj Hd; unfold log_term in E1, E2;
    apply fmap_Some in E1 as ([t1 p1] & E1 & ->); apply fmap_Some in E2 as ([t2 p2] & E2 & Et);
    cbn in Et; subst t2; destruct (H1 _ _ _ E1) as (_ & q1 & G1 & B1);
    destruct (H2 _ _ _ E2) as (_ & q2 & G2 & B2); rewrite G1 in G2; injection G2 as <- <-.
  - replace j with i by lia. by rewrite E1, E2.
  - replace i with (i - 1 + 1) in B1, B2 by lia. rewrite before_next in B1, B2 by lia.
    apply (IH (i - 1) q1); [done|done|lia|lia].
Qed.

Lemma linked_mono G G' pt es : G ⊆ G' -> linked G pt es -> linked G' pt es.
Proof.
  intros HG. revert pt. induction es as [|e es IH]; intros pt; [done|]. cbn. intros [He Hl].
  split; [by eapply lookup_weaken|by apply IH].
Qed.

Lemma chained_mono G G' log : G ⊆ G' -> chained G log -> chained G' log.
Proof.
  intros HG Hc i t p Hi. destruct (Hc i t p Hi) as (H1 & t' & Ht & Hb). split; [done|].
  exists t'. split; [by eapply lookup_weaken|done].
Qed.

Lemma valid_mono G G' b : G ⊆ G' -> valid G b -> valid G' b.
Proof. intros HG. destruct b as [[p pt] es]. intros (? & ? & ? & ?). split_and!; eauto using linked_mono. Qed.

Lemma reflects_valid G log b : chained G log -> reflects log b -> valid G b.
Proof.
  intros Hc. destruct b as [[p pt] es]. intros (Hp & Hb & Hcons & Hes).
  split_and!; [done| |done|].
  { intros ->. by injection Hb. }
  revert p pt Hp Hb Hcons. induction Hes as [|e es He _ IH]; intros p pt Hp Hb Hcons; [done|].
  apply consecutive_cons in Hcons as [Ei Hcons]. cbn. rewrite Ei in *.
  destruct (Hc _ _ _ He) as (_ & t' & Ht & Hb'). rewrite Hb in Hb'. injection Hb' as <-.
  split; [done|]. apply (IH (p + 1)); [lia| |done]. rewrite before_next by lia.
  unfold log_term. by rewrite He.
Qed.

(** ** Changes of a log *)

Lemma chained_truncate G log i : chained G log -> chained G (log_truncate i log).
Proof.
  intros Hc j t p. rewrite log_truncate_lookup. destruct (Z.ltb_spec j i) as [Hlt|]; [|done].
  intros Hj. destruct (Hc j t p Hj) as (H1 & t' & Ht & Hb). split; [done|]. exists t'. split; [done|].
  unfold before in *. destruct (j =? 1); [done|]. rewrite log_term_truncate.
  by rewrite (proj2 (Z.ltb_lt (j - 1) i)) by lia.
Qed.

Lemma chained_insert G log e pt :
  chained G log -> 1 <= e_index e -> (forall i, e_index e <= i -> log !! i = None) ->
  before log (e_index e) = Some pt -> G !! (e_index e, e_term e) = Some (e_payload e, pt) ->
  chained G (log_insert log e).
Proof.
  intros Hc He Hn Hb HG i t p. unfold log_insert.
  assert (Hbef : forall j, j <= e_index e ->
            before (<[e_index e := (e_term e, e_payload e)]> log) j = before log j).
  { intros j Hj. unfold before, log_term. by rewrite lookup_insert_ne by lia. }
  intros [[<- [= <- <-]]|[Hne Hi]]%lookup_insert_Some.
  - split; [done|]. exists pt. by rewrite Hbef.
  - destruct (Hc i t p Hi) as (H1 & t' & Ht & Hb'). split; [done|]. exists t'. split; [done|].
    rewrite Hbef; [done|]. destruct (Z.lt_ge_cases (e_index e) i); [|lia]. rewrite Hn in Hi by lia. done.
Qed.

Lemma chained_append G log start pt es :
  chained G log -> 1 <= start -> (forall i, start <= i -> log !! i = None) ->
  before log start = Some pt -> consecutive start es -> linked G pt es ->
  chained G (log_append es log).
Proof.
  revert log start pt. induction es as [|e es IH]; intros log start pt Hc H1 Hn Hb Hcons Hl; [done|].
  apply consecutive_cons in Hcons as [Ei Hcons]. cbn in Hl. destruct Hl as [HG Hl].
  apply (IH (log_insert log e) (start + 1) (e_term e)); [|lia| | |done|done].
  - apply (chained_insert G log e pt); [done|lia| |by rewrite Ei|done]. intros i Hi. apply Hn. lia.
  - intros i Hi. unfold log_insert. rewrite lookup_insert_ne by lia. apply Hn. lia.
  - rewrite before_next by done. unfold log_term, log_insert. by rewrite Ei, lookup_insert_eq.
Qed.

(** The part of a batch after the entries the log has already. *)
Lemma linked_matched G log k p pt es :
  0 <= p -> before log (p + 1) = Some pt -> consecutive (p + 1) es -> linked G pt es ->
  (forall j e, (j < k)%nat -> es !! j = Some e -> log_term log (e_index e) = Some (e_term e)) ->
  (k <= length es)%nat ->
  exists pt', before log (p + 1 + Z.of_nat k) = Some pt' /\ linked G pt' (drop k es).
Proof.
  revert p pt es. induction k as [|k IH]; intros p pt es Hp Hb Hcons Hl Hm Hk.
  { exists pt. by rewrite Z.add_0_r. }
  destruct es as [|e es]; [cbn in Hk; lia|]. apply consecutive_cons in Hcons as [Ei Hcons].
  destruct Hl as [_ Hl]. cbn [drop]. replace (p + 1 + Z.of_nat (S k)) with (p + 1 + 1 + Z.of_nat k) by lia.
  apply (IH (p + 1) (e_term e)); [lia| |done|done| |cbn in Hk; lia].
  - rewrite before_next, <- Ei by lia. by apply (Hm 0%nat); [lia|].
  - intros j e' Hj He'. apply (Hm (S j)); [lia|done].
Qed.

(** The log cut where the batch departs from it. *)
Lemma scanned_spec log e :
  solid log -> 1 <= e_index e ->
  (forall i, i < e_index e -> scanned_log (Some e) log !! i = log !! i) /\
  (forall i, e_index e <= i -> scanned_log (Some e) log !! i = None).
Proof.
  intros Hs He. cbn [scanned_log]. destruct (log_term log (e_index e)) as [t|] eqn:Hl.
  - split; intros i Hi; rewrite log_truncate_lookup; destruct (Z.ltb_spec i (e_index e)); done || lia.
  - split; [done|]. intros i Hi. apply (solid_above _ (e_index e)); [done|done| |done].
    unfold log_term in Hl. by destruct (log !! e_index e).
Qed.

Lemma chained_scanned G log e : chained G log -> chained G (scanned_log (Some e) log).
Proof. intros Hc. cbn. destruct (log_term _ _); [by apply chained_truncate|done]. Qed.

Lemma before_agree l l' i : (forall j, j < i -> l' !! j = l !! j) -> before l' i = before l i.
Proof. intros Hj. unfold before, log_term. by rewrite Hj by lia. Qed.

Lemma solid_truncate log i : solid log -> solid (log_truncate i log).
Proof.
  intros Hs j. rewrite !log_truncate_lookup. destruct (Z.ltb_spec j i); [|by intros []].
  rewrite (proj2 (Z.ltb_lt (j - 1) i)) by lia. apply Hs.
Qed.

Lemma solid_append log start es :
  solid log -> 1 <= start -> (start = 1 \/ is_Some (log !! (start - 1))) -> consecutive start es ->
  solid (log_append es log).
Proof.
  revert log start. induction es as [|e es IH]; intros log start Hs H1 Hp Hcons; [done|].
  apply consecutive_cons in Hcons as [Ei Hcons]. apply (IH (log_insert log e) (start + 1)); [|lia| |done].
  - intros i Hi. unfold log_insert in *. rewrite Ei in *. rewrite !lookup_insert_is_Some'.
    apply lookup_insert_is_Some' in Hi as [<-|Hi]; [|destruct (Hs i Hi) as [? [?|?]]; auto].
    split; [done|]. destruct Hp; auto.
  - right. unfold log_insert. rewrite Ei. replace (start + 1 - 1) with start by lia.
    rewrite lookup_insert_eq. eauto.
Qed.

Lemma widths_truncate log i : log_widths log -> log_widths (log_truncate i log).
Proof. intros Hw j t. rewrite log_term_truncate. destruct (j <? i); [apply Hw|done]. Qed.

Lemma widths_append log es : log_widths log -> Forall entry_wf es -> log_widths (log_append es log).
Proof.
  intros Hw Hes. revert log Hw. induction Hes as [|e es [Ht Hi] _ IH]; intros log Hw; [done|].
  apply (IH (log_insert log e)). intros i t. unfold log_term, log_insert.
  destruct (decide (e_index e = i)) as [<-|Hne].
  - rewrite lookup_insert_eq. by intros [= <-].
  - rewrite lookup_insert_ne by done. apply Hw.
Qed.

(** The entry before the first one the log does not have. *)
Lemma matched_before log p pt es k :
  0 <= p -> before log (p + 1) = Some pt -> consecutive (p + 1) es -> (k <= length es)%nat ->
  (forall j e, (j < k)%nat -> es !! j = Some e -> log_term log (e_index e) = Some (e_term e)) ->
  p + 1 + Z.of_nat k = 1 \/ is_Some (log !! (p + 1 + Z.of_nat k - 1)).
Proof.
  intros Hp Hb Hcons Hk Hm. destruct k as [|k].
  - apply before_inv in Hb as [[-> _]|[_ E]]; [by left| |done]. right.
    replace (p + 1 + Z.of_nat 0 - 1) with p by lia. by eapply log_term_Some.
  - right. destruct (lookup_lt_is_Some_2 es k) as [e He]; [lia|].
    pose proof (Hm k e ltac:(lia) He) as E. rewrite (Hcons _ _ He) in E.
    replace (p + 1 + Z.of_nat (S k) - 1) with (p + 1 + Z.of_nat k) by lia. by eapply log_term_Some.
Qed.

(** What a follower makes of its log when it is sent the batch [b]. *)
Inductive follow (b : Batch) (log : Log) : Log -> Prop :=
| follow_same : follow b log log
| follow_cut i : follow b log (log_truncate i log)
| follow_take k e :
    before log (b.1.1 + 1) = Some b.1.2 ->
    (forall j e', (j < k)%nat -> b.2 !! j = Some e' -> log_term log (e_index e') = Some (e_term e')) ->
    b.2 !! k = Some e ->
    follow b log (log_append (drop k b.2) (scanned_log (Some e) log)).

(** A follower that takes a batch. *)
Lemma chained_accept G log p pt es k e :
  chained G log -> valid G (p, pt, es) -> before log (p + 1) = Some pt ->
  (forall j e', (j < k)%nat -> es !! j = Some e' -> log_term log (e_index e') = Some (e_term e')) ->
  es !! k = Some e ->
  chained G (log_append (drop k es) (scanned_log (Some e) log)).
Proof.
  intros Hc (Hp & _ & Hcons & Hl) Hb Hm Hk. pose proof (Hcons k e Hk) as Ei.
  pose proof (lookup_lt_Some _ _ _ Hk).
  destruct (linked_matched G log k p pt es) as (pt' & Hb' & Hl'); [done..|lia|].
  destruct (scanned_spec log e) as [Hlow Hhigh]; [by eapply chained_solid|lia|].
  apply (chained_append G _ (p + 1 + Z.of_nat k) pt'); [by apply chained_scanned|lia| | |by apply consecutive_drop|done].
  - intros i Hi. apply Hhigh. lia.
  - rewrite <- Hb'. apply before_agree. intros j Hj. apply Hlow. lia.
Qed.

Lemma chained_follow G b log log' :
  chained G log -> valid G b -> follow b log log' -> chained G log'.
Proof.
  intros Hc Hb. destruct b as [[p pt] es]. destruct 1; [done|by apply chained_truncate|].
  by eapply chained_accept.
Qed.

(** The last entry of an append is the tip. *)
Lemma append_tip log start es e :
  (forall i, start <= i -> log !! i = None) -> consecutive start es -> last es = Some e ->
  is_last (log_append es log) (e_index e, e_term e).
Proof.
  intros Hn Hcons He. pose proof (last_Some_elem_of _ _ He) as Hin.
  split; cbn [fst snd].
  - unfold log_term. by rewrite log_append_lookup by (done || by eapply consecutive_NoDup).
  - intros i [x Hi]. rewrite last_lookup in He. pose proof (Hcons _ _ He) as Ei.
    apply lookup_lt_Some in He.
    destruct (decide (i ∈ map e_index es)) as [(e' & -> & Hin')%list_elem_of_fmap|Hno].
    + pose proof (consecutive_bounds _ _ _ Hcons Hin'). lia.
    + rewrite log_term_append_other in Hi by done.
      destruct (Z.lt_ge_cases i start); [lia|]. rewrite Hn in Hi by lia. done.
Qed.

(** ** New entries *)

(** The history with the entries [es], the first after one of term [pt]. *)
Fixpoint record_entries (pt : Term) (es : list LogEntry) (G : History) : History :=
  match es with
  | [] => G
  | e :: es' =>
      record_entries (e_term e) es' (<[(e_index e, e_term e) := (e_payload e, pt)]> G)
  end.

(** Entries of one term above everything of that term in the history. *)
Lemma record_spec t start es pt G :
  consecutive start es -> Forall (fun e => e_term e = t) es ->
  (forall i, is_Some (G !! (i, t)) -> i < start) ->
  let G' := record_entries pt es G in
  G ⊆ G' /\ linked G' pt es /\
  (forall k, G' !! k <> G !! k -> k.2 = t /\ start <= k.1 < start + Z.of_nat (length es)).
Proof.
  intros Hcons Ht. revert start pt G Hcons.
  induction Ht as [|e es <- _ IH]; intros start pt G Hcons Hfresh; [done|]. cbn [record_entries].
  apply consecutive_cons in Hcons as [Ei Hcons].
  set (G1 := <[(e_index e, e_term e) := (e_payload e, pt)]> G).
  assert (Hnew : G !! (e_index e, e_term e) = None).
  { destruct (G !! (e_index e, e_term e)) eqn:E; [|done]. assert (e_index e < start) by eauto. lia. }
  destruct (IH (start + 1) (e_term e) G1 Hcons) as (Hsub & Hl & Hdiff).
  { intros i Hi. unfold G1 in Hi. apply lookup_insert_is_Some in Hi as [[= <-]|[_ Hi]]; [lia|].
    apply Hfresh in Hi. lia. }
  assert (HG1 : G ⊆ G1) by by apply insert_subseteq.
  split_and!; [by etransitivity|split; [|done]|].
  - eapply lookup_weaken; [|exact Hsub]. apply lookup_insert_eq.
  - intros k Hk. cbn [length]. destruct (decide (k = (e_index e, e_term e))) as [->|Hne].
    + cbn. lia.
    + destruct (Hdiff k) as [? ?]; [unfold G1; by rewrite lookup_insert_ne by done|]. lia.
Qed.
