(* ===== verification/LeaderSafety.v ===== *)
(** * LeaderSafety: every move is safe for elections

    Each of the moves the operations of a node are made of ([Walks]) is a safe
    step in the sense of [Safety], so the operations of candidates and leaders
    keep a node on course ([CampaignFacts]), whatever they send, read, append
    and handle while they wait. *)

From stdpp Require Import base list sets gmap strings relations.
From Stdlib Require Import ZArith Lia.
From S2P Require Import Prelude Types Wire Codec CodecFacts Arena Progress Quorum Traits.
From S2P Require Import Membership NodeState Node Election ConfigChange Replication Commit Snapshot.
From S2P Require Import Transfer Inbound Campaign Leader Install Propose ReadIndex Frames Stability.
From S2P Require Import Durability Safety CampaignFacts Walks.

Local Open Scope Z_scope.

Section LeaderSafety.
Context {S T C D : Type} `{StorageLaws S} `{!HardStateIntegrity S} `{TransportLaws T} `{Clock C}
  `{!CustomDispatch D T} `{!DispatchLaws D T} `{!Lapsed}.
Implicit Types n : RaftNode S T C D.
#[local] Abbreviation M := (M S T C D).
#[local] Abbreviation L := (L S T C D).

(** ** Methods that keep the view *)

Lemma keeps_view_read_entries a b c : keeps view_role (on_storage (read_entries a b c) : M _).
Proof. exact (keeps_view_reads _ _ (read_entries_law a b c)). Qed.
Lemma keeps_view_read_headers a b : keeps view_role (on_storage (read_entry_headers a b) : M _).
Proof. exact (keeps_view_reads _ _ (read_entry_headers_law a b)). Qed.
Lemma keeps_view_payloads a b : keeps view_role (on_storage (for_each_payload a b) : M _).
Proof. exact (keeps_view_reads _ _ (for_each_payload_law a b)). Qed.
#[local] Hint Resolve keeps_view_read_entries keeps_view_read_headers keeps_view_payloads
  keeps_view_progress : keeps.

Lemma keeps_view_node_term_at i : keeps view_role (term_at i : M _).
Proof. unfold term_at. keeps_auto. Qed.
#[local] Hint Resolve keeps_view_node_term_at : keeps.

Lemma keeps_view_ensure : keeps view_role (ensure_leader_progress_initialized : M _).
Proof. unfold ensure_leader_progress_initialized. keeps_auto. Qed.

Lemma keeps_view_prev peer : keeps view_role (append_prev_for_peer peer : M _).
Proof. unfold append_prev_for_peer. keeps_auto. Qed.
#[local] Hint Resolve keeps_view_ensure keeps_view_prev : keeps.

Lemma keeps_view_send_append peer : keeps view_role (send_append_attempt peer : M _).
Proof. unfold send_append_attempt, send_entries_seeded, send_entries_read. keeps_auto. Qed.

Lemma keeps_view_bare_heartbeat peer : keeps view_role (send_bare_heartbeat peer : M _).
Proof. unfold send_bare_heartbeat, build_heartbeat_wire. keeps_auto. Qed.
Lemma keeps_view_append_propose payloads : keeps view_role (append_propose_entries payloads : M _).
Proof. unfold append_propose_entries. keeps_auto. Qed.

#[local] Hint Resolve keeps_view_append_propose : keeps.

(** ** The fan-out of a proposal *)

Lemma keeps_view_send_vectored peer slices :
  (forall p, vote_of (p, concat slices) = None) ->
  keeps view_role (on_transport (send_vectored peer slices) : M _).
Proof.
  intros Hv n. unfold on_transport. destruct (send_vectored _ _ _) as [r t] eqn:E. cbn [snd].
  apply send_vectored_law in E as [Es Ei].
  assert (Ev : votes_of (sent t) = votes_of (sent (transport n))).
  { destruct Es as [->| ->]; [done|]. rewrite votes_of_app. cbn [votes_of omap list_omap].
    by rewrite Hv, app_nil_r. }
  unfold view_role, view, votes, node_inbox. cbn. by rewrite Ev, Ei.
Qed.

Lemma keeps_view_send_owned peer frame :
  (forall p, vote_of (p, frame) = None) ->
  keeps view_role (on_transport (send_frame_owned peer frame) : M _).
Proof.
  intros Hv n. pose proof (keeps_view_send_frames [peer] frame Hv n) as Hk. revert Hk.
  cbn [send_frames]. unfold mbind, M_bind, attempt.
  by destruct (on_transport (send_frame_owned peer frame) n).
Qed.

Lemma keeps_view_send_each (send : PeerId -> M unit) peers :
  (forall p, keeps view_role (send p)) -> keeps view_role (send_each send peers).
Proof. intros Hs. induction peers as [|p ps IH]; cbn [send_each]; keeps_auto. Qed.

Lemma keeps_view_fan_out tuning msg entries :
  not_vote msg = true -> keeps view_role (fan_out tuning msg entries : M _).
Proof.
  intros Hq. unfold fan_out. apply keeps_bind; [apply keeps_gets|]. intros peers.
  destruct (should_use_vectored tuning entries); intros n; unfold mbind, M_bind.
  - unfold encode_vectored, encode_message_vectored.
    destruct (encode_message_vectored_impl _ _ _ _) as [[[buf out]|]|] eqn:E; [|done|done].
    apply encode_vectored_Ok in E as [Hfit Hg]. unfold gather in Hg.
    etransitivity; [apply keeps_view_send_each; intros p; apply keeps_view_send_vectored|done].
    intros q. rewrite Hg. apply vote_of_other; [by destruct msg|by rewrite length_body_counted].
  - unfold encode_frame. rewrite encode_message_to_bytes_spec.
    destruct (Z.leb_spec (Z.of_nat (length (body_bytes msg))) u32_max) as [Hfit|]; [|done].
    apply keeps_view_send_each. intros p. apply keeps_view_send_owned. intros q.
    by apply vote_of_other.
Qed.
#[local] Hint Resolve keeps_view_fan_out : keeps.

Lemma keeps_view_initial tuning entries : keeps view_role (send_initial_appends tuning entries : M _).
Proof. unfold send_initial_appends. keeps_auto. Qed.

#[local] Hint Resolve keeps_view_initial : keeps.

(** ** Moves *)

Context (tuning : VecTuning) (ok : RaftNode S T C D -> list bytes -> Prop).
#[local] Abbreviation move := (move tuning ok).
#[local] Abbreviation walk := (walk tuning ok).

Lemma safe_receive n t :
  sent t = sent (transport n) -> inbox t ⊆ inbox (transport n) -> safe_step n (set_transport t n).
Proof.
  intros Es Ei. split; [done|reflexivity|reflexivity|done|done| |done].
  exists []. rewrite app_nil_r. split; [|apply cast_nil].
  unfold votes. cbn. by rewrite Es.
Qed.

Lemma calm_safe n n' : calm n n' -> safe_step n n'.
Proof.
  intros Hc. pose proof (calm_leads _ _ Hc) as El. destruct Hc as (Hv & _). unfold view_role in Hv.
  apply safe_same_view; [congruence|by rewrite El].
Qed.

Lemma move_safe F n F' n' :
  move (F, n) (F', n') -> sane n -> (forall im, delivered F im -> honest im) -> safe_step n n'.
Proof.
  intros Hm Hw Hh.
  inversion Hm as [? ? ? Hc|? ? ? ? Es Ei Eg|? ? ? Hd|? ? ? Ht Hu|? ? Ht|? ? p|? ? p
    |? ? ps Hl _|? ? ps Hl _ _]; subst.
  - by apply calm_safe.
  - by apply safe_receive.
  - by apply safe_handle_inbound; [apply Hh|].
  - by apply safe_step_down.
  - by apply safe_start_campaign.
  - by apply safe_keeps; [apply keeps_view_send_append|].
  - by apply safe_keeps; [apply keeps_view_bare_heartbeat|].
  - apply safe_keeps; [|done]. unfold append_and_send. keeps_auto.
  - apply safe_keeps; [|done]. unfold replicate_batch_inner, note_appended. keeps_auto.
Qed.

Lemma move_frames F n F' n' : move (F, n) (F', n') -> F' ⊆ F ++ node_inbox n.
Proof. intros Hm. inversion Hm; subst; unfold node_inbox; set_solver. Qed.

Lemma walk_course I n0 F n F' n' :
  on_course I n0 n -> F ⊆ I -> walk (F, n) (F', n') -> on_course I n0 n' /\ F' ⊆ I.
Proof.
  intros Hc HF Hw. remember (F, n) as x eqn:Ex. remember (F', n') as y eqn:Ey.
  revert F n F' n' Ex Ey Hc HF. induction Hw as [x|x [F1 n1] z Hm _ IH]; intros F n F' n' -> Ey Hc HF.
  { by injection Ey as -> ->. }
  assert (Hh : forall im, delivered F im -> honest im).
  { intros im Him. apply Hc. by eapply delivered_mono. }
  apply (IH F1 n1 F' n' eq_refl Ey).
  - eapply on_course_step; [done|]. eapply move_safe; [exact Hm|apply Hc|done].
  - pose proof (move_frames _ _ _ _ Hm). pose proof (proj1 (proj2 (proj2 Hc))). set_solver.
Qed.

Lemma reached_course I n0 gs n n' :
  on_course I n0 n -> gs ⊆ I -> reached tuning ok (gs, n) gs n' -> on_course I n0 n'.
Proof. intros Hc Hg (F & _ & Hw). by eapply walk_course in Hw as [? _]. Qed.
End LeaderSafety.

(** ** Operations *)

Section Operations.
Context {S T C D : Type} `{StorageLaws S} `{!HardStateIntegrity S} `{TransportLaws T} `{Clock C}
  `{!CustomDispatch D T} `{!DispatchLaws D T} `{!Lapsed}.
Implicit Types n : RaftNode S T C D.

Lemma reached_refl tuning (ok : RaftNode S T C D -> list bytes -> Prop) gs n :
  reached tuning ok (gs, n) gs n.
Proof. by exists gs. Qed.

Lemma strolls_course {A} (m : M S T C D A) I n0 n :
  strolls VecTuning_default (fun _ _ => True) I m -> on_course I n0 n -> on_course I n0 (m n).2.
Proof. intros Hm Hc. eapply reached_course; [exact Hc|reflexivity|]. apply Hm, reached_refl. Qed.

(** The loop [m] keeps a node on course. *)
Definition courses {A} (m : L S T C D A) : Prop :=
  forall I n0 n, on_course I n0 n -> returns m n (fun _ n' => on_course I n0 n').

Lemma walks_courses {A} tuning (m : L S T C D A) :
  walks tuning (fun _ _ => True) [] m -> courses m.
Proof.
  intros Hm I n0 n Hc. eapply returns_mono; [|apply (Hm ([], n)); apply reached_refl].
  cbv beta. intros r n'. by apply reached_course; [|apply list_subseteq_nil].
Qed.

Lemma courses_then {A B} (m : L S T C D A) (b : B) : courses m -> courses (m;; mret b).
Proof.
  intros Hm I n0 n Hc. apply returns_bind. eapply returns_mono; [|by apply Hm].
  cbv beta. intros [a|e] n' Hn'; [by apply returns_ret|done].
Qed.

Lemma courses_heartbeat fuel : courses (send_heartbeat_once fuel).
Proof. apply (walks_courses VecTuning_default). by apply walks_heartbeat. Qed.

Lemma courses_pre_vote fuel len : courses (campaign_pre_vote fuel len).
Proof. apply (walks_courses VecTuning_default). by apply walks_pre_vote. Qed.

Lemma courses_transfer fuel target len : courses (transfer_leadership fuel target len).
Proof. apply (walks_courses VecTuning_default). by apply walks_transfer. Qed.

Lemma courses_propose_batch tuning fuel payloads :
  courses (propose_batch_once tuning fuel payloads).
Proof. apply (walks_courses tuning). intros w n Hn. by apply walks_propose_at. Qed.

Lemma courses_replicate tuning payloads : courses (run (replicate_batch_async tuning payloads)).
Proof.
  apply (walks_courses tuning), walks_run. intros w n Hn. by apply strolls_replicate_at.
Qed.

Lemma courses_read_index tuning fuel len : courses (read_index tuning fuel len).
Proof. apply (walks_courses tuning). intros w n Hn. by apply walks_read_index_at. Qed.

Lemma courses_demote : courses (run demote_to_follower_keep_term).
Proof.
  intros I n0 n Hc. apply returns_run. destruct (demote_ok n) as (_ & Hv & Hr).
  eapply on_course_step; [exact Hc|]. apply safe_same_view; [done|]. unfold is_leader. by rewrite Hr.
Qed.

Lemma courses_receive len : courses (run (handle_once len)).
Proof. apply (walks_courses VecTuning_default), walks_run. by apply strolls_handle_once. Qed.
End Operations.
