(* ===== verification/LogSafety.v ===== *)
(** * LogSafety: what the moves of a node do to its log

    A leader sends what its log holds, a follower takes only batches that
    continue its log, and only a leader creates entries, of its own term and
    above its tip.  Every move of [Walks] therefore keeps a node sound for a
    history of all entries ([Chains]), which grows only by the entries a leader
    creates ([walk_sound]). *)

From stdpp Require Import base list sets gmap strings relations.
From Stdlib Require Import ZArith Lia.
From S2P Require Import Prelude Types Wire Codec CodecFacts Arena Progress Quorum Traits.
From S2P Require Import Membership NodeState Node Election ConfigChange Replication Commit Snapshot.
From S2P Require Import Transfer Inbound Campaign Leader Install Propose ReadIndex Frames Stability.
From S2P Require Import Durability Safety CampaignFacts ReplicationFacts Walks AppendFrames Chains.
From S2P Require Import LeaderSafety.

Local Open Scope Z_scope.

(** What the log of a node relies on of the reads of its storage, beside the
    contract of [StorageLaws]: reads of a log without gaps return a run of entries
    from the index asked for, headers and payloads in step, and the last position
    of an empty log is [(0, 0)]. *)
Class OrderedReads (S : Type) `{StorageLaws S} := {
  read_entries_run from to buf s es s' :
    solid (v_log (sview s)) -> read_entries from to buf s = (Ok es, s') ->
    consecutive (Z.max from 1) es;
  read_entry_headers_run from to s hs s' :
    solid (v_log (sview s)) -> read_entry_headers from to s = (Ok (Some hs), s') ->
    Forall wire_wf hs /\
    forall j h, hs !! j = Some h -> eh_index h = Z.max from 1 + Z.of_nat j /\
      exists p, v_log (sview s) !! eh_index h = Some (eh_term h, p) /\
                eh_payload_len h = Z.of_nat (length p);
  for_each_payload_run from to s ps s' :
    solid (v_log (sview s)) -> for_each_payload from to s = (Ok ps, s') ->
    forall j p, ps !! j = Some p -> snd <$> v_log (sview s) !! (Z.max from 1 + Z.of_nat j) = Some p;
  last_log_position_empty s p s' :
    last_log_position s = (Ok p, s') -> v_log (sview s) = ∅ -> p = (0, 0);
}.

(** A log without faults: writes that fail change nothing, and the last position
    can always be read.  No storage is assumed to be like that; [Monitor] makes one
    of any storage, which keeps a record of the faults. *)
Class FaultlessLog (S : Type) `{StorageLaws S} := {
  append_entries_atomic es s e s' :
    append_entries es s = (Err e, s') -> sview s' = sview s;
  append_entries_seeded_atomic hs ps s e s' :
    append_entries_seeded hs ps s = (Err e, s') -> sview s' = sview s;
  truncate_suffix_atomic i s e s' :
    truncate_suffix i s = (Err e, s') -> sview s' = sview s;
  last_log_position_ok s : exists p s', last_log_position s = (Ok p, s');
}.

Section LogSafety.
Context {S T C D : Type} `{StorageLaws S} `{!OrderedReads S} `{!FaultlessLog S}
  `{!ReliableHardState S} `{TransportLaws T} `{Clock C} `{!CustomDispatch D T} `{!DispatchLaws D T}
  `{!Lapsed}.
Implicit Types n : RaftNode S T C D.
#[local] Abbreviation M := (M S T C D).

Lemma last_log_position_total s :
  exists p s', last_log_position s = (Ok p, s') /\ (v_log (sview s) = ∅ -> p = (0, 0)).
Proof.
  destruct (last_log_position_ok s) as (p & s' & E). exists p, s'. split; [done|].
  by eapply last_log_position_empty.
Qed.

(** ** Quiet steps *)

Definition positions n := (stored_log n, cached_last_log n, snapshot_boundary n, saved_snapshot n).
Definition log_state n := (positions n, batches n, log_metadata n).

(** The node's bookkeeping agrees with its log, which starts at index 1. *)
Record coherent n : Prop := {
  co_ok : log_ok n;
  co_widths : log_widths (stored_log n);
  co_solid : solid (stored_log n);
  co_tip : tip_of (stored_log n) (cached_last_log n);
  co_boundary : (snapshot_boundary n).1 = 0;
  co_snapshot : saved_snapshot n = None;
}.

(** The log stays; what is sent of it is what it holds. *)
Definition quiet n n' : Prop :=
  coherent n ->
  positions n' = positions n /\ log_ok n' /\
  exists new, batches n' = batches n ++ new /\ Forall (reflects (stored_log n)) new.

Lemma positions_log n n' : positions n' = positions n -> stored_log n' = stored_log n.
Proof. unfold positions. congruence. Qed.

Lemma state_positions n n' : log_state n' = log_state n -> positions n' = positions n.
Proof. unfold log_state. congruence. Qed.

Lemma quiet_coherent n n' : quiet n n' -> coherent n -> coherent n'.
Proof.
  intros Hq Hc. destruct (Hq Hc) as (E & Hok & _). pose proof (positions_log _ _ E) as El.
  unfold positions in E. assert (Et : cached_last_log n' = cached_last_log n) by congruence.
  assert (Eb : snapshot_boundary n' = snapshot_boundary n) by congruence.
  destruct Hc. split; rewrite ?El, ?Et, ?Eb; try done. congruence.
Qed.

#[export] Instance quiet_preorder : PreOrder quiet.
Proof.
  split.
  - intros n Hc. split; [done|]. split; [apply Hc|]. exists []. by rewrite app_nil_r.
  - intros n1 n2 n3 H12 H23 Hc. pose proof (quiet_coherent _ _ H12 Hc) as Hc2.
    destruct (H12 Hc) as (E12 & _ & new & B12 & F12), (H23 Hc2) as (E23 & O3 & new' & B23 & F23).
    split; [congruence|]. split; [done|]. exists (new ++ new'). split.
    + by rewrite B23, B12, app_assoc.
    + apply Forall_app. split; [done|]. by rewrite (positions_log _ _ E12) in F23.
Qed.

Lemma state_quiet n n' : log_state n' = log_state n -> quiet n n'.
Proof.
  unfold log_state. intros E Hc. assert (Ep : positions n' = positions n) by congruence.
  assert (Ea : log_metadata n' = log_metadata n) by congruence.
  split; [done|]. split.
  - destruct (co_ok _ Hc) as [Hw Ho]. split; [by rewrite Ea|]. by rewrite Ea, (positions_log _ _ Ep).
  - exists []. rewrite app_nil_r. split; [congruence|done].
Qed.

Lemma calm_quiet n n' : calm n n' -> quiet n n'.
Proof.
  intros (_ & E & Ho) Hc. unfold log_view in E. split; [unfold positions; congruence|].
  split; [apply Ho; apply Hc|]. exists []. rewrite app_nil_r. split; [congruence|done].
Qed.

(** [m] is quiet at [n], and its result is [Q]. *)
Definition tells {A} (Q : A -> Prop) (m : M A) n : Prop :=
  coherent n -> quiet n (m n).2 /\ forall a, (m n).1 = Ok a -> Q a.

Lemma tells_bind {A B} (Q : A -> Prop) (R : B -> Prop) (m : M A) (k : A -> M B) n :
  tells Q m n ->
  (forall a n', positions n' = positions n -> coherent n' -> Q a -> tells R (k a) n') ->
  tells R (m ≫= k) n.
Proof.
  intros Hm Hk Hc. destruct (Hm Hc) as [Hq Ha]. unfold mbind, M_bind.
  destruct (m n) as [[a|e] n']; cbn in *; [|by split].
  pose proof (quiet_coherent _ _ Hq Hc) as Hc'.
  destruct (Hk a n' (proj1 (Hq Hc)) Hc' (Ha a eq_refl) Hc') as [Hq' Hb].
  split; [by etransitivity|done].
Qed.

Lemma tells_ret {A} (Q : A -> Prop) a n : Q a -> tells Q (mret a) n.
Proof. intros HQ _. split; [done|]. by intros ? [= <-]. Qed.

Lemma tells_err {A} (Q : A -> Prop) e n : tells Q (err e) n.
Proof. intros _. by split. Qed.

Lemma tells_calmly {A} (m : M A) n : calmly m -> tells (fun _ => True) m n.
Proof. intros Hm _. split; [by apply calm_quiet|done]. Qed.

Lemma tells_gets {A B} (R : B -> Prop) (f : RaftNode S T C D -> A) (k : A -> M B) n :
  tells R (k (f n)) n -> tells R (gets f ≫= k) n.
Proof. done. Qed.

Lemma tells_modify {B} (R : B -> Prop) f (k : unit -> M B) n :
  log_state (f n) = log_state n -> tells R (k tt) (f n) -> tells R (modify f ≫= k) n.
Proof.
  intros E Hk Hc. pose proof (state_quiet _ _ E) as Hq.
  destruct (Hk (quiet_coherent _ _ Hq Hc)) as [Hq' Hb]. split; [by etransitivity|done].
Qed.

Lemma tells_attempt {A} (Q : A -> Prop) (m : M A) n :
  tells Q m n -> tells (fun r => forall a, r = Ok a -> Q a) (attempt m) n.
Proof.
  intros Hm Hc. destruct (Hm Hc) as [Hq Ha]. unfold attempt. destruct (m n) as [r n']; cbn in *.
  split; [done|]. by intros ? [= <-].
Qed.

Lemma tells_weaken {A} (Q R : A -> Prop) (m : M A) n :
  (forall a, Q a -> R a) -> tells Q m n -> tells R m n.
Proof. intros HQ Hm Hc. destruct (Hm Hc) as [Hq Ha]. split; [done|]. eauto. Qed.

(** A read of the storage. *)
Lemma tells_read {A} (op : S -> res A * S) P (Q : A -> Prop) n :
  reads sview op P ->
  (forall a s', coherent n -> op (storage n) = (Ok a, s') -> P (sview (storage n)) a -> Q a) ->
  tells Q (on_storage op) n.
Proof.
  intros Hr HQ Hc. pose proof (whole_reads (T := T) (C := C) (D := D) op P Hr n) as Hk.
  split; [by apply calm_quiet, calm_whole|]. intros a. unfold on_storage in *.
  destruct (op (storage n)) as [r s'] eqn:E. cbn. intros ->. apply (HQ a s'); [done|done|].
  apply Hr in E as [_ HP]. by apply HP.
Qed.

(** ** Reading the log *)

(** The term before index [i + 1]. *)
Lemma tells_term_at i n :
  0 <= i -> tells (fun t => before (stored_log n) (i + 1) = Some t) (term_at i : M _) n.
Proof.
  intros Hi Hc. split; [by apply calm_quiet, calmly_term_at|]. intros t. unfold term_at.
  destruct (Z.eqb_spec i 0) as [->|Hne]; [by intros [= <-]|]. rewrite before_next by lia.
  destruct (co_ok _ Hc) as [_ Hco]. rewrite bind_gets.
  destruct (Z.eqb_spec i (cached_last_log n).1) as [->|_].
  { intros [= <-]. destruct (co_tip _ Hc) as [[_ E]|[E _]]; [by rewrite E in Hne|done]. }
  rewrite bind_gets. destruct (get_term _ _) as [u|] eqn:Hg; [intros [= <-]; by apply Hco|].
  rewrite bind_gets. destruct (Z.eqb_spec i (snapshot_boundary n).1) as [E|_].
  { rewrite (co_boundary _ Hc) in E. done. }
  destruct (storage_term_read (T := T) (C := C) (D := D) i n) as (s & E & _ & Ho).
  unfold mbind, M_bind. rewrite E. destruct (storage_term_at i (storage n)).1 as [o|e]; [|done].
  rewrite <- (Ho o eq_refl). destruct o; [by intros [= <-]|done].
Qed.

(** The previous position of a peer, and the index its entries are read from. *)
Lemma tells_prev peer n :
  tells (fun r => let '(p, pt, next) := r in
           0 <= p /\ p + 1 = Z.max next 1 /\ before (stored_log n) (p + 1) = Some pt)
    (append_prev_for_peer peer : M _) n.
Proof.
  unfold append_prev_for_peer. apply tells_gets. destruct (pm_get peer _) as [pr|]; [|apply tells_err].
  assert (Hp : 0 <= sat_sub (next_index pr) 1) by (unfold sat_sub; lia).
  eapply tells_bind; [by apply tells_term_at|]. intros pt n' _ _ Hb. apply tells_ret.
  split; [done|]. split; [unfold sat_sub; lia|done].
Qed.

Lemma before_u64 n p pt :
  coherent n -> 0 <= p -> before (stored_log n) (p + 1) = Some pt -> is_u64 p /\ is_u64 pt.
Proof.
  intros Hc Hp [[-> ->]|[_ E]]%before_inv; [by split|by apply (co_widths _ Hc)|done].
Qed.

Lemma stored_wf n es :
  coherent n -> Forall (fun e => stored_log n !! e_index e = Some (e_term e, e_payload e)) es ->
  Forall entry_wf es.
Proof.
  intros Hc Hes. eapply Forall_impl; [exact Hes|]. cbn beta. intros e He.
  destruct (co_widths _ Hc (e_index e) (e_term e)) as [Hi Ht]; [unfold log_term; by rewrite He|].
  by split.
Qed.

(** ** Sending *)

(** Whatever a frame of [msg] carries is in the log. *)
Definition carries (log : Log) (msg : RaftMessage) : Prop :=
  forall from im b, Z.of_nat (length (body_bytes msg)) <= u32_max ->
    decode_message (frame_bytes from 0 (counted msg)) = Ok im ->
    batch_of (im_message im) = Some b -> reflects log b.

Lemma carries_entries n p pt es count :
  coherent n -> reflects (stored_log n) (p, pt, es) ->
  carries (stored_log n) (MAppendEntriesVectored (append_request n p pt count) es).
Proof.
  intros Hc Hr from im b Hfit Hd Hb. pose proof Hr as (Hp & Hbef & _ & Hes).
  destruct (before_u64 n p pt Hc Hp Hbef).
  erewrite batch_of_entries in Hb; [|exact Hfit|by eapply stored_wf|done|done|exact Hd].
  by injection Hb as <-.
Qed.

(** The entry a header describes. *)
Definition stored_item (log : Log) (h : EntryHeader) : EntryHeader * bytes :=
  (h, default [] (snd <$> log !! eh_index h)).

Lemma stored_items_ok log start hs :
  Forall wire_wf hs ->
  (forall j h, hs !! j = Some h -> eh_index h = start + Z.of_nat j /\
     exists p, log !! eh_index h = Some (eh_term h, p) /\ eh_payload_len h = Z.of_nat (length p)) ->
  let items := map (stored_item log) hs in
  Forall item_ok items /\ consecutive start (map item_entry items) /\
  Forall (fun e => log !! e_index e = Some (e_term e, e_payload e)) (map item_entry items) /\
  (forall j p, map snd items !! j = Some p -> snd <$> log !! (start + Z.of_nat j) = Some p).
Proof.
  intros Hw Hrun items. split_and!.
  - apply Forall_map, Forall_forall. intros h Hin. rewrite Forall_forall in Hw.
    split; [by apply Hw|]. apply list_elem_of_lookup in Hin as [j Hj].
    destruct (Hrun j h Hj) as (_ & p & Hp & Hl). cbn. by rewrite Hp.
  - intros j e He. unfold items in He. rewrite !list_lookup_fmap in He.
    destruct (hs !! j) as [h|] eqn:Hj; [|done]. injection He as <-. by apply Hrun.
  - apply Forall_map, Forall_map, Forall_forall. intros h Hin. apply list_elem_of_lookup in Hin as [j Hj].
    destruct (Hrun j h Hj) as (_ & p & Hp & _). cbn. by rewrite Hp.
  - intros j p He. unfold items in He. rewrite !list_lookup_fmap in He.
    destruct (hs !! j) as [h|] eqn:Hj; [|done]. injection He as <-.
    destruct (Hrun j h Hj) as (<- & p & Hp & _). cbn. by rewrite Hp.
Qed.

Lemma carries_seeded n p pt hs ps count :
  coherent n -> 0 <= p -> before (stored_log n) (p + 1) = Some pt -> Forall wire_wf hs ->
  (forall j h, hs !! j = Some h -> eh_index h = p + 1 + Z.of_nat j /\
     exists d, stored_log n !! eh_index h = Some (eh_term h, d) /\
               eh_payload_len h = Z.of_nat (length d)) ->
  (forall j d, ps !! j = Some d -> snd <$> stored_log n !! (p + 1 + Z.of_nat j) = Some d) ->
  count = length hs ->
  carries (stored_log n)
    (MAppendEntriesSeededVectored (append_request n p pt count) (header_block hs) ps).
Proof.
  intros Hc Hp Hbef Hw Hrun Hps -> from im b Hfit Hd Hb. destruct (before_u64 n p pt Hc Hp Hbef).
  destruct (stored_items_ok _ _ _ Hw Hrun) as (Hok & Hcons & Hst & Hsnd).
  set (items := map (stored_item (stored_log n)) hs) in *.
  assert (hs = map fst items) as Eh by (unfold items; rewrite map_map; symmetry; apply map_id).
  cbn [counted] in Hd. rewrite Eh in Hd, Hfit.
  erewrite batch_of_seeded in Hb; [|exact Hfit|exact Hok| |done|done| |exact Hd].
  - injection Hb as <-. by split_and!.
  - by apply (runs_concat (fun j => snd <$> stored_log n !! (p + 1 + Z.of_nat j))).
  - cbn. rewrite length_map. apply Z.mod_small. cbn [body_bytes] in Hfit.
    rewrite !length_app, length_header_block, !length_map in Hfit.
    assert (wire_size EntryHeader = 24)%nat as Hsz by done. unfold u32_max in *. lia.
Qed.

Lemma sent_quiet n t peer frame :
  (sent t = sent (transport n) \/ sent t = sent (transport n) ++ [(peer, frame)]) ->
  (coherent n -> forall b, batch_in (peer, frame) = Some b -> reflects (stored_log n) b) ->
  quiet n (set_transport t n).
Proof.
  intros Es Hb Hc. split; [done|]. split.
  { destruct (co_ok _ Hc). by split. }
  unfold batches. cbn. destruct Es as [->| ->].
  - exists []. by rewrite app_nil_r.
  - rewrite batches_of_app. eexists. split; [done|]. unfold batches_of. cbn.
    destruct (batch_in (peer, frame)) eqn:E; [|done]. apply Forall_singleton. by apply Hb.
Qed.

Lemma batch_in_inv peer f b :
  batch_in (peer, f) = Some b ->
  exists im, decode_message f = Ok im /\ batch_of (im_message im) = Some b.
Proof. unfold batch_in. cbn. destruct (decode_message f); [eauto|done]. Qed.

Lemma tells_send peer msg n :
  (coherent n -> carries (stored_log n) msg) -> tells (fun _ => True) (send_message peer msg : M _) n.
Proof.
  intros Hcar Hc. specialize (Hcar Hc). split; [|done]. unfold send_message, encode_message_vectored.
  destruct (encode_message_vectored_impl _ _ _ _) as [[[buf out]|]|] eqn:Henc; [|done|done].
  apply encode_vectored_Ok in Henc as [Hfit Hg]. unfold gather in Hg.
  destruct (send_vectored _ _ _) as [r t] eqn:Es. cbn [snd].
  apply send_vectored_law in Es as [Es Ei]. rewrite Hg in Es.
  etransitivity; [|apply (sent_quiet (set_scratch_outbound buf n) t peer _ Es)].
  - by apply state_quiet.
  - intros _ b (im & Hd & Hb)%batch_in_inv. by eapply Hcar.
Qed.

(** Entries read for a peer. *)
Lemma tells_read_entries next n :
  tells (fun es => consecutive (Z.max next 1) es /\
           Forall (fun e => stored_log n !! e_index e = Some (e_term e, e_payload e)) es)
    (on_storage (read_entries next u64_max PAYLOAD_SCRATCH) : M _) n.
Proof.
  eapply tells_read; [apply read_entries_law|]. intros es s' Hc E Hes. split; [|exact Hes].
  eapply read_entries_run; [|exact E]. apply Hc.
Qed.

Lemma consecutive_take start es k : consecutive start es -> consecutive start (take k es).
Proof. intros Hc j e [He _]%lookup_take_Some. by apply Hc. Qed.

Lemma tells_entries_read peer p pt next n :
  0 <= p -> p + 1 = Z.max next 1 -> before (stored_log n) (p + 1) = Some pt ->
  tells (fun _ => True) (send_entries_read peer p pt next : M _) n.
Proof.
  intros Hp En Hb. unfold send_entries_read. eapply tells_bind; [apply tells_read_entries|].
  intros es n1 E1%positions_log _ [Hcons Hes]. apply tells_gets, tells_gets. rewrite <- En in Hcons.
  eapply tells_bind; [|intros; by apply tells_ret]. apply tells_send. intros Hc.
  apply carries_entries; [done|]. rewrite E1.
  split_and!; [done|done|by apply consecutive_take|by apply Forall_take].
Qed.

Lemma tells_entries_seeded peer p pt next hs h n :
  0 <= p -> p + 1 = Z.max next 1 -> before (stored_log n) (p + 1) = Some pt -> Forall wire_wf hs ->
  (forall j h, hs !! j = Some h -> eh_index h = p + 1 + Z.of_nat j /\
     exists d, stored_log n !! eh_index h = Some (eh_term h, d) /\
               eh_payload_len h = Z.of_nat (length d)) ->
  tells (fun _ => True) (send_entries_seeded peer p pt next hs h : M _) n.
Proof.
  intros Hp En Hb Hw Hrun. unfold send_entries_seeded.
  eapply (tells_bind (fun ps => forall j d, ps !! j = Some d ->
            snd <$> stored_log n !! (p + 1 + Z.of_nat j) = Some d)).
  { eapply tells_read; [apply for_each_payload_law|]. intros ps s' Hc E _. rewrite En.
    eapply for_each_payload_run; [|exact E]. apply Hc. }
  intros ps n1 E1%positions_log _ Hps. apply tells_gets. rewrite <- E1 in *.
  eapply tells_bind; [|intros; by apply tells_ret]. apply tells_send. intros Hc.
  by apply carries_seeded.
Qed.

Lemma tells_read_headers next n :
  tells (fun o => forall hs, o = Some hs -> Forall wire_wf hs /\
           forall j h, hs !! j = Some h -> eh_index h = Z.max next 1 + Z.of_nat j /\
             exists d, stored_log n !! eh_index h = Some (eh_term h, d) /\
                       eh_payload_len h = Z.of_nat (length d))
    (on_storage (read_entry_headers next u64_max) : M _) n.
Proof.
  eapply tells_read; [apply read_entry_headers_law|]. intros o s' Hc E _ hs ->.
  eapply read_entry_headers_run; [|exact E]. apply Hc.
Qed.

Lemma quiet_append_attempt peer n : quiet n (send_append_attempt peer n).2.
Proof.
  intros Hc. cut (tells (fun _ => True) (send_append_attempt peer : M _) n); [by intros [Hq _]; auto|].
  unfold send_append_attempt. eapply tells_bind; [apply tells_prev|].
  intros [[p pt] next] n1 E1%positions_log _ (Hp & En & Hb). rewrite <- E1 in Hb.
  eapply tells_bind; [apply tells_attempt, tells_read_headers|]. cbv beta.
  intros r n2 E2%positions_log _ Hhs. apply tells_gets. rewrite <- E2 in *.
  destruct r as [[hs|]|e]; [|by apply tells_entries_read..].
  destruct (Hhs _ eq_refl hs eq_refl) as [Hw Hrun]. rewrite <- En in Hrun.
  destruct (last (take _ hs)) as [h|]; [|by apply tells_entries_read].
  apply tells_entries_seeded; [done..|by apply Forall_take|].
  intros j h' [Hj _]%lookup_take_Some. by apply Hrun.
Qed.

Lemma tells_heartbeat_wire peer n :
  tells (fun o => forall req, o = Some req -> forall n', positions n' = positions n ->
           carries (stored_log n') (MAppendEntriesVectored req []))
    (build_heartbeat_wire peer : M _) n.
Proof.
  unfold build_heartbeat_wire. apply tells_gets. destruct (is_leader n); [|by apply tells_ret].
  eapply tells_bind; [apply tells_calmly, calmly_ensure|]. intros _ n1 E1%positions_log _ _.
  eapply tells_bind; [apply tells_prev|]. intros [[p pt] next] n2 E2%positions_log _ (Hp & _ & Hb).
  eapply tells_bind; [apply tells_read_entries|]. intros _ n3 E3%positions_log Hc3 _.
  apply tells_gets, tells_ret. intros req [= <-] n' E'%positions_log.
  replace (stored_log n') with (stored_log n3) by congruence.
  apply carries_entries; [done|]. split_and!; [done|congruence|by intros j e ?|done].
Qed.

Lemma quiet_bare_heartbeat peer n : quiet n (send_bare_heartbeat peer n).2.
Proof.
  intros Hc. cut (tells (fun _ => True) (send_bare_heartbeat peer : M _) n); [by intros [Hq _]; auto|].
  unfold send_bare_heartbeat. eapply tells_bind; [apply tells_attempt, tells_heartbeat_wire|]. cbv beta.
  intros r n1 E1 Hc1 Hr. destruct r as [[req|]|e]; [|by apply tells_ret..].
  eapply tells_bind; [|intros; by apply tells_ret]. apply tells_send. intros _. by apply (Hr _ eq_refl).
Qed.

(** One frame to every peer. *)
Lemma tells_send_each send peers n :
  (forall p n', positions n' = positions n -> coherent n' -> tells (fun _ => True) (send p : M _) n') ->
  tells (fun _ => True) (send_each send peers : M _) n.
Proof.
  intros Hs. revert n Hs. induction peers as [|p peers IH]; intros n Hs; cbn [send_each]; [by apply tells_ret|].
  intros Hc. revert Hc. eapply tells_bind; [apply tells_attempt|].
  - intros Hc. by apply Hs.
  - intros r n1 E1 _ _. eapply tells_bind; [apply IH|intros; by apply tells_ret].
    intros q n' E'. apply Hs. congruence.
Qed.

Lemma tells_transport {A} (op : T -> res A * T) n peer frame :
  (forall r t, op (transport n) = (r, t) ->
     sent t = sent (transport n) \/ sent t = sent (transport n) ++ [(peer, frame)]) ->
  (coherent n -> forall b, batch_in (peer, frame) = Some b -> reflects (stored_log n) b) ->
  tells (fun _ => True) (on_transport op : M _) n.
Proof.
  intros Hs Hb Hc. split; [|done]. unfold on_transport. destruct (op (transport n)) as [r t] eqn:E.
  by eapply sent_quiet; [eapply Hs|].
Qed.

Lemma tells_fan_out tuning msg es n :
  (coherent n -> carries (stored_log n) msg) ->
  (Z.of_nat (length (body_bytes msg)) <= u32_max -> counted msg = msg) ->
  tells (fun _ => True) (fan_out tuning msg es : M _) n.
Proof.
  intros Hcar Hcount Hc. specialize (Hcar Hc). revert Hc. unfold fan_out. apply tells_gets.
  destruct (should_use_vectored tuning es).
  - eapply (tells_bind (fun slices => Z.of_nat (length (body_bytes msg)) <= u32_max /\
              concat slices = frame_bytes (node_id n) 0 (counted msg))).
    + intros Hc. unfold encode_vectored, encode_message_vectored.
      destruct (encode_message_vectored_impl _ _ _ _) as [[[buf out]|]|] eqn:E; [|done|done].
      split; [by apply state_quiet|]. intros a [= <-]. by apply encode_vectored_Ok in E.
    + intros slices n1 E1%positions_log _ [Hfit Hsl]. apply tells_send_each. intros p n2 E2%positions_log _.
      eapply tells_transport; [intros r t Es; by apply send_vectored_law in Es as [Es _]|].
      intros _ b (im & Hd & Hb)%batch_in_inv. rewrite Hsl in Hd. rewrite E2, E1. by eapply Hcar.
  - eapply (tells_bind (fun frame => Z.of_nat (length (body_bytes msg)) <= u32_max /\
              frame = frame_bytes (node_id n) 0 msg)).
    + intros Hc. unfold encode_frame. rewrite encode_message_to_bytes_spec.
      destruct (Z.leb_spec (Z.of_nat (length (body_bytes msg))) u32_max); [|done].
      split; [done|]. by intros a [= <-].
    + intros frame n1 E1%positions_log _ [Hfit ->]. apply tells_send_each. intros p n2 E2%positions_log _.
      eapply tells_transport; [intros r t Es; by apply send_frame_owned_law in Es as [Es _]|].
      intros _ b (im & Hd & Hb)%batch_in_inv. rewrite <- Hcount in Hd by done. rewrite E2, E1.
      by eapply Hcar.
Qed.

Lemma counted_request n p pt es :
  let msg := MAppendEntriesVectored (append_request n p pt (length es)) es in
  Z.of_nat (length (body_bytes msg)) <= u32_max -> counted msg = msg.
Proof.
  intros msg. cbn [msg body_bytes counted]. rewrite length_app. pose proof (length_entries_le es) as Hle.
  assert (wire_size EntryHeader = 24)%nat as Hsz by done. intros Hfit.
  unfold msg, append_request. by rewrite Z.mod_small by (unfold u32_max in *; lia).
Qed.

Lemma tells_fan_out_entries tuning p pt es n :
  (coherent n -> reflects (stored_log n) (p, pt, es)) ->
  tells (fun _ => True)
    (fan_out tuning (MAppendEntriesVectored (append_request n p pt (length es)) es) es : M _) n.
Proof.
  intros Hr. apply tells_fan_out; [|apply counted_request]. intros Hc. by apply carries_entries; auto.
Qed.

(** ** Messages that are not appends *)

Lemma state_whole {A} (m : M A) : keeps whole m -> keeps log_state m.
Proof.
  intros Hm n. specialize (Hm n). unfold whole, log_view, log_state, positions in *. congruence.
Qed.

Lemma state_last : keeps log_state (on_storage last_log_position : M _).
Proof. apply state_whole, whole_last. Qed.

Lemma state_send peer msg : not_append msg = true -> keeps log_state (send_message peer msg : M _).
Proof.
  intros Hq n. unfold send_message, encode_message_vectored.
  destruct (encode_message_vectored_impl _ _ _ _) as [[[buf out]|]|] eqn:Henc; [|done|done].
  apply encode_vectored_Ok in Henc as [Hfit Hg]. unfold gather in Hg.
  destruct (send_vectored _ _ _) as [r t] eqn:Es. cbn [snd].
  apply send_vectored_law in Es as [Es _]. rewrite Hg in Es.
  unfold log_state, batches. cbn. destruct Es as [->| ->]; [done|].
  rewrite batches_of_app. unfold batches_of at 2. cbn [omap list_omap].
  rewrite batch_in_other; [by rewrite app_nil_r|by destruct msg|by rewrite length_body_counted].
Qed.

Lemma state_persist : keeps log_state (persist_hard_state : M _).
Proof.
  intros n. unfold persist_hard_state. rewrite bind_gets. unfold on_storage.
  destruct (save_hard_state _ _) as [r s] eqn:E. apply save_hard_state_law in E as [[El Es] _].
  unfold log_state, positions, stored_log, saved_snapshot. cbn. by rewrite El, Es.
Qed.
#[local] Hint Resolve state_last state_send state_persist : keeps.

Lemma state_step_down t : keeps log_state (step_down t : M _).
Proof. unfold step_down, demote_to_follower_keep_term. keeps_auto. Qed.

Lemma state_start_campaign : keeps log_state (start_campaign : M _).
Proof. unfold start_campaign. keeps_auto. Qed.

Lemma state_become_leader : keeps log_state (become_leader : M _).
Proof. unfold become_leader, initialize_leader_progress. keeps_auto. Qed.
#[local] Hint Resolve state_step_down : keeps.

Lemma state_custom from payload : keeps log_state (handle_custom_message from payload : M _).
Proof.
  intros n. unfold handle_custom_message. destruct (invoke_custom _ _ _ _ _ _) as [[r d] t] eqn:E.
  apply invoke_custom_law in E as [(new & Es & Hc) _]. unfold log_state, batches. cbn.
  by rewrite Es, batches_of_app, (batches_of_custom new Hc), app_nil_r.
Qed.

Lemma state_custom_response from payload : keeps log_state (handle_custom_response from payload : M _).
Proof. intros n. unfold handle_custom_response. by destruct (on_custom_response _ _ _). Qed.
#[local] Hint Resolve state_custom state_custom_response : keeps.

Definition is_install (msg : RaftMessage) : bool :=
  match msg with MInstallSnapshot _ _ => true | _ => false end.

Lemma state_inbound im :
  not_append (im_message im) = true -> is_install (im_message im) = false ->
  keeps log_state (handle_inbound im : M _).
Proof.
  intros Ha Hi. unfold handle_inbound, stamp_contact. apply keeps_bind; [keeps_auto|]. intros _.
  destruct (im_message im); try done;
    unfold handle_request_vote, handle_request_vote_response, handle_pre_vote,
      handle_pre_vote_response, leader_heard_recently, handle_append_entries_response,
      handle_install_snapshot_response, handle_timeout_now; keeps_auto.
Qed.

(** ** Appends *)

(** The node after [es], with last entry [e], was stored and noted. *)
Definition noted (es : list LogEntry) (e : LogEntry) n n' : Prop :=
  last es = Some e /\
  log_state n' =
    (log_append es (stored_log n), entry_position e, snapshot_boundary n, saved_snapshot n,
     batches n, arena_append_all (map entry_position es) (log_metadata n)).

Lemma noted_log es e n n' : noted es e n n' -> stored_log n' = log_append es (stored_log n).
Proof. intros (_ & E). unfold log_state, positions in E. congruence. Qed.

Lemma noted_coherent start es e n n' :
  coherent n -> noted es e n n' -> Forall entry_wf es -> consecutive start es -> 1 <= start ->
  (start = 1 \/ is_Some (stored_log n !! (start - 1))) ->
  (forall i, start <= i -> stored_log n !! i = None) -> coherent n'.
Proof.
  intros Hc Hn Hwf Hcons Hge Hp Hab. pose proof (noted_log _ _ _ _ Hn) as El.
  destruct Hn as [He Es]. unfold log_state, positions in Es. injection Es as _ Et Eb Ev _ Ea.
  destruct (co_ok _ Hc) as [Hw Hco].
  destruct (coherent_append_all es (log_metadata n) (stored_log n) Hwf Hw Hco) as [Hw' Hco'].
  split; rewrite ?El, ?Et.
  - split; [by rewrite Ea|]. by rewrite Ea, El.
  - by apply widths_append; [apply Hc|].
  - eapply solid_append; [apply Hc|done|done|done].
  - right. by eapply append_tip.
  - rewrite Eb. apply Hc.
  - rewrite Ev. apply Hc.
Qed.

(** The log is what it was, or cut. *)
Definition trimmed n n' : Prop :=
  coherent n' /\ batches n' = batches n /\
  (stored_log n' = stored_log n \/ exists i, stored_log n' = log_truncate i (stored_log n)).

Lemma trimmed_state n n' : coherent n -> log_state n' = log_state n -> trimmed n n'.
Proof.
  intros Hc E. split; [by eapply quiet_coherent; [apply state_quiet|]|].
  unfold log_state, positions in E. split; [congruence|left; congruence].
Qed.

Lemma trimmed_after n n1 n' : log_state n1 = log_state n -> trimmed n1 n' -> trimmed n n'.
Proof.
  unfold log_state, positions. intros E (Hc & Eb & Hl).
  assert (El : stored_log n1 = stored_log n) by congruence. rewrite El in Hl.
  split; [done|]. split; [congruence|done].
Qed.

Lemma view_state s n : sview s = sview (storage n) -> log_state (set_storage s n) = log_state n.
Proof. intros E. unfold log_state, positions, stored_log, saved_snapshot. cbn. by rewrite E. Qed.

Lemma truncate_trimmed i n : coherent n -> is_u64 i -> trimmed n (storage_truncate i n).2.
Proof.
  intros Hc Hi. destruct (storage_truncate i n) as [r m] eqn:E. cbn [snd].
  pose proof E as E0. unfold storage_truncate, on_storage in E. unfold mbind, M_bind in E.
  destruct (truncate_suffix i (storage n)) as [[[]|e] s] eqn:Es.
  - cbn in E. destruct (last_log_position_total s) as (tip & s' & El & Hempty). rewrite El in E.
    injection E as <- <-.
    pose proof (storage_truncate_spec _ _ _ E0) as Ht. pose proof (truncated_log _ _ _ Ht) as Elog.
    apply truncate_suffix_law in Es as [_ Hs]. specialize (Hs eq_refl).
    apply last_log_position_law in El as [Hv Hl]. specialize (Hl tip eq_refl).
    rewrite Hs in Hl, Hempty. cbn in Hl, Hempty. fold (stored_log n) in Hl, Hempty.
    split; [|split; [done|eauto]]. split; rewrite ?Elog.
    + by eapply truncated_log_ok; [|exact Ht|apply Hc].
    + apply widths_truncate, Hc.
    + apply solid_truncate, Hc.
    + cbn. destruct (decide (log_truncate i (stored_log n) = ∅)) as [Ee|Hne]; [left; auto|right; auto].
    + apply Hc.
    + unfold saved_snapshot. cbn. rewrite Hv, Hs. apply Hc.
  - injection E as <- <-. apply truncate_suffix_atomic in Es. by apply trimmed_state, view_state.
Qed.

Lemma scan_trimmed what start count items idx n :
  coherent n -> Forall (fun it => is_u64 it.1) items ->
  trimmed n (scan_entries what start count items idx n).2.
Proof.
  intros Hc Hu. revert idx n Hc. induction Hu as [|[i t] items Hi _ IH]; intros idx n Hc; cbn [scan_entries].
  { by apply trimmed_state. }
  destruct (negb _); [by apply trimmed_state|].
  assert (Hk : keeps log_state (local_term_at i : M _))
    by (apply state_whole; unfold local_term_at; keeps_auto).
  specialize (Hk n). pose proof (trimmed_state _ _ Hc Hk) as Ht.
  unfold mbind at 1, M_bind at 1. destruct (local_term_at i n) as [[o|e] n1]; cbn [snd] in *; [|done].
  destruct o as [t'|]; [|done]. eapply trimmed_after; [exact Hk|].
  destruct (t' =? t); [by apply IH, Ht|].
  pose proof (truncate_trimmed i n1 (proj1 Ht) Hi) as Ht2.
  unfold mbind, M_bind. by destruct (storage_truncate i n1) as [[[]|e] n2].
Qed.

(** A call that stores [es] or nothing. *)
Definition stores_whole (es : list LogEntry) (m : M unit) : Prop :=
  forall n, exists s, (m n).2 = set_storage s n /\
    match (m n).1 with
    | Ok _ => sview s = set_v_log (log_append es (stored_log n)) (sview (storage n))
    | Err _ => sview s = sview (storage n)
    end.

Lemma append_entries_whole es : stores_whole es (on_storage (append_entries es)).
Proof.
  intros n. unfold on_storage. destruct (append_entries es (storage n)) as [[[]|e] s] eqn:Es;
    exists s; (split; [done|]); cbn.
  - apply append_entries_law in Es as [_ Hs]. by apply Hs.
  - by eapply append_entries_atomic.
Qed.

Lemma append_entries_seeded_whole hs ps :
  stores_whole (seeded_entries hs ps) (on_storage (append_entries_seeded hs ps)).
Proof.
  intros n. unfold on_storage. destruct (append_entries_seeded hs ps (storage n)) as [[[]|e] s] eqn:Es;
    exists s; (split; [done|]); cbn.
  - apply append_entries_seeded_law in Es as [_ Hs]. by apply Hs.
  - by eapply append_entries_seeded_atomic.
Qed.

(** Storing and noting a batch: nothing, or the whole of it. *)
Lemma store_noted {B} es e store (k : M B) n :
  stores_whole es store -> last es = Some e -> keeps log_state k ->
  let n' := ((store;; note_appended (map entry_position es);; k) n).2 in
  log_state n' = log_state n \/ noted es e n n'.
Proof.
  intros Hs He Hk. destruct (Hs n) as (s & E & Hv).
  destruct (store n) as [[[]|e'] n1] eqn:Est; cbn [fst snd] in *; subst n1.
  2: { left. rewrite (bind_Err _ _ _ _ _ Est). by apply view_state. }
  right. split; [done|]. rewrite (bind_Ok _ _ _ _ _ Est).
  unfold note_appended. rewrite bind_assoc, bind_modify.
  rewrite last_map, He. cbn [fmap option_fmap option_map]. rewrite bind_modify, Hk.
  unfold log_state, positions, stored_log at 1, saved_snapshot at 1. cbn. by rewrite Hv.
Qed.

Lemma state_activate o : keeps log_state (activate_config o : M _).
Proof.
  destruct o as [e|]; [|apply keeps_ret]. cbn [activate_config].
  unfold apply_config_change, apply_phase, drop_voting_learners,
    reconcile_leader_progress_with_config, drop_stale_peer. keeps_auto.
Qed.

(** The node after it was sent the batch [b]. *)
Definition followed b n n' : Prop :=
  coherent n' /\ batches n' = batches n /\ follow b (stored_log n) (stored_log n').

Lemma trimmed_followed b n n' : trimmed n n' -> followed b n n'.
Proof.
  intros (Hc & Eb & El). split; [done|]. split; [done|]. destruct El as [->|[i ->]]; constructor.
Qed.

Lemma followed_after b n n1 n' : log_state n1 = log_state n -> followed b n1 n' -> followed b n n'.
Proof.
  unfold log_state, positions. intros E (Hc & Eb & Hl).
  assert (El : stored_log n1 = stored_log n) by congruence. rewrite El in Hl.
  split; [done|]. split; [congruence|done].
Qed.

Lemma followed_then b n n1 n' : followed b n n1 -> log_state n' = log_state n1 -> followed b n n'.
Proof.
  intros (Hc & Eb & Hl) E. destruct (trimmed_state _ _ Hc E) as (Hc' & Eb' & _).
  unfold log_state, positions in E. assert (El : stored_log n' = stored_log n1) by congruence.
  split; [done|]. rewrite El. split; [congruence|done].
Qed.

(** After the scan found the first entry [e] the log does not have. *)
Lemma store_followed p pt es j e store n n1 :
  coherent n -> coherent n1 -> batches n1 = batches n -> Forall entry_wf es ->
  stores_whole (drop j es) store -> consecutive (p + 1) es -> 0 <= p ->
  before (stored_log n) (p + 1) = Some pt -> es !! j = Some e ->
  (forall i e, (i < j)%nat -> es !! i = Some e ->
     log_term (stored_log n) (e_index e) = Some (e_term e)) ->
  stored_log n1 = scanned_log (Some e) (stored_log n) -> trimmed n n1 ->
  followed (p, pt, es) n
    ((store;; note_appended (map entry_position (drop j es));;
      activate_config (latest_config (map e_payload (drop j es)))) n1).2.
Proof.
  intros Hc Hc1 Eb Hwf Hst Hcons Hp Hb Hj Hm El Ht. pose proof (lookup_lt_Some _ _ _ Hj).
  destruct (last (drop j es)) as [e'|] eqn:He'.
  2: { apply last_None, (f_equal length) in He'. rewrite length_drop in He'. cbn in He'. lia. }
  pose proof (Hcons _ _ Hj) as Ei.
  destruct (scanned_spec (stored_log n) e (co_solid _ Hc)) as [Hlow Hhigh]; [lia|].
  destruct (store_noted (drop j es) e' store _ n1 Hst He'
              (state_activate (latest_config (map e_payload (drop j es))))) as [E|Hn].
  - eapply followed_then; [by apply trimmed_followed|exact E].
  - pose proof (noted_log _ _ _ _ Hn) as El'. split.
    + eapply (noted_coherent (p + 1 + Z.of_nat j)); [done|exact Hn|by apply Forall_drop
        |by apply consecutive_drop|lia| |].
      * rewrite El, Hlow by lia. eapply matched_before; [done..|lia|done].
      * intros i Hi. rewrite El. apply Hhigh. lia.
    + split.
      * destruct Hn as [_ Hs]. unfold log_state, positions in Hs. congruence.
      * rewrite El', El. by apply (follow_take (p, pt, es)).
Qed.

Lemma path_followed what start p pt es store n :
  coherent n -> Forall entry_wf es -> (forall k, stores_whole (drop k es) (store k)) ->
  consecutive (p + 1) es -> 0 <= p -> before (stored_log n) (p + 1) = Some pt ->
  followed (p, pt, es) n (append_path what start es store n).2.
Proof.
  intros Hc Hwf Hst Hcons Hp Hb. unfold append_path.
  assert (Hu : Forall (fun it => is_u64 it.1) (map entry_position es))
    by (apply Forall_map; eapply Forall_impl; [exact Hwf|]; by intros e []).
  pose proof (scan_trimmed what start (length es) (map entry_position es) 0 n Hc Hu) as Ht.
  destruct (scan_entries what start (length es) (map entry_position es) 0 n) as [[k|e0] n1] eqn:E; cbn [snd] in Ht.
  2: { rewrite (bind_Err _ _ _ _ _ E). by apply trimmed_followed. }
  rewrite (bind_Ok _ _ _ _ _ E).
  apply scan_entries_spec in E as (j & -> & Hj & Hm & _ & Heff); [|apply Hc|by rewrite length_map].
  rewrite length_map in Hj. cbn [Nat.add].
  destruct (Nat.ltb_spec j (length es)) as [Hlt|Hge]; [|by apply trimmed_followed].
  destruct (lookup_lt_is_Some_2 es j Hlt) as [e He].
  rewrite list_lookup_fmap, He in Heff. cbn [fmap option_fmap option_map] in Heff.
  apply scan_effect_log in Heff as (_ & El & _); [|apply Hc|].
  2: { rewrite Forall_forall in Hwf. apply Hwf, list_elem_of_lookup. eauto. }
  apply (store_followed p pt es j e); [done|apply Ht|apply Ht|done|done|done|done|done|done| |done|done].
  intros i e' Hi He'. destruct (Hm i Hi) as (it & Hit & Hl).
  rewrite list_lookup_fmap, He' in Hit. by injection Hit as <-.
Qed.

(** ** The follower *)

Lemma followed_bind {A B} (m : M A) (k : A -> M B) b n :
  keeps log_state m -> coherent n ->
  (forall a n1, m n = (Ok a, n1) -> log_state n1 = log_state n -> coherent n1 ->
     followed b n1 (k a n1).2) ->
  followed b n ((m ≫= k) n).2.
Proof.
  intros Hm Hc Hk. specialize (Hm n). destruct (trimmed_state _ _ Hc Hm) as (Hc1 & _).
  destruct (m n) as [[a|e] n1] eqn:E; cbn [snd] in *.
  - rewrite (bind_Ok _ _ _ _ _ E). by eapply followed_after, Hk.
  - rewrite (bind_Err _ _ _ _ _ E). by apply trimmed_followed, trimmed_state.
Qed.

Lemma followed_state {A} (m : M A) b n : keeps log_state m -> coherent n -> followed b n (m n).2.
Proof. intros Hm Hc. by apply trimmed_followed, trimmed_state. Qed.

Lemma prev_matches_before p pt n n' :
  coherent n -> 0 <= p -> (p = 0 -> pt = 0) -> prev_matches p pt n = (Ok true, n') ->
  before (stored_log n) (p + 1) = Some pt.
Proof.
  intros Hc Hp H00 E. apply prev_matches_spec in E as (_ & Hyes & _); [|apply Hc].
  destruct (Z.eq_dec p 0) as [->|Hne]; [by rewrite H00|]. rewrite before_next by lia.
  destruct (Hyes eq_refl) as [?|[?|[_ Et]]]; [done|done|].
  destruct (co_tip _ Hc) as [[_ E0]|[E0 _]]; rewrite Et in E0; [congruence|done].
Qed.

Lemma state_prev_matches p pt : keeps log_state (prev_matches p pt : M _).
Proof. apply state_whole. unfold prev_matches. keeps_auto. Qed.
#[local] Hint Resolve state_prev_matches : keeps.

Lemma handle_append_followed append from msg es n :
  let p := ae_prev_log_index msg in let pt := ae_prev_log_term msg in
  coherent n -> 0 <= p -> (p = 0 -> pt = 0) ->
  (forall n1, coherent n1 -> before (stored_log n1) (p + 1) = Some pt ->
     followed (p, pt, es) n1 (append n1).2) ->
  followed (p, pt, es) n (handle_append append from msg n).2.
Proof.
  intros p pt Hc Hp H00 Happ. unfold handle_append. rewrite bind_gets.
  destruct (ae_term msg <? node_term n); [apply followed_state; [keeps_auto|done]|].
  do 6 (apply followed_bind; [keeps_auto|done|]; intros ? ? _ _ ?).
  apply followed_bind; [keeps_auto|done|]. intros ok m Eok Em Hm.
  destruct ok; cbn [negb]; [|apply followed_state; [keeps_auto|done]].
  apply prev_matches_before in Eok; [|done..].
  assert (Hb : before (stored_log m) (p + 1) = Some pt)
    by (etransitivity; [|exact Eok]; f_equal; unfold log_state, positions in Em; congruence).
  specialize (Happ m Hm Hb).
  match goal with |- followed _ _ ((append;; ?k) m).2 =>
    assert (Hk : keeps log_state (k : M _)) by keeps_auto end.
  destruct (append m) as [[[]|e] m'] eqn:E; cbn [snd] in Happ.
  - rewrite (bind_Ok _ _ _ _ _ E). eapply followed_then; [exact Happ|apply Hk].
  - rewrite (bind_Err _ _ _ _ _ E). exact Happ.
Qed.

(** Methods after which a node that does not lead still does not. *)
Definition unled {A} (m : M A) : Prop := forall n, is_leader n = false -> is_leader (m n).2 = false.

Lemma unled_bind {A B} (m : M A) (k : A -> M B) : unled m -> (forall a, unled (k a)) -> unled (m ≫= k).
Proof.
  intros Hm Hk n Hn. specialize (Hm n Hn). unfold mbind, M_bind.
  destruct (m n) as [[a|e] n1]; cbn in *; [by apply Hk|done].
Qed.

Lemma unled_keeps {A} (m : M A) : keeps view_role m -> unled m.
Proof. intros Hm n. unfold is_leader. by rewrite (view_role_role _ _ (Hm n)). Qed.

Lemma unled_step_down t : unled (step_down t).
Proof.
  intros n Hn. unfold step_down. do 2 rewrite bind_modify.
  assert (Hp : keeps (fun n => ss_role (soft_state n)) (persist_hard_state : M _))
    by (unfold persist_hard_state; keeps_auto).
  match goal with |- context [(persist_hard_state ≫= _) ?m] =>
    specialize (Hp m); destruct (persist_hard_state m) as [[[]|e] n1] eqn:E end.
  - rewrite (bind_Ok _ _ _ _ _ E). unfold demote_to_follower_keep_term. rewrite bind_gets.
    by destruct (negb _).
  - rewrite (bind_Err _ _ _ _ _ E). unfold is_leader. cbn in *. by rewrite Hp.
Qed.

#[local] Hint Resolve keeps_view_scan : keeps.

Lemma unled_activate o : unled (activate_config o).
Proof.
  destruct o as [e|]; [|by apply unled_keeps, keeps_ret]. cbn [activate_config]. unfold apply_config_change.
  assert (Hr : forall (m : M unit), keeps (fun n => ss_role (soft_state n)) m -> unled m).
  { intros m Hm n. unfold is_leader. specialize (Hm n). cbn in Hm. by rewrite Hm. }
  unfold apply_phase, drop_voting_learners, reconcile_leader_progress_with_config, drop_stale_peer.
  apply unled_bind; [apply Hr; keeps_auto|]. intros _. apply unled_bind; [apply Hr; keeps_auto|]. intros _.
  apply unled_bind; [by intros n|]. intros b1. apply unled_bind; [apply Hr; keeps_auto|]. intros _.
  apply unled_bind; [by intros n|]. intros b2. apply unled_bind; [by intros n|]. intros t.
  destruct b2; [apply unled_step_down|by intros n].
Qed.

Lemma unled_path what start es store :
  (forall k, keeps view_role (store k)) -> unled (append_path what start es store).
Proof.
  intros Hs. unfold append_path. apply unled_bind; [apply unled_keeps; keeps_auto|]. intros k.
  destruct (_ <? _)%nat; [|by intros n].
  apply unled_bind; [by apply unled_keeps|]. intros _.
  apply unled_bind; [apply unled_keeps; unfold note_appended; keeps_auto|]. intros _. apply unled_activate.
Qed.

(** A node that leads after an append did not look at it. *)
Lemma handle_append_led append from msg n :
  coherent n -> unled append -> is_leader (handle_append append from msg n).2 = true ->
  positions (handle_append append from msg n).2 = positions n.
Proof.
  intros Hc Hu. unfold handle_append. rewrite bind_gets.
  destruct (ae_term msg <? node_term n).
  { intros _. match goal with |- positions (?m n).2 = _ => assert (Hk : keeps log_state (m : M _)) by keeps_auto end.
    apply state_positions, Hk. }
  assert (Hs : keeps log_state (whenM (node_term n <? ae_term msg) (step_down (ae_term msg)) : M _)) by keeps_auto.
  specialize (Hs n). destruct (whenM _ _ n) as [[[]|e] n1] eqn:E; cbn [snd] in Hs.
  2: { rewrite (bind_Err _ _ _ _ _ E). intros _. by apply state_positions. }
  rewrite (bind_Ok _ _ _ _ _ E), bind_modify. intros Hl. exfalso. revert Hl.
  match goal with |- is_leader (?k ?m).2 = true -> _ => cut (unled k) end.
  { intros Hk. by rewrite Hk. }
  do 2 (apply unled_bind; [by intros m|]; intros _). apply unled_bind; [apply unled_keeps; keeps_auto|]. intros t.
  apply unled_bind; [by intros m|]. intros _.
  apply unled_bind; [apply unled_keeps; unfold prev_matches; keeps_auto|]. intros ok.
  destruct (negb ok); [apply unled_keeps; keeps_auto|].
  apply unled_bind; [done|]. intros _. apply unled_keeps. keeps_auto.
Qed.

(** An append that was received. *)
Lemma inbound_followed im p pt es n :
  coherent n -> msg_wf (im_message im) -> batch_of (im_message im) = Some (p, pt, es) ->
  0 <= p -> (p = 0 -> pt = 0) -> consecutive (p + 1) es ->
  followed (p, pt, es) n (handle_inbound im n).2.
Proof.
  intros Hc Hwf Hb Hp H00 Hcons. unfold handle_inbound, stamp_contact.
  apply followed_bind; [keeps_auto|done|]. intros _ n1 _ _ Hc1.
  destruct (im_message im) as [| | | |m payload| |m hs payloads| | | | | | | ]; try done;
    injection Hb as <- <- <-; destruct Hwf as [_ Hblock];
    (apply handle_append_followed; [done..|]); intros n2 Hc2 Hbef.
  - destruct (entry_block_items _ _ Hblock) as [Hlen Hes].
    rewrite apply_append_entries_path by done. apply path_followed; [done|done| |done..].
    intros k. apply append_entries_whole.
  - rewrite apply_append_entries_seeded_path by done. apply path_followed; [done| | |done..].
    + apply raw_iter_block in Hblock as (_ & Hok & _). by apply items_wf.
    + intros k. rewrite <- seeded_entries_items, seeded_entries_drop. apply append_entries_seeded_whole.
Qed.

Lemma inbound_led im n :
  coherent n -> msg_wf (im_message im) -> not_append (im_message im) = false ->
  is_leader (handle_inbound im n).2 = true -> positions (handle_inbound im n).2 = positions n.
Proof.
  intros Hc Hwf Hm. unfold handle_inbound.
  assert (Hk : keeps log_state (stamp_contact (im_from im) (im_message im) : M _))
    by (unfold stamp_contact; keeps_auto).
  specialize (Hk n). destruct (stamp_contact _ _ n) as [[[]|e] n1] eqn:E; cbn [snd] in Hk.
  2: { rewrite (bind_Err _ _ _ _ _ E). intros _. by apply state_positions. }
  rewrite (bind_Ok _ _ _ _ _ E). destruct (trimmed_state _ _ Hc Hk) as [Hc1 _]. intros Hl.
  etransitivity; [|apply state_positions; exact Hk]. revert Hl.
  destruct (im_message im) as [| | | |m payload| |m hs payloads| | | | | | | ]; try done;
    destruct Hwf as [_ Hblock]; apply handle_append_led; [done| |done|].
  - destruct (entry_block_items _ _ Hblock) as [Hlen _]. rewrite apply_append_entries_path by done.
    apply unled_path. intros k. keeps_auto.
  - intros m1. rewrite apply_append_entries_seeded_path by done. apply unled_path. intros k. keeps_auto.
Qed.

(** ** The leader *)

Lemma batch_entries_spec t payloads i :
  0 <= i -> is_u64 t -> i + Z.of_nat (length payloads) - 1 <= u64_max ->
  consecutive i (batch_entries t i payloads) /\ Forall (fun e => e_term e = t) (batch_entries t i payloads) /\
  Forall entry_wf (batch_entries t i payloads) /\ length (batch_entries t i payloads) = length payloads.
Proof.
  intros Hi Ht. revert i Hi. induction payloads as [|d payloads IH]; intros i Hi Hroom; cbn [batch_entries].
  { by split_and!. }
  cbn [length] in Hroom. assert (Hw : payloads = [] \/ wrap_add64 i 1 = i + 1).
  { destruct payloads; [by left|right]. cbn in Hroom. unfold wrap_add64. apply Z.mod_small. machine. lia. }
  assert (Hu : is_u64 i) by (machine; lia).
  assert (Hrest : consecutive (i + 1) (batch_entries t (wrap_add64 i 1) payloads) /\
            Forall (fun e => e_term e = t) (batch_entries t (wrap_add64 i 1) payloads) /\
            Forall entry_wf (batch_entries t (wrap_add64 i 1) payloads) /\
            length (batch_entries t (wrap_add64 i 1) payloads) = length payloads).
  { destruct Hw as [->| ->]; [by split_and!|]. apply IH; lia. }
  destruct Hrest as (H1' & H2' & H3' & H4'). split_and!.
  - by apply consecutive_cons.
  - by constructor.
  - by constructor.
  - cbn. by rewrite H4'.
Qed.

(** The tip the storage reports. *)
Lemma tells_last n :
  tells (fun last => last = cached_last_log n) (on_storage last_log_position : M _) n.
Proof.
  eapply tells_read; [apply last_log_position_law|]. intros last s' Hc E Hl.
  destruct (last_log_position_total (storage n)) as (p & s & E' & He). rewrite E in E'.
  injection E' as <- <-. eapply tip_fun; [|apply Hc].
  destruct (decide (stored_log n = ∅)) as [Hn|Hn]; [left; auto|right; auto].
Qed.

Definition stored_in (log : Log) (es : list LogEntry) : Prop :=
  Forall (fun e => log !! e_index e = Some (e_term e, e_payload e)) es.

Lemma tells_initial tuning p es n :
  stored_in (stored_log n) es -> consecutive (p + 1) es -> 0 <= p ->
  (cached_last_log n).1 = p + Z.of_nat (length es) ->
  tells (fun _ => True) (send_initial_appends tuning es : M _) n.
Proof.
  intros Hes Hcons Hp Et. unfold send_initial_appends. apply tells_modify; [done|]. apply tells_gets.
  destruct (is_nil _); [by apply tells_ret|]. eapply tells_bind; [apply tells_last|].
  intros last n1 E1 _ ->. cbn -[Z.ltb] in *. pose proof (positions_log _ _ E1) as El1. rewrite Et.
  destruct (Z.ltb_spec (p + Z.of_nat (length es)) (Z.of_nat (length es))); [lia|].
  replace (p + Z.of_nat (length es) - Z.of_nat (length es)) with p by lia.
  eapply tells_bind; [by apply tells_term_at|]. intros pt n2 E2%positions_log _ Hb.
  apply tells_gets, tells_modify; [done|].
  match goal with |- tells _ (fan_out _ (MAppendEntriesVectored ?r _) _ ≫= _) ?m =>
    change r with (append_request m p pt (length es)) end.
  eapply tells_bind; [apply tells_fan_out_entries|].
  - intros Hc. cbn. unfold stored_log at 1. cbn. fold (stored_log n2).
    change (stored_log (set_scratch_pending [] n2)) with (stored_log n2).
    split_and!; [done|congruence|done|]. by rewrite E2, El1.
  - intros sent n3 E3 _ _. intros Hc. split; [by apply state_quiet|done].
Qed.

(** New entries of the leader's term at its tip, and what was sent of them. *)
Definition created n n' : Prop :=
  exists es e n1, consecutive ((cached_last_log n).1 + 1) es /\
    Forall (fun e => e_term e = node_term n) es /\ coherent n1 /\ noted es e n n1 /\ quiet n1 n'.

(** The next entries at the tip are noted without gaps. *)
Lemma noted_tip es e n n1 :
  coherent n -> noted es e n n1 -> Forall entry_wf es -> consecutive ((cached_last_log n).1 + 1) es ->
  coherent n1 /\ stored_in (stored_log n1) es /\
  (cached_last_log n1).1 = (cached_last_log n).1 + Z.of_nat (length es).
Proof.
  intros Hc Hn Hwf Hcons. destruct (tip_before _ _ (co_solid _ Hc) (co_tip _ Hc)) as [Ht Hb].
  split_and!.
  - eapply noted_coherent; [done|exact Hn|done|exact Hcons|lia| |].
    + apply before_inv in Hb as [[-> _]|[_ E]]; [by left| |done]. right.
      replace ((cached_last_log n).1 + 1 - 1) with (cached_last_log n).1 by lia. by eapply log_term_Some.
    + intros i Hi. eapply tip_above; [apply Hc|lia].
  - rewrite (noted_log _ _ _ _ Hn). apply Forall_forall. intros x Hx.
    apply log_append_lookup; [by eapply consecutive_NoDup|done].
  - destruct Hn as [He Es]. unfold log_state, positions in Es. injection Es as _ Et _ _ _ _.
    rewrite Et. cbn. rewrite last_lookup in He. rewrite (Hcons _ _ He). apply lookup_lt_Some in He. lia.
Qed.

(** Room for the entries of a proposal. *)
Definition room n (payloads : list bytes) : Prop :=
  (cached_last_log n).1 + Z.of_nat (length payloads) <= u64_max.

Lemma room_calm n n' ps : calm n n' -> room n ps -> room n' ps.
Proof.
  intros (_ & E & _). unfold room, log_view in *.
  by assert (cached_last_log n' = cached_last_log n) as -> by congruence.
Qed.

Lemma next_entries n payloads :
  coherent n -> is_u64 (node_term n) -> room n payloads -> payloads <> [] ->
  let es := batch_entries (node_term n) (sat_add64 (cached_last_log n).1 1) payloads in
  consecutive ((cached_last_log n).1 + 1) es /\ Forall (fun e => e_term e = node_term n) es /\
  Forall entry_wf es /\ exists e, last es = Some e /\ e_term e = node_term n.
Proof.
  intros Hc Hu Hr Hne es. destruct (tip_before _ _ (co_solid _ Hc) (co_tip _ Hc)) as [Ht _].
  assert (Hl : (0 < length payloads)%nat) by (destruct payloads; [done|cbn; lia]). unfold room in Hr.
  assert (Ei : sat_add64 (cached_last_log n).1 1 = (cached_last_log n).1 + 1) by (machine; lia).
  unfold es. rewrite Ei.
  destruct (batch_entries_spec (node_term n) payloads ((cached_last_log n).1 + 1)) as (Hco & Hte & Hwf & Hlen);
    [lia|done|lia|]. split_and!; [done..|].
  destruct (last _) as [e|] eqn:He.
  - exists e. split; [done|]. rewrite Forall_forall in Hte. by apply Hte, last_Some_elem_of.
  - apply last_None in He. rewrite He in Hlen. cbn in Hlen. lia.
Qed.

Lemma append_and_send_created tuning payloads n :
  coherent n -> is_u64 (node_term n) -> room n payloads ->
  let n' := (append_and_send tuning payloads n).2 in quiet n n' \/ created n n'.
Proof.
  intros Hc Hu Hr. destruct payloads as [|d ps].
  { left. by apply state_quiet. }
  destruct (next_entries n (d :: ps) Hc Hu Hr) as (Hcons & Hte & Hwf & e & He & Het); [done|].
  unfold append_and_send, append_propose_entries. rewrite bind_assoc, bind_gets.
  set (es := batch_entries (node_term n) _ _) in *. rewrite bind_assoc, bind_modify, last_map, He.
  cbn [fmap option_fmap option_map]. set (n0 := set_scratch_indexes (map e_index es) n).
  destruct (append_entries_whole es n0) as (s & E & Hv).
  rewrite bind_assoc. destruct (on_storage (append_entries es) n0) as [[[]|e'] n1] eqn:Es;
    cbn [fst snd] in E, Hv; subst n1.
  2: { left. rewrite (bind_Err _ _ _ _ _ Es). apply state_quiet. etransitivity; [by apply view_state|done]. }
  rewrite (bind_Ok _ _ _ _ _ Es). right. rewrite bind_assoc, bind_modify, bind_assoc, bind_modify, bind_ret.
  match goal with |- created n ((_ ≫= _) ?m).2 => set (n1 := m) end.
  assert (Hn : noted es e n n1).
  { split; [done|]. unfold log_state, positions, stored_log at 1, saved_snapshot at 1. cbn. rewrite Hv.
    unfold entry_position. by rewrite Het. }
  destruct (noted_tip _ _ _ _ Hc Hn Hwf Hcons) as (Hc1 & Hst & Et).
  exists es, e, n1. split_and!; [done|done|done|done|].
  destruct (tip_before _ _ (co_solid _ Hc) (co_tip _ Hc)) as [Ht _].
  destruct (tells_initial tuning _ es n1 Hst Hcons Ht Et Hc1) as [Hq _].
  by destruct (send_initial_appends tuning es n1) as [[[]|e'] n2] eqn:E2;
    [rewrite (bind_Ok _ _ _ _ _ E2)|rewrite (bind_Err _ _ _ _ _ E2)].
Qed.

Lemma replicate_created tuning payloads n :
  coherent n -> is_u64 (node_term n) -> room n payloads -> payloads <> [] ->
  let n' := (replicate_batch_inner tuning payloads n).2 in quiet n n' \/ created n n'.
Proof.
  intros Hc Hu Hr Hne. destruct (next_entries n payloads Hc Hu Hr Hne) as (Hcons & Hte & Hwf & e & He & Het).
  destruct (tip_before _ _ (co_solid _ Hc) (co_tip _ Hc)) as [Ht Hb].
  unfold replicate_batch_inner. rewrite !bind_gets. set (es := batch_entries (node_term n) _ _) in *.
  destruct (append_entries_whole es n) as (s & E & Hv).
  destruct (on_storage (append_entries es) n) as [[[]|e'] n1] eqn:Es; cbn [fst snd] in E, Hv; subst n1.
  2: { left. rewrite (bind_Err _ _ _ _ _ Es). by apply state_quiet, view_state. }
  rewrite (bind_Ok _ _ _ _ _ Es). right. unfold note_appended. rewrite bind_assoc, bind_modify, last_map, He.
  cbn [fmap option_fmap option_map]. rewrite bind_modify.
  match goal with |- created n ((_ ≫= _) ?m).2 => set (n1 := m) end.
  assert (Hn : noted es e n n1).
  { split; [done|]. unfold log_state, positions, stored_log at 1, saved_snapshot at 1. cbn. by rewrite Hv. }
  destruct (noted_tip _ _ _ _ Hc Hn Hwf Hcons) as (Hc1 & Hst & _).
  exists es, e, n1. split_and!; [done|done|done|done|].
  cut (tells (fun _ => True) (fan_out tuning (MAppendEntriesVectored
         (append_request n1 (cached_last_log n).1 (cached_last_log n).2 (length es)) es) es : M _)
         (set_scratch_peers (replication_targets n1) n1)).
  - intros Hf. rewrite bind_gets, bind_modify.
    assert (Hq1 : quiet n1 (set_scratch_peers (replication_targets n1) n1)) by by apply state_quiet.
    destruct (Hf (quiet_coherent _ _ Hq1 Hc1)) as [Hq2 _]. etransitivity; [exact Hq1|].
    destruct (fan_out _ _ _ _) as [[sent|e'] n2] eqn:E2;
      [rewrite (bind_Ok _ _ _ _ _ E2)|rewrite (bind_Err _ _ _ _ _ E2)]; exact Hq2.
  - apply (tells_fan_out_entries _ _ _ _ (set_scratch_peers (replication_targets n1) n1)). intros _.
    change (stored_log (set_scratch_peers (replication_targets n1) n1)) with (stored_log n1).
    split_and!; [done| |done|done]. rewrite <- Hb, (noted_log _ _ _ _ Hn). apply before_agree.
    intros j Hj. apply log_term_append_other. intros (x & -> & Hx)%list_elem_of_fmap.
    pose proof (consecutive_bounds _ _ _ Hcons Hx). lia.
Qed.

(** ** Soundness *)

(** The node for the history [G]: its log and what it sent of it are there, and
    nothing of its own term is above its tip while it leads. *)
Record sound (G : History) n : Prop := {
  so_coherent : coherent n;
  so_chained : chained G (stored_log n);
  so_batches : Forall (valid G) (batches n);
  so_leads : is_leader n = true -> forall i, is_Some (G !! (i, node_term n)) -> i <= (cached_last_log n).1;
}.

(** The frames carry entries of the history and no snapshot. *)
Definition genuine (G : History) (F : list bytes) : Prop :=
  forall im, delivered F im ->
    is_install (im_message im) = false /\ forall b, batch_of (im_message im) = Some b -> valid G b.

Definition leads_on n n' : Prop :=
  is_leader n' = true -> is_leader n = true /\ node_term n' = node_term n.

(** From [n] to [n'] the history grows by entries of the term [n] leads, and the
    log of a leader only grows. *)
Definition advances (G : History) n n' : Prop :=
  leads_on n n' /\ (is_leader n' = true -> stored_log n ⊆ stored_log n') /\
  exists G', G ⊆ G' /\ sound G' n' /\
    forall k, G' !! k <> G !! k -> is_leader n = true /\ k.2 = node_term n.

Lemma advances_trans G n1 n2 n3 :
  advances G n1 n2 -> (forall G', G ⊆ G' -> sound G' n2 -> advances G' n2 n3) -> advances G n1 n3.
Proof.
  intros (L1 & I1 & G1 & S1 & H12 & N1) H23. destruct (H23 G1 S1 H12) as (L2 & I2 & G2 & S2 & H3' & N2).
  assert (Hl : leads_on n1 n3).
  { intros H3l. destruct (L2 H3l) as [H2l ->]. by apply L1. }
  split; [done|]. split.
  { intros H3l. destruct (L2 H3l) as [H2l _]. etransitivity; [by apply I1|by apply I2]. }
  exists G2. split; [by etransitivity|]. split; [done|]. intros k Hk.
  destruct (decide (G1 !! k = G !! k)) as [E|Hne]; [|by apply N1].
  destruct (N2 k) as [H2l ->]; [by rewrite E|]. by destruct (L1 H2l) as [? ->].
Qed.

Lemma quiet_advances G n n' : sound G n -> quiet n n' -> leads_on n n' -> advances G n n'.
Proof.
  intros [Hc Hch Hb Hld] Hq Hl. destruct (Hq Hc) as (Ep & _ & new & Eb & Hnew).
  pose proof (positions_log _ _ Ep) as El. split; [done|]. split; [by rewrite El|].
  exists G. split; [done|]. split; [|done]. split.
  - by eapply quiet_coherent.
  - by rewrite El.
  - rewrite Eb. apply Forall_app. split; [done|]. eapply Forall_impl; [exact Hnew|].
    intros b. by apply reflects_valid.
  - intros Hl'. destruct (Hl Hl') as [Hl0 ->]. unfold positions in Ep.
    assert (cached_last_log n' = cached_last_log n) as -> by congruence. by apply Hld.
Qed.

Lemma followed_advances G b n n' :
  sound G n -> valid G b -> followed b n n' -> leads_on n n' ->
  (is_leader n' = true -> positions n' = positions n) -> advances G n n'.
Proof.
  intros [Hc Hch Hb Hld] Hv (Hc' & Eb & Hf) Hl Hled. split; [done|]. split.
  { intros Hl'. by rewrite (positions_log _ _ (Hled Hl')). }
  exists G. split; [done|]. split; [|done]. split.
  - done.
  - by eapply chained_follow.
  - by rewrite Eb.
  - intros Hl'. destruct (Hl Hl') as [Hl0 ->]. specialize (Hled Hl'). unfold positions in Hled.
    assert (cached_last_log n' = cached_last_log n) as -> by congruence. by apply Hld.
Qed.

Lemma created_advances G n n' :
  sound G n -> is_leader n = true -> created n n' -> leads_on n n' -> advances G n n'.
Proof.
  intros [Hc Hch Hb Hld] Hlead (es & e & n1 & Hcons & Hte & Hc1 & Hn & Hq) Hl.
  destruct (tip_before _ _ (co_solid _ Hc) (co_tip _ Hc)) as [Ht Hbef].
  destruct (record_spec (node_term n) _ es (cached_last_log n).2 G Hcons Hte) as (HG & Hlink & Hnew).
  { intros i Hi. specialize (Hld Hlead i Hi). lia. }
  set (G' := record_entries _ es G) in *. pose proof (noted_log _ _ _ _ Hn) as El1.
  assert (Hch1 : chained G' (stored_log n1)).
  { rewrite El1. eapply chained_append; [by eapply chained_mono| |intros i Hi; eapply tip_above; [apply Hc|]
      |exact Hbef|exact Hcons|exact Hlink]; lia. }
  destruct (Hq Hc1) as (Ep & _ & new & Eb & Hrefl). pose proof (positions_log _ _ Ep) as El.
  destruct Hn as [He Es]. unfold log_state, positions in Es. injection Es as _ Et _ _ Eb1 _.
  split; [done|]. split.
  { intros _. rewrite El, El1. apply map_subseteq_spec. intros i x Hi. rewrite <- Hi.
    apply log_term_append_other. intros (y & -> & Hy)%list_elem_of_fmap.
    pose proof (consecutive_bounds _ _ _ Hcons Hy).
    assert (stored_log n !! e_index y = None) by (eapply tip_above; [apply Hc|lia]). congruence. }
  exists G'. split; [done|]. split.
  - split.
    + by eapply quiet_coherent.
    + by rewrite El.
    + rewrite Eb, Eb1. apply Forall_app. split.
      * eapply Forall_impl; [exact Hb|]. intros b. by apply valid_mono.
      * eapply Forall_impl; [exact Hrefl|]. intros b. by apply reflects_valid.
    + intros Hl'. destruct (Hl Hl') as [_ ->]. intros i Hi. unfold positions in Ep.
      assert (cached_last_log n' = entry_position e) as -> by congruence. cbn.
      rewrite last_lookup in He. rewrite (Hcons _ _ He). apply lookup_lt_Some in He.
      destruct (decide (G' !! (i, node_term n) = G !! (i, node_term n))) as [E|Hne].
      * rewrite E in Hi. specialize (Hld Hlead i Hi). lia.
      * apply Hnew in Hne as [_ Hne]. cbn in Hne. lia.
  - intros k Hk%Hnew. by destruct Hk.
Qed.

(** ** Moves and walks *)

Lemma delivered_wf F im : delivered F im -> msg_wf (im_message im).
Proof. intros (f & _ & Hd). by eapply decode_message_wf. Qed.

Lemma inbound_advances G F im n :
  sound G n -> genuine G F -> delivered F im -> leads_on n (handle_inbound im n).2 ->
  advances G n (handle_inbound im n).2.
Proof.
  intros Hs HG Hd Hl. pose proof (so_coherent _ _ Hs) as Hc. pose proof (delivered_wf _ _ Hd) as Hwf.
  destruct (HG im Hd) as [Hni Hval].
  destruct (not_append (im_message im)) eqn:Hna.
  { apply quiet_advances; [done| |done]. by apply state_quiet, state_inbound. }
  destruct (batch_of (im_message im)) as [[[p pt] es]|] eqn:Hb.
  - specialize (Hval _ eq_refl). pose proof Hval as (Hp & H00 & Hcons & _).
    eapply followed_advances; [done|exact Hval|by apply inbound_followed|done|by apply inbound_led].
  - apply quiet_advances; [done| |done]. apply state_quiet. unfold handle_inbound, stamp_contact.
    destruct (im_message im); try done;
      match goal with |- log_state (?m n).2 = _ => assert (Hk : keeps log_state (m : M _)) by keeps_auto end;
      apply Hk.
Qed.

Lemma created_or_quiet G n n' :
  sound G n -> is_leader n = true -> quiet n n' \/ created n n' -> leads_on n n' -> advances G n n'.
Proof. intros Hs Hl [Hq|Hcr] Hlo; [by apply quiet_advances|by apply created_advances]. Qed.

Lemma move_advances tuning G F n F' n' :
  move tuning room (F, n) (F', n') -> sound G n -> genuine G F -> sane n ->
  (forall im, delivered F im -> honest im) -> advances G n n'.
Proof.
  intros Hm Hs HG Hw Hh. assert (Hl : leads_on n n').
  { intros Hl. destruct (step_leader _ _ (move_safe _ _ _ _ _ _ Hm Hw Hh) Hl) as [? E]. auto. }
  pose proof (so_coherent _ _ Hs) as Hc.
  inversion Hm as [? ? ? Hcalm|? ? t ? Es Ei Eg|? ? ? Hd|? ? ? Ht Hu|? ? Ht|? ? p|? ? p
    |? ? ps Hlead Hr|? ? ps Hlead Hr Hne]; subst.
  - apply quiet_advances; [done|by apply calm_quiet|done].
  - apply quiet_advances; [done| |done]. apply state_quiet. unfold log_state, batches. cbn. by rewrite Es.
  - by eapply inbound_advances.
  - apply quiet_advances; [done| |done]. apply state_quiet, state_step_down.
  - apply quiet_advances; [done| |done]. apply state_quiet, state_start_campaign.
  - apply quiet_advances; [done|apply quiet_append_attempt|done].
  - apply quiet_advances; [done|apply quiet_bare_heartbeat|done].
  - apply created_or_quiet; [done|done| |done]. by apply append_and_send_created; [|apply Hw|].
  - apply created_or_quiet; [done|done| |done]. by apply replicate_created; [|apply Hw| |].
Qed.

Lemma genuine_mono G G' F F' : G ⊆ G' -> F' ⊆ F -> genuine G F -> genuine G' F'.
Proof.
  intros HG HF Hg im Hd. destruct (Hg im) as [Hi Hb]; [by eapply delivered_mono|].
  split; [done|]. intros b Hb'. by eapply valid_mono; [|apply Hb].
Qed.

Lemma walk_advances tuning I n0 G F n F' n' :
  walk tuning room (F, n) (F', n') -> on_course I n0 n -> F ⊆ I -> genuine G I -> sound G n ->
  advances G n n'.
Proof.
  intros Hw. remember (F, n) as x eqn:Ex. remember (F', n') as y eqn:Ey. revert G F n F' n' Ex Ey.
  induction Hw as [x|x [F1 n1] z Hm _ IH]; intros G F n F' n' -> Ey Hc HF HG Hs.
  { injection Ey as -> ->. apply quiet_advances; [done|done|]. by intros ?. }
  assert (Hh : forall im, delivered F im -> honest im).
  { intros im Him. apply Hc. by eapply delivered_mono. }
  assert (Hw : sane n) by apply Hc.
  pose proof (move_safe _ _ _ _ _ _ Hm Hw Hh) as Hsafe.
  apply advances_trans with n1.
  - eapply move_advances; [exact Hm|done|by eapply genuine_mono|done|done].
  - intros G' HG' Hs'. apply (IH G' F1 n1 F' n' eq_refl Ey).
    + by eapply on_course_step.
    + pose proof (move_frames _ _ _ _ _ _ Hm). pose proof (proj1 (proj2 (proj2 Hc))). set_solver.
    + by eapply genuine_mono.
    + done.
Qed.

(** Taking office: no entry of the new term is in the history. *)
Lemma office_sound G n :
  sound G n -> (forall i, G !! (i, node_term (become_leader n).2) = None) ->
  sound G (become_leader n).2.
Proof.
  intros [Hc Hch Hb _] Hfresh. pose proof (state_become_leader n) as Hk.
  pose proof (state_positions _ _ Hk) as Hp. pose proof (positions_log _ _ Hp) as El. split.
  - by eapply quiet_coherent; [apply state_quiet|].
  - by rewrite El.
  - unfold log_state in Hk. assert (batches (become_leader n).2 = batches n) as -> by congruence. done.
  - intros _ i [x Hi]. by rewrite Hfresh in Hi.
Qed.
End LogSafety.

(** ** The reference storages *)

Lemma run_consecutive (log : Log) top from k :
  (forall i, 1 <= i <= top -> is_Some (log !! i)) -> (forall i, i < 1 -> log !! i = None) ->
  from + Z.of_nat k - 1 <= top ->
  consecutive (Z.max from 1)
    (omap (fun i => (fun tp : Term * bytes => {| e_term := tp.1; e_index := i; e_payload := tp.2 |})
                      <$> log !! i) (seqZ from (Z.of_nat k))).
Proof.
  intros Hin Hout. revert from. induction k as [|k IH]; intros from Hk; [done|].
  rewrite Nat2Z.inj_succ, seqZ_cons by lia.
  replace (Z.pred (Z.succ (Z.of_nat k))) with (Z.of_nat k) by lia. cbn [omap list_omap].
  specialize (IH (Z.succ from) ltac:(lia)).
  destruct (Z.lt_ge_cases from 1) as [Hlt|Hge].
  - rewrite Hout by done. cbn. by replace (Z.max from 1) with (Z.max (Z.succ from) 1) by lia.
  - destruct (Hin from) as [tp ->]; [lia|]. cbn. apply consecutive_cons. cbn. split; [lia|].
    by replace (Z.max from 1 + 1) with (Z.max (Z.succ from) 1) by lia.
Qed.

Lemma mem_entries_run from to v : solid (v_log v) -> consecutive (Z.max from 1) (mem_entries from to v).
Proof.
  intros Hs. unfold mem_entries. set (len := _ - from).
  destruct (Z.lt_ge_cases len 0) as [Hneg|Hpos]; [by rewrite seqZ_nil by lia|].
  replace len with (Z.of_nat (Z.to_nat len)) by lia.
  assert (Ht : tip_of (v_log v) (log_last (v_log v))).
  { destruct (decide (v_log v = ∅)) as [E|Hne]; [left; split; [done|by rewrite E]|right; by apply log_last_spec]. }
  apply (run_consecutive _ (log_last (v_log v)).1).
  - intros i Hi. by eapply tip_below.
  - intros i Hi. destruct (v_log v !! i) eqn:E; [|done]. destruct (Hs i) as [? _]; [eauto|lia].
  - lia.
Qed.

#[export] Instance MemStorage_ordered : OrderedReads MemStorage.
Proof.
  split.
  - intros from to buf s es s' Hs [= <- _]. by apply mem_entries_run.
  - done.
  - done.
  - intros s p s' [= <- _] He. cbn in *. by rewrite He.
Qed.

#[export] Instance View_ordered : OrderedReads View.
Proof.
  split.
  - intros from to buf s es s' Hs [= <- _]. by apply mem_entries_run.
  - done.
  - done.
  - intros s p s' [= <- _] He. change (v_log s = ∅) in He. change (log_last (v_log s) = (0, 0)).
    by rewrite He.
Qed.

#[export] Instance View_faultless : FaultlessLog View.
Proof.
  split.
  - by intros es s e s' [= ? <-].
  - by intros hs ps s e s' [= ? <-].
  - by intros i s e s' [= ? <-].
  - intros s. by eexists _, _.
Qed.
