(* ===== verification/Monitor.v ===== *)
(** * Monitor: a storage with a record of its faults

    [Monitored S] is the storage [S] behind a monitor.  As long as the monitor is
    [Live] every call is the call of [S] and has its result.  It trips on a fault:
    a write of the hard state that fails, a write of the log that fails and has
    changed it all the same, a last position that cannot be read.  From then on
    the monitor answers for the storage, without further faults, and stays
    [Tripped].  So whatever holds of nodes over storages without faults holds of
    the runs of a node over [S] in which the monitor is [Live] at the end. *)

From stdpp Require Import base list sets gmap strings.
From Stdlib Require Import ZArith Lia.
From S2P Require Import Prelude Types Wire Codec Traits Walks Chains LogSafety.

Local Open Scope Z_scope.

#[export] Instance HardState_eq_dec : EqDecision HardState.
Proof. solve_decision. Defined.
#[export] Instance SnapshotMeta_eq_dec : EqDecision SnapshotMeta.
Proof. solve_decision. Defined.
#[export] Instance View_eq_dec : EqDecision View.
Proof. solve_decision. Defined.

Inductive Monitored (S : Type) := Live (s : S) | Tripped (v : View).
Arguments Live {S} _.
Arguments Tripped {S} _.

Section Monitor.
Context {S : Type} `{StorageLaws S}.

Definition mon_view (m : Monitored S) : View :=
  match m with Live s => sview s | Tripped v => v end.

(** A call that is passed on. *)
Definition passes {A} (op : S -> res A * S) (instead : View -> res A * View) (m : Monitored S)
  : res A * Monitored S :=
  match m with
  | Live s => let '(r, s) := op s in (r, Live s)
  | Tripped v => let '(r, v) := instead v in (r, Tripped v)
  end.

(** A call that must not fail. *)
Definition must {A} (op : S -> res A * S) (instead : View -> res A * View) (m : Monitored S)
  : res A * Monitored S :=
  match m with
  | Live s =>
      match op s with
      | (Ok a, s) => (Ok a, Live s)
      | (Err _, _) => let '(r, v) := instead (sview s) in (r, Tripped v)
      end
  | Tripped v => let '(r, v) := instead v in (r, Tripped v)
  end.

(** A write that must not be torn. *)
Definition whole (op : S -> res unit * S) (instead : View -> res unit * View) (m : Monitored S)
  : res unit * Monitored S :=
  match m with
  | Live s =>
      match op s with
      | (Ok _, s') => (Ok tt, Live s')
      | (Err e, s') => (Err e, if decide (sview s' = sview s) then Live s' else Tripped (sview s))
      end
  | Tripped v => let '(r, v) := instead v in (r, Tripped v)
  end.

#[export] Instance Monitored_storage : RaftStorage (Monitored S) := {
  load_hard_state := passes load_hard_state load_hard_state;
  save_hard_state h := must (save_hard_state h) (save_hard_state h);
  append_entries es := whole (append_entries es) (append_entries es);
  append_entries_seeded hs ps := whole (append_entries_seeded hs ps) (append_entries_seeded hs ps);
  read_entries from to buf := passes (read_entries from to buf) (read_entries from to buf);
  read_entry_headers from to := passes (read_entry_headers from to) (read_entry_headers from to);
  for_each_payload from to := passes (for_each_payload from to) (for_each_payload from to);
  entry_at i buf := passes (entry_at i buf) (entry_at i buf);
  storage_term_at i := passes (storage_term_at i) (storage_term_at i);
  last_log_position := must last_log_position last_log_position;
  truncate_suffix from := whole (truncate_suffix from) (truncate_suffix from);
  truncate_before up_to := passes (truncate_before up_to) (truncate_before up_to);
  save_snapshot m b := passes (save_snapshot m b) (save_snapshot m b);
  load_snapshot := passes load_snapshot load_snapshot;
  load_snapshot_meta := passes load_snapshot_meta load_snapshot_meta;
}.

(** ** While the monitor is live, the storage answers *)

Lemma passes_live {A} op instead s (r : res A) s' :
  passes op instead (Live s) = (r, Live s') -> op s = (r, s').
Proof. unfold passes. destruct (op s). by intros [= <- <-]. Qed.

Lemma must_live {A} op instead s (r : res A) s' :
  must op instead (Live s) = (r, Live s') -> op s = (r, s').
Proof.
  unfold must. destruct (op s) as [[a|e] s1]; [by intros [= <- <-]|]. by destruct (instead (sview s)).
Qed.

Lemma whole_live op instead s (r : res unit) s' :
  whole op instead (Live s) = (r, Live s') -> op s = (r, s').
Proof.
  unfold whole. destruct (op s) as [[[]|e] s1]; [by intros [= <- <-]|]. case_decide; [|done].
  by intros [= <- <-].
Qed.

(** A monitor that tripped stays so: one that is live was. *)
Lemma passes_was_live {A} op instead m (r : res A) s' :
  passes op instead m = (r, Live s') -> exists s, m = Live s.
Proof. destruct m as [s|v]; [by exists s|]. cbn. by destruct (instead v). Qed.

Lemma must_was_live {A} op instead m (r : res A) s' :
  must op instead m = (r, Live s') -> exists s, m = Live s.
Proof. destruct m as [s|v]; [by exists s|]. cbn. by destruct (instead v). Qed.

Lemma whole_was_live op instead m (r : res unit) s' :
  whole op instead m = (r, Live s') -> exists s, m = Live s.
Proof. destruct m as [s|v]; [by exists s|]. cbn. by destruct (instead v). Qed.

(** ** The laws *)

Lemma passes_reads {A} (op : S -> res A * S) instead P :
  reads sview op P -> reads (fun v => v) instead P -> reads mon_view (passes op instead) P.
Proof.
  intros Ho Hi [s|v] r m'; cbn.
  - destruct (op s) as [r1 s1] eqn:E. intros [= <- <-]. by apply Ho in E.
  - destruct (instead v) as [r1 v1] eqn:E. intros [= <- <-]. by apply Hi in E.
Qed.

Lemma passes_writes (op : S -> res unit * S) instead P Q :
  writes sview op P Q -> writes (fun v => v) instead P Q -> writes mon_view (passes op instead) P Q.
Proof.
  intros Ho Hi [s|v] r m'; cbn.
  - destruct (op s) as [r1 s1] eqn:E. intros [= <- <-]. by apply Ho in E.
  - destruct (instead v) as [r1 v1] eqn:E. intros [= <- <-]. by apply Hi in E.
Qed.

Lemma must_reads {A} (op : S -> res A * S) instead P :
  reads sview op P -> reads (fun v => v) instead P -> reads mon_view (must op instead) P.
Proof.
  intros Ho Hi [s|v] r m'; cbn.
  - destruct (op s) as [[a|e] s1] eqn:E; [intros [= <- <-]; by apply Ho in E|].
    destruct (instead (sview s)) as [r1 v1] eqn:E1. intros [= <- <-]. by apply Hi in E1.
  - destruct (instead v) as [r1 v1] eqn:E. intros [= <- <-]. by apply Hi in E.
Qed.

Lemma must_writes (op : S -> res unit * S) instead P Q :
  writes sview op P Q -> writes (fun v => v) instead P Q -> writes mon_view (must op instead) P Q.
Proof.
  intros Ho Hi [s|v] r m'; cbn.
  - destruct (op s) as [[a|e] s1] eqn:E; [intros [= <- <-]; by apply Ho in E|].
    destruct (instead (sview s)) as [r1 v1] eqn:E1. intros [= <- <-]. by apply Hi in E1.
  - destruct (instead v) as [r1 v1] eqn:E. intros [= <- <-]. by apply Hi in E.
Qed.

Lemma whole_writes (op : S -> res unit * S) instead P Q :
  (forall v, Q v v) ->
  writes sview op P Q -> writes (fun v => v) instead P Q -> writes mon_view (whole op instead) P Q.
Proof.
  intros Hq Ho Hi [s|v] r m'; cbn.
  - destruct (op s) as [[[]|e] s1] eqn:E; [intros [= <- <-]; by apply Ho in E|].
    intros [= <- <-]. split; [|done]. case_decide as Hv; [|apply Hq]. cbn. by apply Ho in E as [? _].
  - destruct (instead v) as [r1 v1] eqn:E. intros [= <- <-]. by apply Hi in E.
Qed.

#[export] Instance Monitored_laws : StorageLaws (Monitored S).
Proof.
  apply (Build_StorageLaws (Monitored S) _ mon_view); intros;
    first [apply passes_reads | apply passes_writes | apply must_reads | apply must_writes
          | apply whole_writes; [done|..]].
  1: exact load_hard_state_law. 1: exact (load_hard_state_law (S := View)).
  1: exact (save_hard_state_law _). 1: exact (save_hard_state_law (S := View) _).
  1: exact (append_entries_law _). 1: exact (append_entries_law (S := View) _).
  1: exact (append_entries_seeded_law _ _). 1: exact (append_entries_seeded_law (S := View) _ _).
  1: exact (read_entries_law _ _ _). 1: exact (read_entries_law (S := View) _ _ _).
  1: exact (read_entry_headers_law _ _). 1: exact (read_entry_headers_law (S := View) _ _).
  1: exact (for_each_payload_law _ _). 1: exact (for_each_payload_law (S := View) _ _).
  1: exact (entry_at_law _ _). 1: exact (entry_at_law (S := View) _ _).
  1: exact (storage_term_at_law _). 1: exact (storage_term_at_law (S := View) _).
  1: exact last_log_position_law. 1: exact (last_log_position_law (S := View)).
  1: exact (truncate_suffix_law _). 1: exact (truncate_suffix_law (S := View) _).
  1: exact (truncate_before_law _). 1: exact (truncate_before_law (S := View) _).
  1: exact (save_snapshot_law _ _). 1: exact (save_snapshot_law (S := View) _ _).
  1: exact load_snapshot_law. 1: exact (load_snapshot_law (S := View)).
  1: exact load_snapshot_meta_law. 1: exact (load_snapshot_meta_law (S := View)).
Defined.

#[export] Instance Monitored_reliable : ReliableHardState (Monitored S).
Proof.
  intros h [s|v]; cbn; [|done]. by destruct (save_hard_state h s) as [[[]|e] s1].
Qed.

Lemma whole_atomic op instead m e m' :
  (forall v e v', instead v = (Err e, v') -> v' = v) ->
  whole op instead m = (Err e, m') -> mon_view m' = mon_view m.
Proof.
  intros Hi. destruct m as [s|v]; cbn.
  - destruct (op s) as [[[]|e1] s1]; [done|]. intros [= _ <-]. by case_decide.
  - destruct (instead v) as [r v1] eqn:E. intros [= -> <-]. cbn. by apply Hi in E.
Qed.

#[export] Instance Monitored_faultless : FaultlessLog (Monitored S).
Proof.
  split.
  - intros es m e m'. by apply whole_atomic.
  - intros hs ps m e m'. by apply whole_atomic.
  - intros i m e m'. by apply whole_atomic.
  - intros [s|v]; cbn; [|by eexists _, _].
    destruct (last_log_position s) as [[p|e] s1]; by eexists _, _.
Qed.

#[export] Instance Monitored_ordered `{!OrderedReads S} : OrderedReads (Monitored S).
Proof.
  split.
  - intros from to buf [s|v] es m' Hs; cbn in *.
    + destruct (read_entries from to buf s) as [r s1] eqn:E. intros [= -> _]. by eapply read_entries_run.
    + intros [= <- _]. by apply mem_entries_run.
  - intros from to [s|v] hs m' Hs; cbn in *; [|done].
    destruct (read_entry_headers from to s) as [r s1] eqn:E. intros [= -> _].
    by eapply read_entry_headers_run.
  - intros from to [s|v] ps m' Hs; cbn in *; [|done].
    destruct (for_each_payload from to s) as [r s1] eqn:E. intros [= -> _].
    by eapply for_each_payload_run.
  - intros [s|v] p m'; cbn.
    + destruct (last_log_position s) as [[q|e] s1] eqn:E.
      * intros [= <- _]. by eapply last_log_position_empty.
      * intros [= <- _] He. by rewrite He.
    + intros [= <- _] He. by rewrite He.
Qed.
End Monitor.
