(* ===== verification/ReadFacts.v ===== *)
(** * ReadFacts: linearizable reads and leadership transfers

    A read is answered only after a majority of the voters confirmed, in
    answers that carry the probe of this read, that the node leads its term; a
    transfer sanctions only a target that is recorded to have the whole log, while
    the node still leads the term it started in. *)

From stdpp Require Import base list sets gmap strings.
From Stdlib Require Import ZArith Lia.
From S2P Require Import Prelude Types Wire Codec CodecFacts Arena Progress Quorum Traits.
From S2P Require Import Membership NodeState Node Samples Election ConfigChange Replication Commit.
From S2P Require Import Snapshot Transfer Inbound Campaign Leader Install Propose ReadIndex Frames.
From S2P Require Import Stability Durability Safety CampaignFacts Walks LeaderSafety.

Local Open Scope Z_scope.

Section Transfers.
Context {S T C D : Type} `{RaftStorage S} `{RaftTransport T} `{Clock C} `{CustomDispatch D T}.
Implicit Types n : RaftNode S T C D.

(** The node leads the term and has the target recorded at the end of its log. *)
Definition ready (target : PeerId) (term : Term) n : Prop :=
  is_leader n = true /\ node_term n = term /\
  exists p, pm_get target (peer_progress n) = Some p /\ (cached_last_log n).1 <= match_index p.

Lemma target_caught_up_recorded target n :
  target_caught_up target n = true ->
  exists p, pm_get target (peer_progress n) = Some p /\ (cached_last_log n).1 <= match_index p.
Proof.
  unfold target_caught_up. destruct (pm_get target (peer_progress n)) as [p|]; [|done].
  intros E. zbool. eauto.
Qed.

Lemma lost_leadership_false term n :
  lost_leadership term n = false -> is_leader n = true /\ node_term n = term.
Proof. unfold lost_leadership. intros E. zbool. split; [by destruct (is_leader n)|lia]. Qed.

Lemma catch_up_loop_ready fuel target term deadline next last len n :
  returns (catch_up_loop fuel target term deadline next last len) n
    (fun r n' => r = Ok tt -> ready target term n').
Proof.
  revert next last n. induction fuel as [|fuel IH]; intros next last n; cbn [catch_up_loop]; [done|].
  apply returns_gets. destruct (lost_leadership term n) eqn:Hl.
  { apply returns_gets, returns_run. done. }
  apply returns_gets. destruct (target_caught_up target n) eqn:Hu.
  { apply returns_ret. intros _. apply lost_leadership_false in Hl as [? ?].
    split_and!; [done|done|by apply target_caught_up_recorded]. }
  apply returns_bind, returns_run. destruct (now n) as [[t|e] n1]; cbn [fst snd]; [|done].
  destruct (_ <=? _); [by apply returns_run|].
  apply returns_bind. intros [[next' last']|e] n2 _; [|done].
  apply returns_bind. intros [msgs|e] n3 _; [|done].
  apply returns_bind. intros [[]|e] n4 _; [|done]. apply IH.
Qed.

(** The sanction: the message is with the transport, then proposals are frozen for
    one election timeout. *)
Definition sanctioned (target : PeerId) (term : Term) m n' : Prop :=
  exists m1 t m2,
    send_message target (MTimeoutNow {| tn_term := term; tn_leader_id := node_id m |}) m = (Ok true, m1) /\
    now m1 = (Ok t, m2) /\
    n' = set_pending_transfer (Some {| pt_target := target; pt_deadline := t + election_timeout m2 |}) m2.

Lemma sanction_inv target term n n' :
  sanction target term n = (Ok tt, n') -> sanctioned target term n n'.
Proof.
  unfold sanction. rewrite bind_gets. intros E.
  apply bind_inv_Ok in E as (sent & n1 & E1 & E). destruct sent; cbn [negb] in E; [|done].
  apply bind_inv_Ok in E as (t & n2 & E2 & E). injection E as <-. by exists n1, t, n2.
Qed.

(** C18: a leadership transfer that succeeds has sanctioned its target: the target
    is a voter; the catch-up loop ended in a state in which the node leads the term
    the transfer started in and has the target recorded (by its match index) at the
    end of its log; from there TimeoutNow of that term was handed to the transport,
    which took it, and proposals were frozen toward the target for one election
    timeout; nothing else happened after.  A transfer to oneself does nothing, and a
    node that does not lead transfers nothing. *)
Theorem transfer_leadership_sound fuel target len n n' :
  transfer_leadership fuel target len n = Ok (Ok tt, n') ->
  is_leader n = true /\
  ((target = node_id n /\ n' = n) \/
   (target <> node_id n /\ target ∈ node_peers n /\ exists deadline first n0 m,
      catch_up_loop fuel target (node_term n) deadline first u64_max len n0 = Ok (Ok tt, m) /\
      ready target (node_term n) m /\ sanctioned target (node_term n) m n')).
Proof.
  intros E. enough (Hr : returns (transfer_leadership fuel target len) n (fun r n' =>
    r = Ok tt -> is_leader n = true /\
    ((target = node_id n /\ n' = n) \/
     (target <> node_id n /\ target ∈ node_peers n /\ exists deadline first n0 m,
        catch_up_loop fuel target (node_term n) deadline first u64_max len n0 = Ok (Ok tt, m) /\
        ready target (node_term n) m /\ sanctioned target (node_term n) m n'))))
    by by apply (Hr _ _ E).
  unfold transfer_leadership. apply returns_gets.
  destruct (is_leader n) eqn:Hl; cbn [negb]; [|by apply returns_gets, returns_run].
  apply returns_gets. destruct (Z.eqb_spec target (node_id n)) as [->|Hne].
  { apply returns_ret. auto. }
  apply returns_gets. destruct (contains target _) eqn:Hm; cbn [negb]; [|by apply returns_run].
  membership. apply returns_bind, returns_run.
  assert (K : keeps node_term (ensure_leader_progress_initialized : M S T C D _)).
  { unfold ensure_leader_progress_initialized, initialize_leader_progress. keeps_auto. }
  specialize (K n). destruct (ensure_leader_progress_initialized n) as [[[]|e] n1];
    cbn [fst snd] in *; [|done].
  apply returns_gets, returns_bind, returns_run. rewrite K.
  destruct (now n1) as [[t|e] n2]; cbn [fst snd]; [|done].
  apply returns_gets, returns_bind, returns_run.
  destruct (now n2) as [[t'|e] n3]; cbn [fst snd]; [|done].
  apply returns_bind. intros [[]|e] n4 El; [|done].
  pose proof (catch_up_loop_ready _ _ _ _ _ _ _ _ _ _ El eq_refl) as Hr.
  apply returns_run. intros E'. destruct (sanction target _ n4) as [r n5] eqn:Es.
  cbn in E'. subst r. apply sanction_inv in Es. split; [done|]. right. split_and!; [done|done|].
  by eexists _, _, n3, n4.
Qed.
End Transfers.

(** The probe of a confirmation is not the one before it, and never 0. *)
Lemma next_probe_seq_fresh seq : next_probe_seq seq <> seq /\ next_probe_seq seq <> 0.
Proof.
  unfold next_probe_seq, wrap_add32. destruct (Z.eqb_spec ((seq + 1) mod 2 ^ 32) 0) as [E|Hne].
  - split; [|done]. intros <-. vm_compute in E. done.
  - split; [|done]. intros E. pose proof (Z.mod_pos_bound (seq + 1) (2 ^ 32) eq_refl) as Hb.
    rewrite E in Hb. destruct (Z.eq_dec (seq + 1) (2 ^ 32)) as [E'|?]; [by rewrite E' in Hne|].
    rewrite Z.mod_small in E by lia. lia.
Qed.

Section Reads.
Context {S T C D : Type} `{StorageLaws S} `{!HardStateIntegrity S} `{TransportLaws T} `{Clock C}
  `{!CustomDispatch D T} `{!DispatchLaws D T}.
Implicit Types n : RaftNode S T C D.

(** Votes do not matter here. *)
Definition all_lapsed : Lapsed := fun _ => True.
#[local] Existing Instance all_lapsed.

Lemma behind_terms n : 0 <= current_term (durable n) <= node_term n -> behind n.
Proof.
  unfold node_term. intros [Hz Ht]. split; [done|]. unfold steady, lapsed, all_lapsed.
  destruct (Z.eq_dec (current_term (durable n)) (current_term (hard_state n))); [right; auto|left; lia].
Qed.

(** An answer among the frames [I] with which [p] confirmed the probe. *)
Definition confirms (I : list bytes) (term : Term) (probe : Z) (p : PeerId) : Prop :=
  exists im r, delivered I im /\ im_from im = p /\ im_message im = MAppendEntriesResp r /\
               aer_term r = term /\ echoed_probe r = probe.

(** Distinct voters that confirmed, with the node itself. *)
Definition acks_ok (I : list bytes) (term : Term) (probe : Z) n (acks : list PeerId) : Prop :=
  voters_of (node_peers n) acks /\
  Forall (fun p => p = node_id n \/ confirms I term probe p) acks.

Lemma acks_ok_voters I term probe n n' acks :
  voters n' = voters n -> acks_ok I term probe n acks -> acks_ok I term probe n' acks.
Proof.
  unfold voters, acks_ok. intros E.
  assert (Hi : node_id n' = node_id n) by congruence.
  assert (Hp : node_peers n' = node_peers n) by congruence. by rewrite Hi, Hp.
Qed.

Lemma record_ack_ok I term probe im n acks :
  delivered I im -> acks_ok I term probe n acks ->
  acks_ok I term probe n (record_ack term probe im acks n).
Proof.
  intros Hd Ha. unfold record_ack. destruct (im_message im) eqn:Hm; try done.
  destruct (_ && _) eqn:Hc; [|done]. zbool. membership. destruct Ha as [[Hn Hp] Hb].
  split; [split|].
  - apply NoDup_app. split; [done|]. split; [|apply NoDup_singleton].
    by intros p ? ->%list_elem_of_singleton.
  - intros p [Hin|Hin]%elem_of_app; [auto|]. by apply list_elem_of_singleton in Hin as ->.
  - apply Forall_app. split; [done|]. apply Forall_singleton. right. by exists im, m.
Qed.

Lemma confirm_frames_ok I term probe msgs acks n0 n acks' n' :
  on_course I n0 n -> Forall (delivered I) msgs -> acks_ok I term probe n acks ->
  confirm_frames term probe msgs acks n = (Ok acks', n') -> acks_ok I term probe n' acks'.
Proof.
  revert acks n. induction msgs as [|im msgs IH]; intros acks n Hc Hm Ha; cbn [confirm_frames].
  { by intros [= <- <-]. }
  apply Forall_cons in Hm as [Hd Hm]. rewrite bind_gets. intros E.
  apply bind_inv_Ok in E as ([] & n1 & E1 & E).
  pose proof (proj1 (proj2 (proj2 (proj2 Hc)) im Hd)) as Hh.
  pose proof (on_course_safe _ _ _ _ Hc (safe_tolerant im n Hh)) as Hc1. rewrite E1 in Hc1.
  cbn [snd] in Hc1. eapply IH; [done|done| |exact E].
  apply (acks_ok_voters _ _ _ n); [by eapply course_voters|]. by apply record_ack_ok.
Qed.

Lemma confirm_probe_course fuel next t heartbeat I n0 n :
  on_course I n0 n ->
  returns (if next <=? t then send_heartbeat_once fuel;; mret (t + heartbeat) else mret next) n
    (fun _ n' => on_course I n0 n').
Proof.
  intros Hc. destruct (_ <=? _); [|by apply returns_ret].
  by apply (courses_then _ (t + heartbeat) (courses_heartbeat fuel)).
Qed.

(** What a successful confirmation shows at the node [n] it ends in. *)
Definition confirmed (I : list bytes) (term : Term) (probe : Z) n : Prop :=
  exists acks, voter_majority acks n = true /\ acks_ok I term probe n acks.

Lemma confirm_loop_ok fuel term probe deadline next len acks I n0 n :
  on_course I n0 n -> acks_ok I term probe n acks ->
  returns (confirm_loop fuel term probe deadline next len acks) n (fun r n' =>
    on_course I n0 n' /\
    (r = Ok tt -> is_leader n' = true /\ node_term n' = term /\ confirmed I term probe n')).
Proof.
  revert next acks n. induction fuel as [|fuel IH]; intros next acks n Hc Ha;
    cbn [confirm_loop]; [done|].
  apply returns_gets. destruct (lost_leadership term n) eqn:Hl.
  { apply returns_gets, returns_run. by split. }
  apply lost_leadership_false in Hl as [Hl Ht].
  apply returns_gets. destruct (voter_majority acks n) eqn:Hmaj.
  { apply returns_ret. split; [done|]. intros _. split; [done|]. split; [done|]. by exists acks. }
  apply returns_bind, returns_run.
  pose proof (on_course_safe _ _ _ _ Hc (safe_keeps _ n keeps_view_now)) as Hc1.
  destruct (now n) as [[t|e] n1]; cbn [fst snd] in *; [|by split].
  destruct (_ <=? _); [apply returns_run; by split|].
  apply returns_gets, returns_bind.
  eapply returns_mono; [|apply (confirm_probe_course fuel _ _ _ I n0); exact Hc1].
  cbv beta. intros [next'|e] n2 Hc2; [|by split].
  apply returns_bind. eapply returns_mono; [|by apply drain_loop_course].
  cbv beta. intros [msgs|e] n3 [Hc3 Hm]; [|by split]. specialize (Hm msgs eq_refl).
  apply returns_bind, returns_run.
  assert (Hc4 : on_course I n0 (confirm_frames term probe msgs acks n3).2)
    by (apply strolls_course; [by apply strolls_confirm|done]).
  destruct (confirm_frames _ _ _ _ n3) as [[acks'|e] n4] eqn:E4; cbn [fst snd] in *; [|by split].
  apply IH; [done|]. eapply (confirm_frames_ok I term probe msgs acks n0 n3); [done|done| |done].
  apply (acks_ok_voters _ _ _ n); [by eapply course_voters|done].
Qed.

(** C17: confirming leadership: a confirmation that succeeds ends with a majority
    of the voters, each of them the node itself or the sender of a delivered
    answer of the confirmed term that echoes the probe of this confirmation, which
    is not 0 and not the probe of the confirmation before it; and at the end the
    node leads the confirmed term.  Only a node that is a majority by itself is
    confirmed at once: nothing but its probe counter changes, and whether it leads
    is not looked at. *)
Theorem confirm_leadership_sound fuel term len n n' :
  widths n -> 0 <= current_term (durable n) <= node_term n ->
  fair_inbox (node_inbox n) n -> node_id n ∈ node_peers n ->
  confirm_leadership_quorum fuel term len n = Ok (Ok tt, n') ->
  let probe := next_probe_seq (read_probe_seq n) in
  probe <> read_probe_seq n /\ probe <> 0 /\
  confirmed (node_inbox n) term probe n' /\
  (voter_majority [node_id n] n = true /\ n' = set_read_probe_seq probe n \/
   is_leader n' = true /\ node_term n' = term).
Proof.
  intros Hw Hd Hf Hself E. cbv zeta.
  split; [apply next_probe_seq_fresh|]. split; [apply next_probe_seq_fresh|].
  set (probe := next_probe_seq (read_probe_seq n)).
  set (n1 := set_read_probe_seq probe n).
  assert (Hc1 : on_course (node_inbox n) n n1).
  { apply (on_course_step _ _ n); [|by apply safe_same_view].
    split; [reflexivity|]. split; [|done]. split; [done|by apply behind_terms]. }
  assert (Hack : acks_ok (node_inbox n) term probe n1 [node_id n]).
  { split; [|apply Forall_singleton; by left]. split; [apply NoDup_singleton|].
    by intros p ->%list_elem_of_singleton. }
  enough (Hr : returns (confirm_leadership_quorum fuel term len) n (fun r n' => r = Ok tt ->
    confirmed (node_inbox n) term probe n' /\
    (voter_majority [node_id n] n = true /\ n' = n1 \/ is_leader n' = true /\ node_term n' = term)))
    by by apply (Hr _ _ E).
  unfold confirm_leadership_quorum. apply returns_bind, returns_run.
  cbn [modify fst snd]. fold probe. fold n1. do 2 apply returns_gets.
  change (voter_majority [node_id n1] n1) with (voter_majority [node_id n] n).
  destruct (voter_majority [node_id n] n) eqn:Halone.
  { apply returns_ret. intros _. split; [by exists [node_id n]|by left]. }
  apply returns_gets, returns_bind, returns_run.
  pose proof (on_course_safe _ _ _ _ Hc1 (safe_keeps _ n1 keeps_view_now)) as Hc2.
  destruct (now n1) as [[t|e] n2]; cbn [fst snd] in *; [|done].
  apply returns_gets, returns_bind, returns_run.
  pose proof (on_course_safe _ _ _ _ Hc2 (safe_keeps _ n2 keeps_view_now)) as Hc3.
  destruct (now n2) as [[t'|e] n3]; cbn [fst snd] in *; [|done].
  eapply returns_mono; [|apply confirm_loop_ok; [exact Hc3|]].
  - cbv beta. intros r m [_ Hok] Er. destruct (Hok Er) as (? & ? & ?). auto.
  - apply (acks_ok_voters _ _ _ n1); [by eapply course_voters|done].
Qed.
End Reads.

(** ** A transfer and a read *)

(** Node 1 leading, with node 2 at the end of its log. *)
Definition caught_up_leader : SampleNode :=
  set_peer_progress (pm_insert 2 {| next_index := 2; match_index := 1 |} [])
    (sample_leader 1 [1; 2; 3] {| current_term := 1; voted_for := Some 1 |} [1]).

Definition transferring_leader : SampleNode :=
  match transfer_leadership 1 2 MAX_FRAME_SIZE caught_up_leader with
  | Ok (_, n) => n
  | Err _ => caught_up_leader
  end.

Lemma transfer_leadership_sound_witness :
  exists m, ready 2 1 m /\ sanctioned 2 1 m transferring_leader.
Proof.
  assert (E : transfer_leadership 1 2 MAX_FRAME_SIZE caught_up_leader
              = Ok (Ok tt, transferring_leader)) by (vm_compute; reflexivity).
  pose proof (transfer_leadership_sound 1 2 MAX_FRAME_SIZE caught_up_leader transferring_leader E)
    as [_ [[Hx _]|(_ & _ & ? & ? & ? & m & _ & Hr & Hs)]]; [discriminate Hx|].
  exists m. split; [exact Hr|exact Hs].
Defined.

(** Node 1 leading over a storage without faults, with the answer of node 2 to
    its first probe in its inbox. *)
Definition probe_request : AppendEntries :=
  {| ae_term := 1; ae_leader_id := 1; ae_prev_log_index := 0; ae_prev_log_term := 0;
     ae_leader_commit := 0; ae_entry_count := 0; ae_pad := 1 |}.

Definition reading_leader : RaftNode View QueueTransport TickClock unit :=
  set_transport {| qt_sent := [];
    qt_inbound := [frame_of 2 (MAppendEntriesResp (append_resp 1 0 true probe_request))] |}
    (become_leader (set_hard_state {| current_term := 1; voted_for := Some 1 |} (fresh_node 1))).2.

Definition read_confirmed : RaftNode View QueueTransport TickClock unit :=
  match confirm_leadership_quorum 5 1 MAX_FRAME_SIZE reading_leader with
  | Ok (_, n) => n
  | Err _ => reading_leader
  end.

Lemma reading_leader_fair : fair_inbox (node_inbox reading_leader) reading_leader.
Proof.
  split; [done|]. intros im (f & Hf & Hd). apply list_elem_of_singleton in Hf as ->.
  pose proof (decode_message_wf _ _ Hd) as Hw. vm_compute in Hd. injection Hd as <-.
  by split; [split|].
Qed.

Lemma confirm_leadership_sound_witness :
  is_leader read_confirmed = true /\ node_term read_confirmed = 1.
Proof.
  assert (E : confirm_leadership_quorum 5 1 MAX_FRAME_SIZE reading_leader
              = Ok (Ok tt, read_confirmed)) by (vm_compute; reflexivity).
  assert (Hw : widths reading_leader) by by repeat split.
  assert (Hd : 0 <= current_term (durable reading_leader) <= node_term reading_leader)
    by (split; vm_compute; discriminate).
  assert (Hs : node_id reading_leader ∈ node_peers reading_leader) by (vm_compute; left).
  pose proof (confirm_leadership_sound 5 1 MAX_FRAME_SIZE reading_leader read_confirmed Hw Hd
                reading_leader_fair Hs E) as (_ & _ & _ & [[Hx _]|Hl]); [discriminate Hx|exact Hl].
Defined.
