(* ===== verification/Cluster.v ===== *)
(** * Cluster: Election Safety

    A cluster of nodes over a network that delivers, delays, repeats, reorders
    and loses frames.  The nodes run the operations of [RaftNode] that the run
    loop is made of (receiving, campaigning, pre-votes, heartbeats, proposals,
    reads, transfers, the demotion without a write), writes of the hard state
    fail or not, leaders that lost contact with a majority give up their office,
    and nodes crash and restart between operations.  A term has at most one
    winner of an election, unless a node gave up its office in that very term.

    What is assumed of the network is the authenticity the transport documents:
    frames come from another node, vote requests name their sender, and a granted
    vote is one that its sender sent.  The voters are fixed: no frame carries a
    change of them and no operation that changes them is run.  Of the storage, a
    failed write of the hard state leaves the old value or the new one
    ([HardStateIntegrity]).

    The exception is not an artefact: a leader that abdicates steps down with its
    own term, which frees its vote, and can vote a second time in that term. *)

From stdpp Require Import base list sets gmap strings.
From Stdlib Require Import ZArith Lia.
From S2P Require Import Prelude Types Wire Codec CodecFacts Arena Progress Quorum Traits.
From S2P Require Import Membership NodeState Node Samples Election ConfigChange Replication Commit.
From S2P Require Import Snapshot Transfer Inbound Campaign Leader Install Propose ReadIndex Frames.
From S2P Require Import Stability Durability Safety CampaignFacts LeaderSafety Monitor.

Local Open Scope Z_scope.

(** The operations a node runs. *)
Inductive Action :=
| Receive
| Campaign
| PreVoteRound
| Heartbeat
| ProposeBatch (payloads : list bytes)
| ReplicateBatch (payloads : list bytes)
| LinearizableRead
| TransferTo (target : PeerId)
| StandDown.

(** The terms of [i] in a list of nodes and terms. *)
Definition freed (abdications : list (PeerId * Term)) (i : PeerId) : Lapsed :=
  fun t => (i, t) ∈ abdications.

Lemma lapsed_given (L1 L2 : Lapsed) h t p :
  (forall t, L1 t -> L2 t) -> given (H := L1) h t p -> given (H := L2) h t p.
Proof. intros Hl [?|?]; [left; by apply Hl|by right]. Qed.

Lemma lapsed_steady (L1 L2 : Lapsed) h h' :
  (forall t, L1 t -> L2 t) -> steady (H := L1) h h' -> steady (H := L2) h h'.
Proof. intros Hl [?|[? [?|?]]]; [by left|right..]; split; auto. left. by apply Hl. Qed.

Section Cluster.
Context {S T C D : Type} `{StorageLaws S} `{!HardStateIntegrity S} `{TransportLaws T} `{Clock C}
  `{!CustomDispatch D T} `{!DispatchLaws D T}.
Context (tuning : VecTuning).
Implicit Types n : RaftNode S T C D.
#[local] Abbreviation L := (L S T C D).

(** Whether the operation won an election. *)
Definition act (fuel : nat) (a : Action) : L bool :=
  match a with
  | Receive => run (handle_once MAX_FRAME_SIZE);; mret false
  | Campaign => campaign_once fuel MAX_FRAME_SIZE
  | PreVoteRound => campaign_pre_vote fuel MAX_FRAME_SIZE;; mret false
  | Heartbeat => send_heartbeat_once fuel;; mret false
  | ProposeBatch ps => propose_batch_once tuning fuel ps;; mret false
  | ReplicateBatch ps => run (replicate_batch_async tuning ps);; mret false
  | LinearizableRead => read_index tuning fuel MAX_FRAME_SIZE;; mret false
  | TransferTo p => transfer_leadership fuel p MAX_FRAME_SIZE;; mret false
  | StandDown => run demote_to_follower_keep_term;; mret false
  end.

(** The nodes; every vote ever sent; every node and term at which it won an
    election; every node and term at which it abdicated. *)
Record Cluster := {
  nodes : gmap Z (RaftNode S T C D);
  ledger : list Vote;
  elected : list (PeerId * Term);
  abdicated : list (PeerId * Term);
}.

(** A frame the network may deliver to [i]. *)
Definition allowed (votes_sent : list Vote) (i : PeerId) (f : bytes) : Prop :=
  forall im, decode_message f = Ok im ->
    honest im /\ im_from im <> i /\
    forall r, im_message im = MRequestVoteResp r -> rvr_vote_granted r <> 0 ->
      (im_from im, rvr_term r, i) ∈ votes_sent.

(** The cluster after node [i] moved to [n], took office and abdicated at the
    given terms. *)
Definition record_step (i : PeerId) n (offices lapses : list Term) (c : Cluster) : Cluster :=
  {| nodes := <[i := n]> (nodes c);
     ledger := ledger c ++ votes n;
     elected := map (fun t => (i, t)) offices ++ elected c;
     abdicated := map (fun t => (i, t)) lapses ++ abdicated c |}.

(** The term an operation that ended in [n] with the result [r] won. *)
Definition office_won (r : res bool) n : list Term :=
  match r with Ok true => [node_term n] | _ => [] end.

Inductive cluster_step (c : Cluster) : Cluster -> Prop :=
| step_act i n fuel a r n' :
    nodes c !! i = Some n -> node_term n < u64_max ->
    act fuel a n = Ok (r, n') ->
    cluster_step c (record_step i n' (office_won r n') [] c)
| step_abdicate i n n1 r n' :
    nodes c !! i = Some n -> is_leader n = true ->
    check_quorum_active n = (Ok false, n1) -> step_down (node_term n1) n1 = (r, n') ->
    cluster_step c (record_step i n' [] [node_term n] c)
| step_network i n t :
    nodes c !! i = Some n -> sent t = sent (transport n) ->
    Forall (allowed (ledger c) i) (inbox t) ->
    cluster_step c (record_step i (set_transport t n) [] [] c)
| step_restart i n t ck d n' :
    nodes c !! i = Some n -> sent t = sent (transport n) ->
    Forall (allowed (ledger c) i) (inbox t) ->
    node_new (config n) (storage n) t ck d = Ok n' ->
    cluster_step c (record_step i n' [] [] c).

Definition initial (peers : list PeerId) (c : Cluster) : Prop :=
  ledger c = [] /\ elected c = [] /\ abdicated c = [] /\
  forall i n, nodes c !! i = Some n ->
    voters n = (i, peers, None) /\ widths n /\ in_sync n /\ is_leader n = false /\
    votes n = [] /\ node_inbox n = [].

Inductive reachable (peers : list PeerId) : Cluster -> Prop :=
| reachable_initial c : initial peers c -> reachable peers c
| reachable_step c c' : reachable peers c -> cluster_step c c' -> reachable peers c'.

(** ** The invariant *)

(** [i] won the votes of a majority at [t]. *)
Definition won (peers : list PeerId) (c : Cluster) (i : PeerId) (t : Term) : Prop :=
  (forall p, (i, t, p) ∈ ledger c -> (i, t) ∈ abdicated c \/ p = i) /\
  exists ps, voters_of peers ps /\ voter_majority_of None peers ps = true /\
    forall p, p ∈ ps -> p = i \/ (p, t, i) ∈ ledger c.

#[local] Abbreviation given_at c i := (given (H := freed (abdicated c) i)).
#[local] Abbreviation sane_at c i := (sane (H4 := freed (abdicated c) i)).

Record node_inv (peers : list PeerId) (c : Cluster) (i : PeerId) n : Prop := {
  inv_voters : voters n = (i, peers, None);
  inv_sane : sane_at c i n;
  inv_cast : forall t p, (i, t, p) ∈ ledger c -> given_at c i (durable n) t p;
  inv_elected : forall t, (i, t) ∈ elected c -> given_at c i (durable n) t i;
  inv_sent : votes n ⊆ ledger c;
  inv_leads : is_leader n = true -> exists t, t <= node_term n /\ (i, t) ∈ elected c /\
    (ReliableHardState S -> t = node_term n);
  inv_inbox : Forall (allowed (ledger c) i) (node_inbox n);
}.

Record inv (peers : list PeerId) (c : Cluster) : Prop := {
  inv_nodes : forall i n, nodes c !! i = Some n -> node_inv peers c i n;
  inv_owned : forall v t p, (v, t, p) ∈ ledger c -> is_Some (nodes c !! v);
  inv_functional : forall v t p q, (v, t, p) ∈ ledger c -> (v, t, q) ∈ ledger c ->
    (v, t) ∈ abdicated c \/ p = q;
  inv_offices : forall i t, (i, t) ∈ elected c -> is_Some (nodes c !! i) /\ won peers c i t;
}.

Lemma allowed_mono l l' i f : l ⊆ l' -> allowed l i f -> allowed l' i f.
Proof. intros Hl Ha im Hd. destruct (Ha im Hd) as (? & ? & Hv). split; [done|]. split; auto. Qed.

(** One winner for a term. *)
Lemma inv_one peers c i j t :
  inv peers c -> (i, t) ∈ elected c -> (j, t) ∈ elected c ->
  i = j \/ exists k, (k, t) ∈ abdicated c.
Proof.
  intros Hc [_ (Hi & ps & Vp & Mp & Bp)]%(inv_offices _ _ Hc)
    [_ (Hj & qs & Vq & Mq & Bq)]%(inv_offices _ _ Hc).
  apply voter_majority_plain in Mp, Mq; [|done|done].
  destruct (subset_vote_majority_intersect _ _ _ Mp Mq) as (v & _ & Hp & Hq).
  destruct (Bp v Hp) as [Ep|Hvp], (Bq v Hq) as [Eq|Hvq]; subst.
  - by left.
  - destruct (Hi _ Hvq); eauto.
  - destruct (Hj _ Hvp); eauto.
  - destruct (inv_functional _ _ Hc _ _ _ _ Hvp Hvq); eauto.
Qed.

Lemma initial_inv peers c : initial peers c -> inv peers c.
Proof.
  intros (Hl & He & Ha & Hn). split.
  - intros i n E. destruct (Hn i n E) as (Hv & [Hw Ht] & Hy & Hld & Hs & Hi).
    split; rewrite ?Hl, ?He, ?Hs, ?Hi; try done.
    + split; [done|]. unfold behind. rewrite Hy. split; [|reflexivity]. unfold node_term in Ht. machine. lia.
    + by intros t p ?%not_elem_of_nil.
    + by intros t ?%not_elem_of_nil.
    + by rewrite Hld.
  - rewrite Hl. by intros v t p ?%not_elem_of_nil.
  - rewrite Hl. by intros v t p q ?%not_elem_of_nil.
  - rewrite He. by intros i t ?%not_elem_of_nil.
Qed.

(** ** Steps keep the invariant *)

(** What a step of node [i] has to provide. *)
Record moves (peers : list PeerId) (c : Cluster) (i : PeerId) n n' (offices lapses : list Term) : Prop := {
  mv_voters : voters n' = voters n;
  mv_sane : sane_at (record_step i n' offices lapses c) i n';
  mv_disk : forall t p, given_at c i (durable n) t p ->
    given_at (record_step i n' offices lapses c) i (durable n') t p;
  mv_votes : exists new, votes n' = votes n ++ new /\
    cast (H := freed (abdicated c) i) (node_id n) (hard_state n) (hard_state n') (durable n') new;
  mv_inbox : Forall (allowed (ledger c) i) (node_inbox n');
  mv_leads : is_leader n' = true ->
    (is_leader n = true /\ node_term n <= node_term n' /\
     (ReliableHardState S -> node_term n' = node_term n)) \/
    node_term n' ∈ offices;
  mv_offices : forall t, t ∈ offices ->
    given_at (record_step i n' offices lapses c) i (durable n') t i /\
    won peers (record_step i n' offices lapses c) i t;
}.

Section Step.
Context (peers : list PeerId) (c : Cluster) (i : PeerId) (n n' : RaftNode S T C D).
Context (offices lapses : list Term).
Context (Hinv : inv peers c) (Hn : nodes c !! i = Some n)
  (Hmv : moves peers c i n n' offices lapses).
#[local] Abbreviation c' := (record_step i n' offices lapses c).

Lemma step_id_eq : node_id n = i.
Proof. pose proof (inv_voters _ _ _ _ (inv_nodes _ _ Hinv i n Hn)) as E. unfold voters in E. congruence. Qed.

Lemma step_abdicated x : x ∈ abdicated c -> x ∈ abdicated c'.
Proof. intros Hx. cbn. apply elem_of_app. by right. Qed.

Lemma step_mono j t : freed (abdicated c) j t -> freed (abdicated c') j t.
Proof. apply step_abdicated. Qed.

(** A vote of the ledger after the step: an old one, or one just cast by [i]. *)
Lemma step_ledger v t p :
  (v, t, p) ∈ ledger c' ->
  (v, t, p) ∈ ledger c \/
  (v = i /\ ((v, t, p) ∉ ledger c) /\ free (H := freed (abdicated c) i) (hard_state n) t p /\
   given_at c i (durable n') t p).
Proof.
  destruct (decide ((v, t, p) ∈ ledger c)) as [|Hnew]; [by left|]. cbn.
  destruct (mv_votes _ _ _ _ _ _ _ Hmv) as (new & -> & Hc & _).
  intros [?|[Hs|Hw]%elem_of_app]%elem_of_app; [by left| |].
  - left. by apply (inv_sent _ _ _ _ (inv_nodes _ _ Hinv i n Hn)).
  - right. apply Hc in Hw as (Ev & ? & _ & ?). rewrite step_id_eq in Ev. by split_and!.
Qed.

(** What is on disk is in memory. *)
Lemma given_memory t p : given_at c i (durable n) t p -> given_at c i (hard_state n) t p.
Proof.
  intros Hg. eapply given_steady; [exact Hg|].
  apply (inv_sane _ _ _ _ (inv_nodes _ _ Hinv i n Hn)).
Qed.

Lemma step_cast t p : (i, t, p) ∈ ledger c' -> given_at c' i (durable n') t p.
Proof.
  intros [Hl|(_ & _ & _ & Hg)]%step_ledger.
  - apply (mv_disk _ _ _ _ _ _ _ Hmv). by apply (inv_cast _ _ _ _ (inv_nodes _ _ Hinv i n Hn)).
  - eapply lapsed_given; [apply step_mono|exact Hg].
Qed.

(** A vote of [i] for [p] in the ledger, and one that was still free for [q]. *)
Lemma step_free t p q :
  (i, t, p) ∈ ledger c -> free (H := freed (abdicated c) i) (hard_state n) t q ->
  (i, t) ∈ abdicated c \/ p = q.
Proof.
  intros Hp Hq. eapply (given_free (H := freed (abdicated c) i)); [|exact Hq].
  by apply given_memory, (inv_cast _ _ _ _ (inv_nodes _ _ Hinv i n Hn)).
Qed.

Lemma step_functional v t p q :
  (v, t, p) ∈ ledger c' -> (v, t, q) ∈ ledger c' -> (v, t) ∈ abdicated c' \/ p = q.
Proof.
  intros Hp Hq. enough (Hx : (v, t) ∈ abdicated c \/ p = q)
    by (destruct Hx; [left; by apply step_abdicated|by right]).
  pose proof (step_ledger _ _ _ Hp) as [Lp|(-> & Np & Fp & _)];
    pose proof (step_ledger _ _ _ Hq) as [Lq|(Eq & Nq & Fq & _)].
  - by eapply (inv_functional _ _ Hinv).
  - subst v. by eapply step_free.
  - destruct (step_free t q p Lq Fp); auto.
  - destruct (mv_votes _ _ _ _ _ _ _ Hmv) as (new & E & _ & Hu).
    assert (Hin : forall x, (i, t, x) ∈ ledger c' -> (i, t, x) ∉ ledger c -> (i, t, x) ∈ new).
    { intros x Hx Hnx. cbn in Hx. rewrite E in Hx.
      apply elem_of_app in Hx as [?|[Hs|?]%elem_of_app]; [done| |done].
      destruct Hnx. by apply (inv_sent _ _ _ _ (inv_nodes _ _ Hinv i n Hn)). }
    exact (Hu _ _ _ _ _ (Hin _ Hp Np) (Hin _ Hq Nq)).
Qed.

Lemma step_won j t : won peers c j t -> (j = i -> given_at c i (durable n) t i) -> won peers c' j t.
Proof.
  intros (Hj & ps & Vp & Mp & Bp) Hg. split.
  - intros p [Hl|(-> & _ & Hf & _)]%step_ledger.
    + destruct (Hj p Hl); [left; by apply step_abdicated|by right].
    + destruct (given_free (H := freed (abdicated c) i) _ t i p (given_memory _ _ (Hg eq_refl)) Hf);
        [left; by apply step_abdicated|by right].
  - exists ps. split; [done|]. split; [done|]. intros p [?|?]%Bp; [by left|right].
    cbn. apply elem_of_app. by left.
Qed.

Lemma elem_of_terms j (t : Term) (l : list Term) : (j, t) ∈ map (fun t => (i, t)) l -> j = i /\ t ∈ l.
Proof. intros (x & [= -> ->] & Hx)%list_elem_of_fmap. done. Qed.

Lemma step_elected j t :
  (j, t) ∈ elected c' -> j = i /\ t ∈ offices \/ (j, t) ∈ elected c.
Proof. cbn. intros [Hl|?]%elem_of_app; [left; by apply elem_of_terms|by right]. Qed.

Lemma step_offices j t : (j, t) ∈ elected c' -> is_Some (nodes c' !! j) /\ won peers c' j t.
Proof.
  intros [[-> Ht]|He]%step_elected.
  - split; [cbn; rewrite lookup_insert_eq; eauto|]. by apply (mv_offices _ _ _ _ _ _ _ Hmv).
  - destruct (inv_offices _ _ Hinv j t He) as [Hj Hw]. split.
    + cbn. destruct (decide (i = j)) as [<-|Hne]; [by rewrite lookup_insert_eq; eauto|].
      by rewrite lookup_insert_ne.
    + apply step_won; [done|]. intros ->. by apply (inv_elected _ _ _ _ (inv_nodes _ _ Hinv i n Hn)).
Qed.

Lemma step_node : node_inv peers c' i n'.
Proof.
  pose proof (inv_nodes _ _ Hinv i n Hn) as Hi. pose proof Hmv as [Hv Hs Hd _ Hb Hl Ho]. split.
  - rewrite Hv. apply Hi.
  - done.
  - apply step_cast.
  - intros t [[_ Ht]|He]%step_elected; [by apply Ho|].
    apply Hd. by apply (inv_elected _ _ _ _ Hi).
  - apply incl_app_r.
  - intros Hled. destruct (Hl Hled) as [(Hln & Hle & Hr)|Hin].
    + destruct (inv_leads _ _ _ _ Hi Hln) as (t & Ht & He & Hrel). exists t. split; [lia|].
      split; [cbn; apply elem_of_app; by right|]. intros HR. rewrite (Hr HR). auto.
    + exists (node_term n'). split; [done|]. split; [|done]. cbn. apply elem_of_app. left.
      apply list_elem_of_fmap. eauto.
  - eapply Forall_impl; [exact Hb|]. intros f. apply allowed_mono, incl_app_l.
Qed.

Lemma step_other j m : i <> j -> node_inv peers c j m -> node_inv peers c' j m.
Proof.
  intros Hne []. split; try done.
  - destruct inv_sane0 as [Hw [Hz Hb]]. split; [done|]. split; [done|].
    eapply lapsed_steady; [apply step_mono|exact Hb].
  - intros t p [Hl|(-> & _)]%step_ledger; [|done]. eapply lapsed_given; [apply step_mono|auto].
  - intros t [[-> _]|He]%step_elected; [done|]. eapply lapsed_given; [apply step_mono|auto].
  - etransitivity; [done|apply incl_app_l].
  - intros Hled. destruct (inv_leads0 Hled) as (t & ? & ? & ?). exists t. split; [done|].
    split; [|done]. cbn. apply elem_of_app. by right.
  - eapply Forall_impl; [done|]. intros f. apply allowed_mono, incl_app_l.
Qed.

Lemma moves_inv : inv peers c'.
Proof.
  split.
  - intros j m. cbn. destruct (decide (i = j)) as [<-|Hne].
    { rewrite lookup_insert_eq. intros [= <-]. apply step_node. }
    rewrite lookup_insert_ne by done. intros Hm. apply step_other; [done|]. by apply (inv_nodes _ _ Hinv).
  - intros v t p Hl. cbn. destruct (decide (i = v)) as [<-|Hne].
    { by rewrite lookup_insert_eq; eauto. }
    rewrite lookup_insert_ne by done.
    apply step_ledger in Hl as [Hl|(-> & _)]; [by eapply (inv_owned _ _ Hinv)|done].
  - intros v t p q. apply step_functional.
  - apply step_offices.
Qed.
End Step.

(** ** The steps *)

#[local] Abbreviation safe_at_node c i := (safe_step (H4 := freed (abdicated c) i)).
#[local] Abbreviation course_at c i := (on_course (H4 := freed (abdicated c) i)).

Lemma safe_moves peers c i n n' :
  node_inv peers c i n -> safe_at_node c i n n' -> moves peers c i n n' [] [].
Proof.
  intros Hi Hs. pose proof Hs as [Hv Hst Hd Hw Hl Hvt Hb]. split.
  - done.
  - apply Hw, Hi.
  - intros t p Hg. eapply given_steady; [exact Hg|exact Hd].
  - done.
  - apply Forall_forall. intros f Hf. apply Hb in Hf.
    pose proof (inv_inbox _ _ _ _ Hi) as Ha. rewrite Forall_forall in Ha. auto.
  - intros Hled. left. destruct (Hl Hled). split; [done|]. split; [|done].
    by apply steady_term in Hst.
  - by intros t ?%not_elem_of_nil.
Qed.

(** The frames of the inbox, and the votes they carry. *)
Lemma inv_fair peers c i n : node_inv peers c i n -> fair_inbox (node_inbox n) n.
Proof.
  intros Hi. split; [done|]. intros im (f & Hf & Hd).
  pose proof (inv_inbox _ _ _ _ Hi) as Ha. rewrite Forall_forall in Ha.
  destruct (Ha f Hf im Hd) as (? & ? & _). split; [done|].
  pose proof (inv_voters _ _ _ _ Hi) as E. unfold voters in E. congruence.
Qed.

Lemma inv_supports peers c i n t p :
  node_inv peers c i n -> supports (node_inbox n) t p -> (p, t, i) ∈ ledger c.
Proof.
  intros Hi (im & r & (f & Hf & Hd) & <- & Hm & <- & Hg).
  pose proof (inv_inbox _ _ _ _ Hi) as Ha. rewrite Forall_forall in Ha.
  destruct (Ha f Hf im Hd) as (_ & _ & Hv). by apply Hv.
Qed.

Lemma inv_on_course peers c i n : node_inv peers c i n -> course_at c i (node_inbox n) n n.
Proof. intros Hi. split; [reflexivity|]. split; [apply Hi|by eapply inv_fair]. Qed.

(** Taking office: the term is the next one, the node's vote for itself is on disk,
    and the votes of a majority are in the ledger. *)
Lemma office_facts peers c i n n1 n' :
  node_inv peers c i n -> safe_at_node c i n n1 -> in_sync n1 ->
  takes_office (H4 := freed (abdicated c) i) (node_inbox n) n1 n' ->
  hard_state n1 = {| current_term := node_term n + 1; voted_for := Some (node_id n) |} ->
  node_term n' = node_term n + 1 /\ given_at c i (durable n') (node_term n') i /\
  (exists n2, safe_at_node c i n n2 /\ view n' = view n2) /\
  exists ps, voters_of peers ps /\ voter_majority_of None peers ps = true /\
    forall p, p ∈ ps -> p = i \/ (p, node_term n', i) ∈ ledger c.
Proof.
  intros Hi Hs1 Hy Ho Hh1. pose proof (office_term _ _ _ Ho) as Et.
  destruct Ho as (_ & n2 & Hs2 & Hview & Ht & ps & Hmaj & Hv & Hback).
  pose proof (inv_voters _ _ _ _ Hi) as Evot.
  assert (Eid : node_id n = i) by (unfold voters in Evot; congruence).
  assert (Hs : safe_at_node c i n n2) by by etransitivity.
  pose proof (step_voters _ _ Hs) as Ev2. rewrite Evot in Ev2. unfold voters in Ev2.
  pose proof (office_hard_state _ _ _ _ (step_sane _ _ Hs1 (inv_sane _ _ _ _ Hi)) Hs2 Ht Hy Hh1) as Hh2.
  assert (Et1 : node_term n1 = node_term n + 1) by (unfold node_term at 1; by rewrite Hh1).
  split; [lia|]. split; [|split; [by exists n2|]].
  - assert (durable n' = durable n2) as -> by (unfold view, both in Hview; congruence).
    rewrite Et, Et1. destruct Hh2 as [?|[_ ->]]; [by left|right; right]. rewrite Hh1, Eid. done.
  - exists ps. unfold voter_majority in Hmaj.
    assert (Ep : node_peers n2 = peers) by congruence.
    assert (Ej : joint_peers n2 = None) by congruence.
    assert (Eid2 : node_id n2 = i) by congruence. rewrite Ep, Ej in Hmaj. rewrite Ep in Hv.
    split; [done|]. split; [done|]. intros p Hp. rewrite Forall_forall in Hback.
    destruct (Hback p Hp) as [->|Hsup]; [left; congruence|right].
    rewrite Ht, <- Et in Hsup. by eapply inv_supports.
Qed.

(** A node that looks the same to the others. *)
Lemma view_moves peers c i n n2 n' :
  moves peers c i n n2 [] [] -> view n' = view n2 ->
  voters n' = voters n /\ sane_at c i n' /\
  (forall t p, given_at c i (durable n) t p -> given_at c i (durable n') t p) /\
  (exists new, votes n' = votes n ++ new /\
    cast (H := freed (abdicated c) i) (node_id n) (hard_state n) (hard_state n') (durable n') new) /\
  Forall (allowed (ledger c) i) (node_inbox n').
Proof.
  intros [Mv Ms Md Mn Mb _ _] E. unfold view, both in E.
  assert (Ev : voters n' = voters n2) by congruence. assert (Eh : hard_state n' = hard_state n2) by congruence.
  assert (Ed : durable n' = durable n2) by congruence. assert (Ew : votes n' = votes n2) by congruence.
  assert (Ei : node_inbox n' = node_inbox n2) by congruence.
  rewrite Ed, Ew, Ei, Eh. split_and!; [congruence| |done|done|done].
  revert Ms. unfold sane, widths, behind, node_term. rewrite Eh, Ed. unfold voters in Ev.
  assert (E' : node_id n' = node_id n2) by congruence. by rewrite E'.
Qed.

(** A vote of [i] at its new term is the one for itself. *)
Lemma office_own_vote peers c i n n' p :
  node_inv peers c i n -> sane_at c i n' -> node_term n' = node_term n + 1 ->
  given_at c i (durable n') (node_term n') i ->
  (i, node_term n', p) ∈ ledger c \/ given_at c i (durable n') (node_term n') p ->
  (i, node_term n') ∈ abdicated c \/ p = i.
Proof.
  intros Hi [_ [_ Hb']] Et Hg [Hl|Hp].
  - apply (inv_cast _ _ _ _ Hi) in Hl as [?|Hvd]; [by left|]. rewrite Et in Hvd.
    destruct (inv_sane _ _ _ _ Hi) as [_ [_ Hb]]. apply steady_term in Hb.
    unfold voted, node_term in *. lia.
  - destruct Hp as [?|Hp]; [by left|]. destruct Hg as [?|Hg]; [by left|right].
    apply steady_term in Hb'. unfold voted, node_term in *.
    destruct Hp as [?|[_ E1]], Hg as [?|[? E2]]; [lia|lia|lia|congruence].
Qed.

Lemma office_moves peers c i n n1 n' :
  node_inv peers c i n -> safe_at_node c i n n1 -> in_sync n1 ->
  takes_office (H4 := freed (abdicated c) i) (node_inbox n) n1 n' ->
  hard_state n1 = {| current_term := node_term n + 1; voted_for := Some (node_id n) |} ->
  moves peers c i n n' [node_term n'] [].
Proof.
  intros Hi Hs1 Hy Ho Hh1.
  destruct (office_facts _ _ _ _ _ _ Hi Hs1 Hy Ho Hh1) as (Et & Hg & (n2 & Hs & Ev) & ps & Vp & Mp & Bp).
  destruct (view_moves _ _ _ _ _ n' (safe_moves _ _ _ _ _ Hi Hs) Ev) as (Mv & Ms & Md & (new & En & Hc) & Mb).
  split; [done|done|done|by exists new|done|intros _; right; left|].
  intros t ->%list_elem_of_singleton. split; [exact Hg|]. split.
  - intros p Hp. apply (office_own_vote peers c i n n' p Hi Ms Et Hg). cbn in Hp. rewrite En in Hp.
    apply elem_of_app in Hp as [?|[?|Hp]%elem_of_app]; [by left|left; by apply (inv_sent _ _ _ _ Hi)|].
    right. by apply Hc in Hp as (_ & _ & _ & ?).
  - exists ps. split; [done|]. split; [done|]. intros p [?|?]%Bp; [by left|right].
    cbn. apply elem_of_app. by left.
Qed.

Lemma courses_moves peers c i n (m : L bool) r n' :
  node_inv peers c i n -> (forall Lx : Lapsed, courses (H4 := Lx) m) -> m n = Ok (r, n') ->
  moves peers c i n n' [] [].
Proof.
  intros Hi Hm E. apply safe_moves; [done|].
  apply (Hm (freed (abdicated c) i) _ n n (inv_on_course _ _ _ _ Hi) _ _ E).
Qed.

(** An operation that wins nothing. *)
Lemma then_false {A} (m : L A) n r n' : (m;; mret false) n = Ok (r, n') -> office_won r n' = [].
Proof.
  unfold mbind, L_bind. destruct (m n) as [[[a|e] n1]|]; [| |done]; by intros [= <- <-].
Qed.

Lemma plain_moves {A} peers c i n (m : L A) r n' :
  node_inv peers c i n -> (forall Lx : Lapsed, courses (H4 := Lx) m) ->
  (m;; mret false) n = Ok (r, n') -> moves peers c i n n' (office_won r n') [].
Proof.
  intros Hi Hm E. rewrite (then_false _ _ _ _ E). eapply courses_moves; [done| |exact E].
  intros Lx. by apply courses_then.
Qed.

Lemma act_moves peers c i n fuel a r n' :
  node_inv peers c i n -> node_term n < u64_max -> act fuel a n = Ok (r, n') ->
  moves peers c i n n' (office_won r n') [].
Proof.
  intros Hi Ht. destruct a; cbn [act]; intros E;
    try (eapply plain_moves; [done| |exact E]; intros Lx).
  - apply courses_receive.
  - destruct (campaign_once_course _ _ (node_inbox n) n (inv_sane _ _ _ _ Hi) Ht
                (inv_fair _ _ _ _ Hi) _ _ E) as [[Hne Hs]|(-> & n0 & Hs & Ho & Hy & Hh)].
    + assert (office_won r n' = []) as -> by (by destruct r as [[]|]). by apply safe_moves.
    + by eapply office_moves.
  - apply courses_pre_vote.
  - apply courses_heartbeat.
  - apply courses_propose_batch.
  - apply courses_replicate.
  - apply courses_read_index.
  - apply courses_transfer.
  - apply courses_demote.
Qed.

(** Giving up the office: in memory and perhaps on disk the vote of the term is
    free again; what it was in other terms stays. *)
Lemma abdicate_moves peers c i n n1 r n' :
  node_inv peers c i n -> check_quorum_active n = (Ok false, n1) ->
  step_down (node_term n1) n1 = (r, n') -> is_leader n = true ->
  moves peers c i n n' [] [node_term n].
Proof.
  intros Hi Eq Es Hl.
  assert (Ek : view_role n1 = view_role n).
  { assert (K : keeps view_role (check_quorum_active : M S T C D bool)) by (unfold check_quorum_active; keeps_auto).
    specialize (K n). by rewrite Eq in K. }
  unfold view_role, view, both in Ek.
  assert (Eh : hard_state n1 = hard_state n) by congruence.
  assert (Ed : durable n1 = durable n) by congruence.
  assert (Et : node_term n1 = node_term n) by (unfold node_term; by rewrite Eh).
  rewrite Et in Es. destruct (step_down_cases (node_term n) n1) as (Hk & Hh & Hc).
  rewrite Es in Hk, Hh, Hc. cbn [fst snd] in Hk, Hh, Hc.
  assert (Hd : durable n' = hard_state n' \/ durable n' = durable n).
  { destruct Hc as [(_ & ? & _)|(_ & _ & Hx & _)]; [by left|]. rewrite <- Ed. exact Hx. }
  destruct (inv_sane _ _ _ _ Hi) as [[Hw1 Hw2] [Hz Hb]].
  assert (Hin : (i, node_term n) ∈ abdicated (record_step i n' [] [node_term n] c)) by (cbn; left).
  assert (Hn' : node_term n' = node_term n) by (unfold node_term at 1; by rewrite Hh).
  assert (Eid : node_id n' = node_id n) by (unfold voters in Hk, Ek; congruence).
  split; [congruence| | | | | |by intros t ?%not_elem_of_nil].
  - split; [unfold widths; by rewrite Eid, Hn'|]. unfold behind. destruct Hd as [->| ->].
    + split; [rewrite Hh; apply Hw2|reflexivity].
    + split; [done|]. rewrite Hh. destruct Hb as [?|[E _]]; [by left|].
      right. split; [done|]. left. unfold lapsed, freed. rewrite E. exact Hin.
  - intros t p Hg. destruct Hd as [->| ->].
    2: { eapply lapsed_given; [|exact Hg]. intros t' Ht'. by apply step_abdicated. }
    destruct (decide (t = node_term n)) as [->|Hne]; [by left|].
    destruct Hg as [?|Hv]; [left; by apply step_abdicated|]. right. left. rewrite Hh. cbn.
    apply steady_term in Hb. unfold voted, node_term in *. lia.
  - exists []. rewrite app_nil_r. split; [congruence|apply cast_nil].
  - assert (node_inbox n' = node_inbox n) as -> by congruence. apply Hi.
  - intros _. left. rewrite Hn'. by split_and!.
Qed.

Lemma network_moves peers c i n t :
  node_inv peers c i n -> sent t = sent (transport n) ->
  Forall (allowed (ledger c) i) (inbox t) -> moves peers c i n (set_transport t n) [] [].
Proof.
  intros Hi Es Hb. destruct Hi. split; try done; [|by left|by intros ? ?%not_elem_of_nil].
  exists []. rewrite app_nil_r. split; [|apply cast_nil]. unfold votes. cbn. by rewrite Es.
Qed.

Lemma node_new_ok cfg st t ck d n' :
  node_new cfg st t ck d = Ok n' ->
  config n' = cfg /\ transport n' = t /\ joint_peers n' = None /\ is_leader n' = false /\
  hard_state n' = v_hard (sview st) /\ sview (storage n') = sview st.
Proof.
  unfold node_new. destruct (validate_node_config cfg); [|done].
  destruct (load_hard_state st) as [[hs|e] s1] eqn:E1; [|done].
  destruct (last_log_position s1) as [[last|e] s2] eqn:E2; [|done].
  destruct (load_snapshot_meta s2) as [[meta|e] s3] eqn:E3; [|done].
  apply load_hard_state_law in E1 as [V1 H1']. apply last_log_position_law in E2 as [V2 _].
  apply load_snapshot_meta_law in E3 as [V3 _].
  generalize (replicate (Z.to_nat (1024 * 1024)) (to_byte 0)), (arena_new (Z.to_nat 8192)).
  intros buf metadata [= <-]. cbn. rewrite (H1' hs eq_refl), V3, V2, V1. by repeat split.
Qed.

(** A restart: the hard state in memory is the one on disk again. *)
Lemma restart_moves peers c i n t ck d n' :
  node_inv peers c i n -> sent t = sent (transport n) ->
  Forall (allowed (ledger c) i) (inbox t) -> node_new (config n) (storage n) t ck d = Ok n' ->
  moves peers c i n n' [] [].
Proof.
  intros Hi Es Hb (Ec & Et & Ej & El & Eh & Ev)%node_new_ok.
  assert (Hd : durable n' = durable n) by (unfold durable; by rewrite Ev).
  assert (Hh : hard_state n' = durable n) by done.
  destruct (inv_sane _ _ _ _ Hi) as [[Hw1 Hw2] [Hz Hbd]]. apply steady_term in Hbd.
  split.
  - pose proof (inv_voters _ _ _ _ Hi) as E. unfold voters in *. unfold node_id, node_peers in *.
    rewrite Ec, Ej. congruence.
  - split; [split; [unfold node_id in *; by rewrite Ec|]|].
    + unfold node_term in *. rewrite Hh. machine. lia.
    + unfold behind. rewrite Hh, Hd. split; [done|reflexivity].
  - by rewrite Hd.
  - exists []. rewrite app_nil_r. split; [|apply cast_nil]. unfold votes. by rewrite Et, Es.
  - by unfold node_inbox; rewrite Et.
  - by rewrite El.
  - by intros ? ?%not_elem_of_nil.
Qed.

Lemma reachable_inv peers c : reachable peers c -> inv peers c.
Proof.
  induction 1 as [c Hc|c c' _ IH Hs]; [by apply initial_inv|].
  destruct Hs as [i n fuel a r n' Hn Ht E|i n n1 r n' Hn Hl Eq Es|i n t Hn Es Hb|i n t ck d n' Hn Es Hb E];
    (eapply moves_inv; [done|done|]); pose proof (inv_nodes _ _ IH i n Hn) as Hi.
  - by eapply act_moves.
  - by eapply abdicate_moves.
  - by apply network_moves.
  - by eapply restart_moves.
Qed.

End Cluster.

(** ** An election *)

Abbreviation Disk := (Monitored View).
Abbreviation DiskNode := (RaftNode Disk QueueTransport TickClock unit).
Abbreviation SampleCluster := (@Cluster Disk QueueTransport TickClock unit).

Definition new_node (id : PeerId) : DiskNode :=
  sample_over (Live disk) (0, 0) id [1; 2; 3] {| current_term := 0; voted_for := None |}.

Definition cluster0 : SampleCluster :=
  {| nodes := <[1 := new_node 1]> (<[2 := new_node 2]> (<[3 := new_node 3]> ∅));
     ledger := []; elected := []; abdicated := [] |}.

Definition hand (frames : list bytes) (n : DiskNode) : QueueTransport :=
  {| qt_sent := qt_sent (transport n); qt_inbound := frames |}.

Definition after (a : Action) (n : DiskNode) : DiskNode :=
  match act VecTuning_default 10 a n with Ok (_, n') => n' | Err _ => n end.

(** Node 2 receives the request of node 1 and grants it its vote; node 1
    campaigns and finds the answer. *)
Definition request : bytes := frame_of 1 (MRequestVote (vote_req 1 1 0 0)).
Definition node2_asked := set_transport (hand [request] (new_node 2)) (new_node 2).
Definition node2_voted := after Receive node2_asked.
Definition answer : bytes :=
  match last (qt_sent (transport node2_voted)) with Some (_, f) => f | None => [] end.
Definition node1_answered := set_transport (hand [answer] (new_node 1)) (new_node 1).
Definition node1_elected := after Campaign node1_answered.

Definition cluster1 : SampleCluster := record_step 2 node2_asked [] [] cluster0.
Definition cluster2 : SampleCluster := record_step 2 node2_voted [] [] cluster1.
Definition cluster3 : SampleCluster := record_step 1 node1_answered [] [] cluster2.
Definition cluster4 : SampleCluster := record_step 1 node1_elected [1] [] cluster3.

Lemma request_allowed votes_sent : allowed votes_sent 2 request.
Proof.
  intros im Hd. pose proof (decode_message_wf _ _ Hd) as Hw.
  assert (E : decode_message request = Ok (from_peer 1 (MRequestVote (vote_req 1 1 0 0))))
    by (vm_compute; reflexivity).
  rewrite E in Hd. injection Hd as <-. split; [by split|]. by split.
Qed.

Lemma answer_allowed votes_sent : (2, 1, 1) ∈ votes_sent -> allowed votes_sent 1 answer.
Proof.
  intros Hv im Hd. pose proof (decode_message_wf _ _ Hd) as Hw.
  assert (E : decode_message answer = Ok (from_peer 2 (MRequestVoteResp (vote_resp 1 true))))
    by (vm_compute; reflexivity).
  rewrite E in Hd. injection Hd as <-. split; [by split|]. split; [done|].
  by intros r [= <-] _.
Qed.

Lemma cluster0_initial : initial [1; 2; 3] cluster0.
Proof.
  split; [done|]. split; [done|]. split; [done|]. intros i n. cbn.
  intros [[<- <-]|[_ [[<- <-]|[_ [[<- <-]|[_ Hn]]%lookup_insert_Some]]%lookup_insert_Some]]%lookup_insert_Some;
    [..|by rewrite lookup_empty in Hn]; repeat split; first [done | by vm_compute].
Qed.

Lemma cluster4_reachable : reachable VecTuning_default [1; 2; 3] cluster4.
Proof.
  apply (reachable_step _ _ cluster3).
  2: { apply (step_act _ _ 1 node1_answered 10 Campaign (Ok true)); [|done|].
       - cbn. by rewrite lookup_insert_eq.
       - vm_compute. reflexivity. }
  apply (reachable_step _ _ cluster2).
  2: { apply (step_network _ _ 1 (new_node 1)); [by cbn|done|].
       apply Forall_singleton, answer_allowed. vm_compute. left. }
  apply (reachable_step _ _ cluster1).
  2: { apply (step_act _ _ 2 node2_asked 10 Receive (Ok false)); [|done|].
       - cbn. by rewrite lookup_insert_eq.
       - vm_compute. reflexivity. }
  apply (reachable_step _ _ cluster0).
  2: { apply (step_network _ _ 2 (new_node 2)); [by cbn|done|].
       apply Forall_singleton, request_allowed. }
  apply reachable_initial, cluster0_initial.
Qed.

