(* ===== verification/LogCluster.v ===== *)
(** * LogCluster: Log Matching

    The cluster of [Cluster], with the entries its nodes send each other: nodes
    elect leaders, propose, replicate, read, transfer, are demoted, crash and
    restart, and the network delays, repeats, reorders and loses frames.  Two logs
    that have an entry with the same index and term are the same up to it, and
    while a node leads its log only grows.

    What is left out, beside what [Cluster] leaves out: abdications (two leaders of
    one term write different entries at one index), faults of the storages (the
    nodes run on [Monitored] storages and the steps are those that leave the
    monitor live: no failed write of the hard state, no torn write of the log),
    snapshots and compaction (an old snapshot overwrites a newer log,
    [Findings.old_snapshot_moves_commit_back]).  An append that is delivered carries
    a batch that some node sent; the logs start empty and indexes do not run out.
    [OrderedReads] says what is assumed of the order of reads. *)

From stdpp Require Import base list sets gmap strings relations.
From Stdlib Require Import ZArith Lia.
From S2P Require Import Prelude Types Wire Codec CodecFacts Arena Progress Quorum Traits.
From S2P Require Import Membership NodeState Node Samples Election ConfigChange Replication Commit.
From S2P Require Import Snapshot Transfer Inbound Campaign Leader Install Propose ReadIndex Frames.
From S2P Require Import Stability Durability Safety CampaignFacts ReplicationFacts Walks Chains.
From S2P Require Import LeaderSafety LogSafety Monitor Cluster.

Local Open Scope Z_scope.

(** The payloads an operation may append. *)
Definition proposes (a : Action) : list bytes :=
  match a with
  | ProposeBatch ps | ReplicateBatch ps => ps
  | LinearizableRead => [noop_entry]
  | _ => []
  end.

Section LogCluster.
Context {S T C D : Type} `{StorageLaws S} `{!OrderedReads S}
  `{TransportLaws T} `{Clock C} `{!CustomDispatch D T} `{!DispatchLaws D T}.
Context (tuning : VecTuning).
#[local] Abbreviation Node := (RaftNode (Monitored S) T C D).
Implicit Types n : Node.
#[local] Abbreviation Cluster := (@Cluster (Monitored S) T C D).

(** No fault has occurred. *)
Definition live n : Prop := exists s, storage n = Live s.

(** The cluster, and every batch of entries its nodes ever sent. *)
Record World := {
  cluster : Cluster;
  entries_sent : list Batch;
}.

(** A frame that carries no snapshot, and entries only if they were sent. *)
Definition carried (bs : list Batch) (f : bytes) : Prop :=
  forall im, decode_message f = Ok im ->
    is_install (im_message im) = false /\
    forall b, batch_of (im_message im) = Some b -> b ∈ bs.

Definition record_entries_of (i : PeerId) n (offices : list Term) (w : World) : World :=
  {| cluster := record_step i n offices [] (cluster w); entries_sent := entries_sent w ++ batches n |}.

Inductive log_step (w : World) : World -> Prop :=
| log_act i n fuel a r n' :
    nodes (cluster w) !! i = Some n -> node_term n < u64_max -> room n (proposes a) ->
    act tuning fuel a n = Ok (r, n') -> live n' ->
    log_step w (record_entries_of i n' (office_won r n') w)
| log_network i n t :
    nodes (cluster w) !! i = Some n -> sent t = sent (transport n) ->
    Forall (allowed (ledger (cluster w)) i) (inbox t) -> Forall (carried (entries_sent w)) (inbox t) ->
    log_step w (record_entries_of i (set_transport t n) [] w)
| log_restart i n t ck d n' :
    nodes (cluster w) !! i = Some n -> sent t = sent (transport n) ->
    Forall (allowed (ledger (cluster w)) i) (inbox t) -> Forall (carried (entries_sent w)) (inbox t) ->
    node_new (config n) (storage n) t ck d = Ok n' -> live n' ->
    log_step w (record_entries_of i n' [] w).

Definition log_initial (peers : list PeerId) (w : World) : Prop :=
  initial peers (cluster w) /\ entries_sent w = [] /\
  forall i n, nodes (cluster w) !! i = Some n ->
    live n /\ stored_log n = ∅ /\ cached_last_log n = (0, 0) /\ log_ok n /\ (snapshot_boundary n).1 = 0 /\
    saved_snapshot n = None /\ batches n = [].

Inductive log_reachable (peers : list PeerId) : World -> Prop :=
| log_reachable_initial w : log_initial peers w -> log_reachable peers w
| log_reachable_step w w' : log_reachable peers w -> log_step w w' -> log_reachable peers w'.

(** A world moves as its cluster does. *)
Lemma log_step_cluster w w' : log_step w w' -> cluster_step tuning (cluster w) (cluster w').
Proof. destruct 1; [by eapply step_act|by eapply step_network|by eapply step_restart]. Qed.

Lemma log_reachable_cluster peers w : log_reachable peers w -> reachable tuning peers (cluster w).
Proof.
  induction 1 as [w [Hi _]|w w' _ IH Hs]; [by constructor|].
  econstructor; [exact IH|by apply log_step_cluster].
Qed.

(** ** The invariant *)

Record log_inv (w : World) (G : History) : Prop := {
  li_sound : forall i n, nodes (cluster w) !! i = Some n -> sound G n;
  li_inbox : forall i n, nodes (cluster w) !! i = Some n ->
    Forall (carried (entries_sent w)) (node_inbox n);
  li_sent : Forall (valid G) (entries_sent w);
  li_terms : forall k, is_Some (G !! k) -> exists j, (j, k.2) ∈ elected (cluster w);
  li_kept : abdicated (cluster w) = [];
}.

(** A node that leads won the term it leads. *)
Lemma inv_leading peers (c : Cluster) i n :
  node_inv peers c i n -> is_leader n = true -> (i, node_term n) ∈ elected c.
Proof. intros Hi Hl. destruct (inv_leads _ _ _ _ Hi Hl) as (t & _ & ? & E). by rewrite <- E by apply _. Qed.

Lemma inv_unique peers w G i j t :
  inv peers (cluster w) -> log_inv w G ->
  (i, t) ∈ elected (cluster w) -> (j, t) ∈ elected (cluster w) -> i = j.
Proof.
  intros Hc Hw Hi Hj. destruct (inv_one _ _ _ _ _ Hc Hi Hj) as [?|[k Hk]]; [done|].
  rewrite (li_kept _ _ Hw) in Hk. by apply not_elem_of_nil in Hk.
Qed.

Lemma initial_log_inv peers w : log_initial peers w -> log_inv w ∅.
Proof.
  intros ((_ & _ & Ha & Hn) & Hs & Hl). split.
  - intros i n E. destruct (Hl i n E) as (_ & El & Et & Hok & Hb & Hsn & Hba).
    destruct (Hn i n E) as (_ & _ & _ & Hld & _ & _).
    split; [|rewrite El; apply chained_empty|by rewrite Hba|by rewrite Hld].
    split; rewrite ?El, ?Et; [done|apply widths_empty|eapply chained_solid, (chained_empty ∅)|by left|done|done].
  - intros i n E. destruct (Hn i n E) as (_ & _ & _ & _ & _ & ->). done.
  - by rewrite Hs.
  - intros k [x Hk]. by rewrite lookup_empty in Hk.
  - done.
Qed.

Lemma carried_genuine G bs F : Forall (valid G) bs -> Forall (carried bs) F -> genuine G F.
Proof.
  intros Hv Hc im (f & Hf & Hd). rewrite Forall_forall in Hc. destruct (Hc f Hf im Hd) as [Hi Hb].
  split; [done|]. intros b Hb'. rewrite Forall_forall in Hv. by apply Hv, Hb.
Qed.

Lemma carried_mono bs bs' f : bs ⊆ bs' -> carried bs f -> carried bs' f.
Proof. intros Hb Hc im Hd. destruct (Hc im Hd). split; auto. Qed.

(** What a step of node [i] has to provide. *)
Lemma step_log_inv peers w G i n n' offices G' :
  inv peers (cluster w) -> inv peers (record_step i n' offices [] (cluster w)) -> log_inv w G ->
  nodes (cluster w) !! i = Some n ->
  G ⊆ G' -> sound G' n' -> Forall (carried (entries_sent w)) (node_inbox n') ->
  (forall k, G' !! k <> G !! k -> is_leader n = true /\ k.2 = node_term n) ->
  log_inv (record_entries_of i n' offices w) G'.
Proof.
  intros Hc Hc' Hw Hn HG Hs' Hi' Hnew. pose proof Hw as [Hs Hi Hb Ht Ha].
  assert (Hled : is_leader n = true -> (i, node_term n) ∈ elected (cluster w))
    by (intros; eapply inv_leading; [by apply (inv_nodes _ _ Hc)|done]).
  split.
  - intros j m. cbn. intros [[<- <-]|[Hne Hm]]%lookup_insert_Some; [done|].
    destruct (Hs j m Hm) as [Hco Hch Hba Hld]. split.
    + done.
    + by eapply chained_mono.
    + eapply Forall_impl; [exact Hba|]. intros b. by apply valid_mono.
    + intros Hl k Hk. destruct (decide (G' !! (k, node_term m) = G !! (k, node_term m))) as [E|Hd].
      * rewrite E in Hk. by apply Hld.
      * destruct (Hnew _ Hd) as [Hln Et]. cbn in Et. destruct Hne.
        eapply (inv_unique _ _ _ _ _ (node_term m)); [exact Hc|exact Hw|by rewrite Et; apply Hled|].
        eapply inv_leading; [by apply (inv_nodes _ _ Hc)|done].
  - intros j m. cbn. intros [[<- <-]|[Hne Hm]]%lookup_insert_Some;
      (eapply Forall_impl; [|intros f; apply carried_mono; apply incl_app_l]); [done|by eapply Hi].
  - cbn. apply Forall_app. split; [|apply Hs'].
    eapply Forall_impl; [exact Hb|]. intros b. by apply valid_mono.
  - intros k Hk. cbn. destruct (decide (G' !! k = G !! k)) as [E|Hd].
    + rewrite E in Hk. destruct (Ht k Hk) as [j Hj]. exists j. apply elem_of_app. by right.
    + destruct (Hnew k Hd) as [Hln ->]. exists i. apply elem_of_app. right. by apply Hled.
  - done.
Qed.

(** ** Operations *)

#[local] Abbreviation L := (L (Monitored S) T C D).

Lemma walks_then {A B} gs (m : L A) (b : B) : walks tuning room gs m -> walks tuning room gs (m;; mret b).
Proof. intros Hm. apply walks_bind; [done|]. intros a. apply walks_ret. Qed.

Lemma returns_then {A B} (m : L A) (b : B) n (Q : Node -> Prop) :
  returns m n (fun _ n' => Q n') -> returns (m;; mret b) n (fun _ n' => Q n').
Proof.
  intros Hm. apply returns_bind. eapply returns_mono; [|exact Hm].
  cbv beta. intros [a|e] n' Hn'; [by apply returns_ret|done].
Qed.

(** Every operation is a walk, up to taking office and the plain demotion. *)
Lemma act_walks fuel a n r n' :
  node_term n < u64_max -> room n (proposes a) -> act tuning fuel a n = Ok (r, n') ->
  reached tuning room ([], n) [] n' \/
  (exists n0, reached tuning room ([], n) [] n0 /\ n' = (become_leader n0).2 /\
    campaign_once fuel MAX_FRAME_SIZE n = Ok (Ok true, n')) \/
  n' = (demote_to_follower_keep_term n).2.
Proof.
  intros Ht Hr. pose proof (reached_refl tuning room [] n) as Hn. destruct a; cbn [act proposes] in *; intros E.
  - left. revert r n' E. apply walks_then; [|done]. apply walks_run, (strolls_handle_once tuning room room_calm).
  - destruct (walks_campaign tuning room room_calm fuel MAX_FRAME_SIZE ([], n) [] n Hn Ht _ _ E)
      as [?|(-> & n0 & Hn0 & ->)]; [by left|right; left; by exists n0].
  - left. revert r n' E. apply walks_then; [|done]. apply (walks_pre_vote tuning room room_calm).
  - left. revert r n' E. apply walks_then; [|done]. by apply (walks_heartbeat tuning room room_calm).
  - left. revert r n' E. apply returns_then. by apply (walks_propose_at tuning room room_calm).
  - left. revert r n' E. apply returns_then, returns_run. by apply (strolls_replicate_at tuning room room_calm).
  - left. revert r n' E. apply returns_then. by apply (walks_read_index_at tuning room room_calm).
  - left. revert r n' E. apply walks_then; [|done]. by apply (walks_transfer tuning room room_calm).
  - right. right. destruct (demote_ok n) as (Ed & _). unfold mbind, L_bind, run in E. rewrite Ed in E.
    by injection E as _ <-.
Qed.

Lemma demote_advances G n : sound G n -> advances G n (demote_to_follower_keep_term n).2.
Proof.
  intros Hs. destruct (demote_ok n) as (_ & _ & Hr). apply quiet_advances; [done| |].
  - apply state_quiet. assert (K : keeps log_state (demote_to_follower_keep_term : M (Monitored S) T C D unit))
      by (unfold demote_to_follower_keep_term; keeps_auto). apply K.
  - intros Hl. unfold is_leader in Hl. by rewrite Hr in Hl.
Qed.

Lemma reached_advances (Lx : Lapsed) G I n0 n n' :
  on_course I n0 n -> genuine G I -> sound G n -> reached tuning room ([], n) [] n' -> advances G n n'.
Proof.
  intros Hc HG Hs (F & _ & Hw). eapply walk_advances; [exact Hw|exact Hc| |done|done].
  apply list_subseteq_nil.
Qed.

(** The log of a leader that stays in office only grows. *)
Definition append_only n n' : Prop :=
  is_leader n = true -> is_leader n' = true -> node_term n' = node_term n ->
  stored_log n ⊆ stored_log n'.

Section Act.
Context (peers : list PeerId) (w : World) (G : History) (i : PeerId) (n : Node).
Context (Hc : inv peers (cluster w)) (Hw : log_inv w G) (Hn : nodes (cluster w) !! i = Some n).

Lemma act_course : on_course (H4 := freed (abdicated (cluster w)) i) (node_inbox n) n n.
Proof. eapply inv_on_course. by apply (inv_nodes _ _ Hc i). Qed.

Lemma act_genuine : genuine G (node_inbox n).
Proof. eapply carried_genuine; [apply Hw|by eapply (li_inbox _ _ Hw)]. Qed.

Lemma reached_inbox n' :
  reached tuning room ([], n) [] n' -> Forall (carried (entries_sent w)) (node_inbox n').
Proof.
  intros Hr. pose proof (reached_course _ _ (node_inbox n) n [] n n' act_course (list_subseteq_nil _) Hr)
    as (Hs & _). apply Forall_forall. intros f Hf%(step_inbox _ _ Hs).
  pose proof (li_inbox _ _ Hw i n Hn) as Hi. rewrite Forall_forall in Hi. auto.
Qed.

(** The term of a new leader is not in the history. *)
Lemma office_fresh n' k :
  inv peers (record_step i n' [node_term n'] [] (cluster w)) -> node_term n' = node_term n + 1 ->
  G !! (k, node_term n') = None.
Proof.
  intros Hc' Ht. destruct (G !! (k, node_term n')) as [x|] eqn:E; [|done]. exfalso.
  destruct (li_terms _ _ Hw (k, node_term n')) as [j Hj]; [eauto|]. cbn in Hj.
  assert (i = j) as <-.
  { destruct (inv_one _ _ i j (node_term n') Hc') as [?|[v Hv]]; [cbn; left|cbn; by right|done|].
    cbn in Hv. rewrite (li_kept _ _ Hw) in Hv. by apply not_elem_of_nil in Hv. }
  pose proof (inv_nodes _ _ Hc i n Hn) as Hi. destruct (inv_sane _ _ _ _ Hi) as [_ [_ Hb]].
  apply steady_term in Hb. apply (inv_elected _ _ _ _ Hi) in Hj as [Hx|Hv].
  - unfold lapsed, freed in Hx. rewrite (li_kept _ _ Hw) in Hx. by apply not_elem_of_nil in Hx.
  - unfold voted, node_term in *. lia.
Qed.

Lemma office_log_inv fuel a r n0 n' :
  n' = (become_leader n0).2 -> node_term n < u64_max -> act tuning fuel a n = Ok (r, n') -> reached tuning room ([], n) [] n0 ->
  campaign_once fuel MAX_FRAME_SIZE n = Ok (Ok true, n') ->
  inv peers (record_step i n' (office_won r n') [] (cluster w)) ->
  (exists G', log_inv (record_entries_of i n' (office_won r n') w) G') /\ append_only n n'.
Proof.
  intros Eb Ht E Hre Ec Hc'. pose proof (inv_nodes _ _ Hc i n Hn) as Hi.
  pose proof (li_sound _ _ Hw i n Hn) as Hs.
  destruct (reached_advances _ _ _ _ _ _ act_course act_genuine Hs Hre) as (_ & _ & G' & HG & Hs' & Hnew).
  destruct (campaign_once_course _ _ (node_inbox n) n (inv_sane _ _ _ _ Hi) Ht
              (inv_fair _ _ _ _ Hi) _ _ Ec) as [[? _]|(_ & n1 & _ & Ho & _ & Hh)]; [done|].
  assert (Et : node_term n' = node_term n + 1).
  { rewrite (office_term _ _ _ Ho). unfold node_term at 1. by rewrite Hh. }
  destruct (become_leader_ok n0) as [Hv Hl]. rewrite <- Eb in Hv, Hl.
  assert (Hwon : inv peers (record_step i n' [node_term n'] [] (cluster w))).
  { eapply moves_inv; [exact Hc|exact Hn|]. exact (act_moves tuning _ _ _ _ fuel Campaign (Ok true) _ Hi Ht Ec). }
  split; [|intros _ _ Et'; rewrite Et in Et'; lia]. exists G'.
  eapply step_log_inv; [exact Hc|exact Hc'|exact Hw|exact Hn|done| | |done].
  - rewrite Eb. apply office_sound; [done|]. intros k. rewrite <- Eb.
    destruct (decide (G' !! (k, node_term n') = G !! (k, node_term n'))) as [->|Hd].
    + by apply office_fresh.
    + destruct (Hnew _ Hd) as [_ Eq]. cbn in Eq. lia.
  - unfold view in Hv. assert (node_inbox n' = node_inbox n0) as -> by congruence. by apply reached_inbox.
Qed.

Lemma act_log_inv fuel a r n' :
  node_term n < u64_max -> room n (proposes a) -> act tuning fuel a n = Ok (r, n') ->
  (exists G', log_inv (record_entries_of i n' (office_won r n') w) G') /\ append_only n n'.
Proof.
  intros Ht Hr E. pose proof (inv_nodes _ _ Hc i n Hn) as Hi. pose proof (li_sound _ _ Hw i n Hn) as Hs.
  pose proof (moves_inv _ _ _ _ _ _ _ Hc Hn (act_moves _ _ _ _ _ _ _ _ _ Hi Ht E)) as Hc'.
  destruct (act_walks _ _ _ _ _ Ht Hr E) as [Hre|[(n0 & Hre & Eb & Ec)|Ed]].
  - destruct (reached_advances _ _ _ _ _ _ act_course act_genuine Hs Hre)
      as (_ & Hsub & G' & HG & Hs' & Hnew).
    split; [|by intros _ Hl _; apply Hsub]. exists G'.
    eapply step_log_inv; [exact Hc|exact Hc'|exact Hw|exact Hn|done|done|by apply reached_inbox|done].
  - by eapply office_log_inv.
  - destruct (demote_advances G n Hs) as (Hl & _ & G' & HG & Hs' & Hnew). rewrite <- Ed in *.
    destruct (demote_ok n) as (_ & Hv & Hro). rewrite <- Ed in *.
    split; [|intros _ Hl'; unfold is_leader in Hl'; by rewrite Hro in Hl']. exists G'.
    eapply step_log_inv; [exact Hc|exact Hc'|exact Hw|exact Hn|done|done| |done].
    unfold view in Hv. assert (node_inbox n' = node_inbox n) as -> by congruence. by eapply (li_inbox _ _ Hw).
Qed.
End Act.

(** ** Deliveries and restarts *)

Lemma node_new_coherent n t ck d n' :
  coherent n -> sent t = sent (transport n) -> node_new (config n) (storage n) t ck d = Ok n' ->
  coherent n' /\ stored_log n' = stored_log n /\ batches n' = batches n.
Proof.
  intros Hco Es E. pose proof (node_new_ok _ _ _ _ _ _ E) as (_ & Et & _ & _ & _ & Ev).
  assert (El : stored_log n' = stored_log n) by (unfold stored_log; by rewrite Ev).
  assert (Eb : batches n' = batches n) by (unfold batches; by rewrite Et, Es).
  split; [|done]. pose proof (co_snapshot _ Hco) as Hsn.
  unfold node_new in E. destruct (validate_node_config _); [|done].
  destruct (load_hard_state (storage n)) as [[hs|e] s1] eqn:E1; [|done].
  destruct (last_log_position_total s1) as (tip & s2 & E2 & He). rewrite E2 in E.
  destruct (load_snapshot_meta s2) as [[meta|e] s3] eqn:E3; [|done].
  apply load_hard_state_law in E1 as [V1 _]. apply last_log_position_law in E2 as [V2 Hl].
  apply load_snapshot_meta_law in E3 as [_ Hm]. rewrite V2, V1 in Hm. rewrite V1 in Hl, He.
  specialize (Hl tip eq_refl). specialize (Hm meta eq_refl). unfold saved_snapshot in *. rewrite Hsn in Hm.
  cbn in Hm. subst meta.
  revert E. generalize (replicate (Z.to_nat (1024 * 1024)) (to_byte 0)).
  pose proof (arena_new_wf (Z.to_nat 8192)) as Hw. pose proof (fun i => get_term_empty (arena_new (Z.to_nat 8192)) i eq_refl) as Hg.
  revert Hw Hg. generalize (arena_new (Z.to_nat 8192)). intros md Hw Hg buf E.
  split; rewrite ?El; try apply Hco.
  - injection E as <-. split; [done|]. intros i u. cbn. by rewrite Hg.
  - injection E as <-. cbn.
    destruct (decide (stored_log n = ∅)) as [Hn|Hn]; [left; auto|right; auto].
  - injection E as <-. done.
  - unfold saved_snapshot. by rewrite Ev.
Qed.

Lemma network_log_inv peers w G i n t :
  inv peers (cluster w) -> log_inv w G -> nodes (cluster w) !! i = Some n ->
  sent t = sent (transport n) -> Forall (allowed (ledger (cluster w)) i) (inbox t) ->
  Forall (carried (entries_sent w)) (inbox t) ->
  log_inv (record_entries_of i (set_transport t n) [] w) G.
Proof.
  intros Hc Hw Hn Es Ha Hb. pose proof (inv_nodes _ _ Hc i n Hn) as Hi.
  eapply step_log_inv; [exact Hc| |exact Hw|exact Hn|done| |exact Hb|done].
  - eapply moves_inv; [done|exact Hn|]. by apply network_moves.
  - destruct (li_sound _ _ Hw i n Hn) as [Hco Hch Hba Hld].
    assert (Hk : log_state (set_transport t n) = log_state n)
      by (unfold log_state, batches; cbn; by rewrite Es).
    split; [by eapply quiet_coherent; [apply state_quiet|]|done| |done].
    unfold batches. cbn. by rewrite Es.
Qed.

Lemma restart_log_inv peers w G i n t ck d n' :
  inv peers (cluster w) -> log_inv w G -> nodes (cluster w) !! i = Some n ->
  sent t = sent (transport n) -> Forall (allowed (ledger (cluster w)) i) (inbox t) ->
  Forall (carried (entries_sent w)) (inbox t) -> node_new (config n) (storage n) t ck d = Ok n' ->
  log_inv (record_entries_of i n' [] w) G /\ is_leader n' = false.
Proof.
  intros Hc Hw Hn Es Ha Hb E. pose proof (inv_nodes _ _ Hc i n Hn) as Hi.
  pose proof (node_new_ok _ _ _ _ _ _ E) as (_ & Et & _ & Hl & _). split; [|done].
  destruct (li_sound _ _ Hw i n Hn) as [Hco Hch Hba _].
  destruct (node_new_coherent _ _ _ _ _ Hco Es E) as (Hco' & El & Eb).
  eapply step_log_inv; [exact Hc| |exact Hw|exact Hn|done| | |done].
  - eapply moves_inv; [done|exact Hn|]. by eapply restart_moves.
  - split; [done|by rewrite El|by rewrite Eb|by rewrite Hl].
  - unfold node_inbox. by rewrite Et.
Qed.

Lemma log_step_inv peers w w' G :
  inv peers (cluster w) -> log_inv w G -> log_step w w' -> exists G', log_inv w' G'.
Proof.
  intros Hc Hw. destruct 1 as [i n fuel a r n' Hn Ht Hr E Hv|i n t Hn Es Ha Hb|i n t ck d n' Hn Es Ha Hb E Hv].
  - by eapply act_log_inv.
  - exists G. by eapply network_log_inv.
  - exists G. by eapply restart_log_inv.
Qed.

Lemma log_reachable_inv peers w :
  log_reachable peers w -> inv peers (cluster w) /\ exists G, log_inv w G.
Proof.
  intros Hr. split; [by eapply reachable_inv, log_reachable_cluster|].
  induction Hr as [w Hi|w w' Hr [G IH] Hs]; [exists ∅; by eapply initial_log_inv|].
  eapply log_step_inv; [by eapply reachable_inv, log_reachable_cluster|exact IH|exact Hs].
Qed.


(** C3: Leader Append-Only: in such a cluster, a node that leads before and after a
    step, in the same term, has kept every entry of its log. *)
Theorem leader_append_only peers w w' i n n' :
  log_reachable peers w -> log_step w w' ->
  nodes (cluster w) !! i = Some n -> nodes (cluster w') !! i = Some n' ->
  is_leader n = true -> is_leader n' = true -> node_term n' = node_term n ->
  stored_log n ⊆ stored_log n'.
Proof.
  intros [Hc [G Hw]]%log_reachable_inv Hs Hn Hn' Hl Hl' Ht.
  destruct Hs as [j m fuel a r m' Hm Htm Hr E Hv|j m t Hm Es Ha Hb|j m t ck d m' Hm Es Ha Hb E Hv];
    cbn in Hn'; apply lookup_insert_Some in Hn' as [[-> <-]|[_ Hn']];
    try (rewrite Hn in Hn'; by injection Hn' as <-); rewrite Hn in Hm; injection Hm as <-.
  - by apply (act_log_inv peers w G i n Hc Hw Hn fuel a r).
  - done.
  - destruct (restart_log_inv peers w G i n t ck d m') as [_ Hf]; [done..|]. congruence.
Qed.
End LogCluster.

(** ** An entry replicated *)

Abbreviation SampleWorld := (@World View QueueTransport TickClock unit).

Definition world0 : SampleWorld := {| cluster := cluster0; entries_sent := [] |}.
Definition world3 : SampleWorld :=
  record_entries_of 1 node1_answered []
    (record_entries_of 2 node2_voted [] (record_entries_of 2 node2_asked [] world0)).
Definition world4 : SampleWorld := record_entries_of 1 node1_elected [1] world3.

(** The leader replicates one entry, and node 2 takes it. *)
Definition node1_wrote := after (ReplicateBatch [[to_byte 7]]) node1_elected.
Definition append_frame : bytes :=
  default [] (snd <$> List.find (fun pf => pf.1 =? 2) (rev (qt_sent (transport node1_wrote)))).
Definition node2_given := set_transport (hand [append_frame] node2_voted) node2_voted.
Definition node2_took := after Receive node2_given.

Definition world5 : SampleWorld := record_entries_of 1 node1_wrote [] world4.
Definition world7 : SampleWorld :=
  record_entries_of 2 node2_took [] (record_entries_of 2 node2_given [] world5).

Definition append_message : InboundRaftMessage :=
  {| im_from := 1; im_group_id := 0;
     im_message := MAppendEntries (append_msg 1 0 0 0 1)
                     (entry_bytes {| e_term := 1; e_index := 1; e_payload := [to_byte 7] |}) |}.

Lemma append_frame_eq : decode_message append_frame = Ok append_message.
Proof. vm_compute. reflexivity. Qed.

Lemma append_allowed votes_sent : allowed votes_sent 2 append_frame.
Proof.
  intros im Hd. pose proof (decode_message_wf _ _ Hd) as Hw. rewrite append_frame_eq in Hd.
  injection Hd as <-. split; [split; [done|]|by split].
  apply Forall_cons. split; [intros e He; by vm_compute in He|apply Forall_nil_2].
Qed.

Lemma carried_other bs f im :
  decode_message f = Ok im -> is_install (im_message im) = false -> batch_of (im_message im) = None ->
  carried bs f.
Proof. intros E Hi Hb im' Hd. rewrite E in Hd. injection Hd as <-. split; [done|]. congruence. Qed.

Lemma append_carried bs :
  (0, 0, [{| e_term := 1; e_index := 1; e_payload := [to_byte 7] |}]) ∈ bs -> carried bs append_frame.
Proof.
  intros Hin im Hd. rewrite append_frame_eq in Hd. injection Hd as <-. split; [done|].
  intros b [= <-]. exact Hin.
Qed.

Lemma world0_initial : log_initial [1; 2; 3] world0.
Proof.
  split; [apply cluster0_initial|]. split; [done|]. intros i n. cbn.
  intros [[<- <-]|[_ [[<- <-]|[_ [[<- <-]|[_ Hn]]%lookup_insert_Some]]%lookup_insert_Some]]%lookup_insert_Some;
    [..|by rewrite lookup_empty in Hn]; (split_and!; [by eexists|..]; try done);
    (split; [apply arena_new_wf|intros k t Hg; by rewrite get_term_empty in Hg]).
Qed.

Lemma world4_reachable : log_reachable VecTuning_default [1; 2; 3] world4.
Proof.
  eapply log_reachable_step.
  2: { apply (log_act _ _ 1 node1_answered 10 Campaign (Ok true)); [|vm_compute; reflexivity|vm_compute; discriminate| |eexists; vm_compute; reflexivity].
       - cbn. by rewrite lookup_insert_eq.
       - vm_compute. reflexivity. }
  eapply log_reachable_step.
  2: { apply (log_network _ _ 1 (new_node 1)); [by cbn|done| |].
       - apply Forall_singleton, answer_allowed. vm_compute. left.
       - apply Forall_singleton. by eapply carried_other; [vm_compute; reflexivity|..]. }
  eapply log_reachable_step.
  2: { apply (log_act _ _ 2 node2_asked 10 Receive (Ok false)); [|vm_compute; reflexivity|vm_compute; discriminate| |eexists; vm_compute; reflexivity].
       - cbn. by rewrite lookup_insert_eq.
       - vm_compute. reflexivity. }
  eapply log_reachable_step.
  2: { apply (log_network _ _ 2 (new_node 2)); [by cbn|done| |].
       - apply Forall_singleton, request_allowed.
       - apply Forall_singleton. by eapply carried_other; [vm_compute; reflexivity|..]. }
  apply log_reachable_initial, world0_initial.
Qed.

Lemma wrote_step : log_step VecTuning_default world4 world5.
Proof.
  apply (log_act _ _ 1 node1_elected 10 (ReplicateBatch [[to_byte 7]]) (Ok false)); [|vm_compute; reflexivity|vm_compute; discriminate| |eexists; vm_compute; reflexivity].
  - cbn. by rewrite lookup_insert_eq.
  - vm_compute. reflexivity.
Qed.

Lemma hand_sent frames (n : DiskNode) :
  sent (hand frames n) = sent (transport n).
Proof. done. Qed.

Lemma given_step :
  log_step VecTuning_default world5 (record_entries_of 2 node2_given [] world5).
Proof.
  refine (log_network _ world5 2 node2_voted
            (hand [append_frame] node2_voted) _ _ _ _).
  - cbn. rewrite !(lookup_insert_ne _ 1 2) by done. by rewrite lookup_insert_eq.
  - apply hand_sent.
  - apply Forall_singleton, append_allowed.
  - apply Forall_singleton, append_carried. cbn [entries_sent record_entries_of].
    apply elem_of_app. right. vm_compute. left.
Qed.

Lemma world7_reachable : log_reachable VecTuning_default [1; 2; 3] world7.
Proof.
  eapply log_reachable_step.
  2: { apply (log_act _ _ 2 node2_given 10 Receive (Ok false)); [|vm_compute; reflexivity|vm_compute; discriminate| |eexists; vm_compute; reflexivity].
       - cbn. by rewrite lookup_insert_eq.
       - vm_compute. reflexivity. }
  eapply log_reachable_step.
  2: { apply given_step. }
  eapply log_reachable_step; [apply world4_reachable|apply wrote_step].
Qed.


Lemma leader_append_only_witness : stored_log node1_elected ⊆ stored_log node1_wrote.
Proof.
  apply (leader_append_only VecTuning_default [1; 2; 3] world4 world5 1).
  - exact world4_reachable.
  - exact wrote_step.
  - cbn. by rewrite lookup_insert_eq.
  - cbn. by rewrite lookup_insert_eq.
  - vm_compute. reflexivity.
  - vm_compute. reflexivity.
  - vm_compute. reflexivity.
Defined.
