(* ===== verification/EngineFacts.v ===== *)
(** * EngineFacts: what the engine promises its clients and its state machine

    Commit notifications, the application of committed entries, the tolerance
    of the run loop to bad frames, and shutdown. *)

From stdpp Require Import base list sets gmap strings sorting.
From Stdlib Require Import ZArith Lia Sorted.
From S2P Require Import Prelude Types Wire Codec Slots Guard Arena Progress Quorum Traits.
From S2P Require Import Membership NodeState Node Samples ConfigChange Commit Snapshot Transfer.
From S2P Require Import Inbound Campaign Leader Install Propose ReadIndex EngineState Engine.
From S2P Require Import EngineApi Frames Durability.

Local Open Scope Z_scope.

(** ** Commit waiters *)

Definition resolved (commit : LogIndex) (w : CommitWaiter) : Prop := cw_index w <= commit.
Definition waiting (commit : LogIndex) (w : CommitWaiter) : Prop := commit < cw_index w.

(** [ws] splits into the waiters [l] that were notified and those that stay. *)
Definition drained (commit : LogIndex) (ws l ws' : list CommitWaiter) : Prop :=
  l ++ ws' ≡ₚ ws /\ Forall (resolved commit) l /\ Forall (waiting commit) ws'.

Lemma drain_slow_drained k i commit ws reg :
  (length ws <= i + k)%nat -> Forall (waiting commit) (take i ws) ->
  exists l, drained commit ws l (drain_slow k i commit ws reg).1 /\
            (drain_slow k i commit ws reg).2 = notify_all l reg.
Proof.
  revert i ws reg. induction k as [|k IH]; intros i ws reg Hk Hw; cbn [drain_slow].
  { exists []. split; [|done]. split; [done|]. split; [done|]. by rewrite take_ge in Hw by lia. }
  destruct (ws !! i) as [w|] eqn:Hi.
  2: { apply lookup_ge_None in Hi. exists []. split; [|done]. split; [done|]. split; [done|].
       by rewrite take_ge in Hw by lia. }
  pose proof (lookup_lt_Some _ _ _ Hi) as Hlt.
  destruct (Z.leb_spec (cw_index w) commit) as [Hle|Hgt].
  - pose proof (take_drop_middle _ _ _ Hi) as E.
    assert (Hlen : length (take i ws) = i) by (rewrite length_take; lia).
    pose proof (swap_remove_perm (take i ws) w (drop (Datatypes.S i) ws)) as Hp.
    rewrite Hlen, E in Hp.
    destruct (IH i (swap_remove i ws) (notify_committed (cw_slot_id w) (cw_index w) reg))
      as (l & (Hd & Hr & Hx) & ->).
    + apply Permutation_length in Hp. rewrite Hp, length_app, length_take, length_drop. lia.
    + unfold swap_remove. destruct (last ws) as [x|] eqn:Hl; [|done].
      rewrite take_take, take_insert_ge by lia. by rewrite Nat.min_l by lia.
    + exists (w :: l). split; [|done]. split; [|by split; [constructor|]].
      cbn. transitivity (take i ws ++ w :: drop (Datatypes.S i) ws); [|by rewrite E].
      rewrite <- Permutation_middle. apply perm_skip. by rewrite Hd.
  - apply IH; [lia|]. rewrite (take_S_r _ _ _ Hi). apply Forall_app. split; [done|].
    by apply Forall_singleton.
Qed.

(** Commit notifications are exact while the waiters are in index order:
    draining notifies, with its own index, every waiter whose entry is
    committed and no other, and keeps exactly the rest. *)
Theorem drain_waiters_exact commit ws reg :
  StronglySorted (fun a b => cw_index a <= cw_index b) ws ->
  exists l, drained commit ws l (drain_waiters commit ws reg).1 /\
            (drain_waiters commit ws reg).2 = notify_all l reg.
Proof.
  intros Hs. unfold drain_waiters. destruct (last ws) as [w|] eqn:Hl.
  - destruct (Z.leb_spec (cw_index w) commit) as [Hle|_]; [|by apply drain_slow_drained].
    exists ws. split; [|done]. split; [by rewrite app_nil_r|]. split; [|done].
    apply last_Some in Hl as [ws0 ->]. apply Forall_app. split; [|by apply Forall_singleton].
    induction ws0 as [|a ws0 IH]; [done|]. apply StronglySorted_inv in Hs as [Hs Ha].
    constructor; [|by apply IH]. rewrite List.Forall_forall in Ha. unfold resolved.
    etransitivity; [apply Ha, in_or_app; right; by left|done].
  - apply last_None in Hl as ->. exists []. done.
Qed.

Lemma drain_waiters_exact_witness :
  exists l, drained 3 [{| cw_index := 2; cw_slot_id := 0 |}; {| cw_index := 4; cw_slot_id := 1 |}] l
              [{| cw_index := 4; cw_slot_id := 1 |}].
Proof.
  destruct (drain_waiters_exact 3
    [{| cw_index := 2; cw_slot_id := 0 |}; {| cw_index := 4; cw_slot_id := 1 |}]
    (registry_new 2)) as (l & Hd & _).
  - repeat constructor; cbn; lia.
  - exists l. exact Hd.
Defined.

(** ** Applying committed entries *)

(** Entries the membership layer consumes. *)
Definition control (payload : bytes) : bool :=
  is_noop_entry payload || match config_decode payload with Some _ => true | None => false end.

(** The application entries of [l], fed to the state machine in order. *)
Fixpoint machine_run {SM} `{StateMachine SM} (l : list (LogIndex * bytes)) (sm : SM)
  : res unit * SM :=
  match l with
  | [] => (Ok tt, sm)
  | (i, p) :: l' =>
      if control p then machine_run l' sm
      else match apply_at i p sm with
           | (Ok _, sm') => machine_run l' sm'
           | (Err e, sm') => (Err e, sm')
           end
  end.

(** [l] lists the stored entries from index [next] on, in order. *)
Fixpoint stored_from (log : gmap Z (Term * bytes)) (next : LogIndex) (l : list (LogIndex * bytes))
  : Prop :=
  match l with
  | [] => True
  | (i, p) :: l' => i = next /\ (exists t, log !! i = Some (t, p)) /\ stored_from log (next + 1) l'
  end.

Section Apply.
Context {S T C D SM : Type} `{StorageLaws S} `{RaftTransport T} `{Clock C} `{CustomDispatch D T}
  `{StateMachine SM}.
Implicit Types (n : RaftNode S T C D) (r : ArbitroRaft S T C D SM).

Lemma e_bind_inv {A B} (m : E S T C D SM A) (k : A -> E S T C D SM B) r b r'' :
  (m ≫= k) r = Ok (Ok b, r'') ->
  exists a r', m r = Ok (Ok a, r') /\ k a r' = Ok (Ok b, r'').
Proof.
  unfold mbind, E_bind. destruct (m r) as [[[a|e] r1]|] eqn:Em; [|done|done]. eauto.
Qed.

Lemma on_node_m_inv {A} (m : M S T C D A) r a r' :
  on_node_m m r = Ok (Ok a, r') -> exists n', m (node r) = (Ok a, n') /\ r' = set_node n' r.
Proof.
  unfold on_node_m, on_node, run. destruct (m (node r)) as [x n']. intros [= -> <-]. eauto.
Qed.

(** What the loop reads between two entries. *)
Definition ledger_of n := (stored_log n, last_applied n).

Lemma keeps_log_config_change e : keeps ledger_of (apply_config_change e : M S T C D _).
Proof.
  assert (Hp : keeps ledger_of (persist_hard_state : M S T C D _)).
  { intros n. unfold ledger_of. rewrite (keeps_log_persist n). unfold persist_hard_state.
    rewrite bind_gets. unfold on_storage. by destruct (save_hard_state _ _). }
  unfold apply_config_change, apply_phase, drop_voting_learners, step_down,
    reconcile_leader_progress_with_config, drop_stale_peer, demote_to_follower_keep_term.
  keeps_auto.
Qed.

Lemma apply_if_config_change_control p n b n' :
  apply_if_config_change p n = (Ok b, n') -> b = control p /\ ledger_of n' = ledger_of n.
Proof.
  unfold apply_if_config_change, control. destruct (is_noop_entry p); [by intros [= <- <-]|].
  destruct (config_decode p) as [e|]; [|by intros [= <- <-]]. intros E.
  apply bind_inv_Ok in E as ([] & n1 & E1 & [= <- <-]). split; [done|].
  pose proof (keeps_log_config_change e n) as Hk. by rewrite E1 in Hk.
Qed.

Lemma apply_entry_spec i p r r' :
  apply_entry i p r = Ok (Ok tt, r') ->
  machine_run [(i, p)] (state_machine r) = (Ok tt, state_machine r') /\
  stored_log (node r') = stored_log (node r) /\ last_applied (node r') = i.
Proof.
  unfold apply_entry. intros E. apply e_bind_inv in E as (consumed & r1 & E1 & E).
  apply on_node_m_inv in E1 as (n1 & E1 & ->).
  apply apply_if_config_change_control in E1 as [-> K1]. unfold ledger_of in K1.
  injection K1 as Kl _. apply e_bind_inv in E as ([] & r2 & E2 & E3).
  assert (Hm : machine_run [(i, p)] (state_machine r) = (Ok tt, state_machine r2) /\
               node r2 = n1).
  { cbn [machine_run]. destruct (control p); [by injection E2 as <-|]. cbn in E2.
    destruct (apply_at i p (state_machine r)) as [x sm]. injection E2 as -> <-. done. }
  destruct Hm as [Hm Hn]. apply on_node_m_inv in E3 as (n3 & E3 & ->). rewrite Hn in E3.
  rewrite !bind_modify in E3. injection E3 as <-. cbn. auto.
Qed.

Lemma machine_run_app l1 l2 (sm : SM) sm1 :
  machine_run l1 sm = (Ok tt, sm1) -> machine_run (l1 ++ l2) sm = machine_run l2 sm1.
Proof.
  revert sm. induction l1 as [|[i p] l1 IH]; intros sm; cbn [machine_run app]; [by intros [= <-]|].
  destruct (control p); [apply IH|]. destruct (apply_at i p sm) as [[?|?] ?]; [apply IH|done].
Qed.

Lemma apply_loop_spec k next r r' :
  apply_loop k next r = Ok (Ok tt, r') ->
  exists l, stored_from (stored_log (node r)) next l /\ (length l <= k)%nat /\
    machine_run l (state_machine r) = (Ok tt, state_machine r') /\
    last_applied (node r') =
      (if is_nil l then last_applied (node r) else next + Z.of_nat (length l) - 1) /\
    ((length l < k)%nat -> stored_log (node r) !! (next + Z.of_nat (length l)) = None).
Proof.
  revert next r. induction k as [|k IH]; intros next r; cbn [apply_loop].
  { intros [= <-]. exists []. repeat split; [cbn; lia|]. intros Hlt. cbn in Hlt. lia. }
  intros E. apply e_bind_inv in E as (entry & r1 & E1 & E).
  apply on_node_m_inv in E1 as (n1 & E1 & ->). unfold on_storage in E1.
  destruct (entry_at next APPLY_BUF (storage (node r))) as [x s] eqn:Ee.
  injection E1 as -> <-. apply entry_at_law in Ee as [Vs He]. specialize (He entry eq_refl).
  destruct (v_log (sview (storage (node r))) !! next) as [[t p]|] eqn:Hl; cbn in He; subst entry.
  2: { injection E as <-. exists []. repeat split; [cbn; lia|]. intros _. by rewrite Z.add_0_r. }
  apply e_bind_inv in E as ([] & r2 & E2 & E3). apply apply_entry_spec in E2 as (Hm & Hlog & Hla).
  assert (Hlog' : stored_log (node r2) = stored_log (node r)).
  { rewrite Hlog. unfold stored_log. cbn. by rewrite Vs. }
  destruct (IH _ _ E3) as (l & Hs & Hlen & Hrun & Hla' & Hstop). rewrite Hlog' in *.
  exists ((next, p) :: l). cbn [stored_from length is_nil]. split; [eauto|]. split; [lia|].
  split; [exact (eq_trans (machine_run_app [(next, p)] l _ _ Hm) Hrun)|]. split.
  - rewrite Hla'. destruct l; cbn [is_nil length] in *; [rewrite Hla; lia|lia].
  - intros Hlt. rewrite <- Hstop by lia. f_equal. lia.
Qed.

(** The snapshot on disk is not ahead of the state machine. *)
Definition nothing_to_restore n : Prop :=
  forall m b, v_snap (sview (storage n)) = Some (m, b) -> last_included_index m <= last_applied n.

Lemma restore_nothing r x r' :
  nothing_to_restore (node r) -> restore_if_installed r = Ok (Ok x, r') ->
  exists s, sview s = sview (storage (node r)) /\ r' = set_node (set_storage s (node r)) r.
Proof.
  intros Hn. unfold restore_if_installed, restore_state_machine_from_snapshot, on_storage.
  destruct (load_snapshot_meta (storage (node r))) as [[o|e] s] eqn:E; [|done].
  apply load_snapshot_meta_law in E as [Vs Ho]. specialize (Ho o eq_refl).
  assert (Hid : set_state_machine (state_machine r) r = r) by by destruct r.
  destruct o as [meta|]; [|intros [= _ <-]; exists s; by rewrite Hid].
  symmetry in Ho. apply fmap_Some in Ho as ([m b] & Hv & ->). specialize (Hn m b Hv).
  cbn. rewrite (proj2 (Z.leb_le _ _) Hn). intros [= _ <-]. exists s. by rewrite Hid.
Qed.

Lemma keeps_applied_compact sm : keeps last_applied (maybe_compact (SM := SM) sm : M S T C D _).
Proof. unfold maybe_compact, compact_with_horizon, term_at. keeps_auto. Qed.

(** C21: committed entries reach the state machine in order, once: applying them
    feeds it exactly the application entries stored from the one after
    [last_applied] on, never beyond the commit index, moves [last_applied] past
    them, and stops short of the commit index only where the log has no entry. *)
Theorem apply_committed_in_order r r' :
  nothing_to_restore (node r) -> last_applied (node r) <= commit_index (node r) ->
  apply_committed_entries r = Ok (Ok tt, r') ->
  exists l, stored_from (stored_log (node r)) (last_applied (node r) + 1) l /\
    machine_run l (state_machine r) = (Ok tt, state_machine r') /\
    last_applied (node r') = last_applied (node r) + Z.of_nat (length l) /\
    last_applied (node r') <= commit_index (node r) /\
    (last_applied (node r') < commit_index (node r) ->
     stored_log (node r) !! (last_applied (node r') + 1) = None).
Proof.
  intros Hn Hle E. unfold apply_committed_entries in E.
  apply e_bind_inv in E as (x & r1 & E1 & E). apply restore_nothing in E1 as (s & Vs & ->); [|done].
  apply e_bind_inv in E as (commit & r2 & [= <- <-] & E).
  apply e_bind_inv in E as (applied & r3 & [= <- <-] & E).
  apply e_bind_inv in E as ([] & r4 & E4 & E). cbn [node set_node] in *.
  apply apply_loop_spec in E4 as (l & Hs & Hlen & Hrun & Hla & Hstop).
  apply e_bind_inv in E as (sm & r5 & [= <- <-] & E).
  apply e_bind_inv in E as (o & r6 & E6 & [= <-]). apply on_node_m_inv in E6 as (n6 & E6 & ->).
  pose proof (keeps_applied_compact (state_machine r4) (node r4)) as Hk. rewrite E6 in Hk.
  cbn in *. assert (Hlog : stored_log (set_storage s (node r)) = stored_log (node r))
    by (unfold stored_log; cbn; by rewrite Vs).
  rewrite Hlog in *. unfold commit_index in *. cbn in *.
  assert (Hla' : last_applied n6 = last_applied (node r) + Z.of_nat (length l)).
  { rewrite Hk, Hla. destruct l; cbn [is_nil length]; lia. }
  exists l. split; [done|]. split; [done|]. split; [done|]. split; [lia|].
  intros Hlt. rewrite <- Hstop by lia. f_equal. lia.
Qed.
End Apply.

(** A node with entries 1 and 2 committed and none applied. *)
Definition applying_engine : ArbitroRaft MemStorage QueueTransport TickClock unit ListMachine :=
  {| node := set_commit_index 2
       (sample_node 2 [1; 2; 3] {| current_term := 1; voted_for := None |} [1; 1; 1]);
     state_machine := []; stopped := false; next_election_at := 0; next_heartbeat_at := 0;
     election_state := 0; client_rx := []; client_open := true; registry := registry_new 4;
     pending_batch := []; pending_slots := []; commit_waiters := []; abuse := ∅ |}.

Definition applied_engine : ArbitroRaft MemStorage QueueTransport TickClock unit ListMachine :=
  match apply_committed_entries applying_engine with
  | Ok (_, r) => r
  | Err _ => applying_engine
  end.

Lemma apply_committed_in_order_witness : last_applied (node applied_engine) <= 2.
Proof.
  assert (E : apply_committed_entries applying_engine = Ok (Ok tt, applied_engine))
    by (vm_compute; reflexivity).
  assert (Hn : nothing_to_restore (node applying_engine)) by (intros m b Hs; discriminate Hs).
  assert (Hle : last_applied (node applying_engine) <= commit_index (node applying_engine))
    by (vm_compute; discriminate).
  pose proof (apply_committed_in_order applying_engine applied_engine Hn Hle E)
    as (l & _ & _ & _ & H & _). exact H.
Defined.

(** ** Bad frames *)

Section Tolerance.
Context {S T C D SM : Type} `{RaftStorage S} `{RaftTransport T} `{Clock C} `{CustomDispatch D T}
  `{StateMachine SM}.
Implicit Types (n : RaftNode S T C D) (r : ArbitroRaft S T C D SM).

(** The part of the node the protocol is about: all but clock and counters. *)
Definition protocol_state n :=
  (config n, storage n, transport n, dispatch n, hard_state n, soft_state n,
   (peer_progress n, joint_peers n, pending_snapshots n, log_metadata n, cached_last_log n,
    last_applied n)).

(** C23: bad frames never stop the node: dispatching a frame always returns; it
    returns an error only when the frame decodes and handling its message failed
    with a fatal error; and a frame that does not decode, or whose sender is
    jailed, leaves the protocol state untouched. *)
Theorem dispatch_inbound_tolerant f r :
  exists x r', dispatch_inbound f r = Ok (x, r') /\
    (x = Ok tt \/
     exists e im n', x = Err e /\ is_fatal e = true /\ decode_message f = Ok im /\
       handle_inbound im n' = (Err e, node r') /\ protocol_state n' = protocol_state (node r)) /\
    (is_ok (decode_message f) = false \/
     (is_jailed (key_for (claimed_from f) (node_peers (node r)))
        (clock_now (clock (node r))).1 (abuse r)).1 = true ->
     x = Ok tt /\ protocol_state (node r') = protocol_state (node r)).
Proof.
  unfold dispatch_inbound, mbind, E_bind, of_node, e_gets, on_node_m, on_node, run, now.
  destruct (clock_now (clock (node r))) as [t ck]. cbn [fst].
  destruct (is_jailed _ _ _) as [[|] g] eqn:Hj; cbn [fst].
  { eexists _, _. split; [reflexivity|]. split; [by left|]. intros _. split; [done|done]. }
  destruct (decode_message f) as [im|e] eqn:Hd.
  - unfold attempt. cbn [node set_node set_abuse].
    destruct (handle_inbound im (set_clock ck (node r))) as [[[]|e] n'] eqn:Hh.
    { eexists _, _. split; [reflexivity|]. split; [by left|]. by intros [?|?]. }
    destruct (is_fatal e) eqn:Hf.
    { eexists _, _. split; [reflexivity|]. split; [|by intros [?|?]]. right.
      exists e, im, (set_clock ck (node r)). auto. }
    unfold e_when. destruct (is_resource_exhaustion e);
      (eexists _, _; split; [reflexivity|]; split; [by left|]; by intros [?|?]).
  - unfold drop_undecodable, mbind, E_bind, of_node, e_gets, on_node_m, on_node, run.
    cbn. destruct (record_decode_error _ _ _ _) as [[|] g'];
      (eexists _, _; split; [reflexivity|]; split; [by left|]; done).
Qed.
End Tolerance.

(** ** Running out of disk *)

Section Exhaustion.
Context {S T C D SM : Type} `{RaftStorage S} `{RaftTransport T} `{Clock C} `{CustomDispatch D T}
  `{StateMachine SM}.
Context (tuning : VecTuning).
Implicit Types (n : RaftNode S T C D) (r : ArbitroRaft S T C D SM).

(** The tick [run_once] drives. *)
Definition tick (fuel : nat) (arm : SelectArm) r :=
  if is_leader (node r) then run_leader_once tuning fuel arm r else run_follower_once tuning fuel r.

Lemma degrade_spec r :
  exists r', degrade_on_resource_exhaustion r = Ok (Ok tt, r') /\
    hard_state (node r') = hard_state (node r) /\ storage (node r') = storage (node r) /\
    transport (node r') = transport (node r) /\ cached_last_log (node r') = cached_last_log (node r) /\
    is_leader (node r') = false /\ stopped r' = stopped r /\
    (is_leader (node r) = true -> commit_waiters r' = []).
Proof.
  unfold degrade_on_resource_exhaustion, mbind, E_bind, on_node_m, on_node, run, of_node, e_gets.
  cbn. unfold e_when. change (is_leader (set_metrics _ (node r))) with (is_leader (node r)).
  destruct (is_leader (node r)) eqn:Hl.
  - unfold demote_to_follower_keep_term, whenM. rewrite bind_gets.
    destruct (negb _); unfold on_metrics; rewrite ?bind_ret, ?bind_modify;
      (eexists; split; [reflexivity|]; repeat (split; [done|]); done).
  - eexists. split; [reflexivity|]. repeat (split; [done|]). done.
Qed.

(** C22: a full disk never ends the run loop: a tick of a running engine that
    fails for want of storage space is absorbed, leaving term, vote, log and
    what was sent as the tick left them and the node a follower whose waiters
    are answered; every error [run_once] does return is another one; and it
    answers [false] exactly when the engine is stopped. *)
Theorem run_once_survives_exhaustion fuel arm r :
  (stopped r = true -> run_once tuning fuel arm r = Ok (Ok false, r)) /\
  (stopped r = false -> forall e r1,
     tick fuel arm r = Ok (Err e, r1) ->
     if is_resource_exhaustion e then
       exists r', run_once tuning fuel arm r = Ok (Ok (negb (stopped r')), r') /\
         hard_state (node r') = hard_state (node r1) /\ storage (node r') = storage (node r1) /\
         transport (node r') = transport (node r1) /\
         cached_last_log (node r') = cached_last_log (node r1) /\
         is_leader (node r') = false /\ stopped r' = stopped r1 /\
         (is_leader (node r1) = true -> commit_waiters r' = [])
     else run_once tuning fuel arm r = Ok (Err e, r1)) /\
  (stopped r = false -> forall r1,
     tick fuel arm r = Ok (Ok tt, r1) ->
     run_once tuning fuel arm r = Ok (Ok (negb (stopped r1)), r1)).
Proof.
  assert (Hrun : stopped r = false -> forall x r1, tick fuel arm r = Ok (x, r1) ->
    run_once tuning fuel arm r =
      (match x with
       | Ok _ => mret tt
       | Err e => if is_resource_exhaustion e then degrade_on_resource_exhaustion else e_err e
       end ≫= fun _ => e_gets (fun r => negb (stopped r))) r1).
  { intros Hs x r1 Ht. unfold run_once, mbind at 1, E_bind at 1, e_gets at 1. rewrite Hs.
    unfold mbind at 1, E_bind at 1, of_node, e_gets at 1. unfold mbind at 1, E_bind at 1, e_attempt.
    unfold tick in Ht. destruct (is_leader (node r)); by rewrite Ht. }
  split; [|split].
  - intros Hs. unfold run_once, mbind, E_bind, e_gets. by rewrite Hs.
  - intros Hs e r1 Ht. rewrite (Hrun Hs _ _ Ht). destruct (is_resource_exhaustion e); [|done].
    destruct (degrade_spec r1) as (r' & E & Hrest). exists r'. split; [|done].
    unfold mbind, E_bind. by rewrite E.
  - intros Hs r1 Ht. by rewrite (Hrun Hs _ _ Ht).
Qed.
End Exhaustion.
