(* ===== verification/Clients.v ===== *)
(** * Clients: no write is left waiting

    Every write slot that is still pending belongs to a proposal the engine
    holds: in the mailbox, in the batch being formed, or among the commit
    waiters.  All public methods keep this, so shutting down answers every
    writer. *)

From stdpp Require Import base list sets gmap strings relations.
From Stdlib Require Import ZArith Lia Strings.Byte.
From S2P Require Import Prelude Types Wire Codec Slots Guard Arena Progress Quorum Traits.
From S2P Require Import Membership NodeState Node Samples ConfigChange Commit Snapshot Transfer.
From S2P Require Import Inbound Campaign Leader Install Propose ReadIndex EngineState Engine.
From S2P Require Import EngineApi EngineFacts Slots.

Local Open Scope Z_scope.

(** ** Pending slots and the identifiers that answer them *)

Definition accounts (ids : list SlotId) (reg : SlotRegistry) : Prop :=
  Z.of_nat (length (arena reg)) <= 2 ^ 32 /\
  forall j s, arena reg !! j = Some s -> slot_state s = SLOT_PENDING ->
    exists id, id ∈ ids /\ slot_index id = j /\ is_current id s = true.

Lemma accounts_mono ids ids' reg : ids ⊆ ids' -> accounts ids reg -> accounts ids' reg.
Proof.
  intros Hsub [Hl Ha]. split; [done|]. intros j s Hj Hs.
  destruct (Ha j s Hj Hs) as (id & Hid & Hrest). exists id. split; [by apply Hsub|done].
Qed.

Lemma length_on_slot id f reg : length (arena (on_slot id f reg)) = length (arena reg).
Proof. apply length_alter. Qed.

Lemma on_slot_inv id f reg j s :
  arena (on_slot id f reg) !! j = Some s ->
  exists s0, arena reg !! j = Some s0 /\
             s = if decide (slot_index id = j) then f s0 else s0.
Proof.
  cbn. rewrite list_lookup_alter. case_decide as Hj.
  - intros Hs. apply fmap_Some in Hs as (s0 & H0 & ->). exists s0.
    by subst j.
  - intros Hs. by exists s.
Qed.

(** Answering an identifier, with any answer, discharges it. *)
Lemma accounts_answer id g ids reg :
  (forall s, slot_state (g s) <> SLOT_PENDING) ->
  accounts (id :: ids) reg ->
  accounts ids (on_slot id (fun s => if is_current id s then g s else s) reg).
Proof.
  intros Hg [Hl Ha]. split; [by rewrite length_on_slot|]. intros j s Hj Hs.
  apply on_slot_inv in Hj as (s0 & H0 & ->). revert Hs. case_decide as Hi.
  - destruct (is_current id s0) eqn:Hc; [by intros ?%Hg|]. intros Hs.
    destruct (Ha j s0 H0 Hs) as (id' & [->|Hid]%elem_of_cons & He & Hc'); [congruence|eauto].
  - intros Hs. destruct (Ha j s0 H0 Hs) as (id' & [->|Hid]%elem_of_cons & He & Hc'); [done|eauto].
Qed.

Lemma accounts_notify_error id ids reg :
  accounts (id :: ids) reg -> accounts ids (notify_error id reg).
Proof. by apply accounts_answer. Qed.

Lemma accounts_notify_committed id i ids reg :
  accounts (id :: ids) reg -> accounts ids (notify_committed id i reg).
Proof.
  apply accounts_answer. intros s. cbn. intros E%Z.lor_eq_0_iff. destruct E as [E _].
  discriminate E.
Qed.

(** Answering a list of them. *)
Lemma accounts_foldl {A} (key : A -> SlotId) (f : SlotRegistry -> A -> SlotRegistry) l ids reg :
  (forall a ids reg, accounts (key a :: ids) reg -> accounts ids (f reg a)) ->
  accounts (map key l ++ ids) reg -> accounts ids (foldl f reg l).
Proof.
  intros Hf. revert reg. induction l as [|a l IH]; intros reg; cbn; [done|].
  intros Ha. apply IH. by apply Hf.
Qed.

Lemma accounts_release id ids reg : accounts ids reg -> accounts ids (release id reg).
Proof.
  intros [Hl Ha]. unfold release. split; [by rewrite length_on_slot|]. intros j s Hj Hs.
  apply on_slot_inv in Hj as (s0 & H0 & ->). revert Hs. case_decide; [|by eauto].
  destruct (Z.eqb_spec (slot_state s0) SLOT_PENDING); [by intros ?|by eauto].
Qed.

(** A lease adds one identifier; giving it back at once adds none. *)
Lemma accounts_lease ids reg id reg' :
  accounts ids reg -> lease reg = (Some id, reg') ->
  accounts (id :: ids) reg' /\ accounts ids (release id reg').
Proof.
  intros [Hl Ha] E. unfold lease in E.
  destruct (lease_scan _ _ _) as [[id' slots]|] eqn:Hscan; [|done]. injection E as -> <-.
  apply lease_scan_spec in Hscan as (s & Hs & Hp & -> & Hcur); [|done].
  assert (Hlt := lookup_lt_Some _ _ _ Hs).
  split; unfold release; (split; [by rewrite ?length_on_slot; cbn; rewrite length_insert|]).
  - intros j s' Hj Hst. cbn in Hj. apply list_lookup_insert_Some in Hj as [(<- & <- & _)|(Hne & Hj)].
    + exists id. split; [apply elem_of_cons; by left|done].
    + destruct (Ha j s' Hj Hst) as (i & Hi & ?). exists i. split; [apply elem_of_cons; by right|done].
  - intros j s' Hj Hst. apply on_slot_inv in Hj as (s0 & H0 & ->). cbn in H0.
    apply list_lookup_insert_Some in H0 as [(<- & <- & _)|(Hne & H0)].
    + rewrite decide_True in Hst by done. done.
    + rewrite decide_False in Hst |- * by done. eauto.
Qed.

Lemma lease_None reg reg' : lease reg = (None, reg') -> arena reg' = arena reg.
Proof. unfold lease. destruct (lease_scan _ _ _) as [[??]|]; [done|]. by intros [= <-]. Qed.

(** The waiters a drain keeps account for what the ones it answered did not. *)
Lemma drain_slow_accounts k i commit ws ids reg :
  accounts (map cw_slot_id ws ++ ids) reg ->
  accounts (map cw_slot_id (drain_slow k i commit ws reg).1 ++ ids)
           (drain_slow k i commit ws reg).2.
Proof.
  revert i ws reg. induction k as [|k IH]; intros i ws reg Ha; cbn [drain_slow]; [done|].
  destruct (ws !! i) as [w|] eqn:Hi; [|done]. case_match; [|by apply IH]. apply IH.
  apply accounts_notify_committed. revert Ha. apply accounts_mono.
  pose proof (take_drop_middle _ _ _ Hi) as E. pose proof (lookup_lt_Some _ _ _ Hi) as Hlt.
  pose proof (swap_remove_perm (take i ws) w (drop (Datatypes.S i) ws)) as Hp.
  rewrite length_take, Nat.min_l, E in Hp by lia.
  intros x [Hx|Hx]%elem_of_app; rewrite elem_of_cons, elem_of_app; [|by auto].
  rewrite <- E in Hx. rewrite map_app, elem_of_app in Hx. cbn [map] in Hx.
  rewrite elem_of_cons in Hx. rewrite Hp, map_app, elem_of_app. naive_solver.
Qed.

Lemma drain_waiters_accounts commit ws ids reg :
  accounts (map cw_slot_id ws ++ ids) reg ->
  accounts (map cw_slot_id (drain_waiters commit ws reg).1 ++ ids) (drain_waiters commit ws reg).2.
Proof.
  intros Ha. unfold drain_waiters. destruct (last ws); [|done].
  case_match; [|by apply drain_slow_accounts]. cbn.
  apply (accounts_foldl cw_slot_id); [|done]. intros. by apply accounts_notify_committed.
Qed.

Lemma map_imap_id {A B} (f : B -> A) (g : nat -> A -> B) l :
  (forall k x, f (g k x) = x) -> map f (imap g l) = l.
Proof.
  revert g. induction l as [|x l IH]; intros g Hg; [done|]. cbn. rewrite Hg. f_equal. apply IH.
  intros k y. apply Hg.
Qed.

(** ** The engine's side *)

Create HintDb settles.

Section Engine.
Context {S T C D SM : Type} `{RaftStorage S} `{RaftTransport T} `{Clock C} `{CustomDispatch D T}
  `{StateMachine SM}.
Context (tuning : VecTuning).
Implicit Types r : ArbitroRaft S T C D SM.
#[local] Abbreviation E := (E S T C D SM).

(** The identifiers of the proposals the engine holds. *)
Definition held r : list SlotId :=
  map cw_slot_id (commit_waiters r) ++ map cp_slot_id (client_rx r) ++ pending_slots r.

Definition accounted r : Prop :=
  accounts (held r) (registry r) /\ length (pending_batch r) = length (pending_slots r).

(** Between two calls no batch is being formed. *)
Definition settled r : Prop :=
  accounted r /\ pending_slots r = [] /\ stopped r = false.

(** What [settled] reads. *)
Definition client_view r :=
  (client_rx r, pending_batch r, pending_slots r, commit_waiters r, registry r, stopped r).

Lemma settled_view r r' : client_view r' = client_view r -> settled r -> settled r'.
Proof. unfold client_view, settled, accounted, held. by intros [= -> -> -> -> -> ->]. Qed.

(** [m] leads from [P] to [Q], whatever it returns. *)
Definition leads {A} (P Q : ArbitroRaft S T C D SM -> Prop) (m : E A) : Prop :=
  forall r x r', P r -> m r = Ok (x, r') -> Q r'.
#[local] Abbreviation settles := (leads settled settled).

Lemma leads_bind {A B} P (m : E A) (k : A -> E B) :
  leads P P m -> (forall a, leads P P (k a)) -> leads P P (m ≫= k).
Proof.
  intros Hm Hk r x r' HP. unfold mbind, E_bind. destruct (m r) as [[[a|e] r1]|] eqn:Em; [| |done].
  - apply Hk. by apply (Hm r (Ok a)).
  - intros [= _ <-]. by apply (Hm r (Err e)).
Qed.

Lemma settles_ret {A} (a : A) : settles (mret a).
Proof. intros r x r' HP. by intros [= _ <-]. Qed.
Lemma settles_err {A} e : settles (e_err (A := A) e).
Proof. intros r x r' HP. by intros [= _ <-]. Qed.
Lemma settles_fuel {A} : settles (e_out_of_fuel (A := A)).
Proof. intros r x r' HP. done. Qed.
Lemma settles_gets {A} (f : ArbitroRaft S T C D SM -> A) : settles (e_gets f).
Proof. intros r x r' HP. by intros [= _ <-]. Qed.
Lemma settles_attempt {A} (m : E A) : settles m -> settles (e_attempt m).
Proof.
  intros Hm r x r' HP. unfold e_attempt. destruct (m r) as [[y r1]|] eqn:Em; [|done].
  intros [= _ <-]. by apply (Hm r y).
Qed.
Lemma settles_when c (m : E unit) : settles m -> settles (e_when c m).
Proof. destruct c; [done|]. intros _. apply settles_ret. Qed.
Lemma settles_on_node {A} (m : L S T C D A) : settles (on_node m).
Proof.
  intros r x r' HP. unfold on_node. destruct (m (node r)) as [[y n]|]; [|done].
  intros [= _ <-]. revert HP. by apply settled_view.
Qed.
Lemma settles_on_node_m {A} (m : M S T C D A) : settles (on_node_m m).
Proof. apply settles_on_node. Qed.
Lemma settles_of_node {A} (f : RaftNode S T C D -> A) : settles (of_node f).
Proof. apply settles_gets. Qed.

(** Changes of fields no client depends on. *)
Lemma settles_aside {A} (m : E A) :
  (forall r, exists x r', m r = Ok (x, r') /\ client_view r' = client_view r) -> settles m.
Proof.
  intros Hm r x r' HP E. destruct (Hm r) as (y & r1 & E1 & Hv). rewrite E in E1.
  injection E1 as -> ->. revert HP. by apply settled_view.
Qed.

Lemma settles_fail_commit_waiters : settles fail_commit_waiters.
Proof.
  intros r x r' [[Ha Hl] [Hp Hs]] [= _ <-]. split; [split; [|done]|done]. cbn.
  unfold held, fail_waiters in *. cbn in *. apply (accounts_foldl cw_slot_id); [|done].
  intros. by apply accounts_notify_error.
Qed.

Lemma settles_drain_commit_waiters : settles drain_commit_waiters.
Proof.
  intros r x r' [[Ha Hl] [Hp Hs]]. unfold drain_commit_waiters, e_modify.
  pose proof (drain_waiters_accounts (commit_index (node r)) (commit_waiters r)
    (map cp_slot_id (client_rx r) ++ pending_slots r) (registry r) Ha) as Hd.
  destruct (drain_waiters _ _ _) as [ws reg]. intros [= _ <-]. split; [split; [exact Hd|done]|done].
Qed.

(** The batch: formed from the mailbox, then registered or refused. *)
Definition forming r : Prop := accounted r /\ stopped r = false.

Lemma leads_replicate_pending : leads forming settled (replicate_pending tuning).
Proof.
  intros r x r' [[Ha Hl] Hs]. unfold replicate_pending, mbind, E_bind, e_gets, on_node_m, on_node, run.
  unfold attempt. destruct (replicate_batch_async _ _ _) as [[[i c]|e] n].
  - intros [= _ <-]. split; [split; [|done]|done]. unfold held in *. cbn.
    revert Ha. apply accounts_mono. rewrite app_nil_r, map_app.
    rewrite map_imap_id by done. intros y. rewrite !elem_of_app. tauto.
  - intros [= _ <-]. split; [split; [|done]|done]. unfold held in *. cbn. rewrite app_nil_r.
    apply (accounts_foldl id); [intros; by apply accounts_notify_error|].
    revert Ha. apply accounts_mono. rewrite map_id. intros y. rewrite !elem_of_app. tauto.
Qed.

Lemma leads_drain_mailbox r limit :
  forming r -> forall x r', drain_mailbox limit r = Ok (x, r') -> forming r'.
Proof.
  intros [[Ha Hl] Hs] x r' [= _ <-]. split; [|done]. split; cbn.
  - revert Ha. apply accounts_mono. unfold held. cbn. set (room := (limit - _)%nat).
    intros y. rewrite !elem_of_app. intros [Hy|[Hy|Hy]]; [by auto| |by auto].
    rewrite <- (take_drop room (client_rx r)), map_app, elem_of_app in Hy. tauto.
  - rewrite !length_app, !length_map. lia.
Qed.

(** Replicating what there is, if anything. *)
Lemma leads_flush :
  leads forming settled
    (none ← e_gets (fun r => is_nil (pending_batch r)); e_when (negb none) (replicate_pending tuning)).
Proof.
  intros r x r' Hf. unfold mbind, E_bind, e_gets.
  destruct (pending_batch r) as [|p ps] eqn:Hb; cbn [is_nil negb e_when].
  - intros [= _ <-]. destruct Hf as [[Ha Hl] Hs]. split; [done|]. split; [|done].
    rewrite Hb in Hl. by destruct (pending_slots r).
  - by apply leads_replicate_pending.
Qed.

Lemma settled_forming r : settled r -> forming r.
Proof. intros (Ha & _ & Hs). by split. Qed.

Lemma settles_take_batch limit :
  settles (drain_mailbox limit;;
           none ← e_gets (fun r => is_nil (pending_batch r));
           e_when (negb none) (replicate_pending tuning)).
Proof.
  intros r x r' HP E. apply settled_forming in HP. cbn in E.
  eapply leads_flush; [|exact E]. by eapply leads_drain_mailbox.
Qed.

Lemma settles_replicate_pending : settles (replicate_pending tuning).
Proof. intros r x r' HP%settled_forming. by apply leads_replicate_pending. Qed.

Lemma settles_proposal_arm limit : settles (proposal_arm tuning limit).
Proof.
  intros r x r' HP%settled_forming. unfold proposal_arm, mbind at 1, E_bind at 1.
  destruct (client_rx r) as [|p ps] eqn:Hq; unfold mbind at 1, E_bind at 1, e_gets at 1; rewrite Hq.
  - by apply leads_flush.
  - cbn. intros E. eapply leads_flush; [|exact E]. eapply leads_drain_mailbox; [|done].
    destruct HP as [[Ha Hl] Hs]. split; [|done]. split; cbn.
    + revert Ha. apply accounts_mono. unfold held. cbn. rewrite Hq. intros y.
      cbn [map]. rewrite !elem_of_app, !elem_of_cons. tauto.
    + rewrite !length_app. cbn. lia.
Qed.

#[local] Hint Resolve settles_ret settles_err settles_fuel settles_gets settles_attempt
  settles_when settles_on_node settles_on_node_m settles_of_node settles_fail_commit_waiters
  settles_drain_commit_waiters settles_take_batch settles_replicate_pending
  settles_proposal_arm : settles.

Lemma settles_reset_heartbeat : settles reset_heartbeat_deadline.
Proof. apply leads_bind; [apply settles_on_node|]. intros t. apply settles_aside. eauto. Qed.
Lemma settles_reset_election : settles reset_election_deadline.
Proof.
  apply leads_bind; [apply settles_on_node|]. intros t. apply settles_aside. intros r.
  unfold e_modify. destruct (next_election_timeout _ _). eauto.
Qed.
#[local] Hint Resolve settles_reset_heartbeat settles_reset_election : settles.

#[local] Ltac settle_auto :=
  repeat first [ solve [auto with settles]
               | apply leads_bind; [|intros ?]
               | apply settles_when
               | apply settles_attempt
               | case_match
               | solve [apply settles_aside; intros ?; repeat case_match; eauto] ].

Lemma settles_apply_entry i p : settles (apply_entry i p).
Proof. unfold apply_entry. settle_auto. Qed.
#[local] Hint Resolve settles_apply_entry : settles.

Lemma settles_apply_loop k next : settles (apply_loop k next).
Proof. revert next. induction k as [|k IH]; intros next; cbn [apply_loop]; settle_auto. Qed.
#[local] Hint Resolve settles_apply_loop : settles.

Lemma settles_restore : settles restore_if_installed.
Proof.
  apply settles_aside. intros r. unfold restore_if_installed.
  destruct (restore_state_machine_from_snapshot _ _) as [[x sm] n]. eauto.
Qed.
#[local] Hint Resolve settles_restore : settles.

Lemma settles_apply_committed : settles apply_committed_entries.
Proof. unfold apply_committed_entries. settle_auto. Qed.
#[local] Hint Resolve settles_apply_committed : settles.

Lemma settles_dispatch_inbound f : settles (dispatch_inbound f).
Proof. unfold dispatch_inbound, drop_undecodable. settle_auto. Qed.
Lemma settles_recv_inbound t : settles (recv_inbound t).
Proof. unfold recv_inbound. settle_auto. Qed.
#[local] Hint Resolve settles_dispatch_inbound settles_recv_inbound : settles.

Lemma settles_drain_burst k : settles (drain_burst k).
Proof. induction k as [|k IH]; cbn [drain_burst]; settle_auto. Qed.
#[local] Hint Resolve settles_drain_burst : settles.

Lemma settles_handle_frame f : settles (handle_frame f).
Proof. unfold handle_frame, settle_after_frames. settle_auto. Qed.
#[local] Hint Resolve settles_handle_frame : settles.

Lemma settles_leader_once fuel arm : settles (run_leader_once tuning fuel arm).
Proof.
  unfold run_leader_once, leader_idle, heartbeat_tick, frame_arm, settle_after_frames. settle_auto.
Qed.

Lemma settles_heartbeat_once fuel : settles (engine_send_heartbeat_once fuel).
Proof. unfold engine_send_heartbeat_once. settle_auto. Qed.
#[local] Hint Resolve settles_leader_once settles_heartbeat_once : settles.

Lemma settles_campaign_and_settle fuel : settles (campaign_and_settle tuning fuel).
Proof. unfold campaign_and_settle, finalize_joint_if_inherited. settle_auto. Qed.
#[local] Hint Resolve settles_campaign_and_settle : settles.

Lemma settles_follower_once fuel : settles (run_follower_once tuning fuel).
Proof. unfold run_follower_once, follower_frame, follower_timeout. settle_auto. Qed.
#[local] Hint Resolve settles_follower_once : settles.

Lemma settles_run_once fuel arm : settles (run_once tuning fuel arm).
Proof. unfold run_once, degrade_on_resource_exhaustion. settle_auto. Qed.
#[local] Hint Resolve settles_run_once : settles.

(** *** The other public methods *)

Lemma settles_transfer fuel target : settles (engine_transfer_leadership tuning fuel target).
Proof. unfold engine_transfer_leadership. settle_auto. Qed.
#[local] Hint Resolve settles_transfer : settles.

Lemma settles_handoff_loop fuel deadline : settles (handoff_loop fuel deadline).
Proof. induction fuel as [|fuel IH]; cbn [handoff_loop]; settle_auto. Qed.
#[local] Hint Resolve settles_handoff_loop : settles.

Lemma settles_drain_handoff fuel : settles (drain_leader_handoff tuning fuel).
Proof. unfold drain_leader_handoff. settle_auto. Qed.

Lemma settles_propose_activated fuel entry revert :
  settles (propose_activated tuning fuel entry revert).
Proof. unfold propose_activated. settle_auto. Qed.
#[local] Hint Resolve settles_propose_activated : settles.

Lemma settles_panic {A} : settles (fun _ => Err Panicked : result (res A * _) _).
Proof. intros r x r' HP. done. Qed.
#[local] Hint Resolve settles_panic : settles.

Lemma settles_config_change fuel news : settles (propose_config_change tuning fuel news).
Proof. unfold propose_config_change, not_leader. settle_auto. Qed.
#[local] Hint Resolve settles_config_change : settles.

Lemma settles_install_to_peers fuel self peers sent :
  settles (install_to_peers fuel self peers sent).
Proof. revert sent. induction peers as [|p ps IH]; intros sent; cbn [install_to_peers]; settle_auto. Qed.
#[local] Hint Resolve settles_install_to_peers : settles.

(** A public method other than the shutdown ones. *)
Inductive api_call : forall A, E A -> Prop :=
| call_run_once fuel arm : api_call _ (run_once tuning fuel arm)
| call_propose fuel p : api_call _ (engine_propose_once tuning fuel p)
| call_propose_batch fuel ps : api_call _ (engine_propose_batch_once tuning fuel ps)
| call_read fuel : api_call _ (engine_read_index tuning fuel)
| call_campaign fuel : api_call _ (engine_campaign_once fuel)
| call_heartbeat fuel : api_call _ (engine_send_heartbeat_once fuel)
| call_transfer fuel target : api_call _ (engine_transfer_leadership tuning fuel target)
| call_config fuel news : api_call _ (propose_config_change tuning fuel news)
| call_learner fuel p add : api_call _ (propose_learner_change tuning fuel p add)
| call_promote fuel p : api_call _ (promote_learner tuning fuel p)
| call_install fuel : api_call _ (install_snapshot_to_lagging_peers fuel)
| call_apply : api_call _ apply_committed_entries.

Lemma settles_api_call A (m : E A) : api_call A m -> settles m.
Proof.
  intros []; unfold engine_propose_once, engine_propose_batch_once, engine_read_index,
    engine_campaign_once, propose_learner_change, promote_learner, not_leader,
    install_snapshot_to_lagging_peers; settle_auto.
Qed.

Lemma settled_write payload r : settled r -> settled (write_bytes payload r).2.
Proof.
  intros ([Ha Hl] & Hp & Hs). unfold write_bytes. case_match; [|done].
  destruct (lease (registry r)) as [[id|] reg] eqn:El.
  - destruct (accounts_lease _ _ _ _ Ha El) as [Hnew Hback]. cbn [client_open set_registry].
    destruct (negb (client_open r)); [by split|].
    case_match; [by split|]. split; [split; [|done]|done]. revert Hnew. apply accounts_mono.
    unfold held. cbn. rewrite map_app. cbn [map cp_slot_id]. intros y. rewrite !elem_of_app, !elem_of_cons, !elem_of_app.
    tauto.
  - apply lease_None in El. split; [split; [|done]|done]. unfold accounts in *. cbn.
    by rewrite El.
Qed.

Lemma settled_drop id r : settled r -> settled (drop_write id r).
Proof.
  intros ([Ha Hl] & Hp & Hs). split; [split; [|done]|done]. by apply accounts_release.
Qed.

(** What clients and the driver of the engine do, in any order. *)
Inductive engine_step : ArbitroRaft S T C D SM -> ArbitroRaft S T C D SM -> Prop :=
| step_call A (m : E A) r x r' : api_call A m -> m r = Ok (x, r') -> engine_step r r'
| step_write payload r : engine_step r (write_bytes payload r).2
| step_drop id r : engine_step r (drop_write id r).

Lemma settled_new slots n sm x r :
  Z.of_nat slots <= 2 ^ 32 -> engine_new slots n sm = Ok (x, r) -> settled r.
Proof.
  intros Hc. assert (Hm : settles (reset_election_deadline;; reset_heartbeat_deadline))
    by settle_auto. unfold engine_new. apply Hm. split; [|done]. split; [|done].
  split; cbn; [by rewrite length_replicate|]. intros j s Hj. apply lookup_replicate in Hj as [-> _].
  done.
Qed.

Lemma settled_steps r r' : settled r -> rtc engine_step r r' -> settled r'.
Proof.
  intros Hs Hr. induction Hr as [|r r1 r2 Hst _ IH]; [done|]. apply IH. destruct Hst as [A m r x r' Hc E|p r|id r].
  - by apply (settles_api_call A m Hc r x).
  - by apply settled_write.
  - by apply settled_drop.
Qed.
End Engine.

(** ** Shutting down *)

Section Shutdown.
Context {S T C D SM : Type} `{RaftStorage S} `{RaftTransport T} `{Clock C} `{CustomDispatch D T}
  `{StateMachine SM}.
Context (tuning : VecTuning).
Implicit Types r : ArbitroRaft S T C D SM.
#[local] Abbreviation E := (E S T C D SM).

(** Nothing is pending, nothing is queued, and nothing more is taken. *)
Definition quiesced r : Prop :=
  stopped r = true /\ client_open r = false /\ client_rx r = [] /\ commit_waiters r = [] /\
  accounts [] (registry r).

Lemma stop_quiesces r x r' : settled r -> stop r = Ok (x, r') -> quiesced r'.
Proof.
  intros ([Ha _] & Hp & Hs) E. unfold stop, mbind, E_bind, e_gets in E. rewrite Hs in E.
  injection E as _ <-. unfold quiesced. cbn. do 4 (split; [done|]).
  unfold fail_waiters. unfold held in Ha. rewrite Hp, app_nil_r in Ha.
  apply (accounts_foldl cw_slot_id); [by intros; apply accounts_notify_error|].
  rewrite app_nil_r. apply (accounts_foldl cp_slot_id); [by intros; apply accounts_notify_error|].
  revert Ha. apply accounts_mono. intros y. rewrite !elem_of_app. tauto.
Qed.

(** A step that cannot fail hands a settled engine on. *)
Lemma attempt_then {A B} (m : E A) (k : res A -> E B) r x r' :
  leads settled settled m -> settled r -> (e_attempt m ≫= k) r = Ok (x, r') ->
  exists y r1, settled r1 /\ k y r1 = Ok (x, r').
Proof.
  intros Hm HP. unfold mbind, E_bind, e_attempt. destruct (m r) as [[y r1]|] eqn:Em; [|done].
  intros E. exists y, r1. split; [by apply (Hm r y)|done].
Qed.

Lemma drain_quiesces fuel r x r' : settled r -> drain tuning fuel r = Ok (x, r') -> quiesced r'.
Proof.
  intros HP E. unfold drain in E.
  assert (Hs : stopped r = false) by apply HP. unfold mbind at 1, E_bind at 1, e_gets at 1 in E.
  rewrite Hs in E. unfold mbind at 1, E_bind at 1, e_modify at 1 in E.
  unfold mbind at 1, E_bind at 1, of_node, e_gets at 1 in E.
  assert (HP1 : settled (set_client_open false r)) by (revert HP; by apply settled_view).
  apply attempt_then in E as (y & r1 & HP2 & E); [|case_match; [apply settles_drain_handoff|apply settles_ret]|done].
  assert (Hend : exists z r2, settled r2 /\
    (stop ≫= fun _ => match z with Some e => e_err e | None => mret tt end) r2 = Ok (x, r')).
  { destruct y as [[]|e]; [|by exists (Some e), r1]. unfold mbind at 1, E_bind at 1 in E.
    destruct (apply_committed_entries r1) as [[[[]|e] r2]|] eqn:Ea;
      unfold mbind at 1, E_bind at 1, e_attempt at 1 in E; rewrite Ea in E; [| |done];
      (assert (HP3 : settled r2) by (eapply settles_apply_committed; [exact HP2|exact Ea])).
    - destruct (drain_commit_waiters r2) as [[[[]|e] r3]|] eqn:Ed; [|done|done].
      exists None, r3. split; [by eapply settles_drain_commit_waiters|].
      unfold mbind at 1, E_bind at 1 in E. rewrite Ed in E. exact E.
    - by exists (Some e), r2. }
  destruct Hend as (z & r2 & HP3 & E2). unfold mbind, E_bind in E2.
  destruct (stop r2) as [[[[]|e] r3]|] eqn:Es; [| |done].
  - assert (r3 = r') as <- by (destruct z; by injection E2). by eapply stop_quiesces.
  - injection E2 as _ <-. by eapply stop_quiesces.
Qed.

Lemma quiesced_write p r :
  quiesced r -> is_ok (write_bytes p r).1 = false /\ quiesced (write_bytes p r).2.
Proof.
  intros (Hs & Ho & Hq & Hw & Ha). unfold write_bytes. case_match; [|done].
  destruct (lease (registry r)) as [[id|] reg] eqn:El.
  - destruct (accounts_lease _ _ _ _ Ha El) as [_ Hback]. cbn [client_open set_registry].
    rewrite Ho. cbn. by split_and!.
  - apply lease_None in El. split; [done|]. unfold quiesced, accounts in *. cbn. by rewrite El.
Qed.

(** C20: no writer is left waiting: whatever clients and driver did since the
    engine was created, stopping or draining it leaves no pending slot, so every
    write future is answered; the mailbox is empty and closed; and every later
    write is refused without leaving a pending slot behind. *)
Theorem shutdown_answers_every_writer slots n sm y r0 r (m : E unit) x r' :
  Z.of_nat slots <= 2 ^ 32 -> engine_new slots n sm = Ok (y, r0) ->
  rtc (engine_step tuning) r0 r ->
  (m = stop \/ exists fuel, m = drain tuning fuel) -> m r = Ok (x, r') -> 
  (stopped r' = true /\ client_open r' = false /\ client_rx r' = []) /\
  (forall id s, arena (registry r') !! slot_index id = Some s -> exists v, poll_write id r' = Some v) /\
  (forall p, is_ok (write_bytes p r').1 = false /\ quiesced (write_bytes p r').2).
Proof.
  intros Hc Hn Hst Hm E. pose proof (settled_steps tuning _ _ (settled_new slots n sm y r0 Hc Hn) Hst) as HP.
  assert (Hq : quiesced r').
  { destruct Hm as [->|[fuel ->]]; [by eapply stop_quiesces|by eapply drain_quiesces]. }
  split; [by destruct Hq as (? & ? & ? & _)|]. split; [|intros p; by apply quiesced_write].
  intros id s Hid. destruct Hq as (_ & _ & _ & _ & _ & Ha). unfold poll_write, poll. rewrite Hid.
  destruct (Z.eqb_spec (slot_state s) SLOT_PENDING) as [Hp|]; [|eauto].
  destruct (Ha _ s Hid Hp) as (? & []%not_elem_of_nil & _).
Qed.
End Shutdown.

(** A leader with four slots takes a write, replicates it, and takes another. *)
Definition engine_after {A} (x : result (res A * ArbitroRaft MemStorage QueueTransport TickClock unit ListMachine) Stop)
  : ArbitroRaft MemStorage QueueTransport TickClock unit ListMachine :=
  match x with Ok (_, r) => r | Err _ => applying_engine end.

Definition new_engine :=
  engine_after (engine_new 4 (sample_leader 1 [1; 2; 3] {| current_term := 1; voted_for := Some 1 |}
                                [1]) ([] : ListMachine)).
Definition one_write := (write_bytes [x61] new_engine).2.
Definition one_tick := engine_after (run_once VecTuning_default 10 ProposalArm one_write).
Definition two_writes := (write_bytes [x62] one_tick).2.
Definition shut_engine := engine_after (stop two_writes).

Lemma shutdown_answers_every_writer_witness :
  length (commit_waiters two_writes) = 1%nat /\ length (client_rx two_writes) = 1%nat /\
  exists v, poll_write (slot_id_new 0 1) shut_engine = Some v.
Proof.
  split; [vm_compute; reflexivity|]. split; [vm_compute; reflexivity|].
  assert (Hn : engine_new 4 (sample_leader 1 [1; 2; 3] {| current_term := 1; voted_for := Some 1 |}
                 [1]) ([] : ListMachine) = Ok (Ok tt, new_engine)) by (vm_compute; reflexivity).
  assert (Ht : run_once VecTuning_default 10 ProposalArm one_write = Ok (Ok true, one_tick))
    by (vm_compute; reflexivity).
  assert (Es : stop two_writes = Ok (Ok tt, shut_engine)) by (vm_compute; reflexivity).
  assert (Hr : rtc (engine_step VecTuning_default) new_engine two_writes).
  { eapply rtc_l; [apply (step_write VecTuning_default [x61])|].
    eapply rtc_l; [eapply step_call; [apply call_run_once|exact Ht]|].
    eapply rtc_l; [apply (step_write VecTuning_default [x62])|]. apply rtc_refl. }
  assert (Hc : Z.of_nat 4 <= 2 ^ 32) by (vm_compute; discriminate).
  pose proof (shutdown_answers_every_writer VecTuning_default 4 _ _ _ _ _ stop _ _ Hc Hn Hr
                (or_introl eq_refl) Es) as (_ & H & _).
  eapply (H (slot_id_new 0 1)). vm_compute. reflexivity.
Defined.
