(* ===== verification/Invariants.v ===== *)
(** * Invariants: what every state of a node satisfies

    A state of a node is well formed when what it publishes is what it holds:
    the commit index other tasks read ([commit_index_pub]) is the one of the
    soft state, the leader flag is the role, a leader names itself as the leader,
    and no snapshot under assembly is longer than [max_snapshot_bytes].  Every
    method keeps this, on every path and with every storage, transport, clock,
    dispatcher and state machine: no law of theirs is used.  So it holds in every
    state of an engine ([engine_well_formed]) and the memory a peer can take up
    with snapshot chunks is bounded ([snapshot_memory_bounded]). *)

From stdpp Require Import base list sets gmap strings relations.
From Stdlib Require Import ZArith Lia.
From S2P Require Import Prelude Types Wire Codec Slots Guard Arena Progress Quorum Traits.
From S2P Require Import Membership NodeState Node Samples Election ConfigChange Replication Commit.
From S2P Require Import Snapshot Transfer Inbound Campaign Leader Install Propose ReadIndex.
From S2P Require Import EngineState Engine EngineApi Frames Clients.

Local Open Scope Z_scope.

Section Orderly.
Context {S T C D : Type} `{RaftStorage S} `{RaftTransport T} `{Clock C} `{CustomDispatch D T}.
Implicit Types n : RaftNode S T C D.
#[local] Abbreviation M := (M S T C D).
#[local] Abbreviation L := (L S T C D).

Definition snapshot_limit n : Z := max_snapshot_bytes (cfg_limits (config n)).

(** The limit is one: the largest [u64] stands for none. *)
Definition limited n : Prop := 0 <= snapshot_limit n < u64_max.

Definition within (limit : Z) (p : PendingSnapshot) : Prop :=
  Z.of_nat (length (ps_bytes p)) <= limit.

Record well_formed n : Prop := {
  wf_published : commit_index_pub n = commit_index n;
  wf_flag : ss_is_leader (soft_state n) = is_leader n;
  wf_leader_id : is_leader n = true -> ss_leader_id (soft_state n) = Some (node_id n);
  wf_buffers : limited n -> map_Forall (fun _ => within (snapshot_limit n)) (pending_snapshots n);
}.

(** A step that keeps a node well formed, who it is and what it is limited to. *)
Record orderly n n' : Prop := {
  or_well_formed : well_formed n -> well_formed n';
  or_id : node_id n' = node_id n;
  or_limits : cfg_limits (config n') = cfg_limits (config n);
}.

#[export] Instance orderly_preorder : PreOrder orderly.
Proof.
  split; [by intros n; split|]. intros n1 n2 n3 [W1 I1 L1] [W2 I2 L2].
  split; [tauto|congruence|congruence].
Qed.

(** What [well_formed] looks at. *)
Definition formed n :=
  (commit_index_pub n, soft_state n, pending_snapshots n, node_id n, cfg_limits (config n)).

Lemma orderly_same n n' : formed n' = formed n -> orderly n n'.
Proof.
  intros E. injection E as Ep Es Eb Ei El. split; [|done..].
  assert (Em : snapshot_limit n' = snapshot_limit n) by (unfold snapshot_limit; by rewrite El).
  intros []. split; unfold limited, commit_index, is_leader in *; rewrite ?Ep, ?Es, ?Eb, ?Ei, ?Em; auto.
Qed.

Definition orders {A} (m : M A) : Prop := forall n, orderly n (m n).2.
Definition orders_loop {A} (m : L A) : Prop := forall n r n', m n = Ok (r, n') -> orderly n n'.

(** ** Rules *)

Lemma orderly_bind {A B} (m : M A) (k : A -> M B) n :
  orderly n (m n).2 -> (forall a, orders (k a)) -> orderly n ((m ≫= k) n).2.
Proof.
  intros Hm Hk. unfold mbind, M_bind.
  destruct (m n) as [[a|e] n']; cbn [snd] in *; [|done]. etransitivity; [exact Hm|apply Hk].
Qed.
Lemma orders_bind {A B} (m : M A) (k : A -> M B) :
  orders m -> (forall a, orders (k a)) -> orders (m ≫= k).
Proof. intros Hm Hk n. by apply orderly_bind. Qed.
Lemma orders_keeps {A} (m : M A) : keeps formed m -> orders m.
Proof. intros Hk n. apply orderly_same, Hk. Qed.
Lemma orders_modify f : (forall n, orderly n (f n)) -> orders (modify f).
Proof. intros Hf n. apply Hf. Qed.
Lemma orders_attempt {A} (m : M A) : orders m -> orders (attempt m).
Proof. intros Hm n. specialize (Hm n). unfold attempt. by destruct (m n). Qed.
Lemma orders_for_each {X} (l : list X) body : (forall x, orders (body x)) -> orders (for_each l body).
Proof.
  intros Hb. induction l as [|x l IH]; cbn [for_each]; [by intros n|].
  apply orders_bind; [apply Hb|]. intros _. exact IH.
Qed.

Lemma orders_loop_bind {A B} (m : L A) (k : A -> L B) :
  orders_loop m -> (forall a, orders_loop (k a)) -> orders_loop (m ≫= k).
Proof.
  intros Hm Hk n r n'. unfold mbind, L_bind. destruct (m n) as [[[a|e] n1]|] eqn:E; [| |done].
  - intros E'. etransitivity; [by eapply Hm|by eapply Hk].
  - intros [= _ <-]. by eapply Hm.
Qed.
Lemma orders_loop_ret {A} (a : A) : orders_loop (mret a).
Proof. by intros n r n' [= _ <-]. Qed.
Lemma orders_run {A} (m : M A) : orders m -> orders_loop (run m).
Proof. intros Hm n r n' [= E]. specialize (Hm n). by rewrite E in Hm. Qed.
Lemma orders_stop {A} (s : Stop) : orders_loop (A := A) (fun _ => Err s).
Proof. by intros n r n'. Qed.
Lemma orders_attempt_loop {A} (m : L A) : orders_loop m -> orders_loop (attempt_loop m).
Proof.
  intros Hm n r n'. unfold attempt_loop. destruct (m n) as [[r1 n1]|] eqn:E; [|done].
  intros [= _ <-]. by eapply Hm.
Qed.

(** ** The writes *)

Lemma orderly_commit i n : orderly n (set_commit_index i n).
Proof. split; [|done..]. by intros []. Qed.

(** Fewer and emptier buffers. *)
Lemma orderly_buffers (l : gmap Z PendingSnapshot) n :
  (limited n -> map_Forall (fun _ => within (snapshot_limit n)) (pending_snapshots n) ->
   map_Forall (fun _ => within (snapshot_limit n)) l) ->
  orderly n (set_pending_snapshots l n).
Proof. intros Hl. split; [|done..]. intros []. split; try done. intros Hm. exact (Hl Hm (wf_buffers0 Hm)). Qed.

Lemma orderly_forget k n : orderly n (set_pending_snapshots (delete k (pending_snapshots n)) n).
Proof. apply orderly_buffers. intros _. apply map_Forall_delete. Qed.

Lemma orderly_clear n : orderly n (set_pending_snapshots ∅ n).
Proof. apply orderly_buffers. intros _ _. apply map_Forall_empty. Qed.

(** The role, the flag and the leader change together. *)
Lemma orders_office {B} role flag (hint : RaftNode S T C D -> option PeerId) (k : unit -> M B) :
  flag = role_eqb role Leader ->
  (role = Leader -> forall n, hint n = Some (node_id n)) ->
  (forall u, orders (k u)) ->
  orders (modify (set_role role);; modify (set_is_leader flag);;
          modify (fun n => set_leader_id (hint n) n) ≫= k).
Proof.
  intros Hf Hh Hk n. rewrite !bind_modify. etransitivity; [|apply Hk].
  split; [|done..]. intros []. split; [done|done| |done]. intros Hl.
  unfold is_leader in Hl. cbn in Hl. destruct role; [done|done|].
  exact (Hh eq_refl (set_is_leader flag (set_role Leader n))).
Qed.
End Orderly.

Create HintDb orders discriminated.
#[export] Hint Resolve orderly_commit orderly_forget orderly_clear : orders.

(** Opens the method at the head. *)
Ltac orders_unfold m := let h := get_head m in unfold h.

Ltac orders_step :=
  lazymatch goal with
  | |- orders (mbind _ (modify (set_role _))) => apply orders_office; [reflexivity|done|intros ?]
  | |- orders (mbind _ _) => apply orders_bind; [|intros ?]
  | |- orders (mret _) => by intros ?
  | |- orders (err _) => by intros ?
  | |- orders (gets _) => by intros ?
  | |- orders (from_res _) => by intros ?
  | |- orders (modify _) => apply orders_modify; intros ?;
      first [solve [auto with orders]
            | apply orderly_same; first [reflexivity | by repeat case_match]]
  | |- orders (attempt _) => apply orders_attempt
  | |- orders (whenM ?b _) => unfold whenM; destruct b
  | |- orders (for_each _ _) => apply orders_for_each; intros ?
  | |- orders (on_storage _) => apply orders_keeps; solve [keeps_auto]
  | |- orders (on_transport _) => apply orders_keeps; solve [keeps_auto]
  | |- orders (on_metrics _) => apply orders_keeps; solve [keeps_auto]
  | |- orders now => apply orders_keeps; solve [keeps_auto]
  | |- orders (send_message _ _) => apply orders_keeps; solve [keeps_auto]
  | |- orders (send_frames _ _) => apply orders_keeps; solve [keeps_auto]
  | |- orders (encode_frame _) => apply orders_keeps; solve [keeps_auto]
  | |- orders (if ?b then _ else _) => destruct b
  | |- orders (match ?x with _ => _ end) => destruct x
  | |- orders_loop (mbind _ _) => apply orders_loop_bind; [|intros ?]
  | |- orders_loop (mret _) => apply orders_loop_ret
  | |- orders_loop (run _) => apply orders_run
  | |- orders_loop out_of_fuel => apply orders_stop
  | |- orders_loop panic => apply orders_stop
  | |- orders_loop (attempt_loop _) => apply orders_attempt_loop
  | |- orders_loop (if ?b then _ else _) => destruct b
  | |- orders_loop (match ?x with _ => _ end) => destruct x
  | |- orders ?m => first [solve [eauto with orders] | orders_unfold m]
  | |- orders_loop ?m => first [solve [eauto with orders] | orders_unfold m]
  end.
Ltac orders_auto := repeat (orders_step; cbv beta zeta).

Section Methods.
Context {S T C D SM : Type} `{RaftStorage S} `{RaftTransport T} `{Clock C} `{CustomDispatch D T}
  `{StateMachine SM}.
Context (tuning : VecTuning).
Implicit Types n : RaftNode S T C D.
#[local] Abbreviation M := (M S T C D).
#[local] Abbreviation L := (L S T C D).

(** ** Inbound messages *)

Lemma orders_evict l k : orders (evict_loop l k : M Z).
Proof. revert k. induction l as [|[p s] l IH]; intros k; cbn [evict_loop]; orders_auto. Qed.
Lemma orders_evict_stalled : orders (evict_stalled_snapshots : M Z).
Proof. intros n. unfold evict_stalled_snapshots. apply orders_evict. Qed.
Lemma orders_step_down t : orders (step_down t : M unit).
Proof. orders_auto. Qed.
Lemma orders_scan what start count items idx : orders (scan_entries what start count items idx : M nat).
Proof.
  revert idx. induction items as [|[i t] items IH]; intros idx; cbn [scan_entries]; orders_auto.
Qed.
#[local] Hint Resolve orders_evict_stalled orders_step_down orders_scan : orders.

(** ** Snapshots *)

Lemma orderly_put from p n :
  (limited n -> within (snapshot_limit n) p) ->
  orderly n (set_pending_snapshots (<[from := p]> (pending_snapshots n)) n).
Proof. intros Hp. apply orderly_buffers. intros Hm Hf. apply map_Forall_insert_2; auto. Qed.

Lemma orders_put_empty from p : ps_bytes p = [] -> orders (put_pending from p : M unit).
Proof.
  intros E. apply orders_modify. intros n. apply orderly_put. intros [Hm _]. unfold within. by rewrite E.
Qed.
#[local] Hint Resolve orders_put_empty : orders.

Lemma orders_open_pending from meta off st : orders (open_pending from meta off st : M _).
Proof.
  intros n. unfold open_pending. rewrite bind_gets.
  destruct (pending_snapshots n !! from) as [p|] eqn:E.
  - rewrite bind_ret. apply orderly_bind; [|intros _; orders_auto]. split; [|done..].
    intros W. apply orderly_put; [|done]. intros Hm. exact (wf_buffers _ W Hm _ _ E).
  - rewrite bind_assoc. apply orders_bind; [orders_auto|]. intros t n1. rewrite bind_ret.
    apply orderly_bind; [by apply orders_put_empty|]. intros _. orders_auto.
Qed.

Lemma orders_finish_snapshot from : orders (finish_snapshot from : M _).
Proof. orders_auto. Qed.
#[local] Hint Resolve orders_open_pending orders_finish_snapshot : orders.

Lemma orders_accept_chunk from p payload fin st : orders (accept_chunk from p payload fin st : M _).
Proof.
  intros n. unfold accept_chunk. rewrite bind_gets. destruct (_ <? _) eqn:Hb.
  - match goal with |- orderly n (?m n).2 => cut (orders m); [auto|] end. orders_auto.
  - destruct (clock_now (clock n)) as [t c] eqn:Ec. erewrite bind_Ok by (unfold now; by rewrite Ec).
    transitivity (set_clock c n); [by apply orderly_same|]. cbv zeta.
    apply orderly_bind; [|intros _; orders_auto]. apply orderly_put. intros [_ Hm].
    unfold within, snapshot_limit in *. cbn in Hm |- *. rewrite length_app. zlia.
Qed.
#[local] Hint Resolve orders_accept_chunk : orders.

Lemma orders_custom from payload : orders (handle_custom_message from payload : M unit).
Proof.
  intros n. unfold handle_custom_message. destruct (invoke_custom _ _ _ _ _ _) as [[r d] t].
  by apply orderly_same.
Qed.
Lemma orders_custom_response from payload : orders (handle_custom_response from payload : M unit).
Proof.
  intros n. unfold handle_custom_response. destruct (on_custom_response _ _ _) as [r d].
  by apply orderly_same.
Qed.
#[local] Hint Resolve orders_custom orders_custom_response : orders.

Lemma orders_handle_inbound im : orders (handle_inbound im : M unit).
Proof. orders_auto. Qed.
#[local] Hint Resolve orders_handle_inbound : orders.

(** ** Campaigns *)

Lemma orders_drain_loop fuel deadline len msgs : orders_loop (drain_loop fuel deadline len msgs : L _).
Proof. revert len msgs. induction fuel as [|fuel IH]; intros; cbn [drain_loop]; orders_auto. Qed.
Lemma orders_count select expected msgs b : orders (count_responses select expected msgs b : M _).
Proof. revert b. induction msgs as [|im msgs IH]; intros b; cbn [count_responses]; orders_auto. Qed.
#[local] Hint Resolve orders_drain_loop orders_count : orders.

Lemma orders_collect fuel term possible deadline len b :
  orders_loop (collect_loop fuel term possible deadline len b : L bool).
Proof. revert b. induction fuel as [|fuel IH]; intros b; cbn [collect_loop]; orders_auto. Qed.
Lemma orders_pre_vote_loop fuel term possible deadline len b :
  orders_loop (pre_vote_loop fuel term possible deadline len b : L bool).
Proof. revert b. induction fuel as [|fuel IH]; intros b; cbn [pre_vote_loop]; orders_auto. Qed.
#[local] Hint Resolve orders_collect orders_pre_vote_loop : orders.

Lemma orders_campaign fuel len : orders_loop (campaign_once fuel len : L bool).
Proof. orders_auto. Qed.
Lemma orders_pre_vote fuel len : orders_loop (campaign_pre_vote fuel len : L bool).
Proof. orders_auto. Qed.

(** ** Heartbeats and snapshots to peers *)

Lemma orders_await fuel :
  (forall peer st total off rounds mr timeout fin,
     orders_loop (await_install_reply fuel peer st total off rounds mr timeout fin : L _)) /\
  (forall peer st total off rounds mr timeout fin im,
     orders_loop (other_frame fuel peer st total off rounds mr timeout fin im : L _)).
Proof.
  induction fuel as [|fuel [IHa IHo]]; split; intros; cbn [await_install_reply other_frame]; orders_auto.
Qed.
Lemma orders_await_reply fuel peer st total off rounds mr timeout fin :
  orders_loop (await_install_reply fuel peer st total off rounds mr timeout fin : L _).
Proof. apply orders_await. Qed.
#[local] Hint Resolve orders_await_reply : orders.

Lemma orders_install_loop fuel peer meta snap st off hb rounds :
  orders_loop (install_loop fuel peer meta snap st off hb rounds : L _).
Proof. revert off hb rounds. induction fuel as [|fuel IH]; intros; cbn [install_loop]; orders_auto. Qed.
#[local] Hint Resolve orders_install_loop : orders.

Lemma orders_maybe_install fuel peer :
  orders_loop (maybe_install_snapshot_to_lagging_peer fuel peer : L bool).
Proof. orders_auto. Qed.
#[local] Hint Resolve orders_maybe_install : orders.

Lemma orders_heartbeat_indices fuel last_log idx escalated :
  orders_loop (heartbeat_indices fuel last_log idx escalated : L _).
Proof. revert escalated. induction idx; intros; cbn [heartbeat_indices]; orders_auto. Qed.
#[local] Hint Resolve orders_heartbeat_indices : orders.

Lemma orders_heartbeat fuel : orders_loop (send_heartbeat_once fuel : L unit).
Proof. orders_auto. Qed.

(** ** Proposals *)

Lemma orders_encode_vectored msg : orders (encode_vectored msg : M _).
Proof.
  intros n. unfold encode_vectored. destruct (encode_message_vectored _ _ _) as [[[buf out]|]|]; [|done..].
  by apply orderly_same.
Qed.
Lemma orders_send_each (send : PeerId -> M unit) peers :
  (forall p, orders (send p)) -> orders (send_each send peers).
Proof. intros Hs. induction peers as [|p peers IH]; cbn [send_each]; orders_auto. Qed.
#[local] Hint Resolve orders_encode_vectored : orders.

Lemma orders_fan_out msg entries : orders (fan_out tuning msg entries : M _).
Proof. unfold fan_out. orders_auto; apply orders_send_each; intros; orders_auto. Qed.
#[local] Hint Resolve orders_fan_out : orders.

Lemma orders_gather_burst fuel needed last deadline accepted :
  orders_loop (gather_burst fuel needed last deadline accepted : L _).
Proof. revert accepted. induction fuel; intros; cbn [gather_burst]; orders_auto. Qed.
#[local] Hint Resolve orders_gather_burst : orders.
Lemma orders_gather_loop fuel needed last deadline accepted :
  orders_loop (gather_loop fuel needed last deadline accepted : L _).
Proof. revert accepted. induction fuel; intros; cbn [gather_loop]; orders_auto. Qed.
Lemma orders_drain_ready fuel : orders_loop (drain_inbound_ready fuel : L unit).
Proof. induction fuel; cbn [drain_inbound_ready]; orders_auto. Qed.
#[local] Hint Resolve orders_gather_loop orders_drain_ready : orders.

Lemma orders_propose_batch fuel payloads : orders_loop (propose_batch_once tuning fuel payloads : L _).
Proof. orders_auto. Qed.
#[local] Hint Resolve orders_propose_batch : orders.
Lemma orders_propose fuel payload : orders_loop (propose_once tuning fuel payload : L _).
Proof. orders_auto. Qed.
Lemma orders_replicate payloads : orders (replicate_batch_async tuning payloads : M _).
Proof. orders_auto. Qed.

(** ** Reads and transfers *)

Lemma orders_confirm_frames term probe msgs acks : orders (confirm_frames term probe msgs acks : M _).
Proof. revert acks. induction msgs as [|im msgs IH]; intros; cbn [confirm_frames]; orders_auto. Qed.
#[local] Hint Resolve orders_confirm_frames : orders.
Lemma orders_confirm_loop fuel term probe deadline next len acks :
  orders_loop (confirm_loop fuel term probe deadline next len acks : L _).
Proof. revert next acks. induction fuel; intros; cbn [confirm_loop]; orders_auto. Qed.
#[local] Hint Resolve orders_confirm_loop orders_propose : orders.
Lemma orders_read_index fuel len : orders_loop (read_index tuning fuel len : L _).
Proof. orders_auto. Qed.

Lemma orders_catch_up_loop fuel target term deadline next last len :
  orders_loop (catch_up_loop fuel target term deadline next last len : L _).
Proof. revert next last. induction fuel; intros; cbn [catch_up_loop]; orders_auto. Qed.
#[local] Hint Resolve orders_catch_up_loop : orders.
Lemma orders_transfer fuel target len : orders_loop (transfer_leadership fuel target len : L _).
Proof. orders_auto. Qed.

(** ** Applying *)

Lemma orders_reseat meta : orders (reseat_at_boundary meta : M unit).
Proof. orders_auto. Qed.

Lemma orderly_jump i n :
  orderly n (set_last_applied i (if commit_index n <? i then set_commit_index i n else n)).
Proof.
  transitivity (if commit_index n <? i then set_commit_index i n else n); [|by apply orderly_same].
  destruct (_ <? _); [apply orderly_commit|done].
Qed.

Lemma orderly_restore (sm : SM) n : orderly n (restore_state_machine_from_snapshot sm n).2.
Proof.
  unfold restore_state_machine_from_snapshot, on_storage.
  destruct (load_snapshot_meta (storage n)) as [[[meta|]|e] s1]; [|by apply orderly_same..].
  case_match; [by apply orderly_same|]. cbn [storage set_storage].
  destruct (load_snapshot s1) as [[[[meta' b]|]|e] s2]; [|by apply orderly_same..].
  destruct (restore b sm) as [[[]|e] sm']; [|by apply orderly_same]. cbv zeta.
  set (n2 := set_storage s2 (set_storage s1 n)). transitivity n2; [by apply orderly_same|].
  etransitivity; [apply (orderly_jump (last_included_index meta'))|].
  match goal with |- orderly ?n3 _ => pose proof (orders_reseat meta' n3) as Hr;
    destruct (reseat_at_boundary meta' n3) as [[[]|e] n4] end; [|done].
  etransitivity; [exact Hr|by apply orderly_same].
Qed.

Lemma orders_commit : orders (try_advance_commit_index : M unit).
Proof. orders_auto. Qed.
Lemma orders_config_entry payload : orders (apply_if_config_change payload : M bool).
Proof. orders_auto. Qed.
Lemma orders_config_change entry : orders (apply_config_change entry : M unit).
Proof. orders_auto. Qed.
Lemma orders_compact (sm : SM) : orders (maybe_compact sm : M _).
Proof. orders_auto. Qed.
Lemma orders_forced : orders (take_forced_campaign : M bool).
Proof. orders_auto. Qed.
Lemma orders_demote : orders (demote_to_follower_keep_term : M unit).
Proof. orders_auto. Qed.
End Methods.

#[export] Hint Resolve orders_evict_stalled orders_step_down orders_handle_inbound orders_campaign
  orders_pre_vote orders_maybe_install orders_heartbeat orders_propose orders_propose_batch
  orders_replicate orders_read_index orders_transfer orders_commit orders_config_entry
  orders_config_change orders_compact orders_forced orders_demote : orders.

(** ** The engine *)

Section Engine.
Context {S T C D SM : Type} `{RaftStorage S} `{RaftTransport T} `{Clock C} `{CustomDispatch D T}
  `{StateMachine SM}.
Context (tuning : VecTuning).
Implicit Types r : ArbitroRaft S T C D SM.
#[local] Abbreviation E := (E S T C D SM).

Definition conducts {A} (m : E A) : Prop :=
  forall r x r', m r = Ok (x, r') -> orderly (node r) (node r').

Lemma conducts_bind {A B} (m : E A) (k : A -> E B) :
  conducts m -> (forall a, conducts (k a)) -> conducts (m ≫= k).
Proof.
  intros Hm Hk r x r'. unfold mbind, E_bind. destruct (m r) as [[[a|e] r1]|] eqn:E1; [| |done].
  - intros E2. etransitivity; [by eapply Hm|by eapply Hk].
  - intros [= _ <-]. by eapply Hm.
Qed.

(** A step that leaves the node alone. *)
Lemma conducts_aside {A} (m : E A) : (forall r, exists x r', m r = Ok (x, r') /\ node r' = node r) -> conducts m.
Proof. intros Hm r x r' E. destruct (Hm r) as (x1 & r1 & E1 & En). rewrite E1 in E. simplify_eq. by rewrite En. Qed.

Lemma conducts_attempt {A} (m : E A) : conducts m -> conducts (e_attempt m).
Proof.
  intros Hm r x r'. unfold e_attempt. destruct (m r) as [[x1 r1]|] eqn:E1; [|done].
  intros [= _ <-]. by eapply Hm.
Qed.
Lemma conducts_on_node {A} (m : L S T C D A) : orders_loop m -> conducts (on_node m).
Proof.
  intros Hm r x r'. unfold on_node. destruct (m (node r)) as [[x1 n1]|] eqn:E1; [|done].
  intros [= _ <-]. by eapply Hm.
Qed.
Lemma conducts_on_node_m {A} (m : M S T C D A) : orders m -> conducts (on_node_m m).
Proof. intros Hm. by apply conducts_on_node, orders_run. Qed.
Lemma conducts_stop {A} (s : Stop) : conducts (A := A) (fun _ => Err s).
Proof. by intros r x r'. Qed.
Lemma conducts_restore : conducts restore_if_installed.
Proof.
  intros r x r'. unfold restore_if_installed. pose proof (orderly_restore (state_machine r) (node r)) as Hr.
  destruct (restore_state_machine_from_snapshot _ _) as [[y sm] n]. by intros [= _ <-].
Qed.
End Engine.

#[export] Hint Resolve conducts_restore : orders.

Ltac conducts_step :=
  lazymatch goal with
  | |- conducts (mbind _ _) => apply conducts_bind; [|intros ?]
  | |- conducts (on_node_m _) => apply conducts_on_node_m; solve [orders_auto]
  | |- conducts (on_node _) => apply conducts_on_node; solve [orders_auto]
  | |- conducts (e_attempt _) => apply conducts_attempt
  | |- conducts (e_when ?b _) => unfold e_when; destruct b
  | |- conducts e_out_of_fuel => apply conducts_stop
  | |- conducts (fun _ => Err _) => apply conducts_stop
  | |- conducts (if ?b then _ else _) => destruct b
  | |- conducts (match ?x with _ => _ end) => destruct x
  | |- conducts ?m =>
      first [solve [eauto with orders]
            | solve [apply conducts_aside; intros ?; repeat case_match; eauto]
            | orders_unfold m]
  end.
Ltac conducts_auto := repeat (conducts_step; cbv beta zeta).

Section EngineMethods.
Context {S T C D SM : Type} `{RaftStorage S} `{RaftTransport T} `{Clock C} `{CustomDispatch D T}
  `{StateMachine SM}.
Context (tuning : VecTuning).
Implicit Types r : ArbitroRaft S T C D SM.
#[local] Abbreviation E := (E S T C D SM).

Lemma conducts_apply_loop k next : conducts (apply_loop k next : E unit).
Proof. revert next. induction k as [|k IH]; intros next; cbn [apply_loop]; conducts_auto. Qed.
#[local] Hint Resolve conducts_apply_loop : orders.
Lemma conducts_dispatch f : conducts (dispatch_inbound f : E unit).
Proof. conducts_auto. Qed.
#[local] Hint Resolve conducts_dispatch : orders.
Lemma conducts_burst k : conducts (drain_burst k : E nat).
Proof. induction k as [|k IH]; cbn [drain_burst]; conducts_auto. Qed.
#[local] Hint Resolve conducts_burst : orders.
Lemma conducts_install fuel self peers sent : conducts (install_to_peers fuel self peers sent : E Z).
Proof. revert sent. induction peers as [|p peers IH]; intros; cbn [install_to_peers]; conducts_auto. Qed.
#[local] Hint Resolve conducts_install : orders.
Lemma conducts_run_once fuel arm : conducts (run_once tuning fuel arm : E bool).
Proof. conducts_auto. Qed.

Lemma conducts_config_change fuel news : conducts (propose_config_change tuning fuel news : E _).
Proof. conducts_auto. Qed.
Lemma conducts_learner_change fuel p add : conducts (propose_learner_change tuning fuel p add : E _).
Proof. conducts_auto. Qed.
#[local] Hint Resolve conducts_run_once conducts_config_change conducts_learner_change : orders.

Lemma conducts_api_call A (m : E A) : api_call tuning A m -> conducts m.
Proof. intros []; conducts_auto. Qed.

Lemma conducts_handoff fuel deadline : conducts (handoff_loop fuel deadline : E unit).
Proof. induction fuel as [|fuel IH]; cbn [handoff_loop]; conducts_auto. Qed.
#[local] Hint Resolve conducts_handoff : orders.

Lemma conducts_shutdown (m : E unit) : (m = stop \/ exists fuel, m = drain tuning fuel) -> conducts m.
Proof. intros [->|[fuel ->]]; conducts_auto. Qed.

(** ** The states of an engine *)

(** Calls and writes of clients, shutting down, and what the network does to
    the transport in between. *)
Inductive life_step : ArbitroRaft S T C D SM -> ArbitroRaft S T C D SM -> Prop :=
| life_call r r' : engine_step tuning r r' -> life_step r r'
| life_shutdown (m : E unit) r x r' :
    (m = stop \/ exists fuel, m = drain tuning fuel) -> m r = Ok (x, r') -> life_step r r'
| life_network t r : life_step r (set_node (set_transport t (node r)) r).

Lemma life_orderly r r' : rtc life_step r r' -> orderly (node r) (node r').
Proof.
  intros Hr. induction Hr as [|r r1 r2 Hst _ IH]; [done|]. etransitivity; [|exact IH].
  destruct Hst as [ra rb [A m rc x rd Hm E|p rc|id rc]|m ra x rb Hm E|t ra].
  - by eapply conducts_api_call.
  - unfold write_bytes. by repeat case_match.
  - done.
  - by eapply conducts_shutdown.
  - by apply orderly_same.
Qed.

(** A node on its storage, and the engine on the node. *)
Definition starts (cfg : NodeConfig) r : Prop :=
  exists (st : S) (tr : T) (ck : C) (d : D) n slots sm x,
    node_new cfg st tr ck d = Ok n /\ engine_new slots n sm = Ok (x, r).

Lemma node_new_well_formed cfg (st : S) (tr : T) (ck : C) (d : D) n :
  node_new cfg st tr ck d = Ok n -> well_formed n /\ config n = cfg.
Proof.
  unfold node_new. destruct (validate_node_config cfg); [|done].
  destruct (load_hard_state st) as [[hs|e] s1]; [|done].
  destruct (last_log_position s1) as [[last|e] s2]; [|done].
  destruct (load_snapshot_meta s2) as [[meta|e] s3]; [|done].
  generalize (replicate (Z.to_nat (1024 * 1024)) (to_byte 0)), (arena_new (Z.to_nat 8192)).
  intros buf metadata [= <-]. split; [|done]. by split.
Qed.

Lemma engine_orderly slots n (sm : SM) x r : engine_new slots n sm = Ok (x, r) -> orderly n (node r).
Proof.
  unfold engine_new. assert (Hm : conducts (reset_election_deadline;; reset_heartbeat_deadline : E unit))
    by conducts_auto. intros E. by apply Hm in E.
Qed.

Lemma starts_orderly cfg r0 r :
  starts cfg r0 -> rtc life_step r0 r ->
  well_formed (node r) /\ node_id (node r) = cfg_node_id cfg /\
  cfg_limits (config (node r)) = cfg_limits cfg.
Proof.
  intros (st & tr & ck & d & n & slots & sm & x & En & Er) Hr.
  apply node_new_well_formed in En as [Hw Hc]. apply engine_orderly in Er. apply life_orderly in Hr.
  destruct (transitivity Er Hr) as [Hw' Hi Hl]. unfold node_id in *. rewrite <- Hc. auto.
Qed.

(** C4: in every state of an engine, whatever calls, writes, frames, failures
    and changes of membership led there, the commit index it publishes is the one
    the protocol holds, the leader flag is the role, a node that leads names itself
    as the leader, and it has the identity and the limits it was configured
    with. *)
Theorem engine_well_formed cfg r0 r :
  starts cfg r0 -> rtc life_step r0 r ->
  commit_index_pub (node r) = commit_index (node r) /\
  ss_is_leader (soft_state (node r)) = is_leader (node r) /\
  (is_leader (node r) = true -> ss_leader_id (soft_state (node r)) = Some (cfg_node_id cfg)) /\
  node_id (node r) = cfg_node_id cfg /\ cfg_limits (config (node r)) = cfg_limits cfg.
Proof.
  intros Hs Hr. destruct (starts_orderly cfg r0 r Hs Hr) as ([Hp Hf Hl _] & Hi & Hc).
  rewrite Hi in Hl. auto.
Qed.

(** The bytes of snapshots under assembly. *)
Definition buffered (n : RaftNode S T C D) : nat :=
  sum_list_with (fun kv => length (ps_bytes kv.2)) (map_to_list (pending_snapshots n)).

Lemma buffered_within limit n :
  map_Forall (fun _ => within limit) (pending_snapshots n) ->
  Z.of_nat (buffered n) <= Z.of_nat (size (pending_snapshots n)) * limit.
Proof.
  rewrite map_Forall_to_list. unfold buffered. rewrite <- length_map_to_list.
  induction (map_to_list (pending_snapshots n)) as [|[k p] l IH]; cbn; [lia|].
  intros [Hp Hl]%Forall_cons. unfold within in Hp. cbn in Hp. specialize (IH Hl). lia.
Qed.

(** C5: a peer cannot make a node buffer more than [max_snapshot_bytes] of a
    snapshot it never finishes, however it cuts the chunks and whatever else
    happens; so all pending snapshots together are bounded by the number of peers
    that have one. *)
Theorem snapshot_memory_bounded cfg r0 r :
  starts cfg r0 -> rtc life_step r0 r ->
  0 <= max_snapshot_bytes (cfg_limits cfg) < u64_max ->
  (forall peer p, pending_snapshots (node r) !! peer = Some p ->
     Z.of_nat (length (ps_bytes p)) <= max_snapshot_bytes (cfg_limits cfg)) /\
  Z.of_nat (buffered (node r)) <=
    Z.of_nat (size (pending_snapshots (node r))) * max_snapshot_bytes (cfg_limits cfg).
Proof.
  intros Hs Hr Hm. destruct (starts_orderly cfg r0 r Hs Hr) as ([_ _ _ Hb] & _ & Hl).
  unfold limited, snapshot_limit in Hb. rewrite Hl in Hb. specialize (Hb Hm).
  split; [exact Hb|by apply buffered_within].
Qed.
End EngineMethods.

(** A voter receives the first chunk of a snapshot and ticks. *)
Definition started : res SampleNode :=
  node_new (sample_config_of 2 [1; 2; 3]) {| mem_view := disk; mem_fault := None |}
    {| qt_sent := []; qt_inbound := [] |} {| tick_now := 1000; tick_step := 1 |} tt.
Definition started_node : SampleNode :=
  match started with Ok n => n | Err _ => sample_node 2 [1; 2; 3] (v_hard disk) [] end.

Definition first_chunk : bytes :=
  frame_of 1 (MInstallSnapshot
    {| is_term := 3; is_leader_id := 1; is_last_included_index := 7; is_last_included_term := 2;
       is_offset := 0; is_chunk_len := 2; is_done := 0; is_pad := replicate 3 (to_byte 0) |}
    [to_byte 97; to_byte 98]).

Definition started_engine := engine_after (engine_new 4 started_node ([] : ListMachine)).
Definition chunk_arrived :=
  set_node (set_transport {| qt_sent := []; qt_inbound := [first_chunk] |} (node started_engine))
    started_engine.
Definition chunk_taken := engine_after (run_once VecTuning_default 10 FrameArm chunk_arrived).

(** Results that are recognised without being written out. *)
Lemma started_ok : started = Ok started_node.
Proof. unfold started_node. assert (H : is_ok started = true) by (vm_compute; reflexivity). by destruct started. Qed.

Lemma engine_after_ok {A} (x : result (res A * ArbitroRaft MemStorage QueueTransport TickClock unit ListMachine) Stop) :
  is_ok x = true -> exists y, x = Ok (y, engine_after x).
Proof. destruct x as [[y r]|]; [by exists y|done]. Qed.

Lemma chunk_taken_reached :
  starts (sample_config_of 2 [1; 2; 3]) started_engine /\
  rtc (life_step VecTuning_default) started_engine chunk_taken.
Proof.
  destruct (engine_after_ok (engine_new 4 started_node ([] : ListMachine))) as [x E];
    [vm_compute; reflexivity|].
  destruct (engine_after_ok (run_once VecTuning_default 10 FrameArm chunk_arrived)) as [y Ey];
    [vm_compute; reflexivity|].
  split; [do 8 eexists; split; [exact started_ok|exact E]|].
  eapply rtc_l; [apply life_network|]. eapply rtc_l; [|apply rtc_refl].
  apply life_call. eapply step_call; [apply call_run_once|exact Ey].
Qed.

Lemma engine_well_formed_witness :
  ss_leader_id (soft_state (node chunk_taken)) = Some 1 /\
  ss_is_leader (soft_state (node chunk_taken)) = is_leader (node chunk_taken) /\
  commit_index_pub (node chunk_taken) = commit_index (node chunk_taken).
Proof.
  destruct chunk_taken_reached as [Hs Hr].
  destruct (engine_well_formed VecTuning_default _ _ _ Hs Hr) as (Hp & Hf & _).
  split; [vm_compute; reflexivity|]. by split.
Defined.

Lemma snapshot_memory_bounded_witness :
  buffered (node chunk_taken) = 2%nat /\ Z.of_nat (buffered (node chunk_taken)) <= 4 * 1024 ^ 3.
Proof.
  destruct chunk_taken_reached as [Hs Hr].
  assert (Hm : 0 <= max_snapshot_bytes (cfg_limits (sample_config_of 2 [1; 2; 3])) < u64_max)
    by (vm_compute; split; [discriminate|reflexivity]).
  destruct (snapshot_memory_bounded VecTuning_default _ _ _ Hs Hr Hm) as [_ Hb].
  split; [vm_compute; reflexivity|]. etransitivity; [exact Hb|]. vm_compute. discriminate.
Defined.
