(* ===== verification/Multiplex.v ===== *)
(** * Multiplex: many groups over one transport

    Models [src/api/transport/multiplex.rs]: the demultiplexer that parks frames
    of sibling groups ([DemuxShared]) and the transport wrapper of one group,
    which stamps what it sends and receives what is its own.

    A parked frame is its live bytes; the pool of recycled buffers is the number
    of buffers in it, as a buffer is never read beyond what was last copied in.
    The counters of parked and dropped frames count objects that were in memory
    and are kept without wrap-around.  Each method runs under the lock. *)

From stdpp Require Import base list sets gmap strings numbers.
From Stdlib Require Import ZArith Lia.
From S2P Require Import Prelude Types Wire Codec CodecFacts Arena Progress Quorum Traits NodeState.

Local Open Scope string_scope.
Local Open Scope list_scope.
Local Open Scope Z_scope.

Definition MAX_INBOX_FRAMES : nat := 1024.
Definition MAX_POOL_BUFS : nat := 64.

(** ** The demultiplexer *)

Record DemuxState := {
  inboxes : gmap Z (list bytes);
  ready : list Z;
  pool : nat;
}.

Record DemuxShared := {
  pending : Z;
  unknown_group : Z;
  overflow_dropped : Z;
  demux : DemuxState;
}.

Definition demux_new : DemuxShared :=
  {| pending := 0; unknown_group := 0; overflow_dropped := 0;
     demux := {| inboxes := ∅; ready := []; pool := 0 |} |}.

Definition recycle (p : nat) : nat := if (p <? MAX_POOL_BUFS)%nat then S p else p.

Definition register (gid : Z) (d : DemuxShared) : DemuxShared :=
  let st := demux d in
  {| pending := pending d; unknown_group := unknown_group d;
     overflow_dropped := overflow_dropped d;
     demux := {| inboxes := match inboxes st !! gid with
                            | Some _ => inboxes st
                            | None => <[gid := []]> (inboxes st)
                            end;
                 ready := ready st; pool := pool st |} |}.

Definition unregister (gid : Z) (d : DemuxShared) : DemuxShared :=
  let st := demux d in
  match inboxes st !! gid with
  | None => d
  | Some inbox =>
      {| pending := pending d - Z.of_nat (length inbox); unknown_group := unknown_group d;
         overflow_dropped := overflow_dropped d;
         demux := {| inboxes := delete gid (inboxes st); ready := ready st; pool := pool st |} |}
  end.

(** [inboxes.get(head).is_some_and(|q| !q.is_empty())] *)
Definition has_frames (boxes : gmap Z (list bytes)) (gid : Z) : bool :=
  match boxes !! gid with Some (_ :: _) => true | _ => false end.

(** The heads of [ready] whose inbox is empty or gone. *)
Fixpoint drop_stale (boxes : gmap Z (list bytes)) (rs : list Z) : list Z :=
  match rs with
  | [] => []
  | g :: rs' => if has_frames boxes g then rs else drop_stale boxes rs'
  end.

Definition small_buffer : RaftError :=
  TransportErr "multiplex: recv buffer smaller than parked frame".

(** A popped frame copied out to a buffer of [len] bytes. *)
Definition copy_out {A} (len : Z) (f : bytes) (a : A) : res (option A) :=
  if len <? Z.of_nat (length f) then Err small_buffer else Ok (Some a).

Definition try_pop_into (gid len : Z) (d : DemuxShared) : res (option bytes) * DemuxShared :=
  if pending d =? 0 then (Ok None, d)
  else
    let st := demux d in
    let rs := drop_stale (inboxes st) (ready st) in
    match inboxes st !! gid with
    | Some (f :: inbox) =>
        (copy_out len f f,
         {| pending := pending d - 1; unknown_group := unknown_group d;
            overflow_dropped := overflow_dropped d;
            demux := {| inboxes := <[gid := inbox]> (inboxes st); ready := rs;
                        pool := recycle (pool st) |} |})
    | _ =>
        (Ok None,
         {| pending := pending d; unknown_group := unknown_group d;
            overflow_dropped := overflow_dropped d;
            demux := {| inboxes := inboxes st; ready := rs; pool := pool st |} |})
    end.

Definition count_unknown (d : DemuxShared) : DemuxShared :=
  {| pending := pending d; unknown_group := unknown_group d + 1;
     overflow_dropped := overflow_dropped d; demux := demux d |}.

Definition park (gid : Z) (frame : bytes) (d : DemuxShared) : DemuxShared :=
  if MAX_FRAME_SIZE <? Z.of_nat (length frame) then count_unknown d
  else
    let st := demux d in
    match inboxes st !! gid with
    | None => count_unknown d
    | Some inbox =>
        let pool' := (pool st - 1)%nat in
        if (MAX_INBOX_FRAMES <=? length inbox)%nat then
          {| pending := pending d; unknown_group := unknown_group d;
             overflow_dropped := overflow_dropped d + 1;
             demux := {| inboxes := inboxes st; ready := ready st; pool := recycle pool' |} |}
        else
          {| pending := pending d + 1; unknown_group := unknown_group d;
             overflow_dropped := overflow_dropped d;
             demux := {| inboxes := <[gid := inbox ++ [frame]]> (inboxes st);
                         ready := if is_nil inbox then ready st ++ [gid] else ready st;
                         pool := pool' |} |}
    end.

(** [while let Some(gid) = ready.pop_front()]: the first group with a frame. *)
Fixpoint pop_ready (boxes : gmap Z (list bytes)) (rs : list Z)
  : option (Z * bytes * list bytes * list Z) :=
  match rs with
  | [] => None
  | g :: rs' =>
      match boxes !! g with
      | Some (f :: inbox) =>
          Some (g, f, inbox, if is_nil inbox then rs' else rs' ++ [g])
      | _ => pop_ready boxes rs'
      end
  end.

Definition pop_parked_into (len : Z) (d : DemuxShared) : res (option (Z * bytes)) * DemuxShared :=
  if pending d =? 0 then (Ok None, d)
  else
    let st := demux d in
    match pop_ready (inboxes st) (ready st) with
    | None =>
        (Ok None,
         {| pending := pending d; unknown_group := unknown_group d;
            overflow_dropped := overflow_dropped d;
            demux := {| inboxes := inboxes st; ready := []; pool := pool st |} |})
    | Some (g, f, inbox, rs) =>
        (copy_out len f (g, f),
         {| pending := pending d - 1; unknown_group := unknown_group d;
            overflow_dropped := overflow_dropped d;
            demux := {| inboxes := <[g := inbox]> (inboxes st); ready := rs;
                        pool := recycle (pool st) |} |})
    end.

(** ** Frames *)

Definition frame_group (buf : bytes) : option Z :=
  if (length buf <? 32)%nat then None else Some (le_value (take 8 (drop 24 buf))).

(** [buf[24..32].copy_from_slice(&gid.to_le_bytes())] *)
Definition stamp (gid : Z) (buf : bytes) : bytes :=
  take 24 buf ++ le_bytes 8 gid ++ drop 32 buf.

(** ** The transport of one group *)

(** The wrapper: the shared inner transport and routing table, the clock it
    reads deadlines from, and the group. *)
Record MultiplexedTransport (T C : Type) := {
  mx_inner : T;
  mx_clock : C;
  mx_group : Z;
  mx_shared : DemuxShared;
}.
Arguments mx_inner {T C} _.
Arguments mx_clock {T C} _.
Arguments mx_group {T C} _.
Arguments mx_shared {T C} _.
Arguments Build_MultiplexedTransport {T C} _ _ _ _.

Section Wrapper.
Context {T C : Type} `{RaftTransport T} `{Clock C}.
Implicit Types t : MultiplexedTransport T C.

Definition set_inner (v : T) t : MultiplexedTransport T C :=
  Build_MultiplexedTransport v (mx_clock t) (mx_group t) (mx_shared t).
Definition set_mx_clock (v : C) t : MultiplexedTransport T C :=
  Build_MultiplexedTransport (mx_inner t) v (mx_group t) (mx_shared t).
Definition set_shared (v : DemuxShared) t : MultiplexedTransport T C :=
  Build_MultiplexedTransport (mx_inner t) (mx_clock t) (mx_group t) v.

(** The slices with the header of the first one stamped. *)
Definition stamped_slices (gid : Z) (slices : list bytes) : option (list bytes) :=
  match slices with
  | [] => None
  | s :: rest =>
      if (length s <? RAFT_FRAME_HEADER_SIZE)%nat then None
      else Some (stamp gid (take RAFT_FRAME_HEADER_SIZE s) :: drop RAFT_FRAME_HEADER_SIZE s :: rest)
  end.

Definition mux_send_vectored (peer : PeerId) (slices : list bytes) t
  : res unit * MultiplexedTransport T C :=
  match stamped_slices (mx_group t) slices with
  | None => (Err (Protocol "multiplex: frame too small to stamp group_id"), t)
  | Some stamped =>
      let '(r, inner) := send_vectored peer stamped (mx_inner t) in (r, set_inner inner t)
  end.

Definition mux_send_frame_owned (peer : PeerId) (frame : bytes) t
  : res unit * MultiplexedTransport T C :=
  if (length frame <? RAFT_FRAME_HEADER_SIZE)%nat
  then (Err (Protocol "multiplex: frame too short to stamp group_id"), t)
  else
    let '(r, inner) := send_frame_owned peer (stamp (mx_group t) frame) (mx_inner t) in
    (r, set_inner inner t).

(** What the wrapper does with a frame that is not its own. *)
Definition divert (f : bytes) (d : DemuxShared) : DemuxShared :=
  match frame_group f with
  | Some g => park g f d
  | None => count_unknown d
  end.

Definition is_own (gid : Z) (f : bytes) : bool :=
  match frame_group f with Some g => g =? gid | None => false end.

Fixpoint mux_recv_loop (fuel : nat) (len : Z) t
  : result (res bytes * MultiplexedTransport T C) Stop :=
  match fuel with
  | O => Err OutOfFuel
  | S fuel' =>
      let '(x, d) := try_pop_into (mx_group t) len (mx_shared t) in
      let t := set_shared d t in
      match x with
      | Err e => Ok (Err e, t)
      | Ok (Some f) => Ok (Ok f, t)
      | Ok None =>
          let '(y, inner) := recv_frame len (mx_inner t) in
          let t := set_inner inner t in
          match y with
          | Err e => Ok (Err e, t)
          | Ok f =>
              if is_own (mx_group t) f then Ok (Ok f, t)
              else mux_recv_loop fuel' len (set_shared (divert f (mx_shared t)) t)
          end
      end
  end.

Fixpoint mux_recv_timeout_loop (fuel : nat) (deadline len : Z) t
  : result (res (option bytes) * MultiplexedTransport T C) Stop :=
  match fuel with
  | O => Err OutOfFuel
  | S fuel' =>
      let '(x, d) := try_pop_into (mx_group t) len (mx_shared t) in
      let t := set_shared d t in
      match x with
      | Err e => Ok (Err e, t)
      | Ok (Some f) => Ok (Ok (Some f), t)
      | Ok None =>
          let '(now, ck) := clock_now (mx_clock t) in
          let t := set_mx_clock ck t in
          let remaining := sat_sub deadline now in
          if remaining =? 0 then Ok (Ok None, t)
          else
            let '(y, inner) := recv_frame_timeout remaining len (mx_inner t) in
            let t := set_inner inner t in
            match y with
            | Err e => Ok (Err e, t)
            | Ok None => Ok (Ok None, t)
            | Ok (Some f) =>
                if is_own (mx_group t) f then Ok (Ok (Some f), t)
                else mux_recv_timeout_loop fuel' deadline len (set_shared (divert f (mx_shared t)) t)
            end
      end
  end.

Definition mux_recv_frame_timeout (fuel : nat) (timeout len : Z) t
  : result (res (option bytes) * MultiplexedTransport T C) Stop :=
  let '(now, ck) := clock_now (mx_clock t) in
  mux_recv_timeout_loop fuel (now + timeout) len (set_mx_clock ck t).
End Wrapper.
