(* ===== verification/MultiplexFacts.v ===== *)
(** * MultiplexFacts: the demultiplexer is a map of bounded queues

    The counter of parked frames, the [ready] list and the buffer pool of
    [DemuxShared] are bookkeeping: every sequence of calls has the answers and the
    effects of a run of a plain map of queues ([demux_refines_queues]).  On top of it, a group's receive loop returns,
    delivers only the group's own frames, and diverts every other one. *)

From stdpp Require Import base list sets gmap strings numbers relations.
From Stdlib Require Import ZArith Lia.
From S2P Require Import Prelude Types Wire Codec CodecFacts Arena Progress Quorum Traits NodeState.
From S2P Require Import Multiplex.

Local Open Scope Z_scope.

(** ** The specification *)

Record Queues := {
  q_boxes : gmap Z (list bytes);
  q_unknown : Z;
  q_overflow : Z;
}.

Definition queues (d : DemuxShared) : Queues :=
  {| q_boxes := inboxes (demux d); q_unknown := unknown_group d; q_overflow := overflow_dropped d |}.

Definition q_set (g : Z) (q : list bytes) (s : Queues) : Queues :=
  {| q_boxes := <[g := q]> (q_boxes s); q_unknown := q_unknown s; q_overflow := q_overflow s |}.

(** A frame for a group without a queue, or too large, is counted; one for a
    full queue is shed; any other joins the queue of its group. *)
Definition q_divert (s : Queues) (f : bytes) : Queues :=
  let unknown := {| q_boxes := q_boxes s; q_unknown := q_unknown s + 1; q_overflow := q_overflow s |} in
  match frame_group f with
  | None => unknown
  | Some g =>
      match q_boxes s !! g with
      | None => unknown
      | Some q =>
          if MAX_FRAME_SIZE <? Z.of_nat (length f) then unknown
          else if (MAX_INBOX_FRAMES <=? length q)%nat
          then {| q_boxes := q_boxes s; q_unknown := q_unknown s; q_overflow := q_overflow s + 1 |}
          else q_set g (q ++ [f]) s
      end
  end.

(** ** The invariant *)

Definition total (boxes : gmap Z (list bytes)) : Z :=
  map_fold (fun _ q n => Z.of_nat (length q) + n) 0 boxes.

Definition queue_ok (g : Z) (q : list bytes) : Prop :=
  (length q <= MAX_INBOX_FRAMES)%nat /\
  Forall (fun f => frame_group f = Some g /\ Z.of_nat (length f) <= MAX_FRAME_SIZE) q.

Record demux_ok (d : DemuxShared) : Prop := {
  ok_pending : pending d = total (inboxes (demux d));
  ok_ready g : has_frames (inboxes (demux d)) g = true -> g ∈ ready (demux d);
  ok_queues : map_Forall queue_ok (inboxes (demux d));
}.

Lemma total_delete boxes g q :
  boxes !! g = Some q -> total boxes = Z.of_nat (length q) + total (delete g boxes).
Proof.
  intros Hq. unfold total. rewrite (map_fold_delete_L _ _ g q); [done| |done].
  intros. lia.
Qed.

Lemma total_insert boxes g q : boxes !! g = None -> total (<[g := q]> boxes) = Z.of_nat (length q) + total boxes.
Proof. intros Hq. unfold total. rewrite map_fold_insert_L; [done| |done]. intros. lia. Qed.

Lemma total_update boxes g q q' :
  boxes !! g = Some q ->
  total (<[g := q']> boxes) = total boxes + Z.of_nat (length q') - Z.of_nat (length q).
Proof.
  intros Hq. rewrite (total_delete boxes g q) by done.
  rewrite (total_delete (<[g := q']> boxes) g q') by apply lookup_insert_eq.
  rewrite delete_insert_eq. lia.
Qed.

Lemma total_nonneg boxes : 0 <= total boxes.
Proof. unfold total. apply (map_fold_weak_ind (fun n _ => 0 <= n)); [done|]. intros. lia. Qed.

Lemma total_zero boxes g q : total boxes = 0 -> boxes !! g = Some q -> q = [].
Proof.
  intros Ht Hq. rewrite (total_delete boxes g q) in Ht by done.
  pose proof (total_nonneg (delete g boxes)). destruct q; [done|cbn in Ht; lia].
Qed.

Lemma has_frames_true boxes g : has_frames boxes g = true <-> exists f q, boxes !! g = Some (f :: q).
Proof.
  unfold has_frames. split; [destruct (boxes !! g) as [[|f q]|]; eauto; done|].
  by intros (f & q & ->).
Qed.

Lemma drop_stale_keeps boxes rs g : has_frames boxes g = true -> g ∈ rs -> g ∈ drop_stale boxes rs.
Proof.
  intros Hg. induction rs as [|x rs IH]; [done|]. cbn. intros [<-|Hin]%elem_of_cons.
  - rewrite Hg. apply elem_of_cons. by left.
  - destruct (has_frames boxes x); [apply elem_of_cons; by right|by apply IH].
Qed.

(** A queue that only shrinks keeps its group ready. *)
Lemma has_frames_update boxes g x q :
  has_frames (<[x := q]> boxes) g = true ->
  (g = x /\ q <> []) \/ (g <> x /\ has_frames boxes g = true).
Proof.
  unfold has_frames. destruct (decide (g = x)) as [->|Hne].
  - rewrite lookup_insert_eq. destruct q; [done|]. by left.
  - rewrite lookup_insert_ne by done. by right.
Qed.

Lemma pop_ready_spec boxes rs :
  match pop_ready boxes rs with
  | Some (g, f, q, rs') =>
      boxes !! g = Some (f :: q) /\
      (forall x, has_frames (<[g := q]> boxes) x = true -> x ∈ rs -> x ∈ rs')
  | None => forall x, x ∈ rs -> has_frames boxes x = false
  end.
Proof.
  induction rs as [|g rs IH]; cbn [pop_ready]; [by intros x []%not_elem_of_nil|].
  destruct (boxes !! g) as [[|f q]|] eqn:Hg.
  1, 3: assert (Hn : has_frames boxes g = false) by (unfold has_frames; by rewrite Hg);
    destruct (pop_ready boxes rs) as [[[[g' f'] q'] rs']|];
    [ destruct IH as [Hb IH]; split; [done|]; intros x Hx [->|Hin]%elem_of_cons; [|by apply IH];
      apply has_frames_update in Hx as [[-> _]|[_ Hx]]; congruence
    | by intros x [->|Hin]%elem_of_cons; [|apply IH] ].
  split; [done|]. intros x Hx [->|Hin]%elem_of_cons.
  - apply has_frames_update in Hx as [[_ Hq]|[Hne _]]; [|done]. destruct q; [done|]. cbn.
    apply elem_of_app. right. by apply list_elem_of_singleton.
  - destruct (is_nil q); [done|]. apply elem_of_app. by left.
Qed.

Lemma queue_ok_tail g f q : queue_ok g (f :: q) -> queue_ok g q.
Proof. intros [Hl [_ Hf]%Forall_cons]. split; [cbn in Hl; lia|done]. Qed.

(** ** Operations against the specification *)

(** Taking the head of a queue. *)
Lemma ok_take d g f q rs p u o :
  demux_ok d -> inboxes (demux d) !! g = Some (f :: q) ->
  (forall x, has_frames (<[g := q]> (inboxes (demux d))) x = true -> x ∈ ready (demux d) -> x ∈ rs) ->
  demux_ok {| pending := pending d - 1; unknown_group := u; overflow_dropped := o;
              demux := {| inboxes := <[g := q]> (inboxes (demux d)); ready := rs; pool := p |} |}.
Proof.
  intros [Hp Hr Hq] Hg Hrs. split; cbn.
  - rewrite (total_update _ _ _ _ Hg), Hp. cbn [length]. lia.
  - intros x Hx. apply Hrs; [done|]. apply Hr.
    apply has_frames_update in Hx as [[-> _]|[_ Hx]]; [|done]. apply has_frames_true. eauto.
  - apply map_Forall_insert_2; [|done]. eapply queue_ok_tail. by apply (Hq g).
Qed.

(** A fast path taken means there is nothing parked. *)
Lemma fast_path d g : demux_ok d -> pending d = 0 -> has_frames (inboxes (demux d)) g = false.
Proof.
  intros Hd H0. destruct (has_frames _ g) eqn:Hf; [|done].
  apply has_frames_true in Hf as (f & q & Hq). rewrite (ok_pending d Hd) in H0.
  by pose proof (total_zero _ _ _ H0 Hq).
Qed.

Lemma try_pop_spec g len d :
  demux_ok d ->
  let '(x, d') := try_pop_into g len d in
  demux_ok d' /\
  match q_boxes (queues d) !! g with
  | Some (f :: q) => x = copy_out len f f /\ queues d' = q_set g q (queues d)
  | _ => x = Ok None /\ queues d' = queues d
  end.
Proof.
  intros Hd. unfold try_pop_into. cbn [queues q_boxes].
  destruct (Z.eqb_spec (pending d) 0) as [H0|_].
  { split; [done|]. pose proof (fast_path d g Hd H0) as Hf. unfold has_frames in Hf.
    by destruct (inboxes (demux d) !! g) as [[|??]|]. }
  assert (Hk : forall x, has_frames (inboxes (demux d)) x = true -> x ∈ ready (demux d) ->
    x ∈ drop_stale (inboxes (demux d)) (ready (demux d)))
    by (intros; by apply drop_stale_keeps).
  destruct (inboxes (demux d) !! g) as [[|f q]|] eqn:Hg.
  1, 3: split; [|done]; destruct Hd as [Hp Hr Hq]; split; cbn; [done| |done];
    intros x Hx; by apply Hk, Hr.
  split; [|done]. apply (ok_take d g f q); [done|done|]. intros x Hx. apply Hk.
  apply has_frames_update in Hx as [[-> _]|[_ Hx]]; [|done]. apply has_frames_true. eauto.
Qed.

Lemma pop_parked_spec len d :
  demux_ok d ->
  let '(x, d') := pop_parked_into len d in
  demux_ok d' /\
  ((exists g f q, q_boxes (queues d) !! g = Some (f :: q) /\ x = copy_out len f (g, f) /\
                  queues d' = q_set g q (queues d)) \/
   (x = Ok None /\ queues d' = queues d /\ forall g, has_frames (q_boxes (queues d)) g = false)).
Proof.
  intros Hd. unfold pop_parked_into. cbn [queues q_boxes].
  destruct (Z.eqb_spec (pending d) 0) as [H0|_].
  { split; [done|]. right. split; [done|]. split; [done|]. intros g. by apply fast_path. }
  pose proof (pop_ready_spec (inboxes (demux d)) (ready (demux d))) as Hs.
  destruct (pop_ready _ _) as [[[[g f] q] rs]|].
  - destruct Hs as [Hg Hrs]. split; [by apply (ok_take d g f q)|]. left. by exists g, f, q.
  - assert (Hn : forall g, has_frames (inboxes (demux d)) g = false).
    { intros g. destruct (has_frames _ g) eqn:Hf; [|done]. pose proof (ok_ready d Hd g Hf) as Hin.
      by rewrite (Hs g Hin) in Hf. }
    split; [|by right]. destruct Hd as [Hp Hr Hq]. split; cbn; [done| |done].
    intros g Hf. by rewrite Hn in Hf.
Qed.

Lemma divert_spec f d : demux_ok d -> demux_ok (divert f d) /\ queues (divert f d) = q_divert (queues d) f.
Proof.
  intros [Hp Hr Hq]. unfold divert, q_divert, park. cbn [queues q_boxes].
  destruct (frame_group f) as [g|] eqn:Hf; [|done].
  destruct (Z.ltb_spec MAX_FRAME_SIZE (Z.of_nat (length f))) as [Hbig|Hfits];
    [by destruct (inboxes (demux d) !! g)|].
  destruct (inboxes (demux d) !! g) as [q|] eqn:Hg; [|done].
  destruct (Nat.leb_spec MAX_INBOX_FRAMES (length q)) as [Hfull|Hroom]; [done|].
  split; [|done]. split; cbn.
  - rewrite (total_update _ _ _ _ Hg), Hp, length_app. cbn [length]. lia.
  - intros x Hx. apply has_frames_update in Hx as [[-> _]|[Hne Hx]].
    + destruct q; cbn; [apply elem_of_app; right; by apply list_elem_of_singleton|].
      apply Hr, has_frames_true. eauto.
    + apply Hr in Hx. destruct (is_nil q); [|done]. apply elem_of_app. by left.
  - apply map_Forall_insert_2; [|done]. destruct (Hq g q Hg) as [Hl Hall].
    split; [rewrite length_app; cbn; lia|]. apply Forall_app. split; [done|].
    by apply Forall_singleton.
Qed.

Lemma register_ok g d : demux_ok d -> demux_ok (register g d).
Proof.
  intros [Hp Hr Hq]. split; cbn; destruct (inboxes (demux d) !! g) as [q|] eqn:Hg; auto.
  - by rewrite total_insert.
  - intros x Hx. apply has_frames_update in Hx as [[_ Hne]|[_ Hx]]; [done|auto].
  - apply map_Forall_insert_2; [|done]. split; [cbn; lia|done].
Qed.

Lemma unregister_ok g d : demux_ok d -> demux_ok (unregister g d).
Proof.
  intros Hd. unfold unregister. destruct (inboxes (demux d) !! g) as [q|] eqn:Hg; [|done].
  destruct Hd as [Hp Hr Hq]. split; cbn.
  - rewrite Hp, (total_delete _ _ _ Hg). lia.
  - intros x. unfold has_frames. destruct (decide (x = g)) as [->|Hne].
    + by rewrite lookup_delete_eq.
    + rewrite lookup_delete_ne by done. apply Hr.
  - by apply map_Forall_delete.
Qed.

Lemma demux_new_ok : demux_ok demux_new.
Proof. split; [done| |apply map_Forall_empty]. intros g. unfold has_frames. cbn. by rewrite lookup_empty. Qed.

(** What the wrappers and the driver do to the shared table, in any order. *)
Inductive demux_step : DemuxShared -> DemuxShared -> Prop :=
| step_register g d : demux_step d (register g d)
| step_unregister g d : demux_step d (unregister g d)
| step_try_pop g len d : demux_step d (try_pop_into g len d).2
| step_pop_parked len d : demux_step d (pop_parked_into len d).2
| step_divert f d : demux_step d (divert f d).

Lemma demux_steps_ok d d' : demux_ok d -> rtc demux_step d d' -> demux_ok d'.
Proof.
  intros Hd Hr. induction Hr as [|d d1 d2 Hs _ IH]; [done|]. apply IH. destruct Hs as [g d|g d|g len d|len d|f d].
  - by apply register_ok.
  - by apply unregister_ok.
  - pose proof (try_pop_spec g len d Hd) as Ht. by destruct (try_pop_into g len d) as [x d'], Ht.
  - pose proof (pop_parked_spec len d Hd) as Ht. by destruct (pop_parked_into len d) as [x d'], Ht.
  - by apply divert_spec.
Qed.

(** ** Runs *)

(** The calls on the shared table. *)
Inductive DemuxOp :=
| Register (g : Z)
| Unregister (g : Z)
| TryPop (g len : Z)
| PopParked (len : Z)
| Divert (f : bytes).

(** A call on the demultiplexer and its answer: the frame with its group. *)
Definition demux_op (op : DemuxOp) (d : DemuxShared) : res (option (Z * bytes)) * DemuxShared :=
  match op with
  | Register g => (Ok None, register g d)
  | Unregister g => (Ok None, unregister g d)
  | TryPop g len =>
      let '(x, d) := try_pop_into g len d in
      (match x with Ok o => Ok (option_map (fun f => (g, f)) o) | Err e => Err e end, d)
  | PopParked len => pop_parked_into len d
  | Divert f => (Ok None, divert f d)
  end.

Fixpoint demux_run (ops : list DemuxOp) (d : DemuxShared)
  : list (res (option (Z * bytes))) * DemuxShared :=
  match ops with
  | [] => ([], d)
  | op :: ops => let '(x, d) := demux_op op d in let '(xs, d) := demux_run ops d in (x :: xs, d)
  end.

(** What a call does to the queues: a frame joins the end of the queue of its group,
    the head of a queue is taken, a queue is thrown away, or none of these. *)
Inductive QueueEvent :=
| Joined (g : Z) (f : bytes)
| Took (g : Z) (f : bytes)
| Discarded (g : Z) (q : list bytes)
| Nothing.

(** The specification of the calls. *)
Inductive q_step (s : Queues) : DemuxOp -> QueueEvent -> Queues -> Prop :=
| q_register_known g q :
    q_boxes s !! g = Some q -> q_step s (Register g) Nothing s
| q_register_new g :
    q_boxes s !! g = None -> q_step s (Register g) Nothing (q_set g [] s)
| q_unregister_known g q :
    q_boxes s !! g = Some q ->
    q_step s (Unregister g) (Discarded g q)
      {| q_boxes := delete g (q_boxes s); q_unknown := q_unknown s; q_overflow := q_overflow s |}
| q_unregister_none g :
    q_boxes s !! g = None -> q_step s (Unregister g) Nothing s
| q_pop g len f q :
    q_boxes s !! g = Some (f :: q) -> q_step s (TryPop g len) (Took g f) (q_set g q s)
| q_pop_none g len :
    has_frames (q_boxes s) g = false -> q_step s (TryPop g len) Nothing s
| q_pop_any len g f q :
    q_boxes s !! g = Some (f :: q) -> q_step s (PopParked len) (Took g f) (q_set g q s)
| q_pop_any_none len :
    (forall g, has_frames (q_boxes s) g = false) -> q_step s (PopParked len) Nothing s
| q_join f g q :
    frame_group f = Some g -> q_boxes s !! g = Some q -> Z.of_nat (length f) <= MAX_FRAME_SIZE ->
    (length q < MAX_INBOX_FRAMES)%nat ->
    q_step s (Divert f) (Joined g f) (q_set g (q ++ [f]) s)
| q_full f g q :
    frame_group f = Some g -> q_boxes s !! g = Some q -> Z.of_nat (length f) <= MAX_FRAME_SIZE ->
    (MAX_INBOX_FRAMES <= length q)%nat ->
    q_step s (Divert f) Nothing
      {| q_boxes := q_boxes s; q_unknown := q_unknown s; q_overflow := q_overflow s + 1 |}
| q_unknown_frame f :
    match frame_group f with
    | Some g => q_boxes s !! g = None \/ MAX_FRAME_SIZE < Z.of_nat (length f)
    | None => True
    end ->
    q_step s (Divert f) Nothing
      {| q_boxes := q_boxes s; q_unknown := q_unknown s + 1; q_overflow := q_overflow s |}.

Inductive q_run : list DemuxOp -> Queues -> list QueueEvent -> Queues -> Prop :=
| q_run_nil s : q_run [] s [] s
| q_run_cons op ops s e s1 es s2 :
    q_step s op e s1 -> q_run ops s1 es s2 -> q_run (op :: ops) s (e :: es) s2.

(** The answer the caller gets: a taken frame in full, or an error (the frame is
    gone) when the caller's buffer is too short for it. *)
Definition answer (op : DemuxOp) (e : QueueEvent) : res (option (Z * bytes)) :=
  match op, e with
  | TryPop _ len, Took g f | PopParked len, Took g f => copy_out len f (g, f)
  | _, _ => Ok None
  end.

(** The frames that joined the queue of [g], and those that left it, in order. *)
Definition joined (g : Z) (es : list QueueEvent) : list bytes :=
  concat (map (fun e => match e with Joined x f => if x =? g then [f] else [] | _ => [] end) es).
Definition gone (g : Z) (es : list QueueEvent) : list bytes :=
  concat (map (fun e => match e with
                        | Took x f => if x =? g then [f] else []
                        | Discarded x q => if x =? g then q else []
                        | _ => []
                        end) es).
Definition waiting (g : Z) (s : Queues) : list bytes := default [] (q_boxes s !! g).

Lemma demux_op_refines op d :
  demux_ok d ->
  let '(x, d') := demux_op op d in
  demux_ok d' /\ exists e, q_step (queues d) op e (queues d') /\ x = answer op e.
Proof.
  intros Hd. destruct op as [g|g|g len|len|f]; cbn [demux_op].
  - split; [by apply register_ok|]. exists Nothing. split; [|done]. unfold queues, register. cbn.
    destruct (inboxes (demux d) !! g) as [q|] eqn:Hg; [by eapply q_register_known|by apply q_register_new].
  - split; [by apply unregister_ok|]. unfold unregister.
    destruct (inboxes (demux d) !! g) as [q|] eqn:Hg.
    + exists (Discarded g q). split; [|done]. by apply q_unregister_known.
    + exists Nothing. split; [|done]. by apply q_unregister_none.
  - pose proof (try_pop_spec g len d Hd) as Ht. destruct (try_pop_into g len d) as [x d'].
    destruct Ht as [Hd' Ht]. split; [done|]. destruct (q_boxes (queues d) !! g) as [[|f q]|] eqn:Hg.
    1, 3: destruct Ht as [-> ->]; exists Nothing; split; [|done]; apply q_pop_none;
      unfold has_frames; by rewrite Hg.
    destruct Ht as [-> ->]. exists (Took g f). split; [by apply q_pop|]. cbn. unfold copy_out.
    by destruct (_ <? _).
  - pose proof (pop_parked_spec len d Hd) as Ht. destruct (pop_parked_into len d) as [x d'].
    destruct Ht as [Hd' [(g & f & q & Hg & -> & ->)|(-> & -> & Hn)]]; (split; [done|]).
    + exists (Took g f). split; [by apply q_pop_any|done].
    + exists Nothing. split; [by apply q_pop_any_none|done].
  - destruct (divert_spec f d Hd) as [Hd' ->]. split; [done|]. unfold q_divert.
    destruct (frame_group f) as [g|] eqn:Hf; [|exists Nothing; split; [apply q_unknown_frame; by rewrite Hf|done]].
    destruct (q_boxes (queues d) !! g) as [q|] eqn:Hg;
      [|exists Nothing; split; [apply q_unknown_frame; rewrite Hf; by left|done]].
    destruct (Z.ltb_spec MAX_FRAME_SIZE (Z.of_nat (length f)));
      [exists Nothing; split; [apply q_unknown_frame; rewrite Hf; by right|done]|].
    destruct (Nat.leb_spec MAX_INBOX_FRAMES (length q)).
    + exists Nothing. split; [by eapply q_full|done].
    + exists (Joined g f). split; [by apply q_join|done].
Qed.

Lemma demux_run_refines ops d :
  demux_ok d ->
  let '(xs, d') := demux_run ops d in
  demux_ok d' /\ exists es, q_run ops (queues d) es (queues d') /\ xs = zip_with answer ops es.
Proof.
  revert d. induction ops as [|op ops IH]; intros d Hd; cbn [demux_run].
  { split; [done|]. exists []. split; [constructor|done]. }
  pose proof (demux_op_refines op d Hd) as Hop. destruct (demux_op op d) as [x d1].
  destruct Hop as [Hd1 (e & He & ->)]. specialize (IH d1 Hd1).
  destruct (demux_run ops d1) as [xs d2]. destruct IH as [Hd2 (es & Hes & ->)].
  split; [done|]. exists (e :: es). split; [by econstructor|done].
Qed.

(** One call: what was waiting and what joined is what left and what waits. *)
Lemma q_step_fifo s op e s' g :
  q_step s op e s' -> gone g [e] ++ waiting g s' = waiting g s ++ joined g [e].
Proof.
  unfold waiting, gone, joined. cbn [map concat].
  destruct 1 as [x q Hx|x Hx|x q Hx|x Hx|x len f q Hx|x len Hx|len x f q Hx|len Hx|f x q Hf Hx _ _|f x q Hf Hx _ _|f Hf];
    cbn; rewrite ?app_nil_r; try done; destruct (Z.eqb_spec x g) as [->|Hne]; cbn;
    rewrite ?lookup_insert_eq, ?lookup_insert_ne, ?lookup_delete_eq, ?lookup_delete_ne by done;
    rewrite ?Hx; cbn; rewrite ?app_nil_r; done.
Qed.

Lemma q_run_fifo ops s es s' g :
  q_run ops s es s' -> gone g es ++ waiting g s' = waiting g s ++ joined g es.
Proof.
  induction 1 as [s|op ops s e s1 es s2 Hs _ IH]; [by rewrite app_nil_r|].
  pose proof (q_step_fifo _ _ _ _ g Hs) as E.
  change (gone g (e :: es)) with (gone g ([e] ++ es)). change (joined g (e :: es)) with (joined g ([e] ++ es)).
  unfold gone, joined in *. rewrite !map_app, !concat_app, <- app_assoc, IH, !app_assoc. by rewrite E.
Qed.

(** C24: the demultiplexer refines a map of bounded queues.  For every sequence of
    calls on a new demultiplexer there is a run of the queues that gives each call
    the same answer and ends in the same queues and counters: registering keeps a
    queue or makes an empty one, unregistering throws the queue away, a group's pop
    takes the head of its own queue or nothing when it is empty, the driver's pop
    takes the head of some queue and nothing only when all are empty, and a diverted
    frame joins the queue its header names, or is counted (no such queue, or too
    large) or shed (queue full).  So the frames that left a group's queue and those
    still in it are, in order, the frames that joined it; a pop into a buffer that
    is too short takes the frame and fails.  No queue is longer than its bound or
    has a frame of another group. *)
Theorem demux_refines_queues ops :
  let '(answers, d) := demux_run ops demux_new in
  (exists es, q_run ops (queues demux_new) es (queues d) /\ answers = zip_with answer ops es /\
     forall g, gone g es ++ waiting g (queues d) = joined g es) /\
  map_Forall queue_ok (inboxes (demux d)).
Proof.
  pose proof (demux_run_refines ops demux_new demux_new_ok) as Hr.
  destruct (demux_run ops demux_new) as [xs d]. destruct Hr as [Hd (es & Hes & ->)].
  split; [|apply Hd]. exists es. split; [done|]. split; [done|]. intros g.
  exact (q_run_fifo _ _ _ _ g Hes).
Qed.

(** A frame of group [g]: its header names the group. *)
Definition group_frame (g : Z) : bytes := stamp g (replicate 40 (to_byte 7)).

(** Two groups: both pops, a buffer that is too short, and a group taken down. *)
Lemma demux_run_example :
  (demux_run [Register 1; Register 2; Divert (group_frame 2); Divert (group_frame 1); Divert (group_frame 2);
              PopParked MAX_FRAME_SIZE; TryPop 2 3; Unregister 1; PopParked MAX_FRAME_SIZE] demux_new).1 =
  [Ok None; Ok None; Ok None; Ok None; Ok None;
   Ok (Some (2, group_frame 2)); Err small_buffer; Ok None; Ok None].
Proof. vm_compute. reflexivity. Qed.

(** ** Receiving *)

(** A transport that hands over its frames one at a time, in order: "receive the
    next incoming raw frame". *)
Class FifoTransport (T : Type) `{TransportLaws T} := {
  recv_timeout_fifo timeout len t r t' :
    recv_frame_timeout timeout len t = (r, t') ->
    match r with
    | Ok (Some f) => inbox t = f :: inbox t'
    | Ok None => inbox t' = inbox t
    | Err _ => True
    end;
}.

#[export] Instance QueueTransport_fifo : FifoTransport QueueTransport.
Proof. split. intros timeout len [s [|f fs]] r t'; cbn; intros [= <- <-]; done. Qed.

Section Receive.
Context {T C : Type} `{FifoTransport T} `{Clock C}.
Implicit Types t : MultiplexedTransport T C.

Definition own_queue t : list bytes := default [] (q_boxes (queues (mx_shared t)) !! mx_group t).

(** What a receive did with the frames [fs] it took from the inner transport
    and passed on. *)
Definition passed_on (t t' : MultiplexedTransport T C) (fs : list bytes) : Prop :=
  Forall (fun f => is_own (mx_group t) f = false) fs /\
  queues (mx_shared t') = foldl q_divert (queues (mx_shared t)) fs.

Lemma own_queue_divert t f d :
  is_own (mx_group t) f = false -> queues d = q_divert (queues (mx_shared t)) f ->
  own_queue (set_shared d t) = own_queue t.
Proof.
  intros Ho Hd. unfold own_queue. cbn [mx_shared mx_group set_shared]. rewrite Hd.
  unfold q_divert, is_own in *. destruct (frame_group f) as [g|]; [|done].
  destruct (q_boxes (queues (mx_shared t)) !! g) as [q|]; [|done].
  repeat case_match; try done. cbn. rewrite lookup_insert_ne by lia. done.
Qed.

(** The outcome of a receive that started with [t]. *)
Definition received (len : Z) t (x : res (option bytes)) (t' : MultiplexedTransport T C) : Prop :=
  match own_queue t with
  | f :: q =>
      x = copy_out len f f /\ mx_inner t' = mx_inner t /\
      queues (mx_shared t') = q_set (mx_group t) q (queues (mx_shared t))
  | [] => exists fs, passed_on t t' fs /\
      match x with
      | Ok (Some f) => is_own (mx_group t) f = true /\ inbox (mx_inner t) = fs ++ f :: inbox (mx_inner t')
      | Ok None => inbox (mx_inner t) = fs ++ inbox (mx_inner t')
      | Err _ => fs `prefix_of` inbox (mx_inner t)
      end
  end.

(** A frame passed on first. *)
Lemma received_after len t f t1 x t' :
  own_queue t = [] -> is_own (mx_group t) f = false ->
  inbox (mx_inner t) = f :: inbox (mx_inner t1) -> mx_group t1 = mx_group t ->
  own_queue t1 = [] -> queues (mx_shared t1) = q_divert (queues (mx_shared t)) f ->
  received len t1 x t' -> received len t x t'.
Proof.
  intros Hq Ho Hi Hg Hq1 Hd. unfold received. rewrite Hq, Hq1. intros (fs & [Hall Hs] & Hx).
  rewrite Hg in *. exists (f :: fs). split.
  - split; [by constructor|]. cbn. by rewrite Hs, Hd.
  - rewrite Hi. destruct x as [[g|]|e]; cbn.
    + destruct Hx as [? ->]. done.
    + by rewrite Hx.
    + by apply prefix_cons.
Qed.

Lemma own_queue_pop t len :
  demux_ok (mx_shared t) ->
  let '(x, d) := try_pop_into (mx_group t) len (mx_shared t) in
  demux_ok d /\
  match own_queue t with
  | f :: q => x = copy_out len f f /\ queues d = q_set (mx_group t) q (queues (mx_shared t))
  | [] => x = Ok None /\ queues d = queues (mx_shared t)
  end.
Proof.
  intros Hd. pose proof (try_pop_spec (mx_group t) len (mx_shared t) Hd) as Hpop. unfold own_queue.
  destruct (try_pop_into _ _ _) as [x d]. by destruct (_ !! _) as [[|f q]|].
Qed.

Lemma mux_recv_timeout_loop_spec fuel deadline len t :
  demux_ok (mx_shared t) -> (length (inbox (mx_inner t)) < fuel)%nat ->
  exists x t', mux_recv_timeout_loop fuel deadline len t = Ok (x, t') /\
    demux_ok (mx_shared t') /\ mx_group t' = mx_group t /\
    sent (mx_inner t') = sent (mx_inner t) /\ received len t x t'.
Proof.
  revert t. induction fuel as [|fuel IH]; intros t Hd Hlen; [lia|]. cbn [mux_recv_timeout_loop].
  pose proof (own_queue_pop t len Hd) as Hpop. destruct (try_pop_into _ _ _) as [x d].
  destruct Hpop as [Hd1 Hpop]. destruct (own_queue t) as [|f q] eqn:Hown.
  2: { destruct Hpop as [-> Hs]. unfold copy_out. destruct (len <? _) eqn:Hfit;
         (eexists _, _; split; [reflexivity|]; do 3 (split; [done|]));
         unfold received, copy_out; by rewrite Hown, Hfit. }
  destruct Hpop as [-> Hs]. cbn [mx_clock set_shared]. destruct (clock_now (mx_clock t)) as [now ck].
  (* nothing passed on so far *)
  assert (Hend : forall x t', mx_shared t' = d -> mx_group t' = mx_group t ->
    sent (mx_inner t') = sent (mx_inner t) ->
    match x with
    | Ok (Some f) => is_own (mx_group t) f = true /\ inbox (mx_inner t) = f :: inbox (mx_inner t')
    | Ok None => inbox (mx_inner t) = inbox (mx_inner t')
    | Err _ => True
    end -> demux_ok (mx_shared t') /\ mx_group t' = mx_group t /\
    sent (mx_inner t') = sent (mx_inner t) /\ received len t x t').
  { intros x t' <- Hg Hsent Hx. do 3 (split; [done|]). unfold received. rewrite Hown. exists [].
    split; [by split|]. destruct x as [[f|]|e]; [done|done|apply prefix_nil]. }
  destruct (sat_sub deadline now =? 0); [eexists _, _; split; [reflexivity|by apply Hend]|].
  cbn [mx_inner set_mx_clock set_shared].
  destruct (recv_frame_timeout _ _ _) as [y inner] eqn:Er.
  pose proof (recv_frame_timeout_law _ _ _ _ _ Er) as [Hsent _].
  pose proof (recv_timeout_fifo _ _ _ _ _ Er) as Hf.
  destruct y as [[f|]|e]; [|eexists _, _; split; [reflexivity|by apply Hend]..].
  cbn [mx_group mx_shared set_inner set_mx_clock set_shared].
  destruct (is_own (mx_group t) f) eqn:Ho; [eexists _, _; split; [reflexivity|by apply Hend]|].
  destruct (divert_spec f d Hd1) as [Hd2 Hq2]. rewrite Hs in Hq2.
  set (t1 := set_shared (divert f d) _). assert (Hown1 : own_queue t1 = []).
  { rewrite <- Hown. by apply (own_queue_divert t f (divert f d)). }
  destruct (IH t1 Hd2) as (x & t' & E & Hd' & Hg' & Hs' & Hr).
  { cbn. rewrite Hf in Hlen. cbn in Hlen. lia. }
  exists x, t'. split; [done|]. do 3 (split; [done||by rewrite Hs'|]).
  by apply (received_after len t f t1).
Qed.
End Receive.

(** C25: receiving on a group's transport returns, and does with every frame what
    its header says: when frames are parked for the group the oldest one is
    handed over; otherwise frames are taken from the shared transport in order,
    those of other groups joining the queue of their group, until one of the
    group's own arrives, which is the one returned, or nothing comes in time. *)
Theorem mux_recv_routes {T C : Type} `{FifoTransport T} `{Clock C} fuel timeout len
  (t : MultiplexedTransport T C) :
  rtc demux_step demux_new (mx_shared t) -> (length (inbox (mx_inner t)) < fuel)%nat ->
  exists x t', mux_recv_frame_timeout fuel timeout len t = Ok (x, t') /\
    demux_ok (mx_shared t') /\ mx_group t' = mx_group t /\
    sent (mx_inner t') = sent (mx_inner t) /\
    match own_queue t with
    | f :: q =>
        x = copy_out len f f /\ mx_inner t' = mx_inner t /\
        queues (mx_shared t') = q_set (mx_group t) q (queues (mx_shared t))
    | [] => exists fs,
        Forall (fun f => is_own (mx_group t) f = false) fs /\
        queues (mx_shared t') = foldl q_divert (queues (mx_shared t)) fs /\
        match x with
        | Ok (Some f) => is_own (mx_group t) f = true /\
                         inbox (mx_inner t) = fs ++ f :: inbox (mx_inner t')
        | Ok None => inbox (mx_inner t) = fs ++ inbox (mx_inner t')
        | Err _ => fs `prefix_of` inbox (mx_inner t)
        end
    end.
Proof.
  intros Hr Hlen. pose proof (demux_steps_ok _ _ demux_new_ok Hr) as Hd.
  unfold mux_recv_frame_timeout. destruct (clock_now (mx_clock t)) as [now ck].
  destruct (mux_recv_timeout_loop_spec fuel (now + timeout) len (set_mx_clock ck t) Hd Hlen)
    as (x & t' & E & Hd' & Hg & Hs & Hrec).
  exists x, t'. do 4 (split; [done|]). unfold received, passed_on in Hrec.
  change (own_queue (set_mx_clock ck t)) with (own_queue t) in Hrec.
  destruct (own_queue t); [|done]. destruct Hrec as (fs & [??] & ?). by exists fs.
Qed.

(** Group 1 receives: a frame of group 2 comes first. *)
Definition first_group : MultiplexedTransport QueueTransport TickClock :=
  {| mx_inner := {| qt_sent := []; qt_inbound := [group_frame 2; group_frame 1] |};
     mx_clock := {| tick_now := 0; tick_step := 1 |};
     mx_group := 1; mx_shared := register 2 (register 1 demux_new) |}.

Lemma mux_recv_routes_witness :
  exists x t', mux_recv_frame_timeout 3 100 MAX_FRAME_SIZE first_group = Ok (x, t') /\
    demux_ok (mx_shared t').
Proof.
  assert (Hr : rtc demux_step demux_new (mx_shared first_group)).
  { eapply rtc_l; [apply (step_register 1)|]. eapply rtc_l; [apply (step_register 2)|].
    apply rtc_refl. }
  assert (Hlen : (length (inbox (mx_inner first_group)) < 3)%nat) by (cbn; lia).
  pose proof (mux_recv_routes 3 100 MAX_FRAME_SIZE first_group Hr Hlen) as (x & t' & E & Hd & _).
  exists x, t'. split; [exact E|exact Hd].
Defined.

(** ** Sending *)

Lemma take_stamp gid buf :
  (32 <= length buf)%nat -> take 8 (drop 24 (stamp gid buf)) = le_bytes 8 gid.
Proof.
  intros Hl. unfold stamp. rewrite drop_app_length' by (rewrite length_take; lia).
  by rewrite take_app_length' by (by rewrite length_le_bytes).
Qed.

Lemma length_stamp gid buf : (32 <= length buf)%nat -> length (stamp gid buf) = length buf.
Proof.
  intros Hl. unfold stamp. rewrite !length_app, length_take, length_drop, length_le_bytes. lia.
Qed.

Lemma frame_group_stamp gid buf :
  is_u64 gid -> (32 <= length buf)%nat -> frame_group (stamp gid buf) = Some gid.
Proof.
  intros Hg Hl. unfold frame_group. rewrite length_stamp by done.
  destruct (Nat.ltb_spec (length buf) 32); [lia|]. rewrite take_stamp by done.
  f_equal. apply le_value_bytes. unfold is_u64, u64_max in Hg. lia.
Qed.

(** Stamping a header stamps the frame. *)
Lemma concat_stamped gid slices stamped :
  stamped_slices gid slices = Some stamped ->
  concat stamped = stamp gid (concat slices) /\ (32 <= length (concat slices))%nat.
Proof.
  destruct slices as [|s rest]; [done|]. unfold stamped_slices.
  change RAFT_FRAME_HEADER_SIZE with 32%nat. destruct (Nat.ltb_spec (length s) 32) as [|Hl]; [done|].
  intros [= <-]. cbn. rewrite length_app. split; [|lia]. unfold stamp.
  rewrite take_take, Nat.min_l by lia. rewrite (drop_ge (take 32 s)) by (rewrite length_take; lia).
  rewrite take_app_le, drop_app_le by lia. by rewrite app_nil_r, <- !app_assoc.
Qed.

Lemma frame_bytes_split from msg :
  exists pre, length pre = 24%nat /\
    forall g, frame_bytes from g msg = pre ++ le_bytes 8 g ++ body_bytes msg.
Proof.
  exists (encode_fields [4; 1; 1; 2; 8; 4; 4]%nat
            [RAFT_MAGIC; RAFT_VERSION; kind_of msg; 0; from; Z.of_nat (length (body_bytes msg)); 0]).
  split; [by rewrite length_encode_fields|]. intros g. unfold frame_bytes, as_bytes, frame_header.
  cbn -[le_bytes body_bytes]. by rewrite ?app_nil_r, <- ?app_assoc.
Qed.

Lemma stamp_frame gid from gid0 msg : stamp gid (frame_bytes from gid0 msg) = frame_bytes from gid msg.
Proof.
  destruct (frame_bytes_split from msg) as (pre & Hpre & E). rewrite !E. unfold stamp.
  rewrite take_app_length' by done. f_equal. f_equal. rewrite app_assoc. apply drop_app_length'.
  by rewrite length_app, length_le_bytes, Hpre.
Qed.

(** What a group sends is addressed to it: handing an encoded message to the
    group's transport, in slices or as a buffer, puts at most one frame on the
    shared transport, namely the frame of that message for the group: the
    receiving side reads the group from its header and decodes the message. *)
Theorem mux_send_stamps {T C : Type} `{TransportLaws T} from msg peer
  (t : MultiplexedTransport T C) r t' :
  is_u64 from -> is_u64 (mx_group t) -> Z.of_nat (length (body_bytes msg)) <= u32_max ->
  (exists slices, concat slices = frame_bytes from 0 msg /\
                  mux_send_vectored peer slices t = (r, t')) \/
  mux_send_frame_owned peer (frame_bytes from 0 msg) t = (r, t') ->
  let f := frame_bytes from (mx_group t) msg in
  (sent (mx_inner t') = sent (mx_inner t) \/
   sent (mx_inner t') = sent (mx_inner t) ++ [(peer, f)]) /\
  mx_group t' = mx_group t /\ mx_shared t' = mx_shared t /\
  is_own (mx_group t) f = true /\
  decode_message f = rmap (fun m => {| im_from := from; im_group_id := mx_group t; im_message := m |})
                       (decode_body (kind_of msg) (body_bytes msg)).
Proof.
  intros Hf Hg Hfit Hsend f. assert (Hl : (32 <= length (frame_bytes from 0 msg))%nat).
  { destruct (frame_bytes_split from msg) as (pre & Hpre & ->).
    rewrite !length_app, length_le_bytes. lia. }
  assert (Hown : is_own (mx_group t) f = true).
  { unfold is_own, f. rewrite <- (stamp_frame _ _ 0), frame_group_stamp by done. apply Z.eqb_refl. }
  pose proof (decode_frame from (mx_group t) msg Hf Hg Hfit) as Hdec. unfold mux_send_vectored, mux_send_frame_owned in Hsend.
  change RAFT_FRAME_HEADER_SIZE with 32%nat in Hsend.
  destruct Hsend as [(slices & Hc & Hsend)|Hsend].
  - destruct (stamped_slices _ slices) as [st|] eqn:Hst; [|injection Hsend as _ <-; auto].
    apply concat_stamped in Hst as [Hst _]. rewrite Hc, stamp_frame in Hst.
    destruct (send_vectored peer st (mx_inner t)) as [x inner] eqn:Es. injection Hsend as _ <-.
    apply send_vectored_law in Es as [Es _]. rewrite Hst in Es. by split.
  - destruct (Nat.ltb_spec (length (frame_bytes from 0 msg)) 32) as [|_]; [lia|].
    rewrite stamp_frame in Hsend.
    destruct (send_frame_owned peer _ (mx_inner t)) as [x inner] eqn:Es. injection Hsend as _ <-.
    apply send_frame_owned_law in Es as [Es _]. by split.
Qed.

Definition heartbeat_msg : RaftMessage :=
  MTimeoutNow {| tn_term := 3; tn_leader_id := 1 |}.

Lemma mux_send_stamps_witness :
  let f := frame_bytes 1 1 heartbeat_msg in
  let '(r, t') := mux_send_frame_owned 2 (frame_bytes 1 0 heartbeat_msg) first_group in
  is_own 1 f = true /\ (sent (mx_inner t') = [] \/ sent (mx_inner t') = [(2, f)]).
Proof.
  intros f. destruct (mux_send_frame_owned 2 (frame_bytes 1 0 heartbeat_msg) first_group) as [r t'] eqn:E.
  assert (H1 : is_u64 1) by (vm_compute; split; [discriminate|discriminate]).
  assert (Hl : Z.of_nat (length (body_bytes heartbeat_msg)) <= u32_max) by (vm_compute; discriminate).
  pose proof (mux_send_stamps 1 heartbeat_msg 2 first_group r t' H1 H1 Hl (or_intror E))
    as (Hs & _ & _ & Ho & _).
  split; [exact Ho|exact Hs].
Defined.
