(* ===== verification/Registry.v ===== *)
(** * Registry: many groups on one node

    Models [src/api/registry/mod.rs] (the groups and the dispatch of decoded
    frames), [src/api/registry/heartbeats.rs] with
    [src/api/registry/batch_scratch.rs], and
    [src/api/node/replication/heartbeat_batch.rs] (the heartbeats of all groups,
    one vectored write per peer), and shows that a batch writes what the groups
    write one by one ([batched_heartbeats_equal_single]).

    The order in which a hash map is iterated is not specified; it is an argument
    of the operations that iterate ([order], [peer_order]). *)

From stdpp Require Import base list sets gmap strings pretty.
From Stdlib Require Import ZArith Lia.
From S2P Require Import Prelude Types Wire Codec CodecFacts Arena Progress Quorum Traits Membership.
From S2P Require Import NodeState Node Samples Inbound Leader Frames Multiplex MultiplexFacts.

Local Open Scope string_scope.
Local Open Scope list_scope.
Local Open Scope Z_scope.

Definition GroupId : Type := Z.

Record GroupEntry (S T C D SM : Type) := { ge_node : RaftNode S T C D; ge_sm : SM }.
Arguments ge_node {S T C D SM} _.
Arguments ge_sm {S T C D SM} _.
Arguments Build_GroupEntry {S T C D SM} _ _.

(** One frame for one peer. *)
Record FrameOut := { fo_group_id : GroupId; fo_from : PeerId; fo_ae : AppendEntries }.

(** [write_frame_header] into a zeroed header buffer. *)
Definition batch_frame_header (from : PeerId) (group_id : GroupId) (kind body_len : Z) : bytes :=
  as_bytes {| fh_magic := RAFT_MAGIC; fh_version := RAFT_VERSION; fh_kind := kind; fh_flags := 0;
              fh_from := from; fh_body_len := body_len; fh_reserved := 0; fh_group_id := group_id |}.

(** Header and body of each frame, in order. *)
Definition frame_slices (frames : list FrameOut) : list bytes :=
  concat (map (fun f =>
    [batch_frame_header (fo_from f) (fo_group_id f) KIND_APPEND_ENTRIES
       (Z.of_nat (wire_size AppendEntries));
     as_bytes (fo_ae f)]) frames).

Section Registry.
Context {S T C D SM : Type} `{RaftStorage S} `{RaftTransport T} `{Clock C} `{CustomDispatch D T}.
Abbreviation Groups := (gmap GroupId (GroupEntry S T C D SM)).
Implicit Types (n : RaftNode S T C D) (groups : Groups).

Definition set_ge_node n (e : GroupEntry S T C D SM) : GroupEntry S T C D SM :=
  {| ge_node := n; ge_sm := ge_sm e |}.

Definition registry_insert (id : GroupId) n (sm : SM) groups : res unit * Groups :=
  match groups !! id with
  | Some _ => (Err (Protocol ("duplicate group id " +:+ pretty id)), groups)
  | None => (Ok tt, <[id := {| ge_node := n; ge_sm := sm |}]> groups)
  end.

Definition registry_remove (id : GroupId) groups : option (RaftNode S T C D * SM) * Groups :=
  (option_map (fun e => (ge_node e, ge_sm e)) (groups !! id), delete id groups).

Definition registry_dispatch (inbound : InboundRaftMessage) groups : res unit * Groups :=
  let gid := im_group_id inbound in
  match groups !! gid with
  | Some e =>
      let '(x, n) := handle_inbound inbound (ge_node e) in
      (x, <[gid := set_ge_node n e]> groups)
  | None => (Err (Protocol ("no raft group registered for group_id " +:+ pretty gid)), groups)
  end.

(** ** Batched heartbeats *)

(** The peers of one group: the wire for each, until the node is found not to
    lead. *)
Fixpoint group_wires (gid : GroupId) (from : PeerId) (peers : list PeerId) n
  : list (PeerId * FrameOut) * RaftNode S T C D :=
  match peers with
  | [] => ([], n)
  | peer :: peers' =>
      let '(x, n) := build_heartbeat_wire peer n in
      match x with
      | Ok (Some ae) =>
          let '(out, n) := group_wires gid from peers' n in
          ((peer, {| fo_group_id := gid; fo_from := from; fo_ae := ae |}) :: out, n)
      | Ok None => ([], n)
      | Err _ => group_wires gid from peers' n
      end
  end.

Definition group_heartbeats (gid : GroupId) n : list (PeerId * FrameOut) * RaftNode S T C D :=
  if is_leader n then
    let n := set_scratch_peers (replication_targets n) n in
    group_wires gid (node_id n) (scratch_peers n) n
  else ([], n).

(** [per_peer.entry(peer).or_insert_with(..).push(frame)] *)
Definition bucket (per_peer : gmap PeerId (list FrameOut)) (pf : PeerId * FrameOut)
  : gmap PeerId (list FrameOut) :=
  <[pf.1 := default [] (per_peer !! pf.1) ++ [pf.2]]> per_peer.

(** Phase 1. *)
Fixpoint collect_wires (order : list GroupId) groups (per_peer : gmap PeerId (list FrameOut))
  : gmap PeerId (list FrameOut) * Groups :=
  match order with
  | [] => (per_peer, groups)
  | gid :: order' =>
      match groups !! gid with
      | None => collect_wires order' groups per_peer
      | Some e =>
          let '(out, n) := group_heartbeats gid (ge_node e) in
          collect_wires order' (<[gid := set_ge_node n e]> groups) (foldl bucket per_peer out)
      end
  end.

(** Phase 2: one vectored write per peer; failures are counted nowhere. *)
Fixpoint send_batches (peer_order : list PeerId) (per_peer : gmap PeerId (list FrameOut)) (t : T)
  : Z * T :=
  match peer_order with
  | [] => (0, t)
  | peer :: peers =>
      match per_peer !! peer with
      | None => send_batches peers per_peer t
      | Some frames =>
          let '(x, t) := send_vectored peer (frame_slices frames) t in
          let '(total, t) := send_batches peers per_peer t in
          (match x with Ok _ => Z.of_nat (length frames) + total | Err _ => total end, t)
      end
  end.

Definition send_batched_heartbeats (order : list GroupId) (peer_order : list PeerId) groups (t : T)
  : res Z * Groups * T :=
  let '(per_peer, groups) := collect_wires order groups ∅ in
  let '(total, t) := send_batches peer_order per_peer t in
  (Ok total, groups, t).

(** [tick_heartbeats] on the registry. *)
Definition tick_heartbeats := send_batched_heartbeats.
End Registry.

(** ** Batched heartbeats against single ones *)

(** The frame of a heartbeat as a node sends it by itself, addressed to no group. *)
Definition bare_frame (f : FrameOut) : bytes :=
  frame_bytes (fo_from f) 0 (MAppendEntries (fo_ae f) []).

Lemma concat_frame_slices frames :
  concat (frame_slices frames) = concat (map (fun f => stamp (fo_group_id f) (bare_frame f)) frames).
Proof.
  induction frames as [|f frames IH]; [done|]. unfold frame_slices in *. cbn [map concat app].
  rewrite IH, app_assoc. unfold bare_frame. rewrite stamp_frame.
  unfold frame_bytes, frame_header, batch_frame_header.
  cbn [body_bytes kind_of]. by rewrite app_nil_r.
Qed.

Section Batch.
Context {S T C D SM : Type} `{RaftStorage S} `{TransportLaws T} `{Clock C} `{CustomDispatch D T}.
Abbreviation Groups := (gmap GroupId (GroupEntry S T C D SM)).
Implicit Types (n : RaftNode S T C D) (groups : Groups).

(** The heartbeats for [p] among those of one group, and of the groups in order. *)
Definition wires_for (p : PeerId) (out : list (PeerId * FrameOut)) : list FrameOut :=
  map snd (List.filter (fun pf => pf.1 =? p) out).

Definition heartbeats_for groups (p : PeerId) (order : list GroupId) : list FrameOut :=
  concat (map (fun gid => match groups !! gid with
                          | Some e => wires_for p (group_heartbeats gid (ge_node e)).1
                          | None => []
                          end) order).

Definition bucket_of (per_peer : gmap PeerId (list FrameOut)) (p : PeerId) : list FrameOut :=
  default [] (per_peer !! p).

Lemma bucket_fold out pp p : bucket_of (foldl bucket pp out) p = bucket_of pp p ++ wires_for p out.
Proof.
  revert pp. induction out as [|[q f] out IH]; intros pp; cbn [foldl]; [by rewrite app_nil_r|].
  rewrite IH. unfold bucket, bucket_of, wires_for. cbn [fst snd List.filter].
  destruct (Z.eqb_spec q p) as [->|Hne].
  - rewrite lookup_insert_eq. cbn. by rewrite <- app_assoc.
  - by rewrite lookup_insert_ne.
Qed.

Lemma heartbeats_for_insert groups p gid e order :
  gid ∉ order -> heartbeats_for (<[gid := e]> groups) p order = heartbeats_for groups p order.
Proof.
  intros Hn. unfold heartbeats_for. f_equal. apply map_ext_in. intros g Hg%list_elem_of_In.
  rewrite lookup_insert_ne; [done|]. by intros ->.
Qed.

Lemma collect_wires_spec order groups pp :
  NoDup order ->
  let '(pp', groups') := collect_wires order groups pp in
  (forall p, bucket_of pp' p = bucket_of pp p ++ heartbeats_for groups p order) /\
  (forall gid, gid ∉ order -> groups' !! gid = groups !! gid) /\
  (forall gid e, gid ∈ order -> groups !! gid = Some e ->
     groups' !! gid = Some (set_ge_node (group_heartbeats gid (ge_node e)).2 e)).
Proof.
  revert groups pp. induction order as [|gid order IH]; intros groups pp Hnd; cbn [collect_wires].
  { split; [intros p; by rewrite app_nil_r|]. split; [done|]. by intros gid e []%not_elem_of_nil. }
  apply NoDup_cons in Hnd as [Hn Hnd]. unfold heartbeats_for. cbn [map concat].
  destruct (groups !! gid) as [e|] eqn:Hg.
  - destruct (group_heartbeats gid (ge_node e)) as [out n] eqn:Eh.
    specialize (IH (<[gid := set_ge_node n e]> groups) (foldl bucket pp out) Hnd).
    destruct (collect_wires order _ _) as [pp' groups']. destruct IH as (Hb & Ho & Hi). split; [|split].
    + intros p. rewrite Hb, bucket_fold, heartbeats_for_insert, app_assoc by done. done.
    + intros g [Hne Hg']%not_elem_of_cons. by rewrite Ho, lookup_insert_ne.
    + intros g e' Hin He. destruct (decide (g = gid)) as [->|Hne].
      * rewrite Ho, lookup_insert_eq by done. rewrite Hg in He. injection He as <-. by rewrite Eh.
      * apply elem_of_cons in Hin as [|Hin]; [done|]. apply Hi; [done|]. by rewrite lookup_insert_ne.
  - specialize (IH groups pp Hnd). destruct (collect_wires order _ _) as [pp' groups'].
    destruct IH as (Hb & Ho & Hi). split; [done|]. split.
    + intros g [Hne Hg']%not_elem_of_cons. by apply Ho.
    + intros g e' [->|Hin]%elem_of_cons He; [congruence|by apply Hi].
Qed.

Lemma keys_known {A} (m : gmap Z A) k : k ∈ (map_to_list m).*1 <-> is_Some (m !! k).
Proof.
  rewrite list_elem_of_fmap. split.
  - intros ([k' a] & -> & Hk%elem_of_map_to_list). by exists a.
  - intros [a Ha]. exists (k, a). split; [done|]. by apply elem_of_map_to_list.
Qed.

(** A bucket is made when a frame is put into it. *)
Definition no_empty (pp : gmap PeerId (list FrameOut)) : Prop := map_Forall (fun _ fs => fs <> []) pp.

Lemma no_empty_fold out pp : no_empty pp -> no_empty (foldl bucket pp out).
Proof.
  revert pp. induction out as [|pf out IH]; intros pp Hp; cbn [foldl]; [done|]. apply IH.
  apply map_Forall_insert_2; [|done]. by intros [_ ?]%app_eq_nil.
Qed.

Lemma collect_wires_no_empty order groups pp :
  no_empty pp -> no_empty (collect_wires order groups pp).1.
Proof.
  revert groups pp. induction order as [|gid order IH]; intros groups pp Hp; cbn [collect_wires]; [done|].
  destruct (groups !! gid); [|by apply IH]. destruct (group_heartbeats _ _). by apply IH, no_empty_fold.
Qed.

Lemma bucket_known pp p : no_empty pp -> is_Some (pp !! p) <-> bucket_of pp p <> [].
Proof.
  intros Hp. unfold bucket_of. destruct (pp !! p) as [fs|] eqn:E; cbn.
  - split; [|eauto]. intros _. exact (Hp _ _ E).
  - split; [by intros []|done].
Qed.

(** One write per batch, each with what the transport answered. *)
Fixpoint write_all (batches : list (PeerId * list FrameOut)) (t : T) : list (res unit) * T :=
  match batches with
  | [] => ([], t)
  | (p, fs) :: rest =>
      let '(x, t) := send_vectored p (frame_slices fs) t in
      let '(xs, t) := write_all rest t in (x :: xs, t)
  end.

(** The frames of the batches the transport took. *)
Definition frames_taken (batches : list (PeerId * list FrameOut)) (outcomes : list (res unit)) : Z :=
  foldr (fun bx k => match bx.2 with Ok _ => Z.of_nat (length bx.1.2) + k | Err _ => k end) 0
    (zip batches outcomes).

Lemma send_batches_writes peer_order pp t :
  Forall (fun p => is_Some (pp !! p)) peer_order ->
  let batches := map (fun p => (p, bucket_of pp p)) peer_order in
  send_batches peer_order pp t = (frames_taken batches (write_all batches t).1, (write_all batches t).2).
Proof.
  cbv zeta. intros Ho. revert t.
  induction Ho as [|p peers [fs Hp] _ IH]; intros t; cbn [send_batches map write_all]; [done|].
  assert (Hb : bucket_of pp p = fs) by (unfold bucket_of; by rewrite Hp). rewrite Hb, Hp.
  destruct (send_vectored p (frame_slices fs) t) as [x t1]. rewrite IH.
  destruct (write_all _ t1) as [xs t2]. unfold frames_taken. cbn [zip zip_with foldr fst snd].
  by destruct x.
Qed.

(** ** The single path *)

(** The node with another transport and another encoder buffer. *)
Definition on_link (t : T) (b : bytes) n : RaftNode S T C D := set_transport t (set_scratch_outbound b n).

(** A method that uses neither. *)
Definition oblivious {A} (m : M S T C D A) : Prop :=
  forall t b n, m (on_link t b n) = ((m n).1, on_link t b (m n).2).

Lemma oblivious_bind {A B} (m : M S T C D A) (k : A -> M S T C D B) :
  oblivious m -> (forall a, oblivious (k a)) -> oblivious (m ≫= k).
Proof.
  intros Hm Hk t b n. unfold mbind, M_bind. rewrite Hm. destruct (m n) as [[a|e] n']; [apply Hk|done].
Qed.
Lemma oblivious_for_each {X} (l : list X) body :
  (forall x, oblivious (body x)) -> oblivious (for_each l body).
Proof.
  intros Hb. induction l as [|x l IH]; cbn [for_each]; [done|]. apply oblivious_bind; [apply Hb|].
  intros _. exact IH.
Qed.
Lemma oblivious_storage {A} (op : S -> res A * S) : oblivious (on_storage op).
Proof. intros t b n. unfold on_storage. cbn. by destruct (op (storage n)). Qed.
Lemma oblivious_now : oblivious now.
Proof. intros t b n. unfold now. cbn. by destruct (clock_now (clock n)). Qed.

Ltac oblivious_step :=
  lazymatch goal with
  | |- oblivious (mbind _ _) => apply oblivious_bind; [|intros ?]
  | |- oblivious (for_each _ _) => apply oblivious_for_each; intros ?
  | |- oblivious (on_storage _) => apply oblivious_storage
  | |- oblivious now => apply oblivious_now
  | |- oblivious (mret _) => done
  | |- oblivious (err _) => done
  | |- oblivious (gets _) => done
  | |- oblivious (modify _) => done
  | |- oblivious (whenM ?b _) => unfold whenM; destruct b
  | |- oblivious (if ?b then _ else _) => destruct b
  | |- oblivious (match ?x with _ => _ end) => destruct x
  | |- oblivious ?m => let h := get_head m in unfold h
  end.

Lemma oblivious_build p : oblivious (build_heartbeat_wire p : M S T C D _).
Proof. repeat (oblivious_step; cbv beta zeta). Qed.

Lemma build_heartbeat_wire_cases p n :
  let '(x, n') := build_heartbeat_wire p n in
  node_id n' = node_id n /\
  match x with
  | Ok None => n' = n /\ is_leader n = false
  | Ok (Some ae) => ae_entry_count ae = 0
  | Err _ => True
  end.
Proof.
  pose proof (fun n => (ltac:(unfold build_heartbeat_wire, ensure_leader_progress_initialized,
    initialize_leader_progress, append_prev_for_peer, term_at; keeps_auto) :
    keeps node_id (build_heartbeat_wire p : M S T C D _)) n) as Hk.
  specialize (Hk n). destruct (build_heartbeat_wire p n) as [x n'] eqn:E. split; [exact Hk|].
  revert E. unfold build_heartbeat_wire. unfold mbind at 1, M_bind, gets.
  destruct (is_leader n); cbn [negb]; [|intros [= <- <-]; done].
  unfold mbind, M_bind. repeat case_match; intros; simplify_eq/=; try done. by injection E as <- <-.
Qed.

(** A transport that takes every frame. *)
Definition takes_all : Prop :=
  forall p slices t, sent (send_vectored p slices t).2 = sent t ++ [(p, concat slices)].

(** [t'] is [t] after the frames [l] were handed to it, all of them when it takes
    every frame. *)
Definition handed (t t' : T) (l : list (PeerId * bytes)) : Prop :=
  (exists l', sent t' = sent t ++ l' /\ l' `sublist_of` l) /\ (takes_all -> sent t' = sent t ++ l).

Lemma handed_nil t : handed t t [].
Proof. split; [exists []|]; by rewrite app_nil_r. Qed.

Lemma handed_app t t1 t2 l l1 : handed t t1 l -> handed t1 t2 l1 -> handed t t2 (l ++ l1).
Proof.
  intros [(k & E & Hk) Ha] [(k1 & E1 & Hk1) Ha1]. split.
  - exists (k ++ k1). split; [by rewrite E1, E, app_assoc|by apply sublist_app].
  - intros Ht. by rewrite Ha1, Ha, app_assoc.
Qed.

Lemma send_heartbeat_handed p ae t b n :
  ae_entry_count ae = 0 -> (80 <= length b)%nat ->
  exists x t' b', send_message p (MAppendEntriesVectored ae []) (on_link t b n) = (Ok x, on_link t' b' n) /\
    length b' = length b /\ handed t t' [(p, frame_bytes (node_id n) 0 (MAppendEntries ae []))].
Proof.
  intros Hc Hb. unfold send_message.
  assert (Hfit : Z.of_nat (length (body_bytes (MAppendEntriesVectored ae []))) <= u32_max)
    by (cbn [body_bytes map concat]; rewrite app_nil_r, length_as_bytes; vm_compute; done).
  destruct (encode_vectored_at (node_id n) 0 (MAppendEntriesVectored ae []) b Hfit) as (buf & out & E & Hg);
    [exact Hb|].
  pose proof (encode_vectored_length (node_id n) (MAppendEntriesVectored ae []) b buf out E) as Hl.
  change (node_id (on_link t b n)) with (node_id n). change (scratch_outbound (on_link t b n)) with b.
  unfold encode_message_vectored. rewrite E. change (transport (on_link t b n)) with t.
  destruct (send_vectored p (map (slice_bytes buf) out) t) as [r t1] eqn:Es.
  exists (is_ok r), t1, buf. split; [done|]. split; [done|].
  assert (Ef : concat (map (slice_bytes buf) out) = frame_bytes (node_id n) 0 (MAppendEntries ae [])).
  { change (concat (map (slice_bytes buf) out)) with (gather buf out). rewrite Hg. destruct ae. cbn in Hc.
    by subst. }
  split.
  - apply send_vectored_law in Es as [Es _]. rewrite Ef in Es.
    destruct Es as [->| ->]; [exists []; rewrite app_nil_r|eexists]; (split; [done|]); [apply sublist_nil_l|done].
  - intros Ht. specialize (Ht p (map (slice_bytes buf) out) t). rewrite Es, Ef in Ht. exact Ht.
Qed.

Lemma send_bare_link p t b n :
  send_bare_heartbeat p (on_link t b n) =
  match build_heartbeat_wire p n with
  | (Ok (Some ae), n1) => (send_message p (MAppendEntriesVectored ae []);; mret tt) (on_link t b n1)
  | (_, n1) => (Ok tt, on_link t b n1)
  end.
Proof.
  unfold send_bare_heartbeat. unfold mbind at 1, M_bind, attempt. rewrite oblivious_build.
  by destruct (build_heartbeat_wire p n) as [[[ae|]|e] n1].
Qed.

Lemma for_each_step {X} (x : X) l (body : X -> M S T C D unit) n n1 :
  body x n = (Ok tt, n1) -> for_each (x :: l) body n = for_each l body n1.
Proof. intros E. cbn [for_each]. unfold mbind, M_bind. by rewrite E. Qed.

Lemma single_heartbeats_idle peers t b n :
  is_leader n = false -> for_each peers send_bare_heartbeat (on_link t b n) = (Ok tt, on_link t b n).
Proof.
  intros Hl. induction peers as [|p peers IH]; [done|]. rewrite (for_each_step _ _ _ _ (on_link t b n)); [done|].
  rewrite send_bare_link. unfold build_heartbeat_wire, mbind, M_bind, gets. by rewrite Hl.
Qed.

(** The single path on the peers of a group sends the bare frames of the wires the
    batch collects, and builds them from the same states. *)
Lemma single_heartbeats gid from peers n t b :
  from = node_id n -> (80 <= length b)%nat ->
  let '(out, n') := group_wires gid from peers n in
  exists t' b', for_each peers send_bare_heartbeat (on_link t b n) = (Ok tt, on_link t' b' n') /\
    handed t t' (map (fun pf => (pf.1, bare_frame pf.2)) out).
Proof.
  intros ->. revert n t b. induction peers as [|p peers IH]; intros n t b Hb; cbn [group_wires].
  { exists t, b. split; [done|apply handed_nil]. }
  pose proof (build_heartbeat_wire_cases p n) as Hbuild. pose proof (send_bare_link p t b n) as Hs.
  destruct (build_heartbeat_wire p n) as [x n1]. destruct Hbuild as [Hid Hx]. destruct x as [[ae|]|e].
  - destruct (send_heartbeat_handed p ae t b n1 Hx Hb) as (ok & t1 & b1 & Es & Hl & Hh).
    unfold mbind, M_bind in Hs. rewrite Es in Hs. specialize (IH n1 t1 b1). rewrite Hl, Hid in IH.
    specialize (IH Hb). destruct (group_wires gid (node_id n) peers n1) as [out n2].
    destruct IH as (t2 & b2 & E2 & Hh2). exists t2, b2. split; [by rewrite (for_each_step _ _ _ _ _ Hs)|].
    rewrite Hid in Hh. exact (handed_app _ _ _ _ _ Hh Hh2).
  - destruct Hx as [-> Hl]. exists t, b. split; [|apply handed_nil]. by apply single_heartbeats_idle.
  - specialize (IH n1 t b Hb). rewrite Hid in IH. by rewrite (for_each_step _ _ _ _ _ Hs).
Qed.

Lemma group_heartbeats_single gid n :
  (80 <= length (scratch_outbound n))%nat ->
  let '(out, n') := group_heartbeats gid n in
  exists t' b', send_bare_heartbeats_except (node_id n) n = (Ok tt, on_link t' b' n') /\
    handed (transport n) t' (map (fun pf => (pf.1, bare_frame pf.2)) out).
Proof.
  intros Hb. unfold group_heartbeats, send_bare_heartbeats_except. unfold mbind at 1, M_bind, gets.
  destruct (is_leader n); cbn [negb].
  - assert (Ef : List.filter (fun p => negb (p =? node_id n)) (replication_targets n) = replication_targets n).
    { unfold replication_targets. induction (node_peers n ++ node_learners n) as [|q l IH]; [done|].
      cbn. destruct (negb (q =? node_id n)) eqn:Eq; cbn; rewrite ?Eq, ?IH; done. }
    pose proof (single_heartbeats gid (node_id n) (replication_targets n)
      (set_scratch_peers (replication_targets n) n) (transport n) (scratch_outbound n) eq_refl Hb) as Hs.
    cbn [scratch_peers set_scratch_peers] in *. destruct (group_wires _ _ _ _) as [out n'].
    destruct Hs as (t' & b' & E & Hh). exists t', b'. split; [|exact Hh].
    unfold mbind, M_bind, modify. rewrite Ef. exact E.
  - exists (transport n), (scratch_outbound n). split; [|apply handed_nil]. by destruct n.
Qed.

(** C26: batching changes only how heartbeats are written.  For every order in
    which the two hash tables are iterated, there is exactly one vectored write to
    every peer that some group led here has a heartbeat for, and to no other; it is
    the concatenation of those heartbeats in group order, each the frame the node of
    its group sends by itself with the group's id stamped into the header; the count
    returned is that of the frames in the writes the transport took.  For each group,
    sending its heartbeats one by one ([send_bare_heartbeats_except] with no peer
    left out) hands these same frames to the node's own transport, all of them when
    it takes every frame, and the batch leaves the node as that does, transport and
    encoder buffer apart. *)
Theorem batched_heartbeats_equal_single order peer_order groups t :
  order ≡ₚ (map_to_list groups).*1 ->
  peer_order ≡ₚ (map_to_list (collect_wires order groups ∅).1).*1 ->
  map_Forall (fun _ e => (80 <= length (scratch_outbound (ge_node e)))%nat) groups ->
  let batches := map (fun p => (p, heartbeats_for groups p order)) peer_order in
  exists outcomes groups' t',
    send_batched_heartbeats order peer_order groups t = (Ok (frames_taken batches outcomes), groups', t') /\
    write_all batches t = (outcomes, t') /\
    NoDup peer_order /\ (forall p, p ∈ peer_order <-> heartbeats_for groups p order <> []) /\
    (forall p fs, (p, fs) ∈ batches ->
       concat (frame_slices fs) = concat (map (fun f => stamp (fo_group_id f) (bare_frame f)) fs)) /\
    dom groups' = dom groups /\
    forall gid e, groups !! gid = Some e ->
      let '(out, n') := group_heartbeats gid (ge_node e) in
      groups' !! gid = Some (set_ge_node n' e) /\
      exists tn b, send_bare_heartbeats_except (node_id (ge_node e)) (ge_node e) = (Ok tt, on_link tn b n') /\
        handed (transport (ge_node e)) tn (map (fun pf => (pf.1, bare_frame pf.2)) out).
Proof.
  intros Hord Hpeers Hroom batches.
  assert (Hnd : NoDup order) by (rewrite Hord; apply NoDup_fst_map_to_list).
  assert (Hin : forall gid, gid ∈ order <-> is_Some (groups !! gid)) by (intros g; rewrite Hord; apply keys_known).
  unfold send_batched_heartbeats. pose proof (collect_wires_spec order groups ∅ Hnd) as Hc.
  pose proof (collect_wires_no_empty order groups ∅ (map_Forall_empty _)) as Hne.
  destruct (collect_wires order groups ∅) as [pp groups']. destruct Hc as (Hb & Ho & Hi). cbn [fst] in *.
  assert (Hk : forall p, p ∈ peer_order <-> is_Some (pp !! p)) by (intros p; rewrite Hpeers; apply keys_known).
  assert (Eb : map (fun p => (p, bucket_of pp p)) peer_order = batches)
    by (apply map_ext; intros p; by rewrite Hb).
  rewrite send_batches_writes by (apply Forall_forall; intros p; apply Hk). rewrite Eb.
  destruct (write_all batches t) as [outcomes t']. exists outcomes, groups', t'.
  split; [done|]. split; [done|]. split; [rewrite Hpeers; apply NoDup_fst_map_to_list|]. split; [|split; [|split]].
  - intros p. rewrite Hk, bucket_known by done. by rewrite Hb.
  - intros p fs _. apply concat_frame_slices.
  - apply set_eq. intros gid. rewrite !elem_of_dom. destruct (decide (gid ∈ order)) as [Hg|Hn].
    + destruct (proj1 (Hin gid) Hg) as [e He]. rewrite (Hi gid e Hg He), He. split; eauto.
    + by rewrite Ho.
  - intros gid e He. pose proof (group_heartbeats_single gid (ge_node e) (Hroom gid e He)) as Hs.
    pose proof (Hi gid e (proj2 (Hin gid) (mk_is_Some _ _ He)) He) as Hg.
    destruct (group_heartbeats gid (ge_node e)) as [out n']. by split.
Qed.
End Batch.

(** Two groups led by node 1. *)
Definition led_group (term : Term) : GroupEntry MemStorage QueueTransport TickClock unit ListMachine :=
  {| ge_node := sample_leader 1 [1; 2; 3] {| current_term := term; voted_for := Some 1 |} [term];
     ge_sm := [] |}.

Definition led_groups : gmap GroupId (GroupEntry MemStorage QueueTransport TickClock unit ListMachine) :=
  <[7 := led_group 1]> {[9 := led_group 4]}.

Lemma batched_heartbeats_equal_single_witness :
  let quiet := {| qt_sent := []; qt_inbound := [] |} in
  exists outcomes groups' t',
    send_batched_heartbeats [9; 7] [3; 2] led_groups quiet = (Ok 4, groups', t') /\
    write_all (map (fun p => (p, heartbeats_for led_groups p [9; 7])) [3; 2]) quiet = (outcomes, t') /\
    (forall p, p ∈ [3; 2] <-> heartbeats_for led_groups p [9; 7] <> []).
Proof.
  intros quiet.
  assert (Ho : [9; 7] ≡ₚ (map_to_list led_groups).*1) by (apply (bool_decide_unpack _); vm_compute; reflexivity).
  assert (Hp : [3; 2] ≡ₚ (map_to_list (collect_wires [9; 7] led_groups ∅).1).*1)
    by (apply (bool_decide_unpack _); vm_compute; reflexivity).
  assert (Hr : map_Forall (fun _ e => (80 <= length (scratch_outbound (ge_node e)))%nat) led_groups)
    by (apply (bool_decide_unpack _); vm_compute; reflexivity).
  pose proof (batched_heartbeats_equal_single [9; 7] [3; 2] led_groups quiet Ho Hp Hr)
    as (outcomes & groups' & t' & E & Ew & _ & Hk & _).
  exists outcomes, groups', t'. split; [|split; [exact Ew|exact Hk]].
  rewrite E. f_equal. f_equal. f_equal. revert Ew. vm_compute. by intros [= <- _].
Defined.
