(* ===== verification/Driver.v ===== *)
(** * Driver: many groups on one core

    Models [src/api/registry/driver.rs]: the driver that owns the groups of one
    core, routes the frames of the shared transport to them, serves their timers
    and lends them one set of scratch buffers.

    The groups' transports share the inner transport and the demultiplexer with
    the driver: the driver's copies ([dr_inner], [dr_shared]) are the shared
    objects, put into the transport of a group while it runs ([lend]) and taken
    back afterwards ([give_back]).  Of the lent buffers the node model has
    [scratch_outbound]; the others only matter by their sizes, which the lend
    does not change.  Each timer, node and transport reads a clock of its own,
    any reading of which is allowed.  The order in which the timers are iterated
    is an argument of [driver_run_once]. *)

From stdpp Require Import base list sets gmap strings pretty.
From Stdlib Require Import ZArith Lia.
From S2P Require Import Prelude Types Wire Codec Slots Guard Arena Progress Quorum Traits.
From S2P Require Import Membership NodeState Node Samples ConfigChange Commit Snapshot Transfer Inbound.
From S2P Require Import Campaign Leader Install Propose Multiplex Registry.

Local Open Scope string_scope.
Local Open Scope list_scope.
Local Open Scope Z_scope.

Definition OUTBOUND_SCRATCH : nat := Z.to_nat (1024 * 1024).
Definition DRIVER_APPLY_BUF : Z := 16 * 1024 * 1024.
Definition BURST_FRAMES : nat := 128.

(** ** The transport of a group as a transport *)

(** The receive loops end within as many turns as frames are in the inner
    transport ([mux_recv_routes]), so the fallback branches are never taken. *)
#[export] Instance multiplexed_transport {T C : Type} `{TransportLaws T} `{Clock C}
  : RaftTransport (MultiplexedTransport T C) := {
  send_vectored := mux_send_vectored;
  send_frame_owned := mux_send_frame_owned;
  recv_frame len t :=
    match mux_recv_loop (S (length (inbox (mx_inner t)))) len t with
    | Ok r => r
    | Err _ => (Err (TransportErr "multiplex: receive does not end"), t)
    end;
  recv_frame_timeout timeout len t :=
    match mux_recv_frame_timeout (S (length (inbox (mx_inner t)))) timeout len t with
    | Ok r => r
    | Err _ => (Ok None, t)
    end;
}.

(** ** Timers of a group *)

Record GroupTimers := {
  gt_next_election_at : Z;
  gt_next_heartbeat_at : Z;
  gt_forced_campaign : bool;
  gt_rng : Z;
  gt_heartbeat_ms : Z;
  gt_election_min_ms : Z;
  gt_election_max_ms : Z;
}.

Section Timers.
Context {C : Type} `{Clock C}.

Definition timers_reset_heartbeat (t : GroupTimers) (ck : C) : GroupTimers * C :=
  let '(now, ck) := clock_now ck in
  ({| gt_next_election_at := gt_next_election_at t;
      gt_next_heartbeat_at := now + gt_heartbeat_ms t;
      gt_forced_campaign := gt_forced_campaign t; gt_rng := gt_rng t;
      gt_heartbeat_ms := gt_heartbeat_ms t; gt_election_min_ms := gt_election_min_ms t;
      gt_election_max_ms := gt_election_max_ms t |}, ck).

Definition timers_reset_election (t : GroupTimers) (ck : C) : GroupTimers * C :=
  let span := wrap_add64 (gt_election_max_ms t - gt_election_min_ms t) 1 in
  let rng := mix64 (gt_rng t) in
  let jitter := rng mod span in
  let '(now, ck) := clock_now ck in
  ({| gt_next_election_at := now + wrap_add64 (gt_election_min_ms t) jitter;
      gt_next_heartbeat_at := gt_next_heartbeat_at t;
      gt_forced_campaign := gt_forced_campaign t; gt_rng := rng;
      gt_heartbeat_ms := gt_heartbeat_ms t; gt_election_min_ms := gt_election_min_ms t;
      gt_election_max_ms := gt_election_max_ms t |}, ck).

Definition timers_new (gid : GroupId) (node_id : PeerId) (timing : TimingConfig) (ck : C)
  : GroupTimers * C :=
  let '(now1, ck) := clock_now ck in
  let '(now2, ck) := clock_now ck in
  let t := {| gt_next_election_at := now1; gt_next_heartbeat_at := now2;
              gt_forced_campaign := false;
              gt_rng := mix64 (Z.lxor gid (wrap_mul64 node_id 0x9e3779b97f4a7c15));
              gt_heartbeat_ms := Z.max (heartbeat_ms timing) 1;
              gt_election_min_ms := Z.max (election_min_ms timing) 1;
              gt_election_max_ms :=
                Z.max (election_max_ms timing) (Z.max (election_min_ms timing) 1) |} in
  let '(t, ck) := timers_reset_election t ck in
  timers_reset_heartbeat t ck.

(** [forced = mem::take(&mut t.forced_campaign); t.reset_election()] *)
Definition timers_take_forced (t : GroupTimers) (ck : C) : GroupTimers * C :=
  timers_reset_election
    {| gt_next_election_at := gt_next_election_at t;
       gt_next_heartbeat_at := gt_next_heartbeat_at t;
       gt_forced_campaign := false; gt_rng := gt_rng t;
       gt_heartbeat_ms := gt_heartbeat_ms t; gt_election_min_ms := gt_election_min_ms t;
       gt_election_max_ms := gt_election_max_ms t |} ck.

(** What a frame does to the timers of its group. *)
Definition timers_after_frame (forced : bool) (t : GroupTimers) (ck : C) : GroupTimers * C :=
  let '(t, ck) := timers_reset_election t ck in
  if forced then
    let '(now, ck) := clock_now ck in
    ({| gt_next_election_at := now; gt_next_heartbeat_at := gt_next_heartbeat_at t;
        gt_forced_campaign := true; gt_rng := gt_rng t;
        gt_heartbeat_ms := gt_heartbeat_ms t; gt_election_min_ms := gt_election_min_ms t;
        gt_election_max_ms := gt_election_max_ms t |}, ck)
  else (t, ck).
End Timers.

(** ** State-passing computations that may not return *)

Definition Steps (X A : Type) : Type := X -> result (res A * X) Stop.

#[export] Instance Steps_ret X : MRet (Steps X) := fun A a x => Ok (Ok a, x).
#[export] Instance Steps_bind X : MBind (Steps X) := fun A B k m x =>
  match m x with
  | Err stop => Err stop
  | Ok (Ok a, x') => k a x'
  | Ok (Err e, x') => Ok (Err e, x')
  end.

Section Steps.
Context {X : Type}.

Definition s_err {A} (e : RaftError) : Steps X A := fun x => Ok (Err e, x).
Definition s_gets {A} (f : X -> A) : Steps X A := fun x => Ok (Ok (f x), x).
Definition s_modify (f : X -> X) : Steps X unit := fun x => Ok (Ok tt, f x).
Definition s_of {A} (r : res A) : Steps X A := fun x => Ok (r, x).
Definition s_attempt {A} (m : Steps X A) : Steps X (res A) :=
  fun x => match m x with
           | Err stop => Err stop
           | Ok (r, x') => Ok (Ok r, x')
           end.

(** Errors that are not fatal are only logged. *)
Definition tolerate {A} (r : res A) : Steps X unit :=
  match r with
  | Err e => if is_fatal e then s_err e else mret tt
  | Ok _ => mret tt
  end.
End Steps.

(** ** The driver *)

Record MultiRaftDriver (S T C D SM : Type) := {
  dr_groups : gmap GroupId (GroupEntry S (MultiplexedTransport T C) C D SM);
  dr_inner : T;
  dr_shared : DemuxShared;
  dr_timers : gmap GroupId GroupTimers;
  dr_outbound : bytes;
  dr_unknown : Z;
  dr_clock : C;
}.
Arguments dr_groups {S T C D SM} _.
Arguments dr_inner {S T C D SM} _.
Arguments dr_shared {S T C D SM} _.
Arguments dr_timers {S T C D SM} _.
Arguments dr_outbound {S T C D SM} _.
Arguments dr_unknown {S T C D SM} _.
Arguments dr_clock {S T C D SM} _.
Arguments Build_MultiRaftDriver {S T C D SM} _ _ _ _ _ _ _.

Section Driver.
Context {S T C D SM : Type} `{RaftStorage S} `{TransportLaws T} `{Clock C}
  `{!CustomDispatch D (MultiplexedTransport T C)} `{StateMachine SM}.
Context (tuning : VecTuning).
#[local] Abbreviation Mux := (MultiplexedTransport T C).
#[local] Abbreviation Node := (RaftNode S Mux C D).
#[local] Abbreviation Entry := (GroupEntry S Mux C D SM).
#[local] Abbreviation Driver := (MultiRaftDriver S T C D SM).
Implicit Types (n : Node) (e : Entry) (dr : Driver).

Definition dr_set_groups v dr : Driver := Build_MultiRaftDriver
  v (dr_inner dr) (dr_shared dr) (dr_timers dr) (dr_outbound dr) (dr_unknown dr) (dr_clock dr).
Definition dr_set_inner v dr : Driver := Build_MultiRaftDriver
  (dr_groups dr) v (dr_shared dr) (dr_timers dr) (dr_outbound dr) (dr_unknown dr) (dr_clock dr).
Definition dr_set_shared v dr : Driver := Build_MultiRaftDriver
  (dr_groups dr) (dr_inner dr) v (dr_timers dr) (dr_outbound dr) (dr_unknown dr) (dr_clock dr).
Definition dr_set_timers v dr : Driver := Build_MultiRaftDriver
  (dr_groups dr) (dr_inner dr) (dr_shared dr) v (dr_outbound dr) (dr_unknown dr) (dr_clock dr).
Definition dr_set_outbound v dr : Driver := Build_MultiRaftDriver
  (dr_groups dr) (dr_inner dr) (dr_shared dr) (dr_timers dr) v (dr_unknown dr) (dr_clock dr).
Definition dr_set_unknown v dr : Driver := Build_MultiRaftDriver
  (dr_groups dr) (dr_inner dr) (dr_shared dr) (dr_timers dr) (dr_outbound dr) v (dr_clock dr).
Definition dr_set_clock v dr : Driver := Build_MultiRaftDriver
  (dr_groups dr) (dr_inner dr) (dr_shared dr) (dr_timers dr) (dr_outbound dr) (dr_unknown dr) v.

Definition driver_new (inner : T) (ck : C) : Driver :=
  {| dr_groups := ∅; dr_inner := inner; dr_shared := demux_new; dr_timers := ∅;
     dr_outbound := replicate OUTBOUND_SCRATCH (to_byte 0); dr_unknown := 0; dr_clock := ck |}.

(** The capacity of the buffer is its length: it is allocated whole and only
    written in place. *)
Definition ensure_resident : Steps Driver unit :=
  s_modify (fun dr =>
    if (length (dr_outbound dr) <? OUTBOUND_SCRATCH)%nat
    then dr_set_outbound (replicate OUTBOUND_SCRATCH (to_byte 0)) dr else dr).

(** ** Lending *)

(** The transport of a node over the shared objects as they are now. *)
Definition attach dr n : Node :=
  set_transport {| mx_inner := dr_inner dr; mx_clock := mx_clock (transport n);
                   mx_group := mx_group (transport n); mx_shared := dr_shared dr |} n.

(** The swap of [CoreScratch::lend], of the buffer whose content the node keeps. *)
Definition lend dr n : Driver * Node :=
  (dr_set_outbound (scratch_outbound n) dr,
   set_scratch_outbound (dr_outbound dr) (attach dr n)).

(** The swap of [ScratchLend::drop]. *)
Definition give_back dr n : Driver * Node :=
  (dr_set_outbound (scratch_outbound n)
     (dr_set_shared (mx_shared (transport n)) (dr_set_inner (mx_inner (transport n)) dr)),
   set_scratch_outbound (dr_outbound dr) n).

(** Runs [m] on a group that borrows the buffers; [None] when there is none. *)
Definition on_group {A} (gid : GroupId) (m : Steps Entry A) : Steps Driver (option A) :=
  fun dr =>
    match dr_groups dr !! gid with
    | None => Ok (Ok None, dr)
    | Some e =>
        let '(dr1, n1) := lend dr (ge_node e) in
        match m (set_ge_node n1 e) with
        | Err stop => Err stop
        | Ok (x, e2) =>
            let '(dr2, n3) := give_back dr1 (ge_node e2) in
            Ok (match x with Ok a => Ok (Some a) | Err er => Err er end,
                dr_set_groups (<[gid := set_ge_node n3 e2]> (dr_groups dr2)) dr2)
        end
    end.

(** Runs a method on a group without lending it anything. *)
Definition on_idle_group {A} (gid : GroupId) (m : M S Mux C D A) : Steps Driver (option A) :=
  fun dr =>
    match dr_groups dr !! gid with
    | None => Ok (Ok None, dr)
    | Some e =>
        let '(x, n) := m (ge_node e) in
        Ok (match x with Ok a => Ok (Some a) | Err er => Err er end,
            dr_set_groups (<[gid := set_ge_node n e]> (dr_groups dr)) dr)
    end.

(** Methods of the node of an entry. *)
Definition entry_node {A} (m : L S Mux C D A) : Steps Entry A :=
  fun e => match m (ge_node e) with
           | Err stop => Err stop
           | Ok (x, n) => Ok (x, set_ge_node n e)
           end.
Definition entry_node_m {A} (m : M S Mux C D A) : Steps Entry A := entry_node (run m).

(** [if let Some(t) = self.timers.get_mut(&gid)] *)
Definition with_timers (gid : GroupId) (f : GroupTimers -> C -> GroupTimers * C)
  : Steps Driver unit :=
  s_modify (fun dr =>
    match dr_timers dr !! gid with
    | None => dr
    | Some t => let '(t, ck) := f t (dr_clock dr) in
                dr_set_clock ck (dr_set_timers (<[gid := t]> (dr_timers dr)) dr)
    end).

Definition driver_now : Steps Driver Z :=
  fun dr => let '(t, ck) := clock_now (dr_clock dr) in Ok (Ok t, dr_set_clock ck dr).

(** ** Applying *)

Definition apply_group_entry (index : LogIndex) (payload : bytes) : Steps Entry unit :=
  consumed ← entry_node_m (apply_if_config_change payload);
  (if consumed : bool then mret tt
   else fun e => let '(x, sm) := apply_at index payload (ge_sm e) in
                 Ok (x, {| ge_node := ge_node e; ge_sm := sm |}));;
  entry_node_m (
    modify (set_last_applied index);;
    modify (fun n => set_compaction_debt_entries (wrap_add64 (compaction_debt_entries n) 1) n);;
    modify (fun n => set_compaction_debt_bytes
      (wrap_add64 (compaction_debt_bytes n) (Z.of_nat (length payload))) n)).

(** [while next <= commit]: [k] is the number of indexes up to [commit]. *)
Fixpoint apply_group_loop (k : nat) (next : LogIndex) : Steps Entry unit :=
  match k with
  | O => mret tt
  | Datatypes.S k' =>
      entry ← entry_node_m (on_storage (entry_at next DRIVER_APPLY_BUF));
      match entry with
      | None => mret tt
      | Some e => apply_group_entry next (e_payload e);; apply_group_loop k' (next + 1)
      end
  end.

Definition apply_group : Steps Entry unit :=
  (fun e => let '(x, sm, n) := restore_state_machine_from_snapshot (ge_sm e) (ge_node e) in
            Ok (x, {| ge_node := n; ge_sm := sm |}));;
  commit ← s_gets (fun e => commit_index (ge_node e));
  applied ← s_gets (fun e => last_applied (ge_node e));
  apply_group_loop (Z.to_nat (commit - applied)) (applied + 1);;
  sm ← s_gets ge_sm;
  entry_node_m (maybe_compact sm);;
  mret tt.

(** ** Groups *)

(** [ck] and [disp] are the clock and the dispatch layer of the new node. *)
Definition add_group (gid : GroupId) (cfg : NodeConfig) (st : S) (sm : SM) (ck : C) (disp : D)
  : Steps Driver unit :=
  known ← s_gets (fun dr => bool_decide (is_Some (dr_groups dr !! gid)));
  if known : bool then s_err (Protocol ("duplicate group id " +:+ pretty gid))
  else
    s_modify (fun dr => dr_set_shared (register gid (dr_shared dr)) dr);;
    tr ← s_gets (fun dr => {| mx_inner := dr_inner dr; mx_clock := ck; mx_group := gid;
                              mx_shared := dr_shared dr |});
    match node_new cfg st tr ck disp with
    | Err e => s_modify (fun dr => dr_set_shared (unregister gid (dr_shared dr)) dr);; s_err e
    | Ok n =>
        let n := set_scratch_outbound [] n in
        inserted ← (fun dr => let '(x, gs) := registry_insert gid n sm (dr_groups dr) in
                              Ok (Ok x, dr_set_groups gs dr));
        match inserted with
        | Err e => s_modify (fun dr => dr_set_shared (unregister gid (dr_shared dr)) dr);; s_err e
        | Ok _ =>
            s_modify (fun dr =>
              let '(t, ck) := timers_new gid (cfg_node_id cfg) (cfg_timing cfg) (dr_clock dr) in
              dr_set_clock ck (dr_set_timers (<[gid := t]> (dr_timers dr)) dr))
        end
    end.

(** The returned node is attached to the shared objects as they are. *)
Definition remove_group (gid : GroupId) dr : option (Node * SM) * Driver :=
  match registry_remove gid (dr_groups dr) with
  | (None, gs) => (None, dr_set_groups gs dr)
  | (Some (n, sm), gs) =>
      let dr := dr_set_shared (unregister gid (dr_shared dr)) (dr_set_groups gs dr) in
      (Some (set_scratch_outbound (replicate OUTBOUND_SCRATCH (to_byte 0)) (attach dr n), sm),
       dr_set_timers (delete gid (dr_timers dr)) dr)
  end.

Definition no_group {A} (gid : GroupId) : Steps Driver A :=
  s_err (Protocol ("no group " +:+ pretty gid +:+ " in driver")).

(** An election result with the heartbeat a new leader sends at once. *)
Definition announce (fuel : nat) (elected : res bool) : Steps Entry (res unit) :=
  match elected with
  | Ok true => s_attempt (entry_node (send_heartbeat_once fuel))
  | _ => mret (Ok tt)
  end.

Definition driver_campaign (fuel : nat) (gid : GroupId) : Steps Driver bool :=
  ensure_resident;;
  x ← on_group gid (
    elected ← s_attempt (entry_node (campaign_once fuel MAX_FRAME_SIZE));
    hb ← announce fuel elected;
    mret (elected, hb));
  match x with
  | None => no_group gid
  | Some (elected, hb) =>
      with_timers gid timers_reset_election;;
      with_timers gid timers_reset_heartbeat;;
      won ← s_of elected;
      s_of hb;;
      mret won
  end.

Definition driver_propose (fuel : nat) (gid : GroupId) (payload : bytes) : Steps Driver LogIndex :=
  s_of (reject_reserved_prefix payload);;
  ensure_resident;;
  x ← on_group gid (
    r ← s_attempt (entry_node (propose_once tuning fuel payload));
    apply ← match r with Ok _ => s_attempt apply_group | Err _ => mret (Ok tt) end;
    mret (r, apply));
  match x with
  | None => no_group gid
  | Some (r, apply) =>
      idx ← s_of r;
      s_of apply;;
      mret idx
  end.

(** ** Frames *)

(** One frame on its group: the handler, the commit index and the apply loop,
    and whether a transfer asks for a campaign. *)
Definition frame_step (f : bytes) : Steps Entry (res unit * res unit * bool) :=
  step ← match decode_message f with
         | Ok im =>
             r ← s_attempt (entry_node_m (handle_inbound im));
             match r with
             | Ok _ => mret (Ok tt)
             | Err e =>
                 if is_fatal e then mret (Err e)
                 else entry_node_m (on_metrics inc_frames_dropped_nonfatal);; mret (Ok tt)
             end
         | Err _ => entry_node_m (on_metrics inc_frames_dropped_nonfatal);; mret (Ok tt)
         end;
  post ← match step with
         | Ok _ =>
             leader ← s_gets (fun e => is_leader (ge_node e));
             adv ← s_attempt (if leader : bool then entry_node_m try_advance_commit_index else mret tt);
             match adv with
             | Ok _ => s_attempt apply_group
             | Err e => mret (Err e)
             end
         | Err _ => mret (Ok tt)
         end;
  forced ← entry_node_m take_forced_campaign;
  mret (step, post, forced).

Definition count_unknown_group : Steps Driver unit :=
  s_modify (fun dr => dr_set_unknown (wrap_add64 (dr_unknown dr) 1) dr).

Definition dispatch_frame (gid : GroupId) (f : bytes) : Steps Driver unit :=
  x ← on_group gid (frame_step f);
  match x with
  | None => count_unknown_group
  | Some (step, post, forced) =>
      with_timers gid (timers_after_frame forced);;
      s_of step;;
      s_of post
  end.

Definition route_raw (f : bytes) : Steps Driver unit :=
  match frame_group f with
  | Some gid => dispatch_frame gid f
  | None => count_unknown_group
  end.

(** ** One tick *)

Fixpoint drain_parked (k : nat) : Steps Driver nat :=
  match k with
  | O => mret 0%nat
  | Datatypes.S k' =>
      x ← (fun dr => let '(x, d) := pop_parked_into MAX_FRAME_SIZE (dr_shared dr) in
                     Ok (x, dr_set_shared d dr));
      match x with
      | None => mret 0%nat
      | Some (gid, f) =>
          dispatch_frame gid f;;
          processed ← drain_parked k';
          mret (Datatypes.S processed)
      end
  end.

(** A receive of the driver itself: errors that are not fatal end the wait. *)
Definition driver_recv (timeout : Z) : Steps Driver (option bytes) :=
  x ← s_attempt (fun dr =>
        let '(x, t) := recv_frame_timeout timeout MAX_FRAME_SIZE (dr_inner dr) in
        Ok (x, dr_set_inner t dr));
  match x with
  | Ok o => mret o
  | Err e => if is_fatal e then s_err e else mret None
  end.

Fixpoint drain_inner (k : nat) : Steps Driver nat :=
  match k with
  | O => mret 0%nat
  | Datatypes.S k' =>
      x ← driver_recv 0;
      match x with
      | None => mret 0%nat
      | Some f =>
          route_raw f;;
          processed ← drain_inner k';
          mret (Datatypes.S processed)
      end
  end.

(** The wait until the earliest deadline. *)
Definition idle_wait (max_wait now : Z) (timers : gmap GroupId GroupTimers) : Z :=
  map_fold (fun _ t wait =>
    Z.min (Z.min wait (sat_sub (gt_next_heartbeat_at t) now)) (sat_sub (gt_next_election_at t) now))
    max_wait timers.

Definition idle_receive (max_wait : Z) : Steps Driver nat :=
  if max_wait =? 0 then mret 0%nat
  else
    now ← driver_now;
    wait ← s_gets (fun dr => idle_wait max_wait now (dr_timers dr));
    if wait =? 0 then mret 0%nat
    else
      x ← driver_recv wait;
      match x with
      | None => mret 0%nat
      | Some f => route_raw f;; mret 1%nat
      end.

(** Pre-vote gated election; forced campaigns skip the pre-vote. *)
Definition driver_run_election (fuel : nat) (forced : bool) : L S Mux C D bool :=
  pre ← (if forced then mret true
         else
           r ← attempt_loop (campaign_pre_vote fuel MAX_FRAME_SIZE);
           match r with
           | Ok ok => mret ok
           | Err NoQuorum => mret false
           | Err e => if is_fatal e then run (err e) else mret false
           end);
  if pre : bool then campaign_once fuel MAX_FRAME_SIZE else mret false.

(** The heartbeat part of [tick_group] on a leader. *)
Definition leader_tick (fuel : nat) (gid : GroupId) : Steps Driver unit :=
  active ← on_idle_group gid check_quorum_active;
  if default true active
  then
    r ← on_group gid (s_attempt (entry_node (send_heartbeat_once fuel)));
    tolerate (default (Ok tt) r)
  else
    on_idle_group gid (term ← gets node_term; step_down term);;
    mret tt.

(** The election part of [tick_group] on any other node. *)
Definition election_tick (fuel : nat) (gid : GroupId) (forced : bool) : Steps Driver unit :=
  with_timers gid timers_take_forced;;
  x ← on_group gid (
    r ← s_attempt (entry_node (driver_run_election fuel forced));
    hb ← announce fuel r;
    mret (r, hb));
  match x with
  | None => mret tt
  | Some (r, hb) =>
      with_timers gid timers_reset_election;;
      match r with Ok true => with_timers gid timers_reset_heartbeat | _ => mret tt end;;
      tolerate r;;
      tolerate hb
  end.

Definition tick_group (fuel : nat) (now : Z) (gid : GroupId) : Steps Driver unit :=
  found ← s_gets (fun dr => (dr_groups dr !! gid, dr_timers dr !! gid));
  match found with
  | (Some e, Some t) =>
      let leader := is_leader (ge_node e) in
      (if gt_next_heartbeat_at t <=? now then
         with_timers gid timers_reset_heartbeat;;
         if leader then leader_tick fuel gid else mret tt
       else mret tt);;
      (if negb leader && (gt_next_election_at t <=? now)
       then election_tick fuel gid (gt_forced_campaign t) else mret tt)
  | _ => mret tt
  end.

Definition is_due (now : Z) (t : GroupTimers) : bool :=
  (gt_next_heartbeat_at t <=? now) || (gt_next_election_at t <=? now).

Fixpoint s_for_each {X A} (l : list A) (f : A -> Steps X unit) : Steps X unit :=
  match l with
  | [] => mret tt
  | a :: l' => f a;; s_for_each l' f
  end.

Definition tick_timers (fuel : nat) (order : list GroupId) : Steps Driver unit :=
  now ← driver_now;
  due ← s_gets (fun dr => List.filter (fun gid =>
          match dr_timers dr !! gid with Some t => is_due now t | None => false end) order);
  s_for_each due (tick_group fuel now).

Definition driver_run_once (fuel : nat) (order : list GroupId) (max_wait : Z) : Steps Driver nat :=
  ensure_resident;;
  parked ← drain_parked BURST_FRAMES;
  received ← drain_inner (BURST_FRAMES - parked);
  let processed := (parked + received)%nat in
  waited ← (if (processed =? 0)%nat then idle_receive max_wait else mret 0%nat);
  tick_timers fuel order;;
  mret (processed + waited)%nat.
End Driver.
