(* ===== verification/Transports.v ===== *)
(** * Transports: a node uses its transport only through the interface

    For a relation [R] that holds between a transport and itself after each
    operation of [RaftTransport], the transports before and after every method of
    the node, looping ones included, are in [R]; the outbound buffer a method was
    given is as long after it as before; and its clock was read, nothing else.
    Clients of these facts are the driver, whose groups run over a shared transport
    and on lent buffers, and the termination of the waiting loops. *)

From stdpp Require Import base list sets gmap strings relations.
From Stdlib Require Import ZArith Lia.
From S2P Require Import Prelude Types Wire Codec CodecFacts Arena Progress Quorum Traits.
From S2P Require Import Membership NodeState Node Election ConfigChange Replication Commit Snapshot.
From S2P Require Import Transfer Inbound Campaign Leader Install Propose.

Local Open Scope Z_scope.

(** A preorder that contains every operation of the transport. *)
Class TransportRel (T : Type) `{RaftTransport T} (R : T -> T -> Prop) := {
  rel_preorder :: PreOrder R;
  rel_vectored p slices t : R t (send_vectored p slices t).2;
  rel_owned p frame t : R t (send_frame_owned p frame t).2;
  rel_recv len t : R t (recv_frame len t).2;
  rel_recv_timeout timeout len t : R t (recv_frame_timeout timeout len t).2;
}.

(** What a handler of custom messages does to the transport is in it too. *)
Class DispatchRel (D T : Type) `{CustomDispatch D T} (R : T -> T -> Prop) := {
  rel_invoke route from self payload d t : R t (invoke_custom route from self payload d t).2;
}.

#[export] Instance unit_dispatch_rel {T} (R : T -> T -> Prop) `{!PreOrder R} : DispatchRel unit T R.
Proof. split. intros. cbn. reflexivity. Qed.

(** Later readings of a clock. *)
Definition reads {C} `{Clock C} : C -> C -> Prop := rtc (fun ck ck' => ck' = (clock_now ck).2).

Lemma reads_once {C} `{Clock C} ck : reads ck (clock_now ck).2.
Proof. by apply rtc_once. Qed.

#[export] Instance reads_preorder {C} `{Clock C} : PreOrder reads.
Proof. unfold reads. typeclasses eauto. Qed.

Section Rides.
Context {S T C D : Type} `{RaftStorage S} `{RaftTransport T} `{Clock C} `{CustomDispatch D T}.
Context (R : T -> T -> Prop) `{!TransportRel T R} `{!DispatchRel D T R}.
Implicit Types n : RaftNode S T C D.
#[local] Abbreviation M := (M S T C D).
#[local] Abbreviation L := (L S T C D).

(** The node before and after: the transport in [R], the buffer in place. *)
Record rode n n' : Prop := {
  rode_transport : R (transport n) (transport n');
  rode_scratch : length (scratch_outbound n') = length (scratch_outbound n);
  rode_clock : reads (clock n) (clock n');
}.
#[export] Instance rode_preorder : PreOrder rode.
Proof.
  split; [by intros n|]. intros n1 n2 n3 [T1 B1 C1] [T2 B2 C2].
  split; [by etransitivity|congruence|by etransitivity].
Qed.

Definition rides {A} (m : M A) : Prop := forall n, rode n (m n).2.
Definition rides_loop {A} (m : L A) : Prop := forall n r n', m n = Ok (r, n') -> rode n n'.

(** ** Rules *)

Lemma rides_bind {A B} (m : M A) (k : A -> M B) :
  rides m -> (forall a, rides (k a)) -> rides (m ≫= k).
Proof.
  intros Hm Hk n. unfold mbind, M_bind. specialize (Hm n).
  destruct (m n) as [[a|e] n']; cbn [snd] in *; [|done]. etransitivity; [exact Hm|apply Hk].
Qed.
Lemma rides_same {A} (m : M A) :
  (forall n, transport (m n).2 = transport n /\
             length (scratch_outbound (m n).2) = length (scratch_outbound n) /\
             clock (m n).2 = clock n) -> rides m.
Proof.
  intros Hm n. destruct (Hm n) as (Ht & Hs & Hc). split; [by rewrite Ht|exact Hs|by rewrite Hc].
Qed.
Lemma rides_modify f :
  (forall n, transport (f n) = transport n /\ scratch_outbound (f n) = scratch_outbound n /\
             clock (f n) = clock n) ->
  rides (modify f).
Proof. intros Hf. apply rides_same. intros n. destruct (Hf n) as (Ht & Hs & Hc). cbn. by rewrite Hs. Qed.
Lemma rides_attempt {A} (m : M A) : rides m -> rides (attempt m).
Proof. intros Hm n. specialize (Hm n). unfold attempt. by destruct (m n). Qed.
Lemma rides_on_storage {A} (op : S -> res A * S) : rides (on_storage op).
Proof. apply rides_same. intros n. unfold on_storage. by destruct (op (storage n)). Qed.
Lemma rides_now : rides now.
Proof.
  intros n. unfold now. pose proof (reads_once (clock n)) as Hr.
  destruct (clock_now (clock n)). by split.
Qed.
Lemma rides_on_transport {A} (op : T -> res A * T) :
  (forall t, R t (op t).2) -> rides (on_transport op).
Proof.
  intros Ho n. unfold on_transport. specialize (Ho (transport n)).
  by destruct (op (transport n)); split.
Qed.
Lemma rides_for_each {X} (l : list X) body : (forall x, rides (body x)) -> rides (for_each l body).
Proof.
  intros Hb. induction l as [|x l IH]; cbn [for_each]; [by apply rides_same|].
  apply rides_bind; [apply Hb|]. intros _. exact IH.
Qed.
Lemma rides_encode {A} (f : RaftNode S T C D -> res A) : rides (fun n => (f n, n)).
Proof. by apply rides_same. Qed.

Lemma rides_loop_bind {A B} (m : L A) (k : A -> L B) :
  rides_loop m -> (forall a, rides_loop (k a)) -> rides_loop (m ≫= k).
Proof.
  intros Hm Hk n r n'. unfold mbind, L_bind. destruct (m n) as [[[a|e] n1]|] eqn:E; [| |done].
  - intros E'. etransitivity; [by eapply Hm|by eapply Hk].
  - intros [= _ <-]. by eapply Hm.
Qed.
Lemma rides_loop_ret {A} (a : A) : rides_loop (mret a).
Proof. intros n r n' [= _ <-]. reflexivity. Qed.
Lemma rides_run {A} (m : M A) : rides m -> rides_loop (run m).
Proof. intros Hm n r n' [= E]. specialize (Hm n). by rewrite E in Hm. Qed.
Lemma rides_stop {A} (s : Stop) : rides_loop (A := A) (fun _ => Err s).
Proof. by intros n r n'. Qed.
Lemma rides_attempt_loop {A} (m : L A) : rides_loop m -> rides_loop (attempt_loop m).
Proof.
  intros Hm n r n'. unfold attempt_loop. destruct (m n) as [[r1 n1]|] eqn:E; [|done].
  intros [= _ <-]. by eapply Hm.
Qed.

(** ** Sends and handlers of custom messages *)

Lemma rides_send_message peer msg : rides (send_message peer msg).
Proof.
  intros n. unfold send_message.
  destruct (encode_message_vectored _ _ _) as [[[buf out]|]|] eqn:El; [|cbn; reflexivity..].
  apply encode_vectored_length in El.
  match goal with |- context [send_vectored ?p ?s ?t] =>
    pose proof (rel_vectored (R := R) p s t) as Hr; destruct (send_vectored p s t) as [r t'] eqn:E
  end. cbn in Hr |- *. by split.
Qed.
Lemma rides_encode_frame msg : rides (encode_frame msg : M bytes).
Proof. apply rides_same. intros n. unfold encode_frame. by destruct (encode_message_to_bytes _ _ _). Qed.
Lemma rides_encode_vectored msg : rides (encode_vectored msg : M _).
Proof.
  apply rides_same. intros n. unfold encode_vectored.
  destruct (encode_message_vectored _ _ _) as [[[buf out]|]|] eqn:El; [|done..].
  by apply encode_vectored_length in El.
Qed.
Lemma rides_custom from payload : rides (handle_custom_message from payload).
Proof.
  intros n. unfold handle_custom_message.
  match goal with |- context [invoke_custom ?a ?b ?c ?d ?e ?f] =>
    pose proof (rel_invoke (R := R) a b c d e f) as Hr; destruct (invoke_custom a b c d e f) as [[r d'] t]
  end. by split.
Qed.
Lemma rides_custom_response from payload : rides (handle_custom_response from payload).
Proof.
  apply rides_same. intros n. unfold handle_custom_response.
  by destruct (on_custom_response _ _ _) as [r d].
Qed.
End Rides.

Create HintDb rides discriminated.
#[export] Hint Resolve rides_send_message rides_encode_frame rides_encode_vectored rides_custom
  rides_custom_response : rides.

(** Opens the method at the head. *)
Ltac rides_unfold m := let h := get_head m in unfold h.

(** Applies a rule; the law about [R] is in the context. *)
Ltac rule H := unshelve (eapply H); try (typeclasses eauto).

Ltac rides_step :=
  lazymatch goal with
  | |- rides _ (mbind _ _) => rule rides_bind; [|intros ?]
  | |- rides _ (mret _) => by rule rides_same
  | |- rides _ (err _) => by rule rides_same
  | |- rides _ (gets _) => by rule rides_same
  | |- rides _ (from_res _) => by rule rides_same
  | |- rides _ (modify _) =>
      rule rides_modify; intros ?; first [by split | by repeat case_match]
  | |- rides _ (on_metrics _) => by rule rides_same
  | |- rides _ (attempt _) => rule rides_attempt
  | |- rides _ (whenM ?b _) => unfold whenM; destruct b
  | |- rides _ (on_storage _) => by rule rides_on_storage
  | |- rides _ (on_transport _) => rule rides_on_transport; intros ?;
      first [apply rel_vectored | apply rel_owned | apply rel_recv | apply rel_recv_timeout]
  | |- rides _ now => by rule rides_now
  | |- rides _ (for_each _ _) => rule rides_for_each; intros ?
  | |- rides _ (if ?b then _ else _) => destruct b
  | |- rides _ (match ?x with _ => _ end) => destruct x
  | |- rides_loop _ (mbind _ _) => rule rides_loop_bind; [|intros ?]
  | |- rides_loop _ (mret _) => by rule rides_loop_ret
  | |- rides_loop _ (run _) => rule rides_run
  | |- rides_loop _ out_of_fuel => rule rides_stop
  | |- rides_loop _ panic => rule rides_stop
  | |- rides_loop _ (attempt_loop _) => rule rides_attempt_loop
  | |- rides_loop _ (if ?b then _ else _) => destruct b
  | |- rides_loop _ (match ?x with _ => _ end) => destruct x
  | |- rides _ ?m => first [solve [eauto with rides typeclass_instances] | rides_unfold m]
  | |- rides_loop _ ?m => first [solve [eauto with rides typeclass_instances] | rides_unfold m]
  end.
Ltac rides_auto := repeat (rides_step; cbv beta zeta).

Section Methods.
Context {S T C D SM : Type} `{RaftStorage S} `{RaftTransport T} `{Clock C} `{CustomDispatch D T}
  `{StateMachine SM}.
Context (R : T -> T -> Prop) `{!TransportRel T R} `{!DispatchRel D T R}.
Implicit Types n : RaftNode S T C D.
#[local] Abbreviation M := (M S T C D).
#[local] Abbreviation L := (L S T C D).
#[local] Abbreviation rides := (rides R).
#[local] Abbreviation rides_loop := (rides_loop R).

(** ** Inbound messages *)

Lemma rides_evict l k : rides (evict_loop l k : M Z).
Proof. revert k. induction l as [|[p s] l IH]; intros k; cbn [evict_loop]; rides_auto. Qed.

Lemma rides_evict_stalled : rides (evict_stalled_snapshots : M Z).
Proof. intros n. unfold evict_stalled_snapshots. apply rides_evict. Qed.

Lemma rides_scan what start count items idx :
  rides (scan_entries what start count items idx : M nat).
Proof.
  revert idx. induction items as [|[i t] items IH]; intros idx; cbn [scan_entries]; rides_auto.
Qed.
#[local] Hint Resolve rides_evict_stalled rides_scan : rides.

Lemma rides_handle_inbound im : rides (handle_inbound im : M unit).
Proof. rides_auto. Qed.
#[local] Hint Resolve rides_handle_inbound : rides.

Lemma rides_handle_tolerant im : rides (handle_inbound_tolerant im : M unit).
Proof. rides_auto. Qed.
#[local] Hint Resolve rides_handle_tolerant : rides.

(** ** Campaigns *)

Lemma rides_drain_loop fuel deadline len msgs : rides_loop (drain_loop fuel deadline len msgs : L _).
Proof. revert len msgs. induction fuel as [|fuel IH]; intros; cbn [drain_loop]; rides_auto. Qed.

Lemma rides_count select expected msgs b : rides (count_responses select expected msgs b : M _).
Proof. revert b. induction msgs as [|im msgs IH]; intros b; cbn [count_responses]; rides_auto. Qed.

Lemma rides_send_frames peers frame : rides (send_frames peers frame : M Z).
Proof. induction peers as [|p peers IH]; cbn [send_frames]; rides_auto. Qed.
#[local] Hint Resolve rides_drain_loop rides_count rides_send_frames : rides.

Lemma rides_collect fuel term possible deadline len b :
  rides_loop (collect_loop fuel term possible deadline len b : L bool).
Proof. revert b. induction fuel as [|fuel IH]; intros b; cbn [collect_loop]; rides_auto. Qed.

Lemma rides_pre_vote_loop fuel term possible deadline len b :
  rides_loop (pre_vote_loop fuel term possible deadline len b : L bool).
Proof. revert b. induction fuel as [|fuel IH]; intros b; cbn [pre_vote_loop]; rides_auto. Qed.
#[local] Hint Resolve rides_collect rides_pre_vote_loop : rides.

Lemma rides_campaign fuel len : rides_loop (campaign_once fuel len : L bool).
Proof. rides_auto. Qed.
Lemma rides_pre_vote fuel len : rides_loop (campaign_pre_vote fuel len : L bool).
Proof. rides_auto. Qed.

(** ** Heartbeats and snapshots *)

Lemma rides_await fuel :
  (forall peer st total off rounds mr timeout fin,
     rides_loop (await_install_reply fuel peer st total off rounds mr timeout fin : L _)) /\
  (forall peer st total off rounds mr timeout fin im,
     rides_loop (other_frame fuel peer st total off rounds mr timeout fin im : L _)).
Proof.
  induction fuel as [|fuel [IHa IHo]]; split; intros; cbn [await_install_reply other_frame]; rides_auto.
Qed.

Lemma rides_await_reply fuel peer st total off rounds mr timeout fin :
  rides_loop (await_install_reply fuel peer st total off rounds mr timeout fin : L _).
Proof. apply rides_await. Qed.
#[local] Hint Resolve rides_await_reply : rides.

Lemma rides_install_loop fuel peer meta snap st off hb rounds :
  rides_loop (install_loop fuel peer meta snap st off hb rounds : L _).
Proof. revert off hb rounds. induction fuel as [|fuel IH]; intros; cbn [install_loop]; rides_auto. Qed.
#[local] Hint Resolve rides_install_loop : rides.

Lemma rides_heartbeat_indices fuel last_log idx escalated :
  rides_loop (heartbeat_indices fuel last_log idx escalated : L _).
Proof. revert escalated. induction idx; intros; cbn [heartbeat_indices]; rides_auto. Qed.
#[local] Hint Resolve rides_heartbeat_indices : rides.

Lemma rides_heartbeat fuel : rides_loop (send_heartbeat_once fuel : L unit).
Proof. rides_auto. Qed.

(** ** Proposals *)

Lemma rides_send_each (send : PeerId -> M unit) peers :
  (forall p, rides (send p)) -> rides (send_each send peers).
Proof. intros Hs. induction peers as [|p peers IH]; cbn [send_each]; rides_auto. Qed.

Lemma rides_fan_out tuning msg entries : rides (fan_out tuning msg entries : M _).
Proof. unfold fan_out. rides_auto; apply rides_send_each; intros; rides_auto. Qed.
#[local] Hint Resolve rides_fan_out : rides.

Lemma rides_gather_burst fuel needed last deadline accepted :
  rides_loop (gather_burst fuel needed last deadline accepted : L _).
Proof. revert accepted. induction fuel; intros; cbn [gather_burst]; rides_auto. Qed.
#[local] Hint Resolve rides_gather_burst : rides.

Lemma rides_gather_loop fuel needed last deadline accepted :
  rides_loop (gather_loop fuel needed last deadline accepted : L _).
Proof. revert accepted. induction fuel; intros; cbn [gather_loop]; rides_auto. Qed.

Lemma rides_drain_ready fuel : rides_loop (drain_inbound_ready fuel : L unit).
Proof. induction fuel; cbn [drain_inbound_ready]; rides_auto. Qed.
#[local] Hint Resolve rides_gather_loop rides_drain_ready : rides.

Lemma rides_propose tuning fuel payload : rides_loop (propose_once tuning fuel payload : L _).
Proof. rides_auto. Qed.

(** ** Applying *)

Lemma rides_reseat meta : rides (reseat_at_boundary meta : M unit).
Proof. rides_auto. Qed.

Lemma rides_restore sm n :
  rode R n (restore_state_machine_from_snapshot (SM := SM) sm n).2.
Proof.
  unfold restore_state_machine_from_snapshot, on_storage.
  repeat first [progress cbn | case_match]; simplify_eq/=;
    try solve [split; cbn; reflexivity].
  all: match goal with E : reseat_at_boundary ?m ?n0 = _ |- _ =>
         pose proof (rides_reseat m n0) as Hr; rewrite E in Hr; destruct Hr; by split end.
Qed.

Lemma rides_commit : rides (try_advance_commit_index : M unit).
Proof. rides_auto. Qed.
Lemma rides_config_change payload : rides (apply_if_config_change payload : M bool).
Proof. rides_auto. Qed.
Lemma rides_compact sm : rides (maybe_compact (SM := SM) sm : M _).
Proof. rides_auto. Qed.
Lemma rides_forced : rides (take_forced_campaign : M bool).
Proof. rides_auto. Qed.
Lemma rides_check_quorum : rides (check_quorum_active : M bool).
Proof. rides_auto. Qed.
Lemma rides_step_down t : rides (step_down t : M unit).
Proof. rides_auto. Qed.
End Methods.

#[export] Hint Resolve rides_evict_stalled rides_scan rides_handle_tolerant rides_count rides_send_frames
  rides_fan_out rides_install_loop : rides.
#[export] Hint Resolve rides_handle_inbound rides_campaign rides_pre_vote rides_heartbeat
  rides_propose rides_commit rides_config_change rides_compact rides_forced rides_check_quorum
  rides_step_down : rides.
