(* ===== verification/DriverFacts.v ===== *)
(** * DriverFacts: the groups of a driver share everything and interfere nowhere

    The driver keeps its tables in step, its groups on the shared buffers and the
    parked frames with their groups ([driver_keeps_tables]); a group that has no frame
    is not touched by the frames of a tick, nor by its timers when none of its own is
    due ([quiet_group_untouched]); and its apply loop is the one of the single-group
    engine ([apply_group_mirrors_engine]). *)

From stdpp Require Import base list sets gmap strings relations pretty.
From Stdlib Require Import ZArith Lia.
From S2P Require Import Prelude Types Wire Codec CodecFacts Guard Arena Progress Quorum Traits.
From S2P Require Import Membership NodeState Node Samples Election ConfigChange Commit Snapshot Transfer Inbound.
From S2P Require Import Campaign Leader Install Propose EngineState Engine Multiplex MultiplexFacts.
From S2P Require Import Registry Driver Transports Frames.

Local Open Scope Z_scope.

(** A megabyte of zeros is not to be computed. *)
Opaque OUTBOUND_SCRATCH.

(** ** What a group does to the shared transport *)

Section Shares.
Context {T C : Type} `{TransportLaws T} `{Clock C}.
#[local] Abbreviation Mux := (MultiplexedTransport T C).
Implicit Types t : Mux.

(** No frame of group [g] is among [fs]. *)
Definition no_frame (g : GroupId) (fs : list bytes) : Prop := Forall (fun f => frame_group f <> Some g) fs.

(** [t'] is [t] after some operations of one group: it is still the group's, the
    table is well formed and has the same groups, and a group without frames on
    the way keeps its queue. *)
Record shares t t' : Prop := {
  sh_group : mx_group t' = mx_group t;
  sh_ok : demux_ok (mx_shared t) -> demux_ok (mx_shared t');
  sh_dom : dom (inboxes (demux (mx_shared t'))) = dom (inboxes (demux (mx_shared t)));
  sh_quiet g : g <> mx_group t -> no_frame g (inbox (mx_inner t)) ->
    no_frame g (inbox (mx_inner t')) /\
    inboxes (demux (mx_shared t')) !! g = inboxes (demux (mx_shared t)) !! g;
}.

#[export] Instance shares_preorder : PreOrder shares.
Proof.
  split; [by intros t|]. intros t1 t2 t3 [G1 O1 D1 Q1] [G2 O2 D2 Q2].
  split; [congruence|auto|congruence|]. intros g Hg Hn.
  destruct (Q1 g Hg Hn) as [Hn2 E1]. rewrite <- G1 in Hg. destruct (Q2 g Hg Hn2) as [? ?].
  split; [done|congruence].
Qed.

Lemma no_frame_subset g fs fs' : fs' ⊆ fs -> no_frame g fs -> no_frame g fs'.
Proof. unfold no_frame. rewrite !Forall_forall. auto. Qed.

(** Only the inner transport changes, and it only loses frames. *)
Lemma shares_inner inner t : inbox inner ⊆ inbox (mx_inner t) -> shares t (set_inner inner t).
Proof. intros Hi. split; [done..|]. intros g _ Hn. split; [by eapply no_frame_subset|done]. Qed.

Lemma shares_clock ck t : shares t (set_mx_clock ck t).
Proof. by split. Qed.

Lemma shares_pop len t : shares t (set_shared (try_pop_into (mx_group t) len (mx_shared t)).2 t).
Proof.
  assert (Hb : inboxes (demux (try_pop_into (mx_group t) len (mx_shared t)).2) =
               inboxes (demux (mx_shared t)) \/
             exists f q, inboxes (demux (mx_shared t)) !! mx_group t = Some (f :: q) /\
               inboxes (demux (try_pop_into (mx_group t) len (mx_shared t)).2) =
               <[mx_group t := q]> (inboxes (demux (mx_shared t)))).
  { unfold try_pop_into. destruct (_ =? _); [by left|].
    destruct (inboxes (demux (mx_shared t)) !! mx_group t) as [[|f q]|] eqn:E; [by left| |by left].
    right. by exists f, q. }
  split; cbn.
  - done.
  - intros Hd. pose proof (try_pop_spec (mx_group t) len (mx_shared t) Hd) as Hs.
    by destruct (try_pop_into _ _ _), Hs.
  - destruct Hb as [->|(f & q & Hq & ->)]; [done|]. rewrite dom_insert_L.
    assert (mx_group t ∈ dom (inboxes (demux (mx_shared t)))) by (apply elem_of_dom; eauto). set_solver.
  - intros g Hg Hn. split; [done|]. destruct Hb as [->|(f & q & Hq & ->)]; [done|].
    by rewrite lookup_insert_ne.
Qed.

Lemma divert_boxes f d g :
  frame_group f <> Some g -> inboxes (demux (divert f d)) !! g = inboxes (demux d) !! g.
Proof.
  intros Hg. unfold divert, park. repeat (case_match; try done); cbn;
    rewrite lookup_insert_ne; congruence.
Qed.

Lemma divert_dom f d : dom (inboxes (demux (divert f d))) = dom (inboxes (demux d)).
Proof.
  unfold divert, park. repeat (case_match; try done); cbn; rewrite dom_insert_L;
    match goal with E : inboxes _ !! ?z = Some _ |- _ =>
      assert (z ∈ dom (inboxes (demux d))) by (apply elem_of_dom; eauto) end; set_solver.
Qed.

(** A frame of another group, received and parked. *)
Lemma shares_divert f inner t :
  inbox inner ⊆ inbox (mx_inner t) -> f ∈ inbox (mx_inner t) ->
  shares t (set_shared (divert f (mx_shared t)) (set_inner inner t)).
Proof.
  intros Hi Hin. split; cbn.
  - done.
  - apply divert_spec.
  - apply divert_dom.
  - intros g Hg Hn. split; [by eapply no_frame_subset|]. apply divert_boxes.
    unfold no_frame in Hn. rewrite Forall_forall in Hn. by apply Hn.
Qed.

Lemma shares_recv fuel len t x t' : mux_recv_loop fuel len t = Ok (x, t') -> shares t t'.
Proof.
  revert t. induction fuel as [|fuel IH]; intros t; cbn [mux_recv_loop]; [done|].
  pose proof (shares_pop len t) as Hp. destruct (try_pop_into _ _ _) as [p d]. cbn [snd] in Hp.
  set (t1 := set_shared d t) in *. destruct p as [[f|]|e]; [by intros [= _ <-]| |by intros [= _ <-]].
  destruct (recv_frame len (mx_inner t1)) as [y inner] eqn:Er.
  apply recv_frame_law in Er as (_ & Hi & Hf). pose proof (shares_inner inner t1 Hi) as Ht.
  destruct y as [f|e]; [|intros [= _ <-]; by etransitivity].
  destruct (is_own _ f); [intros [= _ <-]; by etransitivity|].
  intros E. apply IH in E. etransitivity; [exact Hp|]. etransitivity; [|exact E].
  apply (shares_divert f inner t1); [done|by apply Hf].
Qed.

Lemma shares_recv_timeout fuel deadline len t x t' :
  mux_recv_timeout_loop fuel deadline len t = Ok (x, t') -> shares t t'.
Proof.
  revert t. induction fuel as [|fuel IH]; intros t; cbn [mux_recv_timeout_loop]; [done|].
  pose proof (shares_pop len t) as Hp. destruct (try_pop_into _ _ _) as [p d]. cbn [snd] in Hp.
  set (t1 := set_shared d t) in *. destruct p as [[f|]|e]; [by intros [= _ <-]| |by intros [= _ <-]].
  destruct (clock_now _) as [now ck]. pose proof (shares_clock ck t1) as Hc.
  set (t2 := set_mx_clock ck t1) in *.
  assert (Hs : shares t t2) by by etransitivity.
  destruct (_ =? 0); [by intros [= _ <-]|].
  destruct (recv_frame_timeout _ len (mx_inner t2)) as [y inner] eqn:Er.
  apply recv_frame_timeout_law in Er as (_ & Hi & Hf). pose proof (shares_inner inner t2 Hi) as Ht.
  destruct y as [[f|]|e]; [|intros [= _ <-]; by etransitivity..].
  destruct (is_own _ f); [intros [= _ <-]; by etransitivity|].
  intros E. apply IH in E. etransitivity; [exact Hs|]. etransitivity; [|exact E].
  apply (shares_divert f inner t2); [done|by apply Hf].
Qed.

#[export] Instance shares_transport : TransportRel Mux shares.
Proof.
  split; [typeclasses eauto|..].
  - intros p slices t. cbn. unfold mux_send_vectored. destruct (stamped_slices _ _); [|cbn; reflexivity].
    destruct (send_vectored _ _ _) as [r inner] eqn:E. apply send_vectored_law in E as [_ E]. cbn.
    apply shares_inner. by rewrite E.
  - intros p frame t. cbn. unfold mux_send_frame_owned. destruct (_ <? _)%nat; [cbn; reflexivity|].
    destruct (send_frame_owned _ _ _) as [r inner] eqn:E. apply send_frame_owned_law in E as [_ E]. cbn.
    apply shares_inner. by rewrite E.
  - intros len t. cbn [recv_frame multiplexed_transport].
    destruct (mux_recv_loop _ len t) as [[x t']|] eqn:E; [by eapply shares_recv|cbn; reflexivity].
  - intros timeout len t. cbn [recv_frame_timeout multiplexed_transport]. unfold mux_recv_frame_timeout.
    destruct (clock_now _) as [now ck]. destruct (mux_recv_timeout_loop _ _ len _) as [[x t']|] eqn:E;
      [|cbn; reflexivity].
    etransitivity; [apply (shares_clock ck)|by eapply shares_recv_timeout].
Qed.
End Shares.

(** ** Invariants of computations *)

Section Preserves.
Context {X : Type} (I : X -> X -> Prop) `{!PreOrder I}.

(** The states before and after [m] are in [I]. *)
Definition stays {A} (m : Steps X A) : Prop := forall x r x', m x = Ok (r, x') -> I x x'.

Lemma stays_bind {A B} (m : Steps X A) (k : A -> Steps X B) :
  stays m -> (forall a, stays (k a)) -> stays (m ≫= k).
Proof.
  intros Hm Hk x r x'. unfold mbind, Steps_bind. destruct (m x) as [[[a|e] x1]|] eqn:E; [| |done].
  - intros E'. etransitivity; [by eapply Hm|by eapply Hk].
  - intros [= _ <-]. by eapply Hm.
Qed.
Lemma stays_ret {A} (a : A) : stays (mret a).
Proof. intros x r x' [= _ <-]. reflexivity. Qed.
Lemma stays_of {A} (v : res A) : stays (s_of v).
Proof. intros x r x' [= _ <-]. reflexivity. Qed.
Lemma stays_err {A} e : stays (s_err (A := A) e).
Proof. intros x r x' [= _ <-]. reflexivity. Qed.
Lemma stays_gets {A} (f : X -> A) : stays (s_gets f).
Proof. intros x r x' [= _ <-]. reflexivity. Qed.
Lemma stays_modify f : (forall x, I x (f x)) -> stays (s_modify f).
Proof. intros Hf x r x' [= _ <-]. apply Hf. Qed.
Lemma stays_attempt {A} (m : Steps X A) : stays m -> stays (s_attempt m).
Proof.
  intros Hm x r x'. unfold s_attempt. destruct (m x) as [[r1 x1]|] eqn:E; [|done].
  intros [= _ <-]. by eapply Hm.
Qed.
Lemma stays_tolerate {A} (v : res A) : stays (tolerate v).
Proof. intros x r x'. unfold tolerate. repeat case_match; intros [= _ <-]; reflexivity. Qed.
Lemma stays_for_each {A} (l : list A) f : (forall a, a ∈ l -> stays (f a)) -> stays (s_for_each l f).
Proof.
  induction l as [|a l IH]; intros Hf; cbn [s_for_each]; [apply stays_ret|].
  apply stays_bind; [apply Hf; set_solver|]. intros _. apply IH. intros b Hb. apply Hf. set_solver.
Qed.
End Preserves.

Create HintDb stays discriminated.

Ltac stays_step :=
  lazymatch goal with
  | |- stays _ (mbind _ _) => rule @stays_bind; [|intros ?]
  | |- stays _ (mret _) => rule @stays_ret
  | |- stays _ (s_of _) => rule @stays_of
  | |- stays _ (s_err _) => rule @stays_err
  | |- stays _ (s_gets _) => rule @stays_gets
  | |- stays _ (s_attempt _) => rule @stays_attempt
  | |- stays _ (tolerate _) => rule @stays_tolerate
  | |- stays _ (if ?b then _ else _) => destruct b
  | |- stays _ (match ?x with _ => _ end) => destruct x
  | |- stays _ ?m => first [solve [eauto with stays] | let h := get_head m in unfold h]
  end.
Ltac stays_auto := repeat (stays_step; cbv beta zeta).

(** ** Groups *)

Section Groups.
Context {S T C D SM : Type} `{RaftStorage S} `{TransportLaws T} `{Clock C}
  `{!CustomDispatch D (MultiplexedTransport T C)} `{StateMachine SM}.
Context `{!DispatchRel D (MultiplexedTransport T C) shares}.
Context (tuning : VecTuning).
#[local] Abbreviation Mux := (MultiplexedTransport T C).
#[local] Abbreviation Node := (RaftNode S Mux C D).
#[local] Abbreviation Entry := (GroupEntry S Mux C D SM).
#[local] Abbreviation Driver := (MultiRaftDriver S T C D SM).
Implicit Types (n : Node) (e : Entry) (dr : Driver).

Definition entry_shares e e' : Prop := rode shares (ge_node e) (ge_node e').
#[export] Instance entry_shares_preorder : PreOrder entry_shares.
Proof. split; [by intros e|]. intros e1 e2 e3. unfold entry_shares. by etransitivity. Qed.

Lemma stays_entry_node {A} (m : L S Mux C D A) :
  rides_loop shares m -> stays entry_shares (entry_node (SM := SM) m).
Proof.
  intros Hm e r e'. unfold entry_node. destruct (m (ge_node e)) as [[x n]|] eqn:E; [|done].
  intros [= _ <-]. by eapply Hm.
Qed.
Lemma stays_entry_node_m {A} (m : M S Mux C D A) :
  rides shares m -> stays entry_shares (entry_node_m (SM := SM) m).
Proof. intros Hm. by apply stays_entry_node, rides_run. Qed.

(** The steps of a group: methods of its node, applied in order. *)
Ltac entry_step :=
  lazymatch goal with
  | |- stays _ (entry_node_m _) => apply stays_entry_node_m; solve [rides_auto]
  | |- stays _ (entry_node _) => apply stays_entry_node; solve [rides_auto]
  | |- _ => stays_step
  end.
Ltac entry_auto := repeat (entry_step; cbv beta zeta).

Lemma stays_apply_entry index payload :
  stays entry_shares (apply_group_entry index payload : Steps Entry unit).
Proof.
  unfold apply_group_entry. entry_auto. intros e r e'. destruct (apply_at _ _ _) as [x sm].
  intros [= _ <-]. unfold entry_shares. cbn. reflexivity.
Qed.
#[local] Hint Resolve stays_apply_entry : stays.

Lemma stays_apply_loop k next : stays entry_shares (apply_group_loop k next : Steps Entry unit).
Proof. revert next. induction k as [|k IH]; intros next; cbn [apply_group_loop]; entry_auto. Qed.
#[local] Hint Resolve stays_apply_loop : stays.

Lemma stays_apply_group : stays entry_shares (apply_group : Steps Entry unit).
Proof.
  unfold apply_group. entry_auto.
  intros e r e'. pose proof (rides_restore shares (ge_sm e) (ge_node e)) as Hr.
  destruct (restore_state_machine_from_snapshot _ _) as [[x sm] n]. intros [= _ <-]. exact Hr.
Qed.
#[local] Hint Resolve stays_apply_group : stays.

Lemma stays_frame_step f : stays entry_shares (frame_step f : Steps Entry _).
Proof. entry_auto. Qed.

Lemma stays_announce fuel elected : stays entry_shares (announce fuel elected : Steps Entry _).
Proof. entry_auto. Qed.
#[local] Hint Resolve stays_frame_step stays_announce : stays.

Lemma rides_run_election fuel forced : rides_loop shares (driver_run_election fuel forced : L S Mux C D bool).
Proof. rides_auto. Qed.
#[local] Hint Resolve rides_run_election : rides.

(** ** Invariants of the driver *)

(** The ranges of the timers. *)
Definition timers_ok (t : GroupTimers) : Prop :=
  1 <= gt_heartbeat_ms t /\ 1 <= gt_election_min_ms t <= gt_election_max_ms t.

(** Updates of the timers that keep the ranges and only read the clock. *)
Definition timers_fit (f : GroupTimers -> C -> GroupTimers * C) : Prop :=
  forall t ck, (timers_ok t -> timers_ok (f t ck).1) /\ reads ck (f t ck).2.

Lemma fit_heartbeat : timers_fit timers_reset_heartbeat.
Proof.
  intros t ck. unfold timers_reset_heartbeat. pose proof (reads_once ck) as Hr.
  by destruct (clock_now ck).
Qed.
Lemma fit_election : timers_fit timers_reset_election.
Proof.
  intros t ck. unfold timers_reset_election. pose proof (reads_once ck) as Hr.
  by destruct (clock_now ck).
Qed.
Lemma fit_take_forced : timers_fit timers_take_forced.
Proof. intros t ck. apply (fit_election (Build_GroupTimers _ _ false _ _ _ _)). Qed.
Lemma fit_after_frame forced : timers_fit (timers_after_frame forced).
Proof.
  intros t ck. unfold timers_after_frame. destruct (fit_election t ck) as [Hf Hr].
  destruct (timers_reset_election t ck) as [t1 ck1]. destruct forced; [|done].
  pose proof (reads_once ck1) as Hr1. destruct (clock_now ck1) as [now ck2]. cbn in *.
  split; [done|by etransitivity].
Qed.
Lemma fit_new gid node timing ck :
  timers_ok (timers_new gid node timing ck).1 /\ reads ck (timers_new gid node timing ck).2.
Proof.
  unfold timers_new. pose proof (reads_once ck) as H1'. destruct (clock_now ck) as [now1 ck1].
  pose proof (reads_once ck1) as H2'. destruct (clock_now ck1) as [now2 ck2]. cbn [snd] in *.
  set (t := Build_GroupTimers _ _ _ _ _ _ _).
  assert (Ht : timers_ok t) by (unfold timers_ok; cbn; lia).
  destruct (fit_election t ck2) as [Hf Hr]. destruct (timers_reset_election t ck2) as [t1 ck3].
  destruct (fit_heartbeat t1 ck3) as [Hf' Hr']. cbn [fst snd] in *.
  split; [by apply Hf', Hf|]. do 3 (etransitivity; [eassumption|]). done.
Qed.
#[local] Hint Resolve fit_heartbeat fit_election fit_take_forced fit_after_frame : stays.

Lemma keeps_scratch_quorum : keeps scratch_outbound (check_quorum_active : M S Mux C D bool).
Proof. unfold check_quorum_active. keeps_auto. Qed.
Lemma keeps_scratch_step_down t : keeps scratch_outbound (step_down t : M S Mux C D unit).
Proof. unfold step_down, persist_hard_state, demote_to_follower_keep_term. keeps_auto. Qed.
#[local] Hint Resolve keeps_scratch_quorum keeps_scratch_step_down : keeps.

(** [P] after [m] when [P] before. *)
Definition implies (P : Driver -> Prop) dr dr' : Prop := P dr -> P dr'.
#[export] Instance implies_preorder P : PreOrder (implies P).
Proof. split; unfold implies; [by intros dr|]. intros dr1 dr2 dr3. auto. Qed.
#[local] Abbreviation kept P := (stays (implies P)).

(** [P] is an invariant of what the driver does to the groups [allowed], and the
    frames that come in are theirs. *)
Record lawful (P : Driver -> Prop) (allowed : GroupId -> Prop) : Prop := {
  lw_group A gid (m : Steps Entry A) :
    allowed gid -> stays entry_shares m -> kept P (on_group gid m);
  lw_idle A gid (m : M S Mux C D A) :
    allowed gid -> rides shares m -> keeps scratch_outbound m -> kept P (on_idle_group gid m);
  lw_timers gid f : allowed gid -> timers_fit f -> kept P (with_timers gid f);
  lw_resident : kept P ensure_resident;
  lw_unknown : kept P count_unknown_group;
  lw_now : kept P driver_now;
  lw_pop dr x d : P dr -> pop_parked_into MAX_FRAME_SIZE (dr_shared dr) = (x, d) ->
    P (dr_set_shared d dr) /\ forall gid f, x = Ok (Some (gid, f)) -> allowed gid;
  lw_recv timeout dr x t : P dr -> recv_frame_timeout timeout MAX_FRAME_SIZE (dr_inner dr) = (x, t) ->
    P (dr_set_inner t dr) /\ forall f gid, x = Ok (Some f) -> frame_group f = Some gid -> allowed gid;
}.

Section Lawful.
Context (P : Driver -> Prop) (allowed : GroupId -> Prop) (HP : lawful P allowed).

Ltac driver_step :=
  lazymatch goal with
  | |- stays _ (on_group _ _) => apply (lw_group _ _ HP); [done|]; solve [entry_auto]
  | |- stays _ (on_idle_group _ _) =>
      apply (lw_idle _ _ HP); [done|solve [rides_auto]|solve [keeps_auto]]
  | |- stays _ (with_timers _ _) => apply (lw_timers _ _ HP); [done|solve [eauto with stays]]
  | |- stays _ ensure_resident => apply (lw_resident _ _ HP)
  | |- stays _ count_unknown_group => apply (lw_unknown _ _ HP)
  | |- stays _ driver_now => apply (lw_now _ _ HP)
  | |- _ => stays_step
  end.
Ltac driver_auto := repeat (driver_step; cbv beta zeta).

Lemma kept_dispatch gid f : allowed gid -> kept P (dispatch_frame gid f).
Proof. intros Hg. driver_auto. Qed.

Lemma kept_route f : (forall gid, frame_group f = Some gid -> allowed gid) -> kept P (route_raw f).
Proof.
  intros Hf. unfold route_raw. destruct (frame_group f) as [gid|]; [by apply kept_dispatch, Hf|].
  driver_auto.
Qed.

Lemma kept_drain_parked k : kept P (drain_parked k).
Proof.
  induction k as [|k IH]; cbn [drain_parked]; [driver_auto|].
  intros dr r dr'. unfold mbind, Steps_bind at 1.
  destruct (pop_parked_into _ _) as [x d] eqn:Ep. intros E Hdr.
  destruct (lw_pop _ _ HP _ _ _ Hdr Ep) as [Hd Hg]. destruct x as [[[gid f]|]|e].
  2, 3: by injection E as <- <-.
  specialize (Hg gid f eq_refl). revert Hd. eapply (stays_bind (implies P)); [| |exact E].
  - by apply kept_dispatch.
  - intros ?. cbv beta. apply stays_bind; [typeclasses eauto|exact IH|]. intros c. driver_auto.
Qed.

(** A receive of the driver, and what is done with the frame. *)
Lemma kept_recv {B} timeout (k : option bytes -> Steps Driver B) :
  kept P (k None) ->
  (forall f, (forall gid, frame_group f = Some gid -> allowed gid) -> kept P (k (Some f))) ->
  kept P (driver_recv timeout ≫= k).
Proof.
  intros Hnone Hsome dr r dr'. unfold driver_recv, mbind, Steps_bind, s_attempt.
  destruct (recv_frame_timeout _ _ _) as [x t] eqn:Er. intros E Hdr.
  destruct (lw_recv _ _ HP _ _ _ _ Hdr Er) as [Ht Hf]. revert Ht.
  destruct x as [[f|]|e]; cbn in E.
  - eapply Hsome; [|exact E]. intros gid. by apply Hf.
  - by eapply Hnone.
  - destruct (is_fatal e); cbn in E; [by injection E as <- <-|by eapply Hnone].
Qed.

Lemma kept_drain_inner k : kept P (drain_inner k).
Proof.
  induction k as [|k IH]; cbn [drain_inner]; [driver_auto|]. apply kept_recv; [driver_auto|].
  intros f Hf. apply stays_bind; [typeclasses eauto|by apply kept_route|]. intros _.
  apply stays_bind; [typeclasses eauto|exact IH|]. intros c. driver_auto.
Qed.

Lemma kept_idle max_wait : kept P (idle_receive max_wait).
Proof.
  unfold idle_receive. driver_step; [driver_auto|]. driver_step; [driver_auto|].
  driver_step; [driver_auto|]. driver_step; [driver_auto|]. apply kept_recv; [driver_auto|].
  intros f Hf. apply stays_bind; [typeclasses eauto|by apply kept_route|]. intros _. driver_auto.
Qed.

(** The frames of a tick. *)
Definition frames_of_tick (max_wait : Z) : Steps Driver nat :=
  ensure_resident;;
  parked ← drain_parked BURST_FRAMES;
  received ← drain_inner (BURST_FRAMES - parked);
  waited ← (if (parked + received =? 0)%nat then idle_receive max_wait else mret 0%nat);
  mret (parked + received + waited)%nat.

Lemma run_once_split fuel order max_wait dr :
  driver_run_once fuel order max_wait dr =
  (total ← frames_of_tick max_wait; tick_timers fuel order;; mret total) dr.
Proof.
  unfold driver_run_once, frames_of_tick, mbind, Steps_bind.
  destruct (ensure_resident dr) as [[[]?]|]; [|done..].
  destruct (drain_parked _ _) as [[[]?]|]; [|done..]. destruct (drain_inner _ _) as [[[]?]|]; [|done..].
  by destruct (_ _) as [[[]?]|].
Qed.

Lemma kept_frames max_wait : kept P (frames_of_tick max_wait).
Proof.
  unfold frames_of_tick. repeat (driver_step; [first [apply kept_drain_parked | apply kept_drain_inner
    | driver_step; [apply kept_idle|driver_auto] | driver_auto; fail]|]). driver_auto.
Qed.

Lemma kept_tick_group fuel now gid : allowed gid -> kept P (tick_group fuel now gid).
Proof. intros Hg. driver_auto. Qed.

Lemma kept_campaign fuel gid : allowed gid -> kept P (driver_campaign fuel gid).
Proof. intros Hg. driver_auto. Qed.

Lemma kept_propose fuel gid payload : allowed gid -> kept P (driver_propose tuning fuel gid payload).
Proof. intros Hg. driver_auto. Qed.
End Lawful.

(** ** The tables stay in step *)

Definition group_ok (gid : GroupId) e : Prop :=
  scratch_outbound (ge_node e) = [] /\ mx_group (transport (ge_node e)) = gid.

(** A buffer of full size. *)
Definition resident (b : bytes) : Prop := length b = OUTBOUND_SCRATCH.
Lemma resident_new b : resident (replicate OUTBOUND_SCRATCH b).
Proof. apply length_replicate. Qed.

Record driver_ok dr : Prop := {
  dk_groups : map_Forall group_ok (dr_groups dr);
  dk_timers : map_Forall (fun _ => timers_ok) (dr_timers dr);
  dk_timed : dom (dr_timers dr) = dom (dr_groups dr);
  dk_boxed : dom (inboxes (demux (dr_shared dr))) = dom (dr_groups dr);
  dk_demux : demux_ok (dr_shared dr);
  dk_scratch : resident (dr_outbound dr);
}.

Lemma dom_update {V} (m : gmap GroupId V) g v w : m !! g = Some v -> dom (<[g := w]> m) = dom m.
Proof.
  intros Hg. rewrite dom_insert_L. assert (g ∈ dom m) by (apply elem_of_dom; eauto). set_solver.
Qed.

(** A group that ran over the lent buffers and gave them back. *)
Lemma on_group_inv {A} gid (m : Steps Entry A) dr r dr' :
  stays entry_shares m -> on_group gid m dr = Ok (r, dr') ->
  (dr_groups dr !! gid = None /\ dr' = dr) \/
  exists e e' n t, dr_groups dr !! gid = Some e /\
    shares {| mx_inner := dr_inner dr; mx_clock := mx_clock (transport (ge_node e));
              mx_group := mx_group (transport (ge_node e)); mx_shared := dr_shared dr |} t /\
    transport n = t /\ scratch_outbound n = scratch_outbound (ge_node e) /\ ge_node e' = n /\
    dr_groups dr' = <[gid := e']> (dr_groups dr) /\ dr_inner dr' = mx_inner t /\
    dr_shared dr' = mx_shared t /\ dr_timers dr' = dr_timers dr /\ dr_clock dr' = dr_clock dr /\
    length (dr_outbound dr') = length (dr_outbound dr).
Proof.
  intros Hm. unfold on_group. destruct (dr_groups dr !! gid) as [e|] eqn:Hg;
    [|intros [= _ <-]; by left].
  unfold lend, give_back. destruct (m _) as [[x e2]|] eqn:E; [|done]. apply Hm in E.
  intros [= _ <-]. right. cbn.
  set (n3 := set_scratch_outbound (scratch_outbound (ge_node e)) (ge_node e2)).
  exists e, (set_ge_node n3 e2), n3, (transport (ge_node e2)). split; [done|].
  destruct E as [E Eb]. split; [exact E|]. split_and!; try reflexivity. exact Eb.
Qed.

Lemma driver_ok_lawful : lawful driver_ok (fun _ => True).
Proof.
  split.
  - intros A gid m _ Hm dr r dr' E [Hg Ht Hd Hb Hk Ho'].
    apply on_group_inv in E as [[_ ->]|(e & e' & n & t & He & Hs & En & Eo & Ee & Eg & Ei & Es & Et & Ec & El)];
      [done| |done].
    destruct Hs as [Sg So Sd _]. cbn in *. destruct (Hg gid e He) as [Ho Hgid].
    split; rewrite ?Eg, ?Es, ?Et; auto.
    + apply map_Forall_insert_2; [|done]. split; [by rewrite Ee, Eo|by rewrite Ee, En, Sg].
    + rewrite (dom_update _ _ _ _ He). done.
    + by rewrite (dom_update _ _ _ _ He), Sd.
    + unfold resident in *. by rewrite El.
  - intros A gid m _ Hm Hk dr r dr'. unfold on_idle_group.
    destruct (dr_groups dr !! gid) as [e|] eqn:He; [|by intros [= _ <-]].
    specialize (Hm (ge_node e)). specialize (Hk (ge_node e)). destruct (m (ge_node e)) as [x n].
    cbn in *. intros [= _ <-] [Hg Ht Hd Hb Hx Hl]. destruct (Hg gid e He) as [Ho Hgid].
    split; cbn; auto; [|by rewrite (dom_update _ _ _ _ He)..].
    apply map_Forall_insert_2; [|done]. split; cbn; [congruence|]. by rewrite (sh_group _ _ (rode_transport _ _ _ Hm)).
  - intros gid f _ Hf dr r dr' [= _ <-] Hdr.
    destruct (dr_timers dr !! gid) as [t|] eqn:Et; [|done].
    destruct Hdr as [Hg Ht Hd Hb Hx Hl]. destruct (Hf t (dr_clock dr)) as [Hok _].
    destruct (f t (dr_clock dr)) as [t' ck]. split; cbn; auto.
    + apply map_Forall_insert_2; [|done]. by apply Hok, (Ht gid).
    + by rewrite (dom_update _ _ _ _ Et).
  - intros dr r dr' [= _ <-] Hdr. destruct (_ <? _)%nat; [|done].
    destruct Hdr. split; [assumption..|apply resident_new].
  - intros dr r dr' [= _ <-] Hdr. by destruct Hdr.
  - intros dr r dr'. unfold driver_now. destruct (clock_now _). intros [= _ <-] Hdr. by destruct Hdr.
  - intros dr x d [Hg Ht Hd Hb Hx Hl] Ep. split; [|done].
    pose proof (pop_parked_spec MAX_FRAME_SIZE _ Hx) as Hs. rewrite Ep in Hs. destruct Hs as [Hx' Hs].
    split; cbn; auto. rewrite <- Hb.
    destruct Hs as [(g & f & q & Hq & _ & E)|(_ & E & _)]; apply (f_equal q_boxes) in E; cbn in *;
      rewrite E; [|done].
    by rewrite (dom_update _ _ _ _ Hq).
  - intros timeout dr x t [Hg Ht Hd Hb Hx Hl] _. by split; [|].
Qed.

(** ** Every operation of the driver *)

Inductive driver_op : Driver -> Driver -> Prop :=
| op_add gid cfg st sm ck disp dr r dr' :
    add_group gid cfg st sm ck disp dr = Ok (r, dr') -> driver_op dr dr'
| op_remove gid dr : driver_op dr (remove_group gid dr).2
| op_campaign fuel gid dr r dr' : driver_campaign fuel gid dr = Ok (r, dr') -> driver_op dr dr'
| op_propose fuel gid payload dr r dr' :
    driver_propose tuning fuel gid payload dr = Ok (r, dr') -> driver_op dr dr'
| op_run_once fuel order max_wait dr r dr' :
    driver_run_once fuel order max_wait dr = Ok (r, dr') -> driver_op dr dr'.

Lemma node_new_transport cfg (st : S) (tr : Mux) ck disp n :
  node_new cfg st tr ck disp = Ok n -> transport n = tr.
Proof.
  intros E. change (transport n) with (match (Ok n : res Node) with Ok n => transport n | Err _ => tr end).
  rewrite <- E. unfold node_new. destruct (validate_node_config cfg); [|reflexivity].
  destruct (load_hard_state _) as [[]]; [|reflexivity]. destruct (last_log_position _) as [[]]; [|reflexivity].
  destruct (load_snapshot_meta _) as [[]]; reflexivity.
Qed.

Lemma register_dom gid d : dom (inboxes (demux (register gid d))) = {[gid]} ∪ dom (inboxes (demux d)).
Proof.
  cbn. destruct (inboxes (demux d) !! gid) eqn:E; [|by rewrite dom_insert_L].
  assert (gid ∈ dom (inboxes (demux d))) by (apply elem_of_dom; eauto). set_solver.
Qed.

Lemma unregister_dom gid d : dom (inboxes (demux (unregister gid d))) = dom (inboxes (demux d)) ∖ {[gid]}.
Proof.
  unfold unregister. destruct (inboxes (demux d) !! gid) eqn:E; [cbn; by rewrite dom_delete_L|].
  apply not_elem_of_dom in E. set_solver.
Qed.

Lemma ok_add gid cfg st sm ck disp dr r dr' :
  driver_ok dr -> add_group gid cfg st sm ck disp dr = Ok (r, dr') -> driver_ok dr'.
Proof.
  intros Hdr. unfold add_group, mbind, Steps_bind, s_gets, s_modify, s_err.
  destruct (bool_decide _) eqn:Ek; [by intros [= <- <-]|]. apply bool_decide_eq_false in Ek.
  assert (Hn : dr_groups dr !! gid = None) by (by apply eq_None_not_Some).
  destruct Hdr as [Hg Ht Hd Hb Hx Hl]. pose proof (register_ok gid _ Hx) as Hr.
  destruct (node_new _ _ _ _ _) as [n|e] eqn:En.
  - cbn. unfold registry_insert. rewrite Hn. cbn [dr_clock].
    destruct (fit_new gid (cfg_node_id cfg) (cfg_timing cfg) (dr_clock dr)) as [Htm _].
    destruct (timers_new _ _ _ _) as [t ck'] eqn:Et. cbn in Et. intros [= <- <-]. split.
    + apply map_Forall_insert_2; [|done]. split; [done|]. cbn. by rewrite (node_new_transport _ _ _ _ _ _ En).
    + cbn. apply map_Forall_insert_2; [|done]. exact Htm.
    + cbn. rewrite !dom_insert_L. by rewrite Hd.
    + cbn [dr_shared dr_groups dr_set_clock dr_set_timers dr_set_groups dr_set_shared].
      by rewrite register_dom, dom_insert_L, Hb.
    + exact Hr.
    + exact Hl.
  - intros [= <- <-]. pose proof (unregister_ok gid _ Hr) as Hu. split; try done.
    cbn [dr_shared dr_groups dr_set_shared]. rewrite unregister_dom, register_dom, Hb.
    apply not_elem_of_dom in Hn. set_solver.
Qed.

Lemma ok_remove gid dr : driver_ok dr -> driver_ok (remove_group gid dr).2.
Proof.
  intros [Hg Ht Hd Hb Hx Hl]. unfold remove_group, registry_remove.
  destruct (dr_groups dr !! gid) as [e|] eqn:He; cbn [option_map snd].
  - pose proof (unregister_ok gid _ Hx). split; try done.
    + by apply map_Forall_delete.
    + by apply map_Forall_delete.
    + cbn. by rewrite !dom_delete_L, Hd.
    + cbn [dr_shared dr_groups dr_set_shared dr_set_groups dr_set_timers].
      by rewrite unregister_dom, dom_delete_L, Hb.
  - assert (E : delete gid (dr_groups dr) = dr_groups dr) by by apply delete_id.
    split; cbn; rewrite ?E; done.
Qed.

Lemma ok_run_once fuel order max_wait dr r dr' :
  driver_ok dr -> driver_run_once fuel order max_wait dr = Ok (r, dr') -> driver_ok dr'.
Proof.
  intros Hdr. rewrite run_once_split. intros E. revert Hdr. pose proof driver_ok_lawful as HP.
  eapply (stays_bind (implies driver_ok)); [| |exact E]; [by eapply kept_frames|]. intros total.
  apply stays_bind; [typeclasses eauto| |intros; apply stays_ret; typeclasses eauto].
  unfold tick_timers. apply stays_bind; [typeclasses eauto|apply (lw_now _ _ HP)|]. intros now.
  apply stays_bind; [typeclasses eauto|apply stays_gets; typeclasses eauto|]. intros due.
  apply stays_for_each; [typeclasses eauto|]. intros gid _. by eapply kept_tick_group.
Qed.

Lemma tables_ok inner ck dr : rtc driver_op (driver_new inner ck) dr -> driver_ok dr.
Proof.
  intros Hr. assert (Hnew : driver_ok (driver_new inner ck)).
  { split; cbn; [apply map_Forall_empty|apply map_Forall_empty|by rewrite !dom_empty_L..| |apply resident_new].
    apply demux_new_ok. }
  induction Hr as [|dr1 dr2 dr3 Hs _ IH]; [done|]. apply IH.
  destruct Hs as [gid cfg st sm ck' disp d r d' E|gid d|fuel gid d r d' E|fuel gid p d r d' E|fuel o w d r d' E].
  - by eapply ok_add.
  - by apply ok_remove.
  - revert Hnew. by eapply (kept_campaign driver_ok (fun _ => True) driver_ok_lawful).
  - revert Hnew. by eapply (kept_propose driver_ok (fun _ => True) driver_ok_lawful).
  - by eapply ok_run_once.
Qed.

(** C28: whatever groups are added and removed, campaigns, proposals and ticks run,
    succeed or fail: the driver has timers and a queue for exactly the groups it
    hosts, with sound ranges; no idle group holds scratch memory of its own, also
    after an error, and the driver has its own buffer back in full; each group's transport stamps the group's own id; and the
    demultiplexer's books are right. *)
Theorem driver_keeps_tables inner ck dr :
  rtc driver_op (driver_new inner ck) dr -> driver_ok dr.
Proof. apply tables_ok. Qed.

(** ** Groups do not interfere *)

(** Group [g] has no frame under way: not parked, not in the shared transport. *)
Record quiet (g : GroupId) e (t : GroupTimers) dr : Prop := {
  qt_ok : driver_ok dr;
  qt_group : dr_groups dr !! g = Some e;
  qt_timers : dr_timers dr !! g = Some t;
  qt_inbox : no_frame g (inbox (dr_inner dr));
  qt_queue : inboxes (demux (dr_shared dr)) !! g = Some [];
}.

Lemma quiet_lawful g e t : lawful (quiet g e t) (fun gid => gid <> g).
Proof.
  pose proof driver_ok_lawful as HP. split.
  - intros A gid m Hne Hm dr r dr' E [Hok Hg Ht Hi Hq].
    pose proof (lw_group _ _ HP _ _ _ Logic.I Hm _ _ _ E Hok) as Hok'.
    apply on_group_inv in E as [[_ ->]|(e1 & e' & n & tr & He & Hs & En & Eo & Ee & Eg & Ei & Es & Et & Ec & El)];
      [by split| |done].
    destruct (dk_groups _ Hok _ _ He) as [_ Hgid]. apply sh_quiet with (g := g) in Hs as [Hi' Hq'];
      cbn in *; [|congruence|done].
    split; [done|rewrite Eg, lookup_insert_ne by done; done|by rewrite Et|by rewrite Ei|rewrite Es; exact (eq_trans Hq' Hq)].
  - intros A gid m Hne Hm Hk dr r dr' E [Hok Hg Ht Hi Hq].
    pose proof (lw_idle _ _ HP _ _ _ Logic.I Hm Hk _ _ _ E Hok) as Hok'. revert E Hok'. unfold on_idle_group.
    destruct (dr_groups dr !! gid); [|by intros [= _ <-]]. destruct (m _). intros [= _ <-] Hok'.
    split; try done. cbn. by rewrite lookup_insert_ne.
  - intros gid f Hne Hf dr r dr' E [Hok Hg Ht Hi Hq].
    pose proof (lw_timers _ _ HP _ _ Logic.I Hf _ _ _ E Hok) as Hok'. revert E Hok'. unfold with_timers, s_modify.
    destruct (dr_timers dr !! gid) as [t1|]; [|by intros [= _ <-]].
    destruct (f t1 (dr_clock dr)) as [t2 ck2]. intros [= _ <-] Hok'.
    split; try done; cbn; by rewrite lookup_insert_ne.
  - intros dr r dr' E [Hok Hg Ht Hi Hq]. pose proof (lw_resident _ _ HP _ _ _ E Hok) as Hok'.
    revert E Hok'. unfold ensure_resident, s_modify. destruct (_ <? _)%nat; by intros [= _ <-].
  - intros dr r dr' E [Hok Hg Ht Hi Hq]. pose proof (lw_unknown _ _ HP _ _ _ E Hok) as Hok'.
    revert E Hok'. by intros [= _ <-].
  - intros dr r dr' E [Hok Hg Ht Hi Hq]. pose proof (lw_now _ _ HP _ _ _ E Hok) as Hok'.
    revert E Hok'. unfold driver_now. destruct (clock_now _). by intros [= _ <-] Hok'.
  - intros dr x d [Hok Hg Ht Hi Hq] Ep. pose proof (lw_pop _ _ HP _ _ _ Hok Ep) as [Hok' _].
    pose proof (pop_parked_spec MAX_FRAME_SIZE _ (dk_demux _ Hok)) as Hs. rewrite Ep in Hs.
    destruct Hs as [_ [(g1 & f & q & Hq1 & Hx & E)|(Hx & E & _)]]; apply (f_equal q_boxes) in E; cbn in *.
    + assert (Hne : g1 <> g) by (intros ->; discriminate (eq_trans (eq_sym Hq) Hq1)). split.
      * split; try done. cbn. by rewrite E, lookup_insert_ne.
      * intros gid f' ->. unfold copy_out in Hx. destruct (_ <? _); [done|]. by injection Hx as -> ->.
    + split; [|by subst]. split; try done. cbn. by rewrite E.
  - intros timeout dr x t1 [Hok Hg Ht Hi Hq] Er.
    pose proof (lw_recv _ _ HP _ _ _ _ Hok Er) as [Hok' _].
    apply recv_frame_timeout_law in Er as (_ & Hsub & Hf). split.
    + split; try done. by eapply no_frame_subset.
    + intros f gid -> Hfg ->. unfold no_frame in Hi. rewrite Forall_forall in Hi. by eapply Hi; [apply Hf|].
Qed.

Lemma quiet_tick g e t fuel order dr r dr' :
  quiet g e t dr -> is_due (clock_now (dr_clock dr)).1 t = false ->
  tick_timers fuel order dr = Ok (r, dr') -> quiet g e t dr'.
Proof.
  intros Hq Hdue. pose proof (quiet_lawful g e t) as HP. unfold tick_timers, mbind, Steps_bind.
  destruct (driver_now dr) as [[[now|] dr1]|] eqn:En; [| |done].
  2: { intros [= <- <-]. by eapply (lw_now _ _ HP). }
  pose proof (lw_now _ _ HP _ _ _ En Hq) as Hq1. cbn [s_gets].
  assert ((clock_now (dr_clock dr)).1 = now) as Hnow.
  { unfold driver_now in En. destruct (clock_now (dr_clock dr)). by injection En. }
  rewrite Hnow in Hdue. pose proof (qt_timers _ _ _ _ Hq1) as Ht1.
  intros E. revert Hq1. eapply (stays_for_each (implies (quiet g e t))); [|exact E].
  intros gid Hin. eapply (kept_tick_group _ _ HP). intros ->.
  apply list_elem_of_In, filter_In in Hin as [_ Hd]. by rewrite Ht1, Hdue in Hd.
Qed.

(** Group [g] in [dr]: its node and state machine, its timers, its empty queue. *)
Definition stands (g : GroupId) e (t : GroupTimers) dr : Prop :=
  dr_groups dr !! g = Some e /\ dr_timers dr !! g = Some t /\
  inboxes (demux (dr_shared dr)) !! g = Some [].

(** C27: groups share a driver without touching each other: in a reachable driver,
    a group that has no frame parked or waiting in the shared transport is, after the
    frames of a tick ([frames_of_tick]: everything before the timers), exactly what it
    was, its node, its state machine, its timers and its empty queue, whatever the
    other groups receive, send, park or answer; and it is the same after the whole
    tick when neither of its two deadlines has passed at the one reading of the
    clock the tick takes for its timers, whatever timers of the others fire. *)
Theorem quiet_group_untouched inner ck dr g e t fuel order max_wait r dr' :
  rtc driver_op (driver_new inner ck) dr ->
  dr_groups dr !! g = Some e -> dr_timers dr !! g = Some t ->
  no_frame g (inbox (dr_inner dr)) -> inboxes (demux (dr_shared dr)) !! g = Some [] ->
  driver_run_once fuel order max_wait dr = Ok (r, dr') ->
  exists x dr1, frames_of_tick max_wait dr = Ok (x, dr1) /\ stands g e t dr1 /\
    (is_due (clock_now (dr_clock dr1)).1 t = false -> stands g e t dr').
Proof.
  intros Hr Hg Ht Hi Hb. assert (Hok : driver_ok dr) by by eapply tables_ok.
  assert (Hq : quiet g e t dr) by done.
  rewrite run_once_split. unfold mbind, Steps_bind.
  pose proof (kept_frames _ _ (quiet_lawful g e t) max_wait) as Hf.
  destruct (frames_of_tick max_wait dr) as [[x dr1]|] eqn:Ef; [|done].
  specialize (Hf _ _ _ Ef Hq). intros E. exists x, dr1. split; [done|]. split; [by destruct Hf|]. intros Hd.
  destruct x as [total|er]; [|injection E as _ <-; by destruct Hf].
  destruct (tick_timers fuel order dr1) as [[y dr2]|] eqn:Et; [|done].
  assert (dr' = dr2) as -> by (by destruct y; injection E as _ ->).
  by destruct (quiet_tick _ _ _ _ _ _ _ _ Hf Hd Et).
Qed.
End Groups.

(** ** The driver's apply loop *)

Section Mirror.
Context {S T C D SM : Type} `{RaftStorage S} `{TransportLaws T} `{Clock C}
  `{!CustomDispatch D (MultiplexedTransport T C)} `{StateMachine SM}.
#[local] Abbreviation Mux := (MultiplexedTransport T C).
#[local] Abbreviation Entry := (GroupEntry S Mux C D SM).
Implicit Types (e : Entry) (r : ArbitroRaft S Mux C D SM).

(** The engine [r] with the node and the state machine of a group. *)
Definition around r e : ArbitroRaft S Mux C D SM := set_node (ge_node e) (set_state_machine (ge_sm e) r).

(** [em] does to the engine what [m] does to the group. *)
Definition mirrors {A} (m : Steps Entry A) (em : E S Mux C D SM A) : Prop :=
  forall r e, em (around r e) = match m e with
                                | Ok (x, e') => Ok (x, around r e')
                                | Err stop => Err stop
                                end.

Lemma mirrors_bind {A B} m (em : E S Mux C D SM A) k (ek : A -> E S Mux C D SM B) :
  mirrors m em -> (forall a, mirrors (k a) (ek a)) -> mirrors (m ≫= k) (em ≫= ek).
Proof.
  intros Hm Hk r e. unfold mbind, E_bind, Steps_bind. rewrite Hm.
  destruct (m e) as [[[a|er] e']|]; [apply Hk|done|done].
Qed.

Lemma mirrors_node_m {A} (m : M S Mux C D A) : mirrors (entry_node_m m) (on_node_m m).
Proof. intros r e. unfold entry_node_m, entry_node, run, on_node_m, on_node. cbn. by destruct (m (ge_node e)). Qed.

Lemma mirrors_entry index payload : mirrors (apply_group_entry index payload) (apply_entry index payload).
Proof.
  apply mirrors_bind; [apply mirrors_node_m|]. intros consumed.
  apply mirrors_bind; [|intros _; apply mirrors_node_m].
  destruct consumed; [done|]. intros r e. cbn. by destruct (apply_at _ _ _).
Qed.

Lemma mirrors_loop k next : mirrors (apply_group_loop k next) (apply_loop k next).
Proof.
  revert next. induction k as [|k IH]; intros next; cbn [apply_group_loop apply_loop]; [done|].
  apply mirrors_bind; [apply mirrors_node_m|]. intros [en|]; [|done].
  apply mirrors_bind; [apply mirrors_entry|]. intros _. apply IH.
Qed.

Lemma mirrors_apply : mirrors apply_group apply_committed_entries.
Proof.
  apply mirrors_bind.
  { intros r e. unfold restore_if_installed. cbn.
    by destruct (restore_state_machine_from_snapshot _ _) as [[x sm] n]. }
  intros _. apply mirrors_bind; [done|]. intros commit. apply mirrors_bind; [done|]. intros applied.
  apply mirrors_bind; [apply mirrors_loop|]. intros _. apply mirrors_bind; [done|]. intros sm.
  apply mirrors_bind; [apply mirrors_node_m|]. done.
Qed.

(** C29: a group of the driver applies what a single-group engine applies: the
    driver's apply loop on a node and a state machine gives the same result and
    the same node and state machine as the engine's on them, on every path,
    errors of the storage and of the state machine included. *)
Theorem apply_group_mirrors_engine r :
  apply_committed_entries r =
  match apply_group {| ge_node := node r; ge_sm := state_machine r |} with
  | Ok (x, e) => Ok (x, set_node (ge_node e) (set_state_machine (ge_sm e) r))
  | Err stop => Err stop
  end.
Proof. pose proof (mirrors_apply r {| ge_node := node r; ge_sm := state_machine r |}) as Hm. by destruct r. Qed.
End Mirror.

(** ** A driver with two groups *)

Section Sample.
Abbreviation SampleDriver := (MultiRaftDriver MemStorage QueueTransport TickClock unit ListMachine).

Definition blank_storage : MemStorage := {| mem_view := disk; mem_fault := None |}.
Definition slow_clock : TickClock := {| tick_now := 0; tick_step := 1 |}.

(** An answer of a later term for group 9 waits in the shared transport. *)
Definition busy_transport : QueueTransport :=
  {| qt_sent := []; qt_inbound := [frame_bytes 2 9 (MRequestVoteResp (vote_resp 5 false))] |}.

Definition hosting (gid : GroupId) (dr : SampleDriver) : SampleDriver :=
  match add_group gid (sample_config_of 1 [1; 2; 3]) blank_storage [] slow_clock tt dr with
  | Ok (_, dr') => dr'
  | Err _ => dr
  end.

Definition two_hosted : SampleDriver := hosting 9 (hosting 7 (driver_new busy_transport slow_clock)).

Lemma hosting_op gid dr : driver_op VecTuning_default dr (hosting gid dr).
Proof.
  unfold hosting.
  destruct (add_group gid (sample_config_of 1 [1; 2; 3]) blank_storage [] slow_clock tt dr) as [[r dr']|] eqn:E; [by eapply op_add|].
  exfalso. revert E. unfold add_group, mbind, Steps_bind, s_gets, s_modify, s_err.
  destruct (bool_decide _); [done|]. destruct (node_new _ _ _ _ _); [|done].
  destruct (registry_insert _ _ _ _) as [[] ?]; [|done]. by destruct (timers_new _ _ _ _).
Qed.

Lemma two_hosted_reachable :
  rtc (driver_op VecTuning_default) (driver_new busy_transport slow_clock) two_hosted.
Proof. eapply rtc_l; [apply (hosting_op 7)|]. eapply rtc_l; [apply (hosting_op 9)|]. apply rtc_refl. Qed.
End Sample.

Lemma driver_keeps_tables_witness :
  bool_decide (dom (dr_groups two_hosted) = {[7; 9]}) = true /\ driver_ok two_hosted.
Proof.
  split; [vm_compute; reflexivity|].
  exact (driver_keeps_tables VecTuning_default busy_transport slow_clock two_hosted two_hosted_reachable).
Defined.

(** The frames of a tick and the terms of the two groups after it. *)
Definition tick_summary
  (x : result (res nat * MultiRaftDriver MemStorage QueueTransport TickClock unit ListMachine) Stop)
  : option (nat * option Term * option Term) :=
  match x with
  | Ok (Ok k, dr) =>
      let term gid := option_map (fun e => node_term (ge_node e)) (dr_groups dr !! gid) in
      Some (k, term 9, term 7)
  | _ => None
  end.

(** The tick handles one frame: group 9 adopts the term, group 7 is as before. *)
Lemma quiet_group_untouched_witness :
  tick_summary (driver_run_once 100 [7; 9] 10 two_hosted) = Some (1%nat, Some 5, Some 0) /\
  exists e t r dr', dr_groups two_hosted !! 7 = Some e /\
    driver_run_once 100 [7; 9] 10 two_hosted = Ok (r, dr') /\ stands 7 e t dr'.
Proof.
  assert (Ht : tick_summary (driver_run_once 100 [7; 9] 10 two_hosted) = Some (1%nat, Some 5, Some 0)) by (vm_compute; reflexivity).
  split; [exact Ht|].
  assert (Hi : no_frame 7 (inbox (dr_inner two_hosted))).
  { assert (Ei : map frame_group (inbox (dr_inner two_hosted)) = [Some 9]) by (vm_compute; reflexivity).
    destruct (inbox (dr_inner two_hosted)) as [|f [|]]; try discriminate Ei.
    injection Ei as Ei. apply Forall_singleton. rewrite Ei. discriminate. }
  assert (Hb : inboxes (demux (dr_shared two_hosted)) !! 7 = Some []) by (vm_compute; reflexivity).
  assert (Hs : (match dr_groups two_hosted !! 7, dr_timers two_hosted !! 7, frames_of_tick 10 two_hosted with
                | Some _, Some t, Ok (_, dr1) => negb (is_due (clock_now (dr_clock dr1)).1 t)
                | _, _, _ => false end) = true) by (vm_compute; reflexivity).
  destruct (dr_groups two_hosted !! 7) as [e|] eqn:Hg; [|discriminate Hs].
  destruct (dr_timers two_hosted !! 7) as [t|] eqn:Hti; [|discriminate Hs].
  destruct (driver_run_once 100 [7; 9] 10 two_hosted) as [[r dr']|] eqn:E; [|discriminate Ht].
  exists e, t, r, dr'. split; [reflexivity|]. split; [reflexivity|].
  destruct (quiet_group_untouched VecTuning_default busy_transport slow_clock two_hosted 7 e t 100
           [7; 9] 10 r dr' two_hosted_reachable Hg Hti Hi Hb E) as (x & dr1 & Ef & _ & Hd).
  rewrite Ef in Hs. apply Hd. by destruct (is_due _ _).
Defined.
