(* ===== verification/Termination.v ===== *)
(** * Termination: the operations of a node return

    The loops in which a node waits for frames end: the loops of elections,
    proposals and snapshot streams because every turn takes a frame from the
    transport, the loops of reads and transfers because every turn reads the clock
    and the deadline comes.  What is assumed of the environment is that frames are
    handed out once ([DrainingTransport]) and that the readings of the clock pass
    every deadline ([time_passes]). *)

From stdpp Require Import base list sets gmap strings relations.
From Stdlib Require Import ZArith Lia.
From S2P Require Import Prelude Types Wire Codec CodecFacts Arena Progress Quorum Traits Membership.
From S2P Require Import NodeState Node Samples Election ConfigChange Replication Commit Snapshot Transfer.
From S2P Require Import Inbound Campaign Leader Install Propose ReadIndex Safety Cluster Transports.

Local Open Scope Z_scope.

(** A frame that was received is not received again. *)
Class DrainingTransport (T : Type) `{TransportLaws T} := {
  recv_drains len t : (length (inbox (recv_frame len t).2) <= length (inbox t))%nat;
  recv_timeout_drains timeout len t r t' :
    recv_frame_timeout timeout len t = (r, t') ->
    match r with
    | Ok (Some _) => (length (inbox t') < length (inbox t))%nat
    | _ => (length (inbox t') <= length (inbox t))%nat
    end;
}.

#[export] Instance QueueTransport_draining : DrainingTransport QueueTransport.
Proof.
  split; [by intros len [s [|f fs]]; cbn; lia|].
  intros timeout len [s [|f fs]] r t'; cbn; intros [= <- <-]; cbn; lia.
Qed.

(** No more frames than before. *)
Definition drained {T} `{TransportLaws T} (t t' : T) : Prop :=
  (length (inbox t') <= length (inbox t))%nat.

#[export] Instance drained_transport {T} `{DrainingTransport T} : TransportRel T drained.
Proof.
  unfold drained. split.
  - split; [by intros t|]. intros t1 t2 t3. lia.
  - intros p slices t. destruct (send_vectored p slices t) as [r t'] eqn:E.
    apply send_vectored_law in E as [_ E]. cbn. by rewrite E.
  - intros p frame t. destruct (send_frame_owned p frame t) as [r t'] eqn:E.
    apply send_frame_owned_law in E as [_ E]. cbn. by rewrite E.
  - apply recv_drains.
  - intros timeout len t. destruct (recv_frame_timeout timeout len t) as [r t'] eqn:E.
    apply recv_timeout_drains in E. cbn. destruct r as [[f|]|]; lia.
Qed.

#[export] Instance drained_dispatch {D T} `{DispatchLaws D T} : DispatchRel D T drained.
Proof.
  split. intros route from self payload d t.
  destruct (invoke_custom route from self payload d t) as [[r d'] t'] eqn:E.
  apply invoke_custom_law in E as [_ E]. unfold drained. cbn. by rewrite E.
Qed.

(** The readings of the clock pass every deadline for good. *)
Section Time.
Context {C : Type} `{Clock C}.

(** From the [k]-th reading on, every reading is at [d] or later. *)
Definition due_after (k : nat) (d : Z) (ck : C) : Prop :=
  forall j, (k <= j)%nat -> d <= (clock_now (Nat.iter j (fun c => (clock_now c).2) ck)).1.

Definition time_passes (ck : C) : Prop := forall d, exists k, due_after k d ck.

Lemma due_tick k d ck : due_after k d ck -> due_after (k - 1) d (clock_now ck).2.
Proof.
  intros Hd j Hj. specialize (Hd (Datatypes.S j) ltac:(lia)). by rewrite Nat.iter_succ_r in Hd.
Qed.

Lemma due_weaken k k' d ck : (k <= k')%nat -> due_after k d ck -> due_after k' d ck.
Proof. intros Hk Hd j Hj. apply Hd. lia. Qed.

Lemma due_reads k d ck ck' : reads ck ck' -> due_after k d ck -> due_after k d ck'.
Proof.
  induction 1 as [|c1 c2 c3 -> _ IH]; [done|]. intros Hd. apply IH.
  eapply due_weaken; [|by apply due_tick]. lia.
Qed.

Lemma time_reads ck ck' : reads ck ck' -> time_passes ck -> time_passes ck'.
Proof. intros Hr Ht d. destruct (Ht d) as [k Hk]. exists k. by eapply due_reads. Qed.
End Time.

(** ** Returning *)

Section Ends.
Context {S T C D : Type} `{RaftStorage S} `{DrainingTransport T} `{Clock C}
  `{!CustomDispatch D T} `{!DispatchLaws D T}.
Implicit Types n : RaftNode S T C D.
#[local] Abbreviation M := (M S T C D).
#[local] Abbreviation L := (L S T C D).
#[local] Abbreviation Post A := (A -> RaftNode S T C D -> Prop).

(** [m] has enough fuel at [n], it panics only if [P], and a result without error
    satisfies [Q]. *)
Definition ends {A} (P : Prop) (m : L A) n (Q : Post A) : Prop :=
  match m n with
  | Ok (Ok a, n') => Q a n'
  | Ok (Err _, _) => True
  | Err OutOfFuel => False
  | Err Panicked => P
  end.

(** The frames that can still come. *)
Definition frames n : nat := length (node_inbox n).

Lemma rode_frames n n' : rode drained n n' -> (frames n' <= frames n)%nat.
Proof. intros Hr. exact (rode_transport _ _ _ Hr). Qed.

Lemma ends_mono {A} P (m : L A) n (Q Q' : Post A) :
  ends P m n Q -> (forall a n', Q a n' -> Q' a n') -> ends P m n Q'.
Proof. unfold ends. destruct (m n) as [[[a|e] n']|]; auto. Qed.
Lemma ends_bind {A B} P (m : L A) (k : A -> L B) n Q :
  ends P m n (fun a n' => ends P (k a) n' Q) -> ends P (m ≫= k) n Q.
Proof. unfold ends, mbind, L_bind. by destruct (m n) as [[[a|e] n']|]. Qed.
Lemma ends_ret {A} P (a : A) n (Q : Post A) : Q a n -> ends P (mret a : L A) n Q.
Proof. done. Qed.
Lemma ends_panic {A} (P : Prop) n (Q : Post A) : P -> ends P panic n Q.
Proof. done. Qed.
Lemma ends_attempt {A} P (m : L A) n (Q : Post (res A)) :
  rides_loop drained m ->
  ends P m n (fun a n' => Q (Ok a) n') -> (forall e n', rode drained n n' -> Q (Err e) n') ->
  ends P (attempt_loop m) n Q.
Proof.
  intros Hr. unfold ends, attempt_loop. destruct (m n) as [[[a|e] n']|] eqn:E; auto.
  intros _ HQ. by eapply HQ, Hr.
Qed.

(** A method that does not wait: no more frames, a later clock. *)
Lemma ends_run {A} P (m : M A) n (Q : Post A) :
  rides drained m -> (forall a n', rode drained n n' -> m n = (Ok a, n') -> Q a n') ->
  ends P (run m) n Q.
Proof.
  intros Hm HQ. specialize (Hm n). unfold ends, run. destruct (m n) as [[a|e] n']; [|done].
  by apply HQ.
Qed.

(** A receive that yields a frame has taken it. *)
Lemma recv_takes timeout len f n n' :
  on_transport (recv_frame_timeout timeout len) n = (Ok (Some f), n') -> (frames n' < frames n)%nat.
Proof.
  unfold on_transport. destruct (recv_frame_timeout timeout len (transport n)) as [r t] eqn:E.
  intros [= -> <-]. by apply recv_timeout_drains in E.
Qed.

Lemma drain_recv_takes timeout len f n n' :
  drain_recv timeout len n = (Ok (Some f), n') -> (frames n' < frames n)%nat.
Proof.
  unfold drain_recv, mbind, M_bind, attempt.
  destruct (on_transport (recv_frame_timeout timeout len) n) as [[[g|]|e] n1] eqn:E.
  - intros [= <- <-]. by eapply recv_takes.
  - done.
  - by destruct (is_fatal e).
Qed.

(** Every reading of the clock is one fewer to the deadline. *)
Lemma now_ticks k d t n n' : now n = (Ok t, n') -> due_after k d (clock n) ->
  due_after (k - 1) d (clock n') /\ (t < d -> (1 <= k)%nat).
Proof.
  unfold now. pose proof (due_tick k d (clock n)) as Ht. destruct (clock_now (clock n)) as [t0 ck] eqn:E.
  intros [= <- <-] Hd. split; [by apply Ht|]. intros Hlt. destruct k; [|lia].
  specialize (Hd 0%nat ltac:(lia)). cbn in Hd. rewrite E in Hd. cbn in Hd. lia.
Qed.
End Ends.

(** Facts about the state a step leaves. *)
Ltac note_step :=
  repeat match goal with
  | E : err _ _ = (Ok _, _) |- _ => discriminate E
  | E : drain_recv _ _ _ = (Ok (Some _), _) |- _ => apply drain_recv_takes in E
  | E : on_transport (recv_frame_timeout _ _) _ = (Ok (Some _), _) |- _ => apply recv_takes in E
  | E : is_nil ?l = false |- _ => destruct l; [discriminate E|clear E]
  | Hr : rode drained ?n ?n' |- _ =>
      lazymatch goal with
      | _ : (frames n' <= frames n)%nat |- _ => fail
      | _ => pose proof (rode_frames _ _ Hr)
      end
  end.

(** Takes one step; what is left are the calls of loops and the results. *)
Ltac ends_step :=
  lazymatch goal with
  | |- ends _ (mbind _ _) _ _ => apply ends_bind; cbv beta
  | |- ends _ (run _) _ _ => apply ends_run; [solve [rides_auto]|]; intros ? ? ? ?; cbv beta
  | |- ends _ (mret _) _ _ => apply ends_ret; cbv beta
  | |- ends _ (if ?b then _ else _) _ _ => destruct b eqn:?
  | |- ends _ (match ?x with _ => _ end) _ _ => destruct x eqn:?
  end.

(** Later states have ridden from the first. *)
Ltac rode_chain :=
  multimatch goal with
  | |- rode _ ?n ?n => reflexivity
  | Hr : rode ?R ?n ?n' |- rode ?R ?n ?n' => exact Hr
  | Hr : rode ?R ?n ?m |- rode ?R ?n _ => transitivity m; [exact Hr|rode_chain]
  end.
Ltac riding := split; [rode_chain|lia].
Ltac ends_auto := repeat ends_step; note_step.

(** Calls a loop with the fuel it needs and goes on. *)
Ltac calls H :=
  let Hp := fresh "Hp" in
  eapply ends_mono; [apply H; lia|]; intros ? ? Hp; cbv beta in Hp;
  repeat match type of Hp with _ /\ _ => destruct Hp as [? Hp] end; note_step; ends_auto.

Section Loops.
Context {S T C D : Type} `{RaftStorage S} `{DrainingTransport T} `{Clock C}
  `{!CustomDispatch D T} `{!DispatchLaws D T}.
Implicit Types n : RaftNode S T C D.
#[local] Abbreviation M := (M S T C D).
#[local] Abbreviation L := (L S T C D).

(** ** Draining *)

Lemma drain_loop_ends P fuel deadline len msgs n :
  (frames n < fuel)%nat ->
  ends P (drain_loop fuel deadline len msgs : L _) n (fun msgs' n' =>
    rode drained n n' /\ (length msgs' + frames n' <= length msgs + frames n)%nat).
Proof.
  revert len msgs n. induction fuel as [|fuel IH]; intros len msgs n Hf; [lia|].
  cbn [drain_loop]. ends_auto; try riding.
  eapply ends_mono; [apply IH; lia|]. intros ? ? [? Hl]. note_step.
  destruct (decode_message _); rewrite ?length_app in Hl; cbn in Hl; riding.
Qed.

(** ** Elections *)

Lemma collect_loop_ends P fuel term possible deadline len b n :
  (frames n + 1 < fuel)%nat ->
  ends P (collect_loop fuel term possible deadline len b : L _) n (fun _ n' => rode drained n n').
Proof.
  revert b n. induction fuel as [|fuel IH]; intros b n Hf; [lia|].
  cbn [collect_loop]. unfold drain_inbound_frames. ends_auto; try rode_chain.
  calls drain_loop_ends; try rode_chain.
  cbn in *. calls IH. rode_chain.
Qed.

Lemma pre_vote_loop_ends P fuel term possible deadline len b n :
  (frames n + 1 < fuel)%nat ->
  ends P (pre_vote_loop fuel term possible deadline len b : L _) n (fun _ n' => rode drained n n').
Proof.
  revert b n. induction fuel as [|fuel IH]; intros b n Hf; [lia|].
  cbn [pre_vote_loop]. unfold drain_inbound_frames. ends_auto; try rode_chain.
  calls drain_loop_ends; try rode_chain. cbn in *. calls IH. rode_chain.
Qed.

(** ** Proposals *)

Lemma gather_burst_ends P fuel needed last deadline accepted n :
  (frames n < fuel)%nat ->
  ends P (gather_burst fuel needed last deadline accepted : L _) n (fun _ n' => rode drained n n').
Proof.
  revert accepted n. induction fuel as [|fuel IH]; intros accepted n Hf; [lia|].
  cbn [gather_burst]. ends_auto; try rode_chain. calls IH. rode_chain.
Qed.

Lemma gather_loop_ends P fuel needed last deadline accepted n :
  (frames n + 1 < fuel)%nat ->
  ends P (gather_loop fuel needed last deadline accepted : L _) n (fun _ n' => rode drained n n').
Proof.
  revert accepted n. induction fuel as [|fuel IH]; intros accepted n Hf; [lia|].
  cbn [gather_loop]. ends_auto; try rode_chain.
  calls gather_burst_ends; try rode_chain. calls IH. rode_chain.
Qed.

Lemma drain_ready_ends P fuel n :
  (frames n < fuel)%nat ->
  ends P (drain_inbound_ready fuel : L _) n (fun _ n' => rode drained n n').
Proof.
  revert n. induction fuel as [|fuel IH]; intros n Hf; [lia|].
  cbn [drain_inbound_ready]. ends_auto; try rode_chain; calls IH; rode_chain.
Qed.

(** ** Streaming snapshots *)

Lemma await_reply_ends P fuel peer term total off rounds mr timeout fin :
  (forall n, (2 * frames n < fuel)%nat ->
   ends P (await_install_reply fuel peer term total off rounds mr timeout fin : L _) n
     (fun _ n' => rode drained n n' /\ (frames n' < frames n)%nat)) /\
  (forall im n, (2 * frames n + 1 < fuel)%nat ->
   ends P (other_frame fuel peer term total off rounds mr timeout fin im : L _) n
     (fun _ n' => rode drained n n' /\ (frames n' < frames n)%nat)).
Proof.
  induction fuel as [|fuel [IHa IHo]]; (split; [intros n Hf|intros im n Hf]; try lia).
  - cbn [await_install_reply]. ends_auto; try calls IHo; try riding.
  - cbn [other_frame]. ends_auto. calls IHa. riding.
Qed.

Lemma install_loop_ends P fuel peer meta snap term off hb rounds n :
  (2 * frames n + 1 < fuel)%nat ->
  ends P (install_loop fuel peer meta snap term off hb rounds : L _) n (fun _ n' => rode drained n n').
Proof.
  revert off hb rounds n. induction fuel as [|fuel IH]; intros off hb rounds n Hf; [lia|].
  cbn [install_loop]. ends_auto. calls (await_reply_ends P fuel); try rode_chain. calls IH. rode_chain.
Qed.

Lemma escalate_ends P fuel escalated peer n :
  (2 * frames n + 1 < fuel)%nat ->
  ends P (escalate_once fuel escalated peer : L _) n (fun _ n' => rode drained n n').
Proof.
  intros Hf. unfold escalate_once, escalate_snapshot_catchup. ends_auto; try rode_chain.
  apply ends_attempt; [rides_auto| |intros e n' Hr; ends_auto; rode_chain].
  unfold maybe_install_snapshot_to_lagging_peer, install_snapshot_once. ends_auto; try rode_chain.
  calls install_loop_ends; rode_chain.
Qed.

Lemma heartbeat_indices_ends fuel last_log idx escalated n :
  (2 * frames n + 1 < fuel)%nat ->
  ends True (heartbeat_indices fuel last_log idx escalated : L _) n (fun _ n' => rode drained n n').
Proof.
  revert escalated n. induction idx as [|i idx IH]; intros escalated n Hf; cbn [heartbeat_indices];
    unfold heartbeat_peer; ends_auto; try done; try rode_chain.
  all: match goal with |- ends _ (heartbeat_indices _ _ _ _) _ _ => calls IH; rode_chain
       | _ => calls escalate_ends; calls IH; rode_chain end.
Qed.

Lemma heartbeat_ends fuel n :
  (2 * frames n + 1 < fuel)%nat ->
  ends True (send_heartbeat_once fuel : L _) n (fun _ n' => rode drained n n').
Proof.
  intros Hf. unfold send_heartbeat_once. ends_auto; try rode_chain.
  calls heartbeat_indices_ends. rode_chain.
Qed.

(** ** Reads and transfers: until the deadline *)

Lemma rode_due k d n n' : rode drained n n' -> due_after k d (clock n) -> due_after k d (clock n').
Proof. intros Hr. apply due_reads, Hr. Qed.

Lemma rides_confirm_frames term probe msgs acks : rides drained (confirm_frames term probe msgs acks : M _).
Proof. revert acks. induction msgs as [|im msgs IH]; intros acks; cbn [confirm_frames]; rides_auto. Qed.
#[local] Hint Resolve rides_confirm_frames : rides.

(** One turn after a reading of the clock before the deadline. *)
Ltac turn IH k d :=
  match goal with E : now ?n = (Ok ?t, ?n2), Hd : due_after k d (clock ?n0), Hc : (d <=? ?t) = false |- _ =>
    apply Z.leb_gt in Hc; apply (now_ticks k d) in E as [? Hk];
      [specialize (Hk Hc)|eapply (rode_due k d n0); [rode_chain|exact Hd]] end;
  apply (IH (k - 1)%nat); [eapply rode_due; [|eassumption]; rode_chain|lia].

Lemma confirm_loop_ends k fuel term probe deadline next_probe len acks n :
  due_after k deadline (clock n) -> (k + 2 * frames n + 3 < fuel)%nat ->
  ends True (confirm_loop fuel term probe deadline next_probe len acks : L _) n (fun _ _ => True).
Proof.
  revert k next_probe acks n. induction fuel as [|fuel IH]; intros k next_probe acks n Hd Hf; [lia|].
  cbn [confirm_loop]. unfold drain_inbound_frames. ends_auto; try done.
  - calls heartbeat_ends. calls drain_loop_ends. turn IH k deadline.
  - calls drain_loop_ends. turn IH k deadline.
Qed.

Lemma catch_up_loop_ends k fuel target term deadline next_probe probed len n :
  due_after k deadline (clock n) -> (k + 2 * frames n + 3 < fuel)%nat ->
  ends True (catch_up_loop fuel target term deadline next_probe probed len : L _) n (fun _ _ => True).
Proof.
  revert k next_probe probed n. induction fuel as [|fuel IH]; intros k next_probe probed n Hd Hf; [lia|].
  cbn [catch_up_loop]. unfold catch_up_probe, drain_inbound_frames. ends_auto; try done.
  { calls heartbeat_ends. calls drain_loop_ends. turn IH k deadline. }
  all: calls drain_loop_ends; turn IH k deadline.
Qed.
End Loops.

(** ** The operations of a node *)

Section Operations.
Context {S T C D : Type} `{RaftStorage S} `{DrainingTransport T} `{Clock C}
  `{!CustomDispatch D T} `{!DispatchLaws D T}.
Context (tuning : VecTuning).
Implicit Types n : RaftNode S T C D.
#[local] Abbreviation M := (M S T C D).
#[local] Abbreviation L := (L S T C D).
#[local] Abbreviation any := (fun _ _ => True).

Lemma campaign_ends P fuel len n :
  (frames n + 1 < fuel)%nat -> ends P (campaign_once fuel len : L _) n any.
Proof.
  intros Hf. unfold campaign_once, run_election, collect_votes. ends_auto; try done.
  calls collect_loop_ends; done.
Qed.

Lemma pre_vote_ends P fuel len n :
  (frames n + 1 < fuel)%nat -> ends P (campaign_pre_vote fuel len : L _) n any.
Proof.
  intros Hf. unfold campaign_pre_vote. ends_auto; try done. calls pre_vote_loop_ends; done.
Qed.

Lemma propose_batch_ends P fuel payloads n :
  (frames n + 1 < fuel)%nat -> ends P (propose_batch_once tuning fuel payloads : L _) n any.
Proof.
  intros Hf. unfold propose_batch_once, gather_quorum_acks. ends_auto; try done.
  calls gather_loop_ends; try done. calls drain_ready_ends; done.
Qed.

(** Some amount of fuel is enough, and so is more. *)
Definition eventually {A} (m : nat -> L A) n : Prop :=
  exists bound, forall fuel, (bound <= fuel)%nat -> ends True (m fuel) n any.

Lemma eventually_step {A B} (m : M A) (k : nat -> A -> L B) n :
  rides drained m ->
  (forall a n', rode drained n n' -> m n = (Ok a, n') -> eventually (fun fuel => k fuel a) n') ->
  eventually (fun fuel => run m ≫= k fuel) n.
Proof.
  intros Hm Hk. specialize (Hm n). destruct (m n) as [[a|e] n'] eqn:E.
  - destruct (Hk a n' Hm eq_refl) as [b Hb]. exists b. intros fuel Hf. specialize (Hb fuel Hf).
    unfold ends, mbind, L_bind, run in *. by rewrite E.
  - exists 0%nat. intros fuel _. unfold ends, mbind, L_bind, run. by rewrite E.
Qed.

Ltac eventually_step :=
  lazymatch goal with
  | |- eventually (fun _ => mbind _ (run _)) _ =>
      apply eventually_step; [solve [rides_auto]|]; intros ? ? ? ?; cbv beta
  | |- eventually (fun _ => if ?b then _ else _) _ => destruct b
  end.

Lemma eventually_then {A B} (m : nat -> L A) (k : A -> L B) n :
  eventually m n -> (forall a n', ends True (k a) n' any) -> eventually (fun fuel => m fuel ≫= k) n.
Proof.
  intros [b Hb] Hk. exists b. intros fuel Hf. apply ends_bind. eapply ends_mono; [by apply Hb|]. auto.
Qed.

(** A wait for a deadline. *)
Lemma eventually_waits {A} (m : nat -> L A) deadline n :
  time_passes (clock n) ->
  (forall k fuel, due_after k deadline (clock n) -> (k + 2 * frames n + 3 < fuel)%nat ->
     ends True (m fuel) n any) -> eventually m n.
Proof.
  intros Ht Hm. destruct (Ht deadline) as [k Hk]. exists (k + 2 * frames n + 4)%nat. intros fuel Hf.
  apply (Hm k fuel Hk). lia.
Qed.

Lemma rode_time n n' : rode drained n n' -> time_passes (clock n) -> time_passes (clock n').
Proof. intros Hr. apply time_reads, Hr. Qed.
Ltac rode_chain_time := eapply rode_time; [|eassumption]; rode_chain.

Lemma read_ends len n : time_passes (clock n) -> eventually (fun fuel => read_index tuning fuel len) n.
Proof.
  intros Ht. unfold read_index, propose_once, confirm_leadership_quorum.
  repeat eventually_step.
  - apply eventually_then; [|done]. apply eventually_then; [|by intros [|i l]].
    eexists. intros fuel Hf. apply propose_batch_ends. exact Hf.
  - apply eventually_then; [|done]. repeat eventually_step; [by exists 0%nat|].
    eapply eventually_waits; [rode_chain_time|]. intros k fuel. apply confirm_loop_ends.
Qed.

Lemma transfer_ends target len n :
  time_passes (clock n) -> eventually (fun fuel => transfer_leadership fuel target len) n.
Proof.
  intros Ht. unfold transfer_leadership. repeat eventually_step; try by exists 0%nat.
  apply eventually_then; [|intros; by ends_auto].
  eapply eventually_waits; [rode_chain_time|]. intros k fuel. apply catch_up_loop_ends.
Qed.

(** The operations that wait for a deadline with nothing to receive. *)
Definition waits_for_deadline (a : Action) : bool :=
  match a with LinearizableRead | TransferTo _ => true | _ => false end.

(** The operations that run the heartbeat tick. *)
Definition ticks (a : Action) : bool :=
  match a with Heartbeat | LinearizableRead | TransferTo _ => true | _ => false end.

Lemma ends_returns {A} P (m : L A) n Q :
  ends P m n Q -> (exists r n', m n = Ok (r, n')) \/ (P /\ m n = Err Panicked).
Proof. unfold ends. destruct (m n) as [[r n']|[]]; eauto. done. Qed.

Lemma ends_discard {A B} P (m : L A) (b : B) n : ends P m n any -> ends P (m;; mret b) n any.
Proof. intros Hm. apply ends_bind. by eapply ends_mono. Qed.

Lemma run_returns {A} P (m : M A) n : ends P (run m) n any.
Proof. unfold ends, run. by destruct (m n) as [[]]. Qed.

Lemma act_ends a fuel n :
  waits_for_deadline a = false -> (2 * frames n + 2 <= fuel)%nat ->
  ends (ticks a = true) (act tuning fuel a) n any.
Proof.
  intros Hw Hf. destruct a; try discriminate Hw; cbn [act ticks]; try apply ends_discard.
  - apply run_returns.
  - apply campaign_ends. lia.
  - apply pre_vote_ends. lia.
  - pose proof (heartbeat_ends fuel n ltac:(lia)) as Hh. unfold ends in *.
    by destruct (send_heartbeat_once fuel n) as [[[]]|[]].
  - apply propose_batch_ends. lia.
  - apply run_returns.
  - apply run_returns.
Qed.

Lemma act_eventually a n :
  time_passes (clock n) -> waits_for_deadline a = true ->
  ticks a = true /\ eventually (fun fuel => act tuning fuel a) n.
Proof.
  intros Ht Hw. destruct a; try discriminate Hw; (split; [done|]); cbn [act].
  - apply eventually_then; [by apply read_ends|done].
  - apply eventually_then; [by apply transfer_ends|done].
Qed.

(** C11: every operation a node runs returns, with a result or an error: a campaign,
    a pre-vote round, a proposal, a heartbeat tick with its snapshot streams with
    fuel for twice the frames that can still arrive and two more; a linearizable
    read and a leadership transfer with some fuel, since the clock passes their
    deadline.  Only the heartbeat tick can panic. *)
Theorem operations_return n a :
  time_passes (clock n) ->
  exists bound,
    (waits_for_deadline a = false -> bound = (2 * frames n + 2)%nat) /\
    forall fuel, (bound <= fuel)%nat ->
      (exists r n', act tuning fuel a n = Ok (r, n')) \/
      (ticks a = true /\ act tuning fuel a n = Err Panicked).
Proof.
  intros Ht. destruct (waits_for_deadline a) eqn:Hw.
  - destruct (act_eventually a n Ht Hw) as [Hk [b Hb]]. exists b. split; [done|]. intros fuel Hf.
    destruct (ends_returns _ _ _ _ (Hb fuel Hf)) as [?|[_ ?]]; auto.
  - exists (2 * frames n + 2)%nat. split; [done|]. intros fuel Hf.
    eapply ends_returns, act_ends; done.
Qed.
End Operations.

(** The reference clock passes every deadline. *)
Lemma tick_clock_passes ck : 0 < tick_step ck -> time_passes ck.
Proof.
  intros Hs d. exists (Z.to_nat (d - tick_now ck)). intros j Hj.
  assert (E : forall j, Nat.iter j (fun c => (clock_now c).2) ck =
    {| tick_now := tick_now ck + Z.of_nat j * tick_step ck; tick_step := tick_step ck |}).
  { clear j Hj. intros j. induction j as [|j IH]; [by destruct ck; cbn; rewrite Z.add_0_r|].
    rewrite Nat.iter_succ, IH. cbn. f_equal. lia. }
  rewrite E. cbn. nia.
Qed.

Definition waiting_node : SampleNode :=
  sample_node 1 [1; 2; 3] {| current_term := 1; voted_for := None |} [].

Lemma operations_return_witness :
  (exists r n', act VecTuning_default 2 Campaign waiting_node = Ok (r, n')) /\
  (exists bound r n', act VecTuning_default bound LinearizableRead waiting_node = Ok (r, n') \/
     act VecTuning_default bound LinearizableRead waiting_node = Err Panicked).
Proof.
  assert (Ht : time_passes (clock waiting_node)) by (apply tick_clock_passes; reflexivity).
  split.
  - destruct (operations_return VecTuning_default waiting_node Campaign Ht) as (b & Hb & Hr).
    specialize (Hb eq_refl). destruct (Hr 2%nat) as [?|[Hk _]]; [by rewrite Hb|done|discriminate Hk].
  - destruct (operations_return VecTuning_default waiting_node LinearizableRead Ht) as (b & _ & Hr).
    destruct (Hr b (le_n b)) as [(r & n' & E)|[_ E]].
    + exists b, r, n'. by left.
    + exists b, (Ok true), waiting_node. by right.
Defined.
