(* ===== verification/DispatchTx.v ===== *)
(** * DispatchTx: transactions of custom messages

    Models [src/dispatch/spec.rs] (options and scopes),
    [src/dispatch/tx/types.rs], [src/dispatch/tx/state.rs],
    [src/dispatch/tx/handle.rs] and [src/dispatch/tx.rs]: the state of one
    transaction, the responses of its peers, the policies that decide it and the
    handle that waits for it.

    The values of responses are of a type [V].  Each method runs under the lock
    of the transaction.  A waker is a number; [ds_woken] records the wakers that
    were called.  Durations are in milliseconds. *)

From stdpp Require Import base list sets gmap strings pretty relations.
From Stdlib Require Import ZArith Lia.
From S2P Require Import Prelude Types Traits.

Local Open Scope string_scope.
Local Open Scope list_scope.
Local Open Scope Z_scope.

(** ** Options *)

Inductive DispatchScope := ScopeAll | ScopeOthers | ScopeFollowers | ScopeLeader | ScopeLocalOnly.

Definition scope_allows (s : DispatchScope) (route : DispatchRoute) : bool :=
  match s with
  | ScopeAll => true
  | ScopeOthers => negb (is_origin route)
  | ScopeFollowers => match route_role route with DispatchFollower => true | DispatchLeader => false end
  | ScopeLeader => match route_role route with DispatchLeader => true | DispatchFollower => false end
  | ScopeLocalOnly => is_origin route
  end.

Inductive DispatchAckPolicy := AckAll | AckQuorum | AckAtLeast | AckPercent | AckBestEffort.
Inductive DispatchFailPolicy :=
  AllowFailures | NoFailures | MaxFailures | MaxFailurePercent | FailFast.

Record DispatchAckOptions := { ack_policy : DispatchAckPolicy; ack_count : Z; ack_percent : Z }.
Record DispatchFailOptions := { fail_policy : DispatchFailPolicy; fail_count : Z; fail_percent : Z }.

Record DispatchOptions := {
  opt_scope : DispatchScope;
  opt_ack : DispatchAckOptions;
  opt_fail : DispatchFailOptions;
  opt_timeout : Z;
  opt_trace : bool;
}.

Definition DispatchOptions_default : DispatchOptions :=
  {| opt_scope := ScopeAll;
     opt_ack := {| ack_policy := AckQuorum; ack_count := 1; ack_percent := 100 |};
     opt_fail := {| fail_policy := AllowFailures; fail_count := 0; fail_percent := 0 |};
     opt_timeout := 2000; opt_trace := false |}.

(** ** The state of a transaction *)

Inductive DispatchFailure :=
| FailTimeout
| LostLeadership
| Impossible (msg : string)
| FailFailed (msg : string).

Definition failure_error (f : DispatchFailure) : RaftError :=
  match f with
  | FailTimeout => Dispatch "dispatch timed out"
  | LostLeadership => NotLeader None
  | Impossible msg | FailFailed msg => Dispatch msg
  end.

Inductive DispatchResponseKind := KAccepted | KRejected | KProgress | KFailed.

Section Tx.
Context {V : Type}.

Inductive DispatchPeerState :=
| PsPending
| PsProgress (payload : bytes)
| PsAccepted (value : V)
| PsRejected (reason : bytes)
| PsFailed (error : bytes)
| PsDisconnected.

Record DispatchPeerSlot := { sl_peer : PeerId; sl_state : DispatchPeerState }.

(** [DispatchResult]: the snapshot a waiter receives. *)
Record DispatchResult := {
  rs_tx_id : Z; rs_command : Z; rs_options : DispatchOptions; rs_peers : list DispatchPeerSlot;
}.

Inductive DispatchCompletion := Succeeded (r : DispatchResult) | CompletionFailed (f : DispatchFailure).

Record DispatchState := {
  ds_tx_id : Z;
  ds_command : Z;
  ds_options : DispatchOptions;
  ds_peers : list DispatchPeerSlot;
  ds_completion : option DispatchCompletion;
  ds_wakers : list nat;
  ds_woken : list nat;
  ds_start : Z;
  ds_timeout : Z;
}.
Implicit Types d : DispatchState.

Definition result_snapshot d : DispatchResult :=
  {| rs_tx_id := ds_tx_id d; rs_command := ds_command d; rs_options := ds_options d;
     rs_peers := ds_peers d |}.

Definition set_peer_slots (ps : list DispatchPeerSlot) d : DispatchState :=
  {| ds_tx_id := ds_tx_id d; ds_command := ds_command d; ds_options := ds_options d;
     ds_peers := ps; ds_completion := ds_completion d; ds_wakers := ds_wakers d;
     ds_woken := ds_woken d; ds_start := ds_start d; ds_timeout := ds_timeout d |}.

(** The completion is assigned and every waker called ([wake_all]). *)
Definition complete (c : DispatchCompletion) d : DispatchState :=
  {| ds_tx_id := ds_tx_id d; ds_command := ds_command d; ds_options := ds_options d;
     ds_peers := ds_peers d; ds_completion := Some c; ds_wakers := [];
     ds_woken := ds_woken d ++ ds_wakers d; ds_start := ds_start d; ds_timeout := ds_timeout d |}.

Definition push_waker (w : nat) d : DispatchState :=
  {| ds_tx_id := ds_tx_id d; ds_command := ds_command d; ds_options := ds_options d;
     ds_peers := ds_peers d; ds_completion := ds_completion d; ds_wakers := ds_wakers d ++ [w];
     ds_woken := ds_woken d; ds_start := ds_start d; ds_timeout := ds_timeout d |}.

Definition deadline d : option Z :=
  if ds_timeout d =? 0 then None else Some (ds_start d + ds_timeout d).

Definition check_timeout (now : Z) d : DispatchState :=
  match ds_completion d with
  | Some _ => d
  | None =>
      match deadline d with
      | None => d
      | Some dl => if dl <=? now then complete (CompletionFailed FailTimeout) d else d
      end
  end.

(** ** Counting *)

Definition is_accepted (s : DispatchPeerState) : bool :=
  match s with PsAccepted _ => true | _ => false end.
Definition is_failed (s : DispatchPeerState) : bool :=
  match s with PsRejected _ | PsFailed _ => true | _ => false end.
Definition is_pending (s : DispatchPeerState) : bool :=
  match s with PsPending | PsProgress _ => true | _ => false end.
Definition is_active (s : DispatchPeerState) : bool :=
  match s with PsDisconnected => false | _ => true end.

Definition count_peers (p : DispatchPeerState -> bool) (ps : list DispatchPeerSlot) : Z :=
  Z.of_nat (length (List.filter (fun s => p (sl_state s)) ps)).

Definition accepted_count d : Z := count_peers is_accepted (ds_peers d).
Definition failed_count d : Z := count_peers is_failed (ds_peers d).
Definition pending_count d : Z := count_peers is_pending (ds_peers d).
Definition active_count d : Z := count_peers is_active (ds_peers d).

(** The counts of a result. *)
Definition result_accepted_count (r : DispatchResult) : Z := count_peers is_accepted (rs_peers r).
Definition result_failed_count (r : DispatchResult) : Z := count_peers is_failed (rs_peers r).
Definition result_disconnected_count (r : DispatchResult) : Z :=
  count_peers (fun s => negb (is_active s)) (rs_peers r).

(** ** Policies *)

Definition required_of (ack : DispatchAckOptions) (active : Z) : Z :=
  if active =? 0 then 0
  else match ack_policy ack with
       | AckAll => active
       | AckQuorum => active / 2 + 1
       | AckAtLeast => Z.min active (Z.max (ack_count ack) 1)
       | AckPercent =>
           let pct := Z.max 1 (Z.min (ack_percent ack) 100) in
           Z.max 1 ((active * pct + 99) / 100)
       | AckBestEffort => 1
       end.

Definition required_accepts d : Z := required_of (opt_ack (ds_options d)) (active_count d).

Definition allowed_of (fail : DispatchFailOptions) (active : Z) : Z :=
  match fail_policy fail with
  | AllowFailures => u64_max
  | NoFailures | FailFast => 0
  | MaxFailures => fail_count fail
  | MaxFailurePercent => active * Z.min (fail_percent fail) 100 / 100
  end.

Definition allowed_failures d : Z := allowed_of (opt_fail (ds_options d)) (active_count d).

Definition evaluate d : DispatchState :=
  match ds_completion d with
  | Some _ => d
  | None =>
      let required := required_accepts d in
      let accepted := accepted_count d in
      let failed := failed_count d in
      let pending := pending_count d in
      let allowed := allowed_failures d in
      if (required =? 0) || (required <=? accepted) then complete (Succeeded (result_snapshot d)) d
      else if allowed <? failed then
        complete (CompletionFailed (FailFailed
          ("dispatch failure policy exceeded: failed=" +:+ pretty failed +:+
           ", allowed=" +:+ pretty allowed))) d
      else if accepted + pending <? required then
        complete (CompletionFailed (Impossible
          ("dispatch can no longer reach required accepts: accepted=" +:+ pretty accepted +:+
           ", pending=" +:+ pretty pending +:+ ", required=" +:+ pretty required))) d
      else d
  end.

(** ** Responses *)

(** The state of the first slot of [peer], replaced. *)
Fixpoint update_slot (peer : PeerId) (next : DispatchPeerState -> DispatchPeerState)
  (ps : list DispatchPeerSlot) : option (list DispatchPeerSlot) :=
  match ps with
  | [] => None
  | s :: ps' =>
      if sl_peer s =? peer
      then Some ({| sl_peer := sl_peer s; sl_state := next (sl_state s) |} :: ps')
      else option_map (cons s) (update_slot peer next ps')
  end.

Definition update_peer_state (peer : PeerId) (next : DispatchPeerState -> DispatchPeerState) d
  : res unit * DispatchState :=
  match ds_completion d with
  | Some _ => (Ok tt, d)
  | None =>
      match update_slot peer next (ds_peers d) with
      | None => (Err (PeerUnknown peer), d)
      | Some ps => (Ok tt, evaluate (set_peer_slots ps d))
      end
  end.

Definition tx_accept (peer : PeerId) (value : V) := update_peer_state peer (fun _ => PsAccepted value).
Definition tx_reject (peer : PeerId) (reason : bytes) := update_peer_state peer (fun _ => PsRejected reason).
Definition tx_fail (peer : PeerId) (error : bytes) := update_peer_state peer (fun _ => PsFailed error).
Definition tx_disconnect (peer : PeerId) := update_peer_state peer (fun _ => PsDisconnected).
Definition tx_progress (peer : PeerId) (payload : bytes) :=
  update_peer_state peer (fun current =>
    match current with
    | PsAccepted _ | PsRejected _ | PsFailed _ | PsDisconnected => current
    | _ => PsProgress payload
    end).

Definition tx_accept_raw (decode : bytes -> res V) (peer : PeerId) (payload : bytes) d
  : res unit * DispatchState :=
  match decode payload with
  | Err e => (Err e, d)
  | Ok value => tx_accept peer value d
  end.

(** [on_response] and [on_response_ref]. *)
Definition on_response (decode : bytes -> res V) (peer : PeerId) (kind : DispatchResponseKind)
  (payload : bytes) : DispatchState -> res unit * DispatchState :=
  match kind with
  | KAccepted => tx_accept_raw decode peer payload
  | KRejected => tx_reject peer payload
  | KProgress => tx_progress peer payload
  | KFailed => tx_fail peer payload
  end.

Definition tx_abort (f : DispatchFailure) d : DispatchState :=
  match ds_completion d with
  | Some _ => d
  | None => complete (CompletionFailed f) d
  end.

(** ** The handle *)

Definition completion_result (c : DispatchCompletion) : res DispatchResult :=
  match c with Succeeded r => Ok r | CompletionFailed f => Err (failure_error f) end.

Definition is_ready (now : Z) d : bool * DispatchState :=
  let d := check_timeout now d in
  (match ds_completion d with Some _ => true | None => false end, d).

Definition try_result (now : Z) d : option (res DispatchResult) * DispatchState :=
  let d := check_timeout now d in (option_map completion_result (ds_completion d), d).

(** One poll of [wait]: [sleep_done] is the answer of the timer, asked only when
    the clock is before the deadline. *)
Definition poll_wait (w : nat) (now : Z) (sleep_done : bool) d
  : option (res DispatchResult) * DispatchState :=
  match ds_completion d with
  | Some c => (Some (completion_result c), d)
  | None =>
      let expired := match deadline d with Some dl => (dl <=? now) || sleep_done | None => false end in
      if expired
      then (Some (Err (failure_error FailTimeout)), complete (CompletionFailed FailTimeout) d)
      else (None, push_waker w d)
  end.

Definition begin_transaction (tx_id command : Z) (options : DispatchOptions) (targets : list PeerId)
  (now : Z) : DispatchState :=
  evaluate
    {| ds_tx_id := tx_id; ds_command := command; ds_options := options;
       ds_peers := map (fun p => {| sl_peer := p; sl_state := PsPending |}) targets;
       ds_completion := None; ds_wakers := []; ds_woken := []; ds_start := now;
       ds_timeout := opt_timeout options |}.
End Tx.
Arguments DispatchPeerState V : clear implicits.
Arguments DispatchPeerSlot V : clear implicits.
Arguments DispatchResult V : clear implicits.
Arguments DispatchCompletion V : clear implicits.
Arguments DispatchState V : clear implicits.

(** ** What decides a transaction *)

Section TxFacts.
Context {V : Type}.
Implicit Types d : DispatchState V.

(** Whatever happens to a transaction under way. *)
Inductive tx_step : DispatchState V -> DispatchState V -> Prop :=
| step_respond decode peer kind payload d : tx_step d (on_response decode peer kind payload d).2
| step_accept peer value d : tx_step d (tx_accept peer value d).2
| step_disconnect peer d : tx_step d (tx_disconnect peer d).2
| step_abort d : tx_step d (tx_abort LostLeadership d)
| step_ready now d : tx_step d (is_ready now d).2
| step_poll w now sleep_done d : tx_step d (poll_wait w now sleep_done d).2.

(** The transaction can still go either way. *)
Definition undecided d : Prop :=
  0 < pending_count d /\ accepted_count d < required_accepts d <= accepted_count d + pending_count d /\
  failed_count d <= allowed_failures d.

(** What a completion says of the answers. *)
Definition justified (c : DispatchCompletion V) d : Prop :=
  match c with
  | Succeeded r => r = result_snapshot d /\ (active_count d = 0 \/ required_accepts d <= accepted_count d)
  | CompletionFailed (FailFailed _) => allowed_failures d < failed_count d
  | CompletionFailed (Impossible _) => accepted_count d + pending_count d < required_accepts d
  | CompletionFailed _ => True
  end.

Definition tx_ok d : Prop :=
  match ds_completion d with
  | None => undecided d
  | Some c => ds_wakers d = [] /\ justified c d
  end.

Lemma count_nonneg p (ps : list (DispatchPeerSlot V)) : 0 <= count_peers p ps.
Proof. unfold count_peers. lia. Qed.

Lemma required_bounds ack active :
  0 < active -> 1 <= required_of ack active <= active.
Proof.
  intros Ha. unfold required_of. rewrite (proj2 (Z.eqb_neq active 0)) by lia.
  destruct (ack_policy ack); [lia| |lia| |lia].
  - pose proof (Z.div_pos active 2). pose proof (Z.div_lt active 2). lia.
  - set (pct := Z.max 1 (Z.min (ack_percent ack) 100)).
    assert (Hp : 1 <= pct <= 100) by lia.
    assert (Hd : (active * pct + 99) / 100 < active + 1) by (apply Z.div_lt_upper_bound; nia). lia.
Qed.

Lemma evaluate_ok d : ds_completion d = None -> tx_ok (evaluate d).
Proof.
  intros Hc. unfold evaluate. rewrite Hc.
  pose proof (count_nonneg is_active (ds_peers d)). fold (active_count d) in *.
  destruct (Z.eqb_spec (required_accepts d) 0) as [H0|H0]; cbn [orb].
  { split; [done|]. split; [done|]. left. unfold required_accepts in H0.
    destruct (Z.eq_dec (active_count d) 0) as [?|Hne]; [done|].
    pose proof (required_bounds (opt_ack (ds_options d)) (active_count d)). lia. }
  destruct (Z.leb_spec (required_accepts d) (accepted_count d)).
  { split; [done|]. split; [done|]. by right. }
  destruct (Z.ltb_spec (allowed_failures d) (failed_count d)); [by split|].
  destruct (Z.ltb_spec (accepted_count d + pending_count d) (required_accepts d)); [by split|].
  unfold tx_ok. rewrite Hc. unfold undecided. lia.
Qed.

Lemma complete_ok f d :
  match f with FailTimeout | LostLeadership => True | _ => False end ->
  tx_ok (complete (CompletionFailed f) d).
Proof. intros Hf. split; [done|]. by destruct f. Qed.

(** A completed transaction is never touched again. *)
Lemma update_final peer next d : ds_completion d <> None -> (update_peer_state peer next d).2 = d.
Proof. unfold update_peer_state. by destruct (ds_completion d). Qed.

Lemma step_final d d' : tx_step d d' -> ds_completion d <> None -> d' = d.
Proof.
  intros [decode p k payload d1|p v d1|p d1|d1|now d1|w now s d1] Hc.
  - destruct k; cbn [on_response]; try by apply update_final.
    unfold tx_accept_raw. destruct (decode payload); [by apply update_final|done].
  - by apply update_final.
  - by apply update_final.
  - unfold tx_abort. by destruct (ds_completion d1).
  - unfold is_ready, check_timeout. by destruct (ds_completion d1).
  - unfold poll_wait. by destruct (ds_completion d1).
Qed.

Lemma update_ok peer next d :
  ds_completion d = None -> tx_ok d -> tx_ok (update_peer_state peer next d).2.
Proof.
  intros Hc Hd. unfold update_peer_state. rewrite Hc.
  destruct (update_slot peer next (ds_peers d)); [|done]. by apply evaluate_ok.
Qed.

Lemma timeout_ok now d : ds_completion d = None -> tx_ok d -> tx_ok (check_timeout now d).
Proof.
  intros Hc Hd. unfold check_timeout. rewrite Hc. destruct (deadline d); [|done].
  destruct (_ <=? _); [by apply complete_ok|done].
Qed.

Lemma step_ok d d' : tx_step d d' -> tx_ok d -> tx_ok d'.
Proof.
  intros Hs Hd. destruct (ds_completion d) as [c|] eqn:Hc.
  { by rewrite (step_final _ _ Hs) by congruence. }
  destruct Hs as [decode p k payload d1|p v d1|p d1|d1|now d1|w now s d1].
  - destruct k; cbn [on_response]; try by apply update_ok.
    unfold tx_accept_raw. destruct (decode payload); [by apply update_ok|done].
  - by apply update_ok.
  - by apply update_ok.
  - unfold tx_abort. rewrite Hc. by apply complete_ok.
  - by apply timeout_ok.
  - unfold poll_wait. rewrite Hc. case_match; [by apply complete_ok|].
    unfold tx_ok in *. cbn [snd push_waker ds_completion]. by rewrite Hc in *.
Qed.

Lemma steps_ok d d' : rtc tx_step d d' -> tx_ok d -> tx_ok d'.
Proof. induction 1 as [|d1 d2 d3 Hs _ IH]; [done|]. intros Hd. apply IH. by eapply step_ok. Qed.

(** No waker is dropped without being called. *)
Definition seen_by (w : nat) d : Prop := w ∈ ds_woken d ++ ds_wakers d.

Lemma evaluate_seen w d : seen_by w d -> seen_by w (evaluate d).
Proof.
  unfold evaluate, seen_by. intros Hw. repeat case_match; try done; cbn; by rewrite app_nil_r.
Qed.

Lemma update_seen w peer next d : seen_by w d -> seen_by w (update_peer_state peer next d).2.
Proof.
  intros Hw. unfold update_peer_state. repeat case_match; try done. cbn [snd]. by apply evaluate_seen.
Qed.

Lemma complete_seen w c d : seen_by w d -> seen_by w (complete c d).
Proof. unfold seen_by. cbn. by rewrite app_nil_r. Qed.

Lemma step_seen w d d' : tx_step d d' -> seen_by w d -> seen_by w d'.
Proof.
  intros [decode p k payload d1|p v d1|p d1|d1|now d1|w' now s d1] Hw.
  - destruct k; cbn [on_response]; try by apply update_seen.
    unfold tx_accept_raw. destruct (decode payload); [by apply update_seen|done].
  - by apply update_seen.
  - by apply update_seen.
  - unfold tx_abort. case_match; [done|by apply complete_seen].
  - unfold is_ready, check_timeout. repeat case_match; try done. by apply complete_seen.
  - unfold poll_wait. destruct (ds_completion d1); [done|]. cbv zeta.
    destruct (match deadline d1 with Some _ => _ | None => _ end); [by apply complete_seen|].
    unfold seen_by in *. cbn. set_solver.
Qed.

Lemma steps_seen w d d' : rtc tx_step d d' -> seen_by w d -> seen_by w d'.
Proof. induction 1 as [|d1 d2 d3 Hs _ IH]; [done|]. intros Hd. apply IH. by eapply step_seen. Qed.

Lemma steps_final d d' : rtc tx_step d d' -> ds_completion d <> None -> d' = d.
Proof.
  induction 1 as [|d1 d2 d3 Hs _ IH]; [done|]. intros Hc.
  pose proof (step_final _ _ Hs Hc) as ->. by apply IH.
Qed.
End TxFacts.

(** C31: a transaction over custom messages is decided by its policies and decided
    for good.  Through any responses, disconnects, aborts, timeouts and polls:
    while it is open it can still go either way, so some peer is still to answer;
    a success is the snapshot of answers that reach the required number of
    accepts (or of no reachable peer), and a failure by policy is justified by
    the answers; once completed, nothing changes it any more, and every waiter
    that had registered has been woken. *)
Theorem transaction_settles {V : Type} tx_id command options targets now (d d' : DispatchState V) :
  rtc tx_step (begin_transaction tx_id command options targets now) d -> rtc tx_step d d' ->
  match ds_completion d with
  | None => undecided d /\
            (ds_completion d' <> None -> forall w, w ∈ ds_wakers d -> w ∈ ds_woken d')
  | Some c => justified c d /\ d' = d /\ ds_wakers d = []
  end.
Proof.
  intros Hr Hr'.
  assert (Hd : tx_ok d) by (eapply steps_ok; [exact Hr|by apply evaluate_ok]).
  pose proof (steps_ok _ _ Hr' Hd) as Hd'. unfold tx_ok in Hd.
  destruct (ds_completion d) as [c|] eqn:Hc.
  - destruct Hd as [Hw Hj]. split; [done|]. split; [|done]. apply steps_final; [done|congruence].
  - split; [done|]. intros Hc' w Hw.
    assert (Hs : seen_by w d') by (eapply steps_seen; [done|]; unfold seen_by; set_solver).
    unfold tx_ok in Hd'. destruct (ds_completion d'); [|done]. destruct Hd' as [Hn _].
    unfold seen_by in Hs. by rewrite Hn, app_nil_r in Hs.
Qed.

(** A quorum of three: one accept, a waiter, a second accept. *)
Definition open_tx : DispatchState Z :=
  (poll_wait 5 10 false (tx_accept 1 42
    (begin_transaction 7 1 DispatchOptions_default [1; 2; 3] 0)).2).2.
Definition settled_tx : DispatchState Z := (tx_accept 2 43 open_tx).2.

Lemma transaction_settles_witness :
  accepted_count settled_tx = 2 /\ 5%nat ∈ ds_woken settled_tx /\ undecided open_tx.
Proof.
  split; [vm_compute; reflexivity|].
  assert (Hr : rtc tx_step (begin_transaction 7 1 DispatchOptions_default [1; 2; 3] 0) open_tx).
  { eapply rtc_l; [apply (step_accept 1 42)|]. eapply rtc_l; [apply (step_poll 5 10 false)|]. apply rtc_refl. }
  assert (Hr' : rtc tx_step open_tx settled_tx) by (eapply rtc_l; [apply (step_accept 2 43)|apply rtc_refl]).
  pose proof (transaction_settles 7 1 DispatchOptions_default [1; 2; 3] 0 open_tx settled_tx Hr Hr') as Ht.
  assert (Hc : ds_completion open_tx = None) by (vm_compute; reflexivity). rewrite Hc in Ht.
  destruct Ht as [Hu Hw]. split; [|exact Hu]. apply Hw.
  - vm_compute. discriminate.
  - vm_compute. left.
Defined.
