(* ===== verification/DispatchFrames.v ===== *)
(** * DispatchFrames: the frames of custom messages

    Models [src/dispatch/view.rs] and [src/dispatch/response.rs] (the two frame
    formats), [DispatchSpec] of [src/dispatch/spec.rs] with its transaction ids,
    and [src/dispatch/builder.rs].

    The counter of a specification is shared by its clones; it is passed to the
    operations that use it and returned by them, as is the process-wide epoch.
    Byte codecs of parameters and responses are functions given by the user.
    Durations are in milliseconds. *)

From stdpp Require Import base list sets gmap strings pretty.
From Stdlib Require Import ZArith Lia.
From S2P Require Import Prelude Types Wire Traits DispatchTx.

Local Open Scope string_scope.
Local Open Scope list_scope.
Local Open Scope Z_scope.

Definition RAFT_DISPATCH_MAGIC : Z := 0x44535054.
Definition RAFT_DISPATCH_VERSION : Z := 1.
Definition RAFT_DISPATCH_RESPONSE_MAGIC : Z := 0x44525350.
Definition RAFT_DISPATCH_RESPONSE_VERSION : Z := 1.

Record DispatchFrameHeader := {
  dh_magic : Z; dh_version : Z; dh_command : Z; dh_scope : Z; dh_ack_policy : Z;
  dh_fail_policy : Z; dh_trace : Z; dh_pad : Z; dh_tx_id : Z; dh_timeout_ms : Z; dh_body_len : Z;
}.

#[export] Instance DispatchFrameHeader_wire : Wire DispatchFrameHeader := {
  layout := [4; 1; 1; 1; 1; 1; 1; 2; 8; 4; 4]%nat;
  to_fields h := [dh_magic h; dh_version h; dh_command h; dh_scope h; dh_ack_policy h;
                  dh_fail_policy h; dh_trace h; dh_pad h; dh_tx_id h; dh_timeout_ms h; dh_body_len h];
  of_fields vs := match vs with
    | [a; b; c; d; e; f; g; h; i; j; k] => Some (Build_DispatchFrameHeader a b c d e f g h i j k)
    | _ => None end;
}.
#[export] Instance DispatchFrameHeader_laws : WireLaws DispatchFrameHeader.
Proof. wire_laws. Qed.

Record DispatchResponseFrameHeader := {
  rh_magic : Z; rh_version : Z; rh_command : Z; rh_kind : Z; rh_pad : Z; rh_tx_id : Z;
  rh_body_len : Z;
}.

#[export] Instance DispatchResponseFrameHeader_wire : Wire DispatchResponseFrameHeader := {
  layout := [4; 1; 1; 1; 1; 8; 4]%nat;
  to_fields h := [rh_magic h; rh_version h; rh_command h; rh_kind h; rh_pad h; rh_tx_id h; rh_body_len h];
  of_fields vs := match vs with
    | [a; b; c; d; e; f; g] => Some (Build_DispatchResponseFrameHeader a b c d e f g)
    | _ => None end;
}.
#[export] Instance DispatchResponseFrameHeader_laws : WireLaws DispatchResponseFrameHeader.
Proof. wire_laws. Qed.

(** ** Views *)

(** A view is the frame it was made of; its header is there because [parse]
    checked it. *)
Definition dispatch_parse (frame : bytes) : res bytes :=
  match from_prefix (A := DispatchFrameHeader) frame with
  | None => Err (Dispatch "short dispatch frame header")
  | Some (header, rest) =>
      if negb (dh_magic header =? RAFT_DISPATCH_MAGIC) then Err (Dispatch "invalid dispatch magic")
      else if negb (dh_version header =? RAFT_DISPATCH_VERSION) then
        Err (Dispatch ("unsupported dispatch version " +:+ pretty (dh_version header)))
      else if Z.of_nat (length rest) <? dh_body_len header then
        Err (Dispatch "dispatch body length mismatch")
      else if 4 <? dh_scope header then Err (Dispatch "unknown dispatch scope")
      else if 4 <? dh_ack_policy header then Err (Dispatch "unknown dispatch ack policy")
      else if 4 <? dh_fail_policy header then Err (Dispatch "unknown dispatch fail policy")
      else Ok frame
  end.

Definition dispatch_header (frame : bytes) : option DispatchFrameHeader :=
  option_map fst (from_prefix (A := DispatchFrameHeader) frame).

(** The accessors of a view, with the header of a checked frame. *)
Definition scope_of (b : Z) : DispatchScope :=
  if b =? 0 then ScopeAll else if b =? 1 then ScopeOthers else if b =? 2 then ScopeFollowers
  else if b =? 3 then ScopeLeader else if b =? 4 then ScopeLocalOnly else ScopeAll.
Definition ack_policy_of (b : Z) : DispatchAckPolicy :=
  if b =? 0 then AckAll else if b =? 1 then AckQuorum else if b =? 2 then AckAtLeast
  else if b =? 3 then AckPercent else if b =? 4 then AckBestEffort else AckQuorum.
Definition fail_policy_of (b : Z) : DispatchFailPolicy :=
  if b =? 0 then AllowFailures else if b =? 1 then NoFailures else if b =? 2 then MaxFailures
  else if b =? 3 then MaxFailurePercent else if b =? 4 then FailFast else AllowFailures.

Definition dispatch_body (frame : bytes) : bytes := drop (wire_size DispatchFrameHeader) frame.

(** Discriminants of the enums. *)
Definition scope_byte (s : DispatchScope) : Z :=
  match s with
  | ScopeAll => 0 | ScopeOthers => 1 | ScopeFollowers => 2 | ScopeLeader => 3 | ScopeLocalOnly => 4
  end.
Definition ack_policy_byte (p : DispatchAckPolicy) : Z :=
  match p with AckAll => 0 | AckQuorum => 1 | AckAtLeast => 2 | AckPercent => 3 | AckBestEffort => 4 end.
Definition fail_policy_byte (p : DispatchFailPolicy) : Z :=
  match p with
  | AllowFailures => 0 | NoFailures => 1 | MaxFailures => 2 | MaxFailurePercent => 3 | FailFast => 4
  end.

(** ** Responses *)

Record DispatchResponse := {
  dr_tx_id : Z; dr_command : Z; dr_kind : DispatchResponseKind; dr_payload : bytes;
}.

Definition kind_byte (k : DispatchResponseKind) : Z :=
  match k with KAccepted => 0 | KRejected => 1 | KProgress => 2 | KFailed => 3 end.
Definition kind_of_byte (b : Z) : DispatchResponseKind :=
  if b =? 0 then KAccepted else if b =? 1 then KRejected else if b =? 2 then KProgress
  else if b =? 3 then KFailed else KFailed.

(** [DispatchResponseView::parse] with the accessors the node uses. *)
Definition response_parse (frame : bytes) : res DispatchResponse :=
  match from_prefix (A := DispatchResponseFrameHeader) frame with
  | None => Err (Dispatch "short dispatch response header")
  | Some (header, rest) =>
      if negb (rh_magic header =? RAFT_DISPATCH_RESPONSE_MAGIC) then
        Err (Dispatch "invalid dispatch response magic")
      else if negb (rh_version header =? RAFT_DISPATCH_RESPONSE_VERSION) then
        Err (Dispatch ("unsupported dispatch response version " +:+ pretty (rh_version header)))
      else if Z.of_nat (length rest) <? rh_body_len header then
        Err (Dispatch "dispatch response body length mismatch")
      else if 3 <? rh_kind header then Err (Dispatch "unknown dispatch response kind")
      else Ok {| dr_tx_id := rh_tx_id header; dr_command := rh_command header;
                 dr_kind := kind_of_byte (rh_kind header); dr_payload := rest |}
  end.

Definition encode_dispatch_response (r : DispatchResponse) : res bytes :=
  if u32_max <? Z.of_nat (length (dr_payload r)) then
    Err (Dispatch "dispatch response payload length exceeds u32 wire field")
  else
    let header := {| rh_magic := RAFT_DISPATCH_RESPONSE_MAGIC;
                     rh_version := RAFT_DISPATCH_RESPONSE_VERSION; rh_command := dr_command r;
                     rh_kind := kind_byte (dr_kind r); rh_pad := 0; rh_tx_id := dr_tx_id r;
                     rh_body_len := Z.of_nat (length (dr_payload r)) |} in
    Ok (as_bytes header ++ dr_payload r).

(** [DispatchTxResponder::send_response]: an answer straight into a transaction. *)
Definition tx_responder_send {V} (decode : bytes -> res V) (peer : PeerId) (r : DispatchResponse)
  : DispatchState V -> res unit * DispatchState V :=
  on_response decode peer (dr_kind r) (dr_payload r).

(** ** Specifications *)

Definition TX_ID_SEED_MIX : Z := 0x9E3779B97F4A7C15.
Definition TX_ID_SEQ_MASK : Z := Z.shiftl 1 56 - 1.

Record DispatchSpec (P R : Type) := {
  sp_command : Z;
  sp_defaults : DispatchOptions;
  sp_encode_params : P -> res bytes;
  sp_decode_params : bytes -> res P;
  sp_encode_response : R -> res bytes;
  sp_decode_response : bytes -> res R;
}.
Arguments sp_command {P R} _.
Arguments sp_defaults {P R} _.
Arguments sp_encode_params {P R} _ _.
Arguments sp_decode_params {P R} _ _.
Arguments sp_encode_response {P R} _ _.
Arguments sp_decode_response {P R} _ _.
Arguments Build_DispatchSpec {P R} _ _ _ _ _ _.

(** The first value of the counter of the specification built at [epoch]; the
    epoch moves on by one ([fetch_add]). *)
Definition tx_seed (epoch : Z) : Z := wrap_mul64 epoch TX_ID_SEED_MIX.

Definition spec_new {P R} (command : Z) (encode_params : P -> res bytes)
  (decode_params : bytes -> res P) (encode_response : R -> res bytes)
  (decode_response : bytes -> res R) (epoch : Z) : DispatchSpec P R * Z * Z :=
  (Build_DispatchSpec command DispatchOptions_default encode_params decode_params encode_response
     decode_response,
   tx_seed epoch, wrap_add64 epoch 1).

(** The id, and the counter after it. *)
Definition next_tx_id (command seq : Z) : Z * Z :=
  (Z.lor (Z.shiftl command 56) (Z.land seq TX_ID_SEQ_MASK), wrap_add64 seq 1).

(** [DispatchView::params] and [DispatchResponseView::decode_with]. *)
Definition view_params {P R} (spec : DispatchSpec P R) (frame : bytes) : res P :=
  match dispatch_header frame with
  | None => Err (Dispatch "short dispatch frame header")
  | Some h =>
      if negb (dh_command h =? sp_command spec) then
        Err (Dispatch ("dispatch command mismatch: got " +:+ pretty (dh_command h) +:+
                       ", expected " +:+ pretty (sp_command spec)))
      else sp_decode_params spec (dispatch_body frame)
  end.

Definition response_decode_with {P R} (spec : DispatchSpec P R) (r : DispatchResponse) : res R :=
  if negb (dr_command r =? sp_command spec) then
    Err (Dispatch ("dispatch response command mismatch: got " +:+ pretty (dr_command r) +:+
                   ", expected " +:+ pretty (sp_command spec)))
  else sp_decode_response spec (dr_payload r).

(** ** The builder *)

Definition set_ack (ack : DispatchAckOptions) (o : DispatchOptions) : DispatchOptions :=
  {| opt_scope := opt_scope o; opt_ack := ack; opt_fail := opt_fail o;
     opt_timeout := opt_timeout o; opt_trace := opt_trace o |}.
Definition set_fail (fail : DispatchFailOptions) (o : DispatchOptions) : DispatchOptions :=
  {| opt_scope := opt_scope o; opt_ack := opt_ack o; opt_fail := fail;
     opt_timeout := opt_timeout o; opt_trace := opt_trace o |}.

Definition builder_scope (scope : DispatchScope) (o : DispatchOptions) : DispatchOptions :=
  {| opt_scope := scope; opt_ack := opt_ack o; opt_fail := opt_fail o;
     opt_timeout := opt_timeout o; opt_trace := opt_trace o |}.
Definition builder_ack_policy (policy : DispatchAckPolicy) (o : DispatchOptions) : DispatchOptions :=
  set_ack {| ack_policy := policy; ack_count := ack_count (opt_ack o);
             ack_percent := ack_percent (opt_ack o) |} o.
Definition builder_ack_count (count : Z) (o : DispatchOptions) : DispatchOptions :=
  set_ack {| ack_policy := ack_policy (opt_ack o); ack_count := Z.max count 1;
             ack_percent := ack_percent (opt_ack o) |} o.
Definition builder_ack_percent (percent : Z) (o : DispatchOptions) : DispatchOptions :=
  set_ack {| ack_policy := ack_policy (opt_ack o); ack_count := ack_count (opt_ack o);
             ack_percent := Z.max 1 (Z.min percent 100) |} o.
Definition builder_fail_policy (policy : DispatchFailPolicy) (o : DispatchOptions) : DispatchOptions :=
  set_fail {| fail_policy := policy; fail_count := fail_count (opt_fail o);
              fail_percent := fail_percent (opt_fail o) |} o.
Definition builder_fail_count (count : Z) (o : DispatchOptions) : DispatchOptions :=
  set_fail {| fail_policy := fail_policy (opt_fail o); fail_count := count;
              fail_percent := fail_percent (opt_fail o) |} o.
Definition builder_fail_percent (percent : Z) (o : DispatchOptions) : DispatchOptions :=
  set_fail {| fail_policy := fail_policy (opt_fail o); fail_count := fail_count (opt_fail o);
              fail_percent := Z.min percent 100 |} o.
Definition builder_timeout (timeout : Z) (o : DispatchOptions) : DispatchOptions :=
  {| opt_scope := opt_scope o; opt_ack := opt_ack o; opt_fail := opt_fail o;
     opt_timeout := timeout; opt_trace := opt_trace o |}.
Definition builder_trace (trace : bool) (o : DispatchOptions) : DispatchOptions :=
  {| opt_scope := opt_scope o; opt_ack := opt_ack o; opt_fail := opt_fail o;
     opt_timeout := opt_timeout o; opt_trace := trace |}.

(** The setters of a specification change its defaults as those of the builder
    change its options. *)
Definition with_defaults {P R} (f : DispatchOptions -> DispatchOptions) (spec : DispatchSpec P R)
  : DispatchSpec P R :=
  Build_DispatchSpec (sp_command spec) (f (sp_defaults spec)) (sp_encode_params spec)
    (sp_decode_params spec) (sp_encode_response spec) (sp_decode_response spec).
Definition with_scope {P R} v : DispatchSpec P R -> DispatchSpec P R := with_defaults (builder_scope v).
Definition with_ack_policy {P R} v : DispatchSpec P R -> DispatchSpec P R :=
  with_defaults (builder_ack_policy v).
Definition with_ack_count {P R} v : DispatchSpec P R -> DispatchSpec P R :=
  with_defaults (builder_ack_count v).
Definition with_ack_percent {P R} v : DispatchSpec P R -> DispatchSpec P R :=
  with_defaults (builder_ack_percent v).
Definition with_fail_policy {P R} v : DispatchSpec P R -> DispatchSpec P R :=
  with_defaults (builder_fail_policy v).
Definition with_fail_count {P R} v : DispatchSpec P R -> DispatchSpec P R :=
  with_defaults (builder_fail_count v).
Definition with_fail_percent {P R} v : DispatchSpec P R -> DispatchSpec P R :=
  with_defaults (builder_fail_percent v).
Definition with_timeout {P R} v : DispatchSpec P R -> DispatchSpec P R := with_defaults (builder_timeout v).
Definition with_trace {P R} v : DispatchSpec P R -> DispatchSpec P R := with_defaults (builder_trace v).

Record DispatchEnvelope := {
  env_tx_id : Z; env_command : Z; env_bytes : bytes; env_options : DispatchOptions;
}.

(** [build] with the counter of the specification. *)
Definition build {P R} (spec : DispatchSpec P R) (params : P) (options : DispatchOptions) (seq : Z)
  : res DispatchEnvelope * Z :=
  match sp_encode_params spec params with
  | Err e => (Err e, seq)
  | Ok body =>
      if u32_max <? Z.of_nat (length body) then
        (Err (Dispatch "dispatch body length exceeds u32 wire field"), seq)
      else
        let '(tx_id, seq) := next_tx_id (sp_command spec) seq in
        let header :=
          {| dh_magic := RAFT_DISPATCH_MAGIC; dh_version := RAFT_DISPATCH_VERSION;
             dh_command := sp_command spec; dh_scope := scope_byte (opt_scope options);
             dh_ack_policy := ack_policy_byte (ack_policy (opt_ack options));
             dh_fail_policy := fail_policy_byte (fail_policy (opt_fail options));
             dh_trace := if opt_trace options then 1 else 0; dh_pad := 0; dh_tx_id := tx_id;
             dh_timeout_ms := Z.min (opt_timeout options) u32_max;
             dh_body_len := Z.of_nat (length body) |} in
        (Ok {| env_tx_id := tx_id; env_command := sp_command spec;
               env_bytes := as_bytes header ++ body; env_options := options |}, seq)
  end.

(** ** Round trips *)

Lemma scope_byte_inv s : scope_of (scope_byte s) = s /\ 0 <= scope_byte s <= 4.
Proof. by destruct s. Qed.
Lemma ack_policy_byte_inv p : ack_policy_of (ack_policy_byte p) = p /\ 0 <= ack_policy_byte p <= 4.
Proof. by destruct p. Qed.
Lemma fail_policy_byte_inv p : fail_policy_of (fail_policy_byte p) = p /\ 0 <= fail_policy_byte p <= 4.
Proof. by destruct p. Qed.
Lemma kind_byte_inv k : kind_of_byte (kind_byte k) = k /\ 0 <= kind_byte k <= 3.
Proof. by destruct k. Qed.

(** The id: the command in the high byte, the sequence in the low 56 bits. *)
Lemma next_tx_id_value command seq :
  (next_tx_id command seq).1 = command * 2 ^ 56 + seq mod 2 ^ 56.
Proof.
  unfold next_tx_id, TX_ID_SEQ_MASK. cbn [fst].
  change (Z.shiftl 1 56 - 1) with (Z.ones 56). rewrite Z.land_ones by lia.
  apply lor_shiftl_add; [lia|]. apply Z.mod_pos_bound. lia.
Qed.

Lemma next_tx_id_bound command seq : is_u8 command -> is_u64 (next_tx_id command seq).1.
Proof.
  intros Hc. rewrite next_tx_id_value. pose proof (Z.mod_pos_bound seq (2 ^ 56)).
  unfold is_u8, is_u64, u8_max, u64_max in *. lia.
Qed.

(** Every field of a header fits its width. *)
Ltac header_widths :=
  repeat (apply List.Forall2_cons; [unfold in_width; cbn|]); [..|apply List.Forall2_nil];
  unfold is_u8, is_u64, u8_max, u64_max, u32_max, RAFT_DISPATCH_MAGIC, RAFT_DISPATCH_VERSION,
    RAFT_DISPATCH_RESPONSE_MAGIC, RAFT_DISPATCH_RESPONSE_VERSION in *; try lia.

Lemma response_roundtrip r b :
  is_u8 (dr_command r) -> is_u64 (dr_tx_id r) -> encode_dispatch_response r = Ok b ->
  response_parse b = Ok r.
Proof.
  intros Hc Ht. unfold encode_dispatch_response.
  destruct (Z.ltb_spec u32_max (Z.of_nat (length (dr_payload r)))) as [|Hl]; [done|].
  set (h := Build_DispatchResponseFrameHeader _ _ _ _ _ _ _). intros [= <-].
  destruct (kind_byte_inv (dr_kind r)) as [Hk Hk'].
  assert (Hwf : wire_wf h).
  { split; [|done]. unfold h. cbn.
    header_widths. }
  unfold response_parse. rewrite (from_prefix_as_bytes h (dr_payload r) Hwf).
  cbn [rh_magic rh_version rh_body_len rh_kind rh_tx_id rh_command h]. rewrite !Z.eqb_refl. cbn [negb].
  rewrite !(proj2 (Z.ltb_ge _ _)) by lia. rewrite Hk. by destruct r.
Qed.

(** C32: dispatch frames round-trip: a frame that [build] makes parses, and the
    view reads back the command, the id, the scope, both policies and the body,
    so that the parameters decode from exactly the bytes they were encoded to;
    an encoded response parses to itself. *)
Theorem dispatch_frames_roundtrip {P R} (spec : DispatchSpec P R) params options seq env seq'
  (r : DispatchResponse) b :
  is_u8 (sp_command spec) -> 0 <= opt_timeout options ->
  build spec params options seq = (Ok env, seq') ->
  is_u8 (dr_command r) -> is_u64 (dr_tx_id r) -> encode_dispatch_response r = Ok b ->
  dispatch_parse (env_bytes env) = Ok (env_bytes env) /\
  (exists h, dispatch_header (env_bytes env) = Some h /\
     dh_command h = env_command env /\ dh_tx_id h = env_tx_id env /\
     scope_of (dh_scope h) = opt_scope options /\
     ack_policy_of (dh_ack_policy h) = ack_policy (opt_ack options) /\
     fail_policy_of (dh_fail_policy h) = fail_policy (opt_fail options)) /\
  sp_encode_params spec params = Ok (dispatch_body (env_bytes env)) /\
  view_params spec (env_bytes env) = sp_decode_params spec (dispatch_body (env_bytes env)) /\
  response_parse b = Ok r.
Proof.
  intros Hc Ht Hb Hrc Hrt He. unfold build in Hb.
  destruct (sp_encode_params spec params) as [body|] eqn:Ep; [|done].
  destruct (Z.ltb_spec u32_max (Z.of_nat (length body))) as [|Hl]; [done|].
  pose proof (next_tx_id_bound (sp_command spec) seq Hc) as Hid.
  destruct (next_tx_id (sp_command spec) seq) as [tx_id s']. cbn [fst] in Hid.
  injection Hb as <- <-. cbn [env_bytes env_command env_tx_id].
  set (h := Build_DispatchFrameHeader _ _ _ _ _ _ _ _ _ _ _).
  destruct (scope_byte_inv (opt_scope options)) as [Hs Hs'].
  destruct (ack_policy_byte_inv (ack_policy (opt_ack options))) as [Ha Ha'].
  destruct (fail_policy_byte_inv (fail_policy (opt_fail options))) as [Hf Hf'].
  assert (Hwf : wire_wf h).
  { split; [|done]. unfold h. cbn.
    header_widths; destruct (opt_trace options); lia. }
  pose proof (from_prefix_as_bytes h body Hwf) as Hp.
  assert (Hbody : dispatch_body (as_bytes h ++ body) = body).
  { unfold dispatch_body. apply drop_app_exact. symmetry. apply length_as_bytes. }
  split; [|split; [|split; [|split]]].
  - unfold dispatch_parse. rewrite Hp. cbn [dh_magic dh_version dh_body_len dh_scope dh_ack_policy
      dh_fail_policy h]. rewrite !Z.eqb_refl. cbn [negb].
    rewrite !(proj2 (Z.ltb_ge _ _)) by lia. done.
  - exists h. unfold dispatch_header. rewrite Hp. done.
  - by rewrite Hbody.
  - unfold view_params, dispatch_header. rewrite Hp. cbn [option_map fst dh_command h].
    by rewrite Z.eqb_refl.
  - by apply response_roundtrip.
Qed.

(** A specification whose parameters are the bytes themselves. *)
Definition raw_spec : DispatchSpec bytes bytes :=
  (spec_new 7 (fun p => Ok p) (fun b => Ok b) (fun r => Ok r) (fun b => Ok b) 3).1.1.

Definition raw_envelope : DispatchEnvelope :=
  match (build raw_spec [to_byte 1; to_byte 2] DispatchOptions_default (tx_seed 3)).1 with
  | Ok env => env
  | Err _ => {| env_tx_id := 0; env_command := 0; env_bytes := []; env_options := DispatchOptions_default |}
  end.

Definition raw_response : DispatchResponse :=
  {| dr_tx_id := env_tx_id raw_envelope; dr_command := 7; dr_kind := KRejected; dr_payload := [to_byte 9] |}.

Lemma dispatch_frames_roundtrip_witness :
  exists b, encode_dispatch_response raw_response = Ok b /\ response_parse b = Ok raw_response /\
    view_params raw_spec (env_bytes raw_envelope) = Ok [to_byte 1; to_byte 2].
Proof.
  assert (Hb : build raw_spec [to_byte 1; to_byte 2] DispatchOptions_default (tx_seed 3) =
    (Ok raw_envelope, wrap_add64 (tx_seed 3) 1)) by (vm_compute; reflexivity).
  destruct (encode_dispatch_response raw_response) as [b|] eqn:He; [|vm_compute in He; discriminate He].
  assert (Hc : is_u8 (sp_command raw_spec)) by (unfold is_u8, u8_max; cbn; lia).
  assert (Ht : 0 <= opt_timeout DispatchOptions_default) by (cbn; lia).
  assert (Hi : is_u64 (dr_tx_id raw_response)) by (vm_compute; split; discriminate).
  pose proof (dispatch_frames_roundtrip raw_spec [to_byte 1; to_byte 2] DispatchOptions_default
    (tx_seed 3) raw_envelope _ raw_response b Hc Ht Hb Hc Hi He) as (_ & _ & He' & Hv & Hr).
  exists b. split; [reflexivity|]. split; [exact Hr|]. rewrite Hv.
  exact (eq_sym He').
Defined.

(** ** Transaction ids *)

(** The inverse of the mixing constant modulo 2^56. *)
Lemma seed_mix_inverse : TX_ID_SEED_MIX * 62632449791193917 mod 2 ^ 56 = 1.
Proof. reflexivity. Qed.

Lemma seed_mod epoch : tx_seed epoch mod 2 ^ 56 = (epoch * TX_ID_SEED_MIX) mod 2 ^ 56.
Proof.
  unfold tx_seed, wrap_mul64. change (2 ^ 64) with (2 ^ 56 * 2 ^ 8).
  rewrite Z.rem_mul_r by lia. rewrite (Z.mul_comm (2 ^ 56)), Z.mod_add by lia.
  apply Z.mod_mod. lia.
Qed.

(** The [n]-th id of the specification for [command] built at [epoch]. *)
Definition nth_tx_id (command epoch : Z) (n : nat) : Z :=
  (next_tx_id command (Nat.iter n (fun seq => wrap_add64 seq 1) (tx_seed epoch))).1.

Lemma iter_seq_mod n seq :
  Nat.iter n (fun seq => wrap_add64 seq 1) seq mod 2 ^ 56 = (seq + Z.of_nat n) mod 2 ^ 56.
Proof.
  induction n as [|n IH]; [by rewrite Z.add_0_r|]. rewrite Nat.iter_succ.
  set (x := Nat.iter n _ seq) in *. unfold wrap_add64.
  change (2 ^ 64) with (2 ^ 56 * 2 ^ 8). rewrite Z.rem_mul_r by lia.
  rewrite (Z.mul_comm (2 ^ 56)), Z.mod_add, Z.mod_mod by lia.
  rewrite <- Z.add_mod_idemp_l, IH, Z.add_mod_idemp_l by lia. f_equal. lia.
Qed.

Lemma nth_tx_id_value command epoch n :
  nth_tx_id command epoch n =
  command * 2 ^ 56 + (epoch * TX_ID_SEED_MIX + Z.of_nat n) mod 2 ^ 56.
Proof.
  unfold nth_tx_id. rewrite next_tx_id_value, iter_seq_mod. f_equal.
  by rewrite <- Z.add_mod_idemp_l, seed_mod, Z.add_mod_idemp_l by lia.
Qed.

(** Which transaction ids can meet: two ids are equal exactly when they are of
    the same command and their places in the 56-bit sequence coincide, that is
    [epoch * MIX + n] agree modulo 2^56.  So one specification repeats an id only
    after 2^56 of them, different commands never share one, and two
    specifications of a command, built at different epochs, start apart. *)
Theorem tx_ids_meet_iff c c' e e' n n' :
  is_u8 c -> is_u8 c' ->
  (nth_tx_id c e n = nth_tx_id c' e' n' <->
   c = c' /\ (e * TX_ID_SEED_MIX + Z.of_nat n) mod 2 ^ 56 = (e' * TX_ID_SEED_MIX + Z.of_nat n') mod 2 ^ 56) /\
  (nth_tx_id c e n = nth_tx_id c e n' -> (Z.of_nat n - Z.of_nat n') mod 2 ^ 56 = 0) /\
  (0 <= e < 2 ^ 56 -> 0 <= e' < 2 ^ 56 -> nth_tx_id c e 0 = nth_tx_id c e' 0 -> e = e').
Proof.
  intros Hc Hc'. rewrite !nth_tx_id_value.
  pose proof (Z.mod_pos_bound (e * TX_ID_SEED_MIX + Z.of_nat n) (2 ^ 56)) as B1.
  pose proof (Z.mod_pos_bound (e' * TX_ID_SEED_MIX + Z.of_nat n') (2 ^ 56)) as B2.
  unfold is_u8, u8_max in *. split; [|split].
  - split; [|intros [-> ->]; done]. intros E. assert (c = c') as -> by lia. split; [done|lia].
  - intros E. apply Z.add_reg_l in E.
    replace (Z.of_nat n - Z.of_nat n') with
      ((e * TX_ID_SEED_MIX + Z.of_nat n) - (e * TX_ID_SEED_MIX + Z.of_nat n')) by lia.
    by rewrite Zminus_mod, E, Z.sub_diag, Z.mod_0_l by lia.
  - intros He He' E. rewrite !Z.add_0_r in E. apply Z.add_reg_l in E.
    assert (Hi : forall x, (x * TX_ID_SEED_MIX mod 2 ^ 56 * 62632449791193917) mod 2 ^ 56 = x mod 2 ^ 56).
    { intros x. rewrite Z.mul_mod_idemp_l, <- Z.mul_assoc by lia.
      by rewrite <- Z.mul_mod_idemp_r, seed_mix_inverse, Z.mul_1_r by lia. }
    pose proof (Hi e) as H1. rewrite E, Hi in H1. by rewrite !Z.mod_small in H1.
Qed.

Lemma tx_ids_meet_iff_witness : nth_tx_id 7 3 5 <> nth_tx_id 8 3 5 /\ nth_tx_id 7 3 0 <> nth_tx_id 7 4 0.
Proof.
  assert (Hb : forall c, 0 <= c <= 255 -> is_u8 c) by (intros c Hc; unfold is_u8, u8_max; lia).
  split; intros E.
  - destruct (proj1 (proj1 (tx_ids_meet_iff 7 8 3 3 5 5 (Hb 7 ltac:(lia)) (Hb 8 ltac:(lia)))) E) as [H _].
    discriminate H.
  - assert (H : 3 = 4) by (refine (proj2 (proj2 (tx_ids_meet_iff 7 7 3 4 0 0 (Hb 7 ltac:(lia)) (Hb 7 ltac:(lia)))) _ _ E); lia).
    discriminate H.
Defined.
