(* ===== verification/CustomRegistry.v ===== *)
(** * CustomRegistry: handlers of custom messages

    Models [src/api/custom_registry.rs] and [src/dispatch/context.rs]: the table
    of handlers with its frozen copy, registration, and the invocation of the
    handler a frame names.

    A handler is the user's; it is an arbitrary program that may send responses
    and requests through its context, each result of which it sees, and that
    reads and changes a state [U] of the user ([Behaviour]).  [display] is the
    text of an error, which only travels inside failure responses.  The locks of
    the registry are never poisoned, as no code panics while it holds them. *)

From stdpp Require Import base list sets gmap strings pretty.
From Stdlib Require Import ZArith Lia.
From S2P Require Import Prelude Types Wire Traits DispatchTx DispatchFrames.

Local Open Scope string_scope.
Local Open Scope list_scope.
Local Open Scope Z_scope.

(** What a handler does with its context. *)
Inductive Behaviour (U : Type) :=
| Return (r : res unit) (u : U)
| Respond (kind : DispatchResponseKind) (payload : bytes) (k : res unit -> Behaviour U)
| Request (command : Z) (payload : bytes) (k : res bytes -> Behaviour U).
Arguments Return {U} _ _.
Arguments Respond {U} _ _ _.
Arguments Request {U} _ _ _.

Section Context.
Context {U X : Type}.

(** The environment of a handler: the responder, and the requester if any. *)
Record Responder := {
  send_response : DispatchResponse -> X -> res unit * X;
  request : option (Z -> bytes -> X -> res bytes * X);
}.

(** Runs a handler with the context of the frame ([DispatchContextView]). *)
Fixpoint run_behaviour (tx_id command : Z) (resp : Responder) (b : Behaviour U) (x : X)
  : res unit * U * X :=
  match b with
  | Return r u => (r, u, x)
  | Respond kind payload k =>
      let '(r, x) := send_response resp
        {| dr_tx_id := tx_id; dr_command := command; dr_kind := kind; dr_payload := payload |} x in
      run_behaviour tx_id command resp (k r) x
  | Request c payload k =>
      match request resp with
      | None => run_behaviour tx_id command resp (k (Err (Dispatch "dispatch stream unavailable"))) x
      | Some req => let '(r, x) := req c payload x in run_behaviour tx_id command resp (k r) x
      end
  end.
End Context.
Arguments Responder X : clear implicits.

(** What the context offers a handler, [k] being the rest of the handler. *)
Definition ctx_request_with {U P R} (spec : DispatchSpec P R) (params : P) (k : res R -> Behaviour U)
  : Behaviour U :=
  match sp_encode_params spec params with
  | Err e => k (Err e)
  | Ok payload =>
      Request (sp_command spec) payload (fun r =>
        k (match r with Err e => Err e | Ok response => sp_decode_response spec response end))
  end.
Definition ctx_accept_bytes {U} (payload : bytes) (k : res unit -> Behaviour U) : Behaviour U :=
  Respond KAccepted payload k.
Definition ctx_accept_with {U P R} (spec : DispatchSpec P R) (value : R) (k : res unit -> Behaviour U)
  : Behaviour U :=
  match sp_encode_response spec value with
  | Err e => k (Err e)
  | Ok payload => ctx_accept_bytes payload k
  end.
Definition ctx_reject {U} (reason : bytes) (k : res unit -> Behaviour U) : Behaviour U :=
  Respond KRejected reason k.
Definition ctx_progress_bytes {U} (payload : bytes) (k : res unit -> Behaviour U) : Behaviour U :=
  Respond KProgress payload k.
Definition ctx_fail {U} (error : bytes) (k : res unit -> Behaviour U) : Behaviour U :=
  Respond KFailed error k.

Section Registry.
Context {U : Type} (display : RaftError -> bytes).

(** [ErasedHandler]: from the frame of the view. *)
Definition ErasedHandler : Type := bytes -> U -> Behaviour U.

Definition HandlerSlot : Type := option (DispatchScope * ErasedHandler).

Record RaftCustomRegistry := {
  rg_handlers : list HandlerSlot;
  rg_sealed : option (list HandlerSlot);
}.
Implicit Types reg : RaftCustomRegistry.

Definition custom_registry_new : RaftCustomRegistry :=
  {| rg_handlers := replicate 256 None; rg_sealed := None |}.

(** Sealing again changes nothing. *)
Definition seal reg : RaftCustomRegistry :=
  {| rg_handlers := rg_handlers reg;
     rg_sealed := match rg_sealed reg with Some s => Some s | None => Some (rg_handlers reg) end |}.

(** The handler of a command behind the decoding of its parameters. *)
Definition erase {P R} (spec : DispatchSpec P R) (handler : P -> U -> Behaviour U) : ErasedHandler :=
  fun frame u =>
    match view_params spec frame with
    | Ok params => handler params u
    | Err e =>
        ctx_fail (display e) (fun r =>
          match r with Err e' => Return (Err e') u | Ok _ => Return (Err e) u end)
    end.

(** A slot of a table; commands are bytes, so the index is in range. *)
Definition slot (command : Z) (table : list HandlerSlot) : HandlerSlot :=
  default None (table !! Z.to_nat command).

Definition on_with {P R} (spec : DispatchSpec P R) (handler : P -> U -> Behaviour U) reg
  : res unit * RaftCustomRegistry :=
  match rg_sealed reg with
  | Some _ => (Err (Dispatch "cannot register handlers after seal()"), reg)
  | None =>
      match slot (sp_command spec) (rg_handlers reg) with
      | Some _ =>
          (Err (Dispatch ("dispatch command " +:+ pretty (sp_command spec) +:+ " already registered")), reg)
      | None =>
          (Ok tt,
           {| rg_handlers :=
                <[Z.to_nat (sp_command spec) :=
                    Some (opt_scope (sp_defaults spec), erase spec handler)]> (rg_handlers reg);
              rg_sealed := None |})
      end
  end.

(** The table that is read: the frozen one when there is one. *)
Definition active_table reg : list HandlerSlot := default (rg_handlers reg) (rg_sealed reg).

Definition registry_contains (command : Z) reg : bool :=
  match slot command (active_table reg) with Some _ => true | None => false end.

Definition scope_for (command : Z) reg : option DispatchScope :=
  option_map fst (slot command (active_table reg)).

Definition not_registered (command : Z) : RaftError :=
  Dispatch ("no dispatch handler registered for command " +:+ pretty command).
(** The [Debug] form of a route. *)
Definition route_text (r : DispatchRoute) : string :=
  "DispatchRoute { role: " +:+
  match route_role r with DispatchLeader => "Leader" | DispatchFollower => "Follower" end +:+
  ", is_origin: " +:+ (if is_origin r then "true" else "false") +:+ " }".
Definition not_allowed (command : Z) (r : DispatchRoute) : RaftError :=
  Dispatch ("dispatch command " +:+ pretty command +:+ " not allowed for route " +:+ route_text r).

(** The handler of the slot, when the scope allows the route. *)
Definition admitted (command : Z) (route : option DispatchRoute) (s : HandlerSlot) : res ErasedHandler :=
  match s with
  | None => Err (not_registered command)
  | Some (scope, handler) =>
      match route with
      | Some r => if scope_allows scope r then Ok handler else Err (not_allowed command r)
      | None => Ok handler
      end
  end.

Definition invoke_bytes_for {X} (frame : bytes) (resp : Responder X) (route : option DispatchRoute)
  reg (u : U) (x : X) : res bytes * U * X :=
  match dispatch_parse frame with
  | Err e => (Err e, u, x)
  | Ok view =>
      match dispatch_header view with
      | None => (Err (Dispatch "short dispatch frame header"), u, x)
      | Some h =>
          let command := dh_command h in
          let s := match rg_sealed reg with
                   | Some sealed => slot command sealed
                   | None => slot command (rg_handlers reg)
                   end in
          match admitted command route s with
          | Err e => (Err e, u, x)
          | Ok handler =>
              let '(r, u, x) := run_behaviour (dh_tx_id h) command resp (handler view u) x in
              (match r with Ok _ => Ok view | Err e => Err e end, u, x)
          end
      end
  end.

(** The entry points: with or without a requester, with or without a route. *)
Definition invoke_bytes {X} frame (resp : Responder X) :=
  invoke_bytes_for frame {| send_response := send_response resp; request := None |} None.
Definition invoke_bytes_with {X} frame (resp : Responder X) := invoke_bytes_for frame resp None.
Definition invoke_bytes_with_scoped {X} frame (resp : Responder X) (route : DispatchRoute) :=
  invoke_bytes_for frame resp (Some route).
Definition invoke_bytes_scoped {X} frame (resp : Responder X) (route : DispatchRoute) :=
  invoke_bytes_for frame {| send_response := send_response resp; request := None |} (Some route).
End Registry.
Arguments HandlerSlot U : clear implicits.
Arguments ErasedHandler U : clear implicits.
Arguments RaftCustomRegistry U : clear implicits.

(** ** Sealing *)

Section RegistryFacts.
Context {U : Type} (display : RaftError -> bytes).
Implicit Types reg : RaftCustomRegistry U.

(** Registrations, in any order, with failures, and seals. *)
Inductive registry_step : RaftCustomRegistry U -> RaftCustomRegistry U -> Prop :=
| step_on_with {P R} (spec : DispatchSpec P R) handler reg :
    is_u8 (sp_command spec) -> registry_step reg (on_with display spec handler reg).2
| step_seal reg : registry_step reg (seal reg).

Definition registry_ok reg : Prop :=
  length (rg_handlers reg) = 256%nat /\
  match rg_sealed reg with Some s => s = rg_handlers reg | None => True end.

Lemma registry_steps_ok reg : rtc registry_step custom_registry_new reg -> registry_ok reg.
Proof.
  assert (H0 : registry_ok custom_registry_new) by done.
  induction 1 as [|r1 r2 r3 Hs _ IH]; [done|]. apply IH. clear IH.
  destruct Hs as [P R spec handler r Hc|r], H0 as [Hl Hs].
  - unfold on_with. destruct (rg_sealed r) as [s|] eqn:Es; [cbn; split; [done|by rewrite Es]|].
    destruct (slot _ _); [cbn; split; [done|by rewrite Es]|]. split; cbn; [by rewrite length_insert|done].
  - split; [done|]. cbn. by destruct (rg_sealed r).
Qed.

Lemma slot_insert c c' (v : HandlerSlot U) table :
  is_u8 c -> is_u8 c' -> length table = 256%nat ->
  slot c' (<[Z.to_nat c := v]> table) = if c' =? c then v else slot c' table.
Proof.
  intros Hc Hc' Hl. unfold slot, is_u8 in *. change u8_max with 255 in *.
  destruct (Z.eqb_spec c' c) as [->|Hne].
  - assert (Hi : (Z.to_nat c < length table)%nat) by (rewrite Hl; lia).
    by rewrite (list_lookup_insert_eq _ _ _ Hi).
  - by rewrite list_lookup_insert_ne by lia.
Qed.
End RegistryFacts.


(** A handler that counts its calls and echoes its parameters. *)
Definition echo_handler (params : bytes) (calls : Z) : Behaviour Z :=
  Respond KAccepted params (fun r => Return r (calls + 1)).

Definition plain_display (e : RaftError) : bytes := [to_byte 63].

Definition echo_registry : RaftCustomRegistry Z :=
  (on_with plain_display raw_spec echo_handler custom_registry_new).2.

