(* ===== verification/NodeDispatch.v ===== *)
(** * NodeDispatch: the dispatch layer of a node

    Models [src/api/node/dispatch.rs], the dispatch part of
    [demote_to_follower_keep_term] in [src/api/node/mod.rs] and the two methods of
    the engine that pass on to it: the transactions a
    node started, the responses to them, the handlers it runs for others, and
    [dispatch] itself.

    A transaction is shared by the handle of the caller and the table of pending
    ones; it lives in a store ([nd_store]) and both refer to it by its place
    there.  The type of response values is one type [V] for all commands of a
    node, with the decoder kept beside each transaction. *)

From stdpp Require Import base list sets gmap strings relations.
From Stdlib Require Import ZArith Lia.
From S2P Require Import Prelude Types Wire Codec CodecFacts Arena Progress Quorum Traits Membership.
From S2P Require Import NodeState Node Samples Safety Transports EngineState DispatchTx DispatchFrames.
From S2P Require Import CustomRegistry.

Local Open Scope string_scope.
Local Open Scope list_scope.
Local Open Scope Z_scope.

(** [PendingCustomTx]: the transaction and the decoder of its responses. *)
Record PendingCustomTx (V : Type) := { pt_state : DispatchState V; pt_decode : bytes -> res V }.
Arguments pt_state {V} _.
Arguments pt_decode {V} _.
Arguments Build_PendingCustomTx {V} _ _.

(** The store of transactions and the table of pending ones. *)
Record TxTable (V : Type) := { nd_store : list (PendingCustomTx V); nd_pending : gmap Z nat }.
Arguments nd_store {V} _.
Arguments nd_pending {V} _.
Arguments Build_TxTable {V} _ _.

Record NodeDispatch (V U C : Type) := {
  nd_registry : RaftCustomRegistry U;
  nd_user : U;
  nd_txs : TxTable V;
  nd_clock : C;
}.
Arguments nd_registry {V U C} _.
Arguments nd_user {V U C} _.
Arguments nd_txs {V U C} _.
Arguments nd_clock {V U C} _.
Arguments Build_NodeDispatch {V U C} _ _ _ _.

Section Transactions.
Context {V : Type}.
Implicit Types t : TxTable V.

(** The transaction at [loc] replaced by [d]. *)
Definition put_tx (loc : nat) (d : DispatchState V) t : TxTable V :=
  match nd_store t !! loc with
  | None => t
  | Some p => {| nd_store := <[loc := {| pt_state := d; pt_decode := pt_decode p |}]> (nd_store t);
                 nd_pending := nd_pending t |}
  end.

Definition tx_at (loc : nat) t : option (DispatchState V) := option_map pt_state (nd_store t !! loc).

(** [pending.on_response(peer, ..)] on the transaction at [loc]. *)
Definition respond_at (loc : nat) (peer : PeerId) (kind : DispatchResponseKind) (payload : bytes) t
  : res unit * TxTable V :=
  match nd_store t !! loc with
  | None => (Ok tt, t)
  | Some p =>
      let '(r, d) := on_response (pt_decode p) peer kind payload (pt_state p) in (r, put_tx loc d t)
  end.

Definition remove_pending (tx_id : Z) t : TxTable V :=
  {| nd_store := nd_store t; nd_pending := delete tx_id (nd_pending t) |}.

(** A new transaction, pending under [tx_id]; its place is the handle. *)
Definition insert_pending (tx_id : Z) (p : PendingCustomTx V) t : nat * TxTable V :=
  (length (nd_store t),
   {| nd_store := nd_store t ++ [p]; nd_pending := <[tx_id := length (nd_store t)]> (nd_pending t) |}).

(** Every pending transaction is resolved, then the table cleared. *)
Definition abort_pending t : TxTable V :=
  {| nd_store := imap (fun loc p =>
       if bool_decide (loc ∈ (map_to_list (nd_pending t)).*2)
       then {| pt_state := tx_abort LostLeadership (pt_state p); pt_decode := pt_decode p |} else p)
       (nd_store t);
     nd_pending := ∅ |}.

(** [LocalDispatchResponder::send_response]. *)
Definition local_send_response (local_peer : PeerId) (tx_id : Z) (r : DispatchResponse) t
  : res unit * TxTable V :=
  match nd_pending t !! tx_id with
  | None => (Ok tt, t)
  | Some loc => respond_at loc local_peer (dr_kind r) (dr_payload r) t
  end.
End Transactions.

(** [NodeDispatchResponder::send_response]: over the transport, to [target]. *)
Definition node_send_response {T} `{RaftTransport T} (node_id target : PeerId) (r : DispatchResponse)
  (t : T) : res unit * T :=
  match encode_dispatch_response r with
  | Err e => (Err e, t)
  | Ok inner =>
      match encode_message_vectored node_id (MCustomResponse inner) (replicate 128 (to_byte 0)) with
      | Some (Ok (buf, out)) => send_vectored target (map (slice_bytes buf) out) t
      | Some (Err e) => (Err e, t)
      | None => (Err (Protocol "encoder panic"), t)
      end
  end.

Section NodeDispatch.
Context {V U C : Type} `{Clock C}.
Implicit Types d : NodeDispatch V U C.

Definition set_user (u : U) d : NodeDispatch V U C :=
  Build_NodeDispatch (nd_registry d) u (nd_txs d) (nd_clock d).
Definition set_txs (t : TxTable V) d : NodeDispatch V U C :=
  Build_NodeDispatch (nd_registry d) (nd_user d) t (nd_clock d).
Definition set_nd_clock (c : C) d : NodeDispatch V U C :=
  Build_NodeDispatch (nd_registry d) (nd_user d) (nd_txs d) c.

Definition set_nd_registry (reg : RaftCustomRegistry U) d : NodeDispatch V U C :=
  Build_NodeDispatch reg (nd_user d) (nd_txs d) (nd_clock d).

(** The body of [on_with]; [display] is the text of errors. *)
Definition nd_on_with {P R} (display : RaftError -> bytes) (spec : DispatchSpec P R)
  (handler : P -> U -> Behaviour U) d : res unit * NodeDispatch V U C :=
  let '(r, reg) := on_with display spec handler (nd_registry d) in (r, set_nd_registry reg d).

(** The body of [handle_custom_message]. *)
Definition nd_invoke {T} `{RaftTransport T} (route : DispatchRoute) (from self : PeerId)
  (payload : bytes) d (t : T) : res unit * NodeDispatch V U C * T :=
  let '(r, u, t) := invoke_bytes_scoped payload
    {| send_response := node_send_response self from; request := None |} route
    (nd_registry d) (nd_user d) t in
  (rmap (fun _ => tt) r, set_user u d, t).

(** The body of [handle_custom_response]. *)
Definition nd_on_response (from : PeerId) (payload : bytes) d : res unit * NodeDispatch V U C :=
  match response_parse payload with
  | Err e => (Err e, d)
  | Ok view =>
      match nd_pending (nd_txs d) !! dr_tx_id view with
      | None => (Ok tt, d)
      | Some loc =>
          let '(r, txs) := respond_at loc from (dr_kind view) (dr_payload view) (nd_txs d) in
          let d := set_txs txs d in
          match r with
          | Err e => (Err e, d)
          | Ok _ =>
              let '(now, ck) := clock_now (nd_clock d) in
              let d := set_nd_clock ck d in
              match tx_at loc (nd_txs d) with
              | None => (Ok tt, d)
              | Some st =>
                  let '(ready, st) := is_ready now st in
                  let d := set_txs (put_tx loc st (nd_txs d)) d in
                  (Ok tt, if ready then set_txs (remove_pending (dr_tx_id view) (nd_txs d)) d else d)
              end
          end
      end
  end.

#[export] Instance node_dispatch {T} `{RaftTransport T} : CustomDispatch (NodeDispatch V U C) T := {
  invoke_custom := nd_invoke;
  on_custom_response := nd_on_response;
  abort_lost_leadership d := set_txs (abort_pending (nd_txs d)) d;
}.
End NodeDispatch.

(** ** Starting a transaction *)

Section Dispatch.
Context {S T C V U : Type} `{RaftStorage S} `{RaftTransport T} `{Clock C}.
#[local] Abbreviation D := (NodeDispatch V U C).
Implicit Types n : RaftNode S T C D.

Definition own_role n : DispatchNodeRole := if is_leader n then DispatchLeader else DispatchFollower.

Definition route_for_peer n (peer : PeerId) : DispatchRoute :=
  if peer =? node_id n then {| route_role := own_role n; is_origin := true |}
  else if is_leader n then {| route_role := DispatchFollower; is_origin := false |}
  else {| route_role := match ss_leader_id (soft_state n) with
                        | Some l => if l =? peer then DispatchLeader else DispatchFollower
                        | None => DispatchFollower
                        end;
          is_origin := false |}.

Definition is_dispatch_target n (scope : DispatchScope) (peer : PeerId) : bool :=
  if (peer =? node_id n) && (1 <? Z.of_nat (length (node_peers n))) && negb (is_leader n)
  then match scope with ScopeLocalOnly => true | _ => false end
  else scope_allows scope (route_for_peer n peer).

Definition populate_dispatch_targets (scope : DispatchScope) n : RaftNode S T C D :=
  set_scratch_peers (List.filter (is_dispatch_target n scope) (node_peers n)) n.

(** The sends of the fan-out; failures are only logged.  They touch the transport
    alone and the local handler the transactions alone, so their order does not
    matter. *)
Fixpoint fan_out_custom (peers : list PeerId) (frame : bytes) (t : T) : T :=
  match peers with
  | [] => t
  | p :: peers' => fan_out_custom peers' frame (send_frame_owned p frame t).2
  end.

(** The handler of this node for its own frame. *)
Definition invoke_local (env : DispatchEnvelope) n : res unit * RaftNode S T C D :=
  let d := dispatch n in
  let '(r, u, txs) := invoke_bytes_scoped (env_bytes env)
    {| send_response := local_send_response (node_id n) (env_tx_id env); request := None |}
    (route_for_peer n (node_id n)) (nd_registry d) (nd_user d) (nd_txs d) in
  (rmap (fun _ => tt) r, set_dispatch (set_txs txs (set_user u d)) n).

(** The handle is the place of the transaction; [seq] is the counter of [spec]. *)
Definition node_dispatch_start {P} (spec : DispatchSpec P V) (params : P) (seq : Z) n
  : res nat * Z * RaftNode S T C D :=
  let '(built, seq) := build spec params (sp_defaults spec) seq in
  match built with
  | Err e => (Err e, seq, n)
  | Ok env =>
      let n := populate_dispatch_targets (opt_scope (env_options env)) n in
      let targets := scratch_peers n in
      let '(now, ck) := clock_now (nd_clock (dispatch n)) in
      let p := {| pt_state := begin_transaction (env_tx_id env) (env_command env) (env_options env)
                                targets now;
                  pt_decode := sp_decode_response spec |} in
      let '(loc, txs) := insert_pending (env_tx_id env) p (nd_txs (dispatch n)) in
      let n := set_dispatch (set_nd_clock ck (set_txs txs (dispatch n))) n in
      match encode_message_to_bytes [] (node_id n) (MCustom (env_bytes env)) with
      | Some (Ok frame) =>
          let others := List.filter (fun p => negb (p =? node_id n)) targets in
          let n := set_transport (fan_out_custom others frame (transport n)) n in
          if contains (node_id n) targets then
            let '(r, n) := invoke_local env n in
            (match r with Ok _ => Ok loc | Err e => Err e end, seq, n)
          else (Ok loc, seq, n)
      | Some (Err e) => (Err e, seq, n)
      | None => (Err (Protocol "encoder panic"), seq, n)
      end
  end.

Definition node_on_with {P R} display (spec : DispatchSpec P R) (handler : P -> U -> Behaviour U) n
  : res unit * RaftNode S T C D :=
  let '(r, d) := nd_on_with display spec handler (dispatch n) in (r, set_dispatch d n).

(** ** The engine *)

Definition engine_on_with {SM P R} display (spec : DispatchSpec P R) (handler : P -> U -> Behaviour U)
  (r : ArbitroRaft S T C D SM) : res unit * ArbitroRaft S T C D SM :=
  let '(x, n) := node_on_with display spec handler (node r) in (x, set_node n r).

Definition engine_dispatch {SM P} (spec : DispatchSpec P V) (params : P) (seq : Z)
  (r : ArbitroRaft S T C D SM) : res nat * Z * ArbitroRaft S T C D SM :=
  let '(x, seq, n) := node_dispatch_start spec params seq (node r) in (x, seq, set_node n r).
End Dispatch.

(** ** The laws the node relies on *)

(** A handler without a requester acts on its environment through the responder. *)
Lemma run_behaviour_rel {U X} (R : X -> X -> Prop) `{!PreOrder R} tx_id command resp (b : Behaviour U) x :
  request resp = None -> (forall r x, R x (send_response resp r x).2) ->
  R x (run_behaviour tx_id command resp b x).2.
Proof.
  intros Hn Hs. revert x. induction b as [r u|kind payload k IH|c payload k IH]; intros x;
    cbn [run_behaviour]; [reflexivity| |].
  - specialize (Hs {| dr_tx_id := tx_id; dr_command := command; dr_kind := kind; dr_payload := payload |} x).
    destruct (send_response resp _ x) as [r x1]. cbn [snd] in Hs. etransitivity; [exact Hs|apply IH].
  - rewrite Hn. apply IH.
Qed.

Lemma invoke_rel {U X} (R : X -> X -> Prop) `{!PreOrder R} frame (resp : Responder X) route
  (reg : RaftCustomRegistry U) u x :
  (forall r x, R x (send_response resp r x).2) ->
  R x (invoke_bytes_scoped frame resp route reg u x).2.
Proof.
  intros Hs. unfold invoke_bytes_scoped, invoke_bytes_for.
  destruct (dispatch_parse frame) as [view|]; [|cbn; reflexivity].
  destruct (dispatch_header view) as [h|]; [|cbn; reflexivity].
  destruct (admitted _ _ _) as [handler|]; [|cbn; reflexivity].
  match goal with |- context [run_behaviour ?i ?c ?r ?b x] =>
    pose proof (run_behaviour_rel R i c r b x eq_refl Hs) as Hr;
    destruct (run_behaviour i c r b x) as [[r0 u0] x0] end. exact Hr.
Qed.

Section Laws.
Context {V U C T : Type} `{Clock C} `{RaftTransport T}.

#[export] Instance node_dispatch_rel (R : T -> T -> Prop) `{!TransportRel T R} :
  DispatchRel (NodeDispatch V U C) T R.
Proof.
  split. intros route from self payload d t. cbn. unfold nd_invoke.
  match goal with |- context [invoke_bytes_scoped ?f ?r ?ro ?g ?u ?t] =>
    pose proof (invoke_rel R f r ro g u t) as Hr; destruct (invoke_bytes_scoped f r ro g u t) as [[r0 u0] t0] end.
  apply Hr. intros r x. cbn. unfold node_send_response.
  destruct (encode_dispatch_response r); [|cbn; reflexivity].
  destruct (encode_message_vectored _ _ _) as [[[buf out]|]|]; [|cbn; reflexivity..]. apply rel_vectored.
Qed.

#[export] Instance node_dispatch_laws `{!TransportLaws T} : DispatchLaws (NodeDispatch V U C) T.
Proof.
  split. intros route from self payload d t r d' t'. cbn. unfold nd_invoke.
  set (quiet := fun t t' : T =>
    (exists new, sent t' = sent t ++ new /\ Forall custom_frame new) /\ inbox t' = inbox t).
  assert (Hrefl : forall t, quiet t t) by (intros x; split; [exists []; by rewrite app_nil_r|done]).
  assert (Hq : PreOrder quiet).
  { split; [done|]. intros x y z [(l & El & Hl) ?] [(k & Ek & Hk) ?]. split; [|congruence].
    exists (l ++ k). split; [by rewrite Ek, El, app_assoc|by apply Forall_app]. }
  match goal with |- context [invoke_bytes_scoped ?f ?r ?ro ?g ?u ?t] =>
    pose proof (invoke_rel quiet f r ro g u t) as Hr; destruct (invoke_bytes_scoped f r ro g u t) as [[r0 u0] t0] end.
  intros [= _ _ <-]. apply Hr. intros r1 t1. cbn. unfold node_send_response.
  destruct (encode_dispatch_response r1) as [inner|]; [|apply Hrefl].
  unfold encode_message_vectored.
  destruct (encode_message_vectored_impl _ _ _ _) as [[[buf out]|]|] eqn:E; [|apply Hrefl..].
  apply encode_vectored_Ok in E as [Hfit Hg]. unfold gather in Hg.
  destruct (send_vectored _ _ t1) as [x t2] eqn:Es. apply send_vectored_law in Es as [Es Ei].
  split; [|done]. cbn [snd]. destruct Es as [->| ->]; [exists []; by rewrite app_nil_r|].
  eexists. split; [reflexivity|]. rewrite Hg. apply Forall_singleton. by apply custom_frame_of.
Qed.
End Laws.

(** ** Open transactions are pending *)

Section Tables.
Context {V : Type}.
Implicit Types t : TxTable V.

(** Every transaction is decided by its answers, and an open one is pending. *)
Record table_ok t : Prop := {
  tk_tx loc p : nd_store t !! loc = Some p -> tx_ok (pt_state p);
  tk_open loc p : nd_store t !! loc = Some p -> ds_completion (pt_state p) = None ->
    exists id, nd_pending t !! id = Some loc;
}.

Lemma put_tx_store loc d t l :
  nd_store (put_tx loc d t) !! l =
  if decide (l = loc) then option_map (fun p => {| pt_state := d; pt_decode := pt_decode p |}) (nd_store t !! loc)
  else nd_store t !! l.
Proof.
  unfold put_tx. destruct (nd_store t !! loc) as [p|] eqn:E; case_decide as Hl; subst; cbn; auto.
  - apply list_lookup_insert_eq. by eapply lookup_lt_Some.
  - by rewrite list_lookup_insert_ne.
Qed.

Lemma put_tx_pending loc d t : nd_pending (put_tx loc d t) = nd_pending t.
Proof. unfold put_tx. by destruct (nd_store t !! loc). Qed.

(** A step of one transaction keeps the table in order. *)
Lemma put_tx_ok loc p d t :
  nd_store t !! loc = Some p -> tx_step (pt_state p) d -> table_ok t -> table_ok (put_tx loc d t).
Proof.
  intros Hp Hs [Ht Ho]. split.
  - intros l q. rewrite put_tx_store. case_decide as Hl; [|apply Ht]. rewrite Hp. intros [= <-].
    eapply step_ok; [exact Hs|by eapply Ht].
  - intros l q. rewrite put_tx_store, put_tx_pending. case_decide as Hl; [|apply Ho]. subst l.
    rewrite Hp. intros [= <-] Hc. cbn in Hc. apply (Ho loc p Hp).
    destruct (ds_completion (pt_state p)) eqn:Ec; [|done].
    rewrite (step_final _ _ Hs) in Hc by congruence. congruence.
Qed.

Lemma respond_ok loc peer kind payload t : table_ok t -> table_ok (respond_at loc peer kind payload t).2.
Proof.
  intros Ht. unfold respond_at. destruct (nd_store t !! loc) as [p|] eqn:Hp; [|done].
  pose proof (step_respond (pt_decode p) peer kind payload (pt_state p)) as Hs.
  destruct (on_response _ _ _ _ _) as [r d]. by eapply put_tx_ok.
Qed.

Lemma remove_ok id loc p t :
  nd_pending t !! id = Some loc -> nd_store t !! loc = Some p ->
  ds_completion (pt_state p) <> None -> table_ok t -> table_ok (remove_pending id t).
Proof.
  intros Hid Hp Hc [Ht Ho]. split; [exact Ht|]. cbn. intros l q Hq Hcq.
  destruct (Ho l q Hq Hcq) as [i Hi]. exists i. rewrite lookup_delete_ne; [done|]. intros ->.
  rewrite Hid in Hi. injection Hi as ->. congruence.
Qed.

Lemma insert_ok id p t :
  nd_pending t !! id = None -> tx_ok (pt_state p) -> table_ok t -> table_ok (insert_pending id p t).2.
Proof.
  intros Hid Hp [Ht Ho]. split; cbn; intros l q [Hq|[Hl Hq]]%lookup_app_Some.
  - by eapply Ht.
  - apply list_lookup_singleton_Some in Hq as [_ <-]. done.
  - intros Hc. destruct (Ho l q Hq Hc) as [i Hi]. exists i. rewrite lookup_insert_ne; [done|congruence].
  - apply list_lookup_singleton_Some in Hq as [Hz <-]. intros _. exists id.
    rewrite lookup_insert_eq. f_equal. lia.
Qed.

Lemma abort_store loc t :
  nd_store (abort_pending t) !! loc =
  option_map (fun p => if bool_decide (loc ∈ (map_to_list (nd_pending t)).*2)
                       then {| pt_state := tx_abort LostLeadership (pt_state p); pt_decode := pt_decode p |}
                       else p) (nd_store t !! loc).
Proof. unfold abort_pending. cbn. apply list_lookup_imap. Qed.

Lemma abort_resolves loc st t :
  table_ok t -> tx_at loc (abort_pending t) = Some st -> ds_completion st <> None /\ ds_wakers st = [].
Proof.
  intros [Ht Ho]. unfold tx_at. rewrite abort_store.
  destruct (nd_store t !! loc) as [p|] eqn:Hp; [|done]. cbn [option_map]. intros [= <-].
  pose proof (Ht loc p Hp) as Hok. case_bool_decide as Hin; cbn [pt_state].
  - unfold tx_abort. unfold tx_ok in Hok. destruct (ds_completion (pt_state p)) eqn:Hc; [|done].
    split; [congruence|apply Hok].
  - destruct (ds_completion (pt_state p)) eqn:Hc.
    + split; [done|]. unfold tx_ok in Hok. rewrite Hc in Hok. apply Hok.
    + destruct Hin. destruct (Ho loc p Hp Hc) as [id Hid]. apply list_elem_of_fmap.
      exists (id, loc). split; [done|]. by apply elem_of_map_to_list.
Qed.

Lemma abort_ok t : table_ok t -> table_ok (abort_pending t).
Proof.
  intros Ht. pose proof (fun loc st => abort_resolves loc st t Ht) as Hr. unfold tx_at in Hr. split.
  - intros loc p. rewrite abort_store. destruct (nd_store t !! loc) as [q|] eqn:Hq; [|done].
    pose proof (tk_tx _ Ht loc q Hq) as Hok. intros [= <-]. case_bool_decide; [|done].
    cbn. eapply step_ok; [apply step_abort|done].
  - intros loc p Hp Hc. destruct (Hr loc (pt_state p)) as [Hn _]; [by rewrite Hp|done].
Qed.
End Tables.

Section Stranded.
Context {S T C V U : Type} `{RaftStorage S} `{RaftTransport T} `{Clock C}.
#[local] Abbreviation D := (NodeDispatch V U C).

(** What happens to the dispatch layer of a node: responses and foreign frames
    come in, handlers are registered, handles are polled, leadership is lost, and
    transactions are started under ids that are not pending. *)
Inductive dispatch_step : D -> D -> Prop :=
| ds_response from payload d : dispatch_step d (nd_on_response from payload d).2
| ds_invoke route from self payload d (t : T) : dispatch_step d (nd_invoke route from self payload d t).1.2
| ds_poll loc w now sleep_done st d :
    tx_at loc (nd_txs d) = Some st ->
    dispatch_step d (set_txs (put_tx loc (poll_wait w now sleep_done st).2 (nd_txs d)) d)
| ds_ready loc now st d :
    tx_at loc (nd_txs d) = Some st ->
    dispatch_step d (set_txs (put_tx loc (is_ready now st).2 (nd_txs d)) d)
| ds_register {P R} display (spec : DispatchSpec P R) handler d :
    dispatch_step d (nd_on_with display spec handler d).2
| ds_abort d : dispatch_step d (abort_lost_leadership (T := T) d)
| ds_start {P} (spec : DispatchSpec P V) params seq (n : RaftNode S T C D) r seq' n' :
    nd_pending (nd_txs (dispatch n)) !! (next_tx_id (sp_command spec) seq).1 = None ->
    node_dispatch_start spec params seq n = (r, seq', n') -> dispatch_step (dispatch n) (dispatch n').

Lemma response_ok from payload (d : D) :
  table_ok (nd_txs d) -> table_ok (nd_txs (nd_on_response from payload d).2).
Proof.
  intros Hd. unfold nd_on_response. destruct (response_parse payload) as [view|]; [|done].
  destruct (nd_pending (nd_txs d) !! dr_tx_id view) as [loc|] eqn:Hid; [|done].
  pose proof (respond_ok loc from (dr_kind view) (dr_payload view) _ Hd) as Ht.
  destruct (respond_at _ _ _ _ _) as [r txs] eqn:Er. cbn [snd] in Ht. destruct r; [|done].
  cbn [nd_clock set_txs]. destruct (clock_now _) as [now ck]. cbn [nd_txs set_nd_clock set_txs].
  destruct (tx_at loc txs) as [st|] eqn:Hst; [|done]. unfold tx_at in Hst.
  destruct (nd_store txs !! loc) as [p|] eqn:Hp; [|done]. injection Hst as <-.
  pose proof (step_ready now (pt_state p)) as Hs.
  pose proof (put_tx_ok loc p _ txs Hp Hs Ht) as Ht2. cbn [is_ready].
  assert (Hpend : nd_pending (put_tx loc (check_timeout now (pt_state p)) txs) !! dr_tx_id view = Some loc).
  { rewrite put_tx_pending. revert Er. unfold respond_at. destruct (nd_store (nd_txs d) !! loc).
    - destruct (on_response _ _ _ _ _). intros [= _ <-]. by rewrite put_tx_pending.
    - by intros [= _ <-]. }
  destruct (ds_completion (check_timeout now (pt_state p))) as [c|] eqn:Hc; cbn [snd nd_txs set_txs]; [|done].
  eapply (remove_ok _ loc {| pt_state := check_timeout now (pt_state p); pt_decode := pt_decode p |});
    [done| |cbn; congruence|done].
  rewrite put_tx_store, decide_True, Hp by done. done.
Qed.

(** Handlers see the table only through the responses they send. *)
Definition keeps_table (t t' : TxTable V) : Prop := table_ok t -> table_ok t'.
#[local] Instance keeps_table_preorder : PreOrder keeps_table.
Proof. split; unfold keeps_table; [by intros t|]. intros t1 t2 t3. auto. Qed.

Lemma local_ok env (n : RaftNode S T C D) :
  table_ok (nd_txs (dispatch n)) -> table_ok (nd_txs (dispatch (invoke_local env n).2)).
Proof.
  intros Hd. unfold invoke_local.
  match goal with |- context [invoke_bytes_scoped ?f ?r ?ro ?g ?u ?t] =>
    pose proof (invoke_rel keeps_table f r ro g u t) as Hr;
    destruct (invoke_bytes_scoped f r ro g u t) as [[r0 u0] t0] end.
  cbn. apply Hr; [|done]. intros r t Ht. cbn. unfold local_send_response.
  destruct (nd_pending t !! _); [by apply respond_ok|done].
Qed.

Lemma start_ok {P} (spec : DispatchSpec P V) params seq (n : RaftNode S T C D) r seq' n' :
  nd_pending (nd_txs (dispatch n)) !! (next_tx_id (sp_command spec) seq).1 = None ->
  node_dispatch_start spec params seq n = (r, seq', n') ->
  table_ok (nd_txs (dispatch n)) -> table_ok (nd_txs (dispatch n')).
Proof.
  intros Hid E Hd. unfold node_dispatch_start in E.
  assert (Hb : forall env s, build spec params (sp_defaults spec) seq = (Ok env, s) ->
    env_tx_id env = (next_tx_id (sp_command spec) seq).1).
  { intros env s. unfold build. destruct (sp_encode_params spec params); [|done].
    destruct (_ <? _); [done|]. destruct (next_tx_id _ _). by intros [= <- _]. }
  destruct (build spec params (sp_defaults spec) seq) as [[env|] s]; [|by injection E as _ _ <-].
  specialize (Hb env s eq_refl). rewrite <- Hb in Hid. revert E.
  cbn [populate_dispatch_targets dispatch set_scratch_peers scratch_peers].
  destruct (clock_now _) as [now ck]. set (p := Build_PendingCustomTx _ _).
  pose proof (insert_ok (env_tx_id env) p (nd_txs (dispatch n)) Hid) as Hi.
  specialize (Hi ltac:(by apply evaluate_ok) Hd).
  destruct (insert_pending _ p _) as [loc txs]. cbn [snd] in Hi.
  destruct (encode_message_to_bytes _ _ _) as [[frame|]|];
    [|by intros [= _ _ <-]|by intros [= _ _ <-]].
  destruct (contains _ _); [|by intros [= _ _ <-]].
  match goal with |- context [invoke_local env ?m] =>
    pose proof (local_ok env m Hi) as Hl; destruct (invoke_local env m) as [r1 n1] end.
  by intros [= _ _ <-].
Qed.

Lemma dispatch_steps_ok (d d' : D) :
  rtc dispatch_step d d' -> table_ok (nd_txs d) -> table_ok (nd_txs d').
Proof.
  induction 1 as [|d1 d2 d3 Hs _ IH]; [done|]. intros Hd. apply IH. clear IH.
  destruct Hs as [from payload d|route from self payload d t|loc w now sl st d Hst|loc now st d Hst|P R display spec handler d|d|P spec params seq n r s' n' Hid E].
  - by apply response_ok.
  - unfold nd_invoke. by destruct (invoke_bytes_scoped _ _ _ _ _ _) as [[r u] t'].
  - unfold tx_at in Hst. destruct (nd_store (nd_txs d) !! loc) as [p|] eqn:Hp; [|done].
    injection Hst as <-. eapply put_tx_ok; [done|apply step_poll|done].
  - unfold tx_at in Hst. destruct (nd_store (nd_txs d) !! loc) as [p|] eqn:Hp; [|done].
    injection Hst as <-. eapply put_tx_ok; [done|apply step_ready|done].
  - unfold nd_on_with. by destruct (on_with _ _ _ _).
  - by apply abort_ok.
  - by eapply start_ok.
Qed.

(** The dispatch layer of a node that has started no transaction. *)
Definition dispatch_new (reg : RaftCustomRegistry U) (u : U) (ck : C) : D :=
  {| nd_registry := reg; nd_user := u; nd_txs := {| nd_store := []; nd_pending := ∅ |}; nd_clock := ck |}.
End Stranded.

(** A node of three starts a transaction; a caller waits for it. *)
Definition dispatching_node : RaftNode MemStorage QueueTransport TickClock (NodeDispatch bytes Z TickClock) :=
  let n := sample_node 1 [1; 2; 3] {| current_term := 1; voted_for := None |} [] in
  {| config := config n; storage := storage n; transport := transport n; clock := clock n;
     dispatch := dispatch_new echo_registry 0 (clock n);
     hard_state := hard_state n; soft_state := soft_state n; peer_progress := []; joint_peers := None;
     pending_snapshots := ∅; snapshot_attempts := ∅; log_metadata := log_metadata n;
     scratch_indexes := []; scratch_pending := []; scratch_peers := []; last_voter_contact := ∅;
     scratch_outbound := []; cached_last_log := (0, 0); snapshot_boundary := (0, 0);
     commit_index_pub := 0; metrics := metrics n; last_applied := 0; compaction_debt_entries := 0;
     compaction_debt_bytes := 0; last_leader_contact := None; pending_transfer := None;
     forced_campaign_term := None; read_probe_seq := 0 |}.

Definition started : res nat * Z * RaftNode MemStorage QueueTransport TickClock (NodeDispatch bytes Z TickClock) :=
  node_dispatch_start raw_spec [to_byte 1] (tx_seed 3) dispatching_node.
