(* ===== verification/Waiters.v ===== *)
(** * Waiters: losing leadership and the transactions of a node

    A node whose term rises while it handles a frame, and a node that is made a
    follower at its own term, has resolved every custom transaction it started.
    [yields m]: the method [m] acts on the dispatch layer only by its operations,
    makes nothing pending, and changes the term only together with an abort of what
    is pending.  [yields_auto] proves it by going through the operations of [m]. *)

From stdpp Require Import base list sets gmap strings relations.
From Stdlib Require Import ZArith Lia.
From S2P Require Import Prelude Types Wire Codec CodecFacts Arena Progress Quorum Traits Membership.
From S2P Require Import NodeState Node Election ConfigChange Replication Commit Snapshot Transfer Inbound.
From S2P Require Import Samples Frames Safety EngineState DispatchTx DispatchFrames CustomRegistry NodeDispatch.

Local Open Scope list_scope.
Local Open Scope Z_scope.

(** ** Completed transactions stay as they are *)

Section Frozen.
Context {S T C V U : Type} `{RaftStorage S} `{RaftTransport T} `{Clock C}.
#[local] Abbreviation D := (NodeDispatch V U C).
Implicit Types t : TxTable V.

Definition frozen t t' : Prop :=
  forall loc st, tx_at loc t = Some st ->
    exists st', tx_at loc t' = Some st' /\ (ds_completion st <> None -> st' = st).
#[local] Instance frozen_preorder : PreOrder frozen.
Proof.
  split; [intros t loc st; eauto|]. intros t1 t2 t3 H12 H23 loc st Hs.
  destruct (H12 loc st Hs) as (st1 & Hs1 & E1). destruct (H23 loc st1 Hs1) as (st2 & Hs2 & E2).
  exists st2. split; [done|]. intros Hc. specialize (E1 Hc). subst st1. auto.
Qed.

Lemma frozen_put loc p d t :
  nd_store t !! loc = Some p -> tx_step (pt_state p) d -> frozen t (put_tx loc d t).
Proof.
  intros Hp Hs l st. unfold tx_at. rewrite put_tx_store. case_decide as Hl; [|eauto]. subst l.
  rewrite Hp. cbn. intros [= <-]. exists d. split; [done|]. by apply step_final.
Qed.

Lemma frozen_put_at loc st d t : tx_at loc t = Some st -> tx_step st d -> frozen t (put_tx loc d t).
Proof.
  unfold tx_at. destruct (nd_store t !! loc) as [p|] eqn:Hp; [|done]. cbn. intros [= <-]. by apply frozen_put.
Qed.

Lemma frozen_respond loc peer kind payload t : frozen t (respond_at loc peer kind payload t).2.
Proof.
  unfold respond_at. destruct (nd_store t !! loc) as [p|] eqn:Hp; [|done].
  pose proof (step_respond (pt_decode p) peer kind payload (pt_state p)) as Hs.
  destruct (on_response _ _ _ _ _) as [r d]. by eapply frozen_put.
Qed.

Lemma frozen_response from payload (d : D) : frozen (nd_txs d) (nd_txs (nd_on_response from payload d).2).
Proof.
  unfold nd_on_response. destruct (response_parse payload) as [view|]; [|done].
  destruct (nd_pending (nd_txs d) !! dr_tx_id view) as [loc|]; [|done].
  pose proof (frozen_respond loc from (dr_kind view) (dr_payload view) (nd_txs d)) as Hr.
  destruct (respond_at _ _ _ _ _) as [[[]|] txs]; [|done]. cbn [snd] in Hr. cbn [nd_clock set_txs].
  destruct (clock_now _) as [now ck]. cbn [nd_txs set_nd_clock set_txs].
  destruct (tx_at loc txs) as [st|] eqn:Hst; [|done]. pose proof (step_ready now st) as Hs.
  destruct (is_ready now st) as [[] st']; cbn [snd nd_txs set_txs] in *;
    (etransitivity; [exact Hr|]); exact (frozen_put_at loc st st' txs Hst Hs).
Qed.

Lemma frozen_abort t : frozen t (abort_pending t).
Proof.
  intros loc st. unfold tx_at. rewrite abort_store. destruct (nd_store t !! loc) as [p|]; [|done]. cbn.
  intros [= <-]. eexists. split; [reflexivity|]. case_bool_decide; [|done]. cbn. unfold tx_abort.
  by destruct (ds_completion (pt_state p)).
Qed.

Lemma frozen_insert id p t : frozen t (insert_pending id p t).2.
Proof.
  intros loc st. unfold tx_at. cbn. destruct (nd_store t !! loc) eqn:Hl; [|done].
  rewrite (lookup_app_l_Some _ _ _ _ Hl). eauto.
Qed.

Lemma frozen_local env (n : RaftNode S T C D) :
  frozen (nd_txs (dispatch n)) (nd_txs (dispatch (invoke_local env n).2)).
Proof.
  unfold invoke_local.
  match goal with |- context [invoke_bytes_scoped ?f ?r ?ro ?g ?u ?t] =>
    pose proof (invoke_rel frozen f r ro g u t) as Hr;
    destruct (invoke_bytes_scoped f r ro g u t) as [[r0 u0] t0] end.
  apply Hr. intros r t. cbn. unfold local_send_response. destruct (nd_pending t !! _); [|done].
  apply frozen_respond.
Qed.

Lemma frozen_start {P} (spec : DispatchSpec P V) params seq (n : RaftNode S T C D) :
  frozen (nd_txs (dispatch n)) (nd_txs (dispatch (node_dispatch_start spec params seq n).2)).
Proof.
  unfold node_dispatch_start. destruct (build spec params (sp_defaults spec) seq) as [[env|] s]; [|done].
  cbn [populate_dispatch_targets dispatch set_scratch_peers scratch_peers].
  destruct (clock_now _) as [now ck]. set (p := Build_PendingCustomTx _ _).
  pose proof (frozen_insert (env_tx_id env) p (nd_txs (dispatch n))) as Hi.
  destruct (insert_pending _ p _) as [loc txs]. cbn [snd] in Hi.
  destruct (encode_message_to_bytes _ _ _) as [[frame|]|]; [|done..].
  destruct (contains _ _); [|done].
  match goal with |- context [invoke_local env ?m] =>
    pose proof (frozen_local env m) as Hl; destruct (invoke_local env m) as [r1 n1] end.
  etransitivity; [exact Hi|exact Hl].
Qed.

Lemma frozen_steps (d d' : D) :
  rtc (dispatch_step (S := S) (T := T)) d d' -> frozen (nd_txs d) (nd_txs d').
Proof.
  induction 1 as [|d1 d2 d3 Hs _ IH]; [done|]. etransitivity; [|exact IH]. clear IH.
  destruct Hs as [from payload d|route from self payload d t|loc w now sl st d Hst|loc now st d Hst|P R display spec handler d|d|P spec params seq n r s' n' Hid E].
  - apply frozen_response.
  - unfold nd_invoke. by destruct (invoke_bytes_scoped _ _ _ _ _ _) as [[r u] t'].
  - eapply frozen_put_at; [done|apply step_poll].
  - eapply frozen_put_at; [done|apply step_ready].
  - unfold nd_on_with. by destruct (on_with _ _ _ _).
  - apply frozen_abort.
  - pose proof (frozen_start spec params seq n) as Hf. by rewrite E in Hf.
Qed.
End Frozen.

(** ** Methods that abort what is pending when they change the term *)

Section Yields.
Context {S T C V U : Type} `{RaftStorage S} `{RaftTransport T} `{Clock C}.
#[local] Abbreviation D := (NodeDispatch V U C).
#[local] Abbreviation M := (M S T C D).
Implicit Types n : RaftNode S T C D.

Definition pending n : gmap Z nat := nd_pending (nd_txs (dispatch n)).

(** The dispatch layer and the term. *)
Definition epoch n : D * Term := (dispatch n, node_term n).

Record yielded {A} n (r : res A) n' : Prop := {
  yd_steps : rtc (dispatch_step (S := S) (T := T)) (dispatch n) (dispatch n');
  yd_empty : pending n = ∅ -> pending n' = ∅;
  yd_term : is_ok r = true -> node_term n' = node_term n \/ pending n' = ∅;
}.
Definition yields {A} (m : M A) : Prop := forall n, yielded n (m n).1 (m n).2.

Lemma yields_bind {A B} (m : M A) (k : A -> M B) :
  yields m -> (forall a, yields (k a)) -> yields (m ≫= k).
Proof.
  intros Hm Hk n. unfold mbind, M_bind. destruct (Hm n) as [Hs He Ht].
  destruct (m n) as [[a|e] n1]; cbn [fst snd] in *; [|split; done].
  destruct (Hk a n1) as [Hs2 He2 Ht2]. split; [by etransitivity|auto|].
  intros Hok. destruct (Ht2 Hok) as [E|]; [|by right]. rewrite E. destruct (Ht eq_refl); auto.
Qed.

Lemma yields_keeps {A} (m : M A) : keeps epoch m -> yields m.
Proof.
  intros Hm n. specialize (Hm n). unfold epoch in Hm. injection Hm as Hd Ht. split.
  - rewrite Hd. apply rtc_refl.
  - unfold pending. by rewrite Hd.
  - by left.
Qed.

Lemma yields_for_each {X} (l : list X) (body : X -> M unit) :
  (forall x, yields (body x)) -> yields (for_each l body).
Proof.
  intros Hb. induction l as [|x l IH]; cbn [for_each]; [by apply yields_keeps, keeps_ret|].
  apply yields_bind; [apply Hb|]. intros _. exact IH.
Qed.

Lemma demote_aborts n :
  dispatch (demote_to_follower_keep_term n).2 = set_txs (abort_pending (nd_txs (dispatch n))) (dispatch n).
Proof.
  unfold demote_to_follower_keep_term. rewrite bind_gets.
  destruct (negb _); cbn [whenM]; [unfold on_metrics; rewrite bind_modify|rewrite bind_ret];
    rewrite !bind_modify; done.
Qed.

Lemma demote_returns n : (demote_to_follower_keep_term n).1 = Ok tt.
Proof.
  unfold demote_to_follower_keep_term. rewrite bind_gets.
  destruct (negb _); cbn [whenM]; [unfold on_metrics; rewrite bind_modify|rewrite bind_ret];
    rewrite !bind_modify; done.
Qed.

Lemma demote_steps n :
  rtc (dispatch_step (S := S) (T := T)) (dispatch n) (dispatch (demote_to_follower_keep_term n).2).
Proof. rewrite demote_aborts. apply rtc_once. exact (ds_abort (dispatch n)). Qed.

(** A step-down that is written aborts what is pending; one that is not touches
    nothing of the dispatch layer. *)
Lemma step_down_aborts t n :
  let '(r, n') := step_down t n in
  dispatch n' = match r with
                | Ok _ => set_txs (abort_pending (nd_txs (dispatch n))) (dispatch n)
                | Err _ => dispatch n
                end.
Proof.
  unfold step_down. rewrite !bind_modify. set (n0 := set_vote None (set_term t n)).
  unfold mbind, M_bind. destruct (persist_hard_state n0) as [x n1] eqn:Ep.
  assert (Hd : dispatch n1 = dispatch n).
  { pose proof (ltac:(unfold persist_hard_state; keeps_auto) : keeps dispatch (persist_hard_state : M unit)) as Hk.
    specialize (Hk n0). rewrite Ep in Hk. exact Hk. }
  destruct x as [[]|e]; [|done]. pose proof (demote_aborts n1) as Ha. rewrite Hd in Ha.
  pose proof (demote_returns n1) as E. destruct (demote_to_follower_keep_term n1) as [r n2]. cbn in E. by subst r.
Qed.

Lemma yields_step_down t : yields (step_down t).
Proof.
  intros n. pose proof (step_down_aborts t n) as Ha. destruct (step_down t n) as [[[]|e] n'];
    split; unfold pending; cbn [fst snd]; rewrite Ha; try done.
  - apply rtc_once. exact (ds_abort (dispatch n)).
  - by right.
Qed.

Lemma yields_custom from payload : yields (handle_custom_message from payload).
Proof.
  intros n. unfold handle_custom_message. cbn [invoke_custom node_dispatch].
  match goal with |- context [nd_invoke ?r ?f ?s ?p ?d ?t] =>
    pose proof (ds_invoke (S := S) r f s p d t) as Hs;
    assert (Hp : nd_pending (nd_txs (nd_invoke r f s p d t).1.2) = nd_pending (nd_txs d))
      by (unfold nd_invoke; by destruct (invoke_bytes_scoped _ _ _ _ _ _) as [[? ?] ?]);
    destruct (nd_invoke r f s p d t) as [[r0 d0] t0] end.
  cbn in *. split; cbn; [by apply rtc_once|unfold pending; cbn; by rewrite Hp|by left].
Qed.

Lemma yields_custom_response from payload : yields (handle_custom_response from payload).
Proof.
  intros n. unfold handle_custom_response. cbn [on_custom_response node_dispatch].
  pose proof (ds_response (S := S) (T := T) from payload (dispatch n)) as Hs.
  assert (Hp : pending n = ∅ -> nd_pending (nd_txs (nd_on_response from payload (dispatch n)).2) = ∅).
  { unfold pending. intros Hp. unfold nd_on_response. destruct (response_parse payload); [|done].
    by rewrite Hp, lookup_empty. }
  destruct (nd_on_response from payload (dispatch n)) as [r d]. cbn in *.
  split; cbn; [by apply rtc_once|done|by left].
Qed.

Lemma epoch_truncate i : keeps epoch (storage_truncate i : M unit).
Proof. unfold storage_truncate. keeps_auto. Qed.
Lemma epoch_local_term i : keeps epoch (local_term_at i : M _).
Proof. unfold local_term_at. keeps_auto. Qed.
#[local] Hint Resolve epoch_truncate epoch_local_term : keeps.

Lemma epoch_scan what start count items idx : keeps epoch (scan_entries what start count items idx : M nat).
Proof.
  revert idx. induction items as [|[i t] items IH]; intros idx; cbn [scan_entries]; keeps_auto.
Qed.
End Yields.

Create HintDb yields discriminated.
#[export] Hint Resolve yields_step_down yields_custom yields_custom_response : yields.
#[export] Hint Resolve epoch_truncate epoch_local_term epoch_scan : keeps.

Ltac yields_step :=
  lazymatch goal with
  | |- yields (mbind _ _) => apply yields_bind; [|intros ?]
  | |- yields (for_each _ _) => apply yields_for_each; intros ?
  | |- yields (whenM ?b _) => unfold whenM; destruct b
  | |- yields (if ?b then _ else _) => destruct b
  | |- yields (match ?x with _ => _ end) => destruct x
  | |- yields ?m =>
      first [solve [eauto with yields typeclass_instances] | solve [apply yields_keeps; keeps_auto]
            | let h := get_head m in unfold h]
  end.
Ltac yields_auto := repeat (yields_step; cbv beta zeta).

Section Handlers.
Context {S T C V U : Type} `{RaftStorage S} `{RaftTransport T} `{Clock C}.
#[local] Abbreviation D := (NodeDispatch V U C).
#[local] Abbreviation M := (M S T C D).
Implicit Types n : RaftNode S T C D.

Lemma yields_handle_inbound im : yields (handle_inbound im : M unit).
Proof. yields_auto. Qed.

(** Every transaction of [t] is completed in [t'], with nobody waiting for it, and
    is the same if it was completed before; nothing is pending. *)
Definition resolved (t t' : TxTable V) : Prop :=
  nd_pending t' = ∅ /\
  forall loc st, tx_at loc t = Some st ->
    exists st', tx_at loc t' = Some st' /\ ds_completion st' <> None /\ ds_wakers st' = [] /\
      (ds_completion st <> None -> st' = st).

Lemma steps_resolve (d0 d d' : D) :
  table_ok (nd_txs d0) -> rtc (dispatch_step (S := S) (T := T)) d0 d ->
  rtc (dispatch_step (S := S) (T := T)) d d' -> nd_pending (nd_txs d') = ∅ -> resolved (nd_txs d) (nd_txs d').
Proof.
  intros H0' Hd Hs Hp. split; [done|]. intros loc st Hst.
  destruct (frozen_steps _ _ Hs loc st Hst) as (st' & Hst' & Hf). exists st'. split; [done|].
  assert (Hok : table_ok (nd_txs d')) by (eapply dispatch_steps_ok; [|exact H0']; by etransitivity).
  unfold tx_at in Hst'. destruct (nd_store (nd_txs d') !! loc) as [p|] eqn:Hl; [|done]. injection Hst' as <-.
  destruct (ds_completion (pt_state p)) as [c|] eqn:Hc.
  - split; [done|]. split; [|done]. pose proof (tk_tx _ Hok _ _ Hl) as Hx. unfold tx_ok in Hx.
    rewrite Hc in Hx. apply Hx.
  - destruct (tk_open _ Hok _ _ Hl Hc) as [id Hid]. by rewrite Hp, lookup_empty in Hid.
Qed.

Lemma table_new_ok reg u (ck : C) : table_ok (nd_txs (dispatch_new (V := V) (U := U) reg u ck)).
Proof. split; intros l p Hl; by destruct l. Qed.

(** C30: losing leadership strands no waiter.  Whatever transactions a node started
    (under ids not in use), whatever answers, handler calls, timeouts and polls there
    were: after it is made a follower at its own term, after a step-down whose hard
    state was written, and after any frame it handled without an error that changed
    its term, every transaction it ever handed out a handle for is completed, no
    waker is left uncalled, nothing is pending, and those completed before are as
    they were.  A step-down whose hard state could not be written leaves the
    transactions as they were. *)
Theorem step_down_strands_no_waiter reg u ck n :
  rtc (dispatch_step (S := S) (T := T)) (dispatch_new reg u ck) (dispatch n) ->
  resolved (nd_txs (dispatch n)) (nd_txs (dispatch (demote_to_follower_keep_term n).2)) /\
  (forall term r n', step_down term n = (r, n') ->
     match r with
     | Ok _ => resolved (nd_txs (dispatch n)) (nd_txs (dispatch n'))
     | Err _ => dispatch n' = dispatch n
     end) /\
  (forall im n', handle_inbound im n = (Ok tt, n') -> node_term n' <> node_term n ->
     resolved (nd_txs (dispatch n)) (nd_txs (dispatch n'))).
Proof.
  intros Hr. pose proof (table_new_ok reg u ck) as Hnew. split; [|split].
  - eapply steps_resolve; [exact Hnew|exact Hr|apply demote_steps|]. by rewrite demote_aborts.
  - intros term r n' E. pose proof (step_down_aborts term n) as Ha. pose proof (yields_step_down term n) as [Hs _ _].
    rewrite E in Ha, Hs. destruct r; [|done]. eapply steps_resolve; [exact Hnew|exact Hr|exact Hs|]. by rewrite Ha.
  - intros im n' E Ht. pose proof (yields_handle_inbound im n) as [Hs _ Hx]. rewrite E in Hs, Hx.
    eapply steps_resolve; [exact Hnew|exact Hr|exact Hs|]. by destruct (Hx eq_refl).
Qed.
End Handlers.

(** The node that started a transaction is told of a later term. *)
Lemma step_down_strands_no_waiter_witness :
  let late := {| im_from := 2; im_group_id := 0;
                 im_message := MRequestVoteResp {| rvr_term := 9; rvr_vote_granted := 0; rvr_pad := [] |} |} in
  let '(r, n') := handle_inbound late started.2 in
  r = Ok tt /\ option_map ds_completion (tx_at 0 (nd_txs (dispatch started.2))) = Some None /\
  resolved (nd_txs (dispatch started.2)) (nd_txs (dispatch n')).
Proof.
  intros late.
  assert (Hr : rtc (dispatch_step (S := MemStorage) (T := QueueTransport))
    (dispatch_new echo_registry 0 {| tick_now := 1000; tick_step := 1 |}) (dispatch started.2)).
  { apply rtc_once.
    exact (ds_start raw_spec [to_byte 1] (tx_seed 3) dispatching_node started.1.1 started.1.2 started.2
             eq_refl eq_refl). }
  pose proof (step_down_strands_no_waiter _ _ _ _ Hr) as (_ & _ & Hi).
  assert (Ho : (handle_inbound late started.2).1 = Ok tt) by (vm_compute; reflexivity).
  assert (Ht : node_term (handle_inbound late started.2).2 = 9) by (vm_compute; reflexivity).
  assert (Ht0 : node_term started.2 = 1) by (vm_compute; reflexivity).
  destruct (handle_inbound late started.2) as [r n'] eqn:E. cbn [fst snd] in *. subst r.
  split; [done|]. split; [vm_compute; reflexivity|]. apply (Hi late n' E). rewrite Ht, Ht0. discriminate.
Defined.

(** A leader that gets an append of its own term follows from then on, and its
    transactions stay pending: this change of role does not go through the step-down. *)
Lemma same_term_append_keeps_waiters :
  let leader := set_role Leader started.2 in
  let ae := {| ae_term := 1; ae_leader_id := 2; ae_prev_log_index := 0; ae_prev_log_term := 0;
               ae_leader_commit := 0; ae_entry_count := 0; ae_pad := 0 |} in
  let '(r, n') := handle_inbound {| im_from := 2; im_group_id := 0; im_message := MAppendEntries ae [] |} leader in
  (r, is_leader leader, is_leader n') = (Ok tt, true, false) /\
  map_to_list (nd_pending (nd_txs (dispatch n'))) <> [] /\
  option_map ds_completion (tx_at 0 (nd_txs (dispatch n'))) = Some None.
Proof. vm_compute. split; [reflexivity|]. split; [discriminate|reflexivity]. Qed.
