(* ===== verification/Findings.v ===== *)
(** * Findings: executions that break what the code or its comments intend

    Each theorem runs the modelled code on a concrete input over the reference
    storage, transport and clock, and states what it observes. *)

From stdpp Require Import base list sets gmap strings.
From Stdlib Require Import ZArith Lia.
From S2P Require Import Prelude Types Wire Codec CodecFacts Slots Guard Arena Progress Quorum.
From S2P Require Import Traits Membership NodeState Node Samples Election ConfigChange.
From S2P Require Import Replication Commit Snapshot Transfer Inbound Campaign Leader Install.
From S2P Require Import Propose ReadIndex EngineState Engine EngineApi.

Local Open Scope string_scope.
Local Open Scope list_scope.
Local Open Scope Z_scope.

Definition deliver (f : bytes) (n : SampleNode) : SampleNode :=
  match decode_message f with
  | Ok inbound => node_after (handle_inbound inbound n)
  | Err _ => n
  end.

Definition ae (term leader prev prev_term commit count : Z) : AppendEntries :=
  {| ae_term := term; ae_leader_id := leader; ae_prev_log_index := prev;
     ae_prev_log_term := prev_term; ae_leader_commit := commit; ae_entry_count := count;
     ae_pad := 0 |}.

Definition entry (term index byte : Z) : LogEntry :=
  {| e_term := term; e_index := index; e_payload := [to_byte byte] |}.

Definition entries_msg (m : AppendEntries) (es : list LogEntry) : RaftMessage :=
  MAppendEntries m (concat (map entry_bytes es)).

(** ** Replication *)

(** A leader of term 2 whose follower 2 has a different entry 3. *)
Definition leader3 : SampleNode :=
  set_peer_progress [(2, {| next_index := 3; match_index := 0 |});
                     (3, {| next_index := 4; match_index := 0 |})]
    (sample_leader 1 [1; 2; 3] {| current_term := 2; voted_for := Some 1 |} [1; 1; 2]).

Definition diverged : SampleNode :=
  sample_node 2 [1; 2; 3] {| current_term := 2; voted_for := None |} [1; 1; 1].

(** A follower acknowledges its whole log after a heartbeat that only checked
    [prev_log_index], so the leader commits entry 3, which no other node has. *)
Theorem divergent_ack_commits :
  let leader' := node_after (send_bare_heartbeat 2 leader3) in
  let follower' := deliver (last_frame leader') diverged in
  let leader'' := deliver (last_frame follower') leader' in
  commit_index leader3 = 0 /\
  commit_index (node_after (try_advance_commit_index leader'')) = 3 /\
  term_stored leader'' 3 = Some 2 /\ term_stored follower' 3 = Some 1.
Proof. vm_compute. repeat split. Qed.

(** A response of an earlier term moves [match_index] of a later leader. *)
Theorem stale_response_counts :
  let leader := sample_leader 1 [1; 2; 3] {| current_term := 5; voted_for := Some 1 |} [1; 1; 5] in
  let resp := {| aer_term := 3; aer_match_index := 3; aer_success := 1;
                 aer_pad := replicate 7 (to_byte 0) |} in
  let leader' := node_after (handle_inbound (from_peer 2 (MAppendEntriesResp resp)) leader) in
  commit_index (node_after (try_advance_commit_index leader')) = 3.
Proof. vm_compute. reflexivity. Qed.

(** Only the entries up to the first new one are checked for contiguity. *)
Theorem gap_after_first_new_entry :
  let follower := sample_node 2 [1; 2; 3] {| current_term := 2; voted_for := None |} [1; 1] in
  let r := handle_inbound (from_peer 1 (entries_msg (ae 2 1 2 1 0 2)
             [entry 2 3 7; entry 2 9 8])) follower in
  result_of r = Ok tt /\
  map (term_stored (node_after r)) [3; 4; 9] = [Some 2; None; Some 2].
Proof. vm_compute. split; reflexivity. Qed.

(** ** Terms and votes *)

Definition engine (n : SampleNode) : ArbitroRaft MemStorage QueueTransport TickClock unit ListMachine :=
  {| node := n; state_machine := []; stopped := false; next_election_at := 0;
     next_heartbeat_at := 0; election_state := 1; client_rx := []; client_open := true;
     registry := registry_new 4; pending_batch := []; pending_slots := []; commit_waiters := [];
     abuse := ∅ |}.

Definition engine_after {A} (x : result (res A * ArbitroRaft MemStorage QueueTransport TickClock unit ListMachine) Stop)
  (n : SampleNode) : SampleNode :=
  match x with Ok (_, r) => node r | Err _ => n end.

(** The leader's contacts are all long expired. *)
Definition isolated_leader : SampleNode :=
  set_clock {| tick_now := 1000000; tick_step := 1 |}
    (sample_leader 1 [1; 2; 3] {| current_term := 2; voted_for := Some 1 |} [1; 1]).

(** A leader that abdicates forgets its own vote and grants another one in
    the same term. *)
Theorem abdication_allows_second_vote :
  let n := engine_after (heartbeat_tick 8 (engine isolated_leader)) isolated_leader in
  let n' := deliver (frame_of 3 (MRequestVote (vote_req 2 3 2 1))) n in
  hard_state isolated_leader = {| current_term := 2; voted_for := Some 1 |} /\
  hard_state n = {| current_term := 2; voted_for := None |} /\
  hard_state n' = {| current_term := 2; voted_for := Some 3 |}.
Proof. vm_compute. repeat split. Qed.

(** A leader whose disk is full adopts a higher term in memory and goes on
    leading it. *)
Theorem leads_a_term_it_never_won :
  let leader := disk_full
    (sample_leader 1 [1; 2; 3] {| current_term := 2; voted_for := Some 1 |} [1; 1]) in
  let r := handle_inbound_tolerant
             (from_peer 2 (MRequestVote (vote_req 7 2 2 1))) leader in
  result_of r = Ok tt /\ is_leader (node_after r) = true /\ node_term (node_after r) = 7 /\
  v_hard (mem_view (storage (node_after r))) = {| current_term := 2; voted_for := Some 1 |}.
Proof. vm_compute. repeat split. Qed.

(** ** Proposals *)

(** The proposal is answered with success although another leader's entry
    replaced it. *)
Theorem deposed_propose_reports_success :
  let leader := sample_leader 1 [1; 2; 3] {| current_term := 2; voted_for := Some 1 |} [1; 1] in
  let usurper := frame_of 2 (entries_msg (ae 3 2 2 1 3 1) [entry 3 3 99]) in
  match propose_once VecTuning_default 8 [to_byte 42] (with_inbound [usurper] leader) with
  | Ok (r, n) => r = Ok 3 /\ v_log (mem_view (storage n)) !! 3 = Some (3, [to_byte 99])
  | Err _ => False
  end.
Proof. vm_compute. split; reflexivity. Qed.

(** The waiters of four proposals at 5, 6, 7 and 8. *)
Definition waiters : list CommitWaiter :=
  map (fun i => {| cw_index := 5 + i; cw_slot_id := slot_id_new i 1 |}) [0; 1; 2; 3].

Definition leased : SlotRegistry :=
  (lease (lease (lease (lease (registry_new 4)).2).2).2).2.

(** Entry 8 is reported committed while the commit index is 7: the slow path
    leaves the waiters out of order and the fast path looks at the last one. *)
Theorem waiter_notified_before_commit :
  let '(ws, reg) := drain_waiters 5 waiters leased in
  let '(ws', reg') := drain_waiters 7 ws reg in
  poll (slot_id_new 3 1) reg' = Some (Ok 8) /\ ws' = [].
Proof. vm_compute. split; reflexivity. Qed.

(** A leader with entry 2 waiting for its commit. *)
Definition waiting_engine (n : SampleNode) : ArbitroRaft MemStorage QueueTransport TickClock unit ListMachine :=
  {| node := n; state_machine := []; stopped := false; next_election_at := 0;
     next_heartbeat_at := 0; election_state := 0; client_rx := []; client_open := true;
     registry := leased; pending_batch := []; pending_slots := [];
     commit_waiters := [{| cw_index := 2; cw_slot_id := slot_id_new 0 1 |}]; abuse := ∅ |}.

(** Deposed while transferring leadership, the engine keeps its waiters: the
    writer of entry 2 is told it committed after the new leader replaced it. *)
Theorem deposed_waiter_answered_for_other_entry :
  let leader := sample_leader 1 [1; 2; 3] {| current_term := 1; voted_for := Some 1 |} [1; 1] in
  let usurper := frame_of 2 (entries_msg (ae 2 2 1 1 2 1) [entry 2 2 99]) in
  match engine_transfer_leadership VecTuning_default 8 3
          (waiting_engine (with_inbound [usurper] leader)) with
  | Ok (Err (NotLeader _), r) =>
      is_leader (node r) = false /\ term_stored leader 2 = Some 1 /\ term_stored (node r) 2 = Some 2 /\
      match drain VecTuning_default 8 r with
      | Ok (_, r') => poll_write (slot_id_new 0 1) r' = Some (Ok 2)
      | Err _ => False
      end
  | _ => False
  end.
Proof. vm_compute. repeat split. Qed.

(** A stale future reads, and its drop cancels, the write of the next lessee. *)
Theorem stale_future_interferes :
  let '(a, r) := lease (registry_new 1) in
  let a := default 0 a in
  let '(b, r) := lease (notify_committed a 1 r) in
  let b := default 0 b in
  poll a r = None /\
  poll a (notify_committed b 2 r) = Some (Ok 2) /\
  poll b (release a r) = Some (Err (NotLeader None)).
Proof. vm_compute. repeat split. Qed.

(** ** Frame sizes *)

(** Two payloads that each pass the guard, in one batch. *)
Definition large_payload : bytes := replicate (Z.to_nat 40000) (to_byte 1).

Theorem batch_exceeds_frame :
  let es := batch_entries 1 1 [large_payload; large_payload] in
  reject_reserved_prefix large_payload = Ok tt /\
  Z.of_nat (length es) <= append_batch_entries LimitsConfig_default /\
  MAX_FRAME_SIZE < Z.of_nat (length (frame_of 1 (MAppendEntriesVectored (ae 1 1 0 0 0 2) es))).
Proof. vm_compute. repeat split; discriminate. Qed.

(** A chunk of the default size. *)
Theorem default_chunk_exceeds_frame from m chunk :
  Z.of_nat (length chunk) = snapshot_chunk_bytes LimitsConfig_default ->
  MAX_FRAME_SIZE < Z.of_nat (length (frame_bytes from 0 (MInstallSnapshot m chunk))).
Proof.
  intros Hl. unfold frame_bytes. cbn [body_bytes]. rewrite !length_app, !length_as_bytes.
  unfold MAX_FRAME_SIZE. cbn [snapshot_chunk_bytes LimitsConfig_default] in Hl. lia.
Qed.

(** ** Snapshots and configurations *)

Definition install_msg (term last_index last_term : Z) (chunk : bytes) : RaftMessage :=
  MInstallSnapshot
    {| is_term := term; is_leader_id := 1; is_last_included_index := last_index;
       is_last_included_term := last_term; is_offset := 0;
       is_chunk_len := Z.of_nat (length chunk); is_done := 1;
       is_pad := replicate 3 (to_byte 0) |} chunk.

(** A snapshot older than the commit index is accepted: the tip goes back to
    its boundary while the storage keeps the entries, and the next heartbeat
    takes the commit index back with it. *)
Theorem old_snapshot_moves_commit_back :
  let follower := set_commit_index 5
    (sample_node 2 [1; 2; 3] {| current_term := 2; voted_for := None |} [1; 1; 1; 1; 1]) in
  let n := deliver (frame_of 1 (install_msg 2 2 1 [to_byte 0])) follower in
  let n' := deliver (frame_of 1 (entries_msg (ae 2 1 2 1 6 0) [])) n in
  commit_index n = 5 /\ cached_last_log n = (2, 1) /\ term_stored n 5 = Some 1 /\
  commit_index n' = 2.
Proof. vm_compute. repeat split. Qed.

(** The tick panics after streaming a snapshot to its first peer: the bare
    heartbeats of the install refilled the vector the loop indexes. *)
Theorem heartbeat_index_panic :
  let leader := sample_leader 1 [1; 2; 3] {| current_term := 2; voted_for := Some 1 |} [1; 1; 2] in
  let view := {| v_hard := hard_state leader; v_log := delete 1 (sample_log [1; 1; 2]);
                 v_snap := Some ({| last_included_index := 1; last_included_term := 1 |},
                                 [to_byte 0]) |} in
  let lagging := set_peer_progress [(2, {| next_index := 1; match_index := 0 |});
                                    (3, {| next_index := 4; match_index := 3 |})]
    (set_snapshot_boundary (1, 1)
       (set_storage {| mem_view := view; mem_fault := None |}
          (set_clock {| tick_now := 5000; tick_step := 100 |} leader))) in
  let ok := {| isr_term := 2; isr_next_offset := 1; isr_accepted := 1;
               isr_pad := replicate 7 (to_byte 0) |} in
  send_heartbeat_once 8 (with_inbound [frame_of 2 (MInstallSnapshotResp ok)] lagging)
  = Err Panicked.
Proof. vm_compute. reflexivity. Qed.

(** After the last chunk, a repeated response to an earlier one ends the
    install as complete. *)
Theorem duplicate_response_completes_install :
  install_reply 100 90 0 3 true
    {| isr_term := 2; isr_next_offset := 30; isr_accepted := 1;
       isr_pad := replicate 7 (to_byte 0) |} = Installed.
Proof. vm_compute. reflexivity. Qed.

(** A configuration adopted with an entry stays in force after that entry has
    been truncated away. *)
Theorem truncated_config_stays_active :
  let follower := sample_node 2 [1; 2; 3] {| current_term := 2; voted_for := None |} [1; 1] in
  let joint := {| cc_phase := Joint; old_peers := [1; 2; 3]; new_peers := [2; 3; 4] |} in
  let n := deliver (frame_of 1 (entries_msg (ae 2 1 2 1 0 1)
             [{| e_term := 2; e_index := 3; e_payload := config_encode joint |}])) follower in
  let n' := deliver (frame_of 3 (entries_msg (ae 3 3 2 1 0 1) [entry 3 3 7])) n in
  term_stored n' 3 = Some 3 /\
  joint_peers n' = Some ([1; 2; 3], [2; 3; 4]) /\ node_peers n' = [1; 2; 3; 4].
Proof. vm_compute. repeat split. Qed.
