(* ===== verification/GroupFindings.v ===== *)
(** * GroupFindings: executions of groups and dispatch that break an intention

    As [Findings], for the multi-group layer and the dispatch layer. *)

From stdpp Require Import base list sets gmap strings.
From Stdlib Require Import ZArith Lia.
From S2P Require Import Prelude Types Wire Codec CodecFacts Arena Progress Quorum Traits Membership.
From S2P Require Import NodeState Node Samples Inbound Leader Propose Multiplex MultiplexFacts Registry.
From S2P Require Import Driver DispatchTx DispatchFrames CustomRegistry NodeDispatch.

Local Open Scope Z_scope.

(** ** The ready list *)

(** Group 2 receives its frames itself while group 1 never drains its own: one
    frame of group 2 is parked and taken. *)
Definition park_and_take (d : DemuxShared) : DemuxShared :=
  (try_pop_into 2 MAX_FRAME_SIZE (divert (group_frame 2) d)).2.

Definition stuck_head (entries : nat) (d : DemuxShared) : Prop :=
  pending d = 1 /\ inboxes (demux d) !! 2 = Some [] /\ has_frames (inboxes (demux d)) 1 = true /\
  ready (demux d) = 1 :: replicate entries 2.

Lemma park_and_take_grows k d : stuck_head k d -> stuck_head (S k) (park_and_take d).
Proof.
  intros (Hp & H2 & H1 & Hr). unfold park_and_take, divert, park.
  assert (Hg : frame_group (group_frame 2) = Some 2) by (vm_compute; reflexivity).
  assert (Hl : (MAX_FRAME_SIZE <? Z.of_nat (length (group_frame 2))) = false) by (vm_compute; reflexivity).
  rewrite Hg, Hl, H2. cbn [length is_nil]. change (MAX_INBOX_FRAMES <=? 0)%nat with false. cbn iota.
  unfold try_pop_into. cbn [pending demux inboxes ready].
  rewrite (proj2 (Z.eqb_neq _ _)) by lia. rewrite lookup_insert_eq. cbn [app].
  assert (H1' : has_frames (<[2 := [group_frame 2]]> (inboxes (demux d))) 1 = true)
    by (unfold has_frames; by rewrite lookup_insert_ne).
  unfold stuck_head. cbn [snd pending demux inboxes ready]. rewrite Hr. cbn [app drop_stale]. rewrite H1'.
  split; [lia|]. rewrite lookup_insert_eq. split; [done|]. split.
  - unfold has_frames in *. by rewrite !lookup_insert_ne.
  - rewrite <- replicate_cons_app. done.
Qed.

(** The list of ready groups grows without bound although one frame is parked in
    all: behind the head of a group that nobody drains, every frame of another
    group leaves an entry. *)
Theorem ready_list_unbounded k :
  let d := Nat.iter k park_and_take (divert (group_frame 1) (register 2 (register 1 demux_new))) in
  length (ready (demux d)) = S k /\ pending d = 1.
Proof.
  cbv zeta. assert (Hk : stuck_head k
    (Nat.iter k park_and_take (divert (group_frame 1) (register 2 (register 1 demux_new))))).
  { induction k as [|k IH]; [vm_compute; repeat split|]. rewrite Nat.iter_succ. by apply park_and_take_grows. }
  destruct Hk as (Hp & _ & _ & Hr). rewrite Hr. cbn. by rewrite length_replicate.
Qed.

(** ** Batched heartbeats *)

(** What one call of the batch hands to the transport for peer 2 is not a Raft
    message: a transport that delivers the slices of a call as one frame delivers
    something the decoder refuses. *)
Theorem batch_is_not_a_message :
  let frames := heartbeats_for led_groups 2 [9; 7] in
  length frames = 2%nat /\ is_ok (decode_message (concat (frame_slices frames))) = false /\
  forallb (fun f => is_ok (decode_message (stamp (fo_group_id f) (bare_frame f)))) frames = true.
Proof. vm_compute. repeat split. Qed.

(** ** The driver's idle wait *)

Section Wait.
Context {S T C D SM : Type} `{RaftStorage S} `{TransportLaws T} `{Clock C}
  `{!CustomDispatch D (MultiplexedTransport T C)} `{StateMachine SM}.
#[local] Abbreviation Driver := (MultiRaftDriver S T C D SM).
Implicit Types dr : Driver.

Lemma on_group_timers {A} gid (m : Steps (GroupEntry S (MultiplexedTransport T C) C D SM) A) dr x dr' :
  on_group gid m dr = Ok (x, dr') -> dr_timers dr' = dr_timers dr.
Proof.
  unfold on_group, lend, give_back. destruct (dr_groups dr !! gid); [|by intros [= _ <-]].
  destruct (m _) as [[y e]|]; [|done]. by intros [= _ <-].
Qed.

Lemma on_idle_timers {A} gid (m : M S (MultiplexedTransport T C) C D A) dr x dr' :
  on_idle_group gid m dr = Ok (x, dr') -> dr_timers dr' = dr_timers dr.
Proof.
  unfold on_idle_group. destruct (dr_groups dr !! gid); [|by intros [= _ <-]].
  destruct (m _) as [y n]. by intros [= _ <-].
Qed.

Lemma leader_tick_timers fuel gid dr x dr' :
  leader_tick fuel gid dr = Ok (x, dr') -> dr_timers dr' = dr_timers dr.
Proof.
  unfold leader_tick, mbind, Steps_bind.
  destruct (on_idle_group gid check_quorum_active dr) as [[[active|] dr1]|] eqn:E1; [| |done];
    apply on_idle_timers in E1; [|by intros [= _ <-]].
  destruct (default true active).
  - destruct (on_group _ _ dr1) as [[[r|] dr2]|] eqn:E2; [| |done]; apply on_group_timers in E2.
    + unfold tolerate. intros E. assert (dr' = dr2) as -> by (repeat case_match; by injection E). congruence.
    + intros [= _ <-]. congruence.
  - destruct (on_idle_group _ _ dr1) as [[[r|] dr2]|] eqn:E2; [| |done]; apply on_idle_timers in E2;
      intros [= _ <-]; congruence.
Qed.

(** A tick never moves the election deadline of a leader, and once the deadline
    has passed the driver does not wait any more: a leader that no frame reaches,
    as the only voter of its group, keeps the driver spinning. *)
Theorem leader_deadline_stops_waiting fuel now gid dr x dr' e t :
  dr_groups dr !! gid = Some e -> is_leader (ge_node e) = true -> dr_timers dr !! gid = Some t ->
  tick_group fuel now gid dr = Ok (x, dr') ->
  exists t', dr_timers dr' !! gid = Some t' /\ gt_next_election_at t' = gt_next_election_at t /\
    forall max_wait later, 0 <= max_wait -> gt_next_election_at t <= later ->
      idle_wait max_wait later (dr_timers dr') = 0.
Proof.
  intros Hg Hl Ht E.
  assert (Hd : exists t', dr_timers dr' !! gid = Some t' /\ gt_next_election_at t' = gt_next_election_at t).
  { revert E. unfold tick_group, mbind, Steps_bind, s_gets. rewrite Hg, Ht, Hl. cbn [negb andb].
    destruct (_ <=? now); [|intros [= _ <-]; eauto].
    unfold with_timers, s_modify. rewrite Ht. unfold timers_reset_heartbeat.
    destruct (clock_now (dr_clock dr)) as [now' ck].
    destruct (leader_tick _ _ _) as [[[[]|] dr2]|] eqn:E2; [| |done]; apply leader_tick_timers in E2;
      intros [= _ <-]; cbn in E2; rewrite E2; cbn; rewrite lookup_insert_eq; eauto. }
  destruct Hd as (t' & Ht' & He). exists t'. split; [done|]. split; [done|]. intros max_wait later Hm Hp.
  assert (Hpos : forall m : gmap GroupId GroupTimers, 0 <= idle_wait max_wait later m).
  { intros m. unfold idle_wait. apply (map_fold_weak_ind (fun w _ => 0 <= w)); [done|].
    intros. unfold sat_sub. lia. }
  specialize (Hpos (delete gid (dr_timers dr'))).
  unfold idle_wait in *. rewrite (map_fold_delete_L _ _ gid t' (dr_timers dr')); [|intros; lia|done].
  unfold sat_sub in *. lia.
Qed.
End Wait.

(** ** Transactions that complete at home *)

Definition only_voter : RaftNode MemStorage QueueTransport TickClock (NodeDispatch bytes Z TickClock) :=
  set_config (sample_config_of 1 [1]) (set_role Leader dispatching_node).

(** On the only voter of a group the handler answers at once and the transaction
    succeeds, yet it stays in the table of pending ones: only a response that
    comes over the transport takes one out. *)
Theorem local_completion_stays_pending :
  let n := (node_dispatch_start raw_spec [to_byte 1] (tx_seed 3) only_voter).2 in
  let again := (node_dispatch_start raw_spec [to_byte 1] (tx_seed 4) n).2 in
  match tx_at 0 (nd_txs (dispatch n)), tx_at 1 (nd_txs (dispatch again)) with
  | Some a, Some b =>
      accepted_count a = 1 /\ is_Some (ds_completion a) /\ is_Some (ds_completion b) /\
      size (nd_pending (nd_txs (dispatch again))) = 2%nat
  | _, _ => False
  end.
Proof. vm_compute. repeat split; eexists; reflexivity. Qed.
