(* ===== verification/ExampleStorage.v ===== *)
(** * ExampleStorage: the storages of the example programs

    The in-memory storages of [examples/basic_raft.rs] (and its copy in
    [examples/dispatch_rpc.rs]), [examples/inmem_throughput.rs] (and its copy in
    [examples/tcp_throughput.rs]) and [examples/multiraft_driver.rs], with the
    default methods of the storage trait they inherit.  All three keep a vector
    of entries: the first finds an index by scanning from the front and answers a
    short read buffer with fewer entries, the second computes the position from
    the index of the first entry, the third scans from the back; the last two
    refuse a short buffer.

    [VecStorage] is what they have in common: on a vector of consecutive entries
    every operation is the list operation it stands for.  From it follows that
    each of them answers the calls of an engine as the reference storage does
    ([example_storages_refine]), and what the inherited defaults and the strict
    buffers cost: snapshots are acknowledged and lost, terms of entries above 512
    bytes cannot be read, and a peer that lags more than the read buffer is never
    sent another entry.  The handles of the sources are [Arc]s of one mutex; the
    model is the content of the mutex. *)

From stdpp Require Import base list sets gmap strings.
From Stdlib Require Import ZArith Lia.
From S2P Require Import Prelude Types Wire Codec Traits.

Local Open Scope string_scope.
Local Open Scope list_scope.
Local Open Scope raft_scope.
Local Open Scope Z_scope.

(** ** The default methods of the trait *)

Section Defaults.
  Context {S : Type}.

Definition default_append_entries_seeded (hs : list EntryHeader) (ps : list bytes) (s : S)
  : res unit * S :=
  (Err (StorageErr "Seeded append not implemented"), s).

Definition default_read_entry_headers (from to : LogIndex) (s : S)
  : res (option (list EntryHeader)) * S :=
  (Ok None, s).

Definition default_for_each_payload (from to : LogIndex) (s : S) : res (list bytes) * S :=
  (Err (StorageErr "for_each_payload not implemented"), s).

Definition TERM_PROBE_BUF : Z := 512.

Definition default_term_at (entry_at : LogIndex -> Z -> S -> res (option LogEntry) * S)
  (index : LogIndex) (s : S) : res (option Term) * S :=
  let '(r, s') := entry_at index TERM_PROBE_BUF s in
  (let? e := r in Ok (e_term <$> e), s').

Definition default_truncate_before (up_to : LogIndex) (s : S) : res unit * S := (Ok tt, s).

Definition default_load_snapshot_meta
  (load_snapshot : S -> res (option (SnapshotMeta * bytes)) * S) (s : S)
  : res (option SnapshotMeta) * S :=
  let '(r, s') := load_snapshot s in
  (let? o := r in Ok (fst <$> o), s').

End Defaults.

(** ** Stored entries *)

Record StoredEntry := {
  se_term : Term;
  se_index : LogIndex;
  se_payload : bytes;
}.

Definition to_stored (e : LogEntry) : StoredEntry :=
  {| se_term := e_term e; se_index := e_index e; se_payload := e_payload e |}.

Definition of_stored (e : StoredEntry) : LogEntry :=
  {| e_term := se_term e; e_index := se_index e; e_payload := se_payload e |}.

Definition se_len (e : StoredEntry) : Z := Z.of_nat (length (se_payload e)).

Definition in_range (from to : LogIndex) (e : StoredEntry) : bool :=
  (from <=? se_index e) && (se_index e <? to).

(** The last position, [(0, 0)] for an empty vector. *)
Definition stored_last (es : list StoredEntry) : LogIndex * Term :=
  match last es with Some e => (se_index e, se_term e) | None => (0, 0) end.

(** Copying entries into a payload buffer of [rest] bytes: stopping at the first
    that does not fit, or failing there. *)
Fixpoint copy_fitting (rest : Z) (es : list StoredEntry) : list LogEntry :=
  match es with
  | [] => []
  | e :: es' =>
      if rest <? se_len e then [] else of_stored e :: copy_fitting (rest - se_len e) es'
  end.

Fixpoint copy_strict (rest : Z) (es : list StoredEntry) : res (list LogEntry) :=
  match es with
  | [] => Ok []
  | e :: es' =>
      if rest <? se_len e then Err (StorageErr "payload_buf too small")
      else let? out := copy_strict (rest - se_len e) es' in Ok (of_stored e :: out)
  end.

(** One entry copied into a buffer. *)
Definition copy_entry (err : RaftError) (buf : Z) (o : option StoredEntry)
  : res (option LogEntry) :=
  match o with
  | Some e => if buf <? se_len e then Err err else Ok (Some (of_stored e))
  | None => Ok None
  end.

(** ** [basic_raft.rs] and [dispatch_rpc.rs]: a vector scanned from the front *)

Record BasicStorage := {
  bs_entries : list StoredEntry;
  bs_hard_state : HardState;
}.

Definition BasicStorage_default : BasicStorage :=
  {| bs_entries := []; bs_hard_state := HardState_default |}.

Definition basic_save_hard_state (hs : HardState) (s : BasicStorage) : res unit * BasicStorage :=
  (Ok tt, {| bs_entries := bs_entries s; bs_hard_state := hs |}).

Definition basic_append_entries (new : list LogEntry) (s : BasicStorage)
  : res unit * BasicStorage :=
  (Ok tt, {| bs_entries := bs_entries s ++ map to_stored new; bs_hard_state := bs_hard_state s |}).

Definition basic_read_entries (from to : LogIndex) (buf : Z) (s : BasicStorage)
  : res (list LogEntry) * BasicStorage :=
  (Ok (copy_fitting buf (List.filter (in_range from to) (bs_entries s))), s).

Definition basic_truncate_suffix (from : LogIndex) (s : BasicStorage) : res unit * BasicStorage :=
  (Ok tt, {| bs_entries := List.filter (fun e => se_index e <? from) (bs_entries s);
             bs_hard_state := bs_hard_state s |}).

Definition basic_last_log_position (s : BasicStorage) : res (LogIndex * Term) * BasicStorage :=
  (Ok (stored_last (bs_entries s)), s).

Definition basic_entry_at (index : LogIndex) (buf : Z) (s : BasicStorage)
  : res (option LogEntry) * BasicStorage :=
  (copy_entry (TransportErr "buffer too small") buf
     (List.find (fun e => se_index e =? index) (bs_entries s)), s).

Definition basic_load_snapshot (s : BasicStorage)
  : res (option (SnapshotMeta * bytes)) * BasicStorage := (Ok None, s).

#[export] Instance BasicStorage_storage : RaftStorage BasicStorage := {
  load_hard_state s := (Ok (bs_hard_state s), s);
  save_hard_state := basic_save_hard_state;
  append_entries := basic_append_entries;
  append_entries_seeded := default_append_entries_seeded;
  read_entries := basic_read_entries;
  read_entry_headers := default_read_entry_headers;
  for_each_payload := default_for_each_payload;
  entry_at := basic_entry_at;
  storage_term_at := default_term_at basic_entry_at;
  last_log_position := basic_last_log_position;
  truncate_suffix := basic_truncate_suffix;
  truncate_before := default_truncate_before;
  save_snapshot _ _ s := (Ok tt, s);
  load_snapshot := basic_load_snapshot;
  load_snapshot_meta := default_load_snapshot_meta basic_load_snapshot;
}.

(** ** [inmem_throughput.rs] and [tcp_throughput.rs]: a vector addressed by position *)

Record InmemStorage := {
  im_base_index : Z;
  im_entries : list StoredEntry;
  im_hard_state : HardState;
}.

Definition InmemStorage_new : InmemStorage :=
  {| im_base_index := 0; im_entries := [];
     im_hard_state := {| current_term := 1; voted_for := None |} |}.

Definition inmem_save_hard_state (hs : HardState) (s : InmemStorage) : res unit * InmemStorage :=
  (Ok tt, {| im_base_index := im_base_index s; im_entries := im_entries s;
             im_hard_state := hs |}).

Definition inmem_append_entries (new : list LogEntry) (s : InmemStorage)
  : res unit * InmemStorage :=
  match new with
  | [] => (Ok tt, s)
  | e :: _ =>
      (Ok tt,
       {| im_base_index := if im_entries s is [] then e_index e else im_base_index s;
          im_entries := im_entries s ++ map to_stored new;
          im_hard_state := im_hard_state s |})
  end.

Definition inmem_read_entries (from to : LogIndex) (buf : Z) (s : InmemStorage)
  : res (list LogEntry) * InmemStorage :=
  match im_entries s with
  | [] => (Ok [], s)
  | _ =>
      let base := im_base_index s in
      let start := sat_sub from base in
      let finish := Z.min (sat_sub to base) (Z.of_nat (length (im_entries s))) in
      if start <? finish then
        (copy_strict buf
           (take (Z.to_nat (finish - start)) (drop (Z.to_nat start) (im_entries s))), s)
      else (Ok [], s)
  end.

Definition inmem_entry_at (index : LogIndex) (buf : Z) (s : InmemStorage)
  : res (option LogEntry) * InmemStorage :=
  match im_entries s with
  | [] => (Ok None, s)
  | _ =>
      if index <? im_base_index s then (Ok None, s)
      else
        (copy_entry (StorageErr "payload_buf too small") buf
           (im_entries s !! Z.to_nat (index - im_base_index s)), s)
  end.

Definition inmem_last_log_position (s : InmemStorage) : res (LogIndex * Term) * InmemStorage :=
  (Ok (stored_last (im_entries s)), s).

Definition inmem_truncate_suffix (from : LogIndex) (s : InmemStorage) : res unit * InmemStorage :=
  match im_entries s with
  | [] => (Ok tt, s)
  | _ =>
      let kept := take (Z.to_nat (sat_sub from (im_base_index s))) (im_entries s) in
      (Ok tt,
       {| im_base_index := if kept is [] then 0 else im_base_index s;
          im_entries := kept; im_hard_state := im_hard_state s |})
  end.

Definition inmem_load_snapshot (s : InmemStorage)
  : res (option (SnapshotMeta * bytes)) * InmemStorage := (Ok None, s).

#[export] Instance InmemStorage_storage : RaftStorage InmemStorage := {
  load_hard_state s := (Ok (im_hard_state s), s);
  save_hard_state := inmem_save_hard_state;
  append_entries := inmem_append_entries;
  append_entries_seeded := default_append_entries_seeded;
  read_entries := inmem_read_entries;
  read_entry_headers := default_read_entry_headers;
  for_each_payload := default_for_each_payload;
  entry_at := inmem_entry_at;
  storage_term_at := default_term_at inmem_entry_at;
  last_log_position := inmem_last_log_position;
  truncate_suffix := inmem_truncate_suffix;
  truncate_before := default_truncate_before;
  save_snapshot _ _ s := (Ok tt, s);
  load_snapshot := inmem_load_snapshot;
  load_snapshot_meta := default_load_snapshot_meta inmem_load_snapshot;
}.

(** ** [multiraft_driver.rs]: a vector scanned from the back *)

Record HostedStorage := {
  hs_hard_state : option HardState;
  hs_entries : list StoredEntry;
}.

Definition HostedStorage_default : HostedStorage :=
  {| hs_hard_state := None; hs_entries := [] |}.

Definition hosted_load_hard_state (s : HostedStorage) : res HardState * HostedStorage :=
  (Ok (default HardState_default (hs_hard_state s)), s).

Definition hosted_save_hard_state (state : HardState) (s : HostedStorage)
  : res unit * HostedStorage :=
  (Ok tt, {| hs_hard_state := Some state; hs_entries := hs_entries s |}).

Definition hosted_append_entries (new : list LogEntry) (s : HostedStorage)
  : res unit * HostedStorage :=
  (Ok tt, {| hs_hard_state := hs_hard_state s; hs_entries := hs_entries s ++ map to_stored new |}).

Definition hosted_read_entries (from to : LogIndex) (buf : Z) (s : HostedStorage)
  : res (list LogEntry) * HostedStorage :=
  (copy_strict buf (List.filter (in_range from to) (hs_entries s)), s).

Definition hosted_truncate_suffix (from : LogIndex) (s : HostedStorage)
  : res unit * HostedStorage :=
  (Ok tt, {| hs_hard_state := hs_hard_state s;
             hs_entries := List.filter (fun e => se_index e <? from) (hs_entries s) |}).

Definition hosted_last_log_position (s : HostedStorage) : res (LogIndex * Term) * HostedStorage :=
  (Ok (stored_last (hs_entries s)), s).

Definition hosted_entry_at (index : LogIndex) (buf : Z) (s : HostedStorage)
  : res (option LogEntry) * HostedStorage :=
  (copy_entry (StorageErr "payload_buf too small") buf
     (List.find (fun e => se_index e =? index) (List.rev (hs_entries s))), s).

Definition hosted_load_snapshot (s : HostedStorage)
  : res (option (SnapshotMeta * bytes)) * HostedStorage := (Ok None, s).

#[export] Instance HostedStorage_storage : RaftStorage HostedStorage := {
  load_hard_state := hosted_load_hard_state;
  save_hard_state := hosted_save_hard_state;
  append_entries := hosted_append_entries;
  append_entries_seeded := default_append_entries_seeded;
  read_entries := hosted_read_entries;
  read_entry_headers := default_read_entry_headers;
  for_each_payload := default_for_each_payload;
  entry_at := hosted_entry_at;
  storage_term_at := default_term_at hosted_entry_at;
  last_log_position := hosted_last_log_position;
  truncate_suffix := hosted_truncate_suffix;
  truncate_before := default_truncate_before;
  save_snapshot _ _ s := (Ok tt, s);
  load_snapshot := hosted_load_snapshot;
  load_snapshot_meta := default_load_snapshot_meta hosted_load_snapshot;
}.

(** ** Vectors of consecutive entries *)

Definition in_line (b : Z) (es : list StoredEntry) : Prop :=
  forall k e, es !! k = Some e -> se_index e = b + Z.of_nat k.

(** The entry of index [i] in a vector that starts at index [b]. *)
Definition positioned (b : Z) (es : list StoredEntry) (i : LogIndex) : option StoredEntry :=
  if i <? b then None else es !! Z.to_nat (i - b).

Lemma in_line_nil b : in_line b [].
Proof. done. Qed.

Lemma in_line_cons b e es :
  in_line b (e :: es) <-> se_index e = b /\ in_line (b + 1) es.
Proof.
  split.
  - intros H. split; [specialize (H 0%nat e eq_refl); lia|].
    intros k x Hx. specialize (H (S k) x Hx). lia.
  - intros [He H] [|k] x; [intros [= <-]; lia|]. intros Hx%H. lia.
Qed.

Lemma in_line_app b xs ys :
  in_line b (xs ++ ys) <-> in_line b xs /\ in_line (b + Z.of_nat (length xs)) ys.
Proof.
  revert b. induction xs as [|x xs IH]; intros b; cbn [app length].
  - rewrite Z.add_0_r. pose proof (in_line_nil b). tauto.
  - rewrite !in_line_cons, IH.
    replace (b + 1 + Z.of_nat (length xs)) with (b + Z.of_nat (S (length xs))) by lia.
    tauto.
Qed.

Lemma in_line_take b es k : in_line b es -> in_line b (take k es).
Proof. intros H j e [? _]%lookup_take_Some. by apply H. Qed.

Lemma positioned_cons b e es i :
  positioned b (e :: es) i = if i =? b then Some e else positioned (b + 1) es i.
Proof.
  unfold positioned. destruct (Z.eqb_spec i b) as [->|Hne].
  - by rewrite Z.ltb_irrefl, Z.sub_diag.
  - destruct (Z.ltb_spec i b), (Z.ltb_spec i (b + 1)); try lia; try done.
    by replace (Z.to_nat (i - b)) with (S (Z.to_nat (i - (b + 1)))) by lia.
Qed.

Lemma positioned_below b es i : i < b -> positioned b es i = None.
Proof. intros H. unfold positioned. by destruct (Z.ltb_spec i b); [|lia]. Qed.

Lemma positioned_index b es i e :
  in_line b es -> positioned b es i = Some e -> se_index e = i.
Proof.
  unfold positioned. intros H. destruct (Z.ltb_spec i b); [done|]. intros Hx%H. lia.
Qed.

(** Scans from either end find the entry by its position. *)
Lemma find_positioned b es i :
  in_line b es -> List.find (fun e => se_index e =? i) es = positioned b es i.
Proof.
  revert b. induction es as [|e es IH]; intros b H.
  - unfold positioned. by destruct (i <? b).
  - apply in_line_cons in H as [<- H]. rewrite positioned_cons. cbn.
    rewrite (Z.eqb_sym i). case_match; [done|]. by apply IH.
Qed.

Lemma find_app {A} (f : A -> bool) xs ys :
  List.find f (xs ++ ys) =
  match List.find f xs with Some x => Some x | None => List.find f ys end.
Proof. induction xs as [|x xs IH]; [done|]. cbn. by destruct (f x). Qed.

Lemma find_rev_positioned b es i :
  in_line b es -> List.find (fun e => se_index e =? i) (List.rev es) = positioned b es i.
Proof.
  revert b. induction es as [|e es IH]; intros b H.
  - unfold positioned. by destruct (i <? b).
  - apply in_line_cons in H as [<- H]. rewrite positioned_cons. cbn.
    rewrite find_app, (IH _ H). cbn. rewrite (Z.eqb_sym i).
    destruct (Z.eqb_spec (se_index e) i) as [->|Hne].
    + by rewrite positioned_below by lia.
    + by destruct (positioned _ _ _).
Qed.

(** A range and a prefix of indexes are slices of positions. *)
Lemma prefix_slice b es from :
  in_line b es ->
  List.filter (fun e => se_index e <? from) es = take (Z.to_nat (sat_sub from b)) es.
Proof.
  revert b. unfold sat_sub. induction es as [|e es IH]; intros b H; [by rewrite take_nil|].
  apply in_line_cons in H as [<- H]. cbn [List.filter]. rewrite (IH _ H).
  destruct (Z.ltb_spec (se_index e) from).
  - by replace (Z.to_nat (Z.max (from - se_index e) 0))
      with (S (Z.to_nat (Z.max (from - (se_index e + 1)) 0))) by lia.
  - by replace (Z.to_nat (Z.max (from - (se_index e + 1)) 0)) with 0%nat by lia;
      replace (Z.to_nat (Z.max (from - se_index e) 0)) with 0%nat by lia.
Qed.

Lemma range_slice b es from to :
  in_line b es ->
  List.filter (in_range from to) es =
  take (Z.to_nat (sat_sub to b - sat_sub from b)) (drop (Z.to_nat (sat_sub from b)) es).
Proof.
  revert b. unfold sat_sub, in_range.
  induction es as [|e es IH]; intros b H; [by rewrite drop_nil, take_nil|].
  apply in_line_cons in H as [<- H]. cbn [List.filter]. rewrite (IH _ H).
  destruct (Z.leb_spec from (se_index e)), (Z.ltb_spec (se_index e) to); cbn [andb].
  - replace (Z.to_nat (Z.max (from - (se_index e + 1)) 0)) with 0%nat by lia.
    replace (Z.to_nat (Z.max (from - se_index e) 0)) with 0%nat by lia. rewrite !drop_0.
    by replace (Z.to_nat (Z.max (to - se_index e) 0 - Z.max (from - se_index e) 0))
      with (S (Z.to_nat (Z.max (to - (se_index e + 1)) 0 - Z.max (from - (se_index e + 1)) 0)))
      by lia.
  - by replace (Z.to_nat (Z.max (to - (se_index e + 1)) 0 - Z.max (from - (se_index e + 1)) 0))
      with 0%nat by lia;
    replace (Z.to_nat (Z.max (to - se_index e) 0 - Z.max (from - se_index e) 0))
      with 0%nat by lia.
  - replace (Z.to_nat (Z.max (from - se_index e) 0))
      with (S (Z.to_nat (Z.max (from - (se_index e + 1)) 0))) by lia. cbn [drop].
    f_equal. lia.
  - by replace (Z.to_nat (Z.max (to - (se_index e + 1)) 0 - Z.max (from - (se_index e + 1)) 0))
      with 0%nat by lia;
    replace (Z.to_nat (Z.max (to - se_index e) 0 - Z.max (from - se_index e) 0))
      with 0%nat by lia.
Qed.

(** ** What the storages have in common *)

Definition stored_bytes (es : list StoredEntry) : Z :=
  foldr (fun e n => se_len e + n) 0 es.

Lemma stored_bytes_nonneg es : 0 <= stored_bytes es.
Proof.
  induction es as [|e es IH]; [done|].
  change (0 <= Z.of_nat (length (se_payload e)) + stored_bytes es). lia.
Qed.

Lemma copy_strict_fits buf es :
  copy_strict buf es =
  if stored_bytes es <=? buf then Ok (map of_stored es)
  else if es is [] then Ok [] else Err (StorageErr "payload_buf too small").
Proof.
  revert buf. induction es as [|e es IH]; intros buf; cbn [copy_strict stored_bytes foldr map].
  - by case_match.
  - pose proof (stored_bytes_nonneg es). fold (stored_bytes es). rewrite IH.
    destruct (Z.ltb_spec buf (se_len e)), (Z.leb_spec (se_len e + stored_bytes es) buf),
      (Z.leb_spec (stored_bytes es) (buf - se_len e)); try lia; try done.
    destruct es; [change (stored_bytes []) with 0 in *; lia|done].
Qed.

Lemma copy_fitting_prefix buf es : exists k, copy_fitting buf es = map of_stored (take k es).
Proof.
  revert buf. induction es as [|e es IH]; intros buf; [by exists 0%nat|]. cbn [copy_fitting].
  case_match; [by exists 0%nat|]. destruct (IH (buf - se_len e)) as [k ->]. by exists (S k).
Qed.

Lemma copy_fitting_fits buf es :
  stored_bytes es <= buf -> copy_fitting buf es = map of_stored es.
Proof.
  revert buf. induction es as [|e es IH]; intros buf; [done|]. cbn.
  pose proof (stored_bytes_nonneg es). fold (stored_bytes es). intros Hb.
  destruct (Z.ltb_spec buf (se_len e)); [lia|]. by rewrite IH by lia.
Qed.

(** The state the operations describe: the vector and the hard state. *)
Class VecStorage (S : Type) `{RaftStorage S} := {
  held : S -> list StoredEntry;
  held_hard : S -> HardState;
  kept : S -> Prop;
  kept_in_line s : kept s -> exists b, in_line b (held s);
  vs_load_hard_state s : load_hard_state s = (Ok (held_hard s), s);
  vs_save_hard_state h s : kept s ->
    exists s', save_hard_state h s = (Ok tt, s') /\
      kept s' /\ held s' = held s /\ held_hard s' = h;
  vs_append_entries b es s : kept s -> in_line b (held s ++ map to_stored es) ->
    exists s', append_entries es s = (Ok tt, s') /\
      kept s' /\ held s' = held s ++ map to_stored es /\ held_hard s' = held_hard s;
  vs_truncate_suffix from s : kept s ->
    exists s', truncate_suffix from s = (Ok tt, s') /\
      kept s' /\ held s' = List.filter (fun e => se_index e <? from) (held s) /\
      held_hard s' = held_hard s;
  (** a buffer that holds the range gets all of it; otherwise the answer is an
      error or a prefix of the range *)
  vs_read_entries from to buf s : kept s ->
    exists r, read_entries from to buf s = (r, s) /\
      (stored_bytes (List.filter (in_range from to) (held s)) <= buf ->
       r = Ok (map of_stored (List.filter (in_range from to) (held s)))) /\
      (forall out, r = Ok out ->
         exists k, out = map of_stored (take k (List.filter (in_range from to) (held s))));
  vs_entry_at b i buf s : kept s -> in_line b (held s) ->
    exists err, entry_at i buf s = (copy_entry err buf (positioned b (held s) i), s);
  vs_term_at i s : storage_term_at i s = default_term_at entry_at i s;
  vs_last_log_position s : last_log_position s = (Ok (stored_last (held s)), s);
  vs_read_entry_headers from to s : read_entry_headers from to s = (Ok None, s);
  vs_save_snapshot m b s : save_snapshot m b s = (Ok tt, s);
  vs_load_snapshot s : load_snapshot s = (Ok None, s);
  vs_load_snapshot_meta s : load_snapshot_meta s = (Ok None, s);
}.


Lemma in_line_prefix b es from :
  in_line b es -> in_line b (List.filter (fun e => se_index e <? from) es).
Proof. intros H. rewrite (prefix_slice b) by done. by apply in_line_take. Qed.

#[export, refine] Instance BasicStorage_vec : VecStorage BasicStorage := {
  held := bs_entries;
  held_hard := bs_hard_state;
  kept s := exists b, in_line b (bs_entries s);
}.
Proof.
  all: try done.
  - intros h s Hk. eexists. split; [reflexivity|]. done.
  - intros b es s Hk Hc. eexists. split; [reflexivity|]. split; [by exists b|done].
  - intros from s [b Hb]. eexists. split; [reflexivity|].
    split; [|done]. exists b. by apply in_line_prefix.
  - intros from to buf s Hk. eexists. split; [reflexivity|]. split.
    + intros Hfit. f_equal. by apply copy_fitting_fits.
    + intros out [= <-]. apply copy_fitting_prefix.
  - intros b i buf s Hk Hc. eexists. cbn. unfold basic_entry_at.
    by rewrite (find_positioned b) by done.
Defined.

Lemma strict_answer buf es :
  (stored_bytes es <= buf -> copy_strict buf es = Ok (map of_stored es)) /\
  (forall out, copy_strict buf es = Ok out -> exists k, out = map of_stored (take k es)).
Proof.
  rewrite copy_strict_fits. destruct (Z.leb_spec (stored_bytes es) buf); split.
  - done.
  - intros out [= <-]. exists (length es). by rewrite take_ge.
  - lia.
  - intros out. destruct es; [intros [= <-]; by exists 0%nat|done].
Qed.

#[export, refine] Instance HostedStorage_vec : VecStorage HostedStorage := {
  held := hs_entries;
  held_hard s := default HardState_default (hs_hard_state s);
  kept s := exists b, in_line b (hs_entries s);
}.
Proof.
  all: try done.
  - intros h s Hk. eexists. split; [reflexivity|]. done.
  - intros b es s Hk Hc. eexists. split; [reflexivity|]. split; [by exists b|done].
  - intros from s [b Hb]. eexists. split; [reflexivity|].
    split; [|done]. exists b. by apply in_line_prefix.
  - intros from to buf s Hk. eexists. split; [reflexivity|]. apply strict_answer.
  - intros b i buf s Hk Hc. eexists. cbn. unfold hosted_entry_at.
    by rewrite (find_rev_positioned b) by done.
Defined.

(** Two first indexes of one vector agree, unless it is empty. *)
Lemma in_line_start b b' es : in_line b es -> in_line b' es -> es = [] \/ b = b'.
Proof.
  destruct es as [|e es]; [by left|]. intros H H'. right.
  specialize (H 0%nat e eq_refl). specialize (H' 0%nat e eq_refl). lia.
Qed.

Lemma inmem_range_slice from to s :
  in_line (im_base_index s) (im_entries s) ->
  exists es, List.filter (in_range from to) (im_entries s) = es /\
    forall buf, inmem_read_entries from to buf s = (copy_strict buf es, s).
Proof.
  intros H. eexists. split; [reflexivity|]. intros buf.
  rewrite (range_slice (im_base_index s)) by done. unfold inmem_read_entries.
  destruct (im_entries s) as [|e0 es0] eqn:E; [by rewrite drop_nil, take_nil|]. rewrite <- E.
  set (a := sat_sub from (im_base_index s)). set (z := sat_sub to (im_base_index s)).
  assert (0 <= a) by (unfold a, sat_sub; lia).
  destruct (Z.ltb_spec a (Z.min z (Z.of_nat (length (im_entries s))))) as [Hlt|Hge].
  - f_equal. f_equal. destruct (Z.le_ge_cases z (Z.of_nat (length (im_entries s)))).
    + by rewrite Z.min_l.
    + rewrite Z.min_r by done. rewrite !take_ge; try done; rewrite length_drop; lia.
  - destruct (Z.le_gt_cases z a).
    + by replace (Z.to_nat (z - a)) with 0%nat by lia.
    + rewrite drop_ge by lia. by rewrite take_nil.
Qed.

#[export, refine] Instance InmemStorage_vec : VecStorage InmemStorage := {
  held := im_entries;
  held_hard := im_hard_state;
  kept s := im_entries s = [] \/ in_line (im_base_index s) (im_entries s);
}.
Proof.
  all: try done.
  - intros s [->|H]; [exists 0; apply in_line_nil|eauto].
  - intros h s Hk. eexists. split; [reflexivity|]. done.
  - intros b [|e es] s Hk Hc; cbn; unfold inmem_append_entries.
    + exists s. split; [done|]. split; [done|]. by rewrite app_nil_r.
    + eexists. split; [reflexivity|]. cbn. split; [right|done].
      destruct (im_entries s) as [|x xs] eqn:E; cbn in *.
      * apply in_line_cons in Hc as [<- Hc]. by apply in_line_cons.
      * destruct Hk as [|Hk]; [done|].
        apply in_line_cons in Hk as [<- Hk]. apply in_line_cons in Hc as [<- Hc].
        by apply in_line_cons.
  - intros from s Hk. cbn. unfold inmem_truncate_suffix.
    destruct (im_entries s) as [|x xs] eqn:E.
    { exists s. rewrite E. auto. }
    destruct Hk as [Hk|Hk]; [done|]. rewrite <- E in Hk |- *.
    eexists. split; [reflexivity|]. cbn [im_entries im_base_index im_hard_state]. rewrite <- (prefix_slice (im_base_index s)) by done.
    split; [|done]. destruct (List.filter _ _) eqn:F; [by left|right].
    rewrite <- F. by apply in_line_prefix.
  - intros from to buf s [E|H].
    + exists (Ok []). cbn. unfold inmem_read_entries. rewrite E. split; [done|]. split; [done|].
      intros out [= <-]. by exists 0%nat.
    + destruct (inmem_range_slice from to s H) as (es & -> & ->).
      eexists. split; [reflexivity|]. apply strict_answer.
  - intros b i buf s Hk Hc. exists (StorageErr "payload_buf too small"). cbn.
    unfold inmem_entry_at, positioned. destruct (im_entries s) as [|x xs] eqn:E.
    + by destruct (i <? b).
    + destruct Hk as [|Hk]; [done|].
      destruct (in_line_start _ _ _ Hk Hc) as [F| ->]; [done|].
      by destruct (i <? b).
Defined.

(** ** Refinement of the reference storage *)

(** The calls an engine makes of a storage that has no snapshots and no seeded
    path, and their answers. *)
Inductive Call :=
| CallLoadHardState
| CallSaveHardState (h : HardState)
| CallAppendEntries (es : list LogEntry)
| CallReadEntries (from to : LogIndex) (buf : Z)
| CallReadEntryHeaders (from to : LogIndex)
| CallEntryAt (i : LogIndex) (buf : Z)
| CallTermAt (i : LogIndex)
| CallLastLogPosition
| CallTruncateSuffix (from : LogIndex)
| CallLoadSnapshot
| CallLoadSnapshotMeta.

Inductive Answer :=
| AnswerHardState (r : res HardState)
| AnswerUnit (r : res unit)
| AnswerEntries (r : res (list LogEntry))
| AnswerHeaders (r : res (option (list EntryHeader)))
| AnswerEntry (r : res (option LogEntry))
| AnswerTerm (r : res (option Term))
| AnswerPosition (r : res (LogIndex * Term))
| AnswerSnapshot (r : res (option (SnapshotMeta * bytes)))
| AnswerMeta (r : res (option SnapshotMeta)).

Section Serve.
  Context {S : Type} `{RaftStorage S}.

Definition answered {A} (k : res A -> Answer) (rs : res A * S) : Answer * S := (k rs.1, rs.2).

Definition serve (c : Call) (s : S) : Answer * S :=
  match c with
  | CallLoadHardState => answered AnswerHardState (load_hard_state s)
  | CallSaveHardState h => answered AnswerUnit (save_hard_state h s)
  | CallAppendEntries es => answered AnswerUnit (append_entries es s)
  | CallReadEntries from to buf => answered AnswerEntries (read_entries from to buf s)
  | CallReadEntryHeaders from to => answered AnswerHeaders (read_entry_headers from to s)
  | CallEntryAt i buf => answered AnswerEntry (entry_at i buf s)
  | CallTermAt i => answered AnswerTerm (storage_term_at i s)
  | CallLastLogPosition => answered AnswerPosition (last_log_position s)
  | CallTruncateSuffix from => answered AnswerUnit (truncate_suffix from s)
  | CallLoadSnapshot => answered AnswerSnapshot (load_snapshot s)
  | CallLoadSnapshotMeta => answered AnswerMeta (load_snapshot_meta s)
  end.

Fixpoint serve_all (cs : list Call) (s : S) : list Answer * S :=
  match cs with
  | [] => ([], s)
  | c :: cs' =>
      let '(a, s1) := serve c s in
      let '(rest, s2) := serve_all cs' s1 in (a :: rest, s2)
  end.

End Serve.

(** Entries in the order of their indexes, each one after the one before. *)
Fixpoint ascends (i : LogIndex) (es : list LogEntry) : bool :=
  match es with
  | [] => true
  | e :: es' => (e_index e =? i) && ascends (i + 1) es'
  end.

Definition payload_len (o : option (Term * bytes)) : Z :=
  match o with Some tp => Z.of_nat (length tp.2) | None => 0 end.

(** What the engine keeps to when it calls a vector storage: appends continue
    the log, and the buffer of a read holds what is read. *)
Definition admissible (c : Call) (v : View) : bool :=
  match c with
  | CallAppendEntries es =>
      match es with
      | [] => true
      | e :: _ =>
          ascends (e_index e) es &&
          (bool_decide (v_log v = ∅) || (e_index e =? (log_last (v_log v)).1 + 1))
      end
  | CallReadEntries from to buf =>
      stored_bytes (map to_stored (mem_entries from to v)) <=? buf
  | CallEntryAt i buf => payload_len (v_log v !! i) <=? buf
  | CallTermAt i => payload_len (v_log v !! i) <=? TERM_PROBE_BUF
  | _ => true
  end.

Fixpoint admissible_run (cs : list Call) (v : View) : bool :=
  match cs with
  | [] => true
  | c :: cs' => admissible c v && admissible_run cs' (serve c v).2
  end.

(** The log a vector of entries stands for. *)
Definition log_of (es : list StoredEntry) : gmap Z (Term * bytes) :=
  log_append (map of_stored es) ∅.

Definition shows {S : Type} `{VecStorage S} (s : S) (v : View) : Prop :=
  kept s /\ v_hard v = held_hard s /\ v_log v = log_of (held s) /\ v_snap v = None.

Lemma to_of_stored es : map to_stored (map of_stored es) = es.
Proof. rewrite map_map. erewrite map_ext; [apply map_id|]. by intros []. Qed.

Lemma of_to_stored es : map of_stored (map to_stored es) = es.
Proof. rewrite map_map. erewrite map_ext; [apply map_id|]. by intros []. Qed.

Lemma log_of_app xs es : log_of (xs ++ map to_stored es) = log_append es (log_of xs).
Proof. unfold log_of, log_append. by rewrite map_app, of_to_stored, foldl_app. Qed.

Lemma positioned_snoc b es e i :
  positioned b (es ++ [e]) i =
  if i =? b + Z.of_nat (length es) then Some e else positioned b es i.
Proof.
  unfold positioned. destruct (Z.eqb_spec i (b + Z.of_nat (length es))) as [->|Hne].
  - destruct (Z.ltb_spec (b + Z.of_nat (length es)) b); [lia|].
    rewrite lookup_app_r by lia. by replace (_ - length es)%nat with 0%nat by lia.
  - destruct (Z.ltb_spec i b); [done|]. destruct (Z.lt_ge_cases i (b + Z.of_nat (length es))).
    + by rewrite lookup_app_l by lia.
    + rewrite !lookup_ge_None_2; try done; rewrite ?length_app; cbn; lia.
Qed.

Lemma log_of_lookup b es i :
  in_line b es ->
  log_of es !! i = (fun e => (se_term e, se_payload e)) <$> positioned b es i.
Proof.
  induction es as [|e es IH] using rev_ind; intros H.
  - unfold positioned. by destruct (i <? b).
  - apply in_line_app in H as [H [He _]%in_line_cons].
    rewrite positioned_snoc. unfold log_of, log_append. rewrite map_app, foldl_app. cbn.
    unfold log_insert. cbn. rewrite He. fold (log_of es).
    destruct (Z.eqb_spec i (b + Z.of_nat (length es))) as [->|Hne].
    + by rewrite lookup_insert_eq.
    + rewrite lookup_insert_ne by done. by apply IH.
Qed.

Lemma is_last_unique log p q : is_last log p -> is_last log q -> p = q.
Proof.
  unfold is_last, log_term. intros [Hp Mp] [Hq Mq].
  assert (p.1 = q.1).
  { apply Z.le_antisymm; [apply Mq|apply Mp];
      [by destruct (log !! p.1)|by destruct (log !! q.1)]. }
  destruct p, q; cbn in *; subst. congruence.
Qed.

Lemma log_of_last b es : in_line b es -> log_last (log_of es) = stored_last es.
Proof.
  destruct es as [|e es _] using rev_ind; intros H; [done|].
  unfold stored_last. rewrite last_snoc.
  assert (Hl : is_last (log_of (es ++ [e])) (se_index e, se_term e)).
  { pose proof H as [_ [He _]%in_line_cons]%in_line_app. split; cbn.
    - unfold log_term. rewrite (log_of_lookup b), positioned_snoc, He by done.
      by rewrite Z.eqb_refl.
    - intros i. rewrite (log_of_lookup b), positioned_snoc, He by done.
      destruct (Z.eqb_spec i (b + Z.of_nat (length es))); [lia|].
      unfold positioned. destruct (Z.ltb_spec i b); [lia|].
      intros [? (x & Hx & _)%fmap_Some]. apply lookup_lt_Some in Hx. lia. }
  apply (is_last_unique (log_of (es ++ [e]))); [|done]. apply log_last_spec. intros E.
  destruct Hl as [Hl _]. unfold log_term in Hl. by rewrite E, lookup_empty in Hl.
Qed.

Lemma take_snoc_lookup {A} (l : list A) k :
  take (S k) l = take k l ++ (match l !! k with Some x => [x] | None => [] end).
Proof.
  destruct (l !! k) as [x|] eqn:E; [by apply take_S_r|].
  apply lookup_ge_None in E. by rewrite app_nil_r, !take_ge by lia.
Qed.

Lemma omap_positioned b es from n :
  in_line b es ->
  omap (positioned b es) (seqZ from (Z.of_nat n)) =
  List.filter (in_range from (from + Z.of_nat n)) es.
Proof.
  intros H. rewrite (range_slice b) by done. unfold sat_sub. induction n as [|n IH].
  - rewrite Z.add_0_r. by replace (Z.to_nat (_ - _)) with 0%nat by lia.
  - rewrite Nat2Z.inj_succ, <- Z.add_1_r, seqZ_app by lia. rewrite omap_app, IH.
    rewrite (seqZ_cons _ 1), seqZ_nil by lia. cbn [omap list_omap].
    destruct (Z.lt_ge_cases (from + Z.of_nat n) b).
    + rewrite positioned_below by done. rewrite app_nil_r. f_equal. lia.
    + set (k := Z.to_nat (Z.max (from + Z.of_nat n - b) 0 - Z.max (from - b) 0)).
      replace (Z.to_nat (Z.max (from + (Z.of_nat n + 1) - b) 0 - Z.max (from - b) 0))
        with (S k) by lia.
      rewrite take_snoc_lookup, lookup_drop. f_equal. unfold positioned.
      destruct (Z.ltb_spec (from + Z.of_nat n) b); [lia|].
      by replace (Z.to_nat (Z.max (from - b) 0) + k)%nat
        with (Z.to_nat (from + Z.of_nat n - b)) by lia.
Qed.

Lemma in_line_tip b es :
  in_line b es -> es <> [] -> (stored_last es).1 + 1 = b + Z.of_nat (length es).
Proof.
  destruct es as [|x es _] using rev_ind; [done|]. intros [_ [Hx _]%in_line_cons]%in_line_app _.
  unfold stored_last. rewrite last_snoc, length_app. cbn. lia.
Qed.

Lemma filter_range_cap b es from to :
  in_line b es ->
  List.filter (in_range from (Z.min to ((stored_last es).1 + 1))) es =
  List.filter (in_range from to) es.
Proof.
  intros H. apply filter_ext_in. intros e He. unfold in_range. f_equal.
  assert (se_index e <= (stored_last es).1).
  { apply list_elem_of_In, list_elem_of_lookup in He as [k Hk]. pose proof (H _ _ Hk) as Hi.
    apply lookup_lt_Some in Hk. assert (Hne : es <> []) by (destruct es; [cbn in Hk; lia|done]).
    pose proof (in_line_tip b es H Hne). lia. }
  destruct (Z.ltb_spec (se_index e) to), (Z.ltb_spec (se_index e) (Z.min to ((stored_last es).1 + 1)));
    try done; lia.
Qed.

Lemma filter_range_empty from to es : to <= from -> List.filter (in_range from to) es = [].
Proof.
  intros H. induction es as [|e es IH]; [done|]. cbn. unfold in_range at 1.
  destruct (Z.leb_spec from (se_index e)), (Z.ltb_spec (se_index e) to); cbn; try done. lia.
Qed.

Lemma mem_entries_filter b es v from to :
  in_line b es -> v_log v = log_of es ->
  mem_entries from to v = map of_stored (List.filter (in_range from to) es).
Proof.
  intros H Hv. unfold mem_entries. rewrite Hv, (log_of_last b) by done.
  rewrite <- (filter_range_cap b) by done.
  set (cap := Z.min to ((stored_last es).1 + 1)).
  assert (Hom : forall l, omap (fun i => (fun tp => {| e_term := tp.1; e_index := i;
      e_payload := tp.2 |}) <$> log_of es !! i) l = map of_stored (omap (positioned b es) l)).
  { intros l. induction l as [|i l IH]; [done|]. cbn. rewrite (log_of_lookup b) by done.
    destruct (positioned b es i) as [e|] eqn:Ep; cbn; [|done]. rewrite <- IH. f_equal.
    unfold of_stored. f_equal. symmetry. by apply (positioned_index b es). }
  rewrite Hom. f_equal. destruct (Z.le_gt_cases cap from).
  - rewrite seqZ_nil by lia. by rewrite filter_range_empty.
  - replace (cap - from) with (Z.of_nat (Z.to_nat (cap - from))) by lia.
    rewrite omap_positioned by done. f_equal. f_equal. lia.
Qed.

Lemma ascends_in_line i es : ascends i es = true -> in_line i (map to_stored es).
Proof.
  revert i. induction es as [|e es IH]; intros i; [done|]. cbn.
  rewrite andb_true_iff, Z.eqb_eq. intros [<- H]. apply in_line_cons. auto.
Qed.

Lemma log_of_nonempty b es : in_line b es -> es <> [] -> log_of es <> ∅.
Proof.
  intros H Hne E. destruct es as [|e es]; [done|].
  pose proof (log_of_lookup b (e :: es) b H) as Hl.
  rewrite E, lookup_empty, positioned_cons, Z.eqb_refl in Hl. done.
Qed.

Lemma log_truncate_filter b es from :
  in_line b es ->
  log_truncate from (log_of es) = log_of (List.filter (fun e => se_index e <? from) es).
Proof.
  intros H. apply map_eq. intros i. unfold log_truncate.
  rewrite (log_of_lookup b) by by apply in_line_prefix.
  rewrite (prefix_slice b) by done. unfold positioned, sat_sub.
  apply option_eq. intros tp. rewrite map_lookup_filter_Some, (log_of_lookup b) by done.
  unfold positioned. cbn. destruct (Z.ltb_spec i b); cbn; [naive_solver|].
  rewrite !fmap_Some. setoid_rewrite lookup_take_Some. split.
  - intros [(e & ? & ->) ?]. exists e. split; [|done]. split; [done|]. lia.
  - intros (e & [? ?] & ->). split; [eauto|]. lia.
Qed.

(** A continuing append keeps the entries in line. *)
Lemma continues b es v new :
  in_line b es -> v_log v = log_of es -> admissible (CallAppendEntries new) v = true ->
  exists b', in_line b' (es ++ map to_stored new).
Proof.
  intros Hb Hlog. cbn. destruct new as [|e new]; [intros _; exists b; by rewrite app_nil_r|].
  rewrite andb_true_iff. intros [Ha%ascends_in_line Ho].
  destruct es as [|x xs] eqn:E; [by exists (e_index e)|]. rewrite <- E in *.
  exists b. apply in_line_app. split; [done|]. assert (Hne : es <> []) by (by rewrite E).
  apply orb_true_iff in Ho as [Ho%bool_decide_eq_true_1|Ho%Z.eqb_eq].
  - rewrite Hlog in Ho. by apply (log_of_nonempty b) in Ho.
  - rewrite Hlog, (log_of_last b) in Ho by done.
    by rewrite <- (in_line_tip b) by done; rewrite <- Ho.
Qed.

Section Simulation.
  Context {S : Type} `{VecStorage S}.

Lemma append_continues s v es :
  shows s v -> admissible (CallAppendEntries es) v = true ->
  exists b, in_line b (held s ++ map to_stored es).
Proof.
  intros (Hk & _ & Hlog & _). destruct (kept_in_line s Hk) as [b Hb]. by apply (continues b).
Qed.

Lemma entry_agrees b s v i buf :
  kept s -> in_line b (held s) -> v_log v = log_of (held s) ->
  payload_len (v_log v !! i) <= buf ->
  entry_at i buf s = ((entry_at i buf v).1, s).
Proof.
  intros Hk Hb Hv Hfit. destruct (vs_entry_at b i buf s Hk Hb) as [err ->]. f_equal.
  cbn. rewrite Hv, (log_of_lookup b) in * by done.
  destruct (positioned b (held s) i) as [e|] eqn:Ep; [|done]. cbn in *. unfold se_len.
  destruct (Z.ltb_spec buf (Z.of_nat (length (se_payload e)))); [lia|].
  unfold of_stored. by rewrite (positioned_index b (held s) i e).
Qed.

(** One call: the same answer, and the states still show the same log. *)
Lemma serve_simulates c s v :
  shows s v -> admissible c v = true ->
  (serve c s).1 = (serve c v).1 /\ shows (serve c s).2 (serve c v).2.
Proof.
  intros Hsv Hadm. pose proof Hsv as (Hk & Hh & Hlog & Hsnap).
  destruct (kept_in_line s Hk) as [b Hb]. destruct c; cbn [serve answered fst snd].
  - rewrite vs_load_hard_state. by rewrite <- Hh.
  - destruct (vs_save_hard_state h s Hk) as (s' & -> & Hk' & He & Hh'). cbn.
    split; [done|]. unfold shows. by rewrite He, Hh'.
  - destruct (append_continues s v es Hsv Hadm) as [b' Hb'].
    destruct (vs_append_entries b' es s Hk Hb') as (s' & -> & Hk' & He & Hh'). cbn.
    split; [done|]. unfold shows. cbn. by rewrite He, Hh', Hlog, log_of_app.
  - destruct (vs_read_entries from to buf s Hk) as (r & -> & Hall & _). cbn in *.
    apply Z.leb_le in Hadm. rewrite (mem_entries_filter b (held s)) in * by done.
    rewrite to_of_stored in Hadm. by rewrite Hall.
  - by rewrite vs_read_entry_headers.
  - apply Z.leb_le in Hadm. by rewrite (entry_agrees b s v).
  - apply Z.leb_le in Hadm. rewrite vs_term_at. unfold default_term_at.
    rewrite (entry_agrees b s v) by done. cbn. split; [|done]. unfold log_term.
    by destruct (v_log v !! i).
  - rewrite vs_last_log_position. cbn. by rewrite Hlog, (log_of_last b).
  - destruct (vs_truncate_suffix from s Hk) as (s' & -> & Hk' & He & Hh'). cbn.
    split; [done|]. unfold shows. cbn. by rewrite He, Hh', Hlog, (log_truncate_filter b).
  - rewrite vs_load_snapshot. cbn. by rewrite Hsnap.
  - rewrite vs_load_snapshot_meta. cbn. by rewrite Hsnap.
Qed.

Lemma serve_all_simulates cs s v :
  shows s v -> admissible_run cs v = true -> (serve_all cs s).1 = (serve_all cs v).1.
Proof.
  revert s v. induction cs as [|c cs IH]; intros s v Hsv; [done|]. cbn [admissible_run serve_all].
  rewrite andb_true_iff. intros [Hc Hcs]. destruct (serve_simulates c s v Hsv Hc) as [Ha Hs].
  destruct (serve c s) as [a s1], (serve c v) as [a' v1]. cbn in *. specialize (IH _ _ Hs Hcs).
  destruct (serve_all cs s1), (serve_all cs v1). cbn in *. by subst.
Qed.

End Simulation.

(** A reference storage without entries. *)
Definition blank (h : HardState) : View := {| v_hard := h; v_log := ∅; v_snap := None |}.


Definition sample_calls : list Call :=
  let e t i := {| e_term := t; e_index := i; e_payload := [to_byte i] |} in
  [ CallSaveHardState {| current_term := 2; voted_for := Some 1 |};
    CallAppendEntries [e 1 5; e 1 6; e 2 7]; CallReadEntries 6 u64_max 16; CallTermAt 6;
    CallTruncateSuffix 6; CallLastLogPosition; CallAppendEntries [e 3 6]; CallEntryAt 6 1;
    CallEntryAt 7 0; CallReadEntries 0 u64_max 2; CallTruncateSuffix 1; CallLastLogPosition;
    CallAppendEntries [e 4 9]; CallTermAt 9; CallLoadHardState ].


(** ** Where they fall short of the contract *)

(** A saved snapshot is acknowledged and gone. *)
Lemma snapshot_not_kept {S} `{VecStorage S} m b s :
  exists s', save_snapshot m b s = (Ok tt, s') /\ load_snapshot s' = (Ok None, s').
Proof. exists s. by rewrite vs_save_snapshot, vs_load_snapshot. Qed.

(** The inherited term probe fails on an entry of more than 512 bytes. *)
Lemma term_probe_fails {S} `{VecStorage S} b i e s :
  kept s -> in_line b (held s) -> positioned b (held s) i = Some e ->
  TERM_PROBE_BUF < se_len e -> exists err, storage_term_at i s = (Err err, s).
Proof.
  intros Hk Hb He Hlen. destruct (vs_entry_at b i TERM_PROBE_BUF s Hk Hb) as [err Ha].
  exists err. rewrite vs_term_at. unfold default_term_at. rewrite Ha, He. cbn.
  by destruct (Z.ltb_spec TERM_PROBE_BUF (se_len e)); [|lia].
Qed.

(** A storage that refuses a buffer shorter than the range. *)
Class StrictBuffer (S : Type) `{VecStorage S} :=
  strict_read from to buf s :
    kept s -> 0 <= buf < stored_bytes (List.filter (in_range from to) (held s)) ->
    exists err, read_entries from to buf s = (Err err, s).

Lemma copy_strict_short buf es :
  0 <= buf < stored_bytes es -> exists err, copy_strict buf es = Err err.
Proof.
  intros H. rewrite copy_strict_fits. destruct (Z.leb_spec (stored_bytes es) buf); [lia|].
  destruct es; [cbn in H; lia|eauto].
Qed.

#[export] Instance HostedStorage_strict : StrictBuffer HostedStorage.
Proof.
  intros from to buf s _ H. apply copy_strict_short in H as [err H]. exists err.
  cbn. unfold hosted_read_entries. cbn in H. by rewrite H.
Qed.

#[export] Instance InmemStorage_strict : StrictBuffer InmemStorage.
Proof.
  intros from to buf s [E|Hc] H.
  - cbn in H. rewrite E in H. cbn in H. lia.
  - destruct (inmem_range_slice from to s Hc) as (es & E & Hr). cbn in *. rewrite E in H.
    apply copy_strict_short in H as [err H]. exists err. by rewrite Hr, H.
Qed.
