(* ===== verification/ExampleFollower.v ===== *)
(** * ExampleFollower: the follower model of the throughput examples

    [PeerState] of [examples/inmem_throughput.rs] (and its copy in
    [examples/tcp_throughput.rs]): a follower that keeps only the index and term
    of its entries, checks the previous entry, truncates at a conflict, appends
    and answers.  On plain [AppendEntries] it does to its terms exactly what a
    node of the crate does to its log ([follower_mirrors_node]); its seeded path
    does not. *)

From stdpp Require Import base list sets gmap strings.
From Stdlib Require Import ZArith Lia.
From S2P Require Import Prelude Types Wire Codec CodecFacts Arena Progress Quorum Traits.
From S2P Require Import Membership NodeState Node Samples Replication Frames Durability ReplicationFacts.

Local Open Scope string_scope.
Local Open Scope list_scope.
Local Open Scope raft_scope.
Local Open Scope Z_scope.

Record PeerState := {
  ps_base_index : Z;
  ps_log : list (LogIndex * Term);
}.

Definition PeerState_new : PeerState := {| ps_base_index := 0; ps_log := [] |}.

Definition last_position (p : PeerState) : LogIndex * Term := default (0, 0) (last (ps_log p)).

Definition peer_term_at (idx : LogIndex) (p : PeerState) : option Term :=
  if is_nil (ps_log p) || (idx <? ps_base_index p) then None
  else
    match ps_log p !! Z.to_nat (idx - ps_base_index p) with
    | Some (i, t) => if i =? idx then Some t else None
    | None => None
    end.

Definition push_position (it : LogIndex * Term) (p : PeerState) : PeerState :=
  {| ps_base_index := ps_base_index p; ps_log := ps_log p ++ [it] |}.

(** The body of the loop over the entries. *)
Definition process_entry (p : PeerState) (it : LogIndex * Term) : PeerState :=
  let '(idx, term) := it in
  if is_nil (ps_log p) then {| ps_base_index := idx; ps_log := [(idx, term)] |}
  else if idx <? ps_base_index p then p
  else
    let pos := Z.to_nat (idx - ps_base_index p) in
    match ps_log p !! pos with
    | Some (_, et) =>
        if et =? term then p
        else
          let log := take pos (ps_log p) in
          push_position it
            {| ps_base_index := if is_nil log then idx else ps_base_index p; ps_log := log |}
    | None => push_position it p
    end.

(** The previous entry is there, or there is none to check. *)
Definition prev_accepted (ae : AppendEntries) (p : PeerState) : bool :=
  if 0 <? ae_prev_log_index ae then
    match peer_term_at (ae_prev_log_index ae) p with
    | Some t => t =? ae_prev_log_term ae
    | None => false
    end
  else true.

Definition process_append (ae : AppendEntries) (body : bytes) (p : PeerState)
  : (bool * LogIndex) * PeerState :=
  if prev_accepted ae p then
    let p' := foldl process_entry p
                (map entry_position (entry_iter body (Z.to_nat (ae_entry_count ae)))) in
    ((true, (last_position p').1), p')
  else ((false, (last_position p).1), p).

(** The encoded answer; [None] when [expect] panics. *)
Definition encode_resp_frame (my_id : PeerId) (term : Z) (success : bool) (match_index : Z)
  : option bytes :=
  let resp := {| aer_term := term; aer_match_index := match_index;
                 aer_success := if success then 1 else 0;
                 aer_pad := replicate 7 (to_byte 0) |} in
  match encode_message_vectored my_id (MAppendEntriesResp resp)
          (replicate 128 (to_byte 0)) with
  | Some (Ok (buf, vectors)) => Some (gather buf vectors)
  | _ => None
  end.

(** A frame handled: the answer, if there is one, and the state after it; [None]
    when the encoding panics. *)
Definition follower_handle_frame (my_id : PeerId) (frame : bytes) (p : PeerState)
  : option (option bytes * PeerState) :=
  match decode_message frame with
  | Ok inbound =>
      match im_message inbound with
      | MAppendEntries ae body =>
          let '((success, match_index), p') := process_append ae body p in
          match encode_resp_frame my_id (ae_term ae) success match_index with
          | Some f => Some (Some f, p')
          | None => None
          end
      | MAppendEntriesSeeded ae headers payloads =>
          let success := prev_accepted ae p in
          let p' :=
            if success then
              foldl (fun p h => push_position (eh_index h, eh_term h) p) p
                (map fst (raw_iter headers (Contiguous payloads)))
            else p in
          match encode_resp_frame my_id (ae_term ae) success (last_position p').1 with
          | Some f => Some (Some f, p')
          | None => None
          end
      | _ => Some (None, p)
      end
  | Err _ => Some (None, p)
  end.

(** ** The answer *)

(** Encoding an answer never panics, and the leader decodes it. *)
Lemma encode_resp_frame_decodes my_id term success match_index :
  is_u64 my_id -> is_u64 term -> is_u64 match_index ->
  exists f, encode_resp_frame my_id term success match_index = Some f /\
    decode_message f =
    Ok {| im_from := my_id; im_group_id := 0;
          im_message := MAppendEntriesResp
            {| aer_term := term; aer_match_index := match_index;
               aer_success := if success then 1 else 0;
               aer_pad := replicate 7 (to_byte 0) |} |}.
Proof.
  intros Hid Ht Hm. set (resp := Build_AppendEntriesResp _ _ _ _).
  assert (Hwf : wire_wf resp).
  { split; [|done]. unfold resp. destruct success;
      repeat (apply Forall2_cons_2; [first [unfold in_width; machine; cbn; lia | by vm_compute]|]);
    apply Forall2_nil_2. }
  destruct (encode_vectored_at my_id 0 (MAppendEntriesResp resp) (replicate 128 (to_byte 0)))
    as (buf & out & He & Hg).
  { cbn [body_bytes]. rewrite length_as_bytes. by vm_compute. }
  { by vm_compute; lia. }
  exists (gather buf out). unfold encode_resp_frame, encode_message_vectored. fold resp.
  rewrite He. split; [done|]. rewrite Hg. cbn [counted].
  rewrite decode_frame by
    first [done | by vm_compute | cbn [body_bytes]; rewrite length_as_bytes; by vm_compute].
  by rewrite decode_body_ok.
Qed.

(** ** The log *)

(** Positions in order, starting at index [start]. *)
Definition positions_from (start : Z) (its : list (LogIndex * Term)) : Prop :=
  forall k it, its !! k = Some it -> it.1 = start + Z.of_nat k.

Lemma positions_from_cons start it its :
  positions_from start (it :: its) <-> it.1 = start /\ positions_from (start + 1) its.
Proof.
  split.
  - intros H. split; [specialize (H 0%nat it eq_refl); lia|].
    intros k x Hx. specialize (H (S k) x Hx). lia.
  - intros [He H] [|k] x; [intros [= <-]; lia|]. intros Hx%H. lia.
Qed.

Lemma positions_from_app start xs ys :
  positions_from start (xs ++ ys) <->
  positions_from start xs /\ positions_from (start + Z.of_nat (length xs)) ys.
Proof.
  revert start. induction xs as [|x xs IH]; intros start; cbn [app length].
  - rewrite Z.add_0_r. split; [intros H; split; [done|exact H]|tauto].
  - rewrite !positions_from_cons, IH.
    replace (start + 1 + Z.of_nat (length xs)) with (start + Z.of_nat (S (length xs))) by lia.
    tauto.
Qed.

(** The log of a follower that saw only consecutive batches: empty, or all
    entries from the first one on. *)
Definition peer_ok (p : PeerState) : Prop :=
  ps_log p = [] \/ ps_base_index p = 1 /\ positions_from 1 (ps_log p).

Lemma peer_term_ok idx p :
  peer_ok p ->
  peer_term_at idx p = if idx <? 1 then None else snd <$> ps_log p !! Z.to_nat (idx - 1).
Proof.
  unfold peer_term_at. intros [->|[-> H]]; [by destruct (idx <? 1)|].
  destruct (ps_log p) as [|x xs] eqn:E; [by destruct (idx <? 1)|]. cbn [is_nil orb].
  destruct (Z.ltb_spec idx 1); [done|].
  destruct ((x :: xs) !! Z.to_nat (idx - 1)) as [[i t]|] eqn:El; [|done].
  specialize (H _ _ El). cbn in *. by destruct (Z.eqb_spec i idx); [|lia].
Qed.

(** An entry within the log or just after it replaces what is from its index on,
    unless its term is there already. *)
Lemma process_entry_ok p idx term :
  peer_ok p -> 1 <= idx <= 1 + Z.of_nat (length (ps_log p)) ->
  process_entry p (idx, term) =
  if bool_decide (peer_term_at idx p = Some term) then p
  else {| ps_base_index := 1;
          ps_log := take (Z.to_nat (idx - 1)) (ps_log p) ++ [(idx, term)] |}.
Proof.
  intros Hok Hidx. rewrite (peer_term_ok idx p Hok). unfold process_entry.
  destruct (Z.ltb_spec idx 1); [lia|]. destruct (ps_log p) as [|x xs] eqn:E.
  { cbn in Hidx. replace idx with 1 by lia. done. }
  destruct Hok as [|[Hb Hp]]; [congruence|]. rewrite Hb, <- E. rewrite <- E in Hidx.
  destruct (ps_log p) as [|] eqn:E'; [done|]. rewrite <- E'. rewrite <- E' in Hidx.
  replace (is_nil (ps_log p)) with false by (rewrite E'; done). cbn [is_nil].
  destruct (Z.ltb_spec idx 1); [lia|].
  destruct (ps_log p !! Z.to_nat (idx - 1)) as [[i t]|] eqn:El; cbn.
  - destruct (Z.eqb_spec t term) as [->|Hne].
    + by rewrite bool_decide_eq_true_2.
    + rewrite bool_decide_eq_false_2 by congruence. unfold push_position. cbn. f_equal.
      destruct (take _ _) eqn:Et; cbn; [|done]. apply (f_equal length) in Et.
      rewrite length_take in Et. cbn in Et. apply lookup_lt_Some in El. lia.
  - rewrite bool_decide_eq_false_2 by done. unfold push_position. rewrite Hb. f_equal.
    apply lookup_ge_None in El. by rewrite take_ge by lia.
Qed.

(** Entries that continue the log are pushed. *)
Lemma process_entries_push its log :
  log <> [] -> positions_from 1 log -> positions_from (1 + Z.of_nat (length log)) its ->
  foldl process_entry {| ps_base_index := 1; ps_log := log |} its =
  {| ps_base_index := 1; ps_log := log ++ its |}.
Proof.
  revert log. induction its as [|[i t] its IH]; intros log Hne Hlog Hits; cbn [foldl].
  { by rewrite app_nil_r. }
  apply positions_from_cons in Hits as [Hi Hits]. cbn in Hi. subst i.
  set (p := {| ps_base_index := 1; ps_log := log |}).
  assert (Hok : peer_ok p) by (by right).
  rewrite process_entry_ok; [|done|cbn; lia]. rewrite (peer_term_ok _ _ Hok). cbn.
  destruct (Z.ltb_spec (1 + Z.of_nat (length log)) 1); [lia|].
  rewrite lookup_ge_None_2 by lia. rewrite bool_decide_eq_false_2 by done.
  rewrite take_ge by lia.
  rewrite IH.
  - by rewrite <- app_assoc.
  - by destruct log.
  - apply positions_from_app. split; [done|]. intros [|[|k]] it Hit; cbn in Hit; [|done..].
    injection Hit as <-. cbn. lia.
  - rewrite length_app. cbn. replace (1 + Z.of_nat (length log + 1)) with
      (1 + Z.of_nat (length log) + 1) by lia. done.
Qed.

(** The whole batch: the entries the log has are skipped, and from the first
    other one on the batch replaces the rest of the log. *)
Lemma process_entries_ok its prev p :
  peer_ok p -> 0 <= prev <= Z.of_nat (length (ps_log p)) -> positions_from (prev + 1) its ->
  exists k, (k <= length its)%nat /\
    (forall j it, (j < k)%nat -> its !! j = Some it -> peer_term_at it.1 p = Some it.2) /\
    (forall it, its !! k = Some it -> peer_term_at it.1 p <> Some it.2) /\
    foldl process_entry p its =
    match its !! k with
    | None => p
    | Some _ => {| ps_base_index := 1;
                   ps_log := take (Z.to_nat prev + k) (ps_log p) ++ drop k its |}
    end.
Proof.
  revert prev. induction its as [|[i t] its IH]; intros prev Hok Hprev Hits.
  { exists 0%nat. split_and!; [done| |done|done]. intros; lia. }
  apply positions_from_cons in Hits as [Hi Hits]. cbn in Hi. subst i. cbn [foldl].
  rewrite process_entry_ok by (done || lia). case_bool_decide as Hsame.
  - assert (Hlen : prev + 1 <= Z.of_nat (length (ps_log p))).
    { rewrite (peer_term_ok _ _ Hok) in Hsame. destruct (prev + 1 <? 1); [done|].
      apply fmap_Some in Hsame as (x & Hx & _). apply lookup_lt_Some in Hx. lia. }
    destruct (IH (prev + 1) Hok ltac:(lia) Hits) as (k & Hk & Hin & Hout & ->).
    exists (S k). cbn [length lookup list_lookup drop]. split_and!; [lia| |done|].
    + intros [|j] it Hj; cbn; [by intros [= <-]|]. apply Hin. lia.
    + by replace (Z.to_nat (prev + 1) + k)%nat with (Z.to_nat prev + S k)%nat by lia.
  - exists 0%nat. split_and!; [cbn; lia|intros; lia|by intros it [= <-]|].
    cbn [lookup list_lookup drop].
    replace (Z.to_nat (prev + 1 - 1)) with (Z.to_nat prev) by lia.
    assert (Hpre : positions_from 1 (take (Z.to_nat prev) (ps_log p))).
    { destruct Hok as [->|[_ Hp]]; [by rewrite take_nil|].
      intros k it [? _]%lookup_take_Some. by apply Hp. }
    assert (Hl : length (take (Z.to_nat prev) (ps_log p)) = Z.to_nat prev)
      by (rewrite length_take; lia).
    rewrite process_entries_push.
    + rewrite <- app_assoc. by replace (Z.to_nat prev + 0)%nat with (Z.to_nat prev) by lia.
    + by destruct (take _ _).
    + apply positions_from_app. split; [done|]. rewrite Hl.
      intros [|k] it Hit; cbn in Hit; [injection Hit as <-; cbn; lia|done].
    + rewrite length_app, Hl. cbn.
      by replace (1 + Z.of_nat (Z.to_nat prev + 1)) with (prev + 1 + 1) by lia.
Qed.

(** A log and a follower with the same terms. *)
Definition same_terms (log : gmap Z (Term * bytes)) (p : PeerState) : Prop :=
  forall i, peer_term_at i p = log_term log i.

(** The terms of a log in which a batch replaced everything from its first new
    entry [e], number [k], on, against the follower's list after the same batch. *)
Section Replaced.
  Context (log : gmap Z (Term * bytes)) (p : PeerState) (prev : Z) (k : nat) (e : LogEntry)
    (es : list LogEntry).
  Hypothesis Hok : peer_ok p.
  Hypothesis Hsame : same_terms log p.
  Hypothesis Hprev : 0 <= prev <= Z.of_nat (length (ps_log p)).
  Hypothesis Hcons : consecutive (prev + 1) es.
  Hypothesis Hek : es !! k = Some e.
  Hypothesis Hin : forall j it, (j < k)%nat -> map entry_position es !! j = Some it ->
    peer_term_at it.1 p = Some it.2.

#[local] Definition replaced : PeerState :=
    {| ps_base_index := 1;
       ps_log := take (Z.to_nat prev + k) (ps_log p) ++ drop k (map entry_position es) |}.

Lemma replaced_prefix : length (take (Z.to_nat prev + k) (ps_log p)) = (Z.to_nat prev + k)%nat.
Proof using Hok Hprev Hcons Hek Hin.
  rewrite length_take. destruct k as [|j]; [lia|]. apply lookup_lt_Some in Hek as Hk.
  destruct (es !! j) as [e'|] eqn:Hej; [|apply lookup_ge_None in Hej; lia].
  specialize (Hin j (entry_position e') ltac:(lia)). rewrite list_lookup_fmap, Hej in Hin.
  specialize (Hin eq_refl). rewrite (peer_term_ok _ _ Hok) in Hin. cbn in Hin.
  rewrite (Hcons _ _ Hej) in Hin. destruct (Z.ltb_spec (prev + 1 + Z.of_nat j) 1); [done|].
  apply fmap_Some in Hin as (x & Hx & _). apply lookup_lt_Some in Hx. lia.
Qed.

Lemma replaced_ok : peer_ok replaced.
Proof using Hok Hprev Hcons Hek Hin.
  right. split; [done|]. cbn. apply positions_from_app. rewrite replaced_prefix. split.
  - destruct Hok as [->|[_ Hp]]; [by rewrite take_nil|].
    intros j it [? _]%lookup_take_Some. by apply Hp.
  - intros j it. rewrite lookup_drop, list_lookup_fmap.
    intros (x & Hx & ->)%fmap_Some. cbn. rewrite (Hcons _ _ Hx). lia.
Qed.

Lemma replaced_not_in_batch i :
  i < prev + 1 + Z.of_nat k \/ prev + Z.of_nat (length es) < i -> i ∉ map e_index (drop k es).
Proof using Hcons Hprev.
  intros Hi (x & -> & Hx)%list_elem_of_fmap.
  pose proof (consecutive_bounds _ _ _ (consecutive_drop _ _ k Hcons) Hx) as Hb.
  rewrite length_drop in Hb. lia.
Qed.

Lemma replaced_below i :
  i < prev + 1 + Z.of_nat k ->
  log_append (drop k es) (scanned_log (Some e) log) !! i = log !! i /\
  peer_term_at i replaced = peer_term_at i p.
Proof using Hok Hprev Hcons Hek Hin.
  intros Hi. split.
  - rewrite log_term_append_other by (apply replaced_not_in_batch; lia). cbn [scanned_log].
    destruct (log_term log (e_index e)); [|done]. rewrite log_truncate_lookup.
    rewrite (Hcons _ _ Hek). by destruct (Z.ltb_spec i (prev + 1 + Z.of_nat k)); [|lia].
  - rewrite (peer_term_ok _ _ replaced_ok), (peer_term_ok _ _ Hok). cbn [replaced ps_log].
    destruct (Z.ltb_spec i 1); [done|]. rewrite lookup_app_l by (rewrite replaced_prefix; lia).
    by rewrite lookup_take_lt by lia.
Qed.

Lemma replaced_from i :
  prev + 1 + Z.of_nat k <= i ->
  peer_term_at i replaced = e_term <$> es !! Z.to_nat (i - (prev + 1)).
Proof using Hok Hprev Hcons Hek Hin.
  intros Hi. rewrite (peer_term_ok _ _ replaced_ok). cbn [replaced ps_log].
  destruct (Z.ltb_spec i 1); [lia|].
  rewrite lookup_app_r by (rewrite replaced_prefix; lia). rewrite replaced_prefix, lookup_drop.
  rewrite list_lookup_fmap, <- option_fmap_compose.
  by replace (k + (Z.to_nat (i - 1) - (Z.to_nat prev + k)))%nat
    with (Z.to_nat (i - (prev + 1))) by lia.
Qed.

(** Above the batch nothing is left: a conflict cut it, or there was nothing. *)
Lemma replaced_above i :
  prev + Z.of_nat (length es) < i ->
  log_term (log_append (drop k es) (scanned_log (Some e) log)) i = None.
Proof using Hok Hsame Hprev Hcons Hek.
  intros Hi. apply lookup_lt_Some in Hek as Hk. pose proof (Hcons _ _ Hek) as He.
  unfold log_term. rewrite log_term_append_other by (apply replaced_not_in_batch; lia).
  cbn [scanned_log]. destruct (log_term log (e_index e)) eqn:Ht.
  - rewrite log_truncate_lookup. by destruct (Z.ltb_spec i (e_index e)); [lia|].
  - fold (log_term log i). rewrite <- (Hsame i). rewrite <- (Hsame (e_index e)) in Ht.
    rewrite (peer_term_ok _ _ Hok) in Ht. rewrite (peer_term_ok _ _ Hok).
    destruct (Z.ltb_spec (e_index e) 1), (Z.ltb_spec i 1); try lia.
    apply fmap_None, lookup_ge_None in Ht.
    by rewrite lookup_ge_None_2 by lia.
Qed.

Lemma replaced_same_terms :
  same_terms (log_append (drop k es) (scanned_log (Some e) log)) replaced.
Proof using Hok Hsame Hprev Hcons Hek Hin.
  intros i. destruct (Z.lt_ge_cases i (prev + 1 + Z.of_nat k)) as [Hlow|Hhigh].
  { destruct (replaced_below i Hlow) as [Hl ->]. unfold log_term. rewrite Hl. apply Hsame. }
  rewrite replaced_from by done.
  destruct (es !! Z.to_nat (i - (prev + 1))) as [x|] eqn:Hx; cbn [fmap option_fmap option_map].
  - assert (Hxi : e_index x = i) by (rewrite (Hcons _ _ Hx); lia). unfold log_term.
    rewrite <- Hxi, (log_append_lookup _ _ x); [done|..].
    + by eapply consecutive_NoDup, consecutive_drop.
    + apply list_elem_of_lookup. exists (Z.to_nat (i - (prev + 1)) - k)%nat.
      rewrite lookup_drop. by replace (k + _)%nat with (Z.to_nat (i - (prev + 1))) by lia.
  - apply lookup_ge_None in Hx. by rewrite replaced_above by lia.
Qed.

End Replaced.

Lemma prev_accepted_bound ae p :
  peer_ok p -> 0 <= ae_prev_log_index ae -> prev_accepted ae p = true ->
  0 <= ae_prev_log_index ae <= Z.of_nat (length (ps_log p)).
Proof.
  intros Hok H0. unfold prev_accepted. destruct (Z.ltb_spec 0 (ae_prev_log_index ae)); [|lia].
  rewrite (peer_term_ok _ _ Hok). destruct (ae_prev_log_index ae <? 1); [done|].
  destruct (ps_log p !! _) as [x|] eqn:Hx; [|done]. apply lookup_lt_Some in Hx. lia.
Qed.

(** C36: The follower of the throughput examples does to its terms what a node of
    the crate does to its log: when its terms, based at index 1, are those of the
    node's log, and an [AppendEntries] has the previous entry the follower accepts
    and entries of consecutive indexes from the next one on, and the node's append
    returns without an error, the follower accepts, has then the terms of the node's
    log at every index, and its answer names the last of them. *)
Theorem follower_mirrors_node {S T C D : Type} `{StorageLaws S} `{RaftTransport T} `{Clock C}
  `{CustomDispatch D T} msg payload (n n' : RaftNode S T C D) p :
  let count := Z.to_nat (ae_entry_count msg) in
  log_ok n -> entry_block count payload -> 0 <= ae_prev_log_index msg ->
  consecutive (ae_prev_log_index msg + 1) (entry_iter payload count) ->
  peer_ok p -> same_terms (stored_log n) p -> prev_accepted msg p = true ->
  apply_append_entries msg payload n = (Ok tt, n') ->
  exists p', process_append msg payload p = ((true, (last_position p').1), p') /\
    peer_ok p' /\ same_terms (stored_log n') p'.
Proof.
  intros count Hlok Hblock Hpos Hcons Hok Hsame Hprev E.
  destruct (entry_block_items _ _ Hblock) as [Hlen Hwf].
  rewrite apply_append_entries_path in E by done.
  eapply append_path_exact in E as (k & Hk & _ & Hm & Hne & Hlog & _);
    [|done|done|intros; apply append_entries_stores].
  unfold process_append. rewrite Hprev. eexists. split; [reflexivity|]. fold count in Hk, Hm, Hne, Hlog |- *.
  set (es := entry_iter payload count) in *.
  assert (Hits : positions_from (ae_prev_log_index msg + 1) (map entry_position es)).
  { intros j it. rewrite list_lookup_fmap. intros (x & Hx & ->)%fmap_Some. by apply Hcons. }
  destruct (process_entries_ok (map entry_position es) (ae_prev_log_index msg) p)
    as (k' & Hk' & Hin & Hout & ->); [done|by apply prev_accepted_bound|done|].
  rewrite length_map in Hk'. assert (k' = k) as ->.
  { destruct (Nat.lt_trichotomy k' k) as [Hlt|[|Hlt]]; [|done|]; exfalso.
    - destruct (lookup_lt_is_Some_2 es k' ltac:(lia)) as [x Hx].
      apply (Hout (entry_position x)); [by rewrite list_lookup_fmap, Hx|].
      rewrite (Hsame _). by apply (Hm k').
    - destruct (lookup_lt_is_Some_2 es k ltac:(lia)) as [x Hx]. apply (Hne x Hx).
      rewrite <- (Hsame _). apply (Hin k (entry_position x) Hlt).
      by rewrite list_lookup_fmap, Hx. }
  rewrite list_lookup_fmap. destruct (es !! k) as [e|] eqn:Hek; cbn [fmap option_fmap option_map].
  - pose proof (prev_accepted_bound msg p Hok Hpos Hprev). rewrite Hlog.
    split; [by apply (replaced_ok _ _ _ e)|by apply replaced_same_terms].
  - split; [done|]. rewrite Hlog. apply lookup_ge_None in Hek. by rewrite drop_ge.
Qed.

(** A follower whose third entry conflicts with the batch. *)
Definition sample_peer : PeerState := {| ps_base_index := 1; ps_log := [(1, 1); (2, 1); (3, 2)] |}.

Lemma sample_peer_ok : peer_ok sample_peer.
Proof. right. split; [done|]. by intros [|[|[|[]]]] it [= <-]. Qed.

Lemma sample_peer_same_terms : same_terms (stored_log follower) sample_peer.
Proof.
  intros i. rewrite (peer_term_ok _ _ sample_peer_ok).
  assert (Hl : stored_log follower =
    <[1 := (1, [to_byte 0])]> (<[2 := (1, [to_byte 1])]> (<[3 := (2, [to_byte 2])]> ∅)))
    by (vm_compute; reflexivity).
  rewrite Hl. unfold log_term.
  destruct (decide (i = 1)) as [->|]; [done|]. destruct (decide (i = 2)) as [->|]; [done|].
  destruct (decide (i = 3)) as [->|]; [done|]. rewrite !lookup_insert_ne by done.
  destruct (Z.ltb_spec i 1); [done|]. by rewrite lookup_ge_None_2 by (cbn; lia).
Qed.

Lemma follower_mirrors_node_witness :
  exists p', process_append (append_msg 3 2 1 4 2) batch_bytes sample_peer =
               ((true, (last_position p').1), p') /\
    peer_ok p' /\
    same_terms (stored_log (node_after
      (apply_append_entries (append_msg 3 2 1 4 2) batch_bytes follower))) p'.
Proof.
  apply (follower_mirrors_node (append_msg 3 2 1 4 2) batch_bytes follower).
  - exact follower_log_ok.
  - exact batch_block.
  - vm_compute. discriminate.
  - intros [|[|j]] e He; vm_compute in He; [injection He as <-; reflexivity..|discriminate].
  - exact sample_peer_ok.
  - exact sample_peer_same_terms.
  - reflexivity.
  - vm_compute. reflexivity.
Defined.

(** ** The seeded path *)

(** A seeded batch is pushed without looking for conflicts and without setting
    [base_index]: after a first seeded entry the follower cannot find it, and a
    repeated batch is stored twice. *)
Definition seeded_frame (prev prev_term : Z) (es : list LogEntry) : bytes :=
  frame_of 1 (MAppendEntriesSeeded (append_msg 1 prev prev_term 0 (Z.of_nat (length es)))
    (concat (map (fun e => as_bytes
       {| eh_term := e_term e; eh_index := e_index e;
          eh_payload_len := Z.of_nat (length (e_payload e)); eh_pad := 0 |}) es))
    (concat (map e_payload es))).

Definition after_frames (frames : list bytes) : PeerState :=
  foldl (fun p f => match follower_handle_frame 2 f p with Some (_, p') => p' | None => p end)
    PeerState_new frames.

Lemma seeded_path_loses_entries :
  let e := {| e_term := 1; e_index := 1; e_payload := [to_byte 7] |} in
  let p := after_frames [seeded_frame 0 0 [e]] in
  ps_log p = [(1, 1)] /\ peer_term_at 1 p = None /\
  ps_log (after_frames [seeded_frame 0 0 [e]; seeded_frame 0 0 [e]]) = [(1, 1); (1, 1)].
Proof. vm_compute. split_and!; reflexivity. Qed.
