(* ===== verification/ExampleTransport.v ===== *)
(** * ExampleTransport: the in-process transports of the example programs

    [NoopTransport] of [examples/basic_raft.rs] (and its copy in
    [examples/dispatch_rpc.rs]), [Inbound] and [ChannelTransport] of
    [examples/inmem_throughput.rs], and [NetTransport] of
    [examples/multiraft_driver.rs], as instances of the transport class.  Each is
    shown to keep the contract the engine's theorems rely on ([TransportLaws]),
    to deliver in order and to deliver a frame once, so that election safety, the
    demultiplexer's routing and the termination of the node's operations hold
    over them.

    A channel's receiver is the frames that reach it until the call ends and
    whether every sender is gone.  A receive without a time limit on a channel
    that stays empty and open does not return; the models of such calls give the
    error [never] for it, and every statement is about all values of [never]. *)

From stdpp Require Import base list sets gmap strings pretty.
From Stdlib Require Import ZArith Lia.
From S2P Require Import Prelude Types Wire Codec Traits Multiplex MultiplexFacts Termination.

Local Open Scope string_scope.
Local Open Scope list_scope.
Local Open Scope raft_scope.
Local Open Scope Z_scope.

Lemma length_tail_le {A} (l : list A) : (length (tail l) <= length l)%nat.
Proof. destruct l; cbn; lia. Qed.

(** ** Receivers *)

Record Receiver := {
  rx_frames : list bytes;
  (** every sender was dropped *)
  rx_closed : bool;
}.

(** Copying a frame into the caller's buffer: the frame is taken off the channel
    also when it does not fit. *)
Definition inbound_copy_out (frame : bytes) (out_len : Z) : res bytes :=
  if out_len <? Z.of_nat (length frame) then Err (TransportErr "recv buffer too small")
  else Ok frame.

Definition rx_rest (fs : list bytes) (rx : Receiver) : Receiver :=
  {| rx_frames := fs; rx_closed := rx_closed rx |}.

(** [recv]: the next frame, or the end of the channel. *)
Definition receive (closed : string) (never : RaftError) (out_len : Z) (rx : Receiver)
  : res bytes * Receiver :=
  match rx_frames rx with
  | f :: fs => (inbound_copy_out f out_len, rx_rest fs rx)
  | [] => (Err (if rx_closed rx then TransportErr closed else never), rx)
  end.

(** [recv] under a timeout, and [try_recv] for a timeout of zero. *)
Definition receive_timeout (closed : string) (out_len : Z) (rx : Receiver)
  : res (option bytes) * Receiver :=
  match rx_frames rx with
  | f :: fs => (let? f := inbound_copy_out f out_len in Ok (Some f), rx_rest fs rx)
  | [] => (if rx_closed rx then Err (TransportErr closed) else Ok None, rx)
  end.

Lemma receive_delivers closed never len rx r rx' f :
  receive closed never len rx = (r, rx') -> r = Ok f ->
  rx_frames rx = f :: rx_frames rx'.
Proof.
  unfold receive, inbound_copy_out. destruct (rx_frames rx) as [|g fs] eqn:E; intros [= <- <-]; [done|].
  cbn. destruct (len <? _); [done|]. by intros [= <-].
Qed.

Lemma receive_rest closed never len rx :
  rx_frames (receive closed never len rx).2 = tail (rx_frames rx).
Proof. unfold receive. by destruct (rx_frames rx) as [|f fs] eqn:E; cbn; rewrite ?E. Qed.

Lemma receive_timeout_cases closed len rx r rx' :
  receive_timeout closed len rx = (r, rx') ->
  match r with
  | Ok (Some f) => rx_frames rx = f :: rx_frames rx'
  | Ok None => rx' = rx
  | Err _ => rx_frames rx' = tail (rx_frames rx)
  end.
Proof.
  unfold receive_timeout, inbound_copy_out. destruct (rx_frames rx) as [|g fs] eqn:E.
  - intros [= <- <-]. destruct (rx_closed rx); [|done]. by rewrite E.
  - intros [= <- <-]. cbn. by destruct (len <? _).
Qed.

(** ** [NoopTransport]: nothing leaves and nothing arrives *)

Inductive NoopTransport := noop_transport.

Definition NoopTransport_transport (never : RaftError) : RaftTransport NoopTransport := {|
  send_vectored _ _ t := (Ok tt, t);
  send_frame_owned _ _ t := (Ok tt, t);
  recv_frame _ t := (Err never, t);
  recv_frame_timeout _ _ t := (Ok None, t);
|}.

(** ** [Inbound] and [ChannelTransport] *)

(** The senders to the followers with whether the follower still receives, and
    the frames they took, in order: the follower of a peer reads those of its
    id. *)
Record ChannelTransport := {
  ct_inbound : Receiver;
  ct_peers : gmap Z bool;
  ct_accepted : list (PeerId * bytes);
}.

Definition inbound_recv (never : RaftError) (out_len : Z) (rx : Receiver)
  : res bytes * Receiver :=
  receive "inbound channel closed" never out_len rx.

Definition inbound_recv_timeout (timeout out_len : Z) (rx : Receiver)
  : res (option bytes) * Receiver :=
  receive_timeout "inbound channel closed" out_len rx.

Definition set_ct_inbound (rx : Receiver) (t : ChannelTransport) : ChannelTransport :=
  {| ct_inbound := rx; ct_peers := ct_peers t; ct_accepted := ct_accepted t |}.

Definition channel_send_frame (peer : PeerId) (frame : bytes) (t : ChannelTransport)
  : res unit * ChannelTransport :=
  match ct_peers t !! peer with
  | None => (Err (TransportErr ("unknown peer PeerId(" +:+ pretty peer +:+ ")")), t)
  | Some false => (Err (TransportErr "follower channel closed"), t)
  | Some true =>
      (Ok tt, {| ct_inbound := ct_inbound t; ct_peers := ct_peers t;
                 ct_accepted := ct_accepted t ++ [(peer, frame)] |})
  end.

Definition channel_send_vectored (peer : PeerId) (slices : list bytes) (t : ChannelTransport)
  : res unit * ChannelTransport := channel_send_frame peer (concat slices) t.

Definition channel_recv_frame (never : RaftError) (out_len : Z) (t : ChannelTransport)
  : res bytes * ChannelTransport :=
  let '(r, rx) := inbound_recv never out_len (ct_inbound t) in (r, set_ct_inbound rx t).

Definition channel_recv_frame_timeout (timeout out_len : Z) (t : ChannelTransport)
  : res (option bytes) * ChannelTransport :=
  let '(r, rx) := inbound_recv_timeout timeout out_len (ct_inbound t) in
  (r, set_ct_inbound rx t).

Definition ChannelTransport_transport (never : RaftError) : RaftTransport ChannelTransport := {|
  send_vectored := channel_send_vectored;
  send_frame_owned := channel_send_frame;
  recv_frame := channel_recv_frame never;
  recv_frame_timeout := channel_recv_frame_timeout;
|}.

(** ** [NetTransport] *)

Record NetTransport := {
  nt_peers : gmap Z bool;
  nt_rx : Receiver;
  nt_accepted : list (PeerId * bytes);
}.

(** A frame for a peer that is gone is dropped, and the send succeeds. *)
Definition send_to (peer : PeerId) (frame : bytes) (t : NetTransport) : res unit * NetTransport :=
  match nt_peers t !! peer with
  | Some alive =>
      (Ok tt, {| nt_peers := nt_peers t; nt_rx := nt_rx t;
                 nt_accepted := nt_accepted t ++ (if alive : bool then [(peer, frame)] else []) |})
  | None => (Err (TransportErr ("unknown peer " +:+ pretty peer)), t)
  end.

Definition set_nt_rx (rx : Receiver) (t : NetTransport) : NetTransport :=
  {| nt_peers := nt_peers t; nt_rx := rx; nt_accepted := nt_accepted t |}.

Definition net_recv_frame (never : RaftError) (out_len : Z) (t : NetTransport)
  : res bytes * NetTransport :=
  let '(r, rx) := receive "transport closed" never out_len (nt_rx t) in (r, set_nt_rx rx t).

Definition net_recv_frame_timeout (timeout out_len : Z) (t : NetTransport)
  : res (option bytes) * NetTransport :=
  let '(r, rx) := receive_timeout "transport closed" out_len (nt_rx t) in (r, set_nt_rx rx t).

Definition NetTransport_transport (never : RaftError) : RaftTransport NetTransport := {|
  send_vectored peer slices := send_to peer (concat slices);
  send_frame_owned := send_to;
  recv_frame := net_recv_frame never;
  recv_frame_timeout := net_recv_frame_timeout;
|}.

(** The two ends of an in-process link. *)
Definition net_end (peer : PeerId) : NetTransport :=
  {| nt_peers := {[peer := true]}; nt_rx := {| rx_frames := []; rx_closed := false |};
     nt_accepted := [] |}.

Definition net_pair : NetTransport * NetTransport := (net_end 2, net_end 1).

(** Moving what one end sent to the other. *)
Definition net_deliver (from to : NetTransport) : NetTransport * NetTransport :=
  ({| nt_peers := nt_peers from; nt_rx := nt_rx from; nt_accepted := [] |},
   set_nt_rx {| rx_frames := rx_frames (nt_rx to) ++ map snd (nt_accepted from);
                rx_closed := rx_closed (nt_rx to) |} to).

(** ** The contract of the engine *)

Lemma receive_from closed never len rx r rx' :
  receive closed never len rx = (r, rx') ->
  rx_frames rx' ⊆ rx_frames rx /\ forall f, r = Ok f -> f ∈ rx_frames rx.
Proof.
  intros E. split.
  - pose proof (receive_rest closed never len rx) as Hr. rewrite E in Hr. cbn in Hr. rewrite Hr.
    destruct (rx_frames rx); set_solver.
  - intros f Hf. rewrite (receive_delivers _ _ _ _ _ _ _ E Hf). set_solver.
Qed.

Lemma receive_timeout_from closed len rx r rx' :
  receive_timeout closed len rx = (r, rx') ->
  rx_frames rx' ⊆ rx_frames rx /\ forall f, r = Ok (Some f) -> f ∈ rx_frames rx.
Proof.
  intros E%receive_timeout_cases. split; [|intros f ->; rewrite E; set_solver].
  destruct r as [[f|]|]; [rewrite E; set_solver|by rewrite E|].
  rewrite E. destruct (rx_frames rx); set_solver.
Qed.

Lemma receive_timeout_drains closed len rx r rx' :
  receive_timeout closed len rx = (r, rx') ->
  match r with
  | Ok (Some _) => (length (rx_frames rx') < length (rx_frames rx))%nat
  | _ => (length (rx_frames rx') <= length (rx_frames rx))%nat
  end.
Proof.
  intros E%receive_timeout_cases.
  destruct r as [[f|]|]; rewrite E; cbn; [lia|done|]. apply length_tail_le.
Qed.

Section Laws.
  Context (never : RaftError).

#[local, refine] Instance NoopTransport_laws :
  @TransportLaws NoopTransport (NoopTransport_transport never) := {
  sent _ := []; inbox _ := [];
}.
Proof.
  - intros peer slices t r t' _. auto.
  - intros peer frame t r t' _. auto.
  - cbn. intros len t r t' H. simplify_eq. set_solver.
  - cbn. intros timeout len t r t' H. simplify_eq. set_solver.
Defined.

#[local, refine] Instance ChannelTransport_laws :
  @TransportLaws ChannelTransport (ChannelTransport_transport never) := {
  sent := ct_accepted; inbox t := rx_frames (ct_inbound t);
}.
Proof.
  - intros peer slices t r t'. cbn. unfold channel_send_vectored, channel_send_frame.
    destruct (ct_peers t !! peer) as [[]|]; intros [= <- <-]; auto.
  - intros peer frame t r t'. cbn. unfold channel_send_frame.
    destruct (ct_peers t !! peer) as [[]|]; intros [= <- <-]; auto.
  - intros len t r t'. cbn. unfold channel_recv_frame, inbound_recv.
    destruct (receive _ _ _ _) as [r0 rx] eqn:E. intros [= <- <-].
    split; [done|]. exact (receive_from _ _ _ _ _ _ E).
  - intros timeout len t r t'. cbn. unfold channel_recv_frame_timeout, inbound_recv_timeout.
    destruct (receive_timeout _ _ _) as [r0 rx] eqn:E. intros [= <- <-].
    split; [done|]. exact (receive_timeout_from _ _ _ _ _ E).
Defined.

#[local, refine] Instance NetTransport_laws :
  @TransportLaws NetTransport (NetTransport_transport never) := {
  sent := nt_accepted; inbox t := rx_frames (nt_rx t);
}.
Proof.
  - intros peer slices t r t'. cbn. unfold send_to.
    destruct (nt_peers t !! peer) as [[]|]; intros [= <- <-]; cbn; rewrite ?app_nil_r; auto.
  - intros peer frame t r t'. cbn. unfold send_to.
    destruct (nt_peers t !! peer) as [[]|]; intros [= <- <-]; cbn; rewrite ?app_nil_r; auto.
  - intros len t r t'. cbn. unfold net_recv_frame.
    destruct (receive _ _ _ _) as [r0 rx] eqn:E. intros [= <- <-].
    split; [done|]. exact (receive_from _ _ _ _ _ _ E).
  - intros timeout len t r t'. cbn. unfold net_recv_frame_timeout.
    destruct (receive_timeout _ _ _) as [r0 rx] eqn:E. intros [= <- <-].
    split; [done|]. exact (receive_timeout_from _ _ _ _ _ E).
Defined.

(** What the engine, the demultiplexer and the waiting operations ask of a
    transport. *)
Record serviceable (T : Type) (tr : RaftTransport T) (laws : @TransportLaws T tr) : Prop := {
  sv_fifo : FifoTransport T;
  sv_draining : DrainingTransport T;
}.

(** The three in-process transports of the examples keep what the engine
    relies on: a send hands over its frame or nothing, a receive hands over a
    frame that was there, frames come in order, and each is received once. *)
Theorem example_transports_serviceable :
  serviceable NoopTransport (NoopTransport_transport never) NoopTransport_laws /\
  serviceable ChannelTransport (ChannelTransport_transport never) ChannelTransport_laws /\
  serviceable NetTransport (NetTransport_transport never) NetTransport_laws.
Proof.
  split_and!; split; split; cbn; try done.
  - by intros timeout len t r t' H; simplify_eq.
  - by intros timeout len t r t' H; simplify_eq.
  - intros timeout len t r t'. unfold channel_recv_frame_timeout, inbound_recv_timeout.
    destruct (receive_timeout _ _ _) as [r0 rx] eqn:E. intros [= <- <-].
    apply receive_timeout_cases in E. destruct r0 as [[]|]; cbn; [done|by subst|done].
  - intros len t. unfold channel_recv_frame, inbound_recv.
    pose proof (receive_rest "inbound channel closed" never len (ct_inbound t)) as Hr.
    destruct (receive _ _ _ _) as [r0 rx] eqn:E. cbn in *. rewrite Hr. apply length_tail_le.
  - intros timeout len t r t'. unfold channel_recv_frame_timeout, inbound_recv_timeout.
    destruct (receive_timeout _ _ _) as [r0 rx] eqn:E. intros [= <- <-].
    exact (receive_timeout_drains _ _ _ _ _ E).
  - intros timeout len t r t'. unfold net_recv_frame_timeout.
    destruct (receive_timeout _ _ _) as [r0 rx] eqn:E. intros [= <- <-].
    apply receive_timeout_cases in E. destruct r0 as [[]|]; cbn; [done|by subst|done].
  - intros len t. unfold net_recv_frame.
    pose proof (receive_rest "transport closed" never len (nt_rx t)) as Hr.
    destruct (receive _ _ _ _) as [r0 rx] eqn:E. cbn in *. rewrite Hr. apply length_tail_le.
  - intros timeout len t r t'. unfold net_recv_frame_timeout.
    destruct (receive_timeout _ _ _) as [r0 rx] eqn:E. intros [= <- <-].
    exact (receive_timeout_drains _ _ _ _ _ E).
Qed.

End Laws.
