(* ===== verification/ExampleTcp.v ===== *)
(** * ExampleTcp: frames over a byte stream

    The socket side of [examples/tcp_throughput.rs]: [read_frame_into], which
    cuts frames out of a byte stream that arrives in pieces of any size, and the
    sending loop of [TcpTransport::send_vectored], which a socket may serve a few
    bytes at a time.  Together they carry every message over, whatever the pieces
    ([tcp_link_roundtrip]).

    The socket is a parameter: [write_vectored] and [write_all] of tokio, with
    their documented effect on the bytes written so far as hypotheses. *)

From stdpp Require Import base list sets gmap strings pretty.
From Stdlib Require Import ZArith Lia.
From S2P Require Import Prelude Types Wire Codec CodecFacts Samples.

Local Open Scope string_scope.
Local Open Scope list_scope.
Local Open Scope raft_scope.
Local Open Scope Z_scope.

Definition HEADER_SIZE : nat := 32.
Definition BODY_LEN_OFFSET : nat := 16.

(** ** Reading *)

(** The first frame of the buffer, when it is complete, and the rest. *)
Definition split_frame (buf : bytes) : option (bytes * bytes) :=
  if (HEADER_SIZE <=? length buf)%nat then
    let body_len := Z.to_nat (le_value (take 4 (drop BODY_LEN_OFFSET buf))) in
    let total := (HEADER_SIZE + body_len)%nat in
    if (total <=? length buf)%nat then Some (take total buf, drop total buf) else None
  else None.

(** [stream] is what the reads of the socket return, one after the other; a read
    that returns nothing, or fails, ends it.  The result is the frame with the
    reads and the buffer left. *)
Fixpoint read_frame_into (stream : list bytes) (buf : bytes)
  : option bytes * (list bytes * bytes) :=
  match split_frame buf with
  | Some (frame, rest) => (Some frame, (stream, rest))
  | None =>
      match stream with
      | [] => (None, ([], buf))
      | [] :: stream' => (None, (stream', buf))
      | tmp :: stream' => read_frame_into stream' (buf ++ tmp)
      end
  end.

(** The loops of the follower and of the leader's receiving task:
    [while let Some(frame)]. *)
Fixpoint read_frames (fuel : nat) (stream : list bytes) (buf : bytes) : option (list bytes) :=
  match fuel with
  | O => None
  | S fuel' =>
      match read_frame_into stream buf with
      | (Some frame, (stream', buf')) =>
          (fun fs => frame :: fs) <$> read_frames fuel' stream' buf'
      | (None, _) => Some []
      end
  end.

(** ** Writing *)

(** [IoSlice::advance_slices]: drops the slices that are written in full. *)
Fixpoint advance_slices (n : nat) (bufs : list bytes) : list bytes :=
  match bufs with
  | [] => []
  | b :: bs => if (length b <=? n)%nat then advance_slices (n - length b) bs else drop n b :: bs
  end.

Section Socket.
  Context {K : Type}.
  Context (write_vectored : list bytes -> K -> res nat * K).
  Context (write_all : bytes -> K -> res unit * K).

(** [while !bufs.is_empty()]; [None] when the fuel runs out. *)
Fixpoint write_loop (fuel : nat) (bufs : list bytes) (k : K) : option (res unit * K) :=
  match bufs with
  | [] => Some (Ok tt, k)
  | _ =>
      match fuel with
      | O => None
      | S fuel' =>
          let '(r, k) := write_vectored bufs k in
          match r with
          | Err e => Some (Err e, k)
          | Ok O => Some (Err (TransportErr "write_vectored returned 0 — peer closed"), k)
          | Ok n => write_loop fuel' (advance_slices n bufs) k
          end
      end
  end.

(** The connections of the transport by peer. *)
Definition with_conn {A} (peer : PeerId) (op : K -> option (res A * K)) (conns : gmap Z K)
  : option (res A * gmap Z K) :=
  match conns !! peer with
  | None => Some (Err (TransportErr ("unknown peer PeerId(" +:+ pretty peer +:+ ")")), conns)
  | Some k => (fun rk => (rk.1, <[peer := rk.2]> conns)) <$> op k
  end.

Definition tcp_send_vectored (fuel : nat) (peer : PeerId) (slices : list bytes)
  (conns : gmap Z K) : option (res unit * gmap Z K) :=
  with_conn peer (write_loop fuel slices) conns.

Definition tcp_send_frame_owned (peer : PeerId) (frame : bytes) (conns : gmap Z K)
  : option (res unit * gmap Z K) :=
  with_conn peer (fun k => Some (write_all frame k)) conns.

(** ** Facts about writing *)

Context (wire : K -> bytes).
(** A write takes some first bytes of the slices and says how many. *)
Hypothesis write_vectored_takes : forall bufs k r k',
  write_vectored bufs k = (r, k') ->
  match r with
  | Ok n => (n <= length (concat bufs))%nat /\ wire k' = wire k ++ take n (concat bufs)
  | Err _ => wire k' = wire k
  end.

Lemma advance_slices_concat n bufs :
  (n <= length (concat bufs))%nat -> concat (advance_slices n bufs) = drop n (concat bufs).
Proof using.
  revert n. induction bufs as [|b bs IH]; intros n; cbn.
  { by rewrite drop_nil. }
  rewrite length_app. intros Hn. destruct (Nat.leb_spec (length b) n) as [Hle|Hlt].
  - rewrite IH by lia. by rewrite drop_app_ge by lia.
  - by rewrite drop_app_le by lia.
Qed.

(** Everything written: no slice is left, not even an empty one. *)
Lemma advance_slices_all bufs : advance_slices (length (concat bufs)) bufs = [].
Proof using.
  induction bufs as [|b bs IH]; [done|]. cbn. rewrite length_app.
  destruct (Nat.leb_spec (length b) (length b + length (concat bs))); [|lia].
  by replace (length b + length (concat bs) - length b)%nat with (length (concat bs)) by lia.
Qed.

Lemma advance_slices_left n bufs :
  (n < length (concat bufs))%nat -> advance_slices n bufs <> [].
Proof using.
  intros Hn E. pose proof (advance_slices_concat n bufs ltac:(lia)) as Hc. rewrite E in Hc.
  apply (f_equal length) in Hc. rewrite length_drop in Hc. cbn in Hc. lia.
Qed.

(** The loop ends within as many rounds as there are bytes.  A success wrote
    every byte; a failure wrote some first bytes. *)
Lemma write_loop_spec fuel bufs k :
  (length (concat bufs) <= fuel)%nat -> concat bufs <> [] \/ bufs = [] ->
  exists r k', write_loop fuel bufs k = Some (r, k') /\
    match r with
    | Ok _ => wire k' = wire k ++ concat bufs
    | Err _ => exists j, (j < length (concat bufs))%nat /\
                         wire k' = wire k ++ take j (concat bufs)
    end.
Proof using write_vectored_takes.
  revert bufs k. induction fuel as [|fuel IH]; intros bufs k Hfuel [Hne| ->].
  - exfalso. apply Hne. by apply nil_length_inv; lia.
  - exists (Ok tt), k. by rewrite app_nil_r.
  - assert (Hpos : (0 < length (concat bufs))%nat) by (destruct (concat bufs); cbn; [done|lia]).
    destruct bufs as [|b bs]; [done|]. cbn [write_loop]. set (all := b :: bs) in *.
    destruct (write_vectored all k) as [r k1] eqn:E. apply write_vectored_takes in E.
    destruct r as [[|n]|e].
    + exists (Err (TransportErr "write_vectored returned 0 — peer closed")), k1.
      split; [done|]. exists 0%nat. split; [lia|]. destruct E as [_ ->]. by rewrite take_0.
    + destruct E as [Hn Hw]. pose proof (advance_slices_concat (S n) all Hn) as Hc.
      destruct (decide (S n = length (concat all))) as [Hall|Hless].
      * exists (Ok tt), k1. rewrite Hall, advance_slices_all. split; [by destruct fuel|].
        by rewrite Hw, Hall, firstn_all.
      * destruct (IH (advance_slices (S n) all) k1) as (r & k' & He & Hr).
        { rewrite Hc, length_drop. lia. }
        { left. rewrite Hc. intros E0. apply (f_equal length) in E0.
          rewrite length_drop in E0. cbn [length] in E0. lia. }
        exists r, k'. split; [done|]. rewrite Hc, Hw in Hr. destruct r as [[]|e].
        -- by rewrite Hr, <- app_assoc, take_drop.
        -- destruct Hr as (j & Hj & Hr). rewrite length_drop in Hj. exists (S n + j)%nat.
           split; [lia|]. by rewrite Hr, <- app_assoc, take_take_drop.
    + exists (Err e), k1. split; [done|]. exists 0%nat. split; [lia|].
      by rewrite E, take_0, app_nil_r.
  - exists (Ok tt), k. by rewrite app_nil_r.
Qed.

End Socket.

(** ** Facts about reading *)

(** A frame whose header says how long it is. *)
Definition framed (f : bytes) : Prop :=
  (HEADER_SIZE <= length f)%nat /\
  length f = (HEADER_SIZE + Z.to_nat (le_value (take 4 (drop BODY_LEN_OFFSET f))))%nat.

(** The first bytes of a frame. *)
Definition torn (b : bytes) : Prop := exists f rest, framed f /\ f = b ++ rest /\ rest <> [].

Lemma split_frame_framed f rest : framed f -> split_frame (f ++ rest) = Some (f, rest).
Proof.
  intros [Hh Hl]. unfold split_frame. rewrite length_app.
  destruct (Nat.leb_spec HEADER_SIZE (length f + length rest)); [|lia].
  rewrite drop_app_le by (unfold HEADER_SIZE, BODY_LEN_OFFSET in *; lia).
  rewrite take_app_le by (rewrite length_drop; unfold HEADER_SIZE, BODY_LEN_OFFSET in *; lia).
  rewrite <- Hl. destruct (Nat.leb_spec (length f) (length f + length rest)); [|lia].
  by rewrite take_app_length, drop_app_length.
Qed.

Lemma split_frame_torn b : torn b -> split_frame b = None.
Proof.
  intros (f & rest & [Hh Hl] & -> & Hne). unfold split_frame.
  destruct (Nat.leb_spec HEADER_SIZE (length b)) as [Hb|]; [|done].
  rewrite length_app in Hl. destruct rest as [|x rest]; [done|].
  rewrite drop_app_le in Hl by (unfold HEADER_SIZE, BODY_LEN_OFFSET in *; lia).
  rewrite take_app_le in Hl
    by (rewrite length_drop; unfold HEADER_SIZE, BODY_LEN_OFFSET in *; lia).
  rewrite <- Hl. cbn [length].
  destruct (Nat.leb_spec (length b + S (length rest)) (length b)); [lia|done].
Qed.

Lemma torn_prefix a b : torn (a ++ b) -> torn a.
Proof.
  intros (f & rest & Hf & -> & Hne). exists ((a ++ b) ++ rest), (b ++ rest).
  rewrite <- app_assoc in *. split_and!; [done|done|]. by destruct b.
Qed.

(** Reading one frame, whatever the pieces. *)
Lemma read_frame_into_framed stream buf f rest :
  framed f -> Forall (fun c => c <> []) stream -> buf ++ concat stream = f ++ rest ->
  exists stream' buf', read_frame_into stream buf = (Some f, (stream', buf')) /\
    Forall (fun c => c <> []) stream' /\ buf' ++ concat stream' = rest.
Proof.
  intros Hf. revert buf. induction stream as [|c stream IH]; intros buf Hne E.
  - cbn in E. rewrite app_nil_r in E. subst buf. cbn. rewrite split_frame_framed by done.
    exists [], rest. by rewrite app_nil_r.
  - destruct (decide (length f <= length buf)%nat) as [Hle|Hlt].
    + apply app_eq_inv in E as [(l & -> & E)|(l & -> & E)].
      * cbn [read_frame_into]. rewrite split_frame_framed by done.
        exists (c :: stream), l. by rewrite E.
      * rewrite length_app in Hle. assert (l = []) as -> by (apply nil_length_inv; lia).
        rewrite app_nil_r in *. cbn [read_frame_into].
        pose proof (split_frame_framed buf [] Hf) as Hs. rewrite app_nil_r in Hs. rewrite Hs.
        exists (c :: stream), []. by rewrite E.
    + apply Forall_cons in Hne as [Hc Hne]. cbn [read_frame_into].
      rewrite split_frame_torn.
      * destruct c as [|x c]; [done|]. apply IH; [done|]. by rewrite <- app_assoc.
      * apply app_eq_inv in E as [(l & Hl & E)|(l & -> & E)].
        -- rewrite Hl, length_app in Hlt. lia.
        -- exists (buf ++ l), l. split_and!; [done|done|]. intros ->. rewrite app_nil_r in Hlt. lia.
Qed.

Lemma read_frame_into_torn stream buf :
  Forall (fun c => c <> []) stream -> torn (buf ++ concat stream) ->
  read_frame_into stream buf = (None, ([], buf ++ concat stream)).
Proof.
  revert buf. induction stream as [|c stream IH]; intros buf Hne Ht; cbn [read_frame_into].
  - rewrite split_frame_torn by (by apply torn_prefix in Ht). cbn. by rewrite app_nil_r.
  - rewrite split_frame_torn by (by apply torn_prefix in Ht). apply Forall_cons in Hne as [Hc Hne].
    cbn [concat] in *. rewrite app_assoc in *. destruct c as [|x c]; [done|]. by apply IH.
Qed.

(** The reading loop recovers the frames of the stream, whatever the pieces, and
    stops at a torn one. *)
Lemma read_frames_all fs stream buf tl :
  Forall framed fs -> Forall (fun c => c <> []) stream -> torn tl ->
  buf ++ concat stream = concat fs ++ tl ->
  read_frames (S (length fs)) stream buf = Some fs.
Proof.
  revert stream buf. induction fs as [|f fs IH]; intros stream buf Hfs Hne Ht E.
  - cbn [concat app] in E. cbn [read_frames length]. rewrite <- E in Ht.
    by rewrite read_frame_into_torn.
  - apply Forall_cons in Hfs as [Hf Hfs]. cbn [concat] in E. rewrite <- app_assoc in E.
    destruct (read_frame_into_framed _ _ _ _ Hf Hne E) as (stream' & buf' & Hr & Hne' & E').
    cbn [length]. change (read_frames (S (S (length fs))) stream buf) with
      (match read_frame_into stream buf with
       | (Some frame, (stream', buf')) =>
           (fun fs => frame :: fs) <$> read_frames (S (length fs)) stream' buf'
       | (None, _) => Some []
       end).
    by rewrite Hr, (IH stream' buf') by done.
Qed.

(** The frames of the codec say how long they are. *)
Lemma frame_bytes_framed from gid msg :
  Z.of_nat (length (body_bytes msg)) <= u32_max -> framed (frame_bytes from gid msg).
Proof.
  intros Hb. unfold frame_bytes. set (h := frame_header from gid msg).
  assert (Hl : length (as_bytes h) = HEADER_SIZE) by exact (length_as_bytes h).
  assert (Hf : take 4 (drop BODY_LEN_OFFSET (as_bytes h)) = le_bytes 4 (fh_body_len h)) by done.
  split; rewrite length_app, Hl; [lia|]. f_equal.
  rewrite drop_app_le by (rewrite Hl; unfold BODY_LEN_OFFSET, HEADER_SIZE; lia).
  rewrite take_app_le by (rewrite length_drop, Hl; unfold BODY_LEN_OFFSET, HEADER_SIZE; lia).
  rewrite Hf, le_value_le_bytes_width; [cbn; by rewrite Nat2Z.id|].
  unfold in_width. cbn -[body_bytes]. machine. lia.
Qed.

Lemma torn_nil : torn [].
Proof.
  exists (frame_bytes 0 0 (MCustom [])), (frame_bytes 0 0 (MCustom [])).
  split; [apply frame_bytes_framed; vm_compute; discriminate|].
  split; [reflexivity|vm_compute; discriminate].
Qed.

Section Link.
  Context {K : Type}.
  Context (write_vectored : list bytes -> K -> res nat * K) (wire : K -> bytes).
  Hypothesis write_vectored_takes : forall bufs k r k',
    write_vectored bufs k = (r, k') ->
    match r with
    | Ok n => (n <= length (concat bufs))%nat /\ wire k' = wire k ++ take n (concat bufs)
    | Err _ => wire k' = wire k
    end.

(** Several messages sent one after the other over one connection, each as the
    slices the encoder made of it; a failed send ends it. *)
Fixpoint send_messages (from : PeerId) (header_buf : bytes) (msgs : list RaftMessage) (k : K)
  : option (res unit * K) :=
  match msgs with
  | [] => Some (Ok tt, k)
  | m :: ms =>
      match encode_message_vectored from m header_buf with
      | Some (Ok (buf, out)) =>
          let slices := map (slice_bytes buf) out in
          match write_loop write_vectored (length (concat slices)) slices k with
          | Some (Ok _, k) => send_messages from header_buf ms k
          | o => o
          end
      | Some (Err e) => Some (Err e, k)
      | None => None
      end
  end.

Lemma send_messages_wire from header_buf msgs k k' :
  send_messages from header_buf msgs k = Some (Ok tt, k') ->
  Forall (fun m => Z.of_nat (length (body_bytes m)) <= u32_max) msgs /\
  wire k' = wire k ++ concat (map (fun m => frame_bytes from 0 (counted m)) msgs).
Proof using write_vectored_takes.
  revert k. induction msgs as [|m ms IH]; intros k; cbn [send_messages map concat].
  { intros [= <-]. by rewrite app_nil_r. }
  destruct (encode_message_vectored from m header_buf) as [[[buf out]|]|] eqn:E; [|done..].
  destruct (encode_vectored_Ok from 0 m header_buf buf out E) as [Hfit Hg]. unfold gather in Hg.
  destruct (write_loop_spec write_vectored wire write_vectored_takes
    (length (concat (map (slice_bytes buf) out))) (map (slice_bytes buf) out) k)
    as (r & k1 & -> & Hr); [done| |].
  { left. rewrite Hg. intros E0. apply (f_equal length) in E0. unfold frame_bytes in E0.
    by rewrite length_app, length_as_bytes in E0. }
  destruct r as [[]|]; [|done]. intros [Hms Hw]%IH. split; [by constructor|].
  by rewrite Hw, Hr, Hg, <- app_assoc.
Qed.

(** C38: Messages survive the byte stream: when a list of well-formed messages was
    sent over a connection that takes some first bytes of what it is given, and
    the bytes reach the reader in any pieces, the reader's loop ends with exactly
    one frame per message, in order, and each decodes to its message. *)
Theorem tcp_link_roundtrip from header_buf msgs k k' stream :
  is_u64 from -> Forall msg_wf msgs ->
  send_messages from header_buf msgs k = Some (Ok tt, k') ->
  Forall (fun c => c <> []) stream -> wire k' = wire k ++ concat stream ->
  exists fs, read_frames (S (length msgs)) stream [] = Some fs /\
    map decode_message fs =
    map (fun m => Ok {| im_from := from; im_group_id := 0; im_message := wire_form m |}) msgs.
Proof using write_vectored_takes.
  intros Hfrom Hwf [Hfit Hw]%send_messages_wire Hne Hs. rewrite Hw in Hs.
  apply app_inv_head in Hs.
  exists (map (fun m => frame_bytes from 0 (counted m)) msgs). split.
  - rewrite <- (length_map (fun m => frame_bytes from 0 (counted m)) msgs).
    apply (read_frames_all _ _ _ []); [|done|apply torn_nil|by rewrite app_nil_r].
    apply Forall_map. eapply Forall_impl; [exact Hfit|]. intros m Hm.
    apply frame_bytes_framed. by rewrite length_body_counted.
  - rewrite map_map. apply map_ext_in. intros m Hm%list_elem_of_In.
    pose proof (proj1 (Forall_forall _ _) Hwf m Hm) as Hmw.
    pose proof (proj1 (Forall_forall _ _) Hfit m Hm) as Hmf. cbn beta in Hmf.
    assert (counted m = m) as ->.
    { destruct m as [ | | | | |ae es| | | | | | | | ]; try done. cbn in *.
      destruct Hmw as (_ & <- & _). by destruct ae. }
    rewrite decode_frame; [by rewrite decode_body_ok|exact Hfrom|machine; lia|exact Hmf].
Qed.
End Link.

(** ** A connection that takes five bytes at a time *)

Definition slow_write (bufs : list bytes) (k : bytes) : res nat * bytes :=
  (Ok (length (take 5 (concat bufs))), k ++ take 5 (concat bufs)).

Lemma slow_write_takes bufs k r k' :
  slow_write bufs k = (r, k') ->
  match r with
  | Ok n => (n <= length (concat bufs))%nat /\ k' = k ++ take n (concat bufs)
  | Err _ => k' = k
  end.
Proof.
  intros [= <- <-]. rewrite length_take. split; [lia|]. f_equal.
  destruct (Nat.le_ge_cases 5 (length (concat bufs))).
  - by rewrite Nat.min_l.
  - by rewrite Nat.min_r, !take_ge by lia.
Qed.

(** Pieces of at most [size] bytes. *)
Fixpoint pieces (size fuel : nat) (b : bytes) : list bytes :=
  match fuel, b with
  | S fuel', _ :: _ => take size b :: pieces size fuel' (drop size b)
  | _, _ => []
  end.

Definition link_messages : list RaftMessage :=
  [ MRequestVote (vote_req 3 1 5 2); MCustom [to_byte 1; to_byte 2];
    MAppendEntriesVectored
      {| ae_term := 3; ae_leader_id := 1; ae_prev_log_index := 0; ae_prev_log_term := 0;
         ae_leader_commit := 0; ae_entry_count := 1; ae_pad := 0 |}
      [ {| e_term := 3; e_index := 1; e_payload := [to_byte 9] |} ] ].

Definition link_bytes : bytes :=
  match send_messages slow_write 1 (replicate 128 (to_byte 0)) link_messages [] with
  | Some (_, k) => k
  | None => []
  end.

Lemma link_messages_wf : Forall msg_wf link_messages.
Proof.
  repeat constructor; cbn; machine; try lia; try done; vm_compute; by repeat constructor.
Qed.

Lemma tcp_link_roundtrip_witness :
  exists fs, read_frames 4 (pieces 7 100 link_bytes) [] = Some fs /\
    map decode_message fs =
    map (fun m => Ok {| im_from := 1; im_group_id := 0; im_message := wire_form m |})
      link_messages.
Proof.
  apply (tcp_link_roundtrip slow_write (fun k => k) slow_write_takes 1
           (replicate 128 (to_byte 0)) link_messages [] link_bytes).
  - machine. lia.
  - exact link_messages_wf.
  - vm_compute. reflexivity.
  - vm_compute. repeat constructor; discriminate.
  - vm_compute. reflexivity.
Defined.
