(* ===== verification/ExampleRuns.v ===== *)
(** * ExampleRuns: what the example programs do

    The state machines, configurations and main programs of [examples/], over
    the storages of [ExampleStorage], the transports of [ExampleTransport] and
    the follower of [ExampleFollower].  [sole_voter_commits] is the main program
    of [examples/basic_raft.rs] for any payloads: every proposal of a group with
    one voter commits at once, at the next indexes. [lagging_peer_starves] is
    what a storage that refuses short buffers does to the engine. *)

From stdpp Require Import base list sets gmap strings.
From Stdlib Require Import ZArith Lia.
From S2P Require Import Prelude Types Wire Codec Arena Progress Quorum Traits Membership.
From S2P Require Import NodeState Node Samples Replication Commit Transfer Inbound Campaign Leader.
From S2P Require Import Propose Frames ExampleStorage ExampleTransport ExampleFollower.

Local Open Scope string_scope.
Local Open Scope list_scope.
Local Open Scope raft_scope.
Local Open Scope Z_scope.

(** ** State machines *)

(** [NoopSM] of the examples. *)
Inductive NoopSM := noop_sm.

#[export] Instance NoopSM_machine : StateMachine NoopSM := {
  apply_at _ _ sm := (Ok tt, sm);
  snapshot _ := Ok [];
  restore _ sm := (Ok tt, sm);
}.

(** [CountingSM] of [multiraft_driver.rs]. *)
Record CountingSM := { applied : Z }.

#[export] Instance CountingSM_machine : StateMachine CountingSM := {
  apply_at _ _ sm := (Ok tt, {| applied := applied sm + 1 |});
  snapshot _ := Ok [];
  restore _ sm := (Ok tt, sm);
}.

(** ** Configurations *)

Definition basic_config : NodeConfig := {|
  cluster_id := 1; cfg_node_id := 1; cfg_peers := [1]; cfg_learners := [];
  bootstrap_peers := [{| bp_id := 1; bp_addr := "127.0.0.1:0" |}];
  cfg_timing := TimingConfig_default; cfg_limits := LimitsConfig_default |}.

Definition make_config (addrs : string * string * string) : NodeConfig :=
  let '(a1, a2, a3) := addrs in {|
  cluster_id := 1; cfg_node_id := 1; cfg_peers := [1; 2; 3]; cfg_learners := [];
  bootstrap_peers := [{| bp_id := 1; bp_addr := a1 |}; {| bp_id := 2; bp_addr := a2 |};
                      {| bp_id := 3; bp_addr := a3 |}];
  cfg_timing := TimingConfig_default; cfg_limits := LimitsConfig_default |}.

Definition two_node_config (node_id : PeerId) : NodeConfig := {|
  cluster_id := 7; cfg_node_id := node_id; cfg_peers := [1; 2]; cfg_learners := [];
  bootstrap_peers := [{| bp_id := 1; bp_addr := "127.0.0.1:9001" |};
                      {| bp_id := 2; bp_addr := "127.0.0.1:9002" |}];
  cfg_timing := {| heartbeat_ms := 20; election_min_ms := 30000; election_max_ms := 30500 |};
  cfg_limits := LimitsConfig_default |}.

(** ** A group with one voter *)

Section SoleVoter.
  Context {S C D : Type} `{VecStorage S} `{Clock C} `{!CustomDispatch D NoopTransport}.
  Context (never : RaftError) (tuning : VecTuning).
#[local] Instance quiet : RaftTransport NoopTransport := NoopTransport_transport never.
  Implicit Types n : RaftNode S NoopTransport C D.

(** The only voter leads, its cached tip is the storage's, and nothing beyond it
    is committed. *)
Record sole_voter n : Prop := {
  sole_leads : is_leader n = true;
  sole_peers : node_peers n = [node_id n];
  sole_learners : node_learners n = [];
  sole_joint : joint_peers n = None;
  sole_transfer : pending_transfer n = None;
  sole_kept : kept (storage n);
  sole_tip : cached_last_log n = stored_last (held (storage n));
  sole_commit : commit_index n <= (cached_last_log n).1;
}.

Lemma sole_batch_indexes term i payloads :
  0 <= i -> i + Z.of_nat (length payloads) <= u64_max ->
  map e_index (batch_entries term i payloads) = seqZ i (Z.of_nat (length payloads)).
Proof.
  revert i. induction payloads as [|p ps IH]; intros i Hi Hb; [done|].
  cbn [batch_entries map length]. rewrite Nat2Z.inj_succ, seqZ_cons by lia.
  cbn [length] in Hb. f_equal. rewrite Z.pred_succ. unfold wrap_add64.
  rewrite Z.mod_small by (machine; lia). apply IH; lia.
Qed.

Lemma sole_guard n : sole_voter n -> propose_guard n = (Ok tt, n).
Proof.
  intros [Hl _ _ _ Ht _ _ _]. unfold propose_guard. rewrite bind_gets, Hl. cbn.
  unfold check_transfer_freeze, leadership_transfer_in_progress. rewrite bind_assoc, bind_gets, Ht.
  reflexivity.
Qed.

Lemma run_bind {A B} (m : M S NoopTransport C D A) (k : A -> L S NoopTransport C D B) n a n' :
  m n = (Ok a, n') -> (run m ≫= k) n = k a n'.
Proof. intros E. unfold mbind, L_bind, run. by rewrite E. Qed.

(** With one voter there is nobody to keep progress of. *)
Lemma sole_progress n :
  sole_voter n ->
  exists n', ensure_leader_progress_initialized n = (Ok tt, n') /\ sole_voter n' /\
    storage n' = storage n /\ node_term n' = node_term n /\
    cached_last_log n' = cached_last_log n.
Proof.
  intros Hs. pose proof Hs as [Hl Hp Hle Hj Ht Hk Hti Hc].
  unfold ensure_leader_progress_initialized. rewrite bind_gets.
  destruct (pm_is_empty (peer_progress n)); cbn [whenM]; [|by eauto 10].
  unfold initialize_leader_progress. rewrite !bind_modify, !bind_gets.
  change (node_peers (set_last_voter_contact ∅ (set_peer_progress [] n))) with (node_peers n).
  change (node_learners (set_last_voter_contact ∅ (set_peer_progress [] n)))
    with (node_learners n).
  change (node_id (set_last_voter_contact ∅ (set_peer_progress [] n))) with (node_id n).
  rewrite Hp, Hle. cbn [List.filter]. rewrite Z.eqb_refl. cbn.
  eexists. split; [reflexivity|]. done.
Qed.

Lemma batch_in_line term i payloads :
  0 <= i -> i + Z.of_nat (length payloads) <= u64_max ->
  in_line i (map to_stored (batch_entries term i payloads)).
Proof.
  intros Hi Hb k e. rewrite list_lookup_fmap. intros (x & Hx & ->)%fmap_Some. cbn.
  assert (Hl : map e_index (batch_entries term i payloads) !! k = Some (e_index x))
    by (by rewrite list_lookup_fmap, Hx).
  rewrite sole_batch_indexes in Hl by done. apply lookup_seqZ in Hl. lia.
Qed.

(** The entries of a batch continue the vector of the storage. *)
Lemma sole_continues n payloads :
  sole_voter n -> 0 <= (cached_last_log n).1 ->
  (cached_last_log n).1 + 1 + Z.of_nat (length payloads) <= u64_max ->
  exists b, in_line b (held (storage n) ++
    map to_stored (batch_entries (node_term n) ((cached_last_log n).1 + 1) payloads)).
Proof.
  intros Hs H0' Hb. pose proof (sole_tip n Hs) as Ht. rewrite Ht in *.
  destruct (kept_in_line _ (sole_kept n Hs)) as [b Hl].
  destruct (held (storage n)) as [|x xs] eqn:E.
  - eexists. apply batch_in_line; cbn in *; lia.
  - exists b. apply in_line_app. split; [done|].
    rewrite <- (in_line_tip b (x :: xs)) by done. apply batch_in_line; lia.
Qed.

Lemma last_seqZ i k : 0 < k -> last (seqZ i k) = Some (i + k - 1).
Proof.
  intros Hk. replace k with (Z.pred k + 1) at 1 by lia. rewrite seqZ_app by lia.
  rewrite (seqZ_cons _ 1), (seqZ_nil _ (Z.pred 1)) by lia. rewrite last_snoc. f_equal. lia.
Qed.

Lemma sole_append n payloads :
  sole_voter n -> payloads <> [] -> 0 <= (cached_last_log n).1 ->
  (cached_last_log n).1 + 1 + Z.of_nat (length payloads) <= u64_max ->
  let tip := (cached_last_log n).1 in
  let es := batch_entries (node_term n) (tip + 1) payloads in
  exists n', append_propose_entries payloads n =
      (Ok (tip + Z.of_nat (length payloads), es), n') /\
    is_leader n' = true /\ node_peers n' = [node_id n'] /\ node_learners n' = [] /\
    joint_peers n' = None /\ pending_transfer n' = None /\
    kept (storage n') /\ held (storage n') = held (storage n) ++ map to_stored es /\
    cached_last_log n' = (tip + Z.of_nat (length payloads), node_term n) /\
    node_term n' = node_term n /\ commit_index n' <= tip /\ scratch_indexes n' = map e_index es.
Proof.
  intros Hs Hne Hpos Hb tip es. pose proof Hs as [Hl Hp Hle Hj Ht Hk Hti Hc].
  assert (Hlen : 0 < Z.of_nat (length payloads)) by (destruct payloads; cbn; [done|lia]).
  unfold append_propose_entries. rewrite bind_gets, bind_modify.
  assert (sat_add64 (cached_last_log n).1 1 = tip + 1) as -> by (machine; subst tip; lia).
  fold es. assert (Hidx : map e_index es = seqZ (tip + 1) (Z.of_nat (length payloads)))
    by (apply sole_batch_indexes; lia).
  rewrite Hidx, last_seqZ, <- Hidx by lia.
  destruct (sole_continues n payloads Hs Hpos Hb) as [b Hin].
  destruct (vs_append_entries b es (storage n) Hk Hin) as (s' & Ha & Hk' & Hh & _).
  replace (tip + 1 + Z.of_nat (length payloads) - 1) with (tip + Z.of_nat (length payloads)) by lia.
  erewrite bind_Ok; [|unfold on_storage; cbn [storage set_scratch_indexes]; by rewrite Ha].
  rewrite !bind_modify. eexists. split; [reflexivity|]. split_and!; try done.
Qed.

Lemma stored_last_batch xs term i payloads :
  payloads <> [] -> 0 <= i -> i + Z.of_nat (length payloads) <= u64_max ->
  stored_last (xs ++ map to_stored (batch_entries term i payloads)) =
  (i + Z.of_nat (length payloads) - 1, term).
Proof.
  intros Hne Hi Hb. pose proof (batch_in_line term i payloads Hi Hb) as Hl.
  assert (Hlen : length (map to_stored (batch_entries term i payloads)) = length payloads).
  { rewrite length_map. clear. revert i. induction payloads; intros i; cbn; auto. }
  assert (Ht : Forall (fun e => se_term e = term) (map to_stored (batch_entries term i payloads))).
  { clear. revert i. induction payloads; intros i; cbn; constructor; auto. }
  destruct (map to_stored _) as [|e es _] using rev_ind; [by destruct payloads|].
  apply in_line_app in Hl as [_ [He _]%in_line_cons].
  apply Forall_app in Ht as [_ [Ht _]%Forall_cons]. rewrite length_app in Hlen. cbn in Hlen.
  unfold stored_last. rewrite app_assoc, last_snoc, He, Ht. f_equal. lia.
Qed.

(** After the append nobody is asked and nothing is waited for. *)
Lemma sole_sends_nothing es n :
  node_peers n = [node_id n] -> node_learners n = [] ->
  send_initial_appends tuning es n = (Ok tt, set_scratch_peers [] n).
Proof.
  intros Hp Hl. unfold send_initial_appends. rewrite bind_modify, bind_gets.
  unfold replication_targets. rewrite Hp, Hl. cbn. by rewrite Z.eqb_refl.
Qed.

Lemma sole_quorum fuel last timeout n :
  joint_peers n = None ->
  gather_quorum_acks (Datatypes.S fuel) 1 last timeout n =
  Ok (Ok 1, set_clock (clock_now (clock n)).2 n).
Proof.
  intros Hj. unfold gather_quorum_acks.
  rewrite (run_bind _ _ _ (clock_now (clock n)).1 (set_clock (clock_now (clock n)).2 n))
    by (unfold now; by destruct (clock_now (clock n))).
  cbn [gather_loop]. erewrite run_bind by reflexivity.
  unfold gather_done, propose_commit_reached. cbn [joint_peers set_clock]. by rewrite Hj.
Qed.

Lemma sole_commits term last n :
  is_leader n = true -> joint_peers n = None -> node_term n = term -> commit_index n < last ->
  commit_proposal term 1 1 last n = (Ok tt, set_commit_index last n).
Proof.
  intros Hl Hj Ht Hc. unfold commit_proposal. rewrite bind_gets. unfold commit_directly.
  rewrite Hj, Hl, Ht, Z.eqb_refl. cbn [andb Z.leb Z.compare Pos.compare Pos.compare_cont].
  rewrite bind_gets. by destruct (Z.ltb_spec (commit_index n) last); [|lia].
Qed.

Lemma sole_drains fuel n : drain_inbound_ready (Datatypes.S fuel) n = Ok (Ok tt, n).
Proof.
  cbn [drain_inbound_ready]. erewrite run_bind; [|unfold drain_recv; reflexivity].
  cbn. by destruct n.
Qed.

(** One batch. *)
Lemma sole_batch fuel payloads n :
  sole_voter n -> payloads <> [] -> 0 <= (cached_last_log n).1 ->
  (cached_last_log n).1 + 1 + Z.of_nat (length payloads) <= u64_max ->
  let tip := (cached_last_log n).1 in
  let count := Z.of_nat (length payloads) in
  exists n', propose_batch_once tuning (Datatypes.S fuel) payloads n =
      Ok (Ok (seqZ (tip + 1) count), n') /\
    sole_voter n' /\ node_term n' = node_term n /\ commit_index n' = tip + count /\ (cached_last_log n').1 = tip + count /\
    held (storage n') = held (storage n) ++
      map to_stored (batch_entries (node_term n) (tip + 1) payloads).
Proof.
  intros Hs Hne Hpos Hb tip count. unfold propose_batch_once.
  rewrite (run_bind _ _ _ _ _ (sole_guard n Hs)).
  replace (is_nil payloads) with false by (by destruct payloads).
  destruct (sole_progress n Hs) as (n1 & E1 & Hs1 & Hst & Hte & Hca).
  rewrite (run_bind _ _ _ _ _ E1).
  destruct (sole_append n1 payloads) as (n2 & E2 & Hl & Hp & Hle & Hj & Ht & Hk & Hh & Hti & Hte2 & Hc & Hsi);
    [done|done|by rewrite Hca..|].
  rewrite Hca in *. fold tip count in E2, Hh, Hti, Hc, Hsi.
  rewrite (run_bind _ _ _ _ _ E2).
  rewrite (run_bind _ _ _ _ _ (sole_sends_nothing _ n2 Hp Hle)).
  do 3 erewrite run_bind by reflexivity.
  change (votes_needed (set_scratch_peers [] n2)) with (votes_needed n2).
  replace (votes_needed n2) with 1 by (unfold votes_needed; by rewrite Hp).
  unfold mbind at 1, L_bind at 1. rewrite sole_quorum by done.
  assert (Hcount : 0 < count) by (subst count; destruct payloads; cbn; [done|lia]).
  set (n3 := set_clock _ _).
  assert (Hc3 : commit_index n3 < tip + count) by (change (commit_index n2 < tip + count); lia).
  rewrite (run_bind _ _ _ _ _ (sole_commits _ (tip + count) n3 Hl Hj eq_refl Hc3)).
  erewrite run_bind by reflexivity. cbn [commit_index set_commit_index soft_state ss_commit_index
    set_soft_state set_commit_index_pub].
  rewrite Z.ltb_irrefl. unfold mbind at 1, L_bind at 1. rewrite sole_drains.
  eexists. split.
  { unfold run, gets. cbn. rewrite Hsi. by rewrite sole_batch_indexes by lia. }
  split_and!; [|by rewrite <- Hte|done|by cbn; rewrite Hti|by cbn; rewrite Hh, Hst, Hte].
  constructor; try done.
  - cbn. rewrite Hti, Hh, stored_last_batch by (done || lia). f_equal. lia.
  - cbn. by rewrite Hti.
Qed.

(** Batches one after the other, the indexes of each. *)
Fixpoint propose_batches (fuel : nat) (batches : list (list bytes))
  : L S NoopTransport C D (list (list LogIndex)) :=
  match batches with
  | [] => mret []
  | b :: bs =>
      indexes ← propose_batch_once tuning fuel b;
      rest ← propose_batches fuel bs;
      mret (indexes :: rest)
  end.

(** The indexes the batches get after index [tip]. *)
Fixpoint index_ranges (tip : LogIndex) (batches : list (list bytes)) : list (list LogIndex) :=
  match batches with
  | [] => []
  | b :: bs =>
      seqZ (tip + 1) (Z.of_nat (length b)) :: index_ranges (tip + Z.of_nat (length b)) bs
  end.

(** A group with one voter commits what is proposed to it: over any of the
    example storages and the transport without peers, batches proposed one after
    the other get the indexes after the log's last one, in order and without a
    gap; when the calls have returned, all payloads are stored, in order, and
    committed.  One round of fuel is enough. *)
Theorem sole_voter_commits fuel batches n :
  sole_voter n -> Forall (fun b => b <> []) batches -> 0 <= (cached_last_log n).1 ->
  (cached_last_log n).1 + 1 + Z.of_nat (length (concat batches)) <= u64_max ->
  commit_index n = (cached_last_log n).1 ->
  exists n', propose_batches (Datatypes.S fuel) batches n =
      Ok (Ok (index_ranges (cached_last_log n).1 batches), n') /\
    commit_index n' = (cached_last_log n).1 + Z.of_nat (length (concat batches)) /\
    map se_payload (held (storage n')) =
    map se_payload (held (storage n)) ++ concat batches.
Proof.
  revert n. induction batches as [|b bs IH]; intros n Hs Hne Hpos Hb Hc.
  { exists n. cbn. rewrite app_nil_r. split_and!; [done|lia|done]. }
  apply Forall_cons in Hne as [Hb0 Hne]. cbn [concat] in Hb. rewrite length_app in Hb.
  destruct (sole_batch fuel b n) as (n1 & E1 & Hs1 & Hte & Hc1 & Ht1 & Hh); [done|done|done|lia|].
  destruct (IH n1 Hs1 Hne) as (n' & E' & Hc' & Hh'); [lia|lia|lia|].
  exists n'. cbn [propose_batches index_ranges concat]. unfold mbind, L_bind.
  rewrite E1, E', Ht1. split_and!; [done|rewrite length_app; lia|].
  rewrite Hh', Hh, map_app, <- app_assoc. do 2 f_equal.
  rewrite map_map. clear. generalize ((cached_last_log n).1 + 1).
  induction b as [|p ps IH]; intros i; [done|]. cbn. by rewrite IH.
Qed.
End SoleVoter.

(** ** [basic_raft.rs] *)

Section BasicMain.
  Context {C D : Type} `{Clock C} `{!CustomDispatch D NoopTransport}.
  Context (never : RaftError) (tuning : VecTuning).
#[local] Instance quiet_basic : RaftTransport NoopTransport := NoopTransport_transport never.
  #[local] Abbreviation L := (L BasicStorage NoopTransport C D).

(** The body of [main] after the construction of the node: two proposals and a
    batch. *)
Definition basic_proposals (fuel : nat) : L (LogIndex * LogIndex * list LogIndex) :=
  idx_a ← propose_once tuning fuel (String.list_byte_of_string "entry-a");
  idx_b ← propose_once tuning fuel (String.list_byte_of_string "entry-b");
  indexes ← propose_batch_once tuning fuel
    [String.list_byte_of_string "batch-1"; String.list_byte_of_string "batch-2"; String.list_byte_of_string "batch-3"];
  mret (idx_a, idx_b, indexes).

(** [main]; [None] when an [unwrap] panics. *)
Definition basic_main (fuel : nat) (ck : C) (disp : D)
  : option (LogIndex * LogIndex * list LogIndex) :=
  match node_new basic_config BasicStorage_default noop_transport ck disp with
  | Ok n =>
      match basic_proposals fuel (become_leader_for_benchmark 1 n).2 with
      | Ok (Ok r, _) => Some r
      | _ => None
      end
  | Err _ => None
  end.

(** The node [main] proposes to: leading, with an empty log. *)
Lemma basic_node_leads (ck : C) (disp : D) :
  exists n : RaftNode BasicStorage NoopTransport C D, node_new basic_config BasicStorage_default noop_transport ck disp = Ok n /\
    sole_voter (become_leader_for_benchmark 1 n).2 /\
    (cached_last_log (become_leader_for_benchmark 1 n).2).1 = 0 /\
    commit_index (become_leader_for_benchmark 1 n).2 = 0 /\
    storage (become_leader_for_benchmark 1 n).2 = BasicStorage_default.
Proof.
  unfold node_new. replace (validate_node_config basic_config) with (Ok tt : res unit) by reflexivity.
  cbn [load_hard_state last_log_position load_snapshot_meta BasicStorage_storage
    basic_last_log_position default_load_snapshot_meta basic_load_snapshot].
  generalize (replicate (Z.to_nat (1024 * 1024)) (to_byte 0)), (arena_new (Z.to_nat 8192)).
  intros out arena. eexists. split; [reflexivity|].
  split; [|split_and!; reflexivity]. constructor; try reflexivity. by exists 0.
Qed.

(** The main program of [basic_raft.rs] prints indexes 1 and 2 for its two
    proposals and 3, 4 and 5 for its batch. *)
Lemma basic_main_indexes fuel (ck : C) (disp : D) :
  basic_main (Datatypes.S fuel) ck disp = Some (1, 2, [3; 4; 5]).
Proof.
  unfold basic_main. destruct (basic_node_leads ck disp) as (n & -> & Hs & Ht & Hc & _).
  set (n0 := (become_leader_for_benchmark 1 n).2) in *. unfold basic_proposals, propose_once.
  destruct (sole_batch never tuning fuel [String.list_byte_of_string "entry-a"] n0)
    as (n1 & E1 & Hs1 & _ & Hc1 & Ht1 & _); [done|done|lia|rewrite Ht; machine; cbn; lia|].
  destruct (sole_batch never tuning fuel [String.list_byte_of_string "entry-b"] n1)
    as (n2 & E2 & Hs2 & _ & Hc2 & Ht2 & _); [done|done|cbn in *; lia|machine; cbn in *; lia|].
  destruct (sole_batch never tuning fuel [String.list_byte_of_string "batch-1";
    String.list_byte_of_string "batch-2"; String.list_byte_of_string "batch-3"] n2)
    as (n3 & E3 & _); [done|done|cbn in *; lia|machine; cbn in *; lia|].
  cbn [length] in *. rewrite Ht2, Ht1, Ht in E3. rewrite Ht1, Ht in E2. rewrite Ht in E1.
  unfold quiet in E1, E2, E3. unfold quiet_basic, mbind, L_bind, mret, L_ret.
  rewrite E1. change (seqZ (0 + 1) (Z.of_nat 1)) with [1]. cbv iota beta.
  rewrite E2. change (seqZ (0 + Z.of_nat 1 + 1) (Z.of_nat 1)) with [2]. cbv iota beta.
  by rewrite E3.
Qed.
End BasicMain.

(** The node of [main] with small buffers. *)
Definition sole_sample : RaftNode BasicStorage NoopTransport TickClock unit := {|
  config := basic_config; storage := BasicStorage_default; transport := noop_transport;
  clock := {| tick_now := 0; tick_step := 1 |}; dispatch := tt;
  hard_state := {| current_term := 1; voted_for := None |};
  soft_state := {| ss_leader_id := Some 1; ss_is_leader := true; ss_role := Leader;
                   ss_commit_index := 0 |};
  peer_progress := []; joint_peers := None; pending_snapshots := ∅; snapshot_attempts := ∅;
  log_metadata := arena_new 16; scratch_indexes := []; scratch_pending := [];
  last_voter_contact := ∅; scratch_outbound := [];
  cached_last_log := (0, 0); snapshot_boundary := (0, 0);
  commit_index_pub := 0; metrics := RaftMetrics_default; last_applied := 0;
  compaction_debt_entries := 0; compaction_debt_bytes := 0; last_leader_contact := None;
  pending_transfer := None; forced_campaign_term := None; read_probe_seq := 0;
  scratch_peers := [] |}.

Lemma sole_voter_commits_witness :
  let batches := [[[to_byte 1]]; [[to_byte 2]; [to_byte 3]]] in
  exists n', @propose_batches _ _ _ _ _ unit_dispatch NoQuorum VecTuning_default 1 batches
      sole_sample = Ok (Ok [[1]; [2; 3]], n') /\
    commit_index n' = 3 /\
    map se_payload (bs_entries (storage n')) = [[to_byte 1]; [to_byte 2]; [to_byte 3]].
Proof.
  destruct (sole_voter_commits NoQuorum VecTuning_default 0
    [[[to_byte 1]]; [[to_byte 2]; [to_byte 3]]] sole_sample) as (n' & E & Hc & Hh).
  - constructor; try reflexivity. by exists 0.
  - repeat constructor; discriminate.
  - vm_compute. discriminate.
  - vm_compute. discriminate.
  - reflexivity.
  - exists n'. split; [exact E|]. split; [exact Hc|exact Hh].
Defined.

(** ** A peer that lags behind a strict storage *)

Section Lagging.
  Context {S T C D : Type} `{StrictBuffer S} `{RaftTransport T} `{Clock C} `{!CustomDispatch D T}.
  Implicit Types n : RaftNode S T C D.

Lemma strict_read_fails from n :
  kept (storage n) ->
  PAYLOAD_SCRATCH < stored_bytes (List.filter (in_range from u64_max) (held (storage n))) ->
  exists e, on_storage (read_entries from u64_max PAYLOAD_SCRATCH) n = (Err e, n).
Proof.
  intros Hk Hbig. destruct (strict_read from u64_max PAYLOAD_SCRATCH (storage n) Hk) as [e He].
  { split; [by vm_compute|done]. }
  exists e. unfold on_storage. rewrite He. by destruct n.
Qed.

(** C33: two ways to reach a peer fail when its missing entries are together larger
    than the read buffer of 16 MiB and the leader's storage refuses a short buffer:
    an append attempt ([send_append_attempt], on every retry of a proposal or a
    catch-up) returns an error before anything is handed to the transport, and the
    bare heartbeat ([send_bare_heartbeat]) returns Ok without sending anything. *)
Theorem lagging_peer_starves peer prev prev_term next n n1 :
  append_prev_for_peer peer n = (Ok (prev, prev_term, next), n1) ->
  is_leader n = true -> pm_is_empty (peer_progress n) = false -> kept (storage n1) ->
  PAYLOAD_SCRATCH < stored_bytes (List.filter (in_range next u64_max) (held (storage n1))) ->
  (exists e, send_append_attempt peer n = (Err e, n1)) /\
  send_bare_heartbeat peer n = (Ok tt, n1) /\ transport n1 = transport n.
Proof.
  intros E Hl Hp Hk Hbig. destruct (strict_read_fails next n1 Hk Hbig) as [e He].
  split_and!.
  - exists e. unfold send_append_attempt. rewrite (bind_Ok _ _ _ _ _ E).
    rewrite (bind_Ok _ _ n1 (Ok None) n1).
    2:{ unfold attempt, on_storage. rewrite vs_read_entry_headers. by destruct n1. }
    rewrite bind_gets. unfold send_entries_read. by rewrite (bind_Err _ _ _ _ _ He).
  - unfold send_bare_heartbeat. rewrite (bind_Ok _ _ n (Err e) n1); [done|].
    unfold attempt, build_heartbeat_wire. rewrite bind_gets, Hl. cbn [negb].
    unfold ensure_leader_progress_initialized. rewrite bind_assoc, bind_gets, Hp. cbn [whenM].
    rewrite bind_ret, (bind_Ok _ _ _ _ _ E), (bind_Err _ _ _ _ _ He). done.
  - assert (Hkeep : keeps transport (append_prev_for_peer peer : M S T C D _))
      by (unfold append_prev_for_peer, term_at; keeps_auto).
    specialize (Hkeep n). by rewrite E in Hkeep.
Qed.
End Lagging.

(** A leader with 300 entries of 60000 bytes whose peer has none. *)
Definition large_entry (i : LogIndex) : StoredEntry :=
  {| se_term := 1; se_index := i; se_payload := replicate (Z.to_nat 60000) (to_byte 0) |}.

Definition large_storage : InmemStorage :=
  {| im_base_index := 1; im_entries := map large_entry (seqZ 1 300);
     im_hard_state := {| current_term := 1; voted_for := None |} |}.

Definition lagged_leader : RaftNode InmemStorage QueueTransport TickClock unit :=
  set_peer_progress [(2, {| match_index := 0; next_index := 1 |})]
    (set_is_leader true (set_role Leader
       (sample_over large_storage (300, 1) 1 [1; 2] {| current_term := 1; voted_for := None |}))).

Lemma large_entries_total l : stored_bytes (map large_entry l) = 60000 * Z.of_nat (length l).
Proof.
  induction l as [|i l IH]; [done|]. cbn [map length].
  change (stored_bytes (large_entry i :: map large_entry l))
    with (se_len (large_entry i) + stored_bytes (map large_entry l)).
  rewrite IH. unfold se_len, large_entry. cbn [se_payload]. rewrite length_replicate. lia.
Qed.

Lemma large_storage_kept : kept large_storage.
Proof.
  right. intros k e. cbn [im_entries im_base_index large_storage]. rewrite list_lookup_fmap.
  intros (i & Hi & ->)%fmap_Some. apply lookup_seqZ in Hi. cbn [se_index large_entry]. lia.
Qed.

Lemma large_storage_backlog :
  stored_bytes (List.filter (in_range 1 u64_max) (held large_storage)) = 18000000.
Proof.
  cbn [held InmemStorage_vec im_entries large_storage]. rewrite forallb_filter_id.
  - by rewrite large_entries_total, length_seqZ.
  - apply forallb_forall. intros e (i & <- & Hi)%in_map_iff.
    apply list_elem_of_In, elem_of_seqZ in Hi. unfold in_range. cbn [se_index large_entry].
    apply andb_true_iff. split; [apply Z.leb_le|apply Z.ltb_lt; machine]; lia.
Qed.

Lemma lagging_peer_starves_witness :
  (exists e, send_append_attempt 2 lagged_leader = (Err e, lagged_leader)) /\
  send_bare_heartbeat 2 lagged_leader = (Ok tt, lagged_leader) /\
  transport lagged_leader = transport lagged_leader.
Proof.
  apply (lagging_peer_starves 2 0 0 1 lagged_leader lagged_leader).
  - reflexivity.
  - reflexivity.
  - reflexivity.
  - exact large_storage_kept.
  - change (storage lagged_leader) with large_storage. rewrite large_storage_backlog.
    vm_compute. reflexivity.
Defined.

(** ** [inmem_throughput.rs] *)

(** The task of a follower on the frames its channel gives it: the answers it
    sends and its state; [None] when it panics. *)
Fixpoint run_channel_follower (my_id : PeerId) (frames : list bytes) (state : PeerState)
  : option (list bytes * PeerState) :=
  match frames with
  | [] => Some ([], state)
  | f :: fs =>
      match follower_handle_frame my_id f state with
      | None => None
      | Some (resp, state) =>
          match run_channel_follower my_id fs state with
          | None => None
          | Some (resps, state) => Some (option_list resp ++ resps, state)
          end
      end
  end.

(** The leader's transport with the follower tasks at the other ends of its
    channels.  The tasks run whenever the leader waits, and not when it only
    looks ([try_recv]). *)
Record LiveChannel := {
  lc_channel : ChannelTransport;
  lc_followers : list (PeerId * PeerState);
}.

Definition frames_for (p : PeerId) (l : list (PeerId * bytes)) : list bytes :=
  map snd (List.filter (fun x => x.1 =? p) l).

(** Every follower handles what is in its channel; a follower that panics is
    gone. *)
Definition run_tasks (t : LiveChannel) : LiveChannel :=
  let c := lc_channel t in
  let ran := omap (fun pf => (fun rs => (pf.1, rs)) <$>
               run_channel_follower pf.1 (frames_for pf.1 (ct_accepted c)) pf.2)
             (lc_followers t) in
  {| lc_channel :=
       {| ct_inbound := {| rx_frames := rx_frames (ct_inbound c) ++ concat (map (fun x => x.2.1) ran);
                           rx_closed := is_nil ran |};
          ct_peers := ct_peers c; ct_accepted := [] |};
     lc_followers := map (fun x => (x.1, x.2.2)) ran |}.

Definition on_channel {A} (op : ChannelTransport -> res A * ChannelTransport) (t : LiveChannel)
  : res A * LiveChannel :=
  let '(r, c) := op (lc_channel t) in (r, {| lc_channel := c; lc_followers := lc_followers t |}).

#[export] Instance LiveChannel_transport : RaftTransport LiveChannel := {
  send_vectored peer slices := on_channel (channel_send_vectored peer slices);
  send_frame_owned peer frame := on_channel (channel_send_frame peer frame);
  recv_frame len t := on_channel (channel_recv_frame NoQuorum len) (run_tasks t);
  recv_frame_timeout timeout len t :=
    on_channel (channel_recv_frame_timeout timeout len) (if timeout =? 0 then t else run_tasks t);
}.

Definition make_inmem_cluster : res (RaftNode InmemStorage LiveChannel TickClock unit) :=
  let transport :=
    {| lc_channel := {| ct_inbound := {| rx_frames := []; rx_closed := false |};
                        ct_peers := <[2 := true]> {[3 := true]}; ct_accepted := [] |};
       lc_followers := [(2, PeerState_new); (3, PeerState_new)] |} in
  let? node := node_new (make_config ("127.0.0.1:9101", "127.0.0.1:9102", "127.0.0.1:9103"))
                 InmemStorage_new transport {| tick_now := 0; tick_step := 1 |} tt in
  Ok (become_leader_for_benchmark 1 node).2.

(** [k] proposals of the same payload, each of which must commit. *)
Fixpoint propose_times {T} `{RaftTransport T} (k : nat) (payload : bytes)
  (n : RaftNode InmemStorage T TickClock unit)
  : option (list LogIndex * RaftNode InmemStorage T TickClock unit) :=
  match k with
  | O => Some ([], n)
  | S k' =>
      match propose_once VecTuning_default 100 payload n with
      | Ok (Ok i, n) =>
          (fun isn => (i :: isn.1, isn.2)) <$> propose_times k' payload n
      | _ => None
      end
  end.

(** [main]: ten commits to warm up, then [n]; the indexes of all. *)
Definition inmem_main (n : nat) (payload_bytes : Z) : option (list LogIndex) :=
  let payload := replicate (Z.to_nat payload_bytes) (to_byte 0xAA) in
  match make_inmem_cluster with
  | Ok node =>
      match propose_times 10 payload node with
      | Some (warm, node) =>
          match propose_times n payload node with
          | Some (timed, _) => Some (warm ++ timed)
          | None => None
          end
      | None => None
      end
  | Err _ => None
  end.

(** Every proposal reaches its quorum, at the next index. *)
Lemma inmem_main_commits : inmem_main 5 16 = Some (seqZ 1 15).
Proof. vm_compute. reflexivity. Qed.
