(* ===== verification/ExampleTcpRun.v ===== *)
(** * ExampleTcpRun: the cluster over sockets

    The follower task, the receiving task and the main program of
    [examples/tcp_throughput.rs].  Whatever the pieces a socket hands out, the
    follower task does what the one of [examples/inmem_throughput.rs] does on the
    frames ([tcp_follower_as_channel]), and the program commits the same indexes
    ([tcp_main_commits]). *)

From stdpp Require Import base list sets gmap strings.
From Stdlib Require Import ZArith Lia.
From S2P Require Import Prelude Types Wire Codec Arena Progress Quorum Traits Membership.
From S2P Require Import NodeState Node Samples Replication Commit Transfer Inbound Campaign Leader.
From S2P Require Import Propose Frames ExampleStorage ExampleTransport ExampleFollower ExampleTcp.
From S2P Require Import ExampleRuns.

Local Open Scope string_scope.
Local Open Scope list_scope.
Local Open Scope raft_scope.
Local Open Scope Z_scope.

(** ** What the file shares with [examples/inmem_throughput.rs]

    The storage, the follower, the receiving side and the configuration are the
    same text in both files. *)
Definition TcpStorage : Type := InmemStorage.
Definition TcpStorage_storage : RaftStorage TcpStorage := InmemStorage_storage.
Definition TcpPeerState : Type := PeerState.
Definition tcp_process_append := process_append.
Definition tcp_encode_resp_frame := encode_resp_frame.
Definition tcp_follower_handle_frame := follower_handle_frame.
Definition tcp_inbound_recv := inbound_recv.
Definition tcp_inbound_recv_timeout := inbound_recv_timeout.
Definition tcp_config := make_config.

(** ** The follower task *)

Section Task.
  Context {K : Type} (write_all : bytes -> K -> res unit * K).

(** [run_tcp_follower] once the connections stand: [stream] is what the reads
    return, [buf] what is read and not yet used, [leader_conn] the connection to
    the leader.  A write that fails ends the task. *)
Fixpoint run_tcp_follower (fuel : nat) (my_id : PeerId) (stream : list bytes) (buf : bytes)
  (state : PeerState) (leader_conn : K) : result (PeerState * bytes * K) Stop :=
  match fuel with
  | O => Err OutOfFuel
  | S fuel' =>
      match read_frame_into stream buf with
      | (None, (_, buf)) => Ok (state, buf, leader_conn)
      | (Some frame, (stream, buf)) =>
          match tcp_follower_handle_frame my_id frame state with
          | None => Err Panicked
          | Some (None, state) => run_tcp_follower fuel' my_id stream buf state leader_conn
          | Some (Some resp, state) =>
              match write_all resp leader_conn with
              | (Err _, leader_conn) => Ok (state, buf, leader_conn)
              | (Ok _, leader_conn) =>
                  run_tcp_follower fuel' my_id stream buf state leader_conn
              end
          end
      end
  end.

(** ** The task on frames *)

Context (wire : K -> bytes).
Hypothesis write_all_writes : forall b k, exists k',
  write_all b k = (Ok tt, k') /\ wire k' = wire k ++ b.

(** While its writes succeed, the task does what the follower does on the frames
    themselves, whatever the pieces they come in: it ends in the same state,
    having written the same answers, with the bytes of an unfinished frame kept.
    Where the follower panics, so does the task. *)
Lemma tcp_follower_as_channel my_id fs tl stream buf state k :
  Forall framed fs -> torn tl -> Forall (fun c => c <> []) stream ->
  buf ++ concat stream = concat fs ++ tl ->
  match run_channel_follower my_id fs state with
  | Some (resps, state') =>
      exists k', run_tcp_follower (S (length fs)) my_id stream buf state k = Ok (state', tl, k') /\
                 wire k' = wire k ++ concat resps
  | None => run_tcp_follower (S (length fs)) my_id stream buf state k = Err Panicked
  end.
Proof using write_all_writes.
  intros Hfs Ht. revert stream buf state k. induction Hfs as [|f fs Hf _ IH];
    intros stream buf state k Hne E.
  - cbn [length run_tcp_follower run_channel_follower concat app] in *. rewrite <- E in Ht.
    rewrite read_frame_into_torn by done. exists k. by rewrite E, app_nil_r.
  - cbn [concat] in E. rewrite <- app_assoc in E.
    destruct (read_frame_into_framed _ _ _ _ Hf Hne E) as (stream' & buf' & Hr & Hne' & E').
    cbn [length]. remember (S (length fs)) as fuel. cbn [run_tcp_follower run_channel_follower].
    rewrite Hr. unfold tcp_follower_handle_frame.
    destruct (follower_handle_frame my_id f state) as [[[resp|] state1]|]; [| |done].
    + destruct (write_all_writes resp k) as (k1 & -> & Hw). specialize (IH stream' buf' state1 k1 Hne' E').
      destruct (run_channel_follower my_id fs state1) as [[resps state2]|]; [|done].
      destruct IH as (k' & Hrun & Hk). exists k'. rewrite Hrun, Hk, Hw. cbn. by rewrite <- app_assoc.
    + specialize (IH stream' buf' state1 k Hne' E').
      by destruct (run_channel_follower my_id fs state1) as [[resps state2]|].
Qed.

End Task.

(** The task of the leader that reads one connection: the frames it hands to the
    inbound channel while the channel takes them, and its buffer. *)
Fixpoint demux_task (fuel : nat) (stream : list bytes) (buf : bytes) (inbound : list bytes)
  : option (list bytes * bytes) :=
  match fuel with
  | O => None
  | S fuel' =>
      match read_frame_into stream buf with
      | (None, (_, buf)) => Some (inbound, buf)
      | (Some frame, (stream, buf)) => demux_task fuel' stream buf (inbound ++ [frame])
      end
  end.

(** ** The cluster *)

(** A connection of the leader with the follower task behind it: the bytes
    written and not yet read, the buffer and the state of the follower, and the
    buffer of the task that reads its answers. *)
Record TcpPeer := {
  tp_conn : bytes;
  tp_buf : bytes;
  tp_state : PeerState;
  tp_demux_buf : bytes;
}.

Definition TcpPeer_new : TcpPeer :=
  {| tp_conn := []; tp_buf := []; tp_state := PeerState_new; tp_demux_buf := [] |}.

Record LiveTcp := {
  lt_inbound : Receiver;
  lt_conns : gmap Z TcpPeer;
}.

Section Pieces.
  (** The sockets take and give at most [piece] bytes at a time. *)
  Context (piece : nat).

Definition piece_write (bufs : list bytes) (p : TcpPeer) : res nat * TcpPeer :=
  let w := take piece (concat bufs) in
  (Ok (length w), {| tp_conn := tp_conn p ++ w; tp_buf := tp_buf p; tp_state := tp_state p;
                     tp_demux_buf := tp_demux_buf p |}).

Definition whole_write (frame : bytes) (p : TcpPeer) : res unit * TcpPeer :=
  (Ok tt, {| tp_conn := tp_conn p ++ frame; tp_buf := tp_buf p; tp_state := tp_state p;
             tp_demux_buf := tp_demux_buf p |}).

(** One follower and the task that reads its answers, run until both wait; a
    follower that panics is gone, and sends to it fail. *)
Definition run_peer (id : PeerId) (p : TcpPeer) : option (list bytes * TcpPeer) :=
  let n := S (length (tp_conn p)) in
  match run_tcp_follower (fun resp k => (Ok tt, k ++ resp)) n id (pieces piece n (tp_conn p)) (tp_buf p)
          (tp_state p) [] with
  | Err _ => None
  | Ok (state, buf, answers) =>
      let m := S (length answers) in
      match demux_task m (pieces piece m answers) (tp_demux_buf p) [] with
      | None => None
      | Some (frames, dbuf) =>
          Some (frames, {| tp_conn := []; tp_buf := buf; tp_state := state; tp_demux_buf := dbuf |})
      end
  end.

Definition run_peers (t : LiveTcp) : LiveTcp :=
  let ran := omap (fun ip => (fun r => (ip.1, r)) <$> run_peer ip.1 ip.2)
               (map_to_list (lt_conns t)) in
  {| lt_inbound := {| rx_frames := rx_frames (lt_inbound t) ++ concat (map (fun x => x.2.1) ran);
                      rx_closed := false |};
     lt_conns := list_to_map (map (fun x => (x.1, x.2.2)) ran) |}.

Definition on_conns {A} (t : LiveTcp) (r : option (res A * gmap Z TcpPeer)) : res A * LiveTcp :=
  match r with
  | Some (r, conns) => (r, {| lt_inbound := lt_inbound t; lt_conns := conns |})
  | None => (Err NoQuorum, t)
  end.

Definition on_inbound {A} (op : Receiver -> res A * Receiver) (t : LiveTcp) : res A * LiveTcp :=
  let '(r, rx) := op (lt_inbound t) in (r, {| lt_inbound := rx; lt_conns := lt_conns t |}).

(** [TcpTransport].  The tasks run whenever the leader waits. *)
#[local] Instance LiveTcp_transport : RaftTransport LiveTcp := {
  send_vectored peer slices t :=
    on_conns t (tcp_send_vectored piece_write (length (concat slices)) peer slices (lt_conns t));
  send_frame_owned peer frame t := on_conns t (tcp_send_frame_owned whole_write peer frame (lt_conns t));
  recv_frame len t := on_inbound (tcp_inbound_recv NoQuorum len) (run_peers t);
  recv_frame_timeout timeout len t :=
    on_inbound (tcp_inbound_recv_timeout timeout len) (if timeout =? 0 then t else run_peers t);
}.

Definition make_tcp_cluster : res (RaftNode TcpStorage LiveTcp TickClock unit) :=
  let transport := {| lt_inbound := {| rx_frames := []; rx_closed := false |};
                      lt_conns := <[2 := TcpPeer_new]> {[3 := TcpPeer_new]} |} in
  let? node := node_new (tcp_config ("127.0.0.1:40001", "127.0.0.1:40002", "127.0.0.1:40003"))
                 InmemStorage_new transport {| tick_now := 0; tick_step := 1 |} tt in
  Ok (become_leader_for_benchmark 1 node).2.

(** [main]: ten commits to warm up, then [n]; the indexes of all. *)
Definition tcp_main (n : nat) (payload_bytes : Z) : option (list LogIndex) :=
  let payload := replicate (Z.to_nat payload_bytes) (to_byte 0xAA) in
  match make_tcp_cluster with
  | Ok node =>
      match propose_times 10 payload node with
      | Some (warm, node) => (fun tn => warm ++ tn.1) <$> propose_times n payload node
      | None => None
      end
  | Err _ => None
  end.

End Pieces.

(** Every proposal reaches its quorum, whether the sockets pass large pieces or
    seven bytes at a time. *)
Lemma tcp_main_commits :
  tcp_main 4096 5 16 = Some (seqZ 1 15) /\ tcp_main 7 1 16 = Some (seqZ 1 11).
Proof. vm_compute. split; reflexivity. Qed.
