(* ===== verification/ExampleMultiRaft.v ===== *)
(** * ExampleMultiRaft: two processes that host three groups each

    The main program of [examples/multiraft_driver.rs]: two drivers over the two
    ends of an in-process link, three groups on each; the first process is
    elected leader of every group and commits 2, 4 and 6 entries, and the state
    machines of the second converge to the same counts.

    The second process is a task of its own.  A call of the first driver runs
    against the frames that reach its end until the call returns; [exchange]
    finds them: it runs the call without answers to learn what it sends, lets the
    second driver answer, and runs the call again with the answers in its
    receiver.  It fails when the second run sent anything else first, so an
    exchange is an execution of the two processes. *)

From stdpp Require Import base list sets gmap strings.
From Stdlib Require Import ZArith Lia.
From S2P Require Import Prelude Types Wire Codec Traits Membership NodeState Node Propose.
From S2P Require Import Multiplex Registry Driver ExampleStorage ExampleTransport ExampleRuns.

Local Open Scope string_scope.
Local Open Scope list_scope.
Local Open Scope raft_scope.
Local Open Scope Z_scope.

#[local] Instance net_transport : RaftTransport NetTransport := NetTransport_transport NoQuorum.
#[local] Instance net_laws : TransportLaws NetTransport := NetTransport_laws NoQuorum.

#[local] Abbreviation Process :=
  (MultiRaftDriver HostedStorage NetTransport TickClock unit CountingSM).

Definition GROUPS : list (GroupId * nat) := [(1, 2%nat); (2, 4%nat); (3, 6%nat)].

(** A step that must succeed. *)
Definition expect {X A} (r : result (res A * X) Stop) : option (A * X) :=
  match r with Ok (Ok a, x) => Some (a, x) | _ => None end.

(** The groups of a process with node id [id]. *)
Definition host_groups (id : PeerId) (p : Process) : option Process :=
  foldl (fun o g =>
    match o with
    | None => None
    | Some p =>
        snd <$> expect (add_group g.1 (two_node_config id) HostedStorage_default
                          {| applied := 0 |} {| tick_now := 0; tick_step := 1 |} tt p)
    end) (Some p) GROUPS.

Definition process (id peer : PeerId) : option Process :=
  host_groups id (driver_new (net_end peer) {| tick_now := 0; tick_step := 20 |}).

Definition on_net (f : NetTransport -> NetTransport) (p : Process) : Process :=
  dr_set_inner (f (dr_inner p)) p.

Definition sent_by (p : Process) : list bytes := map snd (nt_accepted (dr_inner p)).

Definition clear_sent (p : Process) : Process :=
  on_net (fun t => {| nt_peers := nt_peers t; nt_rx := nt_rx t; nt_accepted := [] |}) p.

(** Frames reach the receiver of a process. *)
Definition receive_frames (fs : list bytes) (p : Process) : Process :=
  on_net (fun t => set_nt_rx {| rx_frames := rx_frames (nt_rx t) ++ fs;
                                rx_closed := rx_closed (nt_rx t) |} t) p.

Definition group_order : list GroupId := map fst GROUPS.

(** The loop of the second process, for two turns. *)
Definition answer (b : Process) : option Process :=
  match expect (driver_run_once 100 group_order 5 b) with
  | Some (_, b) => snd <$> expect (driver_run_once 100 group_order 5 b)
  | None => None
  end.

Definition exchange {A} (op : Process -> result (res A * Process) Stop) (a b : Process)
  : option (A * Process * Process) :=
  match op a with
  | Err _ => None
  | Ok (_, a0) =>
      match answer (receive_frames (sent_by a0) b) with
      | None => None
      | Some b1 =>
          match expect (op (receive_frames (sent_by b1) a)) with
          | None => None
          | Some (x, a1) =>
              let asked := length (sent_by a0) in
              if decide (take asked (sent_by a1) = sent_by a0) then
                Some (x, clear_sent a1,
                      receive_frames (drop asked (sent_by a1)) (clear_sent b1))
              else None
          end
      end
  end.

(** [i.to_le_bytes()] *)
Definition payload_of (i : nat) : bytes := le_bytes 8 (Z.of_nat i).

(** The proposals of a group; each must get the next index. *)
Fixpoint propose_group (gid : GroupId) (k i : nat) (ab : Process * Process)
  : option (Process * Process) :=
  match k with
  | O => Some ab
  | S k' =>
      match exchange (driver_propose VecTuning_default 100 gid (payload_of i)) ab.1 ab.2 with
      | Some (idx, a, b) =>
          if idx =? Z.of_nat i + 1 then propose_group gid k' (S i) (a, b) else None
      | None => None
      end
  end.

(** Elections and proposals, group by group. *)
Definition elect_and_propose (ab : Process * Process) : option (Process * Process) :=
  foldl (fun o g =>
    match o with
    | None => None
    | Some ab =>
        match exchange (driver_campaign 100 g.1) ab.1 ab.2 with
        | Some (true, a, b) => propose_group g.1 g.2 0 (a, b)
        | _ => None
        end
    end) (Some ab) GROUPS.

Definition applied_counts (p : Process) : list (option Z) :=
  map (fun g => (fun e => applied (ge_sm e)) <$> dr_groups p !! g.1) GROUPS.

Definition wanted : list (option Z) := map (fun g => Some (Z.of_nat g.2)) GROUPS.

(** The first process runs until the second has applied everything, at most [k]
    turns; in the source the bound is ten seconds. *)
Fixpoint pump (k : nat) (ab : Process * Process) : option (Process * Process) :=
  match k with
  | O => None
  | S k' =>
      match exchange (driver_run_once 100 group_order 5) ab.1 ab.2 with
      | Some (_, a, b) => if decide (applied_counts b = wanted) then Some (a, b) else pump k' (a, b)
      | None => None
      end
  end.

(** What [main] prints of a group: whether it leads, its commit index, the
    entries applied and the scratch memory an idle group holds. *)
Definition report (p : Process) : list (option (bool * LogIndex * Z * nat)) :=
  map (fun g =>
    (fun e => (is_leader (ge_node e), commit_index (ge_node e), applied (ge_sm e),
               length (scratch_outbound (ge_node e)))) <$> dr_groups p !! g.1) GROUPS.

Definition multiraft_main (turns : nat)
  : option (list (option (bool * LogIndex * Z * nat)) * list (option Z) * Z) :=
  match process 1 2, process 2 1 with
  | Some a, Some b =>
      match elect_and_propose (a, b) with
      | Some ab =>
          (fun ab => (report ab.1, applied_counts ab.2, dr_unknown ab.1)) <$> pump turns ab
      | None => None
      end
  | _, _ => None
  end.

(** The program ends: every election is won, every proposal gets the index the
    program asserts, the first process leads all groups with everything applied
    and no scratch memory in idle groups, the second converges to the same
    counts, and no frame was for an unknown group. *)
Lemma multiraft_main_converges :
  multiraft_main 10 =
  Some ([Some (true, 2, 2, 0%nat); Some (true, 4, 4, 0%nat); Some (true, 6, 6, 0%nat)],
        [Some 2; Some 4; Some 6], 0).
Proof. vm_compute. reflexivity. Qed.
