(* ===== verification/ExampleDispatch.v ===== *)
(** * ExampleDispatch: a command with a typed answer

    The main program of [examples/dispatch_rpc.rs]: the only voter of a group
    registers a handler for a command, dispatches the command to itself and waits
    for the answer.  A [String] is the list of its UTF-8 bytes, on which
    [from_utf8_lossy] is the identity. *)

From stdpp Require Import base list sets gmap strings.
From Stdlib Require Import ZArith Lia.
From S2P Require Import Prelude Types Wire Codec Traits Membership NodeState Node.
From S2P Require Import DispatchTx DispatchFrames CustomRegistry NodeDispatch.
From S2P Require Import ExampleStorage ExampleTransport ExampleRuns.

Local Open Scope string_scope.
Local Open Scope list_scope.
Local Open Scope Z_scope.

#[local] Instance quiet_transport : RaftTransport NoopTransport := NoopTransport_transport NoQuorum.

(** The file has its own copy of the storage and the transport of
    [examples/basic_raft.rs]. *)
Definition RpcStorage : Type := BasicStorage.
Definition RpcStorage_storage : RaftStorage RpcStorage := BasicStorage_storage.
Definition RpcTransport_transport : RaftTransport NoopTransport := quiet_transport.

(** [ping], at [epoch]: the specification and the first value of its counter. *)
Definition ping (epoch : Z) : DispatchSpec bytes bytes * Z :=
  (spec_new 0x01 (fun s => Ok s) (fun b => Ok b) (fun s => Ok s) (fun b => Ok b) epoch).1.

(** The handler: the question with a prefix. *)
Definition pong (question : bytes) (u : unit) : Behaviour unit :=
  ctx_accept_bytes (String.list_byte_of_string "pong: " ++ question) (fun r => Return r u).

(** [main] with the question as an argument: the states of the peers in the
    result; [None] when an [unwrap] panics or the wait does not end at its first
    poll. *)
Definition dispatch_main (epoch : Z) (question : bytes)
  : option (list (PeerId * DispatchPeerState bytes)) :=
  let ck := {| tick_now := 0; tick_step := 1 |} in
  match node_new basic_config BasicStorage_default noop_transport ck
          (dispatch_new custom_registry_new tt ck) with
  | Err _ => None
  | Ok n =>
      let n := (become_leader_for_benchmark 1 n).2 in
      let '(spec, seq) := ping epoch in
      let spec := with_ack_policy AckAll (with_scope ScopeLocalOnly spec) in
      match node_on_with plain_display spec pong n with
      | (Err _, _) => None
      | (Ok _, n) =>
          match node_dispatch_start spec question seq n with
          | (Ok loc, _, n) =>
              match tx_at loc (nd_txs (dispatch n)) with
              | None => None
              | Some tx =>
                  match (poll_wait 0 (tick_now (nd_clock (dispatch n))) false tx).1 with
                  | Some (Ok result) =>
                      Some (map (fun s => (sl_peer s, sl_state s)) (rs_peers result))
                  | _ => None
                  end
              end
          | _ => None
          end
      end
  end.

(** The program prints the answer of its one peer. *)
Lemma dispatch_main_answers :
  dispatch_main 3 (String.list_byte_of_string "hello from leader") =
  Some [(1, PsAccepted (String.list_byte_of_string "pong: hello from leader"))].
Proof. vm_compute. reflexivity. Qed.
