(* ===== verification/ExampleSeeds.v ===== *)
(** * ExampleSeeds: headers as one block, payloads by reference

    The two ways [examples/seed_experiment.rs] lays out a batch of entries: an
    arena whose headers are sent as one block beside the payloads, and a list of
    entries encoded one after the other.  The iterators of the codec read the same
    entries from both. *)

From stdpp Require Import base list.
From Stdlib Require Import ZArith Lia.
From S2P Require Import Prelude Types Wire Codec CodecFacts.

Local Open Scope Z_scope.

(** ** The arena *)

Record SeededArena := {
  sa_headers : list EntryHeader;
  sa_data : bytes;
  sa_payload_offsets : list (nat * nat);
}.

(** One turn of the loop of [SeededArena::new]. *)
Definition arena_push (payload_size : nat) (a : SeededArena) (i : nat) : SeededArena :=
  {| sa_headers := sa_headers a ++ [{| eh_term := 1; eh_index := Z.of_nat i;
       eh_payload_len := Z.of_nat payload_size mod 2 ^ 32; eh_pad := 0 |}];
     sa_data := sa_data a ++ replicate payload_size Byte.xaa;
     sa_payload_offsets := sa_payload_offsets a ++ [(length (sa_data a), payload_size)] |}.

Definition SeededArena_new (count payload_size : nat) : SeededArena :=
  foldl (arena_push payload_size) {| sa_headers := []; sa_data := []; sa_payload_offsets := [] |}
    (seq 0 count).

Definition get_seeds (a : SeededArena) : bytes * list bytes :=
  (concat (map as_bytes (sa_headers a)),
   map (fun ol => take ol.2 (drop ol.1 (sa_data a))) (sa_payload_offsets a)).

(** ** The list of entries *)

Definition ErgonomicStore_new (count : nat) (payload : bytes) : list LogEntry :=
  map (fun i => {| e_term := 1; e_index := Z.of_nat i; e_payload := payload |}) (seq 0 count).

(** The encoding loop of [main] over the entries of the store. *)
Definition ergonomic_encode (entries : list LogEntry) : bytes :=
  foldl (fun dummy_buf e =>
           let h := {| eh_term := e_term e; eh_index := e_index e;
                       eh_payload_len := Z.of_nat (length (e_payload e)) mod 2 ^ 32; eh_pad := 0 |} in
           (dummy_buf ++ as_bytes h) ++ e_payload e) [] entries.

(** ** What they hold *)

Definition seed_header (size i : nat) : EntryHeader :=
  {| eh_term := 1; eh_index := Z.of_nat i; eh_payload_len := Z.of_nat size mod 2 ^ 32; eh_pad := 0 |}.

Lemma SeededArena_new_eq count size :
  SeededArena_new count size =
  {| sa_headers := map (seed_header size) (seq 0 count);
     sa_data := replicate (count * size) Byte.xaa;
     sa_payload_offsets := map (fun i => (i * size, size)%nat) (seq 0 count) |}.
Proof.
  unfold SeededArena_new. induction count as [|count IH]; [done|].
  rewrite seq_S, foldl_app, IH, !map_app. cbn [foldl map]. unfold arena_push.
  cbn [sa_headers sa_data sa_payload_offsets]. rewrite length_replicate, <- replicate_add.
  by replace (S count * size)%nat with (count * size + size)%nat by lia.
Qed.

(** The payloads of the arena: one of [size] bytes for each entry. *)
Lemma arena_payloads count size :
  (get_seeds (SeededArena_new count size)).2 = replicate count (replicate size Byte.xaa).
Proof.
  rewrite SeededArena_new_eq. unfold get_seeds. cbn [snd sa_payload_offsets sa_data].
  apply list_eq_same_length with count;
    rewrite ?length_replicate, ?length_map, ?length_seq; [done..|].
  intros i x y Hi Hx Hy. rewrite !list_lookup_fmap in Hx.
  rewrite lookup_seq_lt in Hx by done. apply lookup_replicate in Hy as [-> _].
  cbn in Hx. injection Hx as <-.
  rewrite drop_replicate, take_replicate. f_equal. nia.
Qed.

Lemma ergonomic_encode_app acc entries :
  foldl (fun dummy_buf e =>
           let h := {| eh_term := e_term e; eh_index := e_index e;
                       eh_payload_len := Z.of_nat (length (e_payload e)) mod 2 ^ 32; eh_pad := 0 |} in
           (dummy_buf ++ as_bytes h) ++ e_payload e) acc entries
  = acc ++ ergonomic_encode entries.
Proof.
  unfold ergonomic_encode. revert acc. induction entries as [|e entries IH]; intros acc; cbn [foldl].
  - by rewrite app_nil_r.
  - rewrite IH, (IH (_ ++ e_payload e)). by rewrite <- !app_assoc.
Qed.

(** The headers and payloads of a batch of [count] copies of [payload]. *)
Definition batch_items (count : nat) (payload : bytes) : list (EntryHeader * bytes) :=
  map (fun i => (seed_header (length payload) i, payload)) (seq 0 count).

Lemma ergonomic_encode_block count payload :
  ergonomic_encode (ErgonomicStore_new count payload) = block_bytes (batch_items count payload).
Proof.
  unfold ErgonomicStore_new, batch_items. generalize 0%nat at 1 2 as s.
  induction count as [|count IH]; intros s; [done|]. cbn [seq map].
  unfold ergonomic_encode. cbn [foldl]. rewrite ergonomic_encode_app, IH.
  unfold block_bytes. cbn [map concat]. unfold item_bytes at 2. cbn [fst snd].
  by rewrite <- !app_assoc.
Qed.

Lemma batch_items_ok count payload :
  Z.of_nat count <= 2 ^ 64 -> Z.of_nat (length payload) < 2 ^ 32 ->
  Forall item_ok (batch_items count payload).
Proof.
  intros Hc Hp. apply Forall_map, Forall_seq. intros i Hi.
  split; cbn [fst snd seed_header eh_payload_len]; unfold seed_header;
    rewrite ?(Z.mod_small (Z.of_nat (length payload))) by lia; [|done].
  unfold wire_wf. cbn. split; [wire_fields; lia|done].
Qed.

Lemma arena_items count size :
  get_seeds (SeededArena_new count size) =
  (header_block (map fst (batch_items count (replicate size Byte.xaa))),
   map snd (batch_items count (replicate size Byte.xaa))).
Proof.
  rewrite (surjective_pairing (get_seeds _)), arena_payloads, SeededArena_new_eq.
  unfold get_seeds, batch_items, header_block. cbn [fst sa_headers].
  rewrite !map_map, length_replicate. f_equal. cbn [snd].
  generalize 0%nat. induction count as [|c IH]; intros s; [done|]. cbn. by rewrite <- IH.
Qed.

(** For every batch, the raw iterator over the two parts of the arena and the
    entry iterator over the encoded list yield the same entries: those of the
    list. *)
Theorem seeds_carry_entries count size :
  Z.of_nat count <= 2 ^ 64 -> Z.of_nat size < 2 ^ 32 ->
  let entries := ErgonomicStore_new count (replicate size Byte.xaa) in
  let '(headers, payloads) := get_seeds (SeededArena_new count size) in
  map item_entry (raw_iter headers (Contiguous (concat payloads))) = entries /\
  entry_iter (ergonomic_encode entries) count = entries.
Proof.
  intros Hc Hs entries. rewrite arena_items.
  assert (Hok : Forall item_ok (batch_items count (replicate size Byte.xaa))).
  { apply batch_items_ok; [done|]. by rewrite length_replicate. }
  assert (He : map item_entry (batch_items count (replicate size Byte.xaa)) = entries).
  { unfold batch_items. by rewrite map_map. }
  split; [by rewrite raw_iter_of_items|].
  unfold entries at 1. rewrite ergonomic_encode_block, <- He.
  rewrite <- entry_iter_block by done. unfold batch_items. by rewrite length_map, length_seq.
Qed.
