(* ===== verification/SeededStorage.v ===== *)
(** * SeededStorage: the storages with the zero-copy path

    [SeededMemStorage] of [benches/tcp_raft_bench.rs] and of
    [benches/memory_e2e_bench.rs]: the headers of the entries in one vector, their
    payloads one after the other in another, and where each payload lies.  They
    are the only storages of the repository that implement the seeded path, reads
    and appends of a block of headers with payloads by reference.

    The storage of the TCP benchmark answers every call, seeded and plain, as a
    log does ([seeded_storage_refines]).  The one of the in-memory benchmark has
    the same appends, but its truncation drops the payload of the last entry it
    keeps, and below its first index it answers with another entry.

    Slices out of range panic: the operations that slice return [None] then.  The
    handles of the sources are [Arc]s of mutexes; the model is their content. *)

From stdpp Require Import base list sets gmap strings.
From Stdlib Require Import ZArith Lia.
From S2P Require Import Prelude Types Wire Codec Traits ExampleStorage.

Local Open Scope string_scope.
Local Open Scope list_scope.
Local Open Scope raft_scope.
Local Open Scope Z_scope.

Record SeededMemStorage := {
  sm_base_index : Z;
  sm_headers : list EntryHeader;
  sm_data : bytes;
  sm_payload_offsets : list (nat * nat);
  sm_hard_state : HardState;
}.

Definition SeededMemStorage_new : SeededMemStorage :=
  {| sm_base_index := 0; sm_headers := []; sm_data := []; sm_payload_offsets := [];
     sm_hard_state := {| current_term := 1; voted_for := None |} |}.

(** ** Appends *)

(** The body of the loops: the payload, the header and where the payload is. *)
Definition push_item (s : SeededMemStorage) (hp : EntryHeader * bytes) : SeededMemStorage :=
  {| sm_base_index := sm_base_index s;
     sm_headers := sm_headers s ++ [hp.1];
     sm_data := sm_data s ++ hp.2;
     sm_payload_offsets := sm_payload_offsets s ++ [(length (sm_data s), length hp.2)];
     sm_hard_state := sm_hard_state s |}.

(** The first index, stored when the first entry arrives. *)
Definition rebase (first : Z) (s : SeededMemStorage) : SeededMemStorage :=
  {| sm_base_index := if sm_headers s is [] then first else sm_base_index s;
     sm_headers := sm_headers s; sm_data := sm_data s;
     sm_payload_offsets := sm_payload_offsets s; sm_hard_state := sm_hard_state s |}.

Definition header_of_entry (e : LogEntry) : EntryHeader :=
  {| eh_term := e_term e; eh_index := e_index e;
     eh_payload_len := Z.of_nat (length (e_payload e)) mod 2 ^ 32; eh_pad := 0 |}.

Definition seeded_append_entries (new : list LogEntry) (s : SeededMemStorage)
  : res unit * SeededMemStorage :=
  match new with
  | [] => (Ok tt, s)
  | e :: _ =>
      (Ok tt, foldl push_item (rebase (e_index e) s)
                (map (fun e => (header_of_entry e, e_payload e)) new))
  end.

Definition seeded_append_entries_seeded (hs : list EntryHeader) (ps : list bytes)
  (s : SeededMemStorage) : res unit * SeededMemStorage :=
  let s := if hs is h :: _ then rebase (eh_index h) s else s in
  (Ok tt, foldl push_item s (zip hs ps)).

Definition seeded_save_hard_state (h : HardState) (s : SeededMemStorage)
  : res unit * SeededMemStorage :=
  (Ok tt, {| sm_base_index := sm_base_index s; sm_headers := sm_headers s;
             sm_data := sm_data s; sm_payload_offsets := sm_payload_offsets s;
             sm_hard_state := h |}).

(** ** Reads *)

(** [data[off..off + len]], [None] out of range. *)
Definition payload_slice (s : SeededMemStorage) (i : nat) : option bytes :=
  match sm_payload_offsets s !! i with
  | Some (off, len) =>
      if (off + len <=? length (sm_data s))%nat then Some (take len (drop off (sm_data s)))
      else None
  | None => None
  end.

Definition item_at (s : SeededMemStorage) (i : nat) : option LogEntry :=
  h ← sm_headers s !! i;
  p ← payload_slice s i;
  Some {| e_term := eh_term h; e_index := eh_index h; e_payload := p |}.

(** [index.saturating_sub(base) as usize] *)
Definition position (index : LogIndex) (s : SeededMemStorage) : Z :=
  sat_sub index (sm_base_index s).

(** [position + 1], capped at [cap]. *)
Definition end_position (index : LogIndex) (cap : nat) (s : SeededMemStorage) : Z :=
  Z.min (wrap_add64 (position index s) 1) (Z.of_nat cap).

(** [start..end] *)
Definition range (start finish : Z) : list nat :=
  seq (Z.to_nat start) (Z.to_nat finish - Z.to_nat start).

(** The payload buffer is not used: entries borrow from the storage. *)
Definition seeded_read_entries (from to : LogIndex) (buf : Z) (s : SeededMemStorage)
  : option (res (list LogEntry)) :=
  if is_nil (sm_headers s) then Some (Ok [])
  else
    let finish := Z.min (position to s) (Z.of_nat (length (sm_headers s))) in
    out ← mapM (item_at s) (range (position from s) finish);
    Some (Ok out).

Definition seeded_read_entry_headers (from max : LogIndex) (s : SeededMemStorage)
  : res (option (list EntryHeader)) * SeededMemStorage :=
  let len := length (sm_headers s) in
  if is_nil (sm_headers s) then (Ok None, s)
  else
    let start := position from s in
    if Z.of_nat len <=? start then (Ok None, s)
    else
      let finish := end_position max len s in
      if start <? finish
      then (Ok (Some (take (Z.to_nat (finish - start)) (drop (Z.to_nat start) (sm_headers s)))), s)
      else (Ok None, s).

Definition seeded_for_each_payload (from to : LogIndex) (s : SeededMemStorage)
  : option (res (list bytes)) :=
  ps ← mapM (payload_slice s)
         (range (position from s) (end_position to (length (sm_payload_offsets s)) s));
  Some (Ok ps).

Definition seeded_entry_at (index : LogIndex) (buf : Z) (s : SeededMemStorage)
  : option (res (option LogEntry)) :=
  if is_nil (sm_headers s) || (index <? sm_base_index s) then Some (Ok None)
  else
    let pos := Z.to_nat (index - sm_base_index s) in
    match sm_headers s !! pos with
    | Some _ => e ← item_at s pos; Some (Ok (Some e))
    | None => Some (Ok None)
    end.

Definition seeded_last_log_position (s : SeededMemStorage)
  : res (LogIndex * Term) * SeededMemStorage :=
  (Ok (match last (sm_headers s) with Some h => (eh_index h, eh_term h) | None => (0, 0) end), s).

(** ** Truncation *)

Definition seeded_truncate_suffix (from : LogIndex) (s : SeededMemStorage)
  : option (res unit * SeededMemStorage) :=
  if is_nil (sm_headers s) then Some (Ok tt, s)
  else
    let cut := Z.to_nat (position from s) in
    if (cut <? length (sm_headers s))%nat then
      '(data_cut, _) ← sm_payload_offsets s !! cut;
      let kept := take cut (sm_headers s) in
      Some (Ok tt, {| sm_base_index := if kept is [] then 0 else sm_base_index s;
                      sm_headers := kept; sm_data := take data_cut (sm_data s);
                      sm_payload_offsets := take cut (sm_payload_offsets s);
                      sm_hard_state := sm_hard_state s |})
    else Some (Ok tt, s).

(** ** The storage *)

(** A panic ends the process; the interface has no such outcome.  The operations
    never panic on the states the storage reaches. *)
Definition unless_panic {A} (o : option (res A)) (s : SeededMemStorage)
  : res A * SeededMemStorage := (default (Err (StorageErr "panic")) o, s).

Definition seeded_load_snapshot (s : SeededMemStorage)
  : res (option (SnapshotMeta * bytes)) * SeededMemStorage := (Ok None, s).

#[export] Instance SeededMemStorage_storage : RaftStorage SeededMemStorage := {
  load_hard_state s := (Ok (sm_hard_state s), s);
  save_hard_state := seeded_save_hard_state;
  append_entries := seeded_append_entries;
  append_entries_seeded := seeded_append_entries_seeded;
  read_entries from to buf s := unless_panic (seeded_read_entries from to buf s) s;
  read_entry_headers := seeded_read_entry_headers;
  for_each_payload from to s := unless_panic (seeded_for_each_payload from to s) s;
  entry_at index buf s := unless_panic (seeded_entry_at index buf s) s;
  storage_term_at := default_term_at (fun index buf s => unless_panic (seeded_entry_at index buf s) s);
  last_log_position := seeded_last_log_position;
  truncate_suffix from s := default (Err (StorageErr "panic"), s) (seeded_truncate_suffix from s);
  truncate_before := default_truncate_before;
  save_snapshot _ _ s := (Ok tt, s);
  load_snapshot := seeded_load_snapshot;
  load_snapshot_meta := default_load_snapshot_meta seeded_load_snapshot;
}.

(** ** What an arena holds *)

(** Where the payloads lie when they start at [off]. *)
Fixpoint lay (off : nat) (ps : list bytes) : list (nat * nat) :=
  match ps with
  | [] => []
  | p :: ps' => (off, length p) :: lay (off + length p) ps'
  end.

Definition stored_header (e : StoredEntry) : EntryHeader := header_of_entry (of_stored e).

Record packed (s : SeededMemStorage) (es : list StoredEntry) : Prop := {
  pk_headers : sm_headers s = map stored_header es;
  pk_data : sm_data s = concat (map se_payload es);
  pk_offsets : sm_payload_offsets s = lay 0 (map se_payload es);
}.

(** The first index is that of the first entry. *)
Definition based (s : SeededMemStorage) (es : list StoredEntry) : Prop :=
  es = [] \/ (1 <= sm_base_index s /\ in_line (sm_base_index s) es).

Lemma lay_app off ps qs : lay off (ps ++ qs) = lay off ps ++ lay (off + length (concat ps)) qs.
Proof.
  revert off. induction ps as [|p ps IH]; intros off; cbn; [by rewrite Nat.add_0_r|].
  rewrite IH, length_app. by replace (off + length p + length (concat ps))%nat
    with (off + (length p + length (concat ps)))%nat by lia.
Qed.

Lemma length_lay off ps : length (lay off ps) = length ps.
Proof. revert off. induction ps as [|p ps IH]; intros off; cbn; [done|]. by rewrite IH. Qed.

Lemma lay_take off ps k : take k (lay off ps) = lay off (take k ps).
Proof.
  revert off k. induction ps as [|p ps IH]; intros off [|k]; cbn; [done..|]. by rewrite IH.
Qed.

Lemma lay_lookup off ps i :
  lay off ps !! i = (fun p => ((off + length (concat (take i ps)))%nat, length p)) <$> ps !! i.
Proof.
  revert off i. induction ps as [|p ps IH]; intros off [|i]; cbn; [done..|by rewrite Nat.add_0_r|].
  rewrite IH. destruct (ps !! i); [|done]. cbn. rewrite length_app. f_equal. f_equal. lia.
Qed.

Lemma concat_lookup (ps : list bytes) i p :
  ps !! i = Some p ->
  take (length p) (drop (length (concat (take i ps))) (concat ps)) = p /\
  (length (concat (take i ps)) + length p <= length (concat ps))%nat.
Proof.
  intros Hi. rewrite <- (take_drop_middle ps i p Hi) at 2 4. rewrite concat_app. cbn.
  rewrite drop_app_length, take_app_length, !length_app. split; [done|lia].
Qed.

Section Packed.
Context (s : SeededMemStorage) (es : list StoredEntry) (Hp : packed s es).

Lemma packed_length :
  length (sm_headers s) = length es /\ length (sm_payload_offsets s) = length es.
Proof.
  destruct Hp as [-> _ ->]. by rewrite length_lay, !length_map.
Qed.

Lemma packed_nil : is_nil (sm_headers s) = is_nil es.
Proof. destruct Hp as [-> _ _]. by destruct es. Qed.

Lemma packed_slice i : payload_slice s i = se_payload <$> es !! i.
Proof.
  unfold payload_slice. destruct Hp as [_ -> ->]. rewrite lay_lookup, list_lookup_fmap.
  destruct (es !! i) as [e|] eqn:E; [|done]. cbn -[Nat.leb].
  assert (Hi : map se_payload es !! i = Some (se_payload e)) by (by rewrite list_lookup_fmap, E).
  destruct (concat_lookup _ _ _ Hi) as [-> Hl]. by destruct (Nat.leb_spec (length (concat
    (take i (map se_payload es))) + length (se_payload e)) (length (concat (map se_payload es)))); [|lia].
Qed.

Lemma packed_item i : item_at s i = of_stored <$> es !! i.
Proof.
  unfold item_at. rewrite packed_slice. destruct Hp as [-> _ _]. rewrite list_lookup_fmap.
  by destruct (es !! i) as [[]|].
Qed.
End Packed.

(** ** The operations on an arena *)

Lemma packed_push s es e :
  packed s es -> packed (push_item s (stored_header e, se_payload e)) (es ++ [e]).
Proof.
  intros [Hh Hd Ho]. split; cbn; rewrite ?Hh, ?Hd, ?Ho, map_app; [done| |].
  - rewrite concat_app. cbn. by rewrite app_nil_r.
  - by rewrite lay_app.
Qed.

Lemma packed_pushes s es new :
  packed s es ->
  packed (foldl push_item s (map (fun e => (header_of_entry e, e_payload e)) new))
    (es ++ map to_stored new).
Proof.
  revert s es. induction new as [|e new IH]; intros s es Hp; cbn; [by rewrite app_nil_r|].
  rewrite cons_middle, app_assoc. apply IH.
  pose proof (packed_push s es (to_stored e) Hp) as Hp'. by destruct e.
Qed.

Lemma pushes_keep s items :
  sm_base_index (foldl push_item s items) = sm_base_index s /\
  sm_hard_state (foldl push_item s items) = sm_hard_state s.
Proof. revert s. induction items as [|hp items IH]; intros s; [done|]. cbn. by destruct (IH (push_item s hp)) as [-> ->]. Qed.

Lemma packed_rebase i s es : packed s es -> packed (rebase i s) es.
Proof. by intros []. Qed.

Lemma based_append s es e new b :
  packed s es -> based s es -> 1 <= e_index e ->
  in_line b (es ++ map to_stored (e :: new)) ->
  forall items, based (foldl push_item (rebase (e_index e) s) items) (es ++ map to_stored (e :: new)).
Proof.
  intros Hp Hb He Hl items. right. destruct (pushes_keep (rebase (e_index e) s) items) as [-> _].
  cbn [rebase sm_base_index]. rewrite (pk_headers _ _ Hp). destruct es as [|x es]; cbn [map].
  - split; [done|]. cbn in Hl |- *. apply in_line_cons in Hl as [<- Hl]. by apply in_line_cons.
  - destruct Hb as [|[H1 Hb]]; [done|]. split; [done|]. cbn in Hl |- *.
    apply in_line_cons in Hb as [<- _]. apply in_line_cons in Hl as [<- Hl]. by apply in_line_cons.
Qed.

(** Slices by position. *)
Lemma mapM_slice {A B} (f : nat -> option B) (g : A -> B) (l : list A) a k :
  (forall i, f i = g <$> l !! i) -> (k = 0 \/ a + k <= length l)%nat ->
  mapM f (seq a k) = Some (map g (take k (drop a l))).
Proof.
  intros Hf. revert a. induction k as [|k IH]; intros a Hk; [done|]. cbn [seq mapM].
  destruct Hk as [|Hk]; [done|]. rewrite Hf. destruct (lookup_lt_is_Some_2 l a) as [x Hx]; [lia|].
  rewrite Hx. cbn. rewrite IH by lia. cbn. by rewrite (drop_S l x a Hx).
Qed.

(** The positions of [from .. to), and the entries there. *)
Lemma range_entries s es from to b :
  in_line b es -> b = sm_base_index s ->
  let finish := Z.min (sat_sub to b) (Z.of_nat (length es)) in
  (forall (B : Type) (f : nat -> option B) (g : StoredEntry -> B), (forall i, f i = g <$> es !! i) ->
     mapM f (range (position from s) finish) = Some (map g (List.filter (in_range from to) es))) /\
  (position from s < finish ->
   take (Z.to_nat (finish - position from s)) (drop (Z.to_nat (position from s)) es) =
   List.filter (in_range from to) es) /\
  (finish <= position from s -> List.filter (in_range from to) es = []).
Proof.
  intros Hl -> finish. rewrite (range_slice (sm_base_index s)) by done. unfold position.
  set (a := sat_sub from (sm_base_index s)). set (z := sat_sub to (sm_base_index s)) in *.
  assert (Ha : 0 <= a) by (unfold a, sat_sub; lia). assert (Hz : 0 <= z) by (unfold z, sat_sub; lia).
  assert (Hcut : take (Z.to_nat (z - a)) (drop (Z.to_nat a) es) =
                 take (Z.to_nat finish - Z.to_nat a) (drop (Z.to_nat a) es)).
  { unfold finish. destruct (Z.le_ge_cases z (Z.of_nat (length es))).
    - rewrite Z.min_l by done. f_equal. lia.
    - rewrite Z.min_r by done. rewrite !take_ge; [done|rewrite length_drop; lia..]. }
  split_and!.
  - intros B f g Hf. unfold range. rewrite (mapM_slice f g es) by (done || (unfold finish; lia)).
    by rewrite Hcut.
  - intros Hlt. rewrite Hcut. f_equal. lia.
  - intros Hge. rewrite Hcut. by replace (Z.to_nat finish - Z.to_nat a)%nat with 0%nat by lia.
Qed.

Definition arena (s : SeededMemStorage) (es : list StoredEntry) : Prop :=
  packed s es /\ based s es.

Section Arena.
Context (s : SeededMemStorage) (es : list StoredEntry) (Hs : arena s es).

Lemma arena_read from to buf :
  seeded_read_entries from to buf s =
  Some (Ok (map of_stored (List.filter (in_range from to) es))).
Proof.
  destruct Hs as [Hp Hb]. unfold seeded_read_entries. rewrite (packed_nil s es Hp).
  destruct (packed_length s es Hp) as [-> _].
  destruct Hb as [->|[_ Hl]]; [done|]. destruct (is_nil es) eqn:E; [by destruct es|].
  destruct (range_entries s es from to _ Hl eq_refl) as (Hm & _).
  unfold position at 2. by rewrite (Hm _ _ of_stored (packed_item s es Hp)).
Qed.

(** The position after [to], when [to] is not below the first entry. *)
Lemma arena_end to cap :
  es <> [] -> sm_base_index s <= to -> is_u64 to ->
  end_position to cap s = Z.min (sat_sub (to + 1) (sm_base_index s)) (Z.of_nat cap).
Proof.
  intros Hne Ht Hu. destruct Hs as [_ [|[H1 _]]]; [done|]. unfold end_position, position, wrap_add64, sat_sub.
  unfold is_u64 in Hu. rewrite Z.mod_small by (machine; lia). f_equal. lia.
Qed.

Lemma arena_headers from to :
  (es <> [] -> sm_base_index s <= to) -> is_u64 to ->
  seeded_read_entry_headers from to s =
  (Ok (match List.filter (in_range from (to + 1)) es with
       | [] => None
       | l => Some (map stored_header l)
       end), s).
Proof.
  intros Ht Hu. destruct Hs as [Hp Hb]. unfold seeded_read_entry_headers.
  rewrite (packed_nil s es Hp). destruct (packed_length s es Hp) as [-> _].
  destruct Hb as [->|[_ Hl]]; [done|]. destruct (is_nil es) eqn:E; [by destruct es|].
  assert (Hne : es <> []) by (by destruct es). rewrite arena_end by auto.
  destruct (range_entries s es from (to + 1) _ Hl eq_refl) as (_ & Hin & Hout). cbv zeta in Hin, Hout.
  set (finish := Z.min _ _) in *. destruct (Z.leb_spec (Z.of_nat (length es)) (position from s)).
  { rewrite Hout; [done|]. unfold finish. lia. }
  destruct (Z.ltb_spec (position from s) finish) as [Hlt|Hge]; [|by rewrite Hout].
  rewrite <- Hin by done. rewrite (pk_headers s es Hp), <- fmap_drop, <- fmap_take.
  destruct (take _ _) eqn:F; [|done]. exfalso.
  assert (length (take (Z.to_nat (finish - position from s)) (drop (Z.to_nat (position from s)) es)) = 0%nat)
    as Hlen by (by rewrite F). rewrite length_take, length_drop in Hlen. unfold finish in *. 
  unfold position, sat_sub in *. lia.
Qed.

Lemma arena_payloads_of from to :
  (es <> [] -> sm_base_index s <= to) -> is_u64 to ->
  seeded_for_each_payload from to s =
  Some (Ok (map se_payload (List.filter (in_range from (to + 1)) es))).
Proof.
  intros Ht Hu. destruct Hs as [Hp Hb]. unfold seeded_for_each_payload.
  destruct (packed_length s es Hp) as [_ ->].
  assert (Hd : es = [] \/ es <> []) by (destruct es; auto). destruct Hd as [E|Hne].
  - rewrite E. unfold range, end_position. cbn [length].
    by replace (Z.to_nat (Z.min _ (Z.of_nat 0)) - _)%nat with 0%nat by lia.
  - destruct Hb as [|[_ Hl]]; [done|]. rewrite arena_end by auto.
    destruct (range_entries s es from (to + 1) _ Hl eq_refl) as (Hm & _).
    by rewrite (Hm _ _ se_payload (packed_slice s es Hp)).
Qed.

Lemma arena_entry i buf :
  seeded_entry_at i buf s = Some (Ok (of_stored <$> positioned (sm_base_index s) es i)).
Proof.
  destruct Hs as [Hp Hb]. unfold seeded_entry_at, positioned. rewrite (packed_nil s es Hp).
  destruct (is_nil es) eqn:E; cbn [orb].
  { destruct es; [|done]. by destruct (_ <? _). }
  destruct (_ <? _); [done|]. rewrite (packed_item s es Hp), (pk_headers s es Hp), list_lookup_fmap.
  by destruct (es !! _).
Qed.

Lemma arena_last : seeded_last_log_position s = (Ok (stored_last es), s).
Proof.
  destruct Hs as [Hp _]. unfold seeded_last_log_position, stored_last.
  rewrite (pk_headers s es Hp), fmap_last. by destruct (last es).
Qed.

Lemma arena_truncate from :
  exists s', seeded_truncate_suffix from s = Some (Ok tt, s') /\
    arena s' (List.filter (fun e => se_index e <? from) es) /\ sm_hard_state s' = sm_hard_state s.
Proof.
  destruct Hs as [Hp Hb]. unfold seeded_truncate_suffix. rewrite (packed_nil s es Hp).
  assert (Hd : es = [] \/ is_nil es = false /\ es <> []) by (destruct es; auto).
  destruct Hd as [E|[-> Hne]].
  { exists s. rewrite E in *. split; [done|]. split; [split; [done|by left]|done]. }
  destruct Hb as [|[H1 Hl]]; [done|]. destruct (packed_length s es Hp) as [-> _].
  rewrite (prefix_slice (sm_base_index s)) by done. unfold position.
  set (cut := Z.to_nat (sat_sub from (sm_base_index s))).
  destruct (Nat.ltb_spec cut (length es)) as [Hlt|Hge].
  2:{ exists s. rewrite take_ge by done. split; [done|]. split; [|done]. split; [done|]. by right. }
  destruct (lookup_lt_is_Some_2 es cut Hlt) as [e He].
  rewrite (pk_offsets s es Hp), lay_lookup, list_lookup_fmap, He. cbn.
  eexists. split; [reflexivity|]. cbn. split; [|done]. split.
  - split; cbn.
    + by rewrite (pk_headers s es Hp), fmap_take.
    + rewrite (pk_data s es Hp), <- fmap_take, <- (take_drop cut es), !map_app, concat_app.
      rewrite take_app_length'; [by rewrite take_app_length' by (rewrite length_take; lia)|].
      by rewrite take_app_length' by (rewrite length_take; lia).
    + by rewrite lay_take, fmap_take.
  - rewrite (pk_headers s es Hp), <- fmap_take. destruct (take cut es) as [|x l] eqn:F; [by left|right].
    cbn. split; [done|]. rewrite <- F. by apply in_line_take.
Qed.
End Arena.

(** ** Refinement of the reference storage *)

#[export] Instance EntryHeader_eq_dec : EqDecision EntryHeader.
Proof. solve_decision. Defined.

(** The calls of an engine that uses the seeded path. *)
Inductive SeededCall :=
| PlainCall (c : Call)
| CallAppendSeeded (hs : list EntryHeader) (ps : list bytes)
| CallForEachPayload (from to : LogIndex).

Inductive SeededAnswer :=
| PlainAnswer (a : Answer)
| AnswerPayloads (r : res (list bytes)).

Definition serve_seeded (c : SeededCall) (s : SeededMemStorage) : SeededAnswer * SeededMemStorage :=
  match c with
  | PlainCall c => let '(a, s') := serve c s in (PlainAnswer a, s')
  | CallAppendSeeded hs ps =>
      let '(r, s') := append_entries_seeded hs ps s in (PlainAnswer (AnswerUnit r), s')
  | CallForEachPayload from to =>
      let '(r, s') := for_each_payload from to s in (AnswerPayloads r, s')
  end.

(** What a log answers: the headers and payloads of [from ..= to], [None] when
    there are none. *)
Definition log_serve (c : SeededCall) (v : View) : SeededAnswer * View :=
  match c with
  | PlainCall (CallReadEntryHeaders from to) =>
      (PlainAnswer (AnswerHeaders (Ok
         (match mem_entries from (to + 1) v with
          | [] => None
          | es => Some (map header_of_entry es)
          end))), v)
  | PlainCall c => let '(a, v') := serve c v in (PlainAnswer a, v')
  | CallAppendSeeded hs ps =>
      let '(r, v') := append_entries (seeded_entries hs ps) v in (PlainAnswer (AnswerUnit r), v')
  | CallForEachPayload from to =>
      (AnswerPayloads (Ok (map e_payload (mem_entries from (to + 1) v))), v)
  end.

Fixpoint serve_run {X} (step : SeededCall -> X -> SeededAnswer * X) (cs : list SeededCall) (x : X)
  : list SeededAnswer :=
  match cs with
  | [] => []
  | c :: cs' => let '(a, x') := step c x in a :: serve_run step cs' x'
  end.

(** Some entry is at or below [to], unless there is none at all. *)
Definition reaches_log (to : LogIndex) (v : View) : bool :=
  (0 <=? to) && (to <=? u64_max) &&
  (bool_decide (v_log v = ∅) || negb (is_nil (mem_entries 0 (to + 1) v))).

(** What the engine keeps to: appends continue the log from index 1 on, the
    headers of a seeded append describe its payloads, a range does not end below
    the log, and the buffers of the plain reads hold what is read. *)
Definition admissible_call (c : SeededCall) (v : View) : bool :=
  match c with
  | PlainCall (CallReadEntryHeaders _ to) | CallForEachPayload _ to => reaches_log to v
  | PlainCall (CallAppendEntries es) =>
      admissible (CallAppendEntries es) v && forallb (fun e => 1 <=? e_index e) es
  | PlainCall c => admissible c v
  | CallAppendSeeded hs ps =>
      let es := seeded_entries hs ps in
      bool_decide (hs = map header_of_entry es) &&
      admissible (CallAppendEntries es) v && forallb (fun e => 1 <=? e_index e) es
  end.

Fixpoint admissible_calls (cs : list SeededCall) (v : View) : bool :=
  match cs with
  | [] => true
  | c :: cs' => admissible_call c v && admissible_calls cs' (log_serve c v).2
  end.

Definition mirrors (s : SeededMemStorage) (v : View) : Prop :=
  exists es, arena s es /\ v_log v = log_of es /\ v_hard v = sm_hard_state s /\ v_snap v = None.

Lemma arena_line s es : arena s es -> exists b, in_line b es /\ (es <> [] -> b = sm_base_index s).
Proof. intros [_ [->|[_ Hl]]]; [by exists 0|eauto]. Qed.

Lemma arena_appended s es e new :
  arena s es -> 1 <= e_index e -> (exists b, in_line b (es ++ map to_stored (e :: new))) ->
  arena (foldl push_item (rebase (e_index e) s)
           (map (fun e => (header_of_entry e, e_payload e)) (e :: new)))
    (es ++ map to_stored (e :: new)).
Proof.
  intros [Hp Hb] H1 [b Hl]. split; [by apply packed_pushes, packed_rebase|by eapply based_append].
Qed.

(** The end of an admissible range is not below the first entry. *)
Lemma reaches_base s es v to :
  arena s es -> v_log v = log_of es -> reaches_log to v = true ->
  (es <> [] -> sm_base_index s <= to) /\ is_u64 to.
Proof.
  intros Hs Hlog. unfold reaches_log. rewrite !andb_true_iff, orb_true_iff, negb_true_iff, !Z.leb_le.
  intros [[H0 Hu] Hr]. split; [|done]. intros Hne.
  destruct (arena_line s es Hs) as (b & Hb & Eb). rewrite <- (Eb Hne).
  destruct Hr as [Ho%bool_decide_eq_true_1|Hr]; [rewrite Hlog in Ho; by apply (log_of_nonempty b) in Ho|].
  rewrite (mem_entries_filter b es) in Hr by done. destruct (List.filter _ es) as [|x l] eqn:F; [done|].
  assert (Hx : List.In x (List.filter (in_range 0 (to + 1)) es)) by (rewrite F; by left).
  apply filter_In in Hx as [Hx Hi]. apply list_elem_of_In, list_elem_of_lookup in Hx as [k Hk].
  apply Hb in Hk. unfold in_range in Hi. zlia.
Qed.

Lemma continues_stored s es v new :
  arena s es -> v_log v = log_of es -> admissible (CallAppendEntries new) v = true ->
  exists b, in_line b (es ++ map to_stored new).
Proof. intros Hs Hlog Ha. destruct (arena_line s es Hs) as (b & Hb & _). by apply (continues b es v). Qed.

Lemma mirrors_append s v e new :
  mirrors s v -> admissible (CallAppendEntries (e :: new)) v = true -> 1 <= e_index e ->
  mirrors (foldl push_item (rebase (e_index e) s)
             (map (fun e => (header_of_entry e, e_payload e)) (e :: new)))
    (set_v_log (log_append (e :: new) (v_log v)) v).
Proof.
  intros (es & Hs & Hlog & Hh & Hn) Ha H1. exists (es ++ map to_stored (e :: new)).
  split; [apply arena_appended; [done|done|by eapply continues_stored]|].
  rewrite log_of_app, <- Hlog. split; [done|]. split; [|done].
  by destruct (pushes_keep (rebase (e_index e) s) (map (fun e => (header_of_entry e, e_payload e)) (e :: new)))
    as [_ ->].
Qed.

(** Headers and payloads of a seeded append are those of its entries. *)
Lemma seeded_items hs ps :
  hs = map header_of_entry (seeded_entries hs ps) ->
  zip hs ps = map (fun e => (header_of_entry e, e_payload e)) (seeded_entries hs ps).
Proof.
  revert ps. induction hs as [|h hs IH]; intros [|p ps]; cbn; try done.
  intros [= Hh Hs]. f_equal; [by rewrite <- Hh|by apply IH].
Qed.

(** An entry, as the reference storage has it. *)
Lemma arena_entry_agrees s es v i buf :
  arena s es -> v_log v = log_of es ->
  unless_panic (seeded_entry_at i buf s) s = ((entry_at i buf v).1, s).
Proof.
  intros Hs Hlog. rewrite (arena_entry s es Hs). unfold unless_panic. cbn. f_equal. f_equal.
  destruct (arena_line s es Hs) as (b & Hb & Eb). rewrite Hlog, (log_of_lookup b) by done.
  assert (Ep : positioned b es i = positioned (sm_base_index s) es i).
  { destruct es; [|by rewrite Eb]. unfold positioned. by destruct (_ <? _), (_ <? _). }
  rewrite <- Ep. destruct (positioned b es i) as [e|] eqn:He; [|done]. cbn. unfold of_stored.
  by rewrite (positioned_index b es i e).
Qed.

Lemma mirrors_write s es v s' es' v' :
  arena s es -> arena s' es' -> v_log v' = log_of es' -> v_snap v' = v_snap v ->
  v_snap v = None -> v_hard v' = sm_hard_state s' -> mirrors s' v'.
Proof. intros. exists es'. split_and!; try done. congruence. Qed.

Lemma plain_mirrors c s v :
  mirrors s v -> admissible_call (PlainCall c) v = true ->
  (serve_seeded (PlainCall c) s).1 = (log_serve (PlainCall c) v).1 /\
  mirrors (serve_seeded (PlainCall c) s).2 (log_serve (PlainCall c) v).2.
Proof.
  intros Hm Hadm. pose proof Hm as (es & Hs & Hlog & Hh & Hn).
  destruct (arena_line s es Hs) as (b & Hb & Eb).
  destruct c as [|h|new|from to buf|from to|i buf|i| |from| |];
    cbn [serve_seeded log_serve serve answered fst snd] in *.
  - split; [|done]. cbn. by rewrite Hh.
  - split; [done|]. exists es. destruct Hs as [[] Hs2]. by split_and!.
  - apply andb_true_iff in Hadm as [Ha H1]. destruct new as [|e new].
    { split; [done|]. exists es. by split_and!. }
    split; [done|]. apply (mirrors_append s v e new); [done|done|]. cbn in H1. zlia.
  - split; [|done]. cbn. rewrite (arena_read s es Hs). cbn. by rewrite (mem_entries_filter b es).
  - cbn -[mem_entries]. destruct (reaches_base s es v to Hs Hlog Hadm) as [Ht Hu].
    rewrite (arena_headers s es Hs) by done. cbn -[mem_entries]. split; [|done].
    rewrite (mem_entries_filter b es) by done.
    destruct (List.filter _ es); [done|]. cbn. rewrite map_map. done.
  - split; [|done]. cbn -[unless_panic]. by rewrite (arena_entry_agrees s es v).
  - split; [|done]. cbn -[unless_panic]. unfold default_term_at. rewrite (arena_entry_agrees s es v) by done. cbn.
    unfold log_term. by destruct (v_log v !! i).
  - split; [|done]. cbn -[seeded_last_log_position]. rewrite (arena_last s es Hs). cbn. by rewrite Hlog, (log_of_last b).
  - destruct (arena_truncate s es Hs from) as (s' & E & Hs' & Eh). cbn. rewrite E. cbn.
    split; [done|]. eapply mirrors_write; [exact Hs|exact Hs'| |done|done|by rewrite Eh].
    cbn. by rewrite Hlog, (log_truncate_filter b).
  - split; [|done]. cbn. by rewrite Hn.
  - split; [|done]. cbn. by rewrite Hn.
Qed.

Lemma serve_mirrors c s v :
  mirrors s v -> admissible_call c v = true ->
  (serve_seeded c s).1 = (log_serve c v).1 /\ mirrors (serve_seeded c s).2 (log_serve c v).2.
Proof.
  destruct c as [c|hs ps|from to]; [apply plain_mirrors| |]; intros Hm Hadm.
  - cbn in Hadm. rewrite !andb_true_iff in Hadm. destruct Hadm as [[Hd%bool_decide_eq_true_1 Ha] H1].
    cbn [serve_seeded log_serve]. cbn. unfold seeded_append_entries_seeded. split; [done|].
    rewrite (seeded_items hs ps Hd). destruct (seeded_entries hs ps) as [|e new] eqn:E.
    { rewrite Hd. cbn. destruct Hm as (es & ?). by exists es. }
    rewrite Hd. cbn [map]. apply (mirrors_append s v e new); [done|done|]. cbn in H1. zlia.
  - pose proof Hm as (es & Hs & Hlog & Hh & Hn). split; [|done].
    destruct (arena_line s es Hs) as (b & Hb & _). cbn in Hadm |- *.
    destruct (reaches_base s es v to Hs Hlog Hadm) as [Ht Hu].
    rewrite (arena_payloads_of s es Hs) by done. unfold unless_panic. cbn -[mem_entries].
    rewrite (mem_entries_filter b es) by done. by rewrite map_map.
Qed.

Lemma serve_run_mirrors cs s v :
  mirrors s v -> admissible_calls cs v = true -> serve_run serve_seeded cs s = serve_run log_serve cs v.
Proof.
  revert s v. induction cs as [|c cs IH]; intros s v Hm; [done|]. cbn [admissible_calls serve_run].
  rewrite andb_true_iff. intros [Hc Hcs]. destruct (serve_mirrors c s v Hm Hc) as [Ha Hs].
  destruct (serve_seeded c s) as [a s1], (log_serve c v) as [a' v1]. cbn in *. subst. f_equal. by apply IH.
Qed.

(** C35: The dual-arena storage of the TCP benchmark answers every sequence of
    calls, plain and seeded, as a log does: a block of headers and the payloads
    read beside it are those of the same entries, seeded appends store what plain
    ones would, truncation cuts headers, offsets and data at the same entry, and no
    slice is out of range. *)
Theorem seeded_storage_refines (cs : list SeededCall) :
  admissible_calls cs (blank (sm_hard_state SeededMemStorage_new)) = true ->
  serve_run serve_seeded cs SeededMemStorage_new =
  serve_run log_serve cs (blank (sm_hard_state SeededMemStorage_new)).
Proof. intros Ha. apply serve_run_mirrors; [|done]. exists []. split_and!; try done. split; [done|by left]. Qed.

Definition sample_seeded_calls : list SeededCall :=
  let e t i := {| e_term := t; e_index := i; e_payload := replicate (Z.to_nat i) (to_byte i) |} in
  let batch := [e 2 3; e 2 4] in
  [ PlainCall (CallAppendEntries [e 1 1; e 1 2]);
    CallAppendSeeded (map header_of_entry batch) (map e_payload batch);
    PlainCall (CallReadEntryHeaders 2 u64_max); CallForEachPayload 2 3;
    PlainCall (CallTruncateSuffix 3); PlainCall (CallReadEntries 1 u64_max 100);
    PlainCall (CallEntryAt 2 10); PlainCall (CallAppendEntries [e 3 3]);
    CallForEachPayload 1 u64_max; PlainCall CallLastLogPosition ].

Lemma seeded_storage_refines_witness :
  serve_run serve_seeded sample_seeded_calls SeededMemStorage_new =
  serve_run log_serve sample_seeded_calls (blank (sm_hard_state SeededMemStorage_new)).
Proof. apply (seeded_storage_refines sample_seeded_calls). vm_compute. reflexivity. Defined.

(** ** The storage of the in-memory benchmark

    The same arenas and appends, other reads and another truncation. *)

(** [get_headers_bytes]: the headers of [from ..= to] as one block. *)
Definition get_headers_bytes (from to : LogIndex) (s : SeededMemStorage) : option bytes :=
  if is_nil (sm_headers s) then None
  else
    let start := position from s in
    let finish := end_position to (length (sm_headers s)) s in
    if start <? finish
    then Some (concat (map as_bytes
                 (take (Z.to_nat (finish - start)) (drop (Z.to_nat start) (sm_headers s)))))
    else None.

(** [&headers[s..e]] panics when [e < s]. *)
Definition memory_read_entry_headers (from max : LogIndex) (s : SeededMemStorage)
  : option (res (option (list EntryHeader))) :=
  let len := length (sm_headers s) in
  if is_nil (sm_headers s) then Some (Ok None)
  else
    let start := position from s in
    if Z.of_nat len <=? start then Some (Ok None)
    else
      let finish := end_position max len s in
      if finish <? start then None
      else Some (Ok (Some (take (Z.to_nat (finish - start)) (drop (Z.to_nat start) (sm_headers s))))).

(** Copies into the rest of the payload buffer. *)
Fixpoint memory_copy (s : SeededMemStorage) (rest : Z) (positions : list nat)
  : option (res (list LogEntry)) :=
  match positions with
  | [] => Some (Ok [])
  | i :: rest_of =>
      h ← sm_headers s !! i;
      '(off, len) ← sm_payload_offsets s !! i;
      if rest <? Z.of_nat len then Some (Err (StorageErr "buf too small"))
      else
        e ← item_at s i;
        out ← memory_copy s (rest - Z.of_nat len) rest_of;
        Some (let? es := out in Ok (e :: es))
  end.

Definition memory_read_entries (from to : LogIndex) (buf : Z) (s : SeededMemStorage)
  : option (res (list LogEntry)) :=
  if is_nil (sm_headers s) then Some (Ok [])
  else memory_copy s buf (range (position from s) (end_position to (length (sm_headers s)) s)).

Definition memory_entry_at (index : LogIndex) (buf : Z) (s : SeededMemStorage)
  : option (res (option LogEntry)) :=
  if is_nil (sm_headers s) then Some (Ok None)
  else
    let idx := Z.to_nat (position index s) in
    if (idx <? length (sm_headers s))%nat then
      '(off, len) ← sm_payload_offsets s !! idx;
      if buf <? Z.of_nat len then Some (Err (StorageErr "too small"))
      else e ← item_at s idx; Some (Ok (Some e))
    else Some (Ok None).

Definition memory_truncate_suffix (from : LogIndex) (s : SeededMemStorage)
  : res unit * SeededMemStorage :=
  let cut := Z.to_nat (position from s) in
  let offsets := take cut (sm_payload_offsets s) in
  (Ok tt, {| sm_base_index := sm_base_index s; sm_headers := take cut (sm_headers s);
             sm_data := match last offsets with
                        | Some (off, _) => take off (sm_data s)
                        | None => []
                        end;
             sm_payload_offsets := offsets; sm_hard_state := sm_hard_state s |}).

(** Cutting the log back to [k] entries drops the payload of the [k]-th: unless
    it is empty, reading it afterwards panics. *)
Theorem memory_truncation_loses_payload s es from k e buf :
  arena s es -> from = sm_base_index s + Z.of_nat (S k) -> es !! k = Some e ->
  se_payload e <> [] -> se_len e <= buf ->
  memory_entry_at (se_index e) buf (memory_truncate_suffix from s).2 = None.
Proof.
  intros [Hp Hb] -> He Hne Hbuf. pose proof (lookup_lt_Some _ _ _ He) as Hlt.
  destruct Hb as [->|[_ Hl]]; [done|]. pose proof (Hl _ _ He) as Hi.
  unfold memory_entry_at, memory_truncate_suffix, position, sat_sub. cbn -[Nat.ltb Z.ltb take].
  rewrite (pk_headers s es Hp), (pk_offsets s es Hp).
  replace (Z.to_nat (Z.max (sm_base_index s + Z.of_nat (S k) - sm_base_index s) 0)) with (S k) by lia.
  replace (Z.to_nat (Z.max (se_index e - sm_base_index s) 0)) with k by lia.
  assert (Ho : take (S k) (lay 0 (map se_payload es)) !! k =
               Some (length (concat (take k (map se_payload es))), length (se_payload e))).
  { rewrite lookup_take_lt by lia. by rewrite lay_lookup, list_lookup_fmap, He. }
  destruct (is_nil _) eqn:E.
  { destruct es as [|x l]; [done|]. by destruct k. }
  rewrite length_take, length_map, (proj2 (Nat.ltb_lt _ _)) by lia. rewrite Ho. cbn -[Z.ltb take].
  destruct (Z.ltb_spec buf (Z.of_nat (length (se_payload e)))) as [?|_]; [unfold se_len in Hbuf; lia|].
  assert (Hlast : last (take (S k) (lay 0 (map se_payload es))) =
                  Some (length (concat (take k (map se_payload es))), length (se_payload e))).
  { rewrite last_lookup, length_take, length_lay, length_map.
    by replace (Nat.pred (S k `min` length es)) with k by lia. }
  unfold item_at, payload_slice. cbn [sm_headers sm_payload_offsets sm_data]. rewrite Ho, Hlast.
  destruct (take (S k) (map stored_header es) !! k); [|reflexivity]. cbn -[Nat.leb take].
  assert (0 < length (se_payload e))%nat by (destruct (se_payload e); [done|cbn; lia]).
  rewrite (proj2 (Nat.leb_gt _ _)); [reflexivity|]. rewrite length_take. lia.
Qed.

(** How many entries a read returned. *)
Definition read_length (r : option (res (list LogEntry))) : option nat :=
  match r with Some (Ok es) => Some (length es) | _ => None end.

(** Two entries, the second cut off: the first one can no longer be read, while
    the storage of the TCP benchmark still has it.  Below its first index the
    in-memory storage answers with the entry it has, and its range reads include
    the end. *)
Definition two_entries : SeededMemStorage :=
  (append_entries
     [{| e_term := 1; e_index := 5; e_payload := [to_byte 97] |};
      {| e_term := 1; e_index := 6; e_payload := [to_byte 98] |}] SeededMemStorage_new).2.

Example memory_truncation_example :
  memory_entry_at 5 10 (memory_truncate_suffix 6 two_entries).2 = None /\
  (let first := Some (Ok (Some {| e_term := 1; e_index := 5; e_payload := [to_byte 97] |})) in
   seeded_entry_at 5 10 (truncate_suffix 6 two_entries).2 = first /\
   memory_entry_at 2 10 two_entries = first /\ seeded_entry_at 2 10 two_entries = Some (Ok None)) /\
  read_length (memory_read_entries 5 6 10 two_entries) = Some 2%nat /\
  read_length (seeded_read_entries 5 6 10 two_entries) = Some 1%nat.
Proof. vm_compute. split_and!; reflexivity. Qed.
