(* ===== verification/SeededPath.v ===== *)
(** * SeededPath: the zero-copy path sends what the copying path would

    A leader over a storage with the seeded path ([SeededMemStorage] of
    [benches/tcp_raft_bench.rs]) sends a lagging peer the headers as one block and
    the payloads by reference; over a storage without, it reads the entries and
    encodes them one by one.  Both frames decode, and to the same entries after
    the same position. *)

From stdpp Require Import base list sets gmap strings.
From Stdlib Require Import ZArith Lia.
From S2P Require Import Prelude Types Wire Codec CodecFacts Arena Progress Quorum Traits.
From S2P Require Import Membership NodeState Node Samples Replication Leader Frames Walks AppendFrames.
From S2P Require Import ExampleStorage SeededStorage.

Local Open Scope Z_scope.

(** ** Frames of the same entries *)

Lemma header_of_entry_fits e :
  Z.of_nat (length (e_payload e)) <= u32_max -> header_of_entry e = entry_header e.
Proof.
  intros Hl. unfold header_of_entry, entry_header. f_equal. apply Z.mod_small. unfold u32_max in Hl. lia.
Qed.

(** The two messages a leader builds for the entries [es]. *)
Definition seeded_message (m : AppendEntries) (es : list LogEntry) : RaftMessage :=
  MAppendEntriesSeededVectored m (concat (map as_bytes (map header_of_entry es))) (map e_payload es).
Definition copied_message (m : AppendEntries) (es : list LogEntry) : RaftMessage :=
  MAppendEntriesVectored m es.

Lemma headers_of_items es :
  payloads_fit es -> map header_of_entry es = map fst (entry_items es).
Proof.
  intros Hf. unfold entry_items. rewrite map_map. apply map_ext_in. intros e He.
  apply header_of_entry_fits. unfold payloads_fit in Hf. rewrite Forall_forall in Hf.
  apply Hf. by apply list_elem_of_In.
Qed.

Lemma payloads_of_items es : map e_payload es = map snd (entry_items es).
Proof. unfold entry_items. by rewrite map_map. Qed.

(** The bodies are of the same length. *)
Lemma same_body_length m es :
  length (body_bytes (seeded_message m es)) = length (body_bytes (copied_message m es)).
Proof.
  cbn [body_bytes seeded_message copied_message]. rewrite !length_app. f_equal.
  induction es as [|e es IH]; [done|]. cbn [map concat]. unfold entry_bytes at 1.
  rewrite !length_app in *. rewrite !length_as_bytes. lia.
Qed.

Lemma frames_agree from m es :
  is_u64 from -> wire_wf m -> ae_entry_count m = Z.of_nat (length es) -> Forall entry_wf es ->
  Z.of_nat (length (body_bytes (copied_message m es))) <= u32_max ->
  exists im im',
    decode_message (frame_bytes from 0 (seeded_message m es)) = Ok im /\
    decode_message (frame_bytes from 0 (copied_message m es)) = Ok im' /\
    batch_of (im_message im) = Some (ae_prev_log_index m, ae_prev_log_term m, es) /\
    batch_of (im_message im') = Some (ae_prev_log_index m, ae_prev_log_term m, es).
Proof.
  intros Hf Hm Hc Hw Hfit.
  assert (Hp : payloads_fit es).
  { cbn [body_bytes copied_message] in Hfit. rewrite length_app in Hfit. by eapply payloads_fit_intro. }
  assert (Hok : Forall item_ok (entry_items es)) by by apply entry_items_ok.
  assert (H0 : is_u64 0) by (unfold is_u64; machine; lia).
  assert (Hs : msg_wf (seeded_message m es)).
  { split; [done|]. exists (map header_of_entry es). rewrite headers_of_items, payloads_of_items by done.
    rewrite Hc, Nat2Z.id. unfold entry_items at 1. rewrite !length_map. split; [done|].
    split; [|split; [done|by apply declared_len_items]].
    apply Forall_map. eapply Forall_impl; [exact Hok|]. by intros i []. }
  do 2 eexists. rewrite !decode_frame, !decode_body_ok by (done || by rewrite same_body_length).
  split; [done|]. split; [done|]. cbn [im_message wire_form seeded_message copied_message batch_of].
  rewrite headers_of_items, payloads_of_items by done. fold (header_block (map fst (entry_items es))).
  rewrite raw_iter_of_items, entry_items_entries by done.
  by rewrite Hc, Nat2Z.id, entry_iter_bytes.
Qed.

(** ** The sends *)

Section SeededPath.
Context {T C D : Type} `{RaftTransport T} `{Clock C} `{CustomDispatch D T}.
#[local] Abbreviation Node := (RaftNode SeededMemStorage T C D).
#[local] Abbreviation M := (M SeededMemStorage T C D).
Implicit Types n : Node.

(** A read leaves the node as it is. *)
Lemma on_storage_read {A} (op : SeededMemStorage -> res A * SeededMemStorage) r n :
  op (storage n) = (r, storage n) -> on_storage op n = (r, n).
Proof. intros E. unfold on_storage. rewrite E. by destruct n. Qed.

Lemma take_taken {A} (l : list A) k : take (length (take k l)) l = take k l.
Proof. rewrite length_take. destruct (Nat.le_ge_cases k (length l)); [by rewrite Nat.min_l|]. rewrite Nat.min_r by done. by rewrite !take_ge. Qed.

(** The entries at and after [next], when [next] is in the log. *)
Lemma entries_from b es next :
  in_line b es -> b <= next ->
  (forall to, b + Z.of_nat (length es) <= to ->
     List.filter (in_range next to) es = drop (Z.to_nat (next - b)) es) /\
  (forall k, List.filter (in_range next (next + Z.of_nat k)) es =
             take k (drop (Z.to_nat (next - b)) es)).
Proof.
  intros Hl Hn. split.
  - intros to Ht. rewrite (range_slice b) by done. unfold sat_sub.
    replace (Z.max (next - b) 0) with (next - b) by lia.
    rewrite take_ge; [done|]. rewrite length_drop. lia.
  - intros k. rewrite (range_slice b) by done. unfold sat_sub. f_equal; [lia|]. f_equal. lia.
Qed.

(** Sending [msg] and reporting [last] when it was taken. *)
Definition deliver (peer : PeerId) (msg : RaftMessage) (last : LogIndex) : M (option LogIndex) :=
  sent ← send_message peer msg; mret (if sent : bool then Some last else None).

Section Sends.
Context (n : Node) (es : list StoredEntry) (next : LogIndex).
Context (Hs : arena (storage n) es) (Hne : es <> []).
Context (Hn : sm_base_index (storage n) <= next <= (stored_last es).1).
Context (Hu : (stored_last es).1 < u64_max).

(** What is missing at the peer, and as much of it as one append takes. *)
Definition missing : list StoredEntry := drop (Z.to_nat (next - sm_base_index (storage n))) es.
Definition batch : list StoredEntry := take (batch_limit n) missing.

Lemma log_line : in_line (sm_base_index (storage n)) es.
Proof. destruct Hs as [_ [|[_ Hl]]]; done. Qed.

Lemma log_end : sm_base_index (storage n) + Z.of_nat (length es) = (stored_last es).1 + 1.
Proof. symmetry. apply in_line_tip; [apply log_line|done]. Qed.

Lemma batch_nonempty : exists e, last batch = Some e.
Proof.
  destruct (last batch) eqn:E; [eauto|]. apply last_None in E. exfalso.
  assert (Hl : length batch = 0%nat) by (by rewrite E). unfold batch, missing, batch_limit in Hl.
  rewrite length_take, length_drop in Hl. pose proof log_end. lia.
Qed.

Lemma batch_bound : 1 <= next /\ next + Z.of_nat (length batch) - 1 <= u64_max /\ (0 < length batch)%nat.
Proof.
  destruct Hs as [_ [|[Hone _]]]; [done|]. pose proof log_end as He. destruct batch_nonempty as [e Hb].
  assert (0 < length batch)%nat by (destruct batch; [done|cbn; lia]).
  assert (length batch <= length es - Z.to_nat (next - sm_base_index (storage n)))%nat
    by (unfold batch, missing; rewrite length_take, length_drop; lia). lia.
Qed.

(** The two reads. *)
Lemma read_missing buf : read_entries next u64_max buf (storage n) = (Ok (map of_stored missing), storage n).
Proof.
  change (unless_panic (seeded_read_entries next u64_max buf (storage n)) (storage n) =
          (Ok (map of_stored missing), storage n)).
  rewrite (arena_read _ _ Hs). unfold unless_panic, missing. cbn [default].
  destruct (entries_from _ es next log_line) as [Hall _]; [lia|].
  rewrite Hall; [done|]. pose proof log_end. lia.
Qed.

Lemma read_headers :
  read_entry_headers next u64_max (storage n) = (Ok (Some (map stored_header missing)), storage n).
Proof.
  change (seeded_read_entry_headers next u64_max (storage n) =
          (Ok (Some (map stored_header missing)), storage n)).
  pose proof log_end as He. rewrite (arena_headers _ _ Hs); [|intros _; lia|unfold is_u64; machine; lia].
  destruct (entries_from _ es next log_line) as [Hall _]; [lia|].
  rewrite Hall by lia. fold missing. destruct missing eqn:E; [|done].
  destruct batch_nonempty as [e Hb]. unfold batch in Hb. by rewrite E, take_nil in Hb.
Qed.

Lemma read_payloads :
  for_each_payload next (wrap_add64 next (Z.of_nat (length batch) - 1)) (storage n) =
  (Ok (map se_payload batch), storage n).
Proof.
  destruct batch_bound as (Hone & Hb & Hpos).
  assert (Ew : wrap_add64 next (Z.of_nat (length batch) - 1) = next + Z.of_nat (length batch) - 1).
  { unfold wrap_add64. rewrite Z.mod_small; [lia|]. machine. lia. }
  rewrite Ew. change (unless_panic (seeded_for_each_payload next (next + Z.of_nat (length batch) - 1)
    (storage n)) (storage n) = (Ok (map se_payload batch), storage n)).
  rewrite (arena_payloads_of _ _ Hs); [|intros _; lia|unfold is_u64; machine; lia].
  unfold unless_panic. cbn [default].
  destruct (entries_from _ es next log_line) as [_ Hk]; [lia|].
  replace (next + Z.of_nat (length batch) - 1 + 1) with (next + Z.of_nat (length batch)) by lia.
  rewrite Hk. fold missing. unfold batch at 1. by rewrite take_taken.
Qed.

Definition last_index : LogIndex := match last batch with Some e => se_index e | None => 0 end.

Lemma copying_send peer prev_idx prev_term :
  send_entries_read peer prev_idx prev_term next n =
  deliver peer (copied_message (append_request n prev_idx prev_term (length batch)) (map of_stored batch))
    last_index n.
Proof.
  unfold send_entries_read. erewrite bind_Ok by (apply on_storage_read, read_missing).
  rewrite bind_gets. cbv zeta. rewrite <- fmap_take. fold batch.
  change (of_stored <$> batch) with (map of_stored batch).
  rewrite bind_gets, length_map. unfold deliver, last_index.
  destruct batch_nonempty as [e He]. rewrite fmap_last, He. done.
Qed.

Lemma seeded_send peer prev_idx prev_term :
  (found ← attempt (on_storage (read_entry_headers next u64_max));
   limit ← gets batch_limit;
   match found with
   | Ok (Some headers) =>
       let headers := take limit headers in
       match last headers with
       | Some last_header => send_entries_seeded peer prev_idx prev_term next headers last_header
       | None => send_entries_read peer prev_idx prev_term next
       end
   | _ => send_entries_read peer prev_idx prev_term next
   end) n =
  deliver peer (seeded_message (append_request n prev_idx prev_term (length batch)) (map of_stored batch))
    last_index n.
Proof.
  erewrite bind_Ok; [|unfold attempt; by rewrite (on_storage_read _ _ _ read_headers)].
  rewrite bind_gets. cbv zeta iota beta. rewrite <- fmap_take. fold batch. rewrite fmap_last.
  destruct batch_nonempty as [e He]. rewrite He. cbn [fmap option_fmap option_map].
  unfold send_entries_seeded. change (stored_header <$> batch) with (map stored_header batch).
  rewrite length_map. erewrite bind_Ok by (apply on_storage_read, read_payloads).
  rewrite bind_gets. unfold deliver, last_index, seeded_message. rewrite He, !map_map. done.
Qed.
End Sends.

(** The previous position is looked up without changing the storage. *)
Lemma keeps_storage_prev peer : keeps storage (append_prev_for_peer peer : M _).
Proof.
  unfold append_prev_for_peer, term_at.
  assert (Hr : forall i, keeps storage (on_storage (storage_term_at i) : M _)).
  { intros i n. unfold on_storage. cbn. unfold default_term_at, unless_panic. done. }
  repeat first [apply Hr | keeps_step]; cbv beta zeta; keeps_auto.
Qed.

(** C19: over the dual-arena storage the leader's zero-copy send and its copying
    send hand the transport messages for the same entries, those the peer is
    missing up to the batch limit, with the same request; the frames of both decode,
    and a receiver reads the same previous position and the same entries from
    them. *)
Theorem seeded_path_equals_copying peer n n1 es prev_idx prev_term next :
  append_prev_for_peer peer n = (Ok (prev_idx, prev_term, next), n1) ->
  arena (storage n) es -> es <> [] ->
  sm_base_index (storage n) <= next <= (stored_last es).1 -> (stored_last es).1 < u64_max ->
  let entries := map of_stored (batch n1 es next) in
  let req := append_request n1 prev_idx prev_term (length entries) in
  let last := last_index n1 es next in
  entries <> [] /\
  send_append_attempt peer n = deliver peer (seeded_message req entries) last n1 /\
  send_entries_read peer prev_idx prev_term next n1 = deliver peer (copied_message req entries) last n1 /\
  (is_u64 (node_id n1) -> wire_wf req -> Forall entry_wf entries ->
   Z.of_nat (length (body_bytes (copied_message req entries))) <= u32_max ->
   exists im im',
     decode_message (frame_bytes (node_id n1) 0 (seeded_message req entries)) = Ok im /\
     decode_message (frame_bytes (node_id n1) 0 (copied_message req entries)) = Ok im' /\
     batch_of (im_message im) = Some (prev_idx, prev_term, entries) /\
     batch_of (im_message im') = batch_of (im_message im)).
Proof.
  intros Hprev Hs Hne Hn Hu entries req last. pose proof (keeps_storage_prev peer n) as Ek.
  rewrite Hprev in Ek. cbn in Ek. rewrite <- Ek in Hs, Hn.
  assert (El : length entries = length (batch n1 es next)) by (unfold entries; by rewrite length_map).
  split_and!.
  - destruct (batch_nonempty n1 es next Hs Hne Hn) as [e He]. unfold entries.
    by destruct (batch n1 es next).
  - unfold send_append_attempt. erewrite bind_Ok by exact Hprev. unfold req. rewrite El.
    by apply (seeded_send n1 es next).
  - unfold req. rewrite El. by apply (copying_send n1 es next).
  - intros Hid Hw He Hfit.
    destruct (frames_agree (node_id n1) req entries) as (im & im' & D1 & D2 & B1 & B2); try done.
    { cbn. apply Z.mod_small. pose proof (length_entries_le entries) as Hle.
      assert (wire_size EntryHeader = 24)%nat as Hsz by done.
      cbn [body_bytes copied_message] in Hfit. rewrite length_app in Hfit. unfold u32_max in Hfit. lia. }
    exists im, im'. split; [done|]. split; [done|]. split; [done|]. by rewrite B1, B2.
Qed.
End SeededPath.

(** A leader with three entries, whose peer 2 has the first one. *)
Definition three_entries : list StoredEntry :=
  [{| se_term := 1; se_index := 1; se_payload := [to_byte 97] |};
   {| se_term := 1; se_index := 2; se_payload := [to_byte 98; to_byte 99] |};
   {| se_term := 2; se_index := 3; se_payload := [] |}].

Definition three_stored : SeededMemStorage :=
  (append_entries (map of_stored three_entries) SeededMemStorage_new).2.

Definition seeded_leader : RaftNode SeededMemStorage QueueTransport TickClock unit :=
  set_peer_progress (pm_insert 2 {| next_index := 2; match_index := 1 |} [])
    (sample_over three_stored (3, 2) 1 [1; 2; 3] {| current_term := 2; voted_for := Some 1 |}).

Definition seeded_leader_prev := (append_prev_for_peer 2 seeded_leader).2.

Lemma three_arena : arena three_stored three_entries.
Proof.
  split; [split; vm_compute; reflexivity|]. right. split; [vm_compute; discriminate|].
  do 2 (apply in_line_cons; split; [vm_compute; reflexivity|]).
  apply in_line_cons. split; [vm_compute; reflexivity|apply in_line_nil].
Qed.

Lemma seeded_path_equals_copying_witness :
  let entries := map of_stored (drop 1 three_entries) in
  let req := append_request seeded_leader_prev 1 1 2 in
  send_append_attempt 2 seeded_leader =
    deliver 2 (seeded_message req entries) 3 seeded_leader_prev /\
  exists im, decode_message (frame_bytes 1 0 (seeded_message req entries)) = Ok im /\
    batch_of (im_message im) = Some (1, 1, entries).
Proof.
  assert (Hp : append_prev_for_peer 2 seeded_leader = (Ok (1, 1, 2), seeded_leader_prev))
    by (vm_compute; reflexivity).
  assert (Hn : sm_base_index (storage seeded_leader) <= 2 <= (stored_last three_entries).1)
    by (vm_compute; split; discriminate).
  assert (Hu : (stored_last three_entries).1 < u64_max) by (vm_compute; reflexivity).
  assert (Hne : three_entries <> []) by discriminate.
  destruct (seeded_path_equals_copying 2 seeded_leader seeded_leader_prev three_entries 1 1 2
              Hp three_arena Hne Hn Hu) as (_ & Hsend & _ & Hdec).
  split; [exact Hsend|]. destruct Hdec as (im & im' & D & _ & B & _).
  - vm_compute. split; discriminate.
  - split; [|vm_compute; reflexivity].
    repeat (apply Forall2_cons_2; [vm_compute; split; [discriminate|reflexivity]|]). apply Forall2_nil_2.
  - repeat (apply Forall_cons; split; [vm_compute; repeat split; discriminate|]). apply Forall_nil_2.
  - vm_compute. discriminate.
  - exists im. split; [exact D|exact B].
Defined.
