(* ===== verification/BenchWal.v ===== *)
(** * BenchWal: the write-ahead log of the transport benchmark

    The durable mode of [benches/raft_transport_bench.rs]: records with a length
    and a checksum written into a preallocated segment, the storage of the leader
    and the followers, which write and sync before they answer.  The benchmark
    never reads its segments back; the theorems are about the bytes in them: the
    synced content of a segment is the records of exactly the entries that were
    taken, in order, over what the segment held before.

    The checksum ([crc32fast::hash]) is a parameter of which nothing is assumed.  A
    segment is the content of its file, next to the content as of the last sync. *)

From stdpp Require Import base list sets gmap strings.
From Stdlib Require Import ZArith Lia.
From S2P Require Import Prelude Types Wire Codec CodecFacts Traits Replication ExampleStorage.
From S2P Require Import ExampleFollower.

Local Open Scope list_scope.
Local Open Scope Z_scope.

(** ** Policies *)

Inductive FsyncPolicy := FsyncNone | NoSync | Data | Full.

Definition writes_wal (p : FsyncPolicy) : bool :=
  match p with FsyncNone => false | _ => true end.

Definition is_durable (p : FsyncPolicy) : bool :=
  match p with Data | Full => true | _ => false end.

Inductive FsyncScope := QuorumScope | LeaderScope.

Record WalConfig := {
  wc_policy : FsyncPolicy;
  wc_scope : FsyncScope;
  wc_segment_bytes : Z;
}.

Definition follower_policy (cfg : WalConfig) : FsyncPolicy :=
  match wc_scope cfg with QuorumScope => wc_policy cfg | LeaderScope => FsyncNone end.

(** ** The segment *)

Record WalWriter := {
  wal_file : bytes;
  wal_durable : bytes;
  wal_offset : Z;
  wal_segment_bytes : Z;
  wal_policy : FsyncPolicy;
}.

(** The content of a segment and its synced content.  [known] is what a segment of
    this path that the process prepared before holds; a new one is zero-filled and
    synced. *)
Definition ensure_prealloc (known : option (bytes * bytes)) (segment_bytes : Z) : bytes * bytes :=
  match known with
  | Some content => content
  | None => let zeros := replicate (Z.to_nat segment_bytes) (to_byte 0) in (zeros, zeros)
  end.

Definition wal_open (known : option (bytes * bytes)) (segment_bytes : Z) (policy : FsyncPolicy)
  : WalWriter :=
  let '(file, durable) := ensure_prealloc known segment_bytes in
  {| wal_file := file; wal_durable := durable; wal_offset := 0;
     wal_segment_bytes := segment_bytes; wal_policy := policy |}.

Definition ENTRY_KIND : Z := 1.
Definition HARDSTATE_KIND : Z := 2.

Record WalRecord := {
  wr_kind : Z;
  wr_a : Z;
  wr_b : Z;
  wr_payload : bytes;
}.

(** [kind | a | b | payload], what the checksum covers. *)
Definition record_body (r : WalRecord) : bytes :=
  to_byte (wr_kind r) :: le_bytes 8 (wr_a r) ++ le_bytes 8 (wr_b r) ++ wr_payload r.

(** [write_all] at the position of the file. *)
Definition write_at (offset : nat) (b file : bytes) : bytes :=
  take offset file ++ b ++ drop (offset + length b) file.

Section Wal.
Context (crc : bytes -> Z).

Definition record_bytes (r : WalRecord) : bytes :=
  le_bytes 4 (Z.of_nat (1 + 8 + 8 + length (wr_payload r)) mod 2 ^ 32)
  ++ le_bytes 4 (crc (record_body r)) ++ record_body r.

Definition append_record (r : WalRecord) (w : WalWriter) : WalWriter :=
  let scratch := record_bytes r in
  let total := Z.of_nat (length scratch) in
  let offset := if wal_segment_bytes w <? wal_offset w + total then 0 else wal_offset w in
  {| wal_file := write_at (Z.to_nat offset) scratch (wal_file w);
     wal_durable := wal_durable w; wal_offset := offset + total;
     wal_segment_bytes := wal_segment_bytes w; wal_policy := wal_policy w |}.

Definition wal_sync (w : WalWriter) : WalWriter :=
  {| wal_file := wal_file w;
     wal_durable := match wal_policy w with
                    | Data | Full => wal_file w
                    | _ => wal_durable w
                    end;
     wal_offset := wal_offset w; wal_segment_bytes := wal_segment_bytes w;
     wal_policy := wal_policy w |}.

Definition entry_record (e : LogEntry) : WalRecord :=
  {| wr_kind := ENTRY_KIND; wr_a := e_term e; wr_b := e_index e; wr_payload := e_payload e |}.

(** ** The storage of the leader *)

Record BenchStorage := {
  be_log : InmemStorage;
  be_wal : option WalWriter;
}.

Definition BenchStorage_new (known : option (bytes * bytes)) (cfg : WalConfig) : BenchStorage :=
  {| be_log := InmemStorage_new;
     be_wal := if writes_wal (wc_policy cfg)
               then Some (wal_open known (wc_segment_bytes cfg) (wc_policy cfg)) else None |}.

Definition bench_save_hard_state (state : HardState) (s : BenchStorage) : res unit * BenchStorage :=
  let voted := default 0 (voted_for state) in
  let wal := (fun w => wal_sync (append_record
    {| wr_kind := HARDSTATE_KIND; wr_a := current_term state; wr_b := voted; wr_payload := [] |} w))
    <$> be_wal s in
  (Ok tt, {| be_log := (inmem_save_hard_state state (be_log s)).2; be_wal := wal |}).

Definition bench_append_entries (new : list LogEntry) (s : BenchStorage)
  : res unit * BenchStorage :=
  if is_nil new then (Ok tt, s)
  else
    let wal := (fun w => wal_sync (foldl (fun w e => append_record (entry_record e) w) w new))
      <$> be_wal s in
    (Ok tt, {| be_log := (inmem_append_entries new (be_log s)).2; be_wal := wal |}).

(** Reads are answered from memory. *)
Definition bench_read {A} (op : InmemStorage -> res A * InmemStorage) (s : BenchStorage)
  : res A * BenchStorage :=
  let '(r, log) := op (be_log s) in (r, {| be_log := log; be_wal := be_wal s |}).

Definition bench_truncate_suffix (from : LogIndex) : BenchStorage -> res unit * BenchStorage :=
  bench_read (inmem_truncate_suffix from).

#[export] Instance BenchStorage_storage : RaftStorage BenchStorage := {
  load_hard_state s := (Ok (im_hard_state (be_log s)), s);
  save_hard_state := bench_save_hard_state;
  append_entries := bench_append_entries;
  append_entries_seeded := default_append_entries_seeded;
  read_entries from to buf := bench_read (inmem_read_entries from to buf);
  read_entry_headers := default_read_entry_headers;
  for_each_payload := default_for_each_payload;
  entry_at index buf := bench_read (inmem_entry_at index buf);
  storage_term_at := default_term_at (fun index buf => bench_read (inmem_entry_at index buf));
  last_log_position := bench_read inmem_last_log_position;
  truncate_suffix := bench_truncate_suffix;
  truncate_before := default_truncate_before;
  save_snapshot _ _ s := (Ok tt, s);
  load_snapshot s := (Ok None, s);
  load_snapshot_meta := default_load_snapshot_meta (fun s => (Ok None, s));
}.

#[export, refine] Instance BenchStorage_vec : VecStorage BenchStorage := {
  held s := im_entries (be_log s);
  held_hard s := im_hard_state (be_log s);
  kept s := kept (be_log s);
}.
Proof.
  all: try done.
  - intros s Hk. exact (kept_in_line (be_log s) Hk).
  - intros h s Hk. eexists. split; [reflexivity|]. by cbn.
  - intros b es s Hk Hc. destruct (vs_append_entries b es (be_log s) Hk Hc) as (s' & E & Hs').
    cbn in E. destruct es as [|e es]; cbn.
    { injection E as <-. exists s. split; [done|]. exact Hs'. }
    injection E as <-. eexists. split; [reflexivity|]. exact Hs'.
  - intros from s Hk. destruct (vs_truncate_suffix from (be_log s) Hk) as (s' & E & Hs').
    cbn in E |- *. unfold bench_truncate_suffix, bench_read. rewrite E. eexists. split; [reflexivity|]. exact Hs'.
  - intros from to buf s Hk. destruct (vs_read_entries from to buf (be_log s) Hk) as (r & E & Hr).
    cbn in E |- *. unfold bench_read. rewrite E. exists r. split; [by destruct s|]. exact Hr.
  - intros b i buf s Hk Hc. destruct (vs_entry_at b i buf (be_log s) Hk Hc) as [err E].
    cbn in E |- *. unfold bench_read. rewrite E. exists err. by destruct s.
  - intros s. cbn. unfold bench_read. by destruct s.
Defined.

(** The log is that of the throughput examples, whatever the segment does. *)
Theorem bench_storage_refines known cfg (cs : list Call) :
  admissible_run cs (blank (im_hard_state InmemStorage_new)) = true ->
  (serve_all cs (BenchStorage_new known cfg)).1 =
  (serve_all cs (blank (im_hard_state InmemStorage_new))).1.
Proof. intros Ha. apply serve_all_simulates; [|done]. split_and!; try done. by left. Qed.

(** ** The follower *)

Record WalPeer := {
  wp_peer : PeerState;
  wp_wal : option WalWriter;
}.

Definition WalPeer_new (known : option (bytes * bytes)) (cfg : WalConfig) : WalPeer :=
  let fp := follower_policy cfg in
  {| wp_peer := PeerState_new;
     wp_wal := if writes_wal fp then Some (wal_open known (wc_segment_bytes cfg) fp) else None |}.

Definition wal_append (e : LogEntry) (p : WalPeer) : WalPeer :=
  {| wp_peer := wp_peer p; wp_wal := append_record (entry_record e) <$> wp_wal p |}.

Definition peer_wal_sync (p : WalPeer) : WalPeer :=
  {| wp_peer := wp_peer p; wp_wal := wal_sync <$> wp_wal p |}.

Definition set_peer (s : PeerState) (p : WalPeer) : WalPeer :=
  {| wp_peer := s; wp_wal := wp_wal p |}.

Definition push_log (e : LogEntry) (p : WalPeer) : WalPeer :=
  set_peer (push_position (e_index e, e_term e) (wp_peer p)) p.

(** The body of the loop of [process_append]; the flag is [appended]. *)
Definition wal_process_entry (st : WalPeer * bool) (e : LogEntry) : WalPeer * bool :=
  let '(p, appended) := st in
  let s := wp_peer p in
  if is_nil (ps_log s) then
    let p := set_peer {| ps_base_index := e_index e; ps_log := ps_log s |} p in
    (push_log e (wal_append e p), true)
  else if e_index e <? ps_base_index s then (p, appended)
  else
    let pos := Z.to_nat (e_index e - ps_base_index s) in
    match ps_log s !! pos with
    | Some (_, et) =>
        if et =? e_term e then (p, appended)
        else
          let log := take pos (ps_log s) in
          let p := set_peer {| ps_base_index := if is_nil log then e_index e else ps_base_index s;
                               ps_log := log |} p in
          (push_log e (wal_append e p), true)
    | None => (push_log e (wal_append e p), true)
    end.

Definition wal_process_append (ae : AppendEntries) (body : bytes) (p : WalPeer)
  : (bool * LogIndex) * WalPeer :=
  if prev_accepted ae (wp_peer p) then
    let '(p, appended) := foldl wal_process_entry (p, false)
                            (entry_iter body (Z.to_nat (ae_entry_count ae))) in
    let p := if appended : bool then peer_wal_sync p else p in
    ((true, (last_position (wp_peer p)).1), p)
  else ((false, (last_position (wp_peer p)).1), p).

(** The loop over a seeded frame. *)
Definition wal_push_seeded (st : WalPeer * bool) (it : EntryHeader * bytes) : WalPeer * bool :=
  let e := {| e_term := eh_term it.1; e_index := eh_index it.1; e_payload := it.2 |} in
  (push_log e (wal_append e st.1), true).

Definition wal_handle_frame (my_id : PeerId) (frame : bytes) (p : WalPeer)
  : option (option bytes * WalPeer) :=
  match decode_message frame with
  | Ok inbound =>
      match im_message inbound with
      | MAppendEntries ae body =>
          let '((success, match_index), p') := wal_process_append ae body p in
          f ← encode_resp_frame my_id (ae_term ae) success match_index;
          Some (Some f, p')
      | MAppendEntriesSeeded ae headers payloads =>
          let success := prev_accepted ae (wp_peer p) in
          let p' :=
            if success then
              let '(p, appended) := foldl wal_push_seeded (p, false)
                                      (raw_iter headers (Contiguous payloads)) in
              if appended : bool then peer_wal_sync p else p
            else p in
          f ← encode_resp_frame my_id (ae_term ae) success (last_position (wp_peer p')).1;
          Some (Some f, p')
      | _ => Some (None, p)
      end
  | Err _ => Some (None, p)
  end.

(** [run_channel_follower]: the answers to the frames that arrive. *)
Fixpoint run_wal_follower (my_id : PeerId) (frames : list bytes) (p : WalPeer)
  : option (list bytes * WalPeer) :=
  match frames with
  | [] => Some ([], p)
  | f :: frames' =>
      '(resp, p) ← wal_handle_frame my_id f p;
      '(rest, p) ← run_wal_follower my_id frames' p;
      Some (match resp with Some r => r :: rest | None => rest end, p)
  end.
End Wal.

(** ** Segments *)

Section Segments.
Context (crc : bytes -> Z).

Lemma length_record_body r : length (record_body r) = (17 + length (wr_payload r))%nat.
Proof. unfold record_body. cbn. rewrite !length_app, !length_le_bytes. lia. Qed.

Lemma length_record_bytes r : length (record_bytes crc r) = (25 + length (wr_payload r))%nat.
Proof. unfold record_bytes. rewrite !length_app, !length_le_bytes, length_record_body. lia. Qed.

Definition records (rs : list WalRecord) : bytes := concat (map (record_bytes crc) rs).

Lemma length_records_snoc rs r :
  length (records (rs ++ [r])) = (length (records rs) + (25 + length (wr_payload r)))%nat.
Proof.
  unfold records. rewrite map_app, concat_app, length_app. cbn. by rewrite app_nil_r, length_record_bytes.
Qed.

(** The records from the start of the segment on, then what the segment held. *)
Definition over (old : bytes) (rs : list WalRecord) : bytes := records rs ++ drop (length (records rs)) old.

Record holds (old : bytes) (w : WalWriter) (rs : list WalRecord) : Prop := {
  ho_file : wal_file w = over old rs;
  ho_offset : wal_offset w = Z.of_nat (length (records rs));
  ho_segment : wal_segment_bytes w = Z.of_nat (length old);
}.

Lemma holds_append old w rs r :
  holds old w rs -> (length (records rs) + 25 + length (wr_payload r) <= length old)%nat ->
  holds old (append_record crc r w) (rs ++ [r]).
Proof.
  intros [Hf Ho Hs] Hroom. pose proof (length_records_snoc rs r) as Hw.
  unfold append_record. rewrite Hs, Ho, length_record_bytes.
  rewrite (proj2 (Z.ltb_ge _ _)) by lia. split; cbn [wal_file wal_offset wal_segment_bytes].
  - rewrite Hf, Nat2Z.id. unfold write_at, over. rewrite Hw, take_app_exact by done.
    rewrite length_record_bytes, <- drop_drop, drop_app_exact by done.
    rewrite drop_drop. unfold records. rewrite map_app, concat_app. cbn [map concat].
    by rewrite app_nil_r, <- !app_assoc.
  - rewrite Hw. lia.
  - done.
Qed.

(** ** The follower *)

(** Without its log, the follower is that of the examples. *)
Lemma wal_entry_forgets st e :
  wp_peer (wal_process_entry crc st e).1 = process_entry (wp_peer st.1) (e_index e, e_term e).
Proof.
  destruct st as [p appended]. unfold wal_process_entry, process_entry. cbn [fst].
  destruct (ps_log (wp_peer p)) as [|x l]; [done|]. cbn [is_nil].
  destruct (_ <? _); [done|]. destruct ((x :: l) !! _) as [[i et]|]; [|done].
  by destruct (et =? e_term e).
Qed.

(** The follower that took the entries [taken], in order. *)
Definition having (taken : list LogEntry) : PeerState :=
  foldl process_entry PeerState_new (map entry_position taken).

Lemma having_snoc taken e : having (taken ++ [e]) = process_entry (having taken) (entry_position e).
Proof. unfold having. by rewrite map_app, foldl_app. Qed.

Lemma process_entry_positions p it x : x ∈ ps_log (process_entry p it) -> x ∈ ps_log p \/ x = it.
Proof.
  destruct it as [i t]. unfold process_entry. destruct (is_nil _) eqn:En; cbn.
  - destruct (ps_log p); [|done]. cbn. rewrite list_elem_of_singleton. auto.
  - destruct (_ <? _); [auto|]. destruct (ps_log p !! _) as [[j et]|].
    + destruct (et =? t); [auto|]. cbn. rewrite elem_of_app, list_elem_of_singleton.
      intros [Hx|?]; [|auto]. left. by eapply subseteq_take.
    + cbn. rewrite elem_of_app, list_elem_of_singleton. tauto.
Qed.

(** It has no entry it did not take. *)
Lemma having_positions taken x : x ∈ ps_log (having taken) -> x ∈ map entry_position taken.
Proof.
  induction taken as [|e taken IH] using rev_ind; [by intros ?%not_elem_of_nil|].
  rewrite having_snoc, map_app, elem_of_app. intros [?| ->]%process_entry_positions; [auto|].
  right. by apply list_elem_of_singleton.
Qed.

Lemma having_last taken : Forall entry_wf taken -> is_u64 (last_position (having taken)).1.
Proof.
  intros Hwf. unfold last_position. destruct (last _) as [x|] eqn:E; cbn; [|unfold is_u64; machine; lia].
  apply last_Some_elem_of, having_positions in E. apply list_elem_of_fmap in E as (e & -> & He).
  rewrite Forall_forall in Hwf. apply (Hwf e He).
Qed.

(** The follower [p] took [taken] and has written their records. *)
Record tracks (old : bytes) (p : WalPeer) (taken : list LogEntry) : Prop := {
  tr_peer : wp_peer p = having taken;
  tr_wal : exists w, wp_wal p = Some w /\ holds old w (map entry_record taken) /\
             is_durable (wal_policy w) = true;
}.

Definition room (taken : list LogEntry) : nat := length (records (map entry_record taken)).

Lemma room_snoc taken e : room (taken ++ [e]) = (room taken + (25 + length (e_payload e)))%nat.
Proof. unfold room. rewrite map_app. apply length_records_snoc. Qed.

Lemma tracks_append old p taken e s :
  tracks old p taken -> (room taken + 25 + length (e_payload e) <= length old)%nat ->
  push_position (e_index e, e_term e) s = process_entry (wp_peer p) (e_index e, e_term e) ->
  tracks old (push_log e (wal_append crc e (set_peer s p))) (taken ++ [e]).
Proof.
  intros [Hp (w & Hw & Hh & Hpol)] Hroom Hs. split.
  - rewrite having_snoc, <- Hp. exact Hs.
  - exists (append_record crc (entry_record e) w). cbn. rewrite Hw. split; [done|].
    split; [|done]. rewrite map_app. by apply holds_append.
Qed.

Lemma tracks_entry old p appended taken e :
  tracks old p taken -> (room taken + 25 + length (e_payload e) <= length old)%nat ->
  wal_process_entry crc (p, appended) e = (p, appended) \/
  exists p', wal_process_entry crc (p, appended) e = (p', true) /\ tracks old p' (taken ++ [e]).
Proof.
  intros Ht Hroom. pose proof (wal_entry_forgets (p, appended) e) as Hf. cbn [fst] in Hf.
  unfold wal_process_entry in *. destruct (is_nil (ps_log (wp_peer p))) eqn:En.
  - right. eexists. split; [reflexivity|]. by apply tracks_append.
  - destruct (_ <? _); [by left|]. destruct (ps_log (wp_peer p) !! _) as [[i et]|].
    + destruct (et =? e_term e); [by left|]. right. eexists. split; [reflexivity|].
      by apply tracks_append.
    + right. eexists. split; [reflexivity|].
      replace p with (set_peer (wp_peer p) p) at 1 by (by destruct p).
      by apply tracks_append.
Qed.

(** The bytes of the records of a batch. *)
Definition batch_load (es : list LogEntry) : nat :=
  foldr (fun e k => 25 + length (e_payload e) + k)%nat 0%nat es.

Lemma batch_load_cons e es : batch_load (e :: es) = (25 + length (e_payload e) + batch_load es)%nat.
Proof. done. Qed.

Lemma tracks_entries old p appended taken es :
  tracks old p taken -> (room taken + batch_load es <= length old)%nat ->
  exists p' appended' new,
    foldl (wal_process_entry crc) (p, appended) es = (p', appended') /\
    tracks old p' (taken ++ new) /\ new `sublist_of` es /\
    (room (taken ++ new) <= room taken + batch_load es)%nat /\
    (p' = p /\ appended' = appended /\ new = [] \/ appended' = true).
Proof.
  revert p appended taken. induction es as [|e es IH]; intros p appended taken Ht Hroom.
  - exists p, appended, []. rewrite app_nil_r. cbn. split_and!; [done|done|done|lia|by left].
  - rewrite batch_load_cons in *. cbn [foldl].
    destruct (tracks_entry old p appended taken e) as [->|(p1 & -> & Ht1)]; [done|lia| |].
    + destruct (IH p appended taken Ht) as (p' & a' & new & E & Ht' & Hn & Hl & Ha); [lia|].
      exists p', a', new. split_and!; [done|done|by apply sublist_cons|lia|done].
    + destruct (IH p1 true _ Ht1) as (p' & a' & new & E & Ht' & Hn & Hl & Ha);
        [rewrite room_snoc; lia|].
      exists p', a', ([e] ++ new). rewrite app_assoc. split_and!; [done|done|by apply sublist_skip| |].
      * rewrite room_snoc in Hl. lia.
      * right. by destruct Ha as [(_ & -> & _)|Ha].
Qed.

(** Everything the follower has is on stable storage. *)
Definition synced (old : bytes) (p : WalPeer) (taken : list LogEntry) : Prop :=
  tracks old p taken /\ forall w, wp_wal p = Some w -> wal_durable w = wal_file w.

Lemma tracks_synced old p taken : tracks old p taken -> synced old (peer_wal_sync p) taken.
Proof.
  intros [Hp (w & Hw & [] & Hpol)]. split.
  - split; [done|]. exists (wal_sync w). cbn. rewrite Hw. split; [done|]. by split.
  - intros w'. cbn. rewrite Hw. intros [= <-]. by cbn; destruct (wal_policy w).
Qed.

Lemma segment_append old p taken ae body :
  let es := entry_iter body (Z.to_nat (ae_entry_count ae)) in
  synced old p taken -> (room taken + batch_load es <= length old)%nat ->
  exists new, synced old (wal_process_append crc ae body p).2 (taken ++ new) /\ new `sublist_of` es /\
    (room (taken ++ new) <= room taken + batch_load es)%nat.
Proof.
  intros es Hs Hroom. unfold wal_process_append. destruct (prev_accepted _ _).
  2:{ exists []. rewrite app_nil_r. split_and!; [done|apply sublist_nil_l|lia]. }
  fold es. destruct (tracks_entries old p false taken es (proj1 Hs) Hroom)
    as (p' & a' & new & E & Ht' & Hn & Hl & Ha). rewrite E.
  exists new. split_and!; [|done|done]. destruct a'; cbn [snd]; [by apply tracks_synced|].
  destruct Ha as [(-> & _ & ->)|]; [|done]. by rewrite app_nil_r.
Qed.

(** The entries of a decoded append. *)
Lemma decoded_entries ae body :
  msg_wf (MAppendEntries ae body) ->
  is_u64 (ae_term ae) /\ Forall entry_wf (entry_iter body (Z.to_nat (ae_entry_count ae))).
Proof.
  intros [Hw (items & <- & Hok & ->)]. rewrite entry_iter_block by done. split.
  - destruct Hw as [Hw _]. cbn in Hw. inversion_clear Hw. unfold in_width, is_u64 in *. machine. cbn in *. lia.
  - apply Forall_map. eapply Forall_impl; [exact Hok|]. intros i [[Hi _] _]. cbn in Hi.
    inversion_clear Hi as [|? ? ? ? W1 Hr]. inversion_clear Hr as [|? ? ? ? W2 _].
    unfold in_width, entry_wf, is_u64 in *. machine. cbn in *. lia.
Qed.

(** ** Frames *)

(** The entries of a frame, and whether it is an append, a plain one or a seeded
    one. *)
Definition frame_entries (f : bytes) : list LogEntry :=
  match decode_message f with
  | Ok im => match im_message im with
             | MAppendEntries ae body => entry_iter body (Z.to_nat (ae_entry_count ae))
             | _ => []
             end
  | Err _ => []
  end.

Definition plain_append (f : bytes) : bool :=
  match decode_message f with
  | Ok im => match im_message im with MAppendEntries _ _ => true | _ => false end
  | Err _ => false
  end.

Definition seeded_append (f : bytes) : bool :=
  match decode_message f with
  | Ok im => match im_message im with MAppendEntriesSeeded _ _ _ => true | _ => false end
  | Err _ => false
  end.

Lemma synced_frame old my_id p taken f :
  is_u64 my_id -> synced old p taken -> Forall entry_wf taken -> seeded_append f = false ->
  (room taken + batch_load (frame_entries f) <= length old)%nat ->
  exists resp p' new, wal_handle_frame crc my_id f p = Some (resp, p') /\
    (if plain_append f then is_Some resp else resp = None) /\
    synced old p' (taken ++ new) /\ Forall entry_wf (taken ++ new) /\ new `sublist_of` frame_entries f /\
    (room (taken ++ new) <= room taken + batch_load (frame_entries f))%nat.
Proof.
  intros Hid Hs Hwf Hpl Hroom. unfold wal_handle_frame, frame_entries, plain_append, seeded_append in *.
  assert (Hstay : exists resp p' new, Some (None, p) = Some (resp, p') /\ resp = (None : option bytes) /\
            synced old p' (taken ++ new) /\ Forall entry_wf (taken ++ new) /\ new `sublist_of` [] /\
            (room (taken ++ new) <= room taken + batch_load [])%nat).
  { exists None, p, []. rewrite app_nil_r. split_and!; try done. cbn. lia. }
  destruct (decode_message f) as [im|e] eqn:Ed; [|apply Hstay].
  pose proof (decode_message_wf f im Ed) as Hm. destruct (im_message im); try apply Hstay; [|done].
  destruct (decoded_entries _ _ Hm) as [Ht He].
  destruct (segment_append old p taken m payload Hs Hroom) as (new & Hs' & Hn & Hl).
  assert (Hwf' : Forall entry_wf (taken ++ new)).
  { apply Forall_app. split; [done|]. rewrite Forall_forall in He |- *. intros x Hx. apply He. by eapply elem_of_sublist. }
  destruct (wal_process_append crc m payload p) as [[ok mi] p'] eqn:Ep. cbn [snd] in Hs'.
  assert (mi = (last_position (wp_peer p')).1) as ->.
  { revert Ep. unfold wal_process_append. destruct (prev_accepted _ _); [|by intros [= _ <- <-]].
    destruct (foldl _ _ _) as [q b]. by intros [= _ <- <-]. }
  destruct (encode_resp_frame_decodes my_id (ae_term m) ok (last_position (wp_peer p')).1 Hid Ht)
    as (r & -> & _); [rewrite (tr_peer _ _ _ (proj1 Hs')); by apply having_last|].
  exists (Some r), p', new. by split_and!.
Qed.

Lemma batch_load_app es fs : batch_load (es ++ fs) = (batch_load es + batch_load fs)%nat.
Proof. induction es as [|e es IH]; [done|]. cbn [app]. rewrite !batch_load_cons. lia. Qed.

Lemma synced_run old my_id fs p taken :
  is_u64 my_id -> synced old p taken -> Forall entry_wf taken ->
  Forall (fun f => seeded_append f = false) fs ->
  (room taken + batch_load (concat (map frame_entries fs)) <= length old)%nat ->
  exists resps p' new, run_wal_follower crc my_id fs p = Some (resps, p') /\
    length resps = length (List.filter plain_append fs) /\ synced old p' (taken ++ new) /\
    new `sublist_of` concat (map frame_entries fs).
Proof.
  intros Hid Hs Hwf Hpl. revert p taken Hs Hwf. induction Hpl as [|f fs Hf _ IH]; intros p taken Hs Hwf Hroom.
  - exists [], p, []. by rewrite app_nil_r.
  - cbn [map concat] in Hroom. rewrite batch_load_app in Hroom.
    destruct (synced_frame old my_id p taken f) as (resp & p1 & new & E & Hr & Hs1 & Hwf1 & Hn & Hl); [done..|lia|].
    destruct (IH p1 _ Hs1 Hwf1) as (resps & p' & new' & E' & Hc & Hs' & Hn'); [lia|].
    cbn [run_wal_follower]. rewrite E. cbn. rewrite E'. cbn. do 3 eexists. split; [reflexivity|].
    rewrite <- app_assoc in Hs'. split; [|split; [exact Hs'|by apply sublist_app]].
    destruct (plain_append f); [destruct Hr as [r ->]; cbn; by rewrite Hc|by subst].
Qed.

(** C37: a durable follower acknowledges nothing it could lose: over a new segment
    or one an earlier run left synced, whatever frames arrive other than seeded
    appends, damaged ones included, as long as the records fit the segment it
    answers every append, and then the synced bytes of the segment are the records,
    in order, of exactly the entries [taken] it took from the frames, over what the
    segment held; its log is the one these entries make, so it has no entry whose
    record is not synced.  This holds after every frame, so at every answer. *)
Theorem follower_log_durable cfg left_over my_id fs :
  let seg := wc_segment_bytes cfg in
  let old := default (replicate (Z.to_nat seg) (to_byte 0)) left_over in
  is_durable (follower_policy cfg) = true -> is_u64 my_id -> Z.of_nat (length old) = seg ->
  Forall (fun f => seeded_append f = false) fs ->
  (batch_load (concat (map frame_entries fs)) <= length old)%nat ->
  exists resps p w taken,
    run_wal_follower crc my_id fs (WalPeer_new ((fun f => (f, f)) <$> left_over) cfg) = Some (resps, p) /\
    length resps = length (List.filter plain_append fs) /\
    taken `sublist_of` concat (map frame_entries fs) /\
    wp_peer p = foldl process_entry PeerState_new (map entry_position taken) /\
    (forall x, x ∈ ps_log (wp_peer p) -> x ∈ map entry_position taken) /\
    wp_wal p = Some w /\ wal_durable w = over old (map entry_record taken).
Proof.
  intros seg old Hd Hid Hlen Hpl Hload.
  set (known := (fun f => (f, f)) <$> left_over). set (w0 := wal_open known seg (follower_policy cfg)).
  assert (Ew : wp_wal (WalPeer_new known cfg) = Some w0) by (cbn; by destruct (follower_policy cfg)).
  assert (E0 : wal_file w0 = old /\ wal_durable w0 = old).
  { unfold w0, known, wal_open, old. by destruct left_over. }
  destruct E0 as [Ef Edur].
  assert (Hs : synced old (WalPeer_new known cfg) []).
  { split; [split; [done|]|].
    - exists w0. split; [done|]. split; [|unfold w0, wal_open; by destruct (ensure_prealloc _ _)].
      split; [exact Ef|..]; unfold w0, wal_open; destruct (ensure_prealloc _ _); cbn; [done|by rewrite Hlen].
    - intros w. rewrite Ew. intros [= <-]. congruence. }
  destruct (synced_run old my_id fs _ [] Hid Hs) as (resps & p & taken & E & Hc & [[Hp (w & Hw & Hh & _)] Hy] & Hn);
    [done|done|exact Hload|].
  exists resps, p, w, taken. split_and!; try done.
  - rewrite Hp. apply having_positions.
  - rewrite (Hy w Hw). apply Hh.
Qed.

(** ** The leader *)

(** What the leader's storage writes. *)
Inductive BenchWrite :=
| WriteHardState (h : HardState)
| WriteEntries (es : list LogEntry).

Definition bench_write (s : BenchStorage) (c : BenchWrite) : BenchStorage :=
  match c with
  | WriteHardState h => (bench_save_hard_state crc h s).2
  | WriteEntries es => (bench_append_entries crc es s).2
  end.

Definition records_of (c : BenchWrite) : list WalRecord :=
  match c with
  | WriteHardState h =>
      [{| wr_kind := HARDSTATE_KIND; wr_a := current_term h; wr_b := default 0 (voted_for h);
          wr_payload := [] |}]
  | WriteEntries es => map entry_record es
  end.

Definition leader_synced old s rs : Prop :=
  exists w, be_wal s = Some w /\ holds old w rs /\ wal_durable w = wal_file w /\
            is_durable (wal_policy w) = true.

Lemma holds_appends old w rs new :
  holds old w rs -> (length (records (rs ++ new)) <= length old)%nat ->
  holds old (foldl (fun w r => append_record crc r w) w new) (rs ++ new).
Proof.
  revert w rs. induction new as [|r new IH]; intros w rs Hh Hroom.
  - by rewrite app_nil_r.
  - cbn [foldl]. rewrite cons_middle, app_assoc in *. apply IH; [|done]. apply holds_append; [done|].
    pose proof (length_records_snoc rs r) as Hw. unfold records in *. rewrite map_app, concat_app, length_app in Hroom. lia.
Qed.

Lemma foldl_map_append w es :
  foldl (fun w e => append_record crc (entry_record e) w) w es =
  foldl (fun w r => append_record crc r w) w (map entry_record es).
Proof. revert w. induction es as [|e es IH]; intros w; [done|]. apply IH. Qed.

Lemma sync_synced old s w rs :
  be_wal s = Some (wal_sync w) -> holds old w rs -> is_durable (wal_policy w) = true ->
  leader_synced old s rs.
Proof.
  intros Hw [] Hd. exists (wal_sync w). split; [done|]. split; [by split|].
  split; [by cbn; destruct (wal_policy w)|done].
Qed.

Lemma appends_policy w rs :
  wal_policy (foldl (fun w r => append_record crc r w) w rs) = wal_policy w.
Proof. revert w. induction rs as [|r rs IH]; intros w; [done|]. cbn. by rewrite IH. Qed.

(** Each write of the leader is on stable storage when it returns. *)
Lemma bench_write_durable old s rs c :
  leader_synced old s rs -> (length (records (rs ++ records_of c)) <= length old)%nat ->
  leader_synced old (bench_write s c) (rs ++ records_of c).
Proof.
  intros (w & Hw & Hh & Hd & Hp) Hroom.
  pose proof (holds_appends old w rs _ Hh Hroom) as Hh'.
  pose proof (appends_policy w (records_of c)) as Hp'.
  destruct c as [h|es]; cbn [bench_write records_of] in *.
  - eapply sync_synced; [cbn; rewrite Hw; reflexivity|exact Hh'|exact (eq_trans (f_equal is_durable Hp') Hp)].
  - unfold bench_append_entries. destruct es as [|e es]; cbn [is_nil].
    { rewrite app_nil_r. by exists w. }
    eapply sync_synced; [cbn [be_wal snd]; rewrite Hw; cbn [fmap option_fmap option_map];
      by rewrite foldl_map_append|exact Hh'|exact (eq_trans (f_equal is_durable Hp') Hp)].
Qed.

(** A durable leader has every hard state and every entry it reported as stored
    in the synced bytes of its segment, in the order of the calls. *)
Theorem leader_log_durable cfg cs :
  let old := replicate (Z.to_nat (wc_segment_bytes cfg)) (to_byte 0) in
  is_durable (wc_policy cfg) = true -> 0 <= wc_segment_bytes cfg ->
  let rs := concat (map records_of cs) in
  Z.of_nat (length (records rs)) <= wc_segment_bytes cfg ->
  exists w, be_wal (foldl bench_write (BenchStorage_new None cfg) cs) = Some w /\
    wal_durable w = over old rs.
Proof.
  intros old Hd H0 rs Hroom.
  assert (Hlen : length old = Z.to_nat (wc_segment_bytes cfg)) by apply length_replicate.
  cut (leader_synced old (foldl bench_write (BenchStorage_new None cfg) cs) rs).
  { intros (w & Hw & Hh & E & _). exists w. split; [done|]. rewrite E. apply Hh. }
  assert (Hs : leader_synced old (BenchStorage_new None cfg) []).
  { exists (wal_open None (wc_segment_bytes cfg) (wc_policy cfg)). split; [by cbn; destruct (wc_policy cfg)|].
    split; [split; cbn; [done|done|by rewrite Hlen, Z2Nat.id]|done]. }
  assert (Hr : (length (records ([] ++ rs)) <= length old)%nat) by (cbn [app]; lia). clear Hroom.
  change (leader_synced old (foldl bench_write (BenchStorage_new None cfg) cs) ([] ++ rs)). subst rs. revert Hs Hr.
  generalize (BenchStorage_new None cfg), (@nil WalRecord). clearbody old.
  induction cs as [|c cs IH]; intros s rs Hs Hr.
  { by rewrite app_nil_r. }
  cbn [map concat foldl] in *. rewrite app_assoc in *. apply IH; [|done].
  apply bench_write_durable; [done|].
  unfold records in *. rewrite (map_app _ (rs ++ records_of c)), concat_app, length_app in Hr. lia.
Qed.
End Segments.

(** Two frames with three entries, the last of which replaces an older one. *)
Definition sum_crc (b : bytes) : Z := foldr (fun x n => of_byte x + n) 0 b mod 2 ^ 32.

Definition wal_entry (t i : Z) : LogEntry :=
  {| e_term := t; e_index := i; e_payload := [to_byte i; to_byte t] |}.
Definition wal_frame (t prev prev_t : Z) (es : list LogEntry) : bytes :=
  match encode_message_to_bytes [] 1 (MAppendEntriesVectored
    {| ae_term := t; ae_leader_id := 1; ae_prev_log_index := prev; ae_prev_log_term := prev_t;
       ae_leader_commit := 0; ae_entry_count := Z.of_nat (length es); ae_pad := 0 |} es) with
  | Some (Ok f) => f
  | _ => []
  end.
Definition wal_frames : list bytes :=
  [wal_frame 1 0 0 [wal_entry 1 1; wal_entry 1 2]; [to_byte 7]; wal_frame 2 1 1 [wal_entry 2 2]].
Definition durable_config : WalConfig :=
  {| wc_policy := Data; wc_scope := QuorumScope; wc_segment_bytes := 128 |}.

Lemma follower_log_durable_witness :
  exists resps p w,
    run_wal_follower sum_crc 2 wal_frames (WalPeer_new None durable_config) = Some (resps, p) /\
    length resps = 2%nat /\ ps_log (wp_peer p) = [(1, 1); (2, 2)] /\ wp_wal p = Some w /\
    exists taken, wal_durable w = over sum_crc (replicate 128 (to_byte 0)) (map entry_record taken) /\
      forall x, x ∈ ps_log (wp_peer p) -> x ∈ map entry_position taken.
Proof.
  assert (Hd : is_durable (follower_policy durable_config) = true) by reflexivity.
  assert (Hid : is_u64 2) by (vm_compute; split; discriminate).
  assert (Hseg : Z.of_nat (length (default (replicate (Z.to_nat (wc_segment_bytes durable_config)) (to_byte 0)) None)) =
                 wc_segment_bytes durable_config) by (vm_compute; reflexivity).
  assert (Hpl : Forall (fun f => seeded_append f = false) wal_frames)
    by (repeat constructor; vm_compute; reflexivity).
  assert (Hl : (batch_load (concat (map frame_entries wal_frames)) <=
                length (default (replicate (Z.to_nat (wc_segment_bytes durable_config)) (to_byte 0)) None))%nat)
    by (apply Nat.leb_le; vm_compute; reflexivity).
  destruct (follower_log_durable sum_crc durable_config None 2 wal_frames Hd Hid Hseg Hpl Hl)
    as (resps & p & w & taken & E & _ & _ & _ & Hx & Hw & Hdur).
  change ((fun f : bytes => (f, f)) <$> None) with (@None (bytes * bytes)) in E.
  exists resps, p, w. split; [exact E|].
  assert (Hv : length resps = 2%nat /\ ps_log (wp_peer p) = [(1, 1); (2, 2)]).
  { assert (Ev : (fun x => (length x.1, ps_log (wp_peer x.2))) <$>
                 run_wal_follower sum_crc 2 wal_frames (WalPeer_new None durable_config) =
                 Some (2%nat, [(1, 1); (2, 2)])) by (vm_compute; reflexivity).
    rewrite E in Ev. injection Ev as E1 E2. by split. }
  destruct Hv as [H1 H2]. split; [exact H1|]. split; [exact H2|]. split; [exact Hw|]. exists taken. split; [exact Hdur|exact Hx].
Defined.
