(* ===== verification/BenchRuns.v ===== *)
(** * BenchRuns: the stand-ins of the benchmarks and their clusters

    What the programs of [benches/] put around the engine, where it is not what
    the examples use: the in-process transport of [memory_e2e_bench.rs], whose
    sends run the follower at once; the storage without payloads of
    [election_bench.rs]; the parameters and the empty storage of
    [dispatch_bench.rs]; the follower over a socket of [tcp_raft_bench.rs]; and the
    clusters built from them, which are run.  The storages with seeds are in
    [SeededStorage], the write-ahead log in [BenchWal].

    [election_storage_is_blank] says what the storage of the elections is,
    [sim_follower_as_channel] that the socket follower does what the one on a
    channel does, and [transport_bench_durable] and the other runs that the
    measured loops commit. *)

From stdpp Require Import base list sets gmap strings pretty.
From Stdlib Require Import ZArith Lia.
From S2P Require Import Prelude Types Wire Codec CodecFacts Arena Progress Quorum Traits Membership.
From S2P Require Import NodeState Node Samples Replication Commit Transfer Inbound Campaign Leader.
From S2P Require Import Propose Frames ExampleStorage ExampleTransport ExampleFollower ExampleTcp.
From S2P Require Import ExampleRuns ExampleTcpRun SeededStorage BenchWal.

Local Open Scope string_scope.
Local Open Scope list_scope.
Local Open Scope raft_scope.
Local Open Scope Z_scope.

(** ** [dispatch_bench.rs] *)

Record SyncParams := { sync_start : Z; sync_end : Z }.
Record SyncAck := { saved_until : Z }.

Definition encode_sync_params (v : SyncParams) : res bytes :=
  Ok (le_bytes 8 (sync_start v) ++ le_bytes 8 (sync_end v)).

(** [None] when a slice is out of range. *)
Definition decode_sync_params (b : bytes) : option (res SyncParams) :=
  if (16 <=? length b)%nat
  then Some (Ok {| sync_start := le_value (take 8 b); sync_end := le_value (take 8 (drop 8 b)) |})
  else None.

Definition encode_sync_ack (v : SyncAck) : res bytes := Ok (le_bytes 8 (saved_until v)).

Definition decode_sync_ack (b : bytes) : option (res SyncAck) :=
  if (8 <=? length b)%nat then Some (Ok {| saved_until := le_value (take 8 b) |}) else None.

(** The parameters and the answer of the command come back as they were sent. *)
Lemma sync_roundtrip p a :
  is_u64 (sync_start p) -> is_u64 (sync_end p) -> is_u64 (saved_until a) ->
  (exists b, encode_sync_params p = Ok b /\ decode_sync_params b = Some (Ok p)) /\
  (exists b, encode_sync_ack a = Ok b /\ decode_sync_ack b = Some (Ok a)).
Proof.
  intros Hs He Ha. split; eexists; (split; [reflexivity|]).
  - unfold decode_sync_params. rewrite length_app, !length_le_bytes. cbn [Nat.leb Nat.add].
    rewrite take_app_length', drop_app_length', take_ge by (by rewrite ?length_le_bytes).
    rewrite !le_value_bytes by (change (Z.of_nat 8 * 8) with 64; unfold is_u64 in *; machine; lia).
    by destruct p.
  - unfold decode_sync_ack. rewrite length_le_bytes. cbn [Nat.leb].
    rewrite take_ge by (by rewrite length_le_bytes).
    rewrite le_value_bytes by (change (Z.of_nat 8 * 8) with 64; unfold is_u64 in *; machine; lia).
    by destruct a.
Qed.

Inductive NullStorage := null_storage.

#[export] Instance NullStorage_storage : RaftStorage NullStorage := {
  load_hard_state s := (Ok HardState_default, s);
  save_hard_state _ s := (Ok tt, s);
  append_entries _ s := (Ok tt, s);
  append_entries_seeded := default_append_entries_seeded;
  read_entries _ _ _ s := (Ok [], s);
  read_entry_headers := default_read_entry_headers;
  for_each_payload := default_for_each_payload;
  entry_at _ _ s := (Ok None, s);
  storage_term_at := default_term_at (fun _ _ s => (Ok None, s));
  last_log_position s := (Ok (0, 0), s);
  truncate_suffix _ s := (Ok tt, s);
  truncate_before := default_truncate_before;
  save_snapshot _ _ s := (Ok tt, s);
  load_snapshot s := (Ok None, s);
  load_snapshot_meta := default_load_snapshot_meta (fun s => (Ok None, s));
}.

(** Its transport is that of [examples/basic_raft.rs]. *)
Definition NullTransport_transport (never : RaftError) : RaftTransport NoopTransport :=
  NoopTransport_transport never.

(** ** [election_bench.rs]: positions without payloads *)

Record ElectionStorage := {
  el_hard_state : HardState;
  el_log : list (LogIndex * Term);
}.

Definition ElectionStorage_default : ElectionStorage :=
  {| el_hard_state := HardState_default; el_log := [] |}.

Definition blank_entry (it : LogIndex * Term) : LogEntry :=
  {| e_term := it.2; e_index := it.1; e_payload := [] |}.

Definition election_append_entries (new : list LogEntry) (s : ElectionStorage)
  : res unit * ElectionStorage :=
  (Ok tt, {| el_hard_state := el_hard_state s;
             el_log := el_log s ++ map (fun e => (e_index e, e_term e)) new |}).

Definition election_read_entries (from to : LogIndex) (buf : Z) (s : ElectionStorage)
  : res (list LogEntry) * ElectionStorage :=
  (Ok (map blank_entry
         (List.filter (fun it => (from <=? it.1) && (it.1 <? to)) (el_log s))), s).

Definition election_truncate_suffix (from : LogIndex) (s : ElectionStorage)
  : res unit * ElectionStorage :=
  (Ok tt, {| el_hard_state := el_hard_state s;
             el_log := List.filter (fun it => it.1 <? from) (el_log s) |}).

Definition election_last_log_position (s : ElectionStorage)
  : res (LogIndex * Term) * ElectionStorage := (Ok (default (0, 0) (last (el_log s))), s).

Definition election_entry_at (index : LogIndex) (buf : Z) (s : ElectionStorage)
  : res (option LogEntry) * ElectionStorage :=
  match List.find (fun it => it.1 =? index) (el_log s) with
  | Some it => (Ok (Some {| e_term := it.2; e_index := index; e_payload := [] |}), s)
  | None => (Ok None, s)
  end.

#[export] Instance ElectionStorage_storage : RaftStorage ElectionStorage := {
  load_hard_state s := (Ok (el_hard_state s), s);
  save_hard_state hs s := (Ok tt, {| el_hard_state := hs; el_log := el_log s |});
  append_entries := election_append_entries;
  append_entries_seeded := default_append_entries_seeded;
  read_entries := election_read_entries;
  read_entry_headers := default_read_entry_headers;
  for_each_payload := default_for_each_payload;
  entry_at := election_entry_at;
  storage_term_at := default_term_at election_entry_at;
  last_log_position := election_last_log_position;
  truncate_suffix := election_truncate_suffix;
  truncate_before := default_truncate_before;
  save_snapshot _ _ s := (Ok tt, s);
  load_snapshot s := (Ok None, s);
  load_snapshot_meta := default_load_snapshot_meta (fun s => (Ok None, s));
}.

(** A call with the payloads taken out. *)
Definition blank_call (c : Call) : Call :=
  match c with
  | CallAppendEntries es =>
      CallAppendEntries (map (fun e => blank_entry (e_index e, e_term e)) es)
  | _ => c
  end.

(** The sizes of buffers are sizes. *)
Definition sized_call (c : Call) : Prop :=
  match c with
  | CallReadEntries _ _ buf | CallEntryAt _ buf => 0 <= buf
  | _ => True
  end.

Definition blank_stored (it : LogIndex * Term) : StoredEntry := to_stored (blank_entry it).

(** The two storages hold the same positions. *)
Definition blanked (s : ElectionStorage) (b : BasicStorage) : Prop :=
  bs_entries b = map blank_stored (el_log s) /\ bs_hard_state b = el_hard_state s.

Lemma filter_map_comm {A B} (f : A -> B) (p : B -> bool) l :
  List.filter p (map f l) = map f (List.filter (fun x => p (f x)) l).
Proof. induction l as [|x l IH]; [done|]. cbn. destruct (p (f x)); cbn; by rewrite IH. Qed.

Lemma find_map_comm {A B} (f : A -> B) (p : B -> bool) l :
  List.find p (map f l) = f <$> List.find (fun x => p (f x)) l.
Proof. induction l as [|x l IH]; [done|]. cbn. by destruct (p (f x)). Qed.

Lemma copy_blank buf l : 0 <= buf -> copy_fitting buf (map blank_stored l) = map blank_entry l.
Proof.
  intros Hb. induction l as [|it l IH]; [done|]. cbn. change (se_len (blank_stored it)) with 0.
  destruct (Z.ltb_spec buf 0); [lia|]. by rewrite Z.sub_0_r, IH.
Qed.

Lemma blank_entry_at i buf s b :
  blanked s b -> 0 <= buf -> (election_entry_at i buf s).1 = (basic_entry_at i buf b).1.
Proof.
  intros [He _] Hb. unfold election_entry_at, basic_entry_at. rewrite He, find_map_comm.
  cbn [se_index blank_stored to_stored blank_entry e_index].
  destruct (List.find _ (el_log s)) as [it|] eqn:E; cbn; [|done].
  apply List.find_some in E as [_ E%Z.eqb_eq]. rewrite <- E.
  change (se_len (blank_stored it)) with 0. by destruct (Z.ltb_spec buf 0); [lia|].
Qed.

Lemma election_entry_at_reads i buf s : (election_entry_at i buf s).2 = s.
Proof. unfold election_entry_at. by destruct (List.find _ _). Qed.

Lemma blank_serve c s b :
  blanked s b -> sized_call c ->
  (serve c s).1 = (serve (blank_call c) b).1 /\ blanked (serve c s).2 (serve (blank_call c) b).2.
Proof.
  intros Hs Hc. pose proof Hs as [He Hh].
  destruct c as [|h|es|from to buf| |i buf|i| |from| |]; cbn [serve answered blank_call fst snd] in *.
  - split; [|done]. cbn. by rewrite Hh.
  - done.
  - split; [done|]. split; [|done]. cbn. by rewrite He, map_app, !map_map.
  - split; [|done]. cbn. rewrite He, filter_map_comm, copy_blank by done. done.
  - done.
  - cbn. rewrite election_entry_at_reads. split; [|done]. f_equal. by apply blank_entry_at.
  - cbn. unfold default_term_at. pose proof (blank_entry_at i TERM_PROBE_BUF s b Hs) as E.
    pose proof (election_entry_at_reads i TERM_PROBE_BUF s) as Es.
    destruct (election_entry_at i TERM_PROBE_BUF s) as [r s']. cbn in E, Es |- *. subst s'.
    rewrite E by (vm_compute; discriminate). done.
  - split; [|done]. cbn. unfold stored_last. rewrite He. rewrite fmap_last.
    by destruct (last (el_log s)) as [[? ?]|].
  - split; [done|]. split; [|done]. cbn. by rewrite He, filter_map_comm.
  - done.
  - done.
Qed.

(** The storage of the elections answers every sequence of calls as the one of
    [examples/basic_raft.rs] does on the same calls with empty payloads: terms and
    indexes are right, contents are gone. *)
Theorem election_storage_is_blank cs :
  Forall sized_call cs ->
  (serve_all cs ElectionStorage_default).1 =
  (serve_all (map blank_call cs) BasicStorage_default).1.
Proof.
  assert (H : blanked ElectionStorage_default BasicStorage_default) by done.
  revert H. generalize ElectionStorage_default, BasicStorage_default.
  induction cs as [|c cs IH]; intros s b Hs Hc; [done|].
  apply Forall_cons in Hc as [Hc Hcs]. cbn [map serve_all].
  destruct (blank_serve c s b Hs Hc) as [Ha Hs'].
  destruct (serve c s) as [a s1], (serve (blank_call c) b) as [a' b1]. cbn in Ha, Hs'.
  specialize (IH s1 b1 Hs' Hcs).
  destruct (serve_all cs s1), (serve_all (map blank_call cs) b1). cbn in *. by rewrite Ha, IH.
Qed.

(** ** [memory_e2e_bench.rs]: followers inside the transport *)

(** The storage is that of [examples/inmem_throughput.rs], with the seeded methods
    written out. *)
Definition E2eStorage_storage : RaftStorage InmemStorage := {|
  load_hard_state s := (Ok (im_hard_state s), s);
  save_hard_state := inmem_save_hard_state;
  append_entries := inmem_append_entries;
  append_entries_seeded _ _ s := (Err (StorageErr "not implemented"), s);
  read_entries := inmem_read_entries;
  read_entry_headers _ _ s := (Ok None, s);
  for_each_payload _ _ s := (Ok [], s);
  entry_at := inmem_entry_at;
  storage_term_at := default_term_at inmem_entry_at;
  last_log_position := inmem_last_log_position;
  truncate_suffix := inmem_truncate_suffix;
  truncate_before := default_truncate_before;
  save_snapshot _ _ s := (Ok tt, s);
  load_snapshot s := (Ok None, s);
  load_snapshot_meta := default_load_snapshot_meta (fun s => (Ok None, s));
|}.

(** The follower is that of the examples. *)
Definition LegacyPeerState : Type := PeerState.
Definition process_append_legacy := process_append.

Record MemTransport := {
  mt_rx : list bytes;
  mt_peers : PeerState * PeerState;
}.

Definition MemTransport_new : MemTransport :=
  {| mt_rx := []; mt_peers := (PeerState_new, PeerState_new) |}.

Definition peer_state (peer : PeerId) (t : MemTransport) : option PeerState :=
  if peer =? 2 then Some (mt_peers t).1 else if peer =? 3 then Some (mt_peers t).2 else None.

Definition set_peer_state (peer : PeerId) (p : PeerState) (t : MemTransport) : MemTransport :=
  {| mt_rx := mt_rx t;
     mt_peers := if peer =? 2 then (p, (mt_peers t).2) else ((mt_peers t).1, p) |}.

(** The answer goes to the leader's own channel.  Its encoding does not fail
    ([encode_resp_frame_decodes]). *)
Definition send_resp (peer : PeerId) (term : Z) (success : bool) (match_index : Z)
  (t : MemTransport) : MemTransport :=
  {| mt_rx := mt_rx t ++ [default [] (encode_resp_frame peer term success match_index)];
     mt_peers := mt_peers t |}.

Definition handle_sim_inbound (peer : PeerId) (frame : bytes) (t : MemTransport)
  : res unit * MemTransport :=
  match decode_message frame with
  | Err e => (Err e, t)
  | Ok inbound =>
      match im_message inbound with
      | MAppendEntries ae body =>
          let '((success, match_index), t) :=
            match peer_state peer t with
            | Some p =>
                let '(r, p) := process_append_legacy ae body p in (r, set_peer_state peer p t)
            | None => ((false, 0), t)
            end in
          (Ok tt, send_resp peer (ae_term ae) success match_index t)
      | _ => (Ok tt, t)
      end
  end.

(** A frame off the channel, into the caller's buffer. *)
Definition mem_copy_out (f : bytes) (out_len : Z) : res bytes :=
  if out_len <? Z.of_nat (length f) then Err (TransportErr "buffer too small") else Ok f.

Definition mem_rest (fs : list bytes) (t : MemTransport) : MemTransport :=
  {| mt_rx := fs; mt_peers := mt_peers t |}.

(** Spins while the channel is empty: [never] as in [ExampleTransport]. *)
Definition mem_recv_frame (never : RaftError) (out_len : Z) (t : MemTransport)
  : res bytes * MemTransport :=
  match mt_rx t with
  | f :: fs => (mem_copy_out f out_len, mem_rest fs t)
  | [] => (Err never, t)
  end.

Definition mem_recv_frame_timeout (timeout out_len : Z) (t : MemTransport)
  : res (option bytes) * MemTransport :=
  match mt_rx t with
  | f :: fs => (let? f := mem_copy_out f out_len in Ok (Some f), mem_rest fs t)
  | [] => (Ok None, t)
  end.

Definition MemTransport_transport (never : RaftError) : RaftTransport MemTransport := {|
  send_vectored peer slices := handle_sim_inbound peer (concat slices);
  send_frame_owned peer frame := handle_sim_inbound peer frame;
  recv_frame := mem_recv_frame never;
  recv_frame_timeout := mem_recv_frame_timeout;
|}.

(** [SeededTransport]: takes everything, gives nothing. *)
Definition SeededTransport_transport : RaftTransport MemTransport := {|
  send_vectored _ _ t := (Ok tt, t);
  send_frame_owned _ _ t := (Ok tt, t);
  recv_frame _ t := (Ok [], t);
  recv_frame_timeout _ _ t := (Ok None, t);
|}.

Definition mem_config (node_id : PeerId) : NodeConfig := {|
  cluster_id := 1; cfg_node_id := node_id; cfg_peers := [1; 2; 3]; cfg_learners := [];
  bootstrap_peers := [{| bp_id := 1; bp_addr := "127.0.0.1:8001" |};
                      {| bp_id := 2; bp_addr := "127.0.0.1:8002" |};
                      {| bp_id := 3; bp_addr := "127.0.0.1:8003" |}];
  cfg_timing := TimingConfig_default; cfg_limits := LimitsConfig_default |}.

(** ** The measured loops *)

Section Loops.
Context {S T : Type} `{RaftStorage S} `{RaftTransport T}.
#[local] Abbreviation Node := (RaftNode S T TickClock unit).

(** A node of a cluster made the leader of term 1. *)
Definition bench_leader (config : NodeConfig) (storage : S) (transport : T) : res Node :=
  let? node := node_new config storage transport {| tick_now := 0; tick_step := 1 |} tt in
  Ok (become_leader_for_benchmark 1 node).2.

(** [iters] batches, each of which must commit: the indexes, and the node after
    the last; [None] when an [unwrap] panics. *)
Fixpoint propose_batches_times (iters : nat) (payloads : list bytes) (n : Node)
  : option (list LogIndex * Node) :=
  match iters with
  | O => Some ([], n)
  | Datatypes.S iters' =>
      match propose_batch_once VecTuning_default 100 payloads n with
      | Ok (Ok idx, n) =>
          (fun r => (idx ++ r.1, r.2)) <$> propose_batches_times iters' payloads n
      | _ => None
      end
  end.
End Loops.

Definition make_leader : res (RaftNode InmemStorage MemTransport TickClock unit) :=
  @bench_leader _ _ E2eStorage_storage (mem_config 1) InmemStorage_new MemTransport_new.

Definition make_seeded_leader : res (RaftNode SeededMemStorage MemTransport TickClock unit) :=
  bench_leader (mem_config 1) SeededMemStorage_new MemTransport_new.

(** What the loops of the in-process benchmark end with: the indexes and the last
    positions of the two followers. *)
Definition memory_bench (iters : nat) (payloads : list bytes)
  : option (list LogIndex * LogIndex * LogIndex) :=
  match make_leader with
  | Ok n =>
      (fun r => (r.1, (last_position (mt_peers (transport r.2)).1).1,
                 (last_position (mt_peers (transport r.2)).2).1)) <$>
      @propose_batches_times _ _ E2eStorage_storage (MemTransport_transport NoQuorum)
        iters payloads n
  | Err _ => None
  end.

(** Every batch commits at the next indexes, and both followers have all of it. *)
Lemma memory_bench_commits :
  memory_bench 4 (replicate 3 [to_byte 0xAA]) = Some (seqZ 1 12, 12, 12).
Proof. vm_compute. reflexivity. Qed.

(** The seeded leader has nobody to answer it. *)
Lemma seeded_leader_gets_no_quorum :
  match make_seeded_leader with
  | Ok n =>
      match @propose_batch_once _ _ _ _ _ SeededTransport_transport _ _ VecTuning_default 100 [[]] n with
      | Ok (Err e, _) => e = NoQuorum
      | _ => False
      end
  | Err _ => False
  end.
Proof. vm_compute. reflexivity. Qed.

(** ** [tcp_raft_bench.rs]: the follower over a socket *)

(** The follower's log is that of the examples. *)
Definition SimPeerState : Type := PeerState.
Definition sim_process_append := process_append.

(** The slices of an answer. *)
Definition sim_answer (my_id : PeerId) (term : Z) (success : bool) (match_index : Z) : list bytes :=
  let resp := {| aer_term := term; aer_match_index := match_index;
                 aer_success := if success then 1 else 0; aer_pad := replicate 7 (to_byte 0) |} in
  match encode_message_vectored my_id (MAppendEntriesResp resp) (replicate 128 (to_byte 0)) with
  | Some (Ok (buf, vectors)) => map (slice_bytes buf) vectors
  | _ => []
  end.

(** One frame: the slices to write and the state after it. *)
Definition sim_handle (my_id : PeerId) (frame : bytes) (state : PeerState)
  : list bytes * PeerState :=
  match decode_message frame with
  | Err _ => ([], state)
  | Ok inbound =>
      match im_message inbound with
      | MAppendEntries ae body =>
          let '((success, match_index), state) := sim_process_append ae body state in
          (sim_answer my_id (ae_term ae) success match_index, state)
      | MAppendEntriesSeeded ae headers payloads =>
          let success := prev_accepted ae state in
          let state :=
            if success then
              foldl (fun p h => push_position (eh_index h, eh_term h) p) state
                (map fst (raw_iter headers (Contiguous payloads)))
            else state in
          (sim_answer my_id (ae_term ae) success (last_position state).1, state)
      | _ => ([], state)
      end
  end.

Section Sim.
  Context {K : Type} (write_all : bytes -> K -> res unit * K).

(** [run_follower_sim] once the connections stand; the results of its writes are
    ignored. *)
Fixpoint run_follower_sim (fuel : nat) (my_id : PeerId) (stream : list bytes) (buf : bytes)
  (state : PeerState) (leader_conn : K) : result (PeerState * bytes * K) Stop :=
  match fuel with
  | O => Err OutOfFuel
  | S fuel' =>
      match read_frame_into stream buf with
      | (None, (_, buf)) => Ok (state, buf, leader_conn)
      | (Some frame, (stream, buf)) =>
          let '(vectors, state) := sim_handle my_id frame state in
          run_follower_sim fuel' my_id stream buf state
            (foldl (fun k v => (write_all v k).2) leader_conn vectors)
      end
  end.

Context (wire : K -> bytes).
Hypothesis write_all_writes : forall b k, wire (write_all b k).2 = wire k ++ b.

Lemma sim_writes vectors k :
  wire (foldl (fun k v => (write_all v k).2) k vectors) = wire k ++ concat vectors.
Proof.
  revert k. induction vectors as [|v vs IH]; intros k; cbn; [by rewrite app_nil_r|].
  by rewrite IH, write_all_writes, app_assoc.
Qed.

Lemma sim_answer_frame my_id term success match_index f :
  encode_resp_frame my_id term success match_index = Some f ->
  concat (sim_answer my_id term success match_index) = f.
Proof.
  unfold encode_resp_frame, sim_answer. cbv zeta. set (r := encode_message_vectored _ _ _).
  destruct r as [[[buf vectors]|e]|]; [|done..]. by intros [= <-].
Qed.

(** Where the follower on a channel does not panic, the one on a socket writes the
    same answer and is in the same state. *)
Lemma sim_handle_as_channel my_id f state resp state' :
  follower_handle_frame my_id f state = Some (resp, state') ->
  (sim_handle my_id f state).2 = state' /\
  concat (sim_handle my_id f state).1 = default [] resp.
Proof.
  unfold follower_handle_frame, sim_handle, sim_process_append.
  destruct (decode_message f) as [inbound|e]; [|by intros [= <- <-]].
  destruct (im_message inbound); try by intros [= <- <-].
  destruct (process_append _ _ _) as [[success i] p].
  destruct (encode_resp_frame _ _ _ _) eqn:E; [|done].
  intros [= <- <-]. split; [done|]. by apply sim_answer_frame in E.
Qed.

(** Whatever the pieces its socket hands out, the follower does what the one on a
    channel does on the frames: it ends in the same state, having written the same
    answers, and keeps the bytes of an unfinished frame. *)
Theorem sim_follower_as_channel my_id fs tl stream buf state k resps state' :
  Forall framed fs -> torn tl -> Forall (fun c => c <> []) stream ->
  buf ++ concat stream = concat fs ++ tl ->
  run_channel_follower my_id fs state = Some (resps, state') ->
  exists k', run_follower_sim (S (length fs)) my_id stream buf state k = Ok (state', tl, k') /\
             wire k' = wire k ++ concat resps.
Proof using write_all_writes.
  intros Hfs Ht. revert stream buf state k resps. induction Hfs as [|f fs Hf _ IH];
    intros stream buf state k resps Hne E.
  - cbn [length run_follower_sim run_channel_follower concat app] in *. intros [= <- <-].
    rewrite <- E in Ht. rewrite read_frame_into_torn by done. exists k. by rewrite E, app_nil_r.
  - cbn [concat] in E. rewrite <- app_assoc in E.
    destruct (read_frame_into_framed _ _ _ _ Hf Hne E) as (stream' & buf' & Hr & Hne' & E').
    cbn [length]. remember (S (length fs)) as fuel. cbn [run_follower_sim run_channel_follower].
    destruct (follower_handle_frame my_id f state) as [[resp state1]|] eqn:Ef; [|done].
    destruct (run_channel_follower my_id fs state1) as [[rest state2]|] eqn:Ec; [|done].
    intros [= <- <-]. rewrite Hr.
    apply sim_handle_as_channel in Ef as [Hs Hw]. destruct (sim_handle my_id f state) as [vs st].
    cbn in Hs, Hw. subst st.
    destruct (IH stream' buf' state1 (foldl (fun k v => (write_all v k).2) k vs) rest Hne' E' Ec)
      as (k' & Hrun & Hk).
    exists k'. split; [done|]. rewrite Hk, sim_writes, Hw, <- app_assoc. f_equal.
    by destruct resp; cbn.
Qed.
End Sim.

(** ** Its cluster *)

(** The leader's transport, with the follower tasks at the other ends of the
    connections; a connection is made by the first send to a peer with an
    address. *)
Record SimTcp := {
  sc_rx : list bytes;
  sc_addrs : list PeerId;
  sc_conns : gmap Z TcpPeer;
}.

Section SimPieces.
  (** The sockets take and give at most [piece] bytes at a time; [connect] is the
      connection to a peer, with its follower behind it. *)
  Context (piece : nat) (connect : PeerId -> res TcpPeer).

(** The connections with the one to [peer] among them. *)
Definition sim_conn (peer : PeerId) (t : SimTcp) : res (gmap Z TcpPeer) :=
  if bool_decide (peer ∈ sc_addrs t) then
    match sc_conns t !! peer with
    | Some _ => Ok (sc_conns t)
    | None => let? s := connect peer in Ok (<[peer := s]> (sc_conns t))
    end
  else Err (TransportErr ("unknown peer PeerId(" +:+ pretty peer +:+ ")")).

Definition sim_on_conns {A} (peer : PeerId)
  (op : gmap Z TcpPeer -> option (res A * gmap Z TcpPeer)) (t : SimTcp) : res A * SimTcp :=
  match sim_conn peer t with
  | Err e => (Err e, t)
  | Ok conns =>
      match op conns with
      | Some (r, conns) => (r, {| sc_rx := sc_rx t; sc_addrs := sc_addrs t; sc_conns := conns |})
      | None => (Err NoQuorum, t)
      end
  end.

Definition sim_send_vectored (peer : PeerId) (slices : list bytes) (t : SimTcp)
  : res unit * SimTcp :=
  sim_on_conns peer
    (tcp_send_vectored (piece_write piece) (length (concat slices)) peer slices) t.

Definition sim_send_frame_owned (peer : PeerId) (frame : bytes) (t : SimTcp)
  : res unit * SimTcp :=
  sim_on_conns peer (tcp_send_frame_owned whole_write peer frame) t.

(** One follower and the task that reads its answers, run until both wait. *)
Definition sim_run_peer (id : PeerId) (p : TcpPeer) : option (list bytes * TcpPeer) :=
  let n := S (length (tp_conn p)) in
  match run_follower_sim (fun resp k => (Ok tt, k ++ resp)) n id (pieces piece n (tp_conn p))
          (tp_buf p) (tp_state p) [] with
  | Err _ => None
  | Ok (state, buf, answers) =>
      let m := S (length answers) in
      '(frames, dbuf) ← demux_task m (pieces piece m answers) (tp_demux_buf p) [];
      Some (frames, {| tp_conn := []; tp_buf := buf; tp_state := state; tp_demux_buf := dbuf |})
  end.

Definition sim_run_peers (t : SimTcp) : SimTcp :=
  let ran := omap (fun ip => (fun r => (ip.1, r)) <$> sim_run_peer ip.1 ip.2)
               (map_to_list (sc_conns t)) in
  {| sc_rx := sc_rx t ++ concat (map (fun x => x.2.1) ran); sc_addrs := sc_addrs t;
     sc_conns := list_to_map (map (fun x => (x.1, x.2.2)) ran) |}.

Definition sim_rest (fs : list bytes) (t : SimTcp) : SimTcp :=
  {| sc_rx := fs; sc_addrs := sc_addrs t; sc_conns := sc_conns t |}.

Definition sim_recv_frame (out_len : Z) (t : SimTcp) : res bytes * SimTcp :=
  match sc_rx t with
  | f :: fs => (mem_copy_out f out_len, sim_rest fs t)
  | [] => (Err NoQuorum, t)
  end.

Definition sim_recv_frame_timeout (timeout out_len : Z) (t : SimTcp)
  : res (option bytes) * SimTcp :=
  match sc_rx t with
  | f :: fs => (let? f := mem_copy_out f out_len in Ok (Some f), sim_rest fs t)
  | [] => (Ok None, t)
  end.

(** The tasks run whenever the leader waits. *)
#[local] Instance SimTcp_transport : RaftTransport SimTcp := {
  send_vectored := sim_send_vectored;
  send_frame_owned := sim_send_frame_owned;
  recv_frame len t := sim_recv_frame len (sim_run_peers t);
  recv_frame_timeout timeout len t :=
    sim_recv_frame_timeout timeout len (if timeout =? 0 then t else sim_run_peers t);
}.

Definition make_cluster : res (RaftNode SeededMemStorage SimTcp TickClock unit) :=
  bench_leader (make_config ("127.0.0.1:40001", "127.0.0.1:40002", "127.0.0.1:40003"))
    SeededMemStorage_new {| sc_rx := []; sc_addrs := [2; 3]; sc_conns := ∅ |}.

(** The loops of the latency and batch benchmarks. *)
Definition tcp_bench (iters : nat) (payloads : list bytes) : option (list LogIndex) :=
  match make_cluster with
  | Ok n => fst <$> propose_batches_times iters payloads n
  | Err _ => None
  end.

(** The seeded case of the comparison: the storage, which the node shares, is
    filled first; then the batches are proposed.  The indexes reported and the
    headers stored. *)
Definition tcp_bench_seeded (iters : nat) (payloads : list bytes)
  : option (list LogIndex * list LogIndex) :=
  match make_cluster with
  | Ok n =>
      let entries := imap (fun i p => {| e_term := 1; e_index := Z.of_nat i + 1; e_payload := p |})
                       payloads in
      let n := set_storage (append_entries entries (storage n)).2 n in
      (fun r => (r.1, map eh_index (sm_headers (storage r.2)))) <$>
      propose_batches_times iters payloads n
  | Err _ => None
  end.
End SimPieces.

(** Every batch commits, whatever the pieces. *)
Lemma tcp_bench_commits :
  let connect _ := Ok TcpPeer_new in
  tcp_bench 4096 connect 3 (replicate 2 [to_byte 0xAA]) = Some (seqZ 1 6) /\
  tcp_bench 7 connect 1 (replicate 2 [to_byte 0xAA]) = Some (seqZ 1 2).
Proof. vm_compute. split; reflexivity. Qed.

(** The entries filled in past the node are not part of its log: the proposals get
    indexes that are taken, and are stored a second time. *)
Lemma primed_storage_holds_indexes_twice :
  tcp_bench_seeded 4096 (fun _ => Ok TcpPeer_new) 1 (replicate 2 [to_byte 0xAA]) = Some ([1; 2], [1; 2; 1; 2]).
Proof. vm_compute. reflexivity. Qed.

(** ** [raft_transport_bench.rs]: the cluster with write-ahead logs *)

(** In durable mode the timing is widened. *)
Definition transport_config (cfg : WalConfig) (addrs : string * string * string) : NodeConfig :=
  let config := make_config addrs in
  if is_durable (wc_policy cfg) then {|
    cluster_id := cluster_id config; cfg_node_id := cfg_node_id config;
    cfg_peers := cfg_peers config; cfg_learners := cfg_learners config;
    bootstrap_peers := bootstrap_peers config;
    cfg_timing := {| heartbeat_ms := 500; election_min_ms := 2000; election_max_ms := 4000 |};
    cfg_limits := cfg_limits config |}
  else config.

(** The receiving side and the channel transport are those of
    [examples/inmem_throughput.rs], the socket transport that of
    [examples/tcp_throughput.rs]. *)
Definition bench_inbound_recv := inbound_recv.
Definition bench_inbound_recv_timeout := inbound_recv_timeout.
Definition bench_channel_transport := ChannelTransport_transport.
Definition bench_tcp_send_vectored := @tcp_send_vectored.
Definition bench_tcp_send_frame_owned := @tcp_send_frame_owned.

Record WalChannel := {
  wl_channel : ChannelTransport;
  wl_followers : list (PeerId * WalPeer);
}.

Section WalCluster.
  Context (crc : bytes -> Z) (cfg : WalConfig).

(** Every follower handles what is in its channel; one that panics is gone. *)
Definition run_wal_tasks (t : WalChannel) : WalChannel :=
  let c := wl_channel t in
  let ran := omap (fun pf => (fun rs => (pf.1, rs)) <$>
               run_wal_follower crc pf.1 (frames_for pf.1 (ct_accepted c)) pf.2)
             (wl_followers t) in
  {| wl_channel :=
       {| ct_inbound := {| rx_frames := rx_frames (ct_inbound c) ++ concat (map (fun x => x.2.1) ran);
                           rx_closed := is_nil ran |};
          ct_peers := ct_peers c; ct_accepted := [] |};
     wl_followers := map (fun x => (x.1, x.2.2)) ran |}.

Definition on_wal_channel {A} (op : ChannelTransport -> res A * ChannelTransport) (t : WalChannel)
  : res A * WalChannel :=
  let '(r, c) := op (wl_channel t) in (r, {| wl_channel := c; wl_followers := wl_followers t |}).

#[local] Instance WalChannel_transport : RaftTransport WalChannel := {
  send_vectored peer slices := on_wal_channel (channel_send_vectored peer slices);
  send_frame_owned peer frame := on_wal_channel (channel_send_frame peer frame);
  recv_frame len t := on_wal_channel (channel_recv_frame NoQuorum len) (run_wal_tasks t);
  recv_frame_timeout timeout len t :=
    on_wal_channel (channel_recv_frame_timeout timeout len)
      (if timeout =? 0 then t else run_wal_tasks t);
}.

#[local] Instance WalCluster_storage : RaftStorage BenchStorage := BenchStorage_storage crc.

Definition make_wal_leader (config : NodeConfig) (transport : WalChannel)
  : res (RaftNode BenchStorage WalChannel TickClock unit) :=
  bench_leader config (BenchStorage_new None cfg) transport.

Definition make_wal_cluster : res (RaftNode BenchStorage WalChannel TickClock unit) :=
  make_wal_leader (transport_config cfg ("127.0.0.1:9101", "127.0.0.1:9102", "127.0.0.1:9103"))
    {| wl_channel := {| ct_inbound := {| rx_frames := []; rx_closed := false |};
                        ct_peers := <[2 := true]> {[3 := true]}; ct_accepted := [] |};
       wl_followers := [(2, WalPeer_new None cfg); (3, WalPeer_new None cfg)] |}.

Definition warmup : nat := if is_durable (wc_policy cfg) then 16 else 1.

(** The rounds to warm up, then those that are measured. *)
Definition measure_propose_batch (payloads : list bytes) (iters : nat)
  (n : RaftNode BenchStorage WalChannel TickClock unit)
  : option (list LogIndex * RaftNode BenchStorage WalChannel TickClock unit) :=
  '(warm, n) ← propose_batches_times warmup payloads n;
  '(timed, n) ← propose_batches_times iters payloads n;
  Some (warm ++ timed, n).

Definition measure_propose_once (payload : bytes) := measure_propose_batch [payload].

(** The synced part of a segment. *)
Definition synced_bytes (w : option WalWriter) : bytes :=
  match w with
  | Some w => wal_durable w
  | None => []
  end.

(** A measured run: the indexes reported, and the synced bytes of the segments of
    the leader and of each follower. *)
Definition transport_bench (iters : nat) (payload : bytes)
  : option (list LogIndex * list bytes) :=
  match make_wal_cluster with
  | Ok n =>
      '(indexes, n) ← measure_propose_once payload iters n;
      let n := set_transport (run_wal_tasks (transport n)) n in
      Some (indexes, synced_bytes (be_wal (storage n)) ::
                     map (fun pf => synced_bytes (wp_wal pf.2)) (wl_followers (transport n)))
  | Err _ => None
  end.
End WalCluster.

(** The records of entries of term 1 at [indexes] with the payload [payload], and
    zeros up to the end of the segment. *)
Definition expected_segment (seg : Z) (payload : bytes) (indexes : list LogIndex) : bytes :=
  over (fun _ => 7) (replicate (Z.to_nat seg) (to_byte 0))
    (map (fun i => entry_record {| e_term := 1; e_index := i; e_payload := payload |}) indexes).

(** With every log synced, each commit that is reported is on the disk of all
    three, in order; with only the leader's, on its disk alone. *)
Lemma transport_bench_durable :
  let stored := expected_segment 1024 [to_byte 5] (seqZ 1 18) in
  transport_bench (fun _ => 7) {| wc_policy := Data; wc_scope := QuorumScope; wc_segment_bytes := 1024 |}
    2 [to_byte 5] = Some (seqZ 1 18, [stored; stored; stored]) /\
  transport_bench (fun _ => 7) {| wc_policy := Full; wc_scope := LeaderScope; wc_segment_bytes := 1024 |}
    2 [to_byte 5] = Some (seqZ 1 18, [stored; []; []]).
Proof. vm_compute. split; reflexivity. Qed.

(** A segment that is full is written from the start again: of the records written
    before, those that are overwritten are gone. *)
Lemma transport_bench_segment_wraps :
  transport_bench (fun _ => 7) {| wc_policy := Data; wc_scope := LeaderScope; wc_segment_bytes := 100 |}
    0 [to_byte 5] =
  Some (seqZ 1 16, [expected_segment 100 [to_byte 5] [16; 14; 15]; []; []]).
Proof. vm_compute. reflexivity. Qed.
